(* ===== verification/_CoqProject ===== *)
-Q . S2P
Prelude.v
Text.v
Ids.v
State.v
World.v
Concrete.v
AuditWal.v
AuditFacts.v
AuditProps.v
Store.v
StoreFacts.v
Gates.v
Reconcile.v
Wellformed.v
Operator.v
Safety.v
Trace.v
GateFacts.v
ReplayFacts.v
OpenFacts.v
SendProps.v
ScopeProps.v
GateProps.v
ReconcileProps.v
SystemProps.v
Scenario.v
AuthorityWitness.v
Window.v
Breaker.v
BreakerFacts.v
BreakerBurst.v
BreakerSeq.v
BreakerProps.v
Workload.v
WorkGraph.v
GraphFacts.v
GraphProps.v
LedgerProps.v
GraphWitness.v
PromptQueue.v
QueueProps.v
QueueTrace.v
QueueWitness.v
Ledger.v
LedgerStore.v
LedgerOps.v
LedgerLogic.v
LedgerCommit.v
LedgerRecovery.v
LedgerSpec.v
LedgerRuns.v
LedgerRefine.v
LedgerOpsRefine.v
LedgerProtocol.v
LedgerTheorems.v
LedgerFences.v
LedgerWitness.v
LedgerFaults.v
Chars.v
Result.v
HelpDigest.v
HelpCorpus.v
HelpCorpusFacts.v
HelpDto.v
HelpAuthority.v
HelpAuthorityFacts.v
HelpAuthorityProps.v
HelpExecutor.v
HelpExecInv.v
HelpExecProps.v
HelpHost.v
HelpHostProps.v
HelpRedact.v
HelpValidate.v
HelpValidateProps.v
HelpWitness.v
Patch.v
PatchFacts.v
PatchParse.v
PatchProps.v
