(* ===== verification/Prelude.v ===== *)
(** * Verification of GrokPtah: root of the library

    GrokPtah is a coding-agent host written in Rust.  This library verifies the
    part of it that decides whether an effect may leave the machine, the
    authority spine in [src/crates/common/xai-host-authority/src], the shared
    circuit breaker in [src/crates/common/xai-circuit-breaker/src], three
    parts of the agent bridge in [src/crates/codegen/grokptah-agent-bridge/src]
    (the work records and work graph of the orchestrator, the durable ledger they
    are kept in, and the prompt queue), Semantic Help in
    [src/crates/common/grokptah-help-contract], [-authority] and [-runtime] with
    its desktop commands, and the patch tool in
    [src/crates/codegen/xai-grok-tools/src/implementations/codex/apply_patch].

    ** The authority spine

    One process owns a root directory with a snapshot ([authority.json]) and an
    append-only log ([audit.log] with its checkpoint [audit.head]).  Gate 1
    authenticates a credential into a context.  Gate 2 seals capabilities on a
    resource and mints one-use leases from them.  Gate 3 turns a lease into an
    attempt that moves from [preparing] to [sending] to a settled, failed or
    uncertain outcome; an operator can reconcile an uncertain one with a grant.
    Gate 4 is the log: every decision is appended before or with the change of
    the snapshot, and a restart replays it.

    Files, with the source each one models:
    - [Prelude], [Text]: integers, byte strings, hexadecimal, and the parts of
      Rust's standard library the crates use ([str::trim], [str::lines], UTF-8,
      [BTreeMap] order).
    - [Ids]: [ids.rs], [digest.rs], [error.rs].  [State]: [state.rs],
      [receipt.rs] and the record types of [audit.rs].
    - [World]: the machine.  [World] is the disk, the cached head of the log,
      whether the root is held, the poison flags of the two mutexes and a tick
      counter; [M] is the state-and-error monad
      of the methods; [Codec] (serde_json and SHA-256) and [Environment] (clock,
      uuid, paths, and the result of every file-system call) are classes whose
      laws are separate classes.  [Concrete] has an instance of each.
    - [AuditWal]: [audit.rs].  [Store]: [store.rs].  [Gates]: [gates.rs].
      [Reconcile]: [reconciliation.rs].  [Operator]: [HostAuthority::open],
      [operator_send.rs], [projection.rs], [internal.rs].
    - [Trace]: the authority as a transition system over its public methods, and
      what every step keeps of a lease that was spent or is spoken for.

    Each method is one definition with the source's name; a closure passed to
    [with_state] is a definition suffixed [_tx].  A call either returns a value
    ([Done]), returns an error ([Raised]), or the process dies in the middle
    ([Crashed]); every file-system effect consumes a tick at which the
    environment may fail it or kill the process, so a theorem over all
    environments covers every failure point.

    What the theorems show:
    - [AuditFacts], [AuditProps]: the log refines a hash chain of records
      ([chain], [intact]); append extends it or leaves it recognisably broken;
      the verifier decides it; rewriting it under its checkpoint needs a hash
      collision.
    - [StoreFacts], [ScopeProps]: a transaction is atomic on the snapshot under
      every fault and crash; authentication, credential replacement, the three
      rotations and reopening do what their contracts say.
    - [Wellformed], [Safety], [SystemProps]: the invariant [wf] of the snapshot
      and the append-only log hold in every reachable system.
    - [GateFacts], [ReplayFacts], [OpenFacts] (inversion of completed runs),
      [SendProps], [GateProps], [ReconcileProps], [ScopeProps]: a permit implies
      durable evidence, one live attempt per request, one use per lease and
      grant, justified failure reports, convergent replay, leases that never
      widen, reconciliation backed by evidence, and scoped reads that do not
      reveal other principals' attempts.
    - [Scenario], [AuthorityWitness]: one concrete run through all the gates, a
      run with a failing commit, and each theorem applied to them.

    ** The circuit breaker

    Clients of a remote service ask [check] before a request and [record] its
    outcome; the breaker opens when enough of a sliding window failed, cools
    down, lets a few probes through and closes again.  Its fields are atomics
    without a lock.
    - [Window]: wrapping integers, [FromStr], [f64] as the Standard Library's
      [spec_float], and [window.rs].
    - [Breaker]: the other files of the crate.  A method is a tree of atomic
      operations ([prog]); [pool_step] interleaves any number of calls one
      operation at a time, [solo] runs one call alone, and the clock may advance
      before every operation.
    - [BreakerFacts]: what every interleaving preserves.  [BreakerBurst]: a
      bound on the admissions of concurrent [check]s, by counting ghost states.
      [BreakerSeq]: calls that follow each other refine an abstract machine, and
      recovery from any memory.  [BreakerProps]: the properties, and
      concrete schedules, among them three races.

    ** The work records and the work graph

    The orchestrator keeps durable work items that depend on each other inside
    a lane (a session and a workspace).
    - [Workload]: [workload.rs] and the records it stores: the states, policies,
      results and leases of items and attempts, and their validators, in an
      error monad over [OrchError].
    - [WorkGraph]: [graph.rs]: the lane, the total order of work, dependency
      resolution, validation with the cycle search, the admission evaluator and
      the operator projection.  The canonical form of a path is a parameter.
    - [GraphFacts]: the invariants of the peeling loop and of the walk.
      [GraphProps]: the cycle search decides acyclicity, stays within the
      bounds of its two loops and is deterministic; validation is exactly its specification and sees one lane;
      the order of work is canonical.  [LedgerProps]: what the evaluator admits,
      what the projection shows, which file lists a policy may carry.
      [GraphWitness]: concrete lanes.

    ** The work ledger

    The store keeps items, attempts, decisions and request receipts in one file
    each.  A change of an item and its attempts is first written as an intent;
    the files follow, the receipt of the request is completed and the intent is
    removed; a new process replays the intents it finds.
    - [Ledger]: errors, file names, request scopes, receipts, responses and the
      two kinds of intent with their validators; the disk as one map per
      directory, the store, and a monad whose methods return, are refused, or
      end with the process.  [LedgerEnv] gives the outcome of every write and
      read, the clock, fresh identifiers and the order of a directory, by the
      number of the effect: a theorem for every [LedgerEnv] covers every
      combination of faults.
    - [LedgerStore]: reading and writing files, receipts, the commit of an
      intent and recovery ([reopen], the part of [OrchStore::open] that settles
      the ledger; what [open] does next, [reconcile_workloads], is an operation
      of its own), and field updates.  [LedgerOps]: the public methods of
      [store.rs] for one work item: saving it, assignment and decisions (the
      authorization of an execution among them), reconciliation, claims, the
      methods under a lease (renewal, linking a run, progress, parking for input,
      release, completion, failure), approval, retry and cancellation.
      [adopt_operation_request] is an argument; runs, agents and retained
      candidates are read through [LedgerPeers].  Not among them, although they
      change work items too: [abandon_managed_intent], [apply_verified_candidate]
      and the discarding of candidates, the finalization of managed executions,
      [save_work_item_unchecked], and what routines and manager plans do.
    - [LedgerLogic]: a program logic for the monad, with one postcondition for a
      return and one for every early end.  [LedgerCommit]: the disks a commit
      can leave behind, and that committing again from any of them ends in the
      same disk.  [LedgerRecovery]: the same for [reopen].
    - [LedgerSpec]: the abstract specification: one rule per change an operation
      may commit, and the invariants of an item with its attempts.
      [LedgerRuns]: sequences of such changes on whole ledgers.
      [LedgerRefine], [LedgerOpsRefine]: every operation is such a sequence.
      [LedgerProtocol]: the operations as one type, restarts, and histories of
      any number of processes.
    - [LedgerTheorems]: the refinement, that a restart without faults completes,
      the form of the files, one live lease per item, the retry budget, evidence
      behind success, the finality of cancellation, revisions, what a claim
      grants, and that a change and its answer are one.  [LedgerFences]: stale
      revisions and foreign, forged or lapsed leases change nothing.
      [LedgerWitness]: concrete histories.  [LedgerFaults]: four runs in which
      the code does not do what its comments say.
    The theorems assume: records with the same digest are equal
    ([LedgerDigestsLaws], an idealisation of SHA-256 of the JSON value); the
    clock does not go back; a directory lists each entry once; and per operation
    ([op_ready]) that no other item has the file of the named one, that fresh
    identifiers name no file, that a request which asks for an attempt is
    bound to a method that has one, and that a saved item is new, queued and
    without attempts ([save_work_item] itself also overwrites an item, with
    whatever counters and state the caller gives it, so that no invariant of the
    item would survive).  The condition on requests is needed, and so is a
    restart after a refusal that left an intent, which [history] builds into its
    steps ([settles_to]): the code keeps serving after a failed commit, and
    [LedgerFaults] shows what happens then.

    ** The prompt queue

    A session holds follow-ups, steering accepted in the middle of a turn and
    steering handed to the model; every entry has a version that writers check.
    - [PromptQueue]: [prompt_queue.rs] and [prompt_combine.rs].
    - [QueueProps]: the batch a turn takes and its restoration, the durable
      snapshot, [clear], and the versions a move changes.  [QueueTrace]: a
      session as a transition system over all methods and restarts; a version
      identifies the contents of an entry along every run.  [QueueWitness]:
      concrete sessions.


    ** Semantic Help

    Help answers a question from a reviewed corpus through a provider that may
    say anything.  The contract crate ([grokptah-help-contract]) defines the
    corpus and the records that cross the boundary, each under a digest; the
    authority ([grokptah-help-authority]) decides who sees what and issues
    grants and admissions; the runtime ([grokptah-help-runtime]) sends at most
    one request per run, redacts the reply and keeps only the sentences it can
    quote; the desktop host ([desktop/src-tauri/src/help.rs]) exposes this to a
    renderer.
    - [Chars]: [str::chars], offsets, boundaries and splitting over UTF-8 byte
      strings, and what validity gives.  [Result]: the [Result] monad for any
      error type.
    - [HelpDigest]: [digest.rs].  [HelpCorpus]: [corpus.rs].  [HelpDto]: [dto.rs].
      [HelpAuthority]: the authority.  [HelpExecutor]: [executor.rs], over a
      class [Provider] with the three methods of the trait.  [HelpRedact]:
      [redact.rs].  [HelpValidate]: [validate.rs] and [project].  [HelpHost]:
      the commands, with the clock and the poison flag of the mutex explicit.
    - [HelpCorpusFacts], [HelpAuthorityFacts], [HelpAuthorityProps]: what the
      verifier accepts, that the builder and every filtered view are accepted;
      what a principal sees, what the check at a checkpoint decides, that an
      admission carries one request and that a grant stays dead.
    - [HelpExecInv], [HelpExecProps]: a provider that logs its calls stands for
      any provider; over every interleaving of the authority's and the
      executor's methods, sends and replies are authorised on the spot, a run is
      sent at most once and reported as it happened, slots are bounded and
      released only when the provider was seen to stop (except by
      [settle_outcome]).
    - [HelpHostProps]: with the provider that refuses everything an ask settles
      by the next poll, nothing is sent, only public text crosses, and a handle serves its session.
    - [HelpRedact] (end of the file): what a redacted text cannot contain (secrets and
      paths are specified there without the code), and that clean words stay.
      [HelpValidateProps]: the two-row loop finds the longest common run; what
      an answer keeps and what its citations quote; the second pass and the
      projection lose nothing.  [HelpWitness]: one corpus, one ask, one reply.
    Theorems about digests name the messages between which no collision is
    assumed.  Identifiers are numbered by a [u64]; the invariants of the executor
    hold for fewer than [2^62] runs.  Strings of a corpus and replies are assumed
    to be valid UTF-8 where a theorem speaks of characters, as Rust's [String]
    guarantees.

    ** The patch tool

    [apply_patch] in
    [src/crates/codegen/xai-grok-tools/src/implementations/codex/apply_patch]
    changes files from a patch in a format of its own.  It parses the patch,
    computes every change in memory from the files as they are, and only then
    writes.
    - [Patch]: [errors.rs], [parser.rs], [seek_sequence.rs], [apply.rs] and
      [tool.rs], over a class [AsyncFileSystem] with the methods of the trait
      and [create_dir_all].  A panic of [Vec::insert] is [None].
    - [PatchFacts]: the search against its specification ([strictest]), the
      replacements applied in reverse as one pass from left to right ([splice]),
      and the relation [Patched] between a file, its chunks and the result.
    - [PatchParse]: the format as a syntax with its rendering, the parser on a
      rendered patch, and that its loops take lines in every round.
    - [PatchProps]: the round trip, the search, what chunks do to a file, and what
      a run leaves in the files and announces, for every file system and, where
      contents are spoken of, for those that keep them by path ([AsyncFileSystemOk],
      with a memory as instance; a disk, where [f] and [./f] or a link name one
      file, satisfies it only while a patch names each file by one path);
      concrete runs, also of the cases the theorems
      exclude (a chunk marked as the end of the file, a file that ends in a blank
      line, two hunks for one path).
    ** Bounds

    Loops are folds or structural recursions, except the two of [find_cycle]:
    [peel] has one unit of fuel more than there are items and [walk] one more
    than the residue has, which [find_cycle_decides] shows to be enough.  [chars]
    and the loops that cut markup have the length of the text as fuel, and the
    loop that promotes runs the length of the queue ([tick_work_conserving]).  The
    loops of the patch parser have the number of lines, which [parser_ends] shows
    to be enough.  A [u64] is a [Z] with the checked, saturating or wrapping operation the code calls.
    [log_room] bounds the log below [2^64 - 4] bytes, so that the numbering of
    records cannot reach its limit.

    ** Not modelled

    - Pages that the kernel drops after an [fsync] it reported as failed; the
      temporary file of a rename; the contents of the lock files.
    - Interleavings inside one method of the authority: its lifecycle and audit
      mutexes and the file locks serialise methods, so a call is one step.
    - Reorderings between different atomics of the breaker that acquire and
      release would still allow; its logging and its test-only hooks.
    - Freshness of uuids is assumed only where the prompt queue adds an entry
      and where the ledger claims or decides, as a condition of that step; no
      other theorem needs it.
    - Of the work ledger: the settlement of managed finalization (a parameter,
      and the operation [managed_finalization] is excluded from the theorems on
      commits), receipts of the first version, and the parts of [store.rs] that
      keep agents, runs, routines, manager plans and verified changes.  The
      store's mutex serialises its methods, so a call is one step.
    - Of Semantic Help: the code generator and the seed texts, the JSON the
      document is parsed from, and the registration of the commands with Tauri;
      the host's mutex serialises the commands, so a command is one step.
    - Of the patch tool: the lookup of its resources, its metadata, and paths
      other than Unix ones; line counts are not bounded by [usize].
    - The rest of the repository (the agent bridge apart from the files above,
      the terminal interface, the desktop client, the service and tool crates):
      asynchronous services, rendering and operating-system interfaces, which
      the manifest lists part by part. *)

From stdpp Require Export base tactics list strings gmap sorting ssreflect.
From Stdlib Require Export ZArith Lia.
From Stdlib Require Import Ascii.

#[global] Unset Asymmetric Patterns.

(** ** Machine integers

    A Rust [u64] is a [Z]; the operations that can leave the range are the
    checked and saturating ones the code calls. *)

Definition U64_MAX : Z := 2 ^ 64 - 1.

Definition checked_add (a b : Z) : option Z :=
  if decide (a + b ≤ U64_MAX)%Z then Some (a + b)%Z else None.

Definition saturating_add (a b : Z) : Z := Z.min (a + b) U64_MAX.

Definition saturating_sub (a b : Z) : Z := Z.max 0 (a - b).

Definition is_u64 (a : Z) : Prop := (0 ≤ a ≤ U64_MAX)%Z.

#[global] Instance is_u64_dec a : Decision (is_u64 a).
Proof. unfold is_u64. apply _. Defined.

Lemma checked_add_Some a b c :
  checked_add a b = Some c ↔ c = (a + b)%Z ∧ (a + b ≤ U64_MAX)%Z.
Proof. unfold checked_add. case_decide; naive_solver. Qed.

Lemma checked_add_None a b :
  checked_add a b = None ↔ (U64_MAX < a + b)%Z.
Proof. unfold checked_add. case_decide; naive_solver lia. Qed.

(** ** Byte strings

    A Rust [String] or [&[u8]] is the [string] of its bytes. *)

Definition byte_val (c : ascii) : Z := Z.of_N (N_of_ascii c).

Definition byte_of (z : Z) : ascii := ascii_of_N (Z.to_N z).

Definition bytes_of (l : list Z) : string :=
  foldr (λ z s, String (byte_of z) s) "" l.

Fixpoint string_forall (p : ascii → bool) (s : string) : bool :=
  match s with
  | "" => true
  | String c s' => p c && string_forall p s'
  end.

Fixpoint string_take (n : nat) (s : string) : string :=
  match n, s with
  | S n', String c s' => String c (string_take n' s')
  | _, _ => ""
  end.

Fixpoint string_drop (n : nat) (s : string) : string :=
  match n, s with
  | S n', String _ s' => string_drop n' s'
  | _, _ => s
  end.

Fixpoint string_rev_app (s acc : string) : string :=
  match s with
  | "" => acc
  | String c s' => string_rev_app s' (String c acc)
  end.

Definition string_rev (s : string) : string := string_rev_app s "".

(** [str::strip_prefix], [str::starts_with], [str::contains]. *)
Fixpoint strip_prefix (p s : string) : option string :=
  match p, s with
  | "", _ => Some s
  | String a p', String b s' => if decide (a = b) then strip_prefix p' s' else None
  | String _ _, "" => None
  end.

Definition starts_with (p s : string) : bool :=
  match strip_prefix p s with Some _ => true | None => false end.

Fixpoint str_contains (p s : string) : bool :=
  starts_with p s ||
  match s with "" => false | String _ s' => str_contains p s' end.

Lemma string_app_cons c a b : String c a +:+ b = String c (a +:+ b).
Proof. reflexivity. Qed.

Lemma string_app_nil_l a : "" +:+ a = a.
Proof. reflexivity. Qed.

Lemma string_app_nil_r a : a +:+ "" = a.
Proof. induction a as [|c a IH]; [done|]. by rw string_app_cons IH. Qed.

Lemma string_app_assoc a b c : (a +:+ b) +:+ c = a +:+ (b +:+ c).
Proof. induction a as [|x a IH]; [done|]. by rw !string_app_cons IH. Qed.

Lemma string_length_app a b :
  String.length (a +:+ b) = (String.length a + String.length b)%nat.
Proof. induction a as [|x a IH]; [done|]. rw string_app_cons. simpl. by rw IH. Qed.

Lemma string_app_inj_len a b c d :
  String.length a = String.length c → a +:+ b = c +:+ d → a = c ∧ b = d.
Proof.
  revert c. induction a as [|x a IH]; intros [|y c] Hl H; try discriminate Hl; [done|].
  rw !string_app_cons in H. injection H as -> H. injection Hl as Hl.
  destruct (IH c Hl H) as [-> ->]. done.
Qed.

Lemma string_app_inj_l a b c : a +:+ b = a +:+ c → b = c.
Proof. intros H. by destruct (string_app_inj_len a b a c eq_refl H). Qed.

Lemma string_forall_app p a b :
  string_forall p (a +:+ b) = string_forall p a && string_forall p b.
Proof.
  induction a as [|x a IH]; [done|]. rw string_app_cons. simpl.
  by rw IH andb_assoc.
Qed.

Lemma strip_prefix_Some p s r : strip_prefix p s = Some r ↔ s = p +:+ r.
Proof.
  revert s. induction p as [|a p IH]; intros s; simpl.
  - naive_solver.
  - destruct s as [|b s]; [naive_solver|]. rw string_app_cons.
    case_decide; [subst; rw IH|]; naive_solver.
Qed.

Lemma starts_with_app p r : starts_with p (p +:+ r) = true.
Proof.
  unfold starts_with. rw (proj2 (strip_prefix_Some p (p +:+ r) r)); done.
Qed.

Lemma starts_with_true p s : starts_with p s = true ↔ ∃ r, s = p +:+ r.
Proof.
  unfold starts_with. destruct (strip_prefix p s) as [r|] eqn:E.
  - apply strip_prefix_Some in E as ->. naive_solver.
  - split; [done|]. intros [r Hr]. apply strip_prefix_Some in Hr. congruence.
Qed.

Lemma string_take_length n s :
  String.length (string_take n s) = Nat.min n (String.length s).
Proof. revert n. induction s as [|c s IH]; intros [|n]; simpl; rw ?IH //. Qed.

Lemma string_take_drop n s : string_take n s +:+ string_drop n s = s.
Proof.
  revert s. induction n as [|n IH]; intros [|c s]; try done. simpl.
  by rw string_app_cons IH.
Qed.

Lemma string_rev_app_app a b acc :
  string_rev_app (a +:+ b) acc = string_rev_app b (string_rev_app a acc).
Proof. revert acc. induction a as [|c a IH]; intros acc; [done|]. apply IH. Qed.

Lemma string_rev_app_spec a acc : string_rev_app a acc = string_rev a +:+ acc.
Proof.
  revert acc. induction a as [|c a IH]; intros acc; [done|].
  unfold string_rev. simpl. rw (IH (String c acc)) (IH (String c "")).
  by rw string_app_assoc.
Qed.

Lemma string_rev_snoc a c : string_rev (a +:+ String c "") = String c (string_rev a).
Proof. unfold string_rev. by rw string_rev_app_app. Qed.

Lemma string_rev_involutive a : string_rev (string_rev a) = a.
Proof.
  induction a as [|c a IH]; [done|].
  unfold string_rev at 2. simpl. rw string_rev_app_spec string_rev_snoc.
  by rw IH.
Qed.

Lemma string_rev_concat a b : string_rev (a +:+ b) = string_rev b +:+ string_rev a.
Proof. unfold string_rev at 1. by rw string_rev_app_app string_rev_app_spec. Qed.

Lemma string_rev_length a : String.length (string_rev a) = String.length a.
Proof.
  induction a as [|c a IH]; [done|].
  unfold string_rev. simpl. rw string_rev_app_spec string_length_app IH /=. lia.
Qed.

(** ** Hexadecimal

    [hex] is the lower-case printer of [digest.rs]; [to_digit16] is
    [char::to_digit(16)], which also accepts upper case. *)

Definition hex_digit (n : Z) : ascii :=
  if decide (n < 10)%Z then byte_of (48 + n) else byte_of (87 + n).

Definition to_digit16 (c : ascii) : option Z :=
  let b := byte_val c in
  if decide (48 ≤ b ≤ 57)%Z then Some (b - 48)%Z
  else if decide (97 ≤ b ≤ 102)%Z then Some (b - 87)%Z
  else if decide (65 ≤ b ≤ 70)%Z then Some (b - 55)%Z
  else None.

Fixpoint hex (s : string) : string :=
  match s with
  | "" => ""
  | String c s' =>
      String (hex_digit (byte_val c / 16)) (String (hex_digit (byte_val c mod 16)) (hex s'))
  end.

(** The [chunks(2)] loop of [decode_id] and [decode_digest] on an even-length
    string: the high nibble is checked before the low one. *)
Fixpoint unhex (s : string) : option string :=
  match s with
  | "" => Some ""
  | String hi (String lo s') =>
      match to_digit16 hi, to_digit16 lo with
      | Some h, Some l =>
          match unhex s' with
          | Some r => Some (String (byte_of (Z.lor (Z.shiftl h 4) l)) r)
          | None => None
          end
      | _, _ => None
      end
  | String _ "" => None
  end.

Lemma hex_length s : String.length (hex s) = (2 * String.length s)%nat.
Proof. induction s as [|c s IH]; [done|]. simpl. rw IH. lia. Qed.

Lemma unhex_byte c :
  to_digit16 (hex_digit (byte_val c / 16)) = Some (byte_val c / 16)%Z ∧
  to_digit16 (hex_digit (byte_val c mod 16)) = Some (byte_val c mod 16)%Z ∧
  byte_of (Z.lor (Z.shiftl (byte_val c / 16) 4) (byte_val c mod 16)) = c.
Proof. destruct c as [[] [] [] [] [] [] [] []]; vm_compute; done. Qed.

Lemma unhex_hex s : unhex (hex s) = Some s.
Proof.
  induction s as [|c s IH]; [done|]. cbn [hex unhex].
  destruct (unhex_byte c) as (-> & -> & ->). by rw IH.
Qed.

#[global] Instance hex_inj : Inj (=) (=) hex.
Proof. intros a b H. apply (f_equal unhex) in H. rw !unhex_hex in H. congruence. Qed.

Lemma unhex_length s r : unhex s = Some r → String.length s = (2 * String.length r)%nat.
Proof.
  revert s. induction r as [|c r IH]; intros [|a [|b s]] H; simpl in H; try done;
    repeat case_match; simplify_eq; simpl; try rw (IH s); try done; lia.
Qed.

(** ** Little-endian encoding of a [u64] ([u64::to_le_bytes]). *)

Fixpoint le_bytes (n : nat) (z : Z) : string :=
  match n with
  | O => ""
  | S n' => String (byte_of (z mod 256)) (le_bytes n' (z / 256))
  end.

Definition to_le_bytes (z : Z) : string := le_bytes 8 z.

Fixpoint le_value (s : string) : Z :=
  match s with
  | "" => 0%Z
  | String c s' => (byte_val c + 256 * le_value s')%Z
  end.

Lemma byte_val_of z : (0 ≤ z < 256)%Z → byte_val (byte_of z) = z.
Proof.
  intros H. unfold byte_val, byte_of. rw N_ascii_embedding; lia.
Qed.

Lemma byte_val_range c : (0 ≤ byte_val c < 256)%Z.
Proof. destruct c as [[] [] [] [] [] [] [] []]; vm_compute; split; congruence. Qed.

Lemma le_bytes_length n z : String.length (le_bytes n z) = n.
Proof. revert z. induction n as [|n IH]; intros z; [done|]. simpl. by rw IH. Qed.

Lemma le_value_bytes n z :
  (0 ≤ z < 256 ^ Z.of_nat n)%Z → le_value (le_bytes n z) = z.
Proof.
  revert z. induction n as [|n IH]; intros z Hz; [simpl in *; lia|].
  assert (256 ^ Z.of_nat (S n) = 256 * 256 ^ Z.of_nat n)%Z as E.
  { rw Nat2Z.inj_succ Z.pow_succ_r; lia. }
  cbn [le_bytes le_value]. rw byte_val_of; [|apply Z.mod_pos_bound; lia].
  rw IH.
  - rw Z.add_comm -Z.div_mod; lia.
  - split; [apply Z.div_pos; lia|]. apply Z.div_lt_upper_bound; lia.
Qed.

Lemma to_le_bytes_inj a b :
  is_u64 a → is_u64 b → to_le_bytes a = to_le_bytes b → a = b.
Proof.
  unfold is_u64, U64_MAX. intros Ha Hb H. apply (f_equal le_value) in H.
  unfold to_le_bytes in H.
  rw (le_value_bytes 8 a) in H; [|change (256 ^ Z.of_nat 8)%Z with (2 ^ 64)%Z; lia].
  rw (le_value_bytes 8 b) in H; [|change (256 ^ Z.of_nat 8)%Z with (2 ^ 64)%Z; lia].
  done.
Qed.
