(* ===== verification/Text.v ===== *)
(** * Text handling of the Rust standard library used by the authority crate

    [str::lines], [str::trim], the UTF-8 check behind [read_to_string],
    [to_ascii_uppercase], the ordered iteration of a [BTreeMap<String, _>] and
    [slice::sort_by].
    Strings are the byte strings of [Prelude]. *)

From S2P Require Import Prelude.
From Stdlib Require Import Ascii.

(** ** [str::lines]: split at line feeds, drop the empty piece after a final
    line feed, and strip one trailing carriage return from each line. *)

Definition LF : ascii := "010"%char.
Definition CR : ascii := "013"%char.

Fixpoint split_lf (s : string) : list string :=
  match s with
  | "" => [""]
  | String c s' =>
      if decide (c = LF) then "" :: split_lf s'
      else match split_lf s' with
           | h :: t => String c h :: t
           | [] => [String c ""]
           end
  end.

Fixpoint drop_last_empty (l : list string) : list string :=
  match l with
  | [] => []
  | [""] => []
  | h :: t => h :: drop_last_empty t
  end.

Fixpoint strip_cr (s : string) : string :=
  match s with
  | "" => ""
  | String c "" => if decide (c = CR) then "" else s
  | String c s' => String c (strip_cr s')
  end.

Definition lines (s : string) : list string := strip_cr <$> drop_last_empty (split_lf s).

(** The text whose lines are [ls], each closed by a line feed. *)
Definition unlines (ls : list string) : string :=
  foldr (λ l acc, l +:+ String LF acc) "" ls.

Definition no_lf (s : string) : bool := string_forall (λ c, bool_decide (c ≠ LF)) s.

Definition line_ok (l : string) : Prop := no_lf l = true ∧ strip_cr l = l.

Lemma split_lf_line l s : no_lf l = true → split_lf (l +:+ String LF s) = l :: split_lf s.
Proof.
  induction l as [|c l IH]; intros H; [done|]. rw string_app_cons.
  unfold no_lf in *. simpl in H. apply andb_true_iff in H as [Hc H].
  apply bool_decide_eq_true in Hc. cbn [split_lf].
  rw (decide_False (P := c = LF)) // IH //.
Qed.

Lemma drop_last_empty_cons h l :
  l ≠ [] → drop_last_empty (h :: l) = h :: drop_last_empty l.
Proof. by destruct h, l. Qed.

Lemma split_lf_not_nil s : split_lf s ≠ [].
Proof. destruct s as [|c s]; simpl; [done|]. case_decide; [done|]. by case_match. Qed.

Lemma unlines_app a b : unlines (a ++ b) = unlines a +:+ unlines b.
Proof.
  induction a as [|l a IH]; [done|]. simpl. rw IH string_app_assoc.
  by rw string_app_cons.
Qed.

Lemma unlines_snoc ls l : unlines (ls ++ [l]) = unlines ls +:+ (l +:+ String LF "").
Proof. apply unlines_app. Qed.

Lemma lines_unlines ls : Forall line_ok ls → lines (unlines ls) = ls.
Proof.
  unfold lines. intros H. induction H as [|l ls [Hlf Hcr] _ IH]; [done|]. simpl.
  rw split_lf_line // drop_last_empty_cons; [|apply split_lf_not_nil].
  rw fmap_cons IH Hcr //.
Qed.

(** An unterminated last line. *)
Lemma split_lf_no_lf s : no_lf s = true → split_lf s = [s].
Proof.
  induction s as [|c s IH]; intros Hs; [done|].
  unfold no_lf in *. simpl in Hs. apply andb_true_iff in Hs as [Hc Hs].
  apply bool_decide_eq_true in Hc. simpl. rw decide_False // IH //.
Qed.

Lemma lines_unlines_frag ls c frag :
  Forall line_ok ls → no_lf (String c frag) = true →
  lines (unlines ls +:+ String c frag) = ls ++ [strip_cr (String c frag)].
Proof.
  unfold lines. intros Hls Hf. induction Hls as [|l ls [Hlf Hcr] _ IH]; cbn [unlines foldr app].
  - change ("" +:+ String c frag) with (String c frag). by rw split_lf_no_lf.
  - rw string_app_assoc string_app_cons split_lf_line // drop_last_empty_cons;
      [|apply split_lf_not_nil].
    rw fmap_cons -/(unlines ls) IH Hcr //.
Qed.

(** A line takes at least one byte of the text. *)
Lemma lines_length s : (length (lines s) ≤ String.length s)%nat.
Proof.
  unfold lines. rw length_fmap. induction s as [|c s IH]; [done|]. simpl.
  destruct (decide (c = LF)) as [->|Hc].
  - rw drop_last_empty_cons; [|apply split_lf_not_nil]. simpl. lia.
  - pose proof (split_lf_not_nil s). destruct (split_lf s) as [|l [|l' ls]]; [done|simpl; lia|].
    destruct l; simpl in *; lia.
Qed.

Lemma strip_cr_head c s : c ≠ CR → ∃ s', strip_cr (String c s) = String c s'.
Proof. intros Hc. destruct s as [|d s]; simpl; [rw decide_False //|]; eauto. Qed.

Lemma strip_cr_last s c : c ≠ CR → strip_cr (s +:+ String c "") = s +:+ String c "".
Proof.
  intros Hc. induction s as [|d s IH]; simpl; [rw decide_False //|].
  rw string_app_cons. destruct (s +:+ String c "") as [|e u] eqn:E; [by destruct s|].
  cbn [strip_cr] in *. by rw IH.
Qed.

(** ** [str::trim]: the code points with the Unicode White_Space property, as
    their UTF-8 encodings. *)

Definition whitespace : list string :=
  (λ z, bytes_of [z]) <$> [9; 10; 11; 12; 13; 32]%Z.

Definition whitespace_multi : list string :=
  bytes_of <$>
    [[194; 133]; [194; 160]; [225; 154; 128];
     [226; 128; 128]; [226; 128; 129]; [226; 128; 130]; [226; 128; 131];
     [226; 128; 132]; [226; 128; 133]; [226; 128; 134]; [226; 128; 135];
     [226; 128; 136]; [226; 128; 137]; [226; 128; 138]; [226; 128; 168];
     [226; 128; 169]; [226; 128; 175]; [226; 129; 159]; [227; 128; 128]]%Z.

Definition strip_any (ps : list string) (s : string) : option string :=
  foldr (λ p acc, match strip_prefix p s with Some r => Some r | None => acc end) None ps.

Fixpoint strip_all (fuel : nat) (ps : list string) (s : string) : string :=
  match fuel with
  | O => s
  | S fuel' => match strip_any ps s with
               | Some r => strip_all fuel' ps r
               | None => s
               end
  end.

Definition white_space : list string := whitespace ++ whitespace_multi.

Definition trim_start (s : string) : string :=
  strip_all (String.length s) white_space s.

Definition trim_end (s : string) : string :=
  string_rev (strip_all (String.length s) (string_rev <$> white_space) (string_rev s)).

Definition trim (s : string) : string := trim_end (trim_start s).

Lemma strip_all_stop fuel ps s : strip_any ps s = None → strip_all fuel ps s = s.
Proof. destruct fuel; simpl; [done|]. by intros ->. Qed.

(** A byte of no white-space character. *)
Definition free_of (x : ascii) (s : string) : bool := string_forall (λ c, bool_decide (c ≠ x)) s.

Definition visible (x : ascii) : bool := forallb (free_of x) white_space.

Lemma strip_any_Some ps s r : strip_any ps s = Some r → ∃ p, p ∈ ps ∧ s = p +:+ r.
Proof.
  induction ps as [|p ps IH]; simpl; [done|].
  destruct (strip_prefix p s) as [r'|] eqn:E.
  - intros [= ->]. apply strip_prefix_Some in E. exists p. set_solver.
  - intros Hr. destruct (IH Hr) as (p' & ? & ?). exists p'. set_solver.
Qed.

Lemma string_forall_rev p s : string_forall p (string_rev s) = string_forall p s.
Proof.
  induction s as [|c s IH]; [done|]. unfold string_rev. simpl.
  rw string_rev_app_spec string_forall_app IH /= andb_true_r. apply andb_comm.
Qed.

Lemma visible_free x : visible x = true → Forall (λ p, free_of x p = true) white_space.
Proof. intros H. apply Forall_forall. intros p Hp%list_elem_of_In. by apply (proj1 (forallb_forall _ _) H). Qed.

Lemma visible_free_rev x : visible x = true → Forall (λ p, free_of x p = true) (string_rev <$> white_space).
Proof.
  intros H%visible_free. apply Forall_fmap. eapply Forall_impl; [exact H|]. intros p Hp.
  unfold compose, free_of. by rw string_forall_rev.
Qed.

Lemma strip_any_visible x ps s :
  Forall (λ p, p ≠ "") ps → Forall (λ p, free_of x p = true) ps → strip_any ps (String x s) = None.
Proof.
  intros Hne Hps. destruct (strip_any ps (String x s)) as [r|] eqn:E; [|done].
  apply strip_any_Some in E as (p & Hp & Hs). rw Forall_forall in Hne. rw Forall_forall in Hps.
  specialize (Hps p Hp). destruct p as [|c p]; [by destruct (Hne "" Hp)|].
  rw string_app_cons in Hs. injection Hs as <- _. unfold free_of in Hps. simpl in Hps.
  by rw bool_decide_eq_false_2 in Hps; [|by intros []].
Qed.

Lemma white_space_nonempty : Forall (λ p, p ≠ "") white_space.
Proof. repeat constructor; done. Qed.
Lemma white_space_rev_nonempty : Forall (λ p, p ≠ "") (string_rev <$> white_space).
Proof. repeat constructor; done. Qed.

(** A string that starts and ends with visible ASCII characters is its own
    trimming; JSON objects are of this shape. *)
Lemma trim_visible x y s :
  visible x = true → visible y = true → trim (String x (s +:+ String y "")) = String x (s +:+ String y "").
Proof.
  intros Hx%visible_free Hy%visible_free_rev. unfold trim, trim_start.
  rw strip_all_stop; [|by apply strip_any_visible; [apply white_space_nonempty|]].
  unfold trim_end. rw -string_app_cons string_rev_snoc strip_all_stop.
  - rw -string_rev_snoc string_rev_involutive //.
  - apply strip_any_visible; [apply white_space_rev_nonempty|done].
Qed.

Lemma trim_braced s : trim (String "{" (s +:+ "}")) = String "{" (s +:+ "}").
Proof. by apply trim_visible. Qed.

(** Trimming a text that starts with a visible character leaves it. *)
Lemma strip_all_visible x fuel ps s :
  Forall (λ p, free_of x p = true) ps → free_of x s = false → free_of x (strip_all fuel ps s) = false.
Proof.
  intros Hps. revert s. induction fuel as [|fuel IH]; intros s Hs; simpl; [done|].
  destruct (strip_any ps s) as [r|] eqn:E; [|done].
  apply strip_any_Some in E as (p & Hp & ->). apply IH.
  unfold free_of in *. rw string_forall_app in Hs.
  rw Forall_forall in Hps. by rw (Hps p Hp) in Hs.
Qed.

Lemma trim_visible_nonempty x s : visible x = true → trim (String x s) ≠ "".
Proof.
  intros Hx. unfold trim, trim_start.
  rw strip_all_stop; [|by apply strip_any_visible; [apply white_space_nonempty|apply visible_free]].
  unfold trim_end. intros E.
  assert (free_of x (string_rev (String x s)) = false) as Hs.
  { unfold free_of. rw string_forall_rev. simpl. by rw bool_decide_eq_false_2; [|by intros []]. }
  apply (strip_all_visible x (String.length (String x s)) _ _ (visible_free_rev x Hx)) in Hs.
  apply (f_equal string_rev) in E. rw string_rev_involutive in E. by rw E in Hs.
Qed.

Lemma trim_brace_nonempty s : trim (String "{" s) ≠ "".
Proof. by apply trim_visible_nonempty. Qed.

(** Trimming is idempotent: nothing is left to strip at either end. *)
Lemma strip_any_None ps s : strip_any ps s = None ↔ ∀ p r, p ∈ ps → s ≠ p +:+ r.
Proof.
  induction ps as [|p ps IH]; simpl; [split; [intros _ p r; set_solver|done]|].
  destruct (strip_prefix p s) as [r|] eqn:E.
  - apply strip_prefix_Some in E as ->. split; [done|]. intros Hn. destruct (Hn p r); set_solver.
  - rw IH. split; [|intros Hn; intros; apply Hn; set_solver]. intros Hn p' r [->|Hp]%elem_of_cons.
    + intros Hs%strip_prefix_Some. congruence.
    + by apply Hn.
Qed.

Lemma strip_all_done ps fuel s :
  Forall (λ p, p ≠ "") ps → (String.length s ≤ fuel)%nat → strip_any ps (strip_all fuel ps s) = None.
Proof.
  intros Hps. revert s. induction fuel as [|fuel IH]; intros s Hl; simpl.
  - destruct s; [|simpl in Hl; lia]. apply strip_any_None. intros p r Hp. rw Forall_forall in Hps.
    by destruct p; [destruct (Hps "" Hp)|].
  - destruct (strip_any ps s) as [r|] eqn:E; [|done].
    apply strip_any_Some in E as (p & Hp & ->). apply IH. rw Forall_forall in Hps.
    destruct p as [|c p]; [by destruct (Hps "" Hp)|]. rw string_length_app in Hl. simpl in Hl. lia.
Qed.

Lemma strip_all_suffix ps fuel s : ∃ p, s = p +:+ strip_all fuel ps s.
Proof.
  revert s. induction fuel as [|fuel IH]; intros s; simpl; [by exists ""|].
  destruct (strip_any ps s) as [r|] eqn:E; [|by exists ""].
  apply strip_any_Some in E as (p & _ & ->). destruct (IH r) as [q Hq]. exists (p +:+ q).
  by rw string_app_assoc -Hq.
Qed.

Lemma trim_idem s : trim (trim s) = trim s.
Proof.
  unfold trim at 2 3. set (t := trim_start s).
  assert (strip_any white_space t = None) as Ht
    by (apply strip_all_done; [apply white_space_nonempty|done]).
  assert (∃ x, t = trim_end t +:+ x) as [x Hx].
  { destruct (strip_all_suffix (string_rev <$> white_space) (String.length t) (string_rev t)) as [p Hp].
    exists (string_rev p). apply (f_equal string_rev) in Hp. rw string_rev_involutive in Hp.
    by rw {1}Hp string_rev_concat. }
  unfold trim. assert (trim_start (trim_end t) = trim_end t) as ->.
  { apply strip_all_stop, strip_any_None. intros p r Hp Hr.
    apply (proj1 (strip_any_None _ _) Ht p (r +:+ x) Hp). by rw {1}Hx Hr string_app_assoc. }
  unfold trim_end at 1. rw strip_all_stop; [by rw string_rev_involutive|].
  unfold trim_end. rw string_rev_involutive. apply strip_all_done; [apply white_space_rev_nonempty|].
  by rw string_rev_length.
Qed.

(** [str::ends_with]. *)
Definition ends_with (p s : string) : bool := starts_with (string_rev p) (string_rev s).

(** ** UTF-8 validity, the condition under which [read_to_string] succeeds.
    The byte automaton of the Unicode standard (table 3-7). *)

Inductive utf8_state :=
  | U_start | U_tail1 | U_tail2 | U_tail3 | U_E0 | U_ED | U_F0 | U_F4 | U_bad.

Definition utf8_step (q : utf8_state) (c : ascii) : utf8_state :=
  let b := byte_val c in
  let tail lo hi next := if decide (lo ≤ b ≤ hi)%Z then next else U_bad in
  match q with
  | U_start =>
      if decide (b ≤ 127)%Z then U_start
      else if decide (194 ≤ b ≤ 223)%Z then U_tail1
      else if decide (b = 224)%Z then U_E0
      else if decide (b = 237)%Z then U_ED
      else if decide (225 ≤ b ≤ 239)%Z then U_tail2
      else if decide (b = 240)%Z then U_F0
      else if decide (b = 244)%Z then U_F4
      else if decide (241 ≤ b ≤ 243)%Z then U_tail3
      else U_bad
  | U_tail1 => tail 128 191 U_start
  | U_tail2 => tail 128 191 U_tail1
  | U_tail3 => tail 128 191 U_tail2
  | U_E0 => tail 160 191 U_tail1
  | U_ED => tail 128 159 U_tail1
  | U_F0 => tail 144 191 U_tail2
  | U_F4 => tail 128 143 U_tail2
  | U_bad => U_bad
  end%Z.

Fixpoint utf8_run (q : utf8_state) (s : string) : utf8_state :=
  match s with
  | "" => q
  | String c s' => utf8_run (utf8_step q c) s'
  end.

#[global] Instance utf8_state_eq_dec : EqDecision utf8_state.
Proof. solve_decision. Defined.

Definition utf8_valid (s : string) : bool := bool_decide (utf8_run U_start s = U_start).

Lemma utf8_run_app q a b : utf8_run q (a +:+ b) = utf8_run (utf8_run q a) b.
Proof. revert q. induction a as [|c a IH]; intros q; [done|]. apply IH. Qed.

Lemma utf8_valid_app a b :
  utf8_valid a = true → utf8_valid b = true → utf8_valid (a +:+ b) = true.
Proof.
  unfold utf8_valid. rw !bool_decide_eq_true utf8_run_app. by intros -> ->.
Qed.

Lemma utf8_valid_unlines ls :
  Forall (λ l, utf8_valid l = true) ls → utf8_valid (unlines ls) = true.
Proof.
  induction 1 as [|l ls Hl _ IH]; [done|]. simpl. apply utf8_valid_app; [done|].
  change (String LF (unlines ls)) with (String LF "" +:+ unlines ls).
  by apply utf8_valid_app.
Qed.

(** ** [str::to_ascii_uppercase] *)

Definition ascii_upper (c : ascii) : ascii :=
  let b := byte_val c in
  if decide (97 ≤ b ≤ 122)%Z then byte_of (b - 32) else c.

Fixpoint to_ascii_uppercase (s : string) : string :=
  match s with
  | "" => ""
  | String c s' => String (ascii_upper c) (to_ascii_uppercase s')
  end.

(** ** Ordered iteration of a [BTreeMap<String, V>]: ascending byte order. *)

Definition key_le {V} (a b : string * V) : Prop := String.le a.1 b.1.

#[global] Instance key_le_dec {V} : RelDecision (@key_le V).
Proof. intros a b. unfold key_le. apply _. Defined.

Definition btree_iter {V} (m : gmap string V) : list (string * V) :=
  merge_sort key_le (map_to_list m).

Lemma elem_of_btree_iter {V} (m : gmap string V) k v :
  (k, v) ∈ btree_iter m ↔ m !! k = Some v.
Proof. unfold btree_iter. rw merge_sort_Permutation. apply elem_of_map_to_list. Qed.

Lemma btree_iter_NoDup {V} (m : gmap string V) : NoDup (btree_iter m).*1.
Proof. unfold btree_iter. rw merge_sort_Permutation. apply NoDup_fst_map_to_list. Qed.

#[global] Instance key_le_total {V} : Total (@key_le V).
Proof. intros a b. unfold key_le. apply (total String.le). Qed.

(** The order of the keys depends only on the key set. *)
Lemma btree_iter_keys {V W} (m : gmap string V) (m' : gmap string W) :
  (∀ k, is_Some (m !! k) ↔ is_Some (m' !! k)) → (btree_iter m).*1 = (btree_iter m').*1.
Proof.
  intros Hk.
  assert (∀ X (m : gmap string X), Sorted String.le (btree_iter m).*1) as Hs.
  { intros X m0. unfold btree_iter. pose proof (Sorted_merge_sort key_le (map_to_list m0)) as Hs.
    induction Hs as [|kv l _ IH Hhd]; simpl; constructor; [done|].
    destruct Hhd; simpl; by constructor. }
  apply (Sorted_unique String.le); [apply Hs|apply Hs|].
  apply NoDup_Permutation; [apply btree_iter_NoDup|apply btree_iter_NoDup|].
  intros k. rw !list_elem_of_fmap. split.
  - intros ([k' v] & -> & Hin%elem_of_btree_iter).
    destruct (proj1 (Hk k') (mk_is_Some _ _ Hin)) as [v' Hv'].
    exists (k', v'). by rw elem_of_btree_iter.
  - intros ([k' v] & -> & Hin%elem_of_btree_iter).
    destruct (proj2 (Hk k') (mk_is_Some _ _ Hin)) as [v' Hv'].
    exists (k', v'). by rw elem_of_btree_iter.
Qed.

(** ** [str::cmp], [Ordering::then_with] and [slice::sort_by] *)

Definition string_cmp (a b : string) : comparison :=
  if decide (a = b) then Eq else if decide (String.le a b) then Lt else Gt.

Definition then_with (a b : comparison) : comparison := match a with Eq => b | _ => a end.

(** A stable sort: [x] goes before the first element that is not smaller. *)
Fixpoint insert_by {A} (cmp : A → A → comparison) (x : A) (l : list A) : list A :=
  match l with
  | [] => [x]
  | y :: l' => match cmp x y with Gt => y :: insert_by cmp x l' | _ => x :: l end
  end.

Definition sort_by {A} (cmp : A → A → comparison) (l : list A) : list A :=
  foldr (insert_by cmp) [] l.

Lemma insert_by_perm {A} cmp (x : A) l : insert_by cmp x l ≡ₚ x :: l.
Proof.
  induction l as [|y l IH]; simpl; [done|]. destruct (cmp x y); [done..|].
  rw IH. apply Permutation_swap.
Qed.

Lemma sort_by_perm {A} cmp (l : list A) : sort_by cmp l ≡ₚ l.
Proof.
  induction l as [|x l IH]; [done|].
  change (insert_by cmp x (sort_by cmp l) ≡ₚ x :: l). by rw insert_by_perm IH.
Qed.
