(* ===== verification/Ids.v ===== *)
(** * Identities, digests and errors

    Models [ids.rs], [digest.rs], [error.rs] and the identifier decoding of
    [store.rs] in [crates/common/xai-host-authority/src].  SHA-256 comes from
    the [sha2] crate and is a parameter: a class with one operation, and its
    documented output length as a law. *)

From S2P Require Import Prelude Text.
From Stdlib Require Import Ascii.

(** ** Errors *)

Inductive AuthorityError :=
  | Unauthenticated
  | StalePrincipal
  | StaleCapability
  | StalePolicy
  | StaleControlEpoch
  | StaleObservation
  | UnknownResource
  | ResourceOwnershipMismatch
  | WorkspaceMismatch
  | SessionMismatch
  | Expired
  | AlreadyConsumed
  | DigestMismatch
  | AmbiguousPriorAttempt
  | NotPermitted
  | Invalid (what : string)
  | Durability (e : string)
  | CorruptState (e : string).

#[global] Instance AuthorityError_eq_dec : EqDecision AuthorityError.
Proof. solve_decision. Defined.

(** [is_pre_effect] of the crate: every variant is a denial. *)
Definition is_pre_effect (e : AuthorityError) : bool := true.

(** [Result<A, AuthorityError>] *)
Abbreviation Res A := (sum AuthorityError A).

#[global] Instance res_ret : MRet (sum AuthorityError) := λ A a, inr a.
#[global] Instance res_bind : MBind (sum AuthorityError) :=
  λ A B f m, match m with inl e => inl e | inr a => f a end.

Definition ok_or {A} (e : AuthorityError) (o : option A) : Res A :=
  match o with Some a => inr a | None => inl e end.

Definition ensure (b : bool) (e : AuthorityError) : Res unit :=
  if b then inr () else inl e.

(** The derived [Debug] of the error, which [begin_send] records in a [Denied]
    audit event.  A string payload is printed by [str]'s [Debug]: quoted, with
    the escapes below; bytes of non-ASCII characters are copied. *)
Definition debug_char (c : ascii) : string :=
  if decide (c = "034"%char) then String "\" (String "034" "")
  else if decide (c = "\"%char) then "\\"
  else if decide (c = "009"%char) then "\t"
  else if decide (c = "010"%char) then "\n"
  else if decide (c = "013"%char) then "\r"
  else if decide (c = "000"%char) then "\0"
  else if decide (byte_val c < 16)%Z then
    "\u{" +:+ String (hex_digit (byte_val c)) "}"
  else if decide (byte_val c < 32 ∨ byte_val c = 127)%Z then
    "\u{" +:+ hex (String c "") +:+ "}"
  else String c "".

Fixpoint debug_chars (s : string) : string :=
  match s with
  | "" => ""
  | String c s' => debug_char c +:+ debug_chars s'
  end.

Definition debug_str (s : string) : string :=
  String "034" (debug_chars s +:+ String "034" "").

Definition debug_error (e : AuthorityError) : string :=
  match e with
  | Unauthenticated => "Unauthenticated"
  | StalePrincipal => "StalePrincipal"
  | StaleCapability => "StaleCapability"
  | StalePolicy => "StalePolicy"
  | StaleControlEpoch => "StaleControlEpoch"
  | StaleObservation => "StaleObservation"
  | UnknownResource => "UnknownResource"
  | ResourceOwnershipMismatch => "ResourceOwnershipMismatch"
  | WorkspaceMismatch => "WorkspaceMismatch"
  | SessionMismatch => "SessionMismatch"
  | Expired => "Expired"
  | AlreadyConsumed => "AlreadyConsumed"
  | DigestMismatch => "DigestMismatch"
  | AmbiguousPriorAttempt => "AmbiguousPriorAttempt"
  | NotPermitted => "NotPermitted"
  | Invalid what => "Invalid(" +:+ debug_str what +:+ ")"
  | Durability e => "Durability(" +:+ debug_str e +:+ ")"
  | CorruptState e => "CorruptState(" +:+ debug_str e +:+ ")"
  end.

(** ** SHA-256 *)

Class Sha256 := { sha256 : string → string }.

Class Sha256Laws `{Sha256} : Prop :=
  { sha256_length : ∀ s, String.length (sha256 s) = 32%nat }.

(** No collision between two given messages. *)
Definition no_collision `{Sha256} (x y : string) : Prop := sha256 x = sha256 y → x = y.

Definition NUL : string := String "000" "".

Section digest.
  Context {Sha : Sha256}.

(** A short, domain-separated handle for public projections. *)
Definition short_handle (label bytes : string) : string :=
  label +:+ "_" +:+
    hex (string_take 8
      (sha256 (("xai-host-authority/public-handle/v1" +:+ NUL) +:+ label +:+ NUL +:+ bytes))).

(** ** [ContentDigest] *)

Record ContentDigest := MkContentDigest { digest_bytes : string }.

#[global] Instance ContentDigest_eq_dec : EqDecision ContentDigest.
Proof. solve_decision. Defined.

Definition content_message (bytes : string) : string :=
  ("xai-host-authority/content/v1" +:+ NUL) +:+ bytes.

Definition of_bytes (bytes : string) : ContentDigest :=
  MkContentDigest (sha256 (content_message bytes)).

Definition len_le (s : string) : string := to_le_bytes (Z.of_nat (String.length s)).

Fixpoint frame_fields (fields : list (string * string)) : string :=
  match fields with
  | [] => ""
  | (name, value) :: rest =>
      len_le name +:+ name +:+ len_le value +:+ value +:+ frame_fields rest
  end.

Definition fields_message (fields : list (string * string)) : string :=
  ("xai-host-authority/fields/v1" +:+ NUL) +:+
  to_le_bytes (Z.of_nat (length fields)) +:+ frame_fields fields.

Definition of_fields (fields : list (string * string)) : ContentDigest :=
  MkContentDigest (sha256 (fields_message fields)).

Definition digest_to_hex (d : ContentDigest) : string := hex (digest_bytes d).

Definition digest_handle (d : ContentDigest) : string := short_handle "dig" (digest_bytes d).

(** ** [RequestIdentity] *)

Record RequestIdentity := {
  ri_url : string;
  ri_method : string;
  ri_dialect : string;
  ri_credential_fingerprint : ContentDigest;
  ri_model : string;
  ri_provider_request_id : string;
  ri_body : ContentDigest;
}.

Definition new_with_provider_request_id
    (url method dialect credential_secret model provider_request_id body : string) :
    RequestIdentity := {|
  ri_url := url;
  ri_method := to_ascii_uppercase method;
  ri_dialect := dialect;
  ri_credential_fingerprint := of_fields [("credential", credential_secret)];
  ri_model := model;
  ri_provider_request_id := provider_request_id;
  ri_body := of_bytes body;
|}.

Definition request_new (url method dialect credential_secret model body : string) :
    RequestIdentity :=
  new_with_provider_request_id url method dialect credential_secret model "" body.

Definition request_fields (r : RequestIdentity) : list (string * string) :=
  [("url", ri_url r); ("method", ri_method r); ("dialect", ri_dialect r);
   ("credential", digest_bytes (ri_credential_fingerprint r)); ("model", ri_model r);
   ("provider-request-id", ri_provider_request_id r); ("body", digest_bytes (ri_body r))].

Definition request_digest (r : RequestIdentity) : ContentDigest := of_fields (request_fields r).

Definition request_body_digest (r : RequestIdentity) : ContentDigest := ri_body r.

Definition request_dialect (r : RequestIdentity) : string := ri_dialect r.

(** ** Opaque identifiers: the [opaque_id!] family, one kind per invocation. *)

Inductive id_kind :=
  | KPrincipal | KIncarnation | KResource | KCapability
  | KLease | KAttempt | KSession | KWorkspace.

#[global] Instance id_kind_eq_dec : EqDecision id_kind.
Proof. solve_decision. Defined.

Definition id_label (k : id_kind) : string :=
  match k with
  | KPrincipal => "prn" | KIncarnation => "inc" | KResource => "res"
  | KCapability => "cap" | KLease => "lea" | KAttempt => "att"
  | KSession => "ses" | KWorkspace => "wsp"
  end.

Record opaque_id (k : id_kind) := OpaqueId { id_bytes : string }.
#[global] Arguments OpaqueId {k} _.
#[global] Arguments id_bytes {k} _.

#[global] Instance opaque_id_eq_dec k : EqDecision (opaque_id k).
Proof. solve_decision. Defined.

Definition to_hex {k} (i : opaque_id k) : string := hex (id_bytes i).

Definition public_handle {k} (i : opaque_id k) : string :=
  short_handle (id_label k) (id_bytes i).

Definition decode_id {k} (value what : string) : Res (opaque_id k) :=
  if decide (String.length value = 32%nat) then
    match unhex value with
    | Some b => inr (OpaqueId b)
    | None => inl (CorruptState ("durable " +:+ what +:+ " is not hex"))
    end
  else inl (CorruptState ("durable " +:+ what +:+ " identifier is malformed")).

Definition decode_digest (value what : string) : Res ContentDigest :=
  if decide (String.length value = 64%nat) then
    match unhex value with
    | Some b => inr (MkContentDigest b)
    | None => inl (CorruptState ("durable " +:+ what +:+ " is not hex"))
    end
  else inl (CorruptState ("durable " +:+ what +:+ " digest is malformed")).

End digest.

Abbreviation PrincipalId := (opaque_id KPrincipal).
Abbreviation CredentialIncarnation := (opaque_id KIncarnation).
Abbreviation ResourceIncarnation := (opaque_id KResource).
Abbreviation CapabilityId := (opaque_id KCapability).
Abbreviation EffectLeaseId := (opaque_id KLease).
Abbreviation AttemptId := (opaque_id KAttempt).
Abbreviation SessionId := (opaque_id KSession).
Abbreviation WorkspaceId := (opaque_id KWorkspace).

(** ** Lemmas *)

Lemma res_bind_inr {A B} (m : Res A) (f : A → Res B) b :
  (m ≫= f) = inr b ↔ ∃ a, m = inr a ∧ f a = inr b.
Proof. destruct m; simpl; naive_solver. Qed.

Lemma res_bind_inl {A B} (m : Res A) (f : A → Res B) e :
  (m ≫= f) = inl e ↔ m = inl e ∨ ∃ a, m = inr a ∧ f a = inl e.
Proof. destruct m; simpl; naive_solver. Qed.

Lemma ensure_inr b e u : ensure b e = inr u ↔ b = true.
Proof. destruct b, u; simpl; naive_solver. Qed.

Lemma ok_or_inr {A} e (o : option A) a : ok_or e o = inr a ↔ o = Some a.
Proof. destruct o; simpl; naive_solver. Qed.

(** Field lengths fit a [u64], as every Rust allocation does. *)
Definition field_ok (f : string * string) : Prop :=
  (Z.of_nat (String.length f.1) ≤ U64_MAX)%Z ∧ (Z.of_nat (String.length f.2) ≤ U64_MAX)%Z.

Lemma len_le_inj a b x y :
  (Z.of_nat (String.length a) ≤ U64_MAX)%Z → (Z.of_nat (String.length b) ≤ U64_MAX)%Z →
  len_le a +:+ (a +:+ x) = len_le b +:+ (b +:+ y) → a = b ∧ x = y.
Proof.
  intros Ha Hb H. apply string_app_inj_len in H as [Hl H]; [|by rw !le_bytes_length].
  apply to_le_bytes_inj in Hl; [|unfold is_u64; lia..].
  apply string_app_inj_len; [lia|done].
Qed.

(** The length prefixes make the framing of a field list unambiguous. *)
Lemma frame_fields_inj a b :
  length a = length b → Forall field_ok a → Forall field_ok b →
  frame_fields a = frame_fields b → a = b.
Proof.
  revert b. induction a as [|[n v] a IH]; intros [|[n' v'] b] Hl Ha Hb H; try done.
  apply Forall_cons in Ha as [[Hn Hv] Ha]. apply Forall_cons in Hb as [[Hn' Hv'] Hb].
  simpl in *. apply len_le_inj in H as [-> H]; [|done..].
  apply len_le_inj in H as [-> H]; [|done..]. f_equal. apply IH; naive_solver lia.
Qed.

Lemma fields_message_inj a b :
  (Z.of_nat (length a) ≤ U64_MAX)%Z → (Z.of_nat (length b) ≤ U64_MAX)%Z →
  Forall field_ok a → Forall field_ok b → fields_message a = fields_message b → a = b.
Proof.
  intros La Lb Ha Hb H. unfold fields_message in H. apply string_app_inj_l in H.
  apply string_app_inj_len in H as [Hl H]; [|by rw !le_bytes_length].
  apply to_le_bytes_inj in Hl; [|unfold is_u64; lia..].
  apply frame_fields_inj; [lia|done..].
Qed.

Lemma of_fields_inj `{Sha256} a b :
  (Z.of_nat (length a) ≤ U64_MAX)%Z → (Z.of_nat (length b) ≤ U64_MAX)%Z →
  Forall field_ok a → Forall field_ok b →
  no_collision (fields_message a) (fields_message b) →
  of_fields a = of_fields b → a = b.
Proof.
  intros La Lb Ha Hb Hnc Heq. injection Heq as Heq. apply fields_message_inj; auto.
Qed.

Lemma decode_id_inr {k} v what (i : opaque_id k) :
  decode_id v what = inr i → String.length v = 32%nat ∧ unhex v = Some (id_bytes i).
Proof.
  unfold decode_id. case_decide; [|done]. destruct (unhex v); naive_solver.
Qed.

Lemma decode_id_to_hex {k} (i : opaque_id k) what :
  String.length (id_bytes i) = 16%nat → decode_id (to_hex i) what = inr i.
Proof.
  intros Hl. unfold decode_id, to_hex. rw hex_length unhex_hex Hl.
  destruct i. done.
Qed.

Lemma decode_digest_to_hex (d : ContentDigest) what :
  String.length (digest_bytes d) = 32%nat → decode_digest (digest_to_hex d) what = inr d.
Proof.
  intros Hl. unfold decode_digest, digest_to_hex. rw hex_length unhex_hex Hl.
  by destruct d.
Qed.

#[global] Instance to_hex_inj k : Inj (=) (=) (@to_hex k).
Proof. intros [a] [b] H. apply (inj hex) in H. simpl in H. congruence. Qed.

#[global] Instance digest_to_hex_inj : Inj (=) (=) digest_to_hex.
Proof. intros [a] [b] H. apply (inj hex) in H. simpl in H. congruence. Qed.
