(* ===== verification/State.v ===== *)
(** * Durable records, audit events and receipts

    Models [state.rs], the data of [audit.rs] and [receipt.rs] in
    [crates/common/xai-host-authority/src].  A [u64] field is a [Z]; a
    [BTreeMap<String, V>] is a [gmap string V], iterated with [btree_iter]. *)

From S2P Require Import Prelude Text Ids.

(** ** Durable records ([state.rs]) *)

Definition SCHEMA_VERSION : Z := 3.

Record StoredCredential := {
  sc_credential_id : string;
  sc_principal : string;
  sc_incarnation : string;
  sc_auth_generation : Z;
  sc_credential_fingerprint : string;
  sc_owner_id : string;
}.

Record StoredResource := {
  sr_incarnation : string;
  sr_principal : string;
  sr_credential_incarnation : string;
  sr_auth_generation : Z;
  sr_policy_revision : Z;
  sr_session : string;
  sr_workspace : string;
  sr_control_epoch : Z;
  sr_observation_revision : Z;
  sr_observation_digest : string;
  sr_next_attempt_ordinal : Z;
}.

Record StoredCapability := {
  cp_capability_id : string;
  cp_principal : string;
  cp_credential_incarnation : string;
  cp_auth_generation : Z;
  cp_capability_generation : Z;
  cp_policy_revision : Z;
  cp_session : string;
  cp_workspace : string;
  cp_resource : string;
  cp_control_epoch : Z;
  cp_actor : string;
  cp_effect : string;
  cp_expires_at_ms : Z;
  cp_consumed : bool;
}.

Record StoredLease := {
  ls_lease_id : string;
  ls_capability_id : string;
  ls_principal : string;
  ls_credential_incarnation : string;
  ls_auth_generation : Z;
  ls_capability_generation : Z;
  ls_policy_revision : Z;
  ls_session : string;
  ls_workspace : string;
  ls_resource : string;
  ls_control_epoch : Z;
  ls_observation_revision : Z;
  ls_observation_digest : string;
  ls_action_digest : string;
  ls_actor : string;
  ls_effect : string;
  ls_expires_at_ms : Z;
  ls_consumed : bool;
}.

Record StoredAttempt := {
  at_attempt_id : string;
  at_lease_id : string;
  at_principal : string;
  at_credential_incarnation : string;
  at_auth_generation : Z;
  at_capability_generation : Z;
  at_policy_revision : Z;
  at_session : string;
  at_workspace : string;
  at_resource : string;
  at_control_epoch : Z;
  at_request_digest : string;
  at_body_digest : string;
  at_actor : string;
  at_ordinal : Z;
  at_dialect : string;
  at_route_digest : string;
  at_idempotency_key : string;
  at_wire_idempotency_digest : string;
  at_state : string;
  at_settlement : option string;
}.

Record StoredAuthority := {
  au_schema_version : Z;
  au_owner_id : string;
  au_admin_credential_fingerprint : string;
  au_control_epoch : Z;
  au_capability_generation : Z;
  au_policy_revision : Z;
  au_next_auth_generation : Z;
  au_credentials : list StoredCredential;
  au_resources : gmap string StoredResource;
  au_capabilities : gmap string StoredCapability;
  au_leases : gmap string StoredLease;
  au_attempts : gmap string StoredAttempt;
}.

#[global] Instance StoredAttempt_eq_dec : EqDecision StoredAttempt.
Proof. solve_decision. Defined.
#[global] Instance StoredAuthority_eq_dec : EqDecision StoredAuthority.
Proof.
  assert (EqDecision StoredCredential) by solve_decision.
  assert (EqDecision StoredResource) by solve_decision.
  assert (EqDecision StoredCapability) by solve_decision.
  assert (EqDecision StoredLease) by solve_decision.
  solve_decision.
Defined.

Definition StoredAuthority_new (owner_id admin_fingerprint : string) : StoredAuthority := {|
  au_schema_version := SCHEMA_VERSION;
  au_owner_id := owner_id;
  au_admin_credential_fingerprint := admin_fingerprint;
  au_control_epoch := 1;
  au_capability_generation := 1;
  au_policy_revision := 1;
  au_next_auth_generation := 1;
  au_credentials := [];
  au_resources := ∅;
  au_capabilities := ∅;
  au_leases := ∅;
  au_attempts := ∅;
|}.

(** Field updates. *)

Definition au_upd (st : StoredAuthority) epoch capgen policy nextgen creds res caps leases attempts
    : StoredAuthority := {|
  au_schema_version := au_schema_version st;
  au_owner_id := au_owner_id st;
  au_admin_credential_fingerprint := au_admin_credential_fingerprint st;
  au_control_epoch := epoch;
  au_capability_generation := capgen;
  au_policy_revision := policy;
  au_next_auth_generation := nextgen;
  au_credentials := creds;
  au_resources := res;
  au_capabilities := caps;
  au_leases := leases;
  au_attempts := attempts;
|}.

Definition set_control_epoch st x :=
  au_upd st x (au_capability_generation st) (au_policy_revision st)
    (au_next_auth_generation st) (au_credentials st) (au_resources st)
    (au_capabilities st) (au_leases st) (au_attempts st).
Definition set_capability_generation st x :=
  au_upd st (au_control_epoch st) x (au_policy_revision st)
    (au_next_auth_generation st) (au_credentials st) (au_resources st)
    (au_capabilities st) (au_leases st) (au_attempts st).
Definition set_policy_revision st x :=
  au_upd st (au_control_epoch st) (au_capability_generation st) x
    (au_next_auth_generation st) (au_credentials st) (au_resources st)
    (au_capabilities st) (au_leases st) (au_attempts st).
Definition set_next_auth_generation st x :=
  au_upd st (au_control_epoch st) (au_capability_generation st) (au_policy_revision st)
    x (au_credentials st) (au_resources st)
    (au_capabilities st) (au_leases st) (au_attempts st).
Definition set_au_credentials st x :=
  au_upd st (au_control_epoch st) (au_capability_generation st) (au_policy_revision st)
    (au_next_auth_generation st) x (au_resources st)
    (au_capabilities st) (au_leases st) (au_attempts st).
Definition set_resources st x :=
  au_upd st (au_control_epoch st) (au_capability_generation st) (au_policy_revision st)
    (au_next_auth_generation st) (au_credentials st) x
    (au_capabilities st) (au_leases st) (au_attempts st).
Definition set_capabilities st x :=
  au_upd st (au_control_epoch st) (au_capability_generation st) (au_policy_revision st)
    (au_next_auth_generation st) (au_credentials st) (au_resources st)
    x (au_leases st) (au_attempts st).
Definition set_leases st x :=
  au_upd st (au_control_epoch st) (au_capability_generation st) (au_policy_revision st)
    (au_next_auth_generation st) (au_credentials st) (au_resources st)
    (au_capabilities st) x (au_attempts st).
Definition set_attempts st x :=
  au_upd st (au_control_epoch st) (au_capability_generation st) (au_policy_revision st)
    (au_next_auth_generation st) (au_credentials st) (au_resources st)
    (au_capabilities st) (au_leases st) x.

Definition set_resource_observation (r : StoredResource) (rev : Z) (dig : string) := {|
  sr_incarnation := sr_incarnation r; sr_principal := sr_principal r;
  sr_credential_incarnation := sr_credential_incarnation r;
  sr_auth_generation := sr_auth_generation r; sr_policy_revision := sr_policy_revision r;
  sr_session := sr_session r; sr_workspace := sr_workspace r;
  sr_control_epoch := sr_control_epoch r;
  sr_observation_revision := rev; sr_observation_digest := dig;
  sr_next_attempt_ordinal := sr_next_attempt_ordinal r |}.

Definition set_resource_ordinal (r : StoredResource) (n : Z) := {|
  sr_incarnation := sr_incarnation r; sr_principal := sr_principal r;
  sr_credential_incarnation := sr_credential_incarnation r;
  sr_auth_generation := sr_auth_generation r; sr_policy_revision := sr_policy_revision r;
  sr_session := sr_session r; sr_workspace := sr_workspace r;
  sr_control_epoch := sr_control_epoch r;
  sr_observation_revision := sr_observation_revision r;
  sr_observation_digest := sr_observation_digest r;
  sr_next_attempt_ordinal := n |}.

Definition consume_capability (c : StoredCapability) := {|
  cp_capability_id := cp_capability_id c; cp_principal := cp_principal c;
  cp_credential_incarnation := cp_credential_incarnation c;
  cp_auth_generation := cp_auth_generation c;
  cp_capability_generation := cp_capability_generation c;
  cp_policy_revision := cp_policy_revision c; cp_session := cp_session c;
  cp_workspace := cp_workspace c; cp_resource := cp_resource c;
  cp_control_epoch := cp_control_epoch c; cp_actor := cp_actor c;
  cp_effect := cp_effect c; cp_expires_at_ms := cp_expires_at_ms c;
  cp_consumed := true |}.

Definition consume_lease (l : StoredLease) := {|
  ls_lease_id := ls_lease_id l; ls_capability_id := ls_capability_id l;
  ls_principal := ls_principal l;
  ls_credential_incarnation := ls_credential_incarnation l;
  ls_auth_generation := ls_auth_generation l;
  ls_capability_generation := ls_capability_generation l;
  ls_policy_revision := ls_policy_revision l; ls_session := ls_session l;
  ls_workspace := ls_workspace l; ls_resource := ls_resource l;
  ls_control_epoch := ls_control_epoch l;
  ls_observation_revision := ls_observation_revision l;
  ls_observation_digest := ls_observation_digest l;
  ls_action_digest := ls_action_digest l; ls_actor := ls_actor l;
  ls_effect := ls_effect l; ls_expires_at_ms := ls_expires_at_ms l;
  ls_consumed := true |}.

Definition set_attempt_state (a : StoredAttempt) (s : string) (d : option string) := {|
  at_attempt_id := at_attempt_id a; at_lease_id := at_lease_id a;
  at_principal := at_principal a;
  at_credential_incarnation := at_credential_incarnation a;
  at_auth_generation := at_auth_generation a;
  at_capability_generation := at_capability_generation a;
  at_policy_revision := at_policy_revision a; at_session := at_session a;
  at_workspace := at_workspace a; at_resource := at_resource a;
  at_control_epoch := at_control_epoch a; at_request_digest := at_request_digest a;
  at_body_digest := at_body_digest a; at_actor := at_actor a;
  at_ordinal := at_ordinal a; at_dialect := at_dialect a;
  at_route_digest := at_route_digest a; at_idempotency_key := at_idempotency_key a;
  at_wire_idempotency_digest := at_wire_idempotency_digest a;
  at_state := s; at_settlement := d |}.

(** ** Audit records ([audit.rs]) *)

Inductive AuditEvent :=
  | EvAuthenticated (principal : string)
  | EvResourceIssued (resource principal session workspace : string)
  | EvCapabilitySealed (capability principal actor effect : string)
  | EvLeaseMinted (lease capability action_digest : string) (observation_revision : Z)
  | EvSendIntent (attempt lease principal : string)
      (auth_generation capability_generation policy_revision : Z)
      (session workspace resource actor : string) (ordinal : Z)
      (dialect route_digest request_digest body_digest wire_idempotency_digest : string)
  | EvSendWireAdmission (attempt : string)
  | EvSendOutcome (attempt outcome detail : string)
  | EvAttemptReconciled (attempt truth : string)
  | EvAttemptReviewed (attempt principal disposition : string)
  | EvDenied (principal reason : string).

Record AuditRecord := {
  ar_sequence : Z;
  ar_recorded_at_ms : Z;
  ar_control_epoch : Z;
  ar_previous_digest : string;
  ar_event : AuditEvent;
}.

Record AuditHead := { ah_sequence : Z; ah_digest : string }.

#[global] Instance AuditEvent_eq_dec : EqDecision AuditEvent.
Proof. solve_decision. Defined.
#[global] Instance AuditRecord_eq_dec : EqDecision AuditRecord.
Proof. solve_decision. Defined.

(** ** Receipts ([receipt.rs]) *)

Record AuthorityBinding := {
  ab_principal : PrincipalId;
  ab_incarnation : CredentialIncarnation;
  ab_auth_generation : Z;
  ab_capability_generation : Z;
  ab_policy_revision : Z;
  ab_session : SessionId;
  ab_workspace : WorkspaceId;
  ab_resource : ResourceIncarnation;
  ab_control_epoch : Z;
}.

Record AuthContext := {
  ac_principal : PrincipalId;
  ac_incarnation : CredentialIncarnation;
  ac_auth_generation : Z;
  ac_capability_generation : Z;
  ac_policy_revision : Z;
  ac_control_epoch : Z;
  ac_credential_id : string;
  ac_owner_id : string;
}.

Inductive ActorClass := VerifiedOperator | VerifiedModel.

Definition actor_as_str (a : ActorClass) : string :=
  match a with
  | VerifiedOperator => "verified_operator"
  | VerifiedModel => "verified_model"
  end.

Definition actor_parse (value : string) : option ActorClass :=
  if decide (value = "verified_operator") then Some VerifiedOperator
  else if decide (value = "verified_model") then Some VerifiedModel
  else None.

Definition is_operator (a : ActorClass) : bool :=
  match a with VerifiedOperator => true | VerifiedModel => false end.

Inductive EffectClass :=
  | ProviderSend | ComputerUseAct | ExternalWorkerDispatch | OperatorReconcile.

Definition effect_as_str (e : EffectClass) : string :=
  match e with
  | ProviderSend => "provider_send"
  | ComputerUseAct => "computer_use_act"
  | ExternalWorkerDispatch => "external_worker_dispatch"
  | OperatorReconcile => "operator_reconcile"
  end.

Definition effect_parse (value : string) : option EffectClass :=
  if decide (value = "provider_send") then Some ProviderSend
  else if decide (value = "computer_use_act") then Some ComputerUseAct
  else if decide (value = "external_worker_dispatch") then Some ExternalWorkerDispatch
  else if decide (value = "operator_reconcile") then Some OperatorReconcile
  else None.

Inductive ReconciliationDisposition := Review | MarkNotSent | MarkSettled | Discard.

Definition disposition_as_str (d : ReconciliationDisposition) : string :=
  match d with
  | Review => "review"
  | MarkNotSent => "mark_not_sent"
  | MarkSettled => "mark_settled"
  | Discard => "discard"
  end.

Definition disposition_truth (d : ReconciliationDisposition) : option string :=
  match d with
  | Review => None
  | MarkNotSent => Some "no_effect"
  | MarkSettled => Some "took_effect"
  | Discard => Some "discarded"
  end.

#[global] Instance ActorClass_eq_dec : EqDecision ActorClass.
Proof. solve_decision. Defined.
#[global] Instance EffectClass_eq_dec : EqDecision EffectClass.
Proof. solve_decision. Defined.
#[global] Instance ReconciliationDisposition_eq_dec : EqDecision ReconciliationDisposition.
Proof. solve_decision. Defined.
#[global] Instance AuthorityBinding_eq_dec : EqDecision AuthorityBinding.
Proof. solve_decision. Defined.

Record ReconciliationEvidence := {
  re_provider_receipt : option ContentDigest;
  re_operator_observation : option ContentDigest;
  re_observed_at_ms : option Z;
}.

Definition evidence_provider_receipt (d : ContentDigest) : ReconciliationEvidence :=
  {| re_provider_receipt := Some d; re_operator_observation := None; re_observed_at_ms := None |}.

Definition evidence_operator_observation (d : ContentDigest) : ReconciliationEvidence :=
  {| re_provider_receipt := None; re_operator_observation := Some d; re_observed_at_ms := None |}.

Definition evidence_observed_at_only (ms : Z) : ReconciliationEvidence :=
  {| re_provider_receipt := None; re_operator_observation := None; re_observed_at_ms := Some ms |}.

Definition evidence_default : ReconciliationEvidence :=
  {| re_provider_receipt := None; re_operator_observation := None; re_observed_at_ms := None |}.

Definition has_identity_proof (e : ReconciliationEvidence) : bool :=
  bool_decide (is_Some (re_provider_receipt e)) ||
  bool_decide (is_Some (re_operator_observation e)).

Record SealedCapability := {
  sl_id : CapabilityId;
  sl_binding : AuthorityBinding;
  sl_actor : ActorClass;
  sl_effect : EffectClass;
  sl_expires_at_ms : Z;
}.

Record EffectLease := {
  el_id : EffectLeaseId;
  el_capability : CapabilityId;
  el_binding : AuthorityBinding;
  el_observation_revision : Z;
  el_observation_digest : ContentDigest;
  el_action_digest : ContentDigest;
  el_actor : ActorClass;
  el_effect : EffectClass;
  el_expires_at_ms : Z;
}.

Record ReconciliationGrant := {
  rg_lease : EffectLease;
  rg_attempt : AttemptId;
  rg_revision : ContentDigest;
  rg_state : string;
  rg_dialect : string;
  rg_route_digest : ContentDigest;
  rg_disposition : ReconciliationDisposition;
  rg_expires_at_ms : Z;
}.

Record PhysicalSendPermit := {
  pm_attempt : AttemptId;
  pm_lease : EffectLeaseId;
  pm_binding : AuthorityBinding;
  pm_request_digest : ContentDigest;
  pm_body_digest : ContentDigest;
  pm_idempotency_key : string;
  pm_dialect : string;
  pm_wire_admitted : bool;
}.

Inductive FailedReason :=
  | DeniedBeforeDispatch | ConnectRefusedBeforeWrite | AbandonedBeforeWireAdmission.

Definition failed_debug (r : FailedReason) : string :=
  match r with
  | DeniedBeforeDispatch => "DeniedBeforeDispatch"
  | ConnectRefusedBeforeWrite => "ConnectRefusedBeforeWrite"
  | AbandonedBeforeWireAdmission => "AbandonedBeforeWireAdmission"
  end.

Inductive UncertainReason :=
  | TransportAfterPossibleWrite
  | CancelledAfterPossibleWrite
  | ResponseBodyAfterPossibleEffect
  | ProtocolAfterPossibleEffect
  | CrashBetweenDispatchAndSettlement
  | AuditNotDurableAfterDispatch
  | LifecycleUnavailableAfterDispatch
  | StateNotDurableAfterDispatch.

Definition uncertain_debug (r : UncertainReason) : string :=
  match r with
  | TransportAfterPossibleWrite => "TransportAfterPossibleWrite"
  | CancelledAfterPossibleWrite => "CancelledAfterPossibleWrite"
  | ResponseBodyAfterPossibleEffect => "ResponseBodyAfterPossibleEffect"
  | ProtocolAfterPossibleEffect => "ProtocolAfterPossibleEffect"
  | CrashBetweenDispatchAndSettlement => "CrashBetweenDispatchAndSettlement"
  | AuditNotDurableAfterDispatch => "AuditNotDurableAfterDispatch"
  | LifecycleUnavailableAfterDispatch => "LifecycleUnavailableAfterDispatch"
  | StateNotDurableAfterDispatch => "StateNotDurableAfterDispatch"
  end.

Inductive SendOutcome :=
  | OutSettled (attempt : AttemptId)
  | OutFailed (attempt : AttemptId) (reason : FailedReason)
  | OutUncertain (attempt : AttemptId) (reason : UncertainReason).

Definition may_have_taken_effect (o : SendOutcome) : bool :=
  match o with OutSettled _ | OutUncertain _ _ => true | OutFailed _ _ => false end.

Definition is_safe_to_resend (o : SendOutcome) : bool :=
  match o with OutFailed _ _ => true | _ => false end.

(** ** Attempt lifecycle labels ([gates.rs]) *)

Definition STATE_PREPARING : string := "preparing".
Definition STATE_SENDING : string := "sending".
Definition STATE_SETTLED : string := "settled".
Definition STATE_FAILED : string := "failed".
Definition STATE_UNCERTAIN : string := "uncertain".
Definition STATE_DISCARDED : string := "discarded".

Lemma actor_parse_as_str a : actor_parse (actor_as_str a) = Some a.
Proof. by destruct a. Qed.

Lemma effect_parse_as_str e : effect_parse (effect_as_str e) = Some e.
Proof. by destruct e. Qed.

Lemma effect_parse_Some s e : effect_parse s = Some e → s = effect_as_str e.
Proof. unfold effect_parse. repeat case_decide; naive_solver. Qed.

Lemma actor_parse_Some s a : actor_parse s = Some a → s = actor_as_str a.
Proof. unfold actor_parse. repeat case_decide; naive_solver. Qed.
