(* ===== verification/World.v ===== *)
(** * The machine the authority runs on: disk, clock, randomness, faults

    Everything outside the crate is a parameter.  [Codec] stands for
    [serde_json] and [sha2]; [Environment] for the clock, [uuid], the working
    directory, path canonicalisation, and the result of each file-system call.
    Every effect consumes one tick, so an environment is a schedule of faults
    and crashes: a theorem over all environments holds wherever an I/O call
    fails and wherever the process dies.

    [M] is the state-and-error monad of the methods of [HostAuthority]; [Tx] is
    the one of the closures passed to [with_state]. *)

From S2P Require Import Prelude Text Ids State.
From Stdlib Require Import Ascii.

(** ** External code *)

Class Codec := {
  #[global] codec_sha :: Sha256;
  state_text : Type;
  state_to_json : StoredAuthority → string + state_text;
  state_from_json : state_text → string + StoredAuthority;
  head_text : Type;
  head_to_json : AuditHead → string + head_text;
  head_from_json : head_text → string + AuditHead;
  record_to_json : AuditRecord → string + string;
  record_from_json : string → string + AuditRecord;
}.

(** [serde_json] reads back what it printed; [to_string] prints a JSON object on
    one line, as UTF-8. *)
Class CodecLaws `{Codec} : Prop := {
  #[global] codec_sha_laws :: Sha256Laws;
  state_json_roundtrip : ∀ st t, state_to_json st = inr t → state_from_json t = inr st;
  head_json_roundtrip : ∀ h t, head_to_json h = inr t → head_from_json t = inr h;
  record_json_roundtrip : ∀ r l, record_to_json r = inr l → record_from_json l = inr r;
  record_json_object : ∀ r l, record_to_json r = inr l →
    (∃ body, l = String "{"%char (body +:+ "}")) ∧ no_lf l = true ∧ utf8_valid l = true;
}.

(** What one file-system call does: succeed, fail with an error message, or
    never return because the process dies.  [written] is the number of bytes of
    the buffer that reached the file, for a write. *)
Inductive io_result :=
  | IoOk
  | IoErr (msg : string) (written : nat)
  | IoCrash (written : nat).

Class Environment := {
  uuid_v4 : nat → string;
  clock_ms : nat → Z;
  io_event : nat → io_result;
  current_dir : nat → string;
  canonicalize : string → string;
}.

Class EnvironmentLaws `{Environment} : Prop := {
  uuid_length : ∀ n, String.length (uuid_v4 n) = 16%nat;
  clock_range : ∀ n, is_u64 (clock_ms n);
}.

(** ** The world *)

(** The cached head of [AuditLog]. *)
Record AuditLog := {
  al_sequence : Z;
  al_previous_digest : string;
  al_observed_len : Z;
  al_damaged : option string;
}.

Section world.
  Context {Cdc : Codec}.

(** The files of one authority root: [authority.json], [audit.log],
    [audit.head] and [custody.key] with its permission bits; [None] is a missing
    file. *)
Record Disk := {
  d_state : option state_text;
  d_log : option string;
  d_head : option head_text;
  d_custody : option (Z * string);
}.

(** [w_admin_held]: some process holds [admin.lock].  The two flags record
    whether a thread panicked while holding the corresponding mutex. *)
Record World := {
  w_disk : Disk;
  w_admin_held : bool;
  w_audit : AuditLog;
  w_lifecycle_poisoned : bool;
  w_audit_poisoned : bool;
  w_tick : nat;
}.

Definition set_disk (w : World) (d : Disk) : World := {|
  w_disk := d; w_admin_held := w_admin_held w; w_audit := w_audit w;
  w_lifecycle_poisoned := w_lifecycle_poisoned w;
  w_audit_poisoned := w_audit_poisoned w; w_tick := w_tick w |}.

Definition set_audit (w : World) (a : AuditLog) : World := {|
  w_disk := w_disk w; w_admin_held := w_admin_held w; w_audit := a;
  w_lifecycle_poisoned := w_lifecycle_poisoned w;
  w_audit_poisoned := w_audit_poisoned w; w_tick := w_tick w |}.

Definition set_tick (w : World) (n : nat) : World := {|
  w_disk := w_disk w; w_admin_held := w_admin_held w; w_audit := w_audit w;
  w_lifecycle_poisoned := w_lifecycle_poisoned w;
  w_audit_poisoned := w_audit_poisoned w; w_tick := n |}.

Definition set_admin_held (w : World) (b : bool) : World := {|
  w_disk := w_disk w; w_admin_held := b; w_audit := w_audit w;
  w_lifecycle_poisoned := w_lifecycle_poisoned w;
  w_audit_poisoned := w_audit_poisoned w; w_tick := w_tick w |}.

Definition set_d_state (d : Disk) x :=
  {| d_state := x; d_log := d_log d; d_head := d_head d; d_custody := d_custody d |}.
Definition set_d_log (d : Disk) x :=
  {| d_state := d_state d; d_log := x; d_head := d_head d; d_custody := d_custody d |}.
Definition set_d_head (d : Disk) x :=
  {| d_state := d_state d; d_log := d_log d; d_head := x; d_custody := d_custody d |}.
Definition set_d_custody (d : Disk) x :=
  {| d_state := d_state d; d_log := d_log d; d_head := d_head d; d_custody := x |}.

(** ** The monad of the store's methods *)

Inductive outcome (A : Type) :=
  | Done (a : A)
  | Raised (e : AuthorityError)
  | Crashed.
Arguments Done {A} _.
Arguments Raised {A} _.
Arguments Crashed {A}.

Definition M (A : Type) : Type := World → outcome A * World.

#[global] Instance M_ret : MRet M := λ A a w, (Done a, w).
#[global] Instance M_bind : MBind M := λ A B f m w,
  match m w with
  | (Done a, w') => f a w'
  | (Raised e, w') => (Raised e, w')
  | (Crashed, w') => (Crashed, w')
  end.

Definition raise {A} (e : AuthorityError) : M A := λ w, (Raised e, w).

Definition crash {A} : M A := λ w, (Crashed, w).

Definition lift_res {A} (r : Res A) : M A :=
  match r with inl e => raise e | inr a => mret a end.

(** A Rust [match] on the [Result] of a call; a crash is not catchable. *)
Definition attempt_ {A} (m : M A) : M (Res A) := λ w,
  match m w with
  | (Done a, w') => (Done (inr a), w')
  | (Raised e, w') => (Done (inl e), w')
  | (Crashed, w') => (Crashed, w')
  end.

Definition gets {A} (f : World → A) : M A := λ w, (Done (f w), w).
Definition modify (f : World → World) : M unit := λ w, (Done (), f w).

Definition lift_json {A} (mk : string → AuthorityError) (r : string + A) : M A :=
  match r with inl e => raise (mk e) | inr a => mret a end.

End world.

#[global] Arguments Done {A} _.
#[global] Arguments Raised {A} _.
#[global] Arguments Crashed {A}.

(** ** The monad of transactions

    A closure given to [with_state] mutates a private copy of the state and may
    mint identifiers; on error the copy is dropped. *)

Record TxState := { tx_auth : StoredAuthority; tx_tick : nat }.

Definition Tx (A : Type) : Type := TxState → Res (A * TxState).

#[global] Instance Tx_ret : MRet Tx := λ A a s, inr (a, s).
#[global] Instance Tx_bind : MBind Tx := λ A B f m s,
  match m s with
  | inl e => inl e
  | inr (a, s') => f a s'
  end.

Definition tx_get : Tx StoredAuthority := λ s, inr (tx_auth s, s).
Definition tx_put (st : StoredAuthority) : Tx unit :=
  λ s, inr ((), {| tx_auth := st; tx_tick := tx_tick s |}).
Definition tx_res {A} (r : Res A) : Tx A :=
  λ s, match r with inl e => inl e | inr a => inr (a, s) end.
Definition tx_fail {A} (e : AuthorityError) : Tx A := λ s, inl e.

Section effects.
  Context {Cdc : Codec} {Env : Environment}.

(** [$name::mint()] inside a transaction. *)
Definition tx_mint {k} : Tx (opaque_id k) :=
  λ s, inr (OpaqueId (uuid_v4 (tx_tick s)),
            {| tx_auth := tx_auth s; tx_tick := S (tx_tick s) |}).

Definition tick : M nat := λ w, (Done (w_tick w), set_tick w (S (w_tick w))).

Definition mint {k} : M (opaque_id k) := n ← tick; mret (OpaqueId (uuid_v4 n)).

Definition unix_time_millis : M Z := n ← tick; mret (clock_ms n).

(** One file-system call with no effect on the modelled files. *)
Definition io : M unit :=
  n ← tick;
  match io_event n with
  | IoOk => mret ()
  | IoErr msg _ => raise (Durability msg)
  | IoCrash _ => crash
  end.

(** One file-system call that replaces a file atomically or not at all. *)
Definition io_commit (f : Disk → Disk) : M unit :=
  _ ← io; modify (λ w, set_disk w (f (w_disk w))).

(** One [write_all] on the file that [put] extends: a failing call may leave a
    prefix of the buffer. *)
Definition io_write (put : string → Disk → Disk) (buf : string) : M unit :=
  n ← tick;
  let put s := modify (λ w, set_disk w (put s (w_disk w))) in
  match io_event n with
  | IoOk => put buf
  | IoErr msg k => _ ← put (string_take k buf); raise (Durability msg)
  | IoCrash k => _ ← put (string_take k buf); crash
  end.

Definition io_append_log : string → M unit :=
  io_write (λ s d, set_d_log d (Some (default "" (d_log d) +:+ s))).

End effects.

(** ** Reasoning about [M]

    [wp m Q w]: running [m] from [w] ends in an outcome and a world satisfying
    [Q].  [RO m φ]: [m] only advances the tick, and a value it returns satisfies
    [φ] in the world it started from. *)

Section reasoning.
  Context {Cdc : Codec} {Env : Environment}.

Definition wp {A} (m : M A) (Q : outcome A → World → Prop) (w : World) : Prop :=
  Q (m w).1 (m w).2.

(** The continuation of [wp_bind]: only a returned value goes on. *)
Definition post_bind {A B} (f : A → M B) (Q : outcome B → World → Prop)
    (o : outcome A) (w : World) : Prop :=
  match o with
  | Done a => wp (f a) Q w
  | Raised e => Q (Raised e) w
  | Crashed => Q Crashed w
  end.

Lemma wp_bind {A B} (m : M A) (f : A → M B) Q w :
  wp m (post_bind f Q) w → wp (m ≫= f) Q w.
Proof. unfold wp, mbind, M_bind. destruct (m w) as [[a|e|] w']; done. Qed.

Lemma wp_ret {A} (a : A) Q w : Q (Done a) w → wp (mret a) Q w.
Proof. done. Qed.

Lemma wp_raise {A} e (Q : outcome A → World → Prop) w : Q (Raised e) w → wp (raise e) Q w.
Proof. done. Qed.

Lemma wp_mono {A} (m : M A) (P Q : outcome A → World → Prop) w :
  wp m P w → (∀ o w', P o w' → Q o w') → wp m Q w.
Proof. unfold wp. naive_solver. Qed.

Lemma wp_conj {A} (m : M A) (P Q : outcome A → World → Prop) w :
  wp m P w → wp m Q w → wp m (λ o w', P o w' ∧ Q o w') w.
Proof. done. Qed.

Lemma wp_run {A} (m : M A) Q w o w' : m w = (o, w') → wp m Q w → Q o w'.
Proof. unfold wp. by intros ->. Qed.

Lemma run_done {A} (m : M A) w o : (m w).1 = o → m w = (o, (m w).2).
Proof. destruct (m w). by intros <-. Qed.

Lemma wp_of_run {A} (m : M A) Q w : (∀ o w', m w = (o, w') → Q o w') → wp m Q w.
Proof. unfold wp. destruct (m w) as [o w']. eauto. Qed.

Lemma wp_attempt {A} (m : M A) Q w :
  wp m (λ o w', match o with
                | Done a => Q (Done (inr a)) w'
                | Raised e => Q (Done (inl e)) w'
                | Crashed => Q Crashed w'
                end) w → wp (attempt_ m) Q w.
Proof. unfold wp, attempt_. destruct (m w) as [[a|e|] w']; done. Qed.

Lemma wp_bind_gets {A B} (f : World → A) (k : A → M B) Q w :
  wp (k (f w)) Q w → wp (gets f ≫= k) Q w.
Proof. done. Qed.

Lemma wp_bind_modify {B} f (k : unit → M B) Q w :
  wp (k ()) Q (f w) → wp (modify f ≫= k) Q w.
Proof. done. Qed.

Lemma wp_bind_ret {A B} (a : A) (k : A → M B) Q w : wp (k a) Q w → wp (mret a ≫= k) Q w.
Proof. done. Qed.

Lemma wp_bind_raise {A B} e (k : A → M B) Q w : Q (Raised e) w → wp (raise e ≫= k) Q w.
Proof. done. Qed.

Definition RO {A} (m : M A) (φ : World → A → Prop) : Prop :=
  ∀ w, ∃ n, (m w).2 = set_tick w (n + w_tick w) ∧ ∀ a, (m w).1 = Done a → φ w a.

Lemma set_tick_tick w a b : set_tick (set_tick w a) b = set_tick w b.
Proof. reflexivity. Qed.

Lemma set_tick_same w : set_tick w (w_tick w) = w.
Proof. by destruct w. Qed.

Lemma RO_wp {A} (m : M A) φ Q w :
  RO m φ →
  (∀ n a, φ w a → Q (Done a) (set_tick w n)) →
  (∀ n e, Q (Raised e) (set_tick w n)) →
  (∀ n, Q Crashed (set_tick w n)) →
  wp m Q w.
Proof.
  intros Hm Hd Hr Hc. unfold wp. destruct (Hm w) as (n & -> & Ha).
  destruct (m w).1; naive_solver.
Qed.

Lemma RO_weaken {A} (m : M A) (φ ψ : World → A → Prop) :
  RO m φ → (∀ w a, φ w a → ψ w a) → RO m ψ.
Proof. intros Hm Hi w. destruct (Hm w) as (n & ? & ?). exists n. naive_solver. Qed.

(** Predicates over the disk and the cached head ignore the tick. *)
Definition tick_free {A} (φ : World → A → Prop) : Prop :=
  ∀ w n a, φ (set_tick w n) a ↔ φ w a.

Lemma RO_seq {A B} (m : M A) (f : A → M B) φ χ :
  RO m φ → tick_free φ → tick_free χ →
  (∀ a, RO (f a) (λ w b, φ w a → χ w b)) →
  RO (m ≫= f) χ.
Proof.
  intros Hm Hφ Hχ Hf w. unfold mbind, M_bind. destruct (Hm w) as (n & Hw & Ha).
  destruct (m w) as [[a|e|] w1]; simpl in *; subst w1.
  - destruct (Hf a (set_tick w (n + w_tick w))) as (n' & Hw' & Hb). exists (n' + n)%nat.
    rw Hw' set_tick_tick /= Nat.add_assoc. split; [done|]. intros b E. eapply Hχ, Hb; [done|].
    by apply Hφ, Ha.
  - exists n. naive_solver.
  - exists n. naive_solver.
Qed.

Lemma RO_ret {A} (a : A) : RO (mret a) (λ _ b, b = a).
Proof. intros w. exists 0%nat. simpl. rw set_tick_same. naive_solver. Qed.

Lemma RO_raise {A} e : RO (@raise _ A e) (λ _ _, False).
Proof. intros w. exists 0%nat. simpl. rw set_tick_same. naive_solver. Qed.

Lemma RO_gets {A} (f : World → A) : RO (gets f) (λ w a, a = f w).
Proof. intros w. exists 0%nat. simpl. rw set_tick_same. naive_solver. Qed.

Lemma RO_lift_res {A} (r : Res A) : RO (lift_res r) (λ _ a, r = inr a).
Proof. intros w. exists 0%nat. destruct r; simpl; rw set_tick_same; naive_solver. Qed.

Lemma RO_lift_json {A} mk (r : string + A) : RO (lift_json mk r) (λ _ a, r = inr a).
Proof. intros w. exists 0%nat. destruct r; simpl; rw set_tick_same; naive_solver. Qed.

Lemma RO_tick : RO tick (λ _ _, True).
Proof. intros w. exists 1%nat. split; [reflexivity|done]. Qed.

Lemma RO_clock : RO unix_time_millis (λ _ z, ∃ n, z = clock_ms n).
Proof.
  intros w. exists 1%nat. split; [reflexivity|]. simpl. intros a [= <-]. eauto.
Qed.

Lemma RO_mint {k} : RO (@mint _ _ k) (λ _ i, ∃ n, i = OpaqueId (uuid_v4 n)).
Proof.
  intros w. exists 1%nat. split; [reflexivity|]. simpl. intros a [= <-]. eauto.
Qed.

Lemma RO_io : RO io (λ _ _, True).
Proof.
  intros w. exists 1%nat. unfold io, tick, mbind, M_bind. simpl.
  destruct (io_event (w_tick w)); done.
Qed.

(** A committing call either leaves the disk alone or applies the whole update. *)
Lemma wp_io_commit f Q w :
  (∀ n, Q (Done ()) (set_disk (set_tick w n) (f (w_disk w)))) →
  (∀ n e, Q (Raised e) (set_tick w n)) →
  (∀ n, Q Crashed (set_tick w n)) →
  wp (io_commit f) Q w.
Proof.
  intros Hd Hr Hc. unfold io_commit. apply wp_bind.
  eapply RO_wp; [apply RO_io|intros n [] _|done|done]. apply Hd.
Qed.

Lemma wp_io_append_log buf Q w :
  let put s w := set_disk w (set_d_log (w_disk w) (Some (default "" (d_log (w_disk w)) +:+ s))) in
  (∀ n, Q (Done ()) (put buf (set_tick w n))) →
  (∀ n e k, Q (Raised e) (put (string_take k buf) (set_tick w n))) →
  (∀ n k, Q Crashed (put (string_take k buf) (set_tick w n))) →
  wp (io_append_log buf) Q w.
Proof.
  intros put Hd Hr Hc. unfold wp, io_append_log, io_write, tick, mbind, M_bind. simpl.
  destruct (io_event (w_tick w)); simpl; [apply Hd|apply Hr|apply Hc].
Qed.

End reasoning.

Create HintDb ro.
#[export] Hint Resolve RO_ret RO_gets RO_lift_res RO_lift_json RO_tick RO_clock RO_mint RO_io
  RO_raise : ro.

Ltac solve_tick_free :=
  let w := fresh in let n := fresh in let a := fresh in intros w n a; reflexivity.

(** [ro_seq lem]: the next call is the read-only one specified by [lem]. *)
Tactic Notation "ro_seq" uconstr(lem) := eapply RO_seq; [eapply lem|solve_tick_free|solve_tick_free|].
Tactic Notation "ro_end" uconstr(lem) := eapply RO_weaken; [eapply lem|].

(** [ro_step]: run one read-only call under [wp]. *)
Tactic Notation "ro_step" uconstr(lem) := apply wp_bind; eapply RO_wp; [eapply lem| | |].

(** Collapse nested tick updates. *)
Ltac simpl_tick := rw ?set_tick_tick; cbn [w_disk w_audit w_admin_held w_lifecycle_poisoned
  w_audit_poisoned set_tick set_disk set_audit d_state d_log d_head set_d_log set_d_head set_d_state].
