(* ===== verification/Concrete.v ===== *)
(** * Concrete instances

    One codec and a family of environments, used by the witnesses to run the
    model.  The hash is a polynomial one: it has the output length of SHA-256
    and no collision between the messages the witnesses use.  A record
    prints as a list of tokens between braces. *)

From S2P Require Import Prelude Text Ids State World.
From stdpp Require Import countable.
From Stdlib Require Import Ascii.

Fixpoint poly_hash (s : string) (h : Z) : Z :=
  match s with
  | "" => h
  | String c s => poly_hash s (Z.land (Z.shiftl h 5 + h + byte_val c + 1) 2147483647)%Z
  end.

#[local] Instance toy_sha : Sha256 := { sha256 s := le_bytes 32 (poly_hash s 7) }.

Definition event_parts (e : AuditEvent) : nat * list string * list Z :=
  match e with
  | EvAuthenticated p => (0%nat, [p], [])
  | EvResourceIssued a b c d => (1%nat, [a; b; c; d], [])
  | EvCapabilitySealed a b c d => (2%nat, [a; b; c; d], [])
  | EvLeaseMinted a b c z => (3%nat, [a; b; c], [z])
  | EvSendIntent a b c x y z d e f g o h i j k l =>
      (4%nat, [a; b; c; d; e; f; g; h; i; j; k; l], [x; y; z; o])
  | EvSendWireAdmission a => (5%nat, [a], [])
  | EvSendOutcome a b c => (6%nat, [a; b; c], [])
  | EvAttemptReconciled a b => (7%nat, [a; b], [])
  | EvAttemptReviewed a b c => (8%nat, [a; b; c], [])
  | EvDenied a b => (9%nat, [a; b], [])
  end.

Definition event_of_parts (p : nat * list string * list Z) : option AuditEvent :=
  match p with
  | (0%nat, [p], []) => Some (EvAuthenticated p)
  | (1%nat, [a; b; c; d], []) => Some (EvResourceIssued a b c d)
  | (2%nat, [a; b; c; d], []) => Some (EvCapabilitySealed a b c d)
  | (3%nat, [a; b; c], [z]) => Some (EvLeaseMinted a b c z)
  | (4%nat, [a; b; c; d; e; f; g; h; i; j; k; l], [x; y; z; o]) =>
      Some (EvSendIntent a b c x y z d e f g o h i j k l)
  | (5%nat, [a], []) => Some (EvSendWireAdmission a)
  | (6%nat, [a; b; c], []) => Some (EvSendOutcome a b c)
  | (7%nat, [a; b], []) => Some (EvAttemptReconciled a b)
  | (8%nat, [a; b; c], []) => Some (EvAttemptReviewed a b c)
  | (9%nat, [a; b], []) => Some (EvDenied a b)
  | _ => None
  end.

Lemma event_of_event_parts e : event_of_parts (event_parts e) = Some e.
Proof. by destruct e. Qed.

Fixpoint bits (p : positive) : string :=
  match p with
  | xH => ""
  | xO p => String "0" (bits p)
  | xI p => String "1" (bits p)
  end.

Fixpoint unbits (s : string) : option positive :=
  match s with
  | "" => Some xH
  | String "0" s => xO <$> unbits s
  | String "1" s => xI <$> unbits s
  | _ => None
  end.

(** Tokens: a number is [z] and bits, a string is [s] and hexadecimal. *)
Definition z_token (z : Z) : string := String "z" (bits (encode z)).
Definition s_token (s : string) : string := String "s" (hex s).

Abbreviation token := (sum Z string).

Definition print_token (t : token) : string :=
  match t with inl z => z_token z | inr s => s_token s end.

Definition parse_token (s : string) : option token :=
  match s with
  | String "z" s => p ← unbits s; z ← decode p; Some (inl z)
  | String "s" s => inr <$> unhex s
  | _ => None
  end.

(** Every token is followed by a comma; the list ends with a brace. *)
Fixpoint print_tokens (ts : list token) : string :=
  match ts with
  | [] => "}"
  | t :: ts => print_token t +:+ String "," (print_tokens ts)
  end.

Fixpoint split_tokens (s cur : string) : list string :=
  match s with
  | "" => []
  | String "," s => cur :: split_tokens s ""
  | String c s => split_tokens s (cur +:+ String c "")
  end.

Definition record_tokens (r : AuditRecord) : list token :=
  let '(tag, ss, zs) := event_parts (ar_event r) in
  [inl (ar_sequence r); inl (ar_recorded_at_ms r); inl (ar_control_epoch r);
   inl (Z.of_nat tag); inr (ar_previous_digest r)] ++ (inr <$> ss) ++ (inl <$> zs).

Fixpoint tokens_strings (ts : list token) : list string :=
  match ts with
  | [] => []
  | inr s :: ts => s :: tokens_strings ts
  | inl _ :: ts => tokens_strings ts
  end.

Fixpoint tokens_numbers (ts : list token) : list Z :=
  match ts with
  | [] => []
  | inl z :: ts => z :: tokens_numbers ts
  | inr _ :: ts => tokens_numbers ts
  end.

Definition record_of_tokens (ts : list token) : option AuditRecord :=
  match ts with
  | inl seq :: inl ms :: inl epoch :: inl tag :: inr prev :: ts =>
      e ← event_of_parts (Z.to_nat tag, tokens_strings ts, tokens_numbers ts);
      Some {| ar_sequence := seq; ar_recorded_at_ms := ms; ar_control_epoch := epoch;
              ar_previous_digest := prev; ar_event := e |}
  | _ => None
  end.

Definition print_record (r : AuditRecord) : string + string :=
  inr (String "{" (print_tokens (record_tokens r))).

Definition parse_record (l : string) : string + AuditRecord :=
  match l with
  | String "{" body =>
      match mapM parse_token (split_tokens body "") ≫= record_of_tokens with
      | Some r => inr r
      | None => inl "invalid record"
      end
  | _ => inl "expected value"
  end.

(** A character that tokens use: a digit, [a]-[f], [s] or [z]. *)
Definition token_char (c : ascii) : bool :=
  let b := byte_val c in
  bool_decide (48 ≤ b ≤ 57 ∨ 97 ≤ b ≤ 102 ∨ b = 115 ∨ b = 122)%Z.

Lemma unbits_bits p : unbits (bits p) = Some p.
Proof. induction p as [p IH|p IH|]; simpl; rw ?IH //. Qed.

Lemma parse_print_token t : parse_token (print_token t) = Some t.
Proof.
  destruct t as [z|s]; unfold print_token, z_token, s_token, parse_token.
  - by rw unbits_bits /mbind /option_bind decode_encode.
  - by rw unhex_hex.
Qed.

Lemma hex_token_chars s : string_forall token_char (hex s) = true.
Proof.
  induction s as [|[b0 b1 b2 b3 b4 b5 b6 b7] s IH]; [done|]. simpl. rw IH.
  destruct b0, b1, b2, b3, b4, b5, b6, b7; vm_compute; done.
Qed.

Lemma print_token_chars t : string_forall token_char (print_token t) = true.
Proof.
  destruct t as [z|s]; [|apply hex_token_chars].
  change (string_forall token_char (bits (encode z)) = true).
  generalize (encode z) as p. induction p as [p IH|p IH|]; done.
Qed.

Lemma split_tokens_token t rest cur :
  string_forall token_char t = true →
  split_tokens (t +:+ String "," rest) cur = (cur +:+ t) :: split_tokens rest "".
Proof.
  revert cur. induction t as [|c t IH]; intros cur Ht; simpl in *.
  - by rw string_app_nil_r.
  - apply andb_prop in Ht as [Hc Ht].
    transitivity (split_tokens (t +:+ String "," rest) (cur +:+ String c "")).
    { destruct c as [[] [] [] [] [] [] [] []]; try done. }
    rw IH // string_app_assoc //.
Qed.

Lemma split_print_tokens ts : split_tokens (print_tokens ts) "" = print_token <$> ts.
Proof.
  induction ts as [|t ts IH]; [done|]. simpl.
  rw split_tokens_token; [by rw IH|apply print_token_chars].
Qed.

Lemma record_of_record_tokens r : record_of_tokens (record_tokens r) = Some r.
Proof.
  destruct r as [seq ms epoch prev e]. unfold record_tokens.
  cbn [ar_sequence ar_recorded_at_ms ar_control_epoch ar_previous_digest ar_event].
  destruct (event_parts e) as [[tag ss] zs] eqn:He. cbn [app record_of_tokens].
  assert (tokens_strings ((inr <$> ss) ++ (inl <$> zs)) = ss) as ->.
  { clear. induction ss as [|s ss IH]; simpl; [|by f_equal]. by induction zs. }
  assert (tokens_numbers ((inr <$> ss) ++ (inl <$> zs)) = zs) as ->.
  { clear. induction ss as [|s ss IH]; simpl; [|done]. induction zs; simpl; by f_equal. }
  rw Nat2Z.id -He event_of_event_parts //.
Qed.

Lemma parse_print_record r l : print_record r = inr l → parse_record l = inr r.
Proof.
  intros [= <-]. simpl. rw split_print_tokens.
  assert (mapM parse_token (print_token <$> record_tokens r) = Some (record_tokens r)) as ->.
  { induction (record_tokens r) as [|t ts IH]; [done|].
    cbn [fmap list_fmap mapM]. rw parse_print_token /=. unfold fmap in IH. rw IH //. }
  rw /= record_of_record_tokens //.
Qed.

(** A printed line is ASCII without line feeds, and ends with a brace. *)
Definition plain_char (c : ascii) : bool := token_char c || bool_decide (byte_val c = 44%Z).

Lemma token_plain t : string_forall plain_char (print_token t) = true.
Proof.
  pose proof (print_token_chars t) as Ht. induction (print_token t) as [|c s IH]; [done|].
  simpl in *. apply andb_prop in Ht as [Hc Ht]. unfold plain_char at 1. rw Hc IH //.
Qed.

Lemma print_tokens_body ts :
  ∃ body, print_tokens ts = body +:+ "}" ∧ string_forall plain_char body = true.
Proof.
  induction ts as [|t ts (body & Hb & Hp)]; [by exists ""|].
  exists (print_token t +:+ String "," body). simpl. rw Hb. split.
  - by rw -string_app_cons -string_app_assoc.
  - rw string_forall_app token_plain. simpl. rw Hp //.
Qed.

Lemma plain_ok body :
  string_forall plain_char body = true →
  no_lf (String "{" (body +:+ "}")) = true ∧ utf8_valid (String "{" (body +:+ "}")) = true.
Proof.
  intros Hp. unfold no_lf. simpl. rw string_forall_app.
  assert (string_forall (λ c, bool_decide (c ≠ LF)) body = true ∧ utf8_run U_start body = U_start)
    as [-> Hu].
  { induction body as [|c body IH]; [done|]. simpl in Hp. apply andb_prop in Hp as [Hc Hp].
    destruct (IH Hp) as [Hl Hu]. simpl. rw Hl -{2}Hu.
    destruct c as [[] [] [] [] [] [] [] []]; vm_compute in Hc; done. }
  split; [done|]. unfold utf8_valid. simpl. rw bool_decide_eq_true utf8_run_app Hu //.
Qed.

#[local] Instance concrete_codec : Codec := {
  codec_sha := toy_sha;
  state_text := StoredAuthority;
  state_to_json := inr;
  state_from_json := inr;
  head_text := AuditHead;
  head_to_json := inr;
  head_from_json := inr;
  record_to_json := print_record;
  record_from_json := parse_record;
}.

Lemma concrete_codec_laws : CodecLaws.
Proof.
  split.
  - split. intros s. apply le_bytes_length.
  - by intros st t [= <-].
  - by intros st t [= <-].
  - apply parse_print_record.
  - intros r l [= <-]. destruct (print_tokens_body (record_tokens r)) as (body & -> & Hp).
    split; [by eexists|]. by apply plain_ok.
Qed.
#[local] Existing Instance concrete_codec_laws.

(** Identifiers count upwards (and stop short of wrapping around), the clock advances one millisecond per tick, and
    [faults] is the schedule of file-system results. *)
Definition env_with (faults : nat → io_result) : Environment := {|
  uuid_v4 n := le_bytes 16 (Z.min (Z.of_nat n + 1) (2 ^ 127));
  clock_ms n := ((1000 + Z.of_nat n) mod 2 ^ 64)%Z;
  io_event := faults;
  current_dir _ := "/work";
  canonicalize p := p;
|}.

Lemma env_with_laws faults : @EnvironmentLaws (env_with faults).
Proof.
  split.
  - done.
  - intros n. unfold is_u64, U64_MAX. simpl clock_ms.
    pose proof (Z.mod_pos_bound (1000 + Z.of_nat n) (2 ^ 64) ltac:(done)).
    lia.
Qed.

Definition no_faults : nat → io_result := λ _, IoOk.

(** The file-system call of tick [n] fails without writing; the others succeed. *)
Definition fault_at (n : nat) : nat → io_result :=
  λ m, if decide (m = n) then IoErr "injected fault" 0 else IoOk.

Definition empty_disk : Disk :=
  {| d_state := None; d_log := None; d_head := None; d_custody := None |}.

Definition empty_world : World := {|
  w_disk := empty_disk; w_admin_held := false;
  w_audit := {| al_sequence := 0;
    al_previous_digest := "0000000000000000000000000000000000000000000000000000000000000000";
    al_observed_len := 0; al_damaged := None |};
  w_lifecycle_poisoned := false; w_audit_poisoned := false; w_tick := 0 |}.
