(* ===== verification/AuditWal.v ===== *)
(** * The append-only, hash-chained audit log

    Models [crates/common/xai-host-authority/src/audit.rs]: the cached head,
    replay, append with its separately fsynced head checkpoint, the record
    reader and the chain verifier.  The log is the byte text of [audit.log];
    torn writes leave a prefix of the line. *)

From S2P Require Import Prelude Text Ids State World.
From stdpp Require Import pretty.

Definition GENESIS_DIGEST : string :=
  "0000000000000000000000000000000000000000000000000000000000000000".

Section audit.
  Context {Cdc : Codec} {Env : Environment}.

Definition record_digest (line : string) : string := digest_to_hex (of_bytes line).

Definition get_audit : M AuditLog := gets w_audit.

Definition put_audit (a : AuditLog) : M unit := modify (λ w, set_audit w a).

(** [AuditLog::lock]: open the lock file, then [flock] it. *)
Definition audit_lock : M unit := _ ← io; io.

Definition current_len : M Z :=
  _ ← io;
  gets (λ w, match d_log (w_disk w) with
             | Some t => Z.of_nat (String.length t)
             | None => 0%Z
             end).

Definition read_head : M (option AuditHead) :=
  _ ← io;
  h ← gets (λ w, d_head (w_disk w));
  match h with
  | None => mret None
  | Some t =>
      v ← lift_json (λ e, CorruptState ("audit head is unreadable: " +:+ e)) (head_from_json t);
      mret (Some v)
  end.

(** Serialise, create, write, fsync and rename the checkpoint, then fsync the
    directory; the rename is the commit point. *)
Definition persist_head (sequence : Z) (digest : string) : M unit :=
  text ← lift_json Durability (head_to_json {| ah_sequence := sequence; ah_digest := digest |});
  _ ← io; _ ← io; _ ← io;
  _ ← io_commit (λ d, set_d_head d (Some text));
  _ ← io; io.

Definition head_matches_pure (h : option AuditHead) (sequence : Z) (digest : string) : bool :=
  match h with
  | None => bool_decide (sequence = 0%Z) && bool_decide (digest = GENESIS_DIGEST)
  | Some h => bool_decide (ah_sequence h = sequence) && bool_decide (ah_digest h = digest)
  end.

Definition head_matches (sequence : Z) (digest : string) : M bool :=
  h ← read_head; mret (head_matches_pure h sequence digest).

(** [read_to_string] of the log; [None] is the NotFound branch. *)
Definition read_log : M (option string) :=
  _ ← io;
  t ← gets (λ w, d_log (w_disk w));
  match t with
  | None => mret None
  | Some t => if utf8_valid t then mret (Some t)
              else raise (Durability "stream did not contain valid UTF-8")
  end.

(** The loop of [replay] over the lines: the new head, and the damage found. *)
Fixpoint replay_lines (ls : list string) (sequence : Z) (previous : string)
    : Z * string * option string :=
  match ls with
  | [] => (sequence, previous, None)
  | l :: ls' =>
      let line := trim l in
      if decide (line = "") then replay_lines ls' sequence previous
      else match record_from_json line with
           | inl _ =>
               (sequence, previous,
                Some ("audit log has unparsable content after sequence " +:+ pretty sequence))
           | inr record =>
               if decide (ar_sequence record ≠ (sequence + 1) mod 2 ^ 64)%Z then
                 (sequence, previous,
                  Some ("audit log jumps from sequence " +:+ pretty sequence +:+ " to "
                        +:+ pretty (ar_sequence record)))
               else if decide (ar_previous_digest record ≠ previous) then
                 (sequence, previous,
                  Some ("audit log breaks its chain at sequence " +:+ pretty (ar_sequence record)))
               else replay_lines ls' (ar_sequence record) (record_digest line)
           end
  end.

Definition replay : M unit :=
  t ← read_log;
  match t with
  | None => mret ()
  | Some text =>
      a ← get_audit;
      let '(seq, prev, damage) :=
        replay_lines (lines text) (al_sequence a) (al_previous_digest a) in
      let damaged := match damage with Some d => Some d | None => al_damaged a end in
      _ ← put_audit {| al_sequence := seq; al_previous_digest := prev;
                       al_observed_len := al_observed_len a; al_damaged := damaged |};
      _ ← match damaged with
          | Some _ => mret ()
          | None =>
              ok ← head_matches seq prev;
              if ok : bool then mret ()
              else put_audit {| al_sequence := seq; al_previous_digest := prev;
                                al_observed_len := al_observed_len a;
                                al_damaged := Some "audit log does not match its durable head checkpoint" |}
          end;
      len ← current_len;
      a ← get_audit;
      put_audit {| al_sequence := al_sequence a; al_previous_digest := al_previous_digest a;
                   al_observed_len := len; al_damaged := al_damaged a |}
  end.

Definition audit_open : M unit :=
  _ ← put_audit {| al_sequence := 0; al_previous_digest := GENESIS_DIGEST;
                   al_observed_len := 0; al_damaged := None |};
  _ ← audit_lock;
  replay.

(** The loop of [verify_chain_unlocked]: [None] is the early [Ok(false)]. *)
Fixpoint verify_lines (ls : list string) (expected_prev : string) (expected_seq : Z)
    : option (string * Z) :=
  match ls with
  | [] => Some (expected_prev, expected_seq)
  | l :: ls' =>
      let line := trim l in
      if decide (line = "") then verify_lines ls' expected_prev expected_seq
      else match record_from_json line with
           | inl _ => None
           | inr record =>
               if decide (ar_previous_digest record ≠ expected_prev
                          ∨ ar_sequence record ≠ expected_seq) then None
               else verify_lines ls' (record_digest line) (saturating_add expected_seq 1)
           end
  end.

Definition verify_chain_unlocked : M bool :=
  t ← read_log;
  match t with
  | None => mret true
  | Some text =>
      match verify_lines (lines text) GENESIS_DIGEST 1 with
      | None => mret false
      | Some (prev, seq) => head_matches (saturating_sub seq 1) prev
      end
  end.

Definition verify_chain : M bool := _ ← audit_lock; verify_chain_unlocked.

(** Refresh the cached head if anyone else has appended. *)
Definition refresh_if_stale : M unit :=
  len ← current_len;
  a ← get_audit;
  if decide (len ≠ al_observed_len a) then
    _ ← put_audit {| al_sequence := 0; al_previous_digest := GENESIS_DIGEST;
                     al_observed_len := al_observed_len a; al_damaged := None |};
    replay
  else
    ok ← verify_chain_unlocked;
    if ok : bool then mret ()
    else put_audit {| al_sequence := al_sequence a; al_previous_digest := al_previous_digest a;
                      al_observed_len := al_observed_len a;
                      al_damaged := Some "audit log changed without advancing its durable head" |}.

(** The second half of [append]: from opening the file for append to the record
    returned. *)
Definition write_record (a : AuditLog) (record : AuditRecord) (line : string) : M AuditRecord :=
  _ ← io_commit (λ d, set_d_log d (Some (default "" (d_log d))));
  _ ← io_append_log line;
  _ ← io_append_log (String LF "");
  _ ← io;
  let sequence := ar_sequence record in
  let digest := record_digest line in
  _ ← persist_head sequence digest;
  _ ← put_audit {| al_sequence := sequence; al_previous_digest := digest;
                   al_observed_len := al_observed_len a; al_damaged := None |};
  len ← current_len;
  _ ← put_audit {| al_sequence := sequence; al_previous_digest := digest;
                   al_observed_len := len; al_damaged := None |};
  mret record.

Definition append (control_epoch : Z) (event : AuditEvent) : M AuditRecord :=
  _ ← audit_lock;
  _ ← refresh_if_stale;
  a ← get_audit;
  match al_damaged a with
  | Some damage => raise (CorruptState damage)
  | None =>
      sequence ← lift_res (ok_or (Durability "audit sequence exhausted")
                             (checked_add (al_sequence a) 1));
      now ← unix_time_millis;
      let record := {| ar_sequence := sequence; ar_recorded_at_ms := now;
                       ar_control_epoch := control_epoch;
                       ar_previous_digest := al_previous_digest a; ar_event := event |} in
      line ← lift_json Durability (record_to_json record);
      write_record a record line
  end.

Definition has_content : M bool :=
  _ ← io;
  gets (λ w, match d_log (w_disk w) with
             | Some t => bool_decide (0 < String.length t)%nat
             | None => false
             end).

(** The loop of [records]. *)
Fixpoint records_lines (ls : list string) (out : list AuditRecord)
    (expected_prev : string) (expected_seq : Z) : Res (list AuditRecord * string * Z) :=
  match ls with
  | [] => inr (out, expected_prev, expected_seq)
  | l :: ls' =>
      let line := trim l in
      if decide (line = "") then records_lines ls' out expected_prev expected_seq
      else match record_from_json line with
           | inr record =>
               if decide (ar_sequence record = expected_seq
                          ∧ ar_previous_digest record = expected_prev) then
                 match checked_add expected_seq 1 with
                 | None => inl (CorruptState "audit sequence exhausted")
                 | Some seq => records_lines ls' (out ++ [record]) (record_digest line) seq
                 end
               else
                 inl (CorruptState ("audit chain mismatch at sequence "
                        +:+ pretty (ar_sequence record) +:+ " (expected sequence "
                        +:+ pretty expected_seq +:+ ")"))
           | inl error =>
               inl (CorruptState ("audit log is unreadable after sequence "
                      +:+ pretty (default 0%Z (ar_sequence <$> last out)) +:+ ": " +:+ error))
           end
  end.

Definition records : M (list AuditRecord) :=
  _ ← audit_lock;
  t ← read_log;
  match t with
  | None => mret []
  | Some text =>
      '(out, prev, seq) ← lift_res (records_lines (lines text) [] GENESIS_DIGEST 1);
      ok ← head_matches (saturating_sub seq 1) prev;
      if ok : bool then mret out
      else raise (CorruptState "audit log does not match its durable head checkpoint")
  end.

End audit.
