(* ===== verification/AuditFacts.v ===== *)
(** * The audit log refines an append-only chain of records

    [chain] is the specification: records densely numbered from one, each
    carrying the digest of the line before it.  [intact d rs] says that the log
    of disk [d] holds exactly the records [rs] and agrees with its checkpoint.
    The theorems relate every method of [AuditWal] to it. *)

From S2P Require Import Prelude Text Ids State World AuditWal.
From stdpp Require Import pretty.
From Stdlib Require Import Ascii.

Section chain.
  Context {Cdc : Codec} {Env : Environment}.

(** [chain prev n ls rs prev']: after [n] records ending in digest [prev], the
    lines [ls] hold the records [rs], the last of which has digest [prev']. *)
Inductive chain : string → Z → list string → list AuditRecord → string → Prop :=
  | chain_nil prev n : chain prev n [] [] prev
  | chain_blank prev n l ls rs prev' :
      trim l = "" → chain prev n ls rs prev' → chain prev n (l :: ls) rs prev'
  | chain_record prev n l ls r rs prev' :
      trim l ≠ "" → record_from_json (trim l) = inr r →
      ar_sequence r = (n + 1)%Z → ar_previous_digest r = prev →
      chain (record_digest (trim l)) (n + 1) ls rs prev' →
      chain prev n (l :: ls) (r :: rs) prev'.

Definition log_text (d : Disk) : string := default "" (d_log d).
Definition log_lines (d : Disk) : list string := lines (log_text d).
Definition log_len (d : Disk) : Z := Z.of_nat (String.length (log_text d)).

Definition disk_head (d : Disk) : Res (option AuditHead) :=
  match d_head d with
  | None => inr None
  | Some t => match head_from_json t with
              | inl e => inl (CorruptState ("audit head is unreadable: " +:+ e))
              | inr h => inr (Some h)
              end
  end.

Definition intact (d : Disk) (rs : list AuditRecord) : Prop :=
  match d_log d with
  | None => rs = []
  | Some t =>
      utf8_valid t = true ∧ (Z.of_nat (length rs) < U64_MAX)%Z ∧
      ∃ prev h, chain GENESIS_DIGEST 0 (lines t) rs prev ∧ disk_head d = inr h ∧
                head_matches_pure h (Z.of_nat (length rs)) prev = true
  end.

(** Digest of the last record; the genesis digest for an empty log. *)
Definition chain_end (d : Disk) (rs : list AuditRecord) (prev : string) : Prop :=
  chain GENESIS_DIGEST 0 (log_lines d) rs prev.

(** The log is shorter than the longest file whose length a [u64] holds. *)
Definition log_room (d : Disk) : Prop := (log_len d + 3 < U64_MAX)%Z.

(** So its sequence numbers do not reach the end of [u64]. *)
Lemma log_room_lines d :
  log_room d → (Z.of_nat (length (log_lines d)) + 3 < U64_MAX)%Z.
Proof.
  unfold log_room, log_len, log_lines. pose proof (lines_length (log_text d)). lia.
Qed.

(** The text ends at a line boundary. *)
Definition closed (d : Disk) : Prop :=
  ∃ ls, log_text d = unlines ls ∧ Forall line_ok ls.

Lemma chain_app prev n ls rs mid ls' rs' prev' :
  chain prev n ls rs mid → chain mid (n + Z.of_nat (length rs)) ls' rs' prev' →
  chain prev n (ls ++ ls') (rs ++ rs') prev'.
Proof.
  induction 1 as [|prev n l ls rs mid Hb _ IH|prev n l ls r rs mid Hb Hp Hs Hd _ IH];
    intros Hc; simpl in *.
  - by rw Z.add_0_r in Hc.
  - by apply chain_blank; auto.
  - eapply chain_record; [done..|]. apply IH.
    by replace (n + 1 + Z.of_nat (length rs))%Z with (n + Z.of_nat (S (length rs)))%Z by lia.
Qed.

Lemma chain_det prev n ls rs p rs' p' :
  chain prev n ls rs p → chain prev n ls rs' p' → rs = rs' ∧ p = p'.
Proof.
  intros Hc. revert rs' p'.
  induction Hc as [|? ? ? ? ? ? ? ? IH|? ? ? ? ? ? ? ? ? ? ? ? IH];
    intros rs2 p2 Hc2; inversion Hc2; simplify_eq; auto.
  edestruct IH as [? ?]; [eassumption|]. naive_solver congruence.
Qed.

Lemma chain_length prev n ls rs p : chain prev n ls rs p → (length rs ≤ length ls)%nat.
Proof. induction 1; simpl; lia. Qed.

(** The prefix property: a chain over more lines extends the shorter one. *)
Lemma chain_split prev n ls ls' rs p :
  chain prev n (ls ++ ls') rs p →
  ∃ rs1 rs2 mid, rs = rs1 ++ rs2 ∧ chain prev n ls rs1 mid ∧
                 chain mid (n + Z.of_nat (length rs1)) ls' rs2 p.
Proof.
  revert prev n rs. induction ls as [|l ls IH]; intros prev n rs Hc; simpl in Hc.
  - exists [], rs, prev. rw /= Z.add_0_r. repeat split; [constructor|done].
  - inversion Hc; subst;
      match goal with Hc' : chain _ _ (ls ++ ls') _ _ |- _ =>
        destruct (IH _ _ _ Hc') as (rs1 & rs2 & mid & -> & ? & ?) end.
    + exists rs1, rs2, mid. split; [done|]. split; [by constructor|done].
    + exists (r :: rs1), rs2, mid. split; [done|]. split; [by econstructor|].
      by replace (n + Z.of_nat (length (r :: rs1)))%Z with (n + 1 + Z.of_nat (length rs1))%Z
        by (simpl; lia).
Qed.

(** *** The three scanning loops compute [chain] *)

Lemma verify_lines_chain ls prev n p :
  (0 ≤ n)%Z → (n + Z.of_nat (length ls) + 1 < U64_MAX)%Z →
  (∃ rs, chain prev n ls rs p) ↔ ∃ q, verify_lines ls prev (n + 1) = Some (p, q).
Proof.
  revert prev n. induction ls as [|l ls IH]; intros prev n Hn Hb; simpl.
  - split; [intros [rs Hc]; inversion Hc; eauto|]. intros [q [= ->]]. exists []. constructor.
  - simpl in Hb. case_decide as Ht.
    { rw -IH; [|lia..]. split; intros [rs Hc]; exists rs; [by inversion Hc|by constructor]. }
    split.
    + intros [rs Hc]. inversion Hc; subst; [done|].
      match goal with Hp : record_from_json _ = _ |- _ => rw Hp end.
      rw decide_False; [|naive_solver].
      unfold saturating_add. rw Z.min_l; [|lia]. apply IH; [lia..|]. eauto.
    + intros [q Hq]. destruct (record_from_json (trim l)) as [|r] eqn:Hp; [done|].
      case_decide as Hcond; [done|]. unfold saturating_add in Hq. rw Z.min_l in Hq; [|lia].
      destruct (proj2 (IH (record_digest (trim l)) (n + 1)%Z ltac:(lia) ltac:(lia)))
        as [rs Hc]; [eauto|].
      exists (r :: rs).
      econstructor; [done|done| | |done]; apply dec_stable; naive_solver.
Qed.

Lemma verify_lines_seq ls prev n p q rs :
  (0 ≤ n)%Z → (n + Z.of_nat (length ls) + 1 < U64_MAX)%Z →
  chain prev n ls rs p → verify_lines ls prev (n + 1) = Some (p, q) →
  q = (n + Z.of_nat (length rs) + 1)%Z.
Proof.
  intros Hn Hb Hc. revert q Hn Hb. induction Hc as [|prev n l ls rs p Ht _ IH
    |prev n l ls r rs p Ht Hp Hs Hd _ IH]; intros q Hn Hb; simpl in *.
  - intros [= <-]. lia.
  - rw decide_True //. apply IH; lia.
  - rw decide_False // Hp. case_decide as Hcond; [done|].
    unfold saturating_add. rw Z.min_l; [|lia]. intros Hq.
    apply IH in Hq; lia.
Qed.

Lemma replay_lines_chain ls prev n s p :
  (0 ≤ n)%Z → (n + Z.of_nat (length ls) + 1 < U64_MAX)%Z →
  replay_lines ls n prev = (s, p, None) →
  ∃ rs, chain prev n ls rs p ∧ s = (n + Z.of_nat (length rs))%Z.
Proof.
  revert prev n. induction ls as [|l ls IH]; intros prev n Hn Hb; simpl.
  - intros [= <- <-]. exists []. split; [constructor|simpl; lia].
  - simpl in Hb. case_decide as Ht.
    { intros Hr. apply IH in Hr as (rs & ? & ?); [|lia..]. exists rs. by split; [constructor|]. }
    destruct (record_from_json (trim l)) as [|r] eqn:Hp; [done|].
    rw Z.mod_small; [|unfold U64_MAX in *; lia].
    case_decide as Hs; [done|].
    case_decide as Hd; [done|].
    rw Hs. intros Hr. apply IH in Hr as (rs & Hc & ->); [|lia..].
    exists (r :: rs). split; [by econstructor|simpl; lia].
Qed.

Lemma chain_replay_lines ls prev n rs p :
  (0 ≤ n)%Z → (n + Z.of_nat (length ls) + 1 < U64_MAX)%Z →
  chain prev n ls rs p → replay_lines ls n prev = (n + Z.of_nat (length rs), p, None)%Z.
Proof.
  intros Hn Hb Hc. revert Hn Hb. induction Hc as [|prev n l ls rs p Ht _ IH
    |prev n l ls r rs p Ht Hp Hs Hd _ IH]; intros Hn Hb; simpl in *.
  - f_equal. f_equal. lia.
  - rw decide_True //. apply IH; lia.
  - rw decide_False // Hp Z.mod_small; [|unfold U64_MAX in *; lia].
    rw decide_False; [|naive_solver]. rw decide_False; [|naive_solver].
    rw Hs IH; [|lia..]. f_equal. f_equal. lia.
Qed.

Lemma records_lines_chain ls out prev n out' p q :
  (0 ≤ n)%Z → records_lines ls out prev (n + 1) = inr (out', p, q) →
  ∃ rs, chain prev n ls rs p ∧ out' = out ++ rs ∧ q = (n + Z.of_nat (length rs) + 1)%Z.
Proof.
  revert out prev n. induction ls as [|l ls IH]; intros out prev n Hn; simpl.
  - intros [= <- <- <-]. exists []. rw app_nil_r. split; [constructor|simpl; split; [done|lia]].
  - case_decide as Ht.
    { intros Hr. apply IH in Hr as (rs & ? & ? & ?); [|done]. exists rs. by split; [constructor|]. }
    destruct (record_from_json (trim l)) as [|r] eqn:Hp; [done|].
    case_decide as Hcond; [|done]. destruct Hcond as [Hs Hd].
    destruct (checked_add (n + 1) 1) as [seq|] eqn:Ea; [|done].
    apply checked_add_Some in Ea as [-> _]. intros Hr.
    apply IH in Hr as (rs & Hc & -> & ->); [|lia]. exists (r :: rs).
    rw -app_assoc. split; [by econstructor|]. split; [done|]. simpl. lia.
Qed.

Lemma chain_records_lines ls out prev n rs p :
  (0 ≤ n)%Z → (n + Z.of_nat (length rs) + 1 ≤ U64_MAX)%Z →
  chain prev n ls rs p →
  records_lines ls out prev (n + 1) = inr (out ++ rs, p, (n + Z.of_nat (length rs) + 1)%Z).
Proof.
  intros Hn Hb Hc. revert out Hn Hb. induction Hc as [|prev n l ls rs p Ht _ IH
    |prev n l ls r rs p Ht Hp Hs Hd _ IH]; intros out Hn Hb; simpl in *.
  - rw app_nil_r. by rw Z.add_0_r.
  - rw decide_True //. apply IH; lia.
  - rw decide_False // Hp decide_True //.
    rw (proj2 (checked_add_Some (n + 1) 1 (n + 1 + 1)%Z)); [|lia].
    rw IH; [|lia..]. rw -app_assoc /=. by do 3 f_equal; lia.
Qed.

(** *** Read-only methods *)

Lemma RO_audit_lock : RO audit_lock (λ _ _, True).
Proof. ro_seq RO_io. intros ?. by ro_end RO_io. Qed.

Lemma RO_current_len : RO current_len (λ w z, z = log_len (w_disk w)).
Proof.
  ro_seq RO_io. intros ?. ro_end RO_gets. intros w z -> _.
  unfold log_len, log_text. by destruct (d_log _).
Qed.

Lemma RO_read_head : RO read_head (λ w h, disk_head (w_disk w) = inr h).
Proof.
  ro_seq RO_io. intros ?. ro_seq RO_gets. intros [t|].
  - ro_seq RO_lift_json. intros h. ro_end RO_ret.
    intros w v -> Hh Hd _. unfold disk_head. by rw -Hd Hh.
  - ro_end RO_ret. intros w v -> Hd _. unfold disk_head. by rw -Hd.
Qed.

Lemma RO_head_matches s p :
  RO (head_matches s p)
    (λ w b, ∃ h, disk_head (w_disk w) = inr h ∧ b = head_matches_pure h s p).
Proof. ro_seq RO_read_head. intros h. ro_end RO_ret. naive_solver. Qed.

Lemma RO_read_log :
  RO read_log (λ w t, d_log (w_disk w) = t ∧
                      match t with Some t => utf8_valid t = true | None => True end).
Proof.
  ro_seq RO_io. intros ?. ro_seq RO_gets. intros [t|].
  - destruct (utf8_valid t) eqn:Hu; [ro_end RO_ret|ro_end RO_raise]; naive_solver.
  - ro_end RO_ret. naive_solver.
Qed.

(** What [verify_chain] answers, as a property of the disk. *)
Definition verified (d : Disk) (b : bool) : Prop :=
  match d_log d with
  | None => b = true
  | Some t =>
      utf8_valid t = true ∧
      match verify_lines (lines t) GENESIS_DIGEST 1 with
      | None => b = false
      | Some (prev, seq) =>
          ∃ h, disk_head d = inr h ∧ b = head_matches_pure h (saturating_sub seq 1) prev
      end
  end.

Lemma RO_verify_chain_unlocked :
  RO verify_chain_unlocked (λ w b, verified (w_disk w) b).
Proof.
  ro_seq RO_read_log. intros [t|].
  - destruct (verify_lines (lines t) GENESIS_DIGEST 1) as [[prev seq]|] eqn:Hv.
    + ro_end RO_head_matches. intros w b Hb [Hd Hu]. unfold verified. by rw Hd Hv.
    + ro_end RO_ret. intros w b -> [Hd Hu]. unfold verified. by rw Hd Hv.
  - ro_end RO_ret. intros w b -> [Hd _]. unfold verified. by rw Hd.
Qed.

Lemma RO_verify_chain : RO verify_chain (λ w b, verified (w_disk w) b).
Proof. ro_seq RO_audit_lock. intros ?. ro_end RO_verify_chain_unlocked. naive_solver. Qed.

(** The verifier accepts exactly the intact logs. *)
Lemma verified_intact d b :
  log_room d → verified d b → b = true ↔ ∃ rs, intact d rs.
Proof.
  intros Hroom%log_room_lines. revert Hroom. unfold log_lines, log_text, verified, intact.
  destruct (d_log d) as [t|]; simpl; [|naive_solver].
  intros Hroom [Hu Hv].
  pose proof (verify_lines_chain (lines t) GENESIS_DIGEST 0) as Hiff.
  change (0 + 1)%Z with 1%Z in Hiff.
  split.
  - intros ->. destruct (verify_lines _ _ _) as [[prev seq]|] eqn:E; [|done].
    destruct Hv as (h & Hh & Hm).
    destruct (proj2 (Hiff prev ltac:(lia) ltac:(lia))) as [rs Hc]; [eauto|].
    pose proof (verify_lines_seq (lines t) _ 0 _ _ _ ltac:(lia) ltac:(lia) Hc E) as ->.
    pose proof (chain_length _ _ _ _ _ Hc).
    exists rs. split; [done|]. split; [lia|]. exists prev, h. split; [done|]. split; [done|].
    rw Hm. f_equal. unfold saturating_sub. lia.
  - intros (rs & _ & Hlen & prev & h & Hc & Hh & Hm).
    destruct (proj1 (Hiff prev ltac:(lia) ltac:(lia))) as [q E]; [eauto|].
    rw E in Hv. destruct Hv as (h' & Hh' & ->). assert (h' = h) as -> by congruence.
    pose proof (verify_lines_seq (lines t) _ 0 _ _ _ ltac:(lia) ltac:(lia) Hc E) as ->.
    rw -Hm. f_equal. unfold saturating_sub. lia.
Qed.

Lemma RO_records :
  RO records (λ w rs, (Z.of_nat (length rs) < U64_MAX)%Z ∨ log_room (w_disk w) →
                      intact (w_disk w) rs).
Proof.
  ro_seq RO_audit_lock. intros ?. ro_seq RO_read_log. intros [t|].
  - ro_seq RO_lift_res. intros [[out prev] seq]. ro_seq RO_head_matches.
    intros [|]; [|by ro_end RO_raise]. ro_end RO_ret.
    intros w rs -> (h & Hh & Hm) Hr [Hd Hu] _ Hlen0.
    apply (records_lines_chain _ _ _ 0) in Hr as (rs & Hc & -> & ->); [|lia]. simpl in Hlen0.
    assert (Z.of_nat (length rs) < U64_MAX)%Z as Hlen.
    { destruct Hlen0 as [|Hroom%log_room_lines]; [done|]. pose proof (chain_length _ _ _ _ _ Hc).
      unfold log_lines, log_text in Hroom. rw Hd /= in Hroom. lia. }
    unfold intact. rw Hd. split; [done|]. split; [done|]. exists prev, h.
    split; [done|]. split; [done|]. rw Hm. f_equal. unfold saturating_sub. simpl. lia.
  - ro_end RO_ret. intros w rs -> [Hd _] _ _. unfold intact. by rw Hd.
Qed.

Lemma intact_det d rs rs' : intact d rs → intact d rs' → rs = rs'.
Proof.
  unfold intact. destruct (d_log d) as [t|]; [|naive_solver].
  intros (_ & _ & p & h & Hc & _) (_ & _ & p' & h' & Hc' & _).
  by destruct (chain_det _ _ _ _ _ _ _ Hc Hc').
Qed.

(** *** The cached head *)

Definition log_inv (d : Disk) : Prop :=
  (d_log d = None → d_head d = None) ∧ ∀ rs, intact d rs → closed d.

(** An undamaged cache taken at the current length is the head of the log. *)
Definition cache_ok (w : World) : Prop :=
  (d_log (w_disk w) = None → al_observed_len (w_audit w) = 0%Z) ∧
  (al_damaged (w_audit w) = None → al_observed_len (w_audit w) = log_len (w_disk w) →
   ∀ rs, intact (w_disk w) rs →
     al_sequence (w_audit w) = Z.of_nat (length rs) ∧
     chain_end (w_disk w) rs (al_previous_digest (w_audit w))).

Definition audit_inv (w : World) : Prop := log_inv (w_disk w) ∧ cache_ok w.

(** The cache holds the head of an intact log. *)
Definition at_head (w : World) (rs : list AuditRecord) : Prop :=
  intact (w_disk w) rs ∧ al_sequence (w_audit w) = Z.of_nat (length rs) ∧
  chain_end (w_disk w) rs (al_previous_digest (w_audit w)) ∧
  al_observed_len (w_audit w) = log_len (w_disk w).

(** Everything but the cached head and the tick is unchanged. *)
Definition audit_only (w w' : World) : Prop :=
  ∃ n a, w' = set_audit (set_tick w n) a.

Lemma at_head_cache_ok w rs : at_head w rs → cache_ok w.
Proof.
  intros (Hi & Hs & Hc & Hl). split.
  - intros Hn. rw Hl. unfold log_len, log_text. by rw Hn.
  - intros _ _ rs' Hi'. by rw -(intact_det _ _ _ Hi Hi').
Qed.

Lemma intact_empty d rs : log_text d = "" → intact d rs → rs = [] ∧ chain_end d [] GENESIS_DIGEST.
Proof.
  unfold log_text, intact, chain_end, log_lines, log_text. destruct (d_log d) as [t|]; simpl.
  - intros -> (_ & _ & p & h & Hc & _). inversion Hc. split; [done|constructor].
  - intros _ ->. split; [done|constructor].
Qed.

Lemma audit_only_tick w n : audit_only w (set_tick w n).
Proof. exists n, (w_audit w). by destruct w. Qed.

Local Ltac solve_ao :=
  first [apply audit_only_tick | do 2 eexists; reflexivity
        | rw set_tick_tick; apply audit_only_tick].


(** The last three lines of [replay]: record the observed length. *)
Lemma wp_replay_len w (Q : outcome unit → World → Prop) :
  let a := w_audit w in
  (∀ n, Q (Done ()) (set_audit (set_tick w n)
     {| al_sequence := al_sequence a; al_previous_digest := al_previous_digest a;
        al_observed_len := log_len (w_disk w); al_damaged := al_damaged a |})) →
  (∀ n e, Q (Raised e) (set_tick w n)) → (∀ n, Q Crashed (set_tick w n)) →
  wp (len ← current_len; a ← get_audit;
      put_audit {| al_sequence := al_sequence a; al_previous_digest := al_previous_digest a;
                   al_observed_len := len; al_damaged := al_damaged a |}) Q w.
Proof.
  intros a Hd Hr Hc. ro_step RO_current_len; [|done|done]. intros n len ->.
  apply wp_bind_gets. apply Hd.
Qed.

(** [replay] from the genesis cache: an undamaged result is the head of an
    intact log, and the cache invariant holds however the call ends. *)
Lemma wp_replay w :
  log_room (w_disk w) →
  al_sequence (w_audit w) = 0%Z → al_previous_digest (w_audit w) = GENESIS_DIGEST →
  al_damaged (w_audit w) = None →
  al_observed_len (w_audit w) ≠ log_len (w_disk w) ∨ log_text (w_disk w) = "" →
  (d_log (w_disk w) = None → al_observed_len (w_audit w) = 0%Z) →
  wp replay (λ o w', audit_only w w' ∧ cache_ok w' ∧
    (o = Done () → al_damaged (w_audit w') = None → ∃ rs, at_head w' rs)) w.
Proof.
  intros Hroom Hs Hp Hd Hlen Hnone.
  assert (∀ n, cache_ok (set_tick w n)) as Hc0.
  { intros n. split; [done|]. intros _ Hl rs Hi. simpl in *. destruct Hlen as [|Ht]; [done|].
    destruct (intact_empty _ _ Ht Hi) as [-> ?]. rw Hs Hp. done. }
  unfold replay. ro_step RO_read_log; [|split; [solve_ao|by split]..].
  intros n [t|] [Ht Hu]; simpl.
  2: { apply wp_ret. split; [apply audit_only_tick|]. split; [done|].
       intros _ _. exists []. unfold at_head, intact, chain_end, log_len, log_lines, log_text.
       simpl. rw Ht /= Hs Hp (Hnone Ht). repeat split. constructor. }
  apply wp_bind_gets. cbn [w_audit set_tick]. rw Hs Hp Hd.
  destruct (replay_lines (lines t) 0 GENESIS_DIGEST) as [[seq prev] damage] eqn:Er.
  apply wp_bind_modify.
  destruct damage as [dmg|].
  { apply wp_bind_ret, wp_replay_len; simpl; intros;
      (split; [solve_ao|split; [split; simpl; [by rw Ht|done]|done]]). }
  apply log_room_lines in Hroom. unfold log_lines, log_text in Hroom. rw Ht /= in Hroom.
  apply replay_lines_chain in Er as (rs & Hch & Hseq); [|lia..].
  set (a1 := {| al_sequence := seq; al_previous_digest := prev;
               al_observed_len := al_observed_len (w_audit w); al_damaged := None |}).
  assert (∀ n n', cache_ok (set_tick (set_audit (set_tick w n) a1) n')) as Hc1.
  { intros n' n''. split; [done|]. intros _ Hl rs' Hi. simpl in *.
    destruct Hlen as [|Ht']; [done|].
    destruct (intact_empty _ _ Ht' Hi) as [-> ?]. unfold log_text in Ht'. rw Ht /= in Ht'.
    subst t. inversion Hch; subst. done. }
  apply wp_bind. ro_step RO_head_matches; [|split; [solve_ao|by split]..].
  intros n1 ok (h & Hh & Hok). simpl in Hh.
  destruct ok.
  - apply wp_ret, wp_replay_len; intros; (split; [solve_ao|]); [|split; [apply Hc1|done]..].
    match goal with |- cache_ok ?w' ∧ _ => assert (at_head w' rs) as Hat end.
    { pose proof (chain_length _ _ _ _ _ Hch).
      unfold at_head, intact, chain_end, log_lines, log_len, log_text.
      simpl. rw Ht /=. split; [|split; [lia|done]].
      split; [done|]. split; [lia|]. exists prev, h. rw Hok Hseq. repeat split; done. }
    split; [by eapply at_head_cache_ok|]. eauto.
  - apply wp_replay_len; intros; (split; [solve_ao|]); (split; [|done]);
      (split; simpl; [by rw Ht|done]).
Qed.

Lemma wp_refresh_if_stale w :
  log_room (w_disk w) → cache_ok w →
  wp refresh_if_stale (λ o w', audit_only w w' ∧ cache_ok w' ∧
    (o = Done () → al_damaged (w_audit w') = None → ∃ rs, at_head w' rs)) w.
Proof.
  intros Hroom Hc. unfold refresh_if_stale.
  ro_step RO_current_len; [|split; [solve_ao|by split]..].
  intros n len ->. apply wp_bind_gets. simpl. case_decide as Hlen.
  - apply wp_bind_modify. eapply wp_mono.
    + apply wp_replay; simpl; try done; [by left|].
      intros Hn. by apply Hc.
    + intros o w' (Hao & ? & ?). split; [|done].
      destruct Hao as (n' & a' & ->). solve_ao.
  - ro_step RO_verify_chain_unlocked; [|split; [solve_ao|split; [exact Hc|done]]..].
    intros n' b Hv. destruct b.
    + apply wp_ret. split; [solve_ao|]. split; [done|]. intros _ Hd. simpl in *.
      destruct (proj1 (verified_intact _ _ Hroom Hv) eq_refl) as [rs Hi].
      destruct Hc as [_ Hc]. destruct (Hc Hd) with rs as [? ?]; [done..|].
      exists rs. by repeat split.
    + unfold put_audit. split; [solve_ao|]. split; [|done].
      split; [|done]. simpl. apply Hc.
Qed.

(** *** Appending *)

Lemma string_take_rest k a b : string_take k a +:+ (string_drop k a +:+ b) = a +:+ b.
Proof. by rw -string_app_assoc string_take_drop. Qed.


Lemma string_take_second k a b : (a +:+ string_take k b) +:+ string_drop k b = a +:+ b.
Proof. by rw string_app_assoc string_take_drop. Qed.

(** Same log, up to the creation of an empty file. *)
Definition log_same (d d' : Disk) : Prop :=
  log_text d' = log_text d ∧ d_head d' = d_head d ∧ (d_log d' = None → d_log d = None).

Definition broken (d : Disk) : Prop := ∀ rs, ¬ intact d rs.

Lemma log_same_refl d : log_same d d.
Proof. done. Qed.

Lemma log_same_intact d d' rs : log_inv d → log_same d d' → intact d rs ↔ intact d' rs.
Proof.
  intros [Hn _] (Ht & Hh & Hd). unfold intact, log_text, disk_head in *. rw Hh.
  destruct (d_log d) as [t|], (d_log d') as [t'|]; simpl in *; [by subst|naive_solver| |naive_solver].
  subst t'. rw Hn //. split.
  - intros ->. split; [done|]. split; [done|]. exists GENESIS_DIGEST, None.
    split; [constructor|]. by rw /head_matches_pure !bool_decide_eq_true_2.
  - intros (_ & _ & p & h & Hc & _). by inversion Hc.
Qed.

Lemma log_same_inv d d' : log_inv d → log_same d d' → log_inv d'.
Proof.
  intros Hi Hs. split.
  - destruct Hs as (_ & -> & Hd). intros Hn. apply Hi, Hd, Hn.
  - intros rs Hrs. eapply log_same_intact in Hrs; [|done..]. apply Hi in Hrs as (ls & Ht & ?).
    exists ls. destruct Hs as (-> & _). done.
Qed.

(** A record line beyond the checkpoint is never accepted. *)
Lemma extended_broken d d' rs l :
  log_inv d → intact d rs → log_lines d' = log_lines d ++ [l] → trim l ≠ "" →
  d_head d' = d_head d → is_Some (d_log d') → broken d'.
Proof.
  intros [Hn _] Hi Hl Ht Hh [t' Hd'] rs' Hi'. unfold intact in Hi'.
  unfold log_lines, log_text in Hl. rw Hd' in Hi', Hl. simpl in Hl. rw Hl in Hi'.
  destruct Hi' as (_ & _ & p' & h' & Hc' & Hh' & Hm').
  apply chain_split in Hc' as (rs1 & rs2 & mid & -> & Hc1 & Hc2).
  assert (∃ r, rs2 = [r]) as [r ->].
  { inversion Hc2; subst; [done|].
    match goal with Hc : chain _ _ [] _ _ |- _ => inversion Hc end. eauto. }
  unfold disk_head in Hh'. rw Hh in Hh'. rw -/(disk_head d) in Hh'. unfold intact in Hi.
  rw length_app /= in Hm'.
  destruct (d_log d) as [t|] eqn:Hd; simpl in *.
  - destruct Hi as (_ & _ & p & h & Hc & Hh1 & Hm).
    destruct (chain_det _ _ _ _ _ _ _ Hc Hc1) as [<- _].
    rw Hh1 in Hh'. injection Hh' as <-.
    destruct h; simpl in *; apply andb_prop in Hm as [Hm _], Hm' as [Hm' _];
      apply bool_decide_eq_true in Hm, Hm'; lia.
  - unfold disk_head in Hh'. rw Hn // in Hh'. simplify_eq. simpl in Hm'. apply andb_prop in Hm' as [Hm' _].
    apply bool_decide_eq_true in Hm'. lia.
Qed.

(** What a record prints as. *)
Definition record_line (r : AuditRecord) (l : string) : Prop :=
  record_to_json r = inr l.

Context {CL : CodecLaws}.

Lemma record_line_ok r l :
  record_line r l →
  line_ok l ∧ trim l = l ∧ l ≠ "" ∧ utf8_valid l = true ∧ record_from_json l = inr r.
Proof.
  intros H. destruct (record_json_object _ _ H) as ([body ->] & Hlf & Hu).
  split; [split; [done|]|].
  { by rw -string_app_cons strip_cr_last. }
  split; [apply trim_braced|]. split; [done|]. split; [done|].
  by apply record_json_roundtrip.
Qed.

(** The disk while the line of a record is being written. *)
Definition writing (d : Disk) (line : string) (d' : Disk) : Prop :=
  d_state d' = d_state d ∧ d_head d' = d_head d ∧
  ∃ frag rest, d_log d' = Some (log_text d +:+ frag) ∧ frag +:+ rest = line +:+ String LF "".

Lemma writing_lines d r l frag rest :
  closed d → record_line r l → frag +:+ rest = l +:+ String LF "" → frag ≠ "" →
  ∃ l', lines (log_text d +:+ frag) = log_lines d ++ [l'] ∧ trim l' ≠ "".
Proof.
  intros (ls & Ht & Hls) Hr Hf Hne. unfold log_lines. rw Ht lines_unlines //.
  destruct (record_line_ok _ _ Hr) as (Hok & Htr & Hl & _).
  destruct (record_json_object _ _ Hr) as ([body Hb] & _).
  destruct (decide (rest = "")) as [->|Hrest].
  - rw string_app_nil_r in Hf. subst frag. rw -unlines_snoc lines_unlines;
      [|by apply Forall_app; split; [|constructor]]. exists l. by rw Htr.
  - destruct frag as [|c frag]; [done|].
    assert (no_lf (String c frag) = true) as Hlf.
    { destruct Hok as [Hlf _]. clear -Hf Hlf Hrest. revert l Hf Hlf.
      generalize (String c frag) as s. intros s. induction s as [|x s IH]; intros l Hf Hlf; [done|].
      destruct l as [|y l]; simpl in Hf; injection Hf as -> Hf.
      { destruct s, rest; simpl in Hf; done. }
      unfold no_lf in *. simpl in *. apply andb_prop in Hlf as [-> Hlf]. simpl. by eapply IH. }
    rw lines_unlines_frag //. eexists; split; [done|].
    rw Hb in Hf. simpl in Hf. injection Hf as -> _.
    destruct (strip_cr_head "{"%char frag) as [s' ->]; [done|]. apply trim_brace_nonempty.
Qed.

Lemma writing_cases d rs r l d' :
  log_inv d → intact d rs → record_line r l → writing d l d' → log_same d d' ∨ broken d'.
Proof.
  intros Hinv Hi Hr (_ & Hh & frag & rest & Hd' & Hf).
  destruct (decide (frag = "")) as [->|Hne].
  - left. unfold log_same, log_text. rw Hd' Hh string_app_nil_r. done.
  - right. destruct (writing_lines d r l frag rest) as (l' & Hl' & Ht'); try done.
    { by eapply Hinv. }
    eapply extended_broken; [done|done| |done..|eauto].
    unfold log_lines, log_text. by rw Hd'.
Qed.

(** The commit point of [append]: log and checkpoint both extended. *)
Lemma committed d rs p r l ht d' :
  log_inv d → log_room d → intact d rs → chain_end d rs p → record_line r l →
  ar_sequence r = (Z.of_nat (length rs) + 1)%Z → ar_previous_digest r = p →
  head_to_json {| ah_sequence := ar_sequence r; ah_digest := record_digest l |} = inr ht →
  d_log d' = Some (log_text d +:+ (l +:+ String LF "")) → d_head d' = Some ht →
  intact d' (rs ++ [r]) ∧ closed d' ∧ chain_end d' (rs ++ [r]) (record_digest l) ∧
  (log_len d < log_len d')%Z.
Proof.
  intros Hinv Hroom Hi Hc Hr Hs Hp Hht Hd' Hh'.
  destruct (proj2 Hinv _ Hi) as (ls & Ht & Hls).
  destruct (record_line_ok _ _ Hr) as (Hok & Htr & Hne & Hu & Hparse).
  assert (Forall line_ok (ls ++ [l])) as Hls' by (by apply Forall_app; split; [|constructor]).
  assert (log_text d' = unlines (ls ++ [l])) as Ht'.
  { unfold log_text. by rw Hd' /= Ht unlines_snoc. }
  assert (log_lines d' = log_lines d ++ [l]) as Hll.
  { unfold log_lines. by rw Ht' Ht !lines_unlines. }
  assert (chain_end d' (rs ++ [r]) (record_digest l)) as Hc'.
  { unfold chain_end. rw Hll. eapply chain_app; [exact Hc|].
    rw -{2}Htr. apply chain_record; rw ?Htr //. constructor. }
  assert (utf8_valid (log_text d) = true) as Hud.
  { unfold intact in Hi. unfold log_text. destruct (d_log d); [apply Hi|done]. }
  split_and!.
  - pose proof (chain_length _ _ _ _ _ Hc). apply log_room_lines in Hroom.
    unfold intact. rw Hd'. split; [|split].
    + apply utf8_valid_app; [done|]. by apply utf8_valid_app.
    + rw length_app /=. lia.
    + unfold chain_end, log_lines, log_text in Hc'. rw Hd' in Hc'.
      exists (record_digest l), (Some {| ah_sequence := ar_sequence r; ah_digest := record_digest l |}).
      split; [done|]. unfold disk_head. rw Hh' (head_json_roundtrip _ _ Hht). split; [done|].
      simpl. rw length_app /= Hs !bool_decide_eq_true_2 //. lia.
  - by exists (ls ++ [l]).
  - done.
  - unfold log_len. rw Ht' Ht unlines_snoc !string_length_app /=. lia.
Qed.

Definition flags_same (w w' : World) : Prop :=
  w_admin_held w' = w_admin_held w ∧ w_lifecycle_poisoned w' = w_lifecycle_poisoned w ∧
  w_audit_poisoned w' = w_audit_poisoned w.

(** The log gained one record. *)
Definition appended (epoch : Z) (event : AuditEvent) (d d' : Disk) : Prop :=
  ∃ rs r, intact d rs ∧ intact d' (rs ++ [r]) ∧ ar_event r = event ∧ ar_control_epoch r = epoch.

(** The three ways a call of [append] that does not return leaves the log. *)
Definition append_failed (epoch : Z) (event : AuditEvent) (d d' : Disk) : Prop :=
  log_same d d' ∨ appended epoch event d d' ∨ (∃ rs, intact d rs) ∧ broken d'.

Definition append_post (w : World) (epoch : Z) (event : AuditEvent)
    (o : outcome AuditRecord) (w' : World) : Prop :=
  d_state (w_disk w') = d_state (w_disk w) ∧ flags_same w w' ∧ audit_inv w' ∧
  match o with
  | Done r => ∃ rs, intact (w_disk w) rs ∧ at_head w' (rs ++ [r]) ∧
                    ar_event r = event ∧ ar_control_epoch r = epoch
  | _ => append_failed epoch event (w_disk w) (w_disk w')
  end.

Section write_record.
  Context (w : World) (rs : list AuditRecord) (r : AuditRecord) (line : string).
  Context (Hinv : log_inv (w_disk w)) (Hroom : log_room (w_disk w)) (Hat : at_head w rs).
  Context (Hline : record_line r line).
  Context (Hseq : ar_sequence r = (Z.of_nat (length rs) + 1)%Z).
  Context (Hprev : ar_previous_digest r = al_previous_digest (w_audit w)).

Let post := append_post w (ar_control_epoch r) (ar_event r).

Lemma writing_post o w' :
  (∀ a, o ≠ Done a) → flags_same w w' → w_audit w' = w_audit w →
  log_same (w_disk w) (w_disk w') ∧ d_state (w_disk w') = d_state (w_disk w) ∨
  writing (w_disk w) line (w_disk w') →
  post o w'.
Proof.
  intros Ho Hf Ha Hw. destruct Hat as (Hi & Hs & Hc & Hl).
  assert (d_state (w_disk w') = d_state (w_disk w)) as Hst by (destruct Hw as [[_ ?]|[? _]]; done).
  assert (log_same (w_disk w) (w_disk w') ∨ broken (w_disk w')) as Hcases.
  { destruct Hw as [[? _]|Hw]; [by left|]. by eapply writing_cases. }
  assert (audit_inv w') as Hinv'.
  { destruct Hcases as [Hsame|Hb].
    - split; [by eapply log_same_inv|]. split; rw Ha.
      + intros Hn. rw Hl. destruct Hsame as (_ & _ & Hn'). unfold log_len, log_text. by rw Hn'.
      + intros _ _ rs' Hi'. eapply log_same_intact in Hi'; [|done..].
        rw -(intact_det _ _ _ Hi Hi'). split; [done|].
        unfold chain_end, log_lines. by destruct Hsame as (-> & _).
    - split; [split; [|by intros ? ?%Hb]|split; [|by intros _ _ ? ?%Hb]];
        intros Hn; destruct (Hb []); unfold intact; by rw Hn. }
  split; [done|]. split; [done|]. split; [done|].
  assert (append_failed (ar_control_epoch r) (ar_event r) (w_disk w) (w_disk w')).
  { destruct Hcases as [?|?]; [by left|right; right; eauto]. }
  destruct o; [by edestruct Ho|done..].
Qed.

Lemma committed_post ht o w' :
  head_to_json {| ah_sequence := ar_sequence r; ah_digest := record_digest line |} = inr ht →
  flags_same w w' → d_state (w_disk w') = d_state (w_disk w) →
  d_log (w_disk w') = Some (log_text (w_disk w) +:+ (line +:+ String LF "")) →
  d_head (w_disk w') = Some ht →
  (al_observed_len (w_audit w') = al_observed_len (w_audit w) ∧ (∀ a, o ≠ Done a) ∨
   o = Done r ∧ al_observed_len (w_audit w') = log_len (w_disk w') ∧
   al_sequence (w_audit w') = ar_sequence r ∧
   al_previous_digest (w_audit w') = record_digest line) →
  post o w'.
Proof.
  intros Hht Hf Hst Hlog Hhead Ho. destruct Hat as (Hi & Hs & Hc & Hl).
  destruct (committed _ _ _ _ _ _ _ Hinv Hroom Hi Hc Hline Hseq Hprev Hht Hlog Hhead)
    as (Hi' & Hcl' & Hc' & Hlen).
  assert (log_inv (w_disk w')) as Hinv' by (split; [by rw Hlog|done]).
  assert (∀ a, o = Done a → a = r ∧ at_head w' (rs ++ [r])) as Hdone.
  { intros a ->. destruct Ho as [[_ Ho]|([= ->] & ? & Hs' & Hp')]; [by destruct (Ho a)|].
    split; [done|]. unfold at_head. rw Hs' Hp' Hseq length_app /=. split_and!; [done|lia|done..]. }
  split; [done|]. split; [done|]. split; [split; [done|]|].
  - destruct o as [a| |]; [by eapply at_head_cache_ok, Hdone|..];
      destruct Ho as [[Ho _]|[? _]]; try done; split; [by rw Hlog|rw Ho; lia|by rw Hlog|rw Ho; lia].
  - assert (append_failed (ar_control_epoch r) (ar_event r) (w_disk w) (w_disk w')).
    { right; left. exists rs, r. done. }
    destruct o as [a| |]; [|done..]. destruct (Hdone a) as [-> ?]; [done|]. eauto.
Qed.

Lemma wp_write_record : wp (write_record (w_audit w) r line) post w.
Proof.
  unfold write_record.
  assert (∀ n o, (∀ a, o ≠ Done a) → post o (set_tick w n)) as H0.
  { intros n o Ho. apply writing_post; [done..|]. by left. }
  apply wp_bind, wp_io_commit; [|intros; by apply H0..]. intros n.
  set (d1 := w_disk w). rw -/(log_text d1).
  assert (∀ n d o, (∀ a, o ≠ Done a) → writing d1 line d →
          post o (set_disk (set_tick w n) d)) as H1.
  { intros ? ? ? Ho ?. apply writing_post; [done..|]. by right. }
  assert (∀ s frag rest, s = log_text d1 +:+ frag → frag +:+ rest = line +:+ String LF "" →
          writing d1 line (set_d_log d1 (Some s))) as Hwr.
  { intros ? frag rest -> Hf. split; [done|]. split; [done|]. by exists frag, rest. }
  simpl. apply wp_bind, wp_io_append_log; simpl.
  2-3: intros; apply (H1 _ (set_d_log d1 _)); [done|];
       eapply Hwr; [done|apply string_take_rest].
  intros n1. apply wp_bind, wp_io_append_log; simpl.
  2-3: intros ? * ; apply (H1 _ (set_d_log d1 _)); [done|];
       eapply Hwr; [by rw string_app_assoc|apply string_take_second].
  intros n2. match goal with |- wp _ _ (set_disk _ ?d) => set (d2 := d) end.
  assert (writing d1 line d2) as Hd2.
  { eapply (Hwr _ _ ""); [by rw string_app_assoc|by rw string_app_nil_r]. }
  assert (∀ n o, (∀ a, o ≠ Done a) → post o (set_tick (set_disk (set_tick w n2) d2) n)) as H2.
  { intros ? ? Ho. by apply H1. }
  ro_step RO_io; [|intros; by apply H2..]. intros n3 ? _.
  unfold persist_head. apply wp_bind.
  ro_step RO_lift_json; [|intros; by apply H2..]. intros n4 ht Hht.
  do 3 (ro_step RO_io; [|intros; by apply H2..]; intros ? ? _).
  apply wp_bind, wp_io_commit; [|intros; by apply H2..]. intros m5. simpl.
  assert (∀ o w', w' = set_disk w' (set_d_head d2 (Some ht)) → flags_same w w' →
    (al_observed_len (w_audit w') = al_observed_len (w_audit w) ∧ (∀ a, o ≠ Done a) ∨
     o = Done r ∧ al_observed_len (w_audit w') = log_len (w_disk w') ∧
     al_sequence (w_audit w') = ar_sequence r ∧
     al_previous_digest (w_audit w') = record_digest line) → post o w') as H3.
  { intros o w' Hw' Hf Ho. eapply (committed_post ht); [done|done| | |by rw Hw'|done];
      rw Hw'; simpl; [done|by rw string_app_assoc]. }
  ro_step RO_io; [|intros; apply H3; [done|done|by left]..]. intros m6 ? _.
  eapply RO_wp; [eapply RO_io| |intros; apply H3; [done|done|by left]..]. intros m7 ? _.
  apply wp_bind_modify.
  ro_step RO_current_len; [|intros; apply H3; [done|done|by left]..]. intros m8 len ->.
  apply wp_bind_modify, wp_ret, H3; [done|done|]. right. done.
Qed.

End write_record.

(** [append], however it ends. *)
Lemma wp_append epoch event w :
  audit_inv w → log_room (w_disk w) →
  wp (append epoch event) (append_post w epoch event) w.
Proof.
  intros [Hinv Hc] Hroom. unfold append.
  assert (∀ o w', audit_only w w' → cache_ok w' → (∀ a, o ≠ Done a) →
                  append_post w epoch event o w') as H0.
  { intros o w' (n & a & ->) Hc' Ho. split; [done|]. split; [done|]. split; [done|].
    destruct o; [by edestruct Ho|by left..]. }
  ro_step RO_audit_lock; [|intros; by apply H0; [solve_ao|..]..]. intros n ? _.
  apply wp_bind. eapply wp_mono; [by apply (wp_refresh_if_stale (set_tick w n))|].
  intros o w1 ((n1 & a1 & ->) & Hc1 & Hd1).
  destruct o as [[]|e|]; simpl; [|apply H0; [solve_ao|done..]..].
  apply wp_bind_gets. simpl in *.
  destruct (al_damaged a1) as [dmg|] eqn:Hdmg; [by apply wp_raise, H0; [solve_ao|..]|].
  destruct (Hd1 eq_refl eq_refl) as [rs Hat]. pose proof Hat as (Hi & Hs & Hch & _). simpl in *.
  ro_step RO_lift_res; [|intros; by apply H0; [solve_ao|..]..].
  intros n2 seq [Hseq _]%ok_or_inr%checked_add_Some.
  ro_step RO_clock; [|intros; by apply H0; [solve_ao|..]..]. intros n3 now _.
  ro_step RO_lift_json; [|intros; by apply H0; [solve_ao|..]..]. intros n4 line Hline.
  eapply wp_mono.
  - eapply (wp_write_record (set_tick (set_audit (set_tick (set_tick w n) n1) a1) n4) rs);
      simpl; try done. by rw -Hs Hseq.
  - done.
Qed.

End chain.
