(* ===== verification/AuditProps.v ===== *)
(** * Properties of the audit log *)

From S2P Require Import Prelude Text Ids State World Concrete AuditWal AuditFacts.

Section props.
  Context {Cdc : Codec} {Env : Environment} {CL : CodecLaws}.

Lemma RO_run {A} (m : M A) φ w o w' :
  RO m φ → m w = (o, w') → w_disk w' = w_disk w ∧ ∀ a, o = Done a → φ w a.
Proof. intros Hm E. destruct (Hm w) as (n & Hw & Ha). rw E /= in Hw, Ha. by subst w'. Qed.

Lemma chain_numbers prev n ls rs p i r :
  chain prev n ls rs p → rs !! i = Some r → ar_sequence r = (n + 1 + Z.of_nat i)%Z.
Proof.
  intros Hc. revert i. induction Hc as [|? ? ? ? ? ? _ _ IH|? ? ? ? ? ? ? _ _ Hs _ _ IH];
    intros i Hi; [done|by apply IH|].
  destruct i as [|i]; simpl in Hi; [simplify_eq; lia|]. rw (IH _ Hi). lia.
Qed.

Lemma intact_numbers d rs i r :
  intact d rs → rs !! i = Some r → ar_sequence r = (1 + Z.of_nat i)%Z.
Proof.
  unfold intact. destruct (d_log d) as [t|]; [|by intros ->].
  intros (_ & _ & p & h & Hc & _) Hi. by rw (chain_numbers _ _ _ _ _ _ _ Hc Hi).
Qed.

(** *** Tamper evidence *)

Definition payload (l : string) : string := content_message (trim l).

(** The digest that closes a non-empty chain is that of its last record line. *)
Lemma chain_last prev n ls rs p :
  chain prev n ls rs p →
  rs = [] ∧ p = prev ∨
  ∃ ls' rs' l r mid, rs = rs' ++ [r] ∧ l ∈ ls ∧ (∀ x, x ∈ ls' → x ∈ ls) ∧
    chain prev n ls' rs' mid ∧ record_from_json (trim l) = inr r ∧
    p = record_digest (trim l) ∧ ar_previous_digest r = mid.
Proof.
  induction 1 as [prev n|prev n l ls rs p Ht _ IH|prev n l ls r rs p Ht Hp Hs Hd _ IH]; [by left| |].
  - destruct IH as [[-> ->]|(ls' & rs' & l' & r & mid & -> & ? & Hsub & ? & ? & ? & ?)]; [by left|].
    right. exists ls', rs', l', r, mid. split_and!; try done; [by right|].
    intros x Hx. right. by apply Hsub.
  - right. destruct IH as [[-> ->]|(ls' & rs' & l' & r' & mid & -> & Hl & Hsub & ? & ? & ? & ?)].
    + exists [], [], l, r, prev. split_and!; try done; [by left|by intros x ?%not_elem_of_nil|].
      constructor.
    + exists (l :: ls'), (r :: rs'), l', r', mid. split_and!; try done; [by right| |by econstructor].
      intros x [->|Hx]%elem_of_cons; [by left|right; by apply Hsub].
Qed.

Lemma chain_same_end n ls ls2 rs rs2 prev p :
  chain prev n ls rs p → chain prev n ls2 rs2 p → length rs = length rs2 →
  (∀ l l2, l ∈ ls → l2 ∈ ls2 → no_collision (payload l) (payload l2)) → rs = rs2.
Proof.
  intros Hc Hc2 Hlen Hnc. remember (length rs) as k eqn:Hk. symmetry in Hk.
  revert ls ls2 rs rs2 p Hc Hc2 Hlen Hnc Hk.
  induction k as [|k IH]; intros ls ls2 rs rs2 p Hc Hc2 Hlen Hnc Hk.
  { by apply nil_length_inv in Hk as ->; apply symmetry, nil_length_inv in Hlen as ->. }
  destruct (chain_last _ _ _ _ _ Hc)
    as [[-> _]|(ls' & rs' & l & r & mid & -> & Hl & Hsub & Hc' & Hp & -> & Hd)]; [done|].
  destruct (chain_last _ _ _ _ _ Hc2)
    as [[-> _]|(ls2' & rs2' & l2 & r2 & mid2 & -> & Hl2 & Hsub2 & Hc2' & Hp2 & He & Hd2)]; [done|].
  rw !length_app /= in Hk, Hlen.
  assert (trim l = trim l2) as Ht.
  { unfold record_digest in He. apply digest_to_hex_inj in He. injection He as He.
    pose proof (Hnc _ _ Hl Hl2 He) as Heq. by apply string_app_inj_l in Heq. }
  assert (r = r2) as -> by congruence. f_equal.
  eapply (IH ls' ls2' rs' rs2' mid); [done|by rw -Hd Hd2|lia| |lia].
  intros x y ? ?. apply Hnc; auto.
Qed.

(** C18: [AuditLog::append] refines appending to a list of records.  From a
    coherent cache it always leaves a coherent cache and never touches the
    snapshot; if it returns a record, the log was intact and now holds exactly
    the old records and that one, numbered next.  If it fails or the process
    dies, the log is unchanged, or the record is durable, or the log is no
    longer accepted as intact: an unanchored record never passes for evidence. *)
Theorem append_extends_chain epoch event w o w' :
  audit_inv w → log_room (w_disk w) → append epoch event w = (o, w') →
  d_state (w_disk w') = d_state (w_disk w) ∧ audit_inv w' ∧
  match o with
  | Done r => ∃ rs, intact (w_disk w) rs ∧ intact (w_disk w') (rs ++ [r]) ∧
                ar_event r = event ∧ ar_control_epoch r = epoch ∧
                ar_sequence r = (Z.of_nat (length rs) + 1)%Z
  | _ => append_failed epoch event (w_disk w) (w_disk w')
  end.
Proof.
  intros Hi Hr E. destruct (wp_run _ _ _ _ _ E (wp_append epoch event w Hi Hr))
    as (Hst & _ & Ha & Ho). split; [done|]. split; [done|].
  destruct o as [r| |]; [|done..]. destruct Ho as (rs & Hrs & (Hrs' & _) & He & Hep).
  exists rs. split_and!; try done.
  rw (intact_numbers _ _ (length rs) r Hrs'); [lia|]. by apply list_lookup_middle.
Qed.

(** The checkpoint names the last of these records. *)
Definition checkpoint_names (d : Disk) (rs : list AuditRecord) (last : string) : Prop :=
  match d_head d with
  | None => rs = []
  | Some t => ∃ h, head_from_json t = inr h ∧
                ah_sequence h = Z.of_nat (length rs) ∧ ah_digest h = last
  end.

Lemma checkpoint_names_head d ls rs last :
  chain GENESIS_DIGEST 0 ls rs last →
  checkpoint_names d rs last ↔
  ∃ h, disk_head d = inr h ∧ head_matches_pure h (Z.of_nat (length rs)) last = true.
Proof.
  intros Hc. unfold checkpoint_names, disk_head. destruct (d_head d) as [t|].
  - destruct (head_from_json t) as [e|h]; [naive_solver|]. split.
    + intros (h' & [= <-] & Hs & Hd). exists (Some h). split; [done|]. simpl.
      by rw !bool_decide_eq_true_2.
    + intros (h' & [= <-] & Hm). simpl in Hm. exists h.
      apply andb_prop in Hm as [Hn%bool_decide_eq_true Hp%bool_decide_eq_true]. done.
  - split.
    + intros ->. exists None. split; [done|]. simpl.
      destruct (chain_last _ _ _ _ _ Hc) as [[_ ->]|(? & ? & ? & ? & ? & Hn & _)];
        [by rw !bool_decide_eq_true_2|by destruct (app_cons_not_nil _ _ _ Hn)].
    + intros (h & [= <-] & Hm). simpl in Hm. destruct rs; [done|]. by rw bool_decide_eq_false_2 in Hm.
Qed.

(** C19: [verify_chain] decides an existing log (of fewer than [2^64 - 4] bytes),
    and changes nothing: it answers [true] exactly when the text is UTF-8, its non-blank lines are records
    numbered from 1 whose previous digests chain from the genesis digest, and the
    checkpoint names the number and the digest of the last one (or there is no
    checkpoint and no record either).  A missing log file, which the code answers
    with [true] whatever the checkpoint says, is not claimed. *)
Theorem verify_chain_decides w b w' text :
  d_log (w_disk w) = Some text → log_room (w_disk w) → verify_chain w = (Done b, w') →
  w_disk w' = w_disk w ∧
  (b = true ↔ utf8_valid text = true ∧ ∃ rs last,
     chain GENESIS_DIGEST 0 (lines text) rs last ∧ (Z.of_nat (length rs) < U64_MAX)%Z ∧
     checkpoint_names (w_disk w) rs last).
Proof.
  intros Ht Hr E. destruct (RO_run _ _ _ _ _ RO_verify_chain E) as [Hd Hb]. split; [done|].
  rw (verified_intact _ _ Hr (Hb b eq_refl)). unfold intact. rw Ht. split.
  - intros (rs & Hu & Hl & last & h & Hc & Hh). split; [done|]. exists rs, last.
    split_and!; [done..|]. apply (checkpoint_names_head _ _ _ _ Hc). by exists h.
  - intros (Hu & rs & last & Hc & Hl & Hk). apply (checkpoint_names_head _ _ _ _ Hc) in Hk as [h Hk].
    exists rs. split_and!; [done..|]. by exists last, h.
Qed.

(** Reading back.  After an [append] that returned [r], a successful
    [records] returns the records of the log before, followed by [r]. *)
Theorem append_records_roundtrip epoch event w r w1 rs' w2 :
  audit_inv w → log_room (w_disk w) → append epoch event w = (Done r, w1) →
  records w1 = (Done rs', w2) → (Z.of_nat (length rs') < U64_MAX)%Z →
  ∃ rs, intact (w_disk w) rs ∧ rs' = rs ++ [r].
Proof.
  intros Hi Hr E E' Hl. destruct (wp_run _ _ _ _ _ E (wp_append epoch event w Hi Hr))
    as (_ & _ & _ & rs & Hrs & (Hrs1 & _) & _). exists rs. split; [done|].
  destruct (RO_run _ _ _ _ _ RO_records E') as [_ Hb]. by eapply intact_det; [apply Hb; [done|by left]|].
Qed.

(** Evidence damage is terminal for writing.  On a log that is not intact,
    [append] never returns a record and never writes a byte of any file. *)
Theorem append_refuses_damaged_log epoch event w o w' :
  audit_inv w → log_room (w_disk w) → broken (w_disk w) → append epoch event w = (o, w') →
  (∀ r, o ≠ Done r) ∧ d_log (w_disk w') = d_log (w_disk w) ∧
  d_head (w_disk w') = d_head (w_disk w) ∧ d_state (w_disk w') = d_state (w_disk w).
Proof.
  intros Hi Hr Hb E. destruct (wp_run _ _ _ _ _ E (wp_append epoch event w Hi Hr))
    as (Hst & _ & _ & Ho).
  assert ((∀ r, o ≠ Done r) ∧ log_same (w_disk w) (w_disk w')) as [Hno (Ht & Hh & Hd)].
  { destruct o as [r| |]; [by destruct Ho as (rs & ?%Hb & _)|..];
      (split; [done|]); destruct Ho as [?|[(rs & ? & ?%Hb & _)|[[rs ?%Hb] _]]]; done. }
  split; [done|]. split; [|done]. unfold log_text in Ht.
  destruct (d_log (w_disk w)) as [t|] eqn:El.
  - destruct (d_log (w_disk w')) as [t'|] eqn:El'; simpl in Ht; [by subst|]. by specialize (Hd eq_refl).
  - destruct (Hb []). unfold intact. by rw El.
Qed.

(** C39: tamper evidence.  Two existing log files that are intact under the same
    checkpoint hold the same records, unless the rewrite found a SHA-256 collision
    between two of their lines: while the file and its checkpoint stand, no record
    can be altered, dropped, inserted or reordered.  (Deleting the whole file is
    not covered: it passes for an empty log.) *)
Theorem tamper_evident d d2 rs rs2 h :
  intact d rs → intact d2 rs2 → d_head d = Some h → d_head d2 = Some h →
  is_Some (d_log d) → is_Some (d_log d2) →
  (∀ l l2, l ∈ log_lines d → l2 ∈ log_lines d2 → no_collision (payload l) (payload l2)) →
  rs = rs2.
Proof.
  unfold intact, log_lines, log_text, disk_head.
  intros Hi Hi2 Hh Hh2 [t Ht] [t2 Ht2]. rw Ht Hh in Hi. rw Ht2 Hh2 in Hi2. rw Ht Ht2 /=.
  destruct Hi as (_ & _ & p & h1 & Hc & Eh & Hm), Hi2 as (_ & _ & p2 & h2 & Hc2 & Eh2 & Hm2).
  destruct (head_from_json h) as [|hd]; [done|]. simplify_eq. simpl in *.
  apply andb_prop in Hm as [Hn%bool_decide_eq_true Hp%bool_decide_eq_true].
  apply andb_prop in Hm2 as [Hn2%bool_decide_eq_true Hp2%bool_decide_eq_true].
  intros Hnc. eapply chain_same_end; [exact Hc|by rw -Hp Hp2|lia|done].
Qed.

(** A missing log is an empty one to the verifier, even when the
    checkpoint still names later records: with no I/O fault, [verify_chain]
    answers true on every disk whose [audit.log] is absent. *)
Theorem deleted_log_verifies w :
  (∀ n, io_event n = IoOk) → d_log (w_disk w) = None →
  (verify_chain w).1 = Done true.
Proof.
  intros Hio Hd. unfold verify_chain, verify_chain_unlocked, audit_lock, read_log, io, tick,
    mbind, M_bind. simpl. repeat (rw Hio; simpl). by rw Hd.
Qed.

End props.

(** ** Witnesses *)

Section witnesses.
#[local] Existing Instances concrete_codec toy_sha concrete_codec_laws.
#[local] Instance env0 : Environment := env_with no_faults.

Definition ev1 : AuditEvent := EvAuthenticated "prn_1".
Definition ev2 : AuditEvent := EvSendWireAdmission "att_1".

Lemma empty_audit_inv : audit_inv empty_world.
Proof.
  split; [split; [done|]|split; [done|]].
  - intros rs _. by exists [].
  - intros _ _ rs Hi. cbv in Hi. subst rs. split; [done|constructor].
Qed.

Definition w_one : World := (append 1 ev1 empty_world).2.

Lemma append_extends_chain_witness :
  ∃ r, (append 1 ev1 empty_world).1 = Done r ∧ intact (w_disk w_one) [r] ∧ ar_event r = ev1.
Proof.
  assert (log_room (w_disk empty_world)) as Hr by done.
  destruct (append_extends_chain 1 ev1 empty_world _ _ empty_audit_inv Hr (surjective_pairing _))
    as (_ & _ & Ho).
  destruct (append 1 ev1 empty_world).1 as [r| |] eqn:E; [|by vm_compute in E..].
  destruct Ho as (rs & Hi & Hi' & He & _). exists r. split; [done|].
  assert (rs = []) as -> by (cbv in Hi; done). done.
Defined.

Definition text_one : string := default "" (d_log (w_disk w_one)).

Lemma verify_chain_decides_witness :
  ∃ rs last, chain GENESIS_DIGEST 0 (lines text_one) rs last.
Proof.
  destruct (verify_chain_decides w_one true (verify_chain w_one).2 text_one) as [_ Hb];
    [vm_compute; reflexivity|vm_compute; reflexivity|apply run_done; vm_compute; reflexivity|].
  destruct Hb as [Hb _]. destruct (Hb eq_refl) as (_ & rs & last & Hc & _). by exists rs, last.
Defined.

Lemma append_records_roundtrip_witness :
  match (append 1 ev1 empty_world).1, (records w_one).1 with
  | Done r, Done rs' => rs' = [r]
  | _, _ => False
  end.
Proof.
  destruct (append 1 ev1 empty_world).1 as [r| |] eqn:E; [|by vm_compute in E..].
  destruct (records w_one).1 as [rs'| |] eqn:E'; [|by vm_compute in E'..].
  destruct (append_records_roundtrip 1 ev1 empty_world r w_one rs' (records w_one).2)
    as (rs & Hi & ->); [apply empty_audit_inv|reflexivity|exact (run_done (append 1 ev1) _ _ E)
                      |exact (run_done records _ _ E')| |].
  - vm_compute in E'. injection E' as <-. reflexivity.
  - assert (rs = []) as -> by (cbv in Hi; done). reflexivity.
Defined.

(** A log whose last line is torn. *)
Definition w_torn : World :=
  set_disk empty_world (set_d_log empty_disk (Some "{")).

Lemma append_refuses_damaged_log_witness :
  d_log (w_disk (append 1 ev1 w_torn).2) = Some "{".
Proof.
  assert (broken (w_disk w_torn)) as Hb.
  { intros rs Hi. cbv [intact w_torn set_disk set_d_log w_disk d_log] in Hi.
    destruct Hi as (_ & _ & p & h & Hc & _). change (lines "{") with ["{"] in Hc.
    inversion Hc; subst; discriminate. }
  assert (audit_inv w_torn) as Hi.
  { split; [split; [done|]|split; [done|]]; [by intros rs ?%Hb|by intros _ _ rs ?%Hb]. }
  assert (log_room (w_disk w_torn)) as Hr by reflexivity.
  destruct (append_refuses_damaged_log 1 ev1 w_torn _ _ Hi Hr Hb (surjective_pairing _))
    as (_ & Hl & _). exact Hl.
Defined.

(** The same checkpoint over a log with a blank line added. *)
Definition w_blank : World :=
  set_disk w_one (set_d_log (w_disk w_one) ((λ t, t +:+ String LF "") <$> d_log (w_disk w_one))).

Lemma verified_log w :
  (verify_chain w).1 = Done true → log_room (w_disk w) → ∃ rs, intact (w_disk w) rs.
Proof.
  intros E Hr. destruct (RO_run _ _ _ _ _ RO_verify_chain (run_done _ _ _ E)) as [_ Hv].
  by apply (verified_intact _ _ Hr (Hv true eq_refl)).
Qed.

Lemma blank_no_collision d d2 x :
  log_lines d = [x] → log_lines d2 = [x; ""] →
  bool_decide (sha256 (payload x) = sha256 (payload "")) = false →
  ∀ l l2, l ∈ log_lines d → l2 ∈ log_lines d2 → no_collision (payload l) (payload l2).
Proof.
  intros -> -> Hx%bool_decide_eq_false l l2 Hl Hin E. apply list_elem_of_singleton in Hl as ->.
  apply elem_of_cons in Hin as [->|Hl2]; [done|]. apply list_elem_of_singleton in Hl2 as ->.
  by destruct Hx.
Qed.

Lemma tamper_evident_witness :
  ∃ rs rs2, intact (w_disk w_one) rs ∧ intact (w_disk w_blank) rs2 ∧
            log_lines (w_disk w_one) ≠ log_lines (w_disk w_blank) ∧ rs = rs2.
Proof.
  destruct (verified_log w_one) as [rs H1]; [vm_compute; reflexivity..|].
  destruct (verified_log w_blank) as [rs2 H2]; [vm_compute; reflexivity..|].
  assert (∃ h, d_head (w_disk w_one) = Some h) as [h Hh] by (vm_compute; eauto).
  assert (d_head (w_disk w_blank) = d_head (w_disk w_one)) as Hb by (vm_compute; reflexivity).
  exists rs, rs2. split; [exact H1|]. split; [exact H2|]. split; [vm_compute; discriminate|].
  assert (is_Some (d_log (w_disk w_one))) as Hl1 by (vm_compute; eexists; reflexivity).
  assert (is_Some (d_log (w_disk w_blank))) as Hl2 by (vm_compute; eexists; reflexivity).
  refine (tamper_evident _ _ rs rs2 h H1 H2 Hh (eq_trans Hb Hh) Hl1 Hl2 _).
  set (x := List.hd "" (log_lines (w_disk w_one))).
  assert (log_lines (w_disk w_one) = [x]) as Ex by (vm_compute; reflexivity).
  assert (log_lines (w_disk w_blank) = [x; ""]) as Ex2 by (vm_compute; reflexivity).
  assert (bool_decide (sha256 (payload x) = sha256 (payload "")) = false) as Hx
    by (vm_compute; reflexivity).
  exact (blank_no_collision _ _ x Ex Ex2 Hx).
Defined.

(** The checkpoint says two records, the log is gone. *)
Definition w_deleted : World :=
  set_disk empty_world (set_d_head empty_disk (Some {| ah_sequence := 2; ah_digest := "" |})).

Lemma deleted_log_verifies_witness : (verify_chain w_deleted).1 = Done true.
Proof. apply (deleted_log_verifies w_deleted); reflexivity. Defined.

End witnesses.
