(* ===== verification/Store.v ===== *)
(** * The canonical authority store

    Models [crates/common/xai-host-authority/src/store.rs] (and [append_audit]
    of [gates.rs], which the store calls): the durable snapshot with its
    lock-read-apply-persist discipline, and gate 1, the principal root.
    [HostAuthority::open] is in [Open], since it calls the settlement replay of
    gate 3. *)

From S2P Require Import Prelude Text Ids State World AuditWal.
From stdpp Require Import pretty.
From Stdlib Require Import Ascii.

(** A store handle and the admin proof carry the binding of their root. *)
Record HostAuthority := { ha_root_binding : ContentDigest }.
Record HostAdminAuthority := { ad_root_binding : ContentDigest }.

Record HostCredential := { hc_id : string; hc_secret : string }.
Record HostAdminCredential := { hac_secret : string }.

(** [b.is_ascii_alphanumeric() || matches!(b, b'-' | b'_' | b'.')] *)
Definition id_byte_ok (c : ascii) : bool :=
  let b := byte_val c in
  bool_decide (48 ≤ b ≤ 57 ∨ 65 ≤ b ≤ 90 ∨ 97 ≤ b ≤ 122 ∨ b = 45 ∨ b = 95 ∨ b = 46)%Z.

Definition HostCredential_new (id secret : string) : Res HostCredential :=
  let id := trim id in
  if decide (id = "" ∨ (128 < String.length id)%nat ∨ string_forall id_byte_ok id = false) then
    inl (Invalid "credential id")
  else if decide (trim secret = "") then inl (Invalid "credential secret")
  else inr {| hc_id := id; hc_secret := secret |}.

Definition HostAdminCredential_new (secret : string) : Res HostAdminCredential :=
  if decide (String.length secret < 32)%nat then
    inl (Invalid "admin credential must contain at least 32 bytes")
  else inr {| hac_secret := secret |}.

(** The loop accumulates the bitwise differences of the byte pairs. *)
Fixpoint ct_diff (a b : string) (diff : Z) : Z :=
  match a, b with
  | String x a', String y b' => ct_diff a' b' (Z.lor diff (Z.lxor (byte_val x) (byte_val y)))
  | _, _ => diff
  end.

Definition constant_time_eq (a b : string) : bool :=
  if decide (String.length a ≠ String.length b) then false
  else bool_decide (ct_diff a b 0 = 0%Z).

Definition deny_resource_access : AuthorityError := UnknownResource.

Definition allocate_auth_generation : Tx Z :=
  st ← tx_get;
  let generation := au_next_auth_generation st in
  next ← tx_res (ok_or (Durability "authentication generation exhausted")
                   (checked_add generation 1));
  _ ← tx_put (set_next_auth_generation st next);
  mret generation.

(** Drop the entries of a map whose credential incarnation is [inc]: collect
    their keys in order, then remove them one by one. *)
Definition remove_incarnation {V} (cred_inc : V → string) (inc : string) (m : gmap string V)
    : gmap string V :=
  let dead := (filter (λ kv, cred_inc kv.2 = inc) (btree_iter m)).*1 in
  foldl (λ m k, delete k m) m dead.

Definition invalidate_incarnation (st : StoredAuthority) (inc : string) : StoredAuthority :=
  let st := set_resources st
    (remove_incarnation sr_credential_incarnation inc (au_resources st)) in
  let st := set_capabilities st
    (remove_incarnation cp_credential_incarnation inc (au_capabilities st)) in
  set_leases st (remove_incarnation ls_credential_incarnation inc (au_leases st)).

Definition require_current_state (st : StoredAuthority) (auth : AuthContext) : Res unit :=
  record ← ok_or StalePrincipal
    (find (λ r, bool_decide (sc_principal r = to_hex (ac_principal auth))) (au_credentials st));
  if decide (sc_incarnation record ≠ to_hex (ac_incarnation auth)
             ∨ sc_auth_generation record ≠ ac_auth_generation auth) then inl StalePrincipal
  else if decide (au_capability_generation st ≠ ac_capability_generation auth) then
    inl StaleCapability
  else if decide (au_policy_revision st ≠ ac_policy_revision auth) then inl StalePolicy
  else if decide (au_control_epoch st ≠ ac_control_epoch auth) then inl StaleControlEpoch
  else inr ().

Definition binding_from_resource (st : StoredAuthority) (auth : AuthContext)
    (record : StoredResource) : Res AuthorityBinding :=
  if decide (sr_principal record ≠ to_hex (ac_principal auth)
             ∨ sr_credential_incarnation record ≠ to_hex (ac_incarnation auth)
             ∨ sr_auth_generation record ≠ ac_auth_generation auth
             ∨ sr_policy_revision record ≠ au_policy_revision st) then inl deny_resource_access
  else if decide (sr_control_epoch record ≠ au_control_epoch st) then inl deny_resource_access
  else
    session ← decode_id (sr_session record) "session";
    workspace ← decode_id (sr_workspace record) "workspace";
    resource ← decode_id (sr_incarnation record) "resource";
    inr {| ab_principal := ac_principal auth; ab_incarnation := ac_incarnation auth;
           ab_auth_generation := ac_auth_generation auth;
           ab_capability_generation := au_capability_generation st;
           ab_policy_revision := au_policy_revision st;
           ab_session := session; ab_workspace := workspace; ab_resource := resource;
           ab_control_epoch := au_control_epoch st |}.

Section store.
  Context {Cdc : Codec} {Env : Environment}.

Definition credential_fingerprint (secret : string) : string :=
  digest_to_hex (of_fields [("bearer", secret)]).

Definition admin_credential_fingerprint (secret : string) : string :=
  digest_to_hex (of_fields [("host-admin-custody-v1", secret)]).

(** Open the lock file, then [flock] it. *)
Definition store_lock : M unit := _ ← io; io.

Definition check_schema (st : StoredAuthority) : Res StoredAuthority :=
  if decide (au_schema_version st ≠ SCHEMA_VERSION) then
    inl (CorruptState ("unsupported authority schema version " +:+ pretty (au_schema_version st)))
  else inr st.

Definition read_state : M (option StoredAuthority) :=
  _ ← io;
  t ← gets (λ w, d_state (w_disk w));
  match t with
  | None => mret None
  | Some text =>
      st ← lift_json CorruptState (state_from_json text);
      st ← lift_res (check_schema st);
      mret (Some st)
  end.

(** Serialise, create, write, fsync, rename (the commit point), open the
    directory, fsync it. *)
Definition persist (st : StoredAuthority) : M unit :=
  text ← lift_json Durability (state_to_json st);
  _ ← io; _ ← io; _ ← io;
  _ ← io_commit (λ d, set_d_state d (Some text));
  _ ← io; io.

(** Apply a closure to a private copy of the state. *)
Definition run_tx {A} (f : Tx A) (st : StoredAuthority) : M (A * StoredAuthority) := λ w,
  match f {| tx_auth := st; tx_tick := w_tick w |} with
  | inl e => (Raised e, w)
  | inr (a, s) => (Done (a, tx_auth s), set_tick w (tx_tick s))
  end.

Definition with_state_init {A} (fingerprint : string) (f : Tx A) : M A :=
  _ ← store_lock;
  st ← read_state;
  st ← match st with
       | Some st =>
           if constant_time_eq (au_admin_credential_fingerprint st) fingerprint then mret st
           else raise Unauthenticated
       | None =>
           owner ← mint (k := KPrincipal);
           mret (StoredAuthority_new (to_hex owner) fingerprint)
       end;
  '(out, st') ← run_tx f st;
  _ ← persist st';
  mret out.

Definition require_admin (h : HostAuthority) (admin : HostAdminAuthority) : Res unit :=
  ensure (bool_decide (ad_root_binding admin = ha_root_binding h)) Unauthenticated.

Definition with_state {A} (f : Tx A) : M A :=
  _ ← store_lock;
  st ← read_state;
  st ← lift_res (ok_or (CorruptState "authority root is missing") st);
  '(out, st') ← run_tx f st;
  _ ← persist st';
  mret out.

Definition read {A} (f : StoredAuthority → Res A) : M A :=
  _ ← store_lock;
  st ← read_state;
  st ← lift_res (ok_or (CorruptState "authority root is missing") st);
  lift_res (f st).

(** ** Gate 4, as used by gate 1 *)

Definition append_audit (control_epoch : Z) (event : AuditEvent) : M unit :=
  poisoned ← gets w_audit_poisoned;
  if poisoned : bool then raise (Durability "audit log lock poisoned")
  else _ ← append control_epoch event; mret ().

Definition lock_attempt_lifecycle : M unit :=
  poisoned ← gets w_lifecycle_poisoned;
  if poisoned : bool then raise (Durability "attempt lifecycle lock poisoned") else mret ().

(** ** Gate 1: the principal root *)

(** One iteration of the loop of [set_credentials]: the slot's record, and the
    incarnation it retires, if any. *)
Definition install_credential (c : HostCredential) : Tx (StoredCredential * list string) :=
  let fingerprint := credential_fingerprint (hc_secret c) in
  st ← tx_get;
  match find (λ r, bool_decide (sc_credential_id r = hc_id c)) (au_credentials st) with
  | Some r =>
      if decide (sc_credential_fingerprint r = fingerprint) then mret (r, [])
      else
        generation ← allocate_auth_generation;
        incarnation ← tx_mint (k := KIncarnation);
        mret ({| sc_credential_id := sc_credential_id r; sc_principal := sc_principal r;
                 sc_incarnation := to_hex incarnation; sc_auth_generation := generation;
                 sc_credential_fingerprint := fingerprint; sc_owner_id := au_owner_id st |},
              [sc_incarnation r])
  | None =>
      generation ← allocate_auth_generation;
      principal ← tx_mint (k := KPrincipal);
      incarnation ← tx_mint (k := KIncarnation);
      mret ({| sc_credential_id := hc_id c; sc_principal := to_hex principal;
               sc_incarnation := to_hex incarnation; sc_auth_generation := generation;
               sc_credential_fingerprint := fingerprint; sc_owner_id := au_owner_id st |}, [])
  end.

Fixpoint install_credentials (cs : list HostCredential)
    : Tx (list StoredCredential * list string) :=
  match cs with
  | [] => mret ([], [])
  | c :: cs =>
      '(record, dead) ← install_credential c;
      '(next, invalidated) ← install_credentials cs;
      mret (record :: next, dead ++ invalidated)
  end.

(** The incarnations of the old set that the new set no longer holds. *)
Definition gone_incarnations (old next : list StoredCredential) : list string :=
  sc_incarnation <$> filter (λ o, sc_incarnation o ∉ sc_incarnation <$> next) old.

Definition set_credentials_tx (credentials : list HostCredential) : Tx unit :=
  '(next, invalidated) ← install_credentials credentials;
  st ← tx_get;
  let invalidated := invalidated ++ gone_incarnations (au_credentials st) next in
  let st := foldl invalidate_incarnation st invalidated in
  tx_put (set_au_credentials st next).

(** [seen.insert] fails on the second occurrence of an id. *)
Fixpoint duplicate_id (seen : list string) (cs : list HostCredential) : bool :=
  match cs with
  | [] => false
  | c :: cs => bool_decide (hc_id c ∈ seen) || duplicate_id (hc_id c :: seen) cs
  end.

Definition set_credentials (h : HostAuthority) (admin : HostAdminAuthority)
    (credentials : list HostCredential) : M unit :=
  _ ← lift_res (require_admin h admin);
  if decide (credentials = []) then raise (Invalid "credential set")
  else if duplicate_id [] credentials then raise (Invalid "duplicate credential id")
  else with_state (set_credentials_tx credentials).

Definition bearer_token (bearer : string) : string :=
  let presented := trim bearer in
  trim (match Prelude.strip_prefix "Bearer " presented with
        | Some t => t
        | None => match Prelude.strip_prefix "bearer " presented with
                  | Some t => t
                  | None => presented
                  end
        end).

Definition authenticate_state (fingerprint : string) (st : StoredAuthority) : Res AuthContext :=
  if decide (au_credentials st = []) then inl Unauthenticated
  else
    record ← ok_or Unauthenticated
      (find (λ r, constant_time_eq (sc_credential_fingerprint r) fingerprint)
         (au_credentials st));
    principal ← decode_id (sc_principal record) "principal";
    incarnation ← decode_id (sc_incarnation record) "incarnation";
    inr {| ac_principal := principal; ac_incarnation := incarnation;
           ac_auth_generation := sc_auth_generation record;
           ac_capability_generation := au_capability_generation st;
           ac_policy_revision := au_policy_revision st;
           ac_control_epoch := au_control_epoch st;
           ac_credential_id := sc_credential_id record;
           ac_owner_id := sc_owner_id record |}.

Definition authenticate (bearer : string) : M AuthContext :=
  let token := bearer_token bearer in
  if decide (token = "") then raise Unauthenticated
  else
    auth ← read (authenticate_state (credential_fingerprint token));
    _ ← append_audit (ac_control_epoch auth) (EvAuthenticated (public_handle (ac_principal auth)));
    mret auth.

Definition require_current (auth : AuthContext) : M unit :=
  read (λ st, require_current_state st auth).

Definition issue_session (auth : AuthContext) : M SessionId :=
  with_state (
    st ← tx_get;
    _ ← tx_res (require_current_state st auth);
    tx_mint).

Definition issue_workspace (auth : AuthContext) (canonical_path : string) : M WorkspaceId :=
  with_state (
    st ← tx_get;
    _ ← tx_res (require_current_state st auth);
    if decide (canonical_path = "") then tx_fail (Invalid "workspace path")
    else
      let digest := of_fields [("workspace", canonical_path)] in
      mret (OpaqueId (string_take 16 (digest_bytes digest)))).

Definition new_resource (st : StoredAuthority) (auth : AuthContext) (id : ResourceIncarnation)
    (session : SessionId) (workspace : WorkspaceId) (observation : ContentDigest)
    : StoredResource := {|
  sr_incarnation := to_hex id;
  sr_principal := to_hex (ac_principal auth);
  sr_credential_incarnation := to_hex (ac_incarnation auth);
  sr_auth_generation := ac_auth_generation auth;
  sr_policy_revision := ac_policy_revision auth;
  sr_session := to_hex session;
  sr_workspace := to_hex workspace;
  sr_control_epoch := au_control_epoch st;
  sr_observation_revision := 1;
  sr_observation_digest := digest_to_hex observation;
  sr_next_attempt_ordinal := 1;
|}.

Definition issue_resource_tx (auth : AuthContext) (session : SessionId) (workspace : WorkspaceId)
    (observation : ContentDigest) : Tx ResourceIncarnation :=
  st ← tx_get;
  _ ← tx_res (require_current_state st auth);
  id ← tx_mint (k := KResource);
  _ ← tx_put (set_resources st
        (<[to_hex id := new_resource st auth id session workspace observation]> (au_resources st)));
  mret id.

Definition issue_resource (auth : AuthContext) (session : SessionId) (workspace : WorkspaceId)
    (initial_observation : ContentDigest) : M ResourceIncarnation :=
  id ← with_state (issue_resource_tx auth session workspace initial_observation);
  _ ← append_audit (ac_control_epoch auth)
        (EvResourceIssued (public_handle id) (public_handle (ac_principal auth))
           (public_handle session) (public_handle workspace));
  mret id.

(** The test of the loop of [obtain_provider_send_surface]. *)
Definition surface_matches (st : StoredAuthority) (auth : AuthContext) (workspace_hex : string)
    (observation_hex : string) (r : StoredResource) : Prop :=
  sr_principal r = to_hex (ac_principal auth) ∧
  sr_credential_incarnation r = to_hex (ac_incarnation auth) ∧
  sr_auth_generation r = ac_auth_generation auth ∧
  sr_policy_revision r = au_policy_revision st ∧
  sr_control_epoch r = au_control_epoch st ∧
  sr_workspace r = workspace_hex ∧
  sr_observation_digest r = observation_hex ∧
  sr_observation_revision r = 1%Z.

#[global] Instance surface_matches_dec st auth ws obs r :
  Decision (surface_matches st auth ws obs r).
Proof. unfold surface_matches. apply _. Defined.

Definition find_surface (auth : AuthContext) (workspace_hex observation_hex : string)
    (st : StoredAuthority) : Res (option ResourceIncarnation) :=
  _ ← require_current_state st auth;
  match find (λ kv, bool_decide (surface_matches st auth workspace_hex observation_hex kv.2))
          (btree_iter (au_resources st)) with
  | Some (key, _) => id ← decode_id key "resource"; inr (Some id)
  | None => inr None
  end.

Definition obtain_provider_send_surface (auth : AuthContext) (workspace : WorkspaceId)
    (target_scope : string) : M ResourceIncarnation :=
  let observation := of_fields [("provider-send-target-v1", target_scope)] in
  found ← read (find_surface auth (to_hex workspace) (digest_to_hex observation));
  match found with
  | Some id => mret id
  | None =>
      session ← mint (k := KSession);
      id ← with_state (issue_resource_tx auth session workspace observation);
      _ ← append_audit (ac_control_epoch auth)
            (EvResourceIssued (public_handle id) (public_handle (ac_principal auth))
               (public_handle session) (public_handle workspace));
      mret id
  end.

Definition resource_binding (auth : AuthContext) (resource : ResourceIncarnation)
    : M AuthorityBinding :=
  read (λ st,
    _ ← require_current_state st auth;
    record ← ok_or deny_resource_access (au_resources st !! to_hex resource);
    binding_from_resource st auth record).

Definition record_observation_tx (auth : AuthContext) (resource : ResourceIncarnation)
    (observation : ContentDigest) : Tx Z :=
  st ← tx_get;
  _ ← tx_res (require_current_state st auth);
  record ← tx_res (ok_or deny_resource_access (au_resources st !! to_hex resource));
  if decide (sr_principal record ≠ to_hex (ac_principal auth)
             ∨ sr_credential_incarnation record ≠ to_hex (ac_incarnation auth)
             ∨ sr_auth_generation record ≠ ac_auth_generation auth
             ∨ sr_policy_revision record ≠ au_policy_revision st) then
    tx_fail deny_resource_access
  else if decide (sr_control_epoch record ≠ au_control_epoch st) then
    tx_fail deny_resource_access
  else
    revision ← tx_res (ok_or (Durability "observation revision exhausted")
                         (checked_add (sr_observation_revision record) 1));
    _ ← tx_put (set_resources st
          (<[to_hex resource :=
               set_resource_observation record revision (digest_to_hex observation)]>
             (au_resources st)));
    mret revision.

Definition record_observation (auth : AuthContext) (resource : ResourceIncarnation)
    (observation : ContentDigest) : M Z :=
  with_state (record_observation_tx auth resource observation).

Definition rotate_control_epoch_tx : Tx Z :=
  st ← tx_get;
  epoch ← tx_res (ok_or (Durability "control epoch exhausted")
                    (checked_add (au_control_epoch st) 1));
  _ ← tx_put (set_leases (set_capabilities (set_control_epoch st epoch) ∅) ∅);
  mret epoch.

Definition rotate_control_epoch (h : HostAuthority) (admin : HostAdminAuthority) : M Z :=
  _ ← lift_res (require_admin h admin);
  with_state rotate_control_epoch_tx.

Definition rotate_capability_generation_tx : Tx Z :=
  st ← tx_get;
  generation ← tx_res (ok_or (Durability "capability generation exhausted")
                         (checked_add (au_capability_generation st) 1));
  _ ← tx_put (set_leases (set_capabilities (set_capability_generation st generation) ∅) ∅);
  mret generation.

Definition rotate_capability_generation (h : HostAuthority) (admin : HostAdminAuthority) : M Z :=
  _ ← lift_res (require_admin h admin);
  with_state rotate_capability_generation_tx.

Definition rotate_policy_revision_tx : Tx Z :=
  st ← tx_get;
  revision ← tx_res (ok_or (Durability "policy revision exhausted")
                       (checked_add (au_policy_revision st) 1));
  _ ← tx_put (set_leases (set_capabilities (set_resources
        (set_policy_revision st revision) ∅) ∅) ∅);
  mret revision.

Definition rotate_policy_revision (h : HostAuthority) (admin : HostAdminAuthority) : M Z :=
  _ ← lift_res (require_admin h admin);
  with_state rotate_policy_revision_tx.

Definition owner_id (h : HostAuthority) (admin : HostAdminAuthority) : M string :=
  _ ← lift_res (require_admin h admin);
  read (λ st, inr (au_owner_id st)).

End store.
