(* ===== verification/StoreFacts.v ===== *)
(** * The store refines atomic transactions

    [holds d st] is the abstraction: the snapshot of disk [d] is [st].
    [with_state f] either leaves the disk alone or installs the state that [f]
    computes from the snapshot, whatever fails and wherever the process dies;
    a returned value implies the latter.  [safe] packages what every method of
    the authority preserves, and is closed under sequencing. *)

From S2P Require Import Prelude Text Ids State World AuditWal AuditFacts Store.
From Stdlib Require Import Ascii.

Section store_facts.
  Context {Cdc : Codec} {Env : Environment} {CL : CodecLaws}.

Definition holds (d : Disk) (st : StoredAuthority) : Prop :=
  ∃ t, d_state d = Some t ∧ state_from_json t = inr st ∧ au_schema_version st = SCHEMA_VERSION.

Lemma holds_det d st st' : holds d st → holds d st' → st = st'.
Proof. intros (t & Ht & Hp & _) (t' & Ht' & Hp' & _). congruence. Qed.

Lemma holds_same_state d d' st : d_state d' = d_state d → holds d' st ↔ holds d st.
Proof. unfold holds. by intros ->. Qed.

(** ** Fingerprint comparison *)

Lemma ct_diff_zero a b d :
  String.length a = String.length b → ct_diff a b d = 0%Z ↔ d = 0%Z ∧ a = b.
Proof.
  revert b d. induction a as [|x a IH]; intros [|y b] d Hl; try done; simpl; [naive_solver|].
  rw IH; [|by injection Hl]. rw Z.lor_eq_0_iff Z.lxor_eq_0_iff.
  split; [|naive_solver]. intros [[-> Hxy] ->]. split; [done|]. f_equal.
  unfold byte_val in Hxy. apply N2Z.inj in Hxy.
  by rw -(ascii_N_embedding x) -(ascii_N_embedding y) Hxy.
Qed.

Lemma constant_time_eq_true a b : constant_time_eq a b = true → a = b.
Proof.
  unfold constant_time_eq. case_decide as Hl; [done|]. intros H%bool_decide_eq_true.
  by apply ct_diff_zero in H as [_ ?].
Qed.

(** ** Reads *)

Lemma RO_store_lock : RO store_lock (λ _ _, True).
Proof. ro_seq RO_io. intros ?. by ro_end RO_io. Qed.

Lemma check_schema_inr st st' :
  check_schema st = inr st' ↔ st' = st ∧ au_schema_version st = SCHEMA_VERSION.
Proof. unfold check_schema. case_decide; naive_solver. Qed.

Lemma RO_read_state :
  RO read_state (λ w o, match o with
                        | None => d_state (w_disk w) = None
                        | Some st => holds (w_disk w) st
                        end).
Proof.
  ro_seq RO_io. intros ?. ro_seq RO_gets. intros [t|].
  - ro_seq RO_lift_json. intros st. ro_seq RO_lift_res. intros st'. ro_end RO_ret.
    intros w o -> [-> Hs]%check_schema_inr Hp Ht _. by exists t.
  - ro_end RO_ret. naive_solver.
Qed.

Lemma RO_read {A} (f : StoredAuthority → Res A) :
  RO (read f) (λ w a, ∃ st, holds (w_disk w) st ∧ f st = inr a).
Proof.
  ro_seq RO_store_lock. intros ?. ro_seq RO_read_state. intros o.
  ro_seq RO_lift_res. intros st. ro_end RO_lift_res.
  intros w r Hf ->%ok_or_inr Hst _. by exists st.
Qed.

(** ** Writes *)

(** The transaction [f], run on the snapshot of [w] and made durable. *)
Definition committed_by {A} (f : Tx A) (w : World) (a : A) (w' : World) : Prop :=
  ∃ st m n s t, holds (w_disk w) st ∧ f {| tx_auth := st; tx_tick := m |} = inr (a, s) ∧
    state_to_json (tx_auth s) = inr t ∧
    w' = set_disk (set_tick w n) (set_d_state (w_disk w) (Some t)).

Lemma wp_persist st w Q :
  (∀ n t, state_to_json st = inr t →
     ∀ o, (∀ u, o = Done u → u = ()) →
       Q o (set_disk (set_tick w n) (set_d_state (w_disk w) (Some t)))) →
  (∀ n o, (∀ a, o ≠ Done a) → Q o (set_tick w n)) →
  wp (persist st) Q w.
Proof.
  intros Hc Hf. unfold persist.
  ro_step RO_lift_json; [|intros; by apply Hf..]. intros n t Ht.
  do 3 (ro_step RO_io; [|intros; by apply Hf..]; intros ? ? _).
  apply wp_bind, wp_io_commit; [|intros; by apply Hf..]. intros n'.
  ro_step RO_io; [|intros; by apply (Hc _ t Ht)..]. intros ? ? _.
  eapply RO_wp; [apply RO_io|..]; intros; apply (Hc _ t Ht); by intros [] ?.
Qed.

Lemma wp_run_tx {A} (f : Tx A) st w Q :
  (∀ a s, f {| tx_auth := st; tx_tick := w_tick w |} = inr (a, s) →
          Q (Done (a, tx_auth s)) (set_tick w (tx_tick s))) →
  (∀ e, f {| tx_auth := st; tx_tick := w_tick w |} = inl e → Q (Raised e) w) →
  wp (run_tx f st) Q w.
Proof.
  intros Hd Hr. unfold wp, run_tx. destruct (f _) as [e|[a s]]; simpl; auto.
Qed.

(** The refinement: [with_state f] is an atomic step of [f] or a stutter. *)
Lemma wp_with_state {A} (f : Tx A) w :
  wp (with_state f) (λ o w',
    (∃ n, w' = set_tick w n) ∧ (∀ a, o ≠ Done a) ∨
    ∃ a, committed_by f w a w' ∧ ∀ b, o = Done b → b = a) w.
Proof.
  unfold with_state.
  set (Q := λ (o : outcome A) w', _).
  assert (∀ n o, (∀ a, o ≠ Done a) → Q o (set_tick w n)) as H0.
  { intros n o Ho. left. eauto. }
  ro_step RO_store_lock; [|intros; by apply H0..]. intros n u0 _.
  ro_step RO_read_state; [|intros; by apply H0..]. intros n' o Hst.
  ro_step RO_lift_res; [|intros; by apply H0..]. intros n'' st ->%ok_or_inr.
  apply wp_bind, wp_run_tx; [|intros; by apply H0]. intros a s Hf. simpl.
  apply wp_bind, wp_persist; [|intros ? [] Hno; [by edestruct Hno|by apply H0..]].
  intros m t Ht o Ho. assert (∀ o, (∀ b, o = Done b → b = a) →
    Q o (set_disk (set_tick w m) (set_d_state (w_disk w) (Some t)))) as H1.
  { intros o' Ho'. right. exists a. split; [|done]. by eexists st, _, m, s, t. }
  destruct o as [u| |]; simpl; [apply wp_ret|..]; apply H1; naive_solver.
Qed.

Lemma wp_with_state_init {A} fp (f : Tx A) w :
  wp (with_state_init fp f) (λ o w',
    (∃ n, w' = set_tick w n) ∧ (∀ a, o ≠ Done a) ∨
    ∃ a st m n s t,
      (holds (w_disk w) st ∧ constant_time_eq (au_admin_credential_fingerprint st) fp = true ∨
       d_state (w_disk w) = None ∧
       ∃ i, st = StoredAuthority_new (to_hex (k := KPrincipal) (OpaqueId (uuid_v4 i))) fp) ∧
      f {| tx_auth := st; tx_tick := m |} = inr (a, s) ∧ state_to_json (tx_auth s) = inr t ∧
      w' = set_disk (set_tick w n) (set_d_state (w_disk w) (Some t)) ∧
      ∀ b, o = Done b → b = a) w.
Proof.
  unfold with_state_init. set (Q := λ (o : outcome A) w', _).
  assert (∀ n o, (∀ a, o ≠ Done a) → Q o (set_tick w n)) as H0.
  { intros n o Ho. left. eauto. }
  ro_step RO_store_lock; [|intros; by apply H0..]. intros n u0 _.
  ro_step RO_read_state; [|intros; by apply H0..]. intros n' o Hst. simpl in Hst.
  assert (∀ st n',
    (holds (w_disk w) st ∧ constant_time_eq (au_admin_credential_fingerprint st) fp = true ∨
     d_state (w_disk w) = None ∧
     ∃ i, st = StoredAuthority_new (to_hex (k := KPrincipal) (OpaqueId (uuid_v4 i))) fp) →
    wp ('(out, st') ← run_tx f st; _ ← persist st'; mret out) Q (set_tick w n')) as Htail.
  { clear n' o Hst. intros st n' Hst. apply wp_bind, wp_run_tx; [|intros; by apply H0].
    intros a s Hf. simpl. apply wp_bind, wp_persist; [|intros ? [] Hno; [by edestruct Hno|by apply H0..]].
    intros m t Ht o Ho. assert (∀ o, (∀ b, o = Done b → b = a) →
      Q o (set_disk (set_tick w m) (set_d_state (w_disk w) (Some t)))) as H1.
    { intros o' Ho'. right. by eexists a, st, _, m, s, t. }
    destruct o as [u| |]; simpl; [apply wp_ret|..]; apply H1; naive_solver. }
  destruct o as [st|]; cbn [post_bind].
  - destruct (constant_time_eq (au_admin_credential_fingerprint st) fp) eqn:He;
      [apply wp_bind_ret|by apply wp_bind_raise, H0].
    apply Htail. by left.
  - apply wp_bind. ro_step RO_mint; [|intros; by apply H0..]. intros n'' id [i ->].
    apply wp_ret. simpl. apply Htail. right. eauto.
Qed.

(** ** Relations on disks that every effect of a call respects *)

Section moves.
  Context (R : Disk → Disk → Prop) {RP : PreOrder R}.

Definition moves {A} (m : M A) : Prop := ∀ w, R (w_disk w) (w_disk (m w).2).

Lemma moves_bind {A B} (m : M A) (f : A → M B) :
  moves m → (∀ a, moves (f a)) → moves (m ≫= f).
Proof.
  intros Hm Hf w. unfold mbind, M_bind. pose proof (Hm w) as Hw.
  destruct (m w) as [[a| |] w']; simpl in *; [|done..]. etrans; [exact Hw|apply Hf].
Qed.

Lemma moves_RO {A} (m : M A) φ : RO m φ → moves m.
Proof. intros Hm w. destruct (Hm w) as (n & -> & _). reflexivity. Qed.

Lemma moves_put_audit a : moves (put_audit a).
Proof. intros w. reflexivity. Qed.

Lemma moves_commit f : (∀ d, R d (f d)) → moves (io_commit f).
Proof.
  intros Hf. apply moves_bind; [eapply moves_RO, RO_io|]. intros _ w. apply Hf.
Qed.

Lemma moves_replay : moves replay.
Proof.
  apply moves_bind; [eapply moves_RO, RO_read_log|]. intros [t|];
    [|eapply moves_RO, RO_ret].
  apply moves_bind; [eapply moves_RO, RO_gets|]. intros a.
  destruct (replay_lines _ _ _) as [[seq prev] damage].
  apply moves_bind; [apply moves_put_audit|]. intros _.
  apply moves_bind.
  { destruct (match damage with Some _ => _ | None => _ end); [eapply moves_RO, RO_ret|].
    apply moves_bind; [eapply moves_RO, RO_head_matches|]. intros [];
      [eapply moves_RO, RO_ret|apply moves_put_audit]. }
  intros _. apply moves_bind; [eapply moves_RO, RO_current_len|]. intros len.
  apply moves_bind; [eapply moves_RO, RO_gets|]. intros ?. apply moves_put_audit.
Qed.

Lemma moves_refresh : moves refresh_if_stale.
Proof.
  apply moves_bind; [eapply moves_RO, RO_current_len|]. intros len.
  apply moves_bind; [eapply moves_RO, RO_gets|]. intros a. case_decide.
  - apply moves_bind; [apply moves_put_audit|]. intros _. apply moves_replay.
  - apply moves_bind; [eapply moves_RO, RO_verify_chain_unlocked|].
    intros []; [eapply moves_RO, RO_ret|apply moves_put_audit].
Qed.

Context (Happ : ∀ d s, R d (set_d_log d (Some (default "" (d_log d) +:+ s)))).
Context (Hcreate : ∀ d, R d (set_d_log d (Some (default "" (d_log d))))).
Context (Hhead : ∀ d t, R d (set_d_head d t)).

Lemma moves_append_log buf : moves (io_append_log buf).
Proof.
  intros w. unfold io_append_log, io_write, tick, mbind, M_bind. simpl.
  destruct (io_event (w_tick w)); apply Happ.
Qed.

Lemma moves_write_record a r line : moves (write_record a r line).
Proof.
  unfold write_record, persist_head.
  repeat first
    [ apply moves_append_log | apply moves_put_audit | apply moves_commit
    | (eapply moves_RO, RO_io) | (eapply moves_RO, RO_lift_json)
    | (eapply moves_RO, RO_current_len) | (eapply moves_RO, RO_ret)
    | apply moves_bind; [|intros ?] ]; auto.
Qed.

Lemma moves_append epoch event : moves (append epoch event).
Proof.
  apply moves_bind; [eapply moves_RO, RO_audit_lock|]. intros _.
  apply moves_bind; [apply moves_refresh|]. intros _.
  apply moves_bind; [eapply moves_RO, RO_gets|]. intros a.
  destruct (al_damaged a); [eapply moves_RO, RO_raise|].
  apply moves_bind; [eapply moves_RO, RO_lift_res|]. intros seq.
  apply moves_bind; [eapply moves_RO, RO_clock|]. intros now.
  apply moves_bind; [eapply moves_RO, RO_lift_json|]. intros line.
  apply moves_write_record.
Qed.

End moves.

(** ** What every method preserves *)

(** The text of the log only grows at its end. *)
Definition grows (d d' : Disk) : Prop := ∃ s, log_text d' = log_text d +:+ s.

Lemma grows_refl d : grows d d.
Proof. exists "". by rw string_app_nil_r. Qed.

Lemma grows_trans a b c : grows a b → grows b c → grows a c.
Proof. intros [s Hs] [t Ht]. exists (s +:+ t). by rw Ht Hs string_app_assoc. Qed.

#[global] Instance grows_preorder : PreOrder grows.
Proof. split; [intros d; apply grows_refl|intros a b c; apply grows_trans]. Qed.

Lemma grows_room d d' : grows d d' → log_room d' → log_room d.
Proof.
  intros [s Hs]. unfold log_room, log_len. rw Hs string_length_app. lia.
Qed.

Context (wf : StoredAuthority → Prop).

Definition Inv (w : World) : Prop :=
  audit_inv w ∧ ∀ st, holds (w_disk w) st → wf st.

(** Every intact log after the call extends an intact log before it. *)
Definition append_only (d d' : Disk) : Prop :=
  ∀ rs', intact d' rs' → ∃ rs, intact d rs ∧ rs `prefix_of` rs'.

Definition evolves (w w' : World) : Prop :=
  grows (w_disk w) (w_disk w') ∧
  (log_room (w_disk w') → Inv w → Inv w' ∧ append_only (w_disk w) (w_disk w')).

Lemma append_only_refl d : append_only d d.
Proof. intros rs ?. eauto. Qed.

Lemma evolves_trans w1 w2 w3 : evolves w1 w2 → evolves w2 w3 → evolves w1 w3.
Proof.
  intros [Hg1 H1] [Hg2 H2]. split; [by eapply grows_trans|]. intros Hr Hi.
  destruct H1 as [Hi2 Ha1]; [by eapply grows_room|done|]. destruct (H2 Hr Hi2) as [? Ha2].
  split; [done|]. intros rs'' (rs' & Hrs' & ?)%Ha2. apply Ha1 in Hrs' as (rs & ? & ?).
  exists rs. split; [done|]. by etrans.
Qed.

Lemma evolves_tick w n : evolves w (set_tick w n).
Proof. split; [apply grows_refl|]. intros _ Hi. split; [done|apply append_only_refl]. Qed.

Definition safe {A} (m : M A) : Prop := ∀ w, evolves w (m w).2.

Lemma safe_bind {A B} (m : M A) (f : A → M B) : safe m → (∀ a, safe (f a)) → safe (m ≫= f).
Proof.
  intros Hm Hf w. unfold mbind, M_bind. pose proof (Hm w) as Hw.
  destruct (m w) as [[a| |] w']; simpl in *; [|done..]. eapply evolves_trans; [exact Hw|apply Hf].
Qed.

Lemma safe_RO {A} (m : M A) φ : RO m φ → safe m.
Proof. intros Hm w. destruct (Hm w) as (n & -> & _). apply evolves_tick. Qed.

Lemma safe_attempt {A} (m : M A) : safe m → safe (attempt_ m).
Proof. intros Hm w. pose proof (Hm w). unfold attempt_. by destruct (m w) as [[]]. Qed.

Lemma safe_ret {A} (a : A) : safe (mret a).
Proof. eapply safe_RO, RO_ret. Qed.
Lemma safe_raise {A} e : safe (@raise _ A e).
Proof. eapply safe_RO, RO_raise. Qed.

(** A transaction that preserves the invariant of the snapshot. *)
Definition tx_wf {A} (f : Tx A) : Prop :=
  ∀ s a s', wf (tx_auth s) → f s = inr (a, s') → wf (tx_auth s').

Lemma safe_with_state {A} (f : Tx A) : tx_wf f → safe (with_state f).
Proof.
  intros Hf. intros w. pose proof (wp_with_state f w) as Hw. unfold wp in Hw.
  destruct Hw as [[[n ->] _]|(a & (st & m & n & s & t & Hst & Hfs & Ht & ->) & _)];
    [apply evolves_tick|].
  split; [by exists ""; rw string_app_nil_r|]. intros _ [[Hl Hc] Hwf].
  split; [|intros rs' Hrs'; by exists rs']. split; [split; [exact Hl|exact Hc]|].
  intros st' (t' & [= <-] & Hp & _). apply state_json_roundtrip in Ht.
  assert (st' = tx_auth s) as -> by congruence. eapply Hf; [|done]. by apply Hwf.
Qed.

Lemma log_same_append_only d d' : log_inv d → log_same d d' → append_only d d'.
Proof. intros Hi Hs rs' ?. exists rs'. split; [by eapply log_same_intact|done]. Qed.

Lemma append_post_evolves w epoch event o w' :
  (log_room (w_disk w) → audit_inv w → append_post w epoch event o w') →
  grows (w_disk w) (w_disk w') → evolves w w'.
Proof.
  intros Hp Hg. split; [done|]. intros Hr [Ha Hwf].
  destruct Hp as (Hst & _ & Ha' & Ho); [by eapply grows_room|done|].
  split.
  - split; [done|]. intros st. rw holds_same_state //. apply Hwf.
  - assert (append_failed epoch event (w_disk w) (w_disk w')) as Hf.
    { destruct o as [r| |]; [|done..]. destruct Ho as (rs & ? & (? & _) & ? & ?).
      right; left. by exists rs, r. }
    destruct Hf as [Hs|[(rs & r & ? & Hi' & _)|[_ Hb]]].
    + apply log_same_append_only; [apply Ha|done].
    + intros rs' Hrs'. exists rs. split; [done|]. rw (intact_det _ _ _ Hrs' Hi').
      by apply prefix_app_r.
    + intros rs' ?%Hb. done.
Qed.

(** *** Appending *)

Definition log_grows {A} (m : M A) : Prop := moves grows m.

Lemma log_grows_bind {A B} (m : M A) (f : A → M B) :
  log_grows m → (∀ a, log_grows (f a)) → log_grows (m ≫= f).
Proof. apply moves_bind, _. Qed.

Lemma log_grows_RO {A} (m : M A) φ : RO m φ → log_grows m.
Proof. apply moves_RO, _. Qed.

Lemma log_grows_append epoch event : log_grows (append epoch event).
Proof.
  apply moves_append; try apply _.
  - intros d t. by exists t.
  - intros d. exists "". by rw string_app_nil_r.
  - intros d t. exists "". by rw string_app_nil_r.
Qed.

Lemma safe_append epoch event : safe (append epoch event).
Proof.
  intros w. eapply append_post_evolves; [|apply log_grows_append].
  intros Hr Hi. by apply (wp_append epoch event w).
Qed.

Lemma safe_append_audit epoch event : safe (append_audit epoch event).
Proof.
  apply safe_bind; [eapply safe_RO, RO_gets|]. intros []; [apply safe_raise|].
  apply safe_bind; [apply safe_append|]. intros _. apply safe_ret.
Qed.

Lemma log_grows_with_state {A} (f : Tx A) : log_grows (with_state f).
Proof.
  intros w. pose proof (wp_with_state f w) as Hw. unfold wp in Hw.
  destruct Hw as [[[n ->] _]|(a & (st & m & n & s & t & Hst & Hfs & Ht & ->) & _)];
    [apply grows_refl|]. by exists ""; rw string_app_nil_r.
Qed.

Lemma log_grows_append_audit epoch event : log_grows (append_audit epoch event).
Proof. intros w. apply safe_append_audit. Qed.

(** A step whose result satisfies [φ] when it starts from the invariant. *)
Lemma safe_bind_inv {A B} (m : M A) (f : A → M B) (φ : A → Prop) w :
  safe m → (∀ w a w', Inv w → m w = (Done a, w') → φ a) →
  (∀ a, φ a → safe (f a)) → (∀ a, log_grows (f a)) → evolves w ((m ≫= f) w).2.
Proof.
  intros Hm Hφ Hf Hg. unfold mbind, M_bind. pose proof (Hm w) as [Hgr Hw].
  destruct (m w) as [[a| |] w'] eqn:E; simpl in *; [|done..].
  split; [eapply grows_trans; [exact Hgr|apply Hg]|]. intros Hr Hi.
  destruct (Hw (grows_room _ _ (Hg a w') Hr) Hi) as [Hi' Ha'].
  destruct (Hf a (Hφ _ _ _ Hi E) w') as [_ Hf']. destruct (Hf' Hr Hi') as [? Ha].
  split; [done|]. intros rs'' (rs' & Hrs' & ?)%Ha. apply Ha' in Hrs' as (rs & ? & ?).
  exists rs. split; [done|]. by etrans.
Qed.

Lemma RO_lock_attempt_lifecycle :
  RO lock_attempt_lifecycle (λ w _, w_lifecycle_poisoned w = false).
Proof.
  ro_seq RO_gets. intros []; [ro_end RO_raise|ro_end RO_ret]; naive_solver.
Qed.

End store_facts.

(** [solve_safe]: descend through binds and branches; the leaves are the [safe]
    and [RO] lemmas of the database, and a transaction leaves its [tx_wf]. *)
Create HintDb safe.
#[export] Hint Resolve safe_append_audit safe_ret safe_raise : safe.
#[export] Hint Extern 1 (safe _ (read _)) => eapply safe_RO, RO_read : safe.
#[export] Hint Extern 1 (safe _ (lift_res _)) => eapply safe_RO, RO_lift_res : safe.
#[export] Hint Extern 1 (safe _ mint) => eapply safe_RO, RO_mint : safe.
#[export] Hint Extern 1 (safe _ unix_time_millis) => eapply safe_RO, RO_clock : safe.
#[export] Hint Extern 1 (safe _ io) => eapply safe_RO, RO_io : safe.
#[export] Hint Extern 1 (safe _ lock_attempt_lifecycle) =>
  eapply safe_RO, RO_lock_attempt_lifecycle : safe.

Ltac solve_safe :=
  repeat first
    [ solve [eauto with safe nocore]
    | lazymatch goal with
      | |- safe _ (_ ≫= _) => apply safe_bind
      | |- safe _ (attempt_ _) => apply safe_attempt
      | |- safe _ (with_state _) => apply safe_with_state
      | |- safe _ (if ?b then _ else _) => destruct b
      | |- safe _ (match ?x with _ => _ end) => destruct x
      | |- safe _ (let _ := _ in _) => cbv zeta
      | |- ∀ _, safe _ _ => intros ?
      end ].
