(* ===== verification/Gates.v ===== *)
(** * Gates 2, 3 and 4

    Models [crates/common/xai-host-authority/src/gates.rs], with
    [absorb_settlement_for_reconciled_attempt] of [reconciliation.rs]: sealed
    capabilities and one-use leases, the physical-send attempt lattice,
    settlement, replay of the write-ahead log and crash recovery, and the
    scoped projections.  A closure given to [with_state] is a definition of its
    own, suffixed [_tx]. *)

From S2P Require Import Prelude Text Ids State World AuditWal Store.

(** [Option<Result<UncertainReason, FailedReason>>] of [settle]. *)
Abbreviation settle_detail := (option (sum FailedReason UncertainReason)).

Section gates.
  Context {Cdc : Codec} {Env : Environment}.

(** ** Replay of the write-ahead log *)

Definition outcome_state (outcome : string) : Res string :=
  if decide (outcome = "settled") then inr STATE_SETTLED
  else if decide (outcome = "failed") then inr STATE_FAILED
  else if decide (outcome = "uncertain") then inr STATE_UNCERTAIN
  else inl (CorruptState ("unknown audited attempt outcome " +:+ outcome)).

Definition truth_state (truth : string) : Res string :=
  if decide (truth = "took_effect") then inr STATE_SETTLED
  else if decide (truth = "no_effect") then inr STATE_FAILED
  else if decide (truth = "discarded") then inr STATE_DISCARDED
  else inl (CorruptState ("unknown audited reconciliation truth " +:+ truth)).

(** The two maps the first loop builds, keyed by public handle: the state and
    detail to install, and the reconciliation truth already seen. *)
Record ReplayAcc := {
  ra_outcomes : gmap string (string * string);
  ra_truths : gmap string string;
}.

Definition replay_event (acc : ReplayAcc) (event : AuditEvent) : Res ReplayAcc :=
  match event with
  | EvSendOutcome attempt outcome detail =>
      state ← outcome_state outcome;
      match ra_outcomes acc !! attempt with
      | Some (_, existing) =>
          if starts_with "reconciled" existing then inr acc
          else inr {| ra_outcomes := <[attempt := (state, detail)]> (ra_outcomes acc);
                      ra_truths := ra_truths acc |}
      | None => inr {| ra_outcomes := <[attempt := (state, detail)]> (ra_outcomes acc);
                       ra_truths := ra_truths acc |}
      end
  | EvAttemptReconciled attempt truth =>
      state ← truth_state truth;
      truths ← match ra_truths acc !! attempt with
               | Some existing =>
                   if decide (existing ≠ truth) then
                     inl (CorruptState "conflicting reconciliation audit records for one attempt")
                   else inr (ra_truths acc)
               | None => inr (<[attempt := truth]> (ra_truths acc))
               end;
      inr {| ra_outcomes := <[attempt := (state, "reconciled")]> (ra_outcomes acc);
             ra_truths := truths |}
  | _ => inr acc
  end.

Fixpoint replay_events (acc : ReplayAcc) (records : list AuditRecord) : Res ReplayAcc :=
  match records with
  | [] => inr acc
  | r :: rs => acc ← replay_event acc (ar_event r); replay_events acc rs
  end.

(** [by_handle]: from public handle to key; a collision is an error. *)
Fixpoint index_keys (keys : list string) (by_handle : gmap string string)
    : Res (gmap string string) :=
  match keys with
  | [] => inr by_handle
  | key :: keys =>
      attempt ← decode_id (k := KAttempt) key "attempt";
      match by_handle !! public_handle attempt with
      | Some _ => inl (CorruptState "attempt public-handle collision")
      | None => index_keys keys (<[public_handle attempt := key]> by_handle)
      end
  end.

Definition attempt_index (st : StoredAuthority) : Res (gmap string string) :=
  index_keys (btree_iter (au_attempts st)).*1 ∅.

Definition indexed_attempt (by_handle : gmap string string) (st : StoredAuthority)
    (handle : string) : Res (string * StoredAttempt) :=
  key ← ok_or (CorruptState ("audit outcome references unknown attempt " +:+ handle))
          (by_handle !! handle);
  attempt ← ok_or (CorruptState "attempt index changed during replay") (au_attempts st !! key);
  inr (key, attempt).

(** The loop of the read closure, with its early [return Ok(true)]. *)
Fixpoint replay_pending (by_handle : gmap string string) (st : StoredAuthority)
    (outcomes : list (string * (string * string))) : Res bool :=
  match outcomes with
  | [] => inr false
  | (handle, (outcome, detail)) :: rest =>
      '(_, attempt) ← indexed_attempt by_handle st handle;
      if decide (at_state attempt ≠ outcome ∨ at_settlement attempt ≠ Some detail) then inr true
      else replay_pending by_handle st rest
  end.

Definition needs_replay (outcomes : gmap string (string * string)) (st : StoredAuthority)
    : Res bool :=
  by_handle ← attempt_index st;
  replay_pending by_handle st (btree_iter outcomes).

(** The loop of the write closure. *)
Fixpoint apply_outcomes (by_handle : gmap string string)
    (outcomes : list (string * (string * string))) (st : StoredAuthority)
    : Res StoredAuthority :=
  match outcomes with
  | [] => inr st
  | (handle, (outcome, detail)) :: rest =>
      '(key, attempt) ← indexed_attempt by_handle st handle;
      apply_outcomes by_handle rest
        (set_attempts st (<[key := set_attempt_state attempt outcome (Some detail)]>
                            (au_attempts st)))
  end.

Definition apply_replay (outcomes : gmap string (string * string)) (st : StoredAuthority)
    : Res StoredAuthority :=
  by_handle ← attempt_index st;
  apply_outcomes by_handle (btree_iter outcomes) st.

(** The audit mutex is taken for the reads of the log. *)
Definition lock_audit : M unit :=
  poisoned ← gets w_audit_poisoned;
  if poisoned : bool then raise (Durability "audit log lock poisoned") else mret ().

Definition replay_attempt_settlements_locked : M unit :=
  _ ← lock_audit;
  ok ← verify_chain;
  if negb ok then mret ()
  else
    rs ← records;
    acc ← lift_res (replay_events {| ra_outcomes := ∅; ra_truths := ∅ |} rs);
    let outcomes := ra_outcomes acc in
    if decide (outcomes = ∅) then mret ()
    else
      pending ← read (needs_replay outcomes);
      if negb pending then mret ()
      else with_state (
        st ← tx_get;
        st' ← tx_res (apply_replay outcomes st);
        tx_put st').

Definition replay_attempt_settlements : M unit :=
  _ ← lock_attempt_lifecycle;
  replay_attempt_settlements_locked.

(** ** Gate 2: sealed capabilities and leases *)

Definition new_capability (binding : AuthorityBinding) (id : CapabilityId) (actor : ActorClass)
    (effect : EffectClass) (expires_at_ms : Z) : StoredCapability := {|
  cp_capability_id := to_hex id;
  cp_principal := to_hex (ab_principal binding);
  cp_credential_incarnation := to_hex (ab_incarnation binding);
  cp_auth_generation := ab_auth_generation binding;
  cp_capability_generation := ab_capability_generation binding;
  cp_policy_revision := ab_policy_revision binding;
  cp_session := to_hex (ab_session binding);
  cp_workspace := to_hex (ab_workspace binding);
  cp_resource := to_hex (ab_resource binding);
  cp_control_epoch := ab_control_epoch binding;
  cp_actor := actor_as_str actor;
  cp_effect := effect_as_str effect;
  cp_expires_at_ms := expires_at_ms;
  cp_consumed := false;
|}.

Definition seal_capability_tx (auth : AuthContext) (resource : ResourceIncarnation)
    (actor : ActorClass) (effect : EffectClass) (expires_at_ms : Z) : Tx SealedCapability :=
  st ← tx_get;
  _ ← tx_res (require_current_state st auth);
  record ← tx_res (ok_or deny_resource_access (au_resources st !! to_hex resource));
  binding ← tx_res (binding_from_resource st auth record);
  id ← tx_mint (k := KCapability);
  _ ← tx_put (set_capabilities st
        (<[to_hex id := new_capability binding id actor effect expires_at_ms]>
           (au_capabilities st)));
  mret {| sl_id := id; sl_binding := binding; sl_actor := actor; sl_effect := effect;
          sl_expires_at_ms := expires_at_ms |}.

Definition seal_capability (auth : AuthContext) (resource : ResourceIncarnation)
    (actor : ActorClass) (effect : EffectClass) (ttl_ms : Z) : M SealedCapability :=
  if decide (ttl_ms = 0%Z) then raise (Invalid "capability ttl")
  else
    now ← unix_time_millis;
    expires_at_ms ← lift_res (ok_or (Invalid "capability ttl") (checked_add now ttl_ms));
    capability ← with_state (seal_capability_tx auth resource actor effect expires_at_ms);
    _ ← append_audit (ab_control_epoch (sl_binding capability))
          (EvCapabilitySealed (public_handle (sl_id capability))
             (public_handle (ac_principal auth)) (actor_as_str actor) (effect_as_str effect));
    mret capability.

(** The guards of [mint_lease], in order. *)
Definition check_capability (st : StoredAuthority) (auth : AuthContext)
    (capability : SealedCapability) (now : Z) (stored : StoredCapability) : Res unit :=
  let b := sl_binding capability in
  if cp_consumed stored then inl AlreadyConsumed
  else if decide (cp_expires_at_ms stored ≤ now)%Z then inl Expired
  else if decide (cp_capability_generation stored ≠ au_capability_generation st) then
    inl StaleCapability
  else if decide (cp_policy_revision stored ≠ au_policy_revision st) then inl StalePolicy
  else if decide (cp_control_epoch stored ≠ au_control_epoch st) then inl StaleControlEpoch
  else if decide (cp_principal stored ≠ to_hex (ab_principal b)
                  ∨ cp_credential_incarnation stored ≠ to_hex (ab_incarnation b)
                  ∨ cp_policy_revision stored ≠ ab_policy_revision b
                  ∨ cp_session stored ≠ to_hex (ab_session b)
                  ∨ cp_workspace stored ≠ to_hex (ab_workspace b)
                  ∨ cp_resource stored ≠ to_hex (ab_resource b)
                  ∨ cp_effect stored ≠ effect_as_str (sl_effect capability)
                  ∨ cp_actor stored ≠ actor_as_str (sl_actor capability)) then
    inl ResourceOwnershipMismatch
  else if decide (cp_principal stored ≠ to_hex (ac_principal auth)
                  ∨ cp_credential_incarnation stored ≠ to_hex (ac_incarnation auth)) then
    inl ResourceOwnershipMismatch
  else inr ().

Definition new_lease (stored : StoredCapability) (resource : StoredResource) (id : EffectLeaseId)
    (action_digest : ContentDigest) (expires_at_ms : Z) : StoredLease := {|
  ls_lease_id := to_hex id;
  ls_capability_id := cp_capability_id stored;
  ls_principal := cp_principal stored;
  ls_credential_incarnation := cp_credential_incarnation stored;
  ls_auth_generation := cp_auth_generation stored;
  ls_capability_generation := cp_capability_generation stored;
  ls_policy_revision := cp_policy_revision stored;
  ls_session := cp_session stored;
  ls_workspace := cp_workspace stored;
  ls_resource := cp_resource stored;
  ls_control_epoch := cp_control_epoch stored;
  ls_observation_revision := sr_observation_revision resource;
  ls_observation_digest := sr_observation_digest resource;
  ls_action_digest := digest_to_hex action_digest;
  ls_actor := cp_actor stored;
  ls_effect := cp_effect stored;
  ls_expires_at_ms := expires_at_ms;
  ls_consumed := false;
|}.

Definition mint_lease_tx (auth : AuthContext) (capability : SealedCapability)
    (action_digest : ContentDigest) (now expires_at_ms : Z) : Tx EffectLease :=
  st ← tx_get;
  _ ← tx_res (require_current_state st auth);
  stored ← tx_res (ok_or StaleCapability (au_capabilities st !! to_hex (sl_id capability)));
  _ ← tx_res (check_capability st auth capability now stored);
  resource ← tx_res (ok_or deny_resource_access (au_resources st !! cp_resource stored));
  let expires_at_ms := Z.min expires_at_ms (cp_expires_at_ms stored) in
  id ← tx_mint (k := KLease);
  _ ← tx_put (set_leases st
        (<[to_hex id := new_lease stored resource id action_digest expires_at_ms]>
           (au_leases st)));
  observation ← tx_res (decode_digest (sr_observation_digest resource) "observation");
  mret {| el_id := id; el_capability := sl_id capability; el_binding := sl_binding capability;
          el_observation_revision := sr_observation_revision resource;
          el_observation_digest := observation; el_action_digest := action_digest;
          el_actor := sl_actor capability; el_effect := sl_effect capability;
          el_expires_at_ms := expires_at_ms |}.

Definition mint_lease (auth : AuthContext) (capability : SealedCapability)
    (action_digest : ContentDigest) (ttl_ms : Z) : M EffectLease :=
  if decide (ttl_ms = 0%Z) then raise (Invalid "lease ttl")
  else
    now ← unix_time_millis;
    expires_at_ms ← lift_res (ok_or (Invalid "lease ttl") (checked_add now ttl_ms));
    lease ← with_state (mint_lease_tx auth capability action_digest now expires_at_ms);
    _ ← append_audit (ab_control_epoch (el_binding lease))
          (EvLeaseMinted (public_handle (el_id lease)) (public_handle (sl_id capability))
             (digest_handle action_digest) (el_observation_revision lease));
    mret lease.

(** ** Gate 3: the physical-send attempt lattice *)

Definition idempotency_key_for (attempt : AttemptId) : string :=
  "grokptah-" +:+ public_handle attempt.

Definition route_digest_for (route : string) : ContentDigest :=
  of_fields [("provider-route-v1", route)].

Definition wire_idempotency_digest_for (idempotency_key : string) : ContentDigest :=
  of_fields [("wire-idempotency-v1", idempotency_key)].

(** States in which the effect of an attempt is not decided. *)
Definition live_state (s : string) : Prop :=
  s = STATE_PREPARING ∨ s = STATE_SENDING ∨ s = STATE_UNCERTAIN.

#[global] Instance live_state_dec s : Decision (live_state s).
Proof. unfold live_state. apply _. Defined.

(** The loop over prior attempts of [begin_send]. *)
Definition ambiguous_prior (auth : AuthContext) (request_digest_hex : string)
    (st : StoredAuthority) : bool :=
  existsb (λ kv, bool_decide (at_principal kv.2 = to_hex (ac_principal auth)
                              ∧ at_request_digest kv.2 = request_digest_hex
                              ∧ live_state (at_state kv.2)))
    (btree_iter (au_attempts st)).

(** The guards of [begin_send] on the stored lease, in order. *)
Definition check_lease (st : StoredAuthority) (auth : AuthContext) (lease : EffectLease)
    (request_digest : ContentDigest) (now : Z) (stored : StoredLease) : Res unit :=
  let b := el_binding lease in
  if ls_consumed stored then inl AlreadyConsumed
  else if decide (ls_expires_at_ms stored ≤ now)%Z then inl Expired
  else if decide (ls_control_epoch stored ≠ au_control_epoch st) then inl StaleControlEpoch
  else if decide (ls_capability_generation stored ≠ au_capability_generation st) then
    inl StaleCapability
  else if decide (ls_policy_revision stored ≠ au_policy_revision st) then inl StalePolicy
  else if decide (ls_principal stored ≠ to_hex (ac_principal auth)
                  ∨ ls_credential_incarnation stored ≠ to_hex (ac_incarnation auth)
                  ∨ ls_auth_generation stored ≠ ac_auth_generation auth) then
    inl ResourceOwnershipMismatch
  else if decide (ls_session stored ≠ to_hex (ab_session b)) then inl SessionMismatch
  else if decide (ls_workspace stored ≠ to_hex (ab_workspace b)) then inl WorkspaceMismatch
  else if decide (ls_resource stored ≠ to_hex (ab_resource b)) then
    inl ResourceOwnershipMismatch
  else if decide (ls_action_digest stored ≠ digest_to_hex request_digest) then inl DigestMismatch
  else match effect_parse (ls_effect stored) with
       | Some ProviderSend =>
           match actor_parse (ls_actor stored) with
           | None => inl (CorruptState "durable lease actor class is unknown")
           | Some actor =>
               if decide (actor ≠ el_actor lease) then inl ResourceOwnershipMismatch else inr ()
           end
       | Some _ => inl NotPermitted
       | None => inl (CorruptState "durable lease effect class is unknown")
       end.

(** The guards on the parent capability. *)
Definition check_parent (st : StoredAuthority) (now : Z) (c : StoredCapability) : Res unit :=
  if cp_consumed c then inl AlreadyConsumed
  else if decide (cp_expires_at_ms c ≤ now)%Z then inl Expired
  else if decide (cp_capability_generation c ≠ au_capability_generation st
                  ∨ cp_policy_revision c ≠ au_policy_revision st
                  ∨ cp_control_epoch c ≠ au_control_epoch st) then inl StaleCapability
  else inr ().

Definition new_attempt (stored : StoredLease) (attempt : AttemptId) (ordinal : Z)
    (request : RequestIdentity) (route : string) : StoredAttempt := {|
  at_attempt_id := to_hex attempt;
  at_lease_id := ls_lease_id stored;
  at_principal := ls_principal stored;
  at_credential_incarnation := ls_credential_incarnation stored;
  at_auth_generation := ls_auth_generation stored;
  at_capability_generation := ls_capability_generation stored;
  at_policy_revision := ls_policy_revision stored;
  at_session := ls_session stored;
  at_workspace := ls_workspace stored;
  at_resource := ls_resource stored;
  at_control_epoch := ls_control_epoch stored;
  at_request_digest := digest_to_hex (request_digest request);
  at_body_digest := digest_to_hex (request_body_digest request);
  at_actor := ls_actor stored;
  at_ordinal := ordinal;
  at_dialect := request_dialect request;
  at_route_digest := digest_to_hex (route_digest_for route);
  at_idempotency_key := idempotency_key_for attempt;
  at_wire_idempotency_digest :=
    digest_to_hex (wire_idempotency_digest_for (idempotency_key_for attempt));
  at_state := STATE_PREPARING;
  at_settlement := None;
|}.

(** Step 1 of [begin_send]: consume the lease and record the attempt. *)
Definition begin_send_tx (auth : AuthContext) (lease : EffectLease) (request : RequestIdentity)
    (route : string) (now : Z) : Tx (AttemptId * Z) :=
  st ← tx_get;
  _ ← tx_res (require_current_state st auth);
  _ ← tx_res (ensure (negb (ambiguous_prior auth (digest_to_hex (request_digest request)) st))
                AmbiguousPriorAttempt);
  stored ← tx_res (ok_or AlreadyConsumed (au_leases st !! to_hex (el_id lease)));
  _ ← tx_res (check_lease st auth lease (request_digest request) now stored);
  resource ← tx_res (ok_or deny_resource_access (au_resources st !! ls_resource stored));
  if decide (sr_observation_revision resource ≠ ls_observation_revision stored
             ∨ sr_observation_digest resource ≠ ls_observation_digest stored) then
    tx_fail StaleObservation
  else
    capability ← tx_res (ok_or StaleCapability (au_capabilities st !! ls_capability_id stored));
    _ ← tx_res (check_parent st now capability);
    let st := set_capabilities st
      (<[ls_capability_id stored := consume_capability capability]> (au_capabilities st)) in
    let st := set_leases st (delete (to_hex (el_id lease)) (au_leases st)) in
    attempt ← tx_mint (k := KAttempt);
    let ordinal := sr_next_attempt_ordinal resource in
    next ← tx_res (ok_or (Durability "attempt ordinal exhausted") (checked_add ordinal 1));
    let st := set_resources st
      (<[ls_resource stored := set_resource_ordinal resource next]> (au_resources st)) in
    let st := set_attempts st
      (<[to_hex attempt := new_attempt stored attempt ordinal request route]>
         (au_attempts st)) in
    _ ← tx_put st;
    mret (attempt, ordinal).

Definition send_intent (lease : EffectLease) (request : RequestIdentity) (route : string)
    (attempt : AttemptId) (ordinal : Z) : AuditEvent :=
  let b := el_binding lease in
  EvSendIntent (public_handle attempt) (public_handle (el_id lease))
    (public_handle (ab_principal b)) (ab_auth_generation b) (ab_capability_generation b)
    (ab_policy_revision b) (public_handle (ab_session b)) (public_handle (ab_workspace b))
    (public_handle (ab_resource b)) (actor_as_str (el_actor lease)) ordinal
    (request_dialect request) (digest_handle (route_digest_for route))
    (digest_handle (request_digest request)) (digest_handle (request_body_digest request))
    (digest_handle (wire_idempotency_digest_for (idempotency_key_for attempt))).

Definition begin_send (auth : AuthContext) (lease : EffectLease) (request : RequestIdentity)
    (route : string) : M PhysicalSendPermit :=
  _ ← lock_attempt_lifecycle;
  if decide (el_effect lease ≠ ProviderSend) then raise NotPermitted
  else
    now ← unix_time_millis;
    admitted ← attempt_ (with_state (begin_send_tx auth lease request route now));
    match admitted with
    | inl error =>
        _ ← attempt_ (append_audit (ac_control_epoch auth)
              (EvDenied (public_handle (ac_principal auth)) (debug_error error)));
        raise error
    | inr (attempt, ordinal) =>
        _ ← append_audit (ab_control_epoch (el_binding lease))
              (send_intent lease request route attempt ordinal);
        mret {| pm_attempt := attempt; pm_lease := el_id lease; pm_binding := el_binding lease;
                pm_request_digest := request_digest request;
                pm_body_digest := request_body_digest request;
                pm_idempotency_key := idempotency_key_for attempt;
                pm_dialect := request_dialect request; pm_wire_admitted := false |}
    end.

Definition admit_sending_tx (auth : AuthContext) (attempt : AttemptId) : Tx unit :=
  st ← tx_get;
  _ ← tx_res (require_current_state st auth);
  record ← tx_res (ok_or (CorruptState "attempt record vanished")
                     (au_attempts st !! to_hex attempt));
  if decide (at_principal record ≠ to_hex (ac_principal auth)
             ∨ at_credential_incarnation record ≠ to_hex (ac_incarnation auth)
             ∨ at_auth_generation record ≠ ac_auth_generation auth) then
    tx_fail ResourceOwnershipMismatch
  else if decide (at_capability_generation record ≠ au_capability_generation st
                  ∨ at_policy_revision record ≠ au_policy_revision st
                  ∨ at_control_epoch record ≠ au_control_epoch st) then
    tx_fail StaleCapability
  else if decide (at_state record ≠ STATE_PREPARING) then
    tx_fail (Invalid "attempt is not preparing")
  else tx_put (set_attempts st
         (<[to_hex attempt := set_attempt_state record STATE_SENDING (at_settlement record)]>
            (au_attempts st))).

Definition wire_admit (permit : PhysicalSendPermit) : PhysicalSendPermit := {|
  pm_attempt := pm_attempt permit; pm_lease := pm_lease permit; pm_binding := pm_binding permit;
  pm_request_digest := pm_request_digest permit; pm_body_digest := pm_body_digest permit;
  pm_idempotency_key := pm_idempotency_key permit; pm_dialect := pm_dialect permit;
  pm_wire_admitted := true |}.

Definition admit_sending (auth : AuthContext) (permit : PhysicalSendPermit)
    : M PhysicalSendPermit :=
  if pm_wire_admitted permit then raise (Invalid "attempt already wire-admitted")
  else
    _ ← lock_attempt_lifecycle;
    _ ← with_state (admit_sending_tx auth (pm_attempt permit));
    _ ← append_audit (ab_control_epoch (pm_binding permit))
          (EvSendWireAdmission (public_handle (pm_attempt permit)));
    mret (wire_admit permit).

(** ** Settlement *)

Definition is_operator_reconciled (record : StoredAttempt) : bool :=
  match at_settlement record with
  | Some detail => starts_with "reconciled" detail
  | None => false
  end.

Definition absorb_settlement_for_reconciled_attempt (attempt : AttemptId)
    (record : StoredAttempt) : option SendOutcome :=
  if negb (is_operator_reconciled record) then None
  else if decide (at_state record = STATE_SETTLED) then Some (OutSettled attempt)
  else if decide (at_state record = STATE_FAILED) then
    Some (OutFailed attempt AbandonedBeforeWireAdmission)
  else if decide (at_state record = STATE_DISCARDED) then
    Some (OutUncertain attempt TransportAfterPossibleWrite)
  else if decide (at_state record = STATE_UNCERTAIN) then
    Some (OutUncertain attempt TransportAfterPossibleWrite)
  else None.

Definition detail_text (detail : settle_detail) : string :=
  match detail with
  | None => "response observed"
  | Some (inr reason) => uncertain_debug reason
  | Some (inl reason) => failed_debug reason
  end.

Definition detail_outcome (attempt : AttemptId) (detail : settle_detail) : SendOutcome :=
  match detail with
  | None => OutSettled attempt
  | Some (inr reason) => OutUncertain attempt reason
  | Some (inl reason) => OutFailed attempt reason
  end.

Definition settle_tx (attempt : AttemptId) (durable_state detail : string) : Tx unit :=
  st ← tx_get;
  record ← tx_res (ok_or (CorruptState "attempt record vanished")
                     (au_attempts st !! to_hex attempt));
  tx_put (set_attempts st
    (<[to_hex attempt := set_attempt_state record durable_state (Some detail)]>
       (au_attempts st))).

Definition settle (permit : PhysicalSendPermit) (durable_state outcome_label : string)
    (detail : settle_detail) : M SendOutcome :=
  let attempt := pm_attempt permit in
  locked ← attempt_ lock_attempt_lifecycle;
  match locked with
  | inl _ => mret (OutUncertain attempt LifecycleUnavailableAfterDispatch)
  | inr _ =>
      current ← attempt_ (read (λ st, ok_or (CorruptState "attempt record vanished")
                                        (au_attempts st !! to_hex attempt)));
      match current with
      | inl _ => mret (OutUncertain attempt StateNotDurableAfterDispatch)
      | inr current =>
          match absorb_settlement_for_reconciled_attempt attempt current with
          | Some outcome => mret outcome
          | None =>
              if decide (durable_state = STATE_SETTLED ∧ pm_wire_admitted permit = false) then
                mret (OutUncertain attempt ProtocolAfterPossibleEffect)
              else if decide (durable_state = STATE_UNCERTAIN ∧ pm_wire_admitted permit = false
                              ∧ at_state current ≠ STATE_SENDING) then
                mret (OutFailed attempt AbandonedBeforeWireAdmission)
              else
                audited ← attempt_ (append_audit (ab_control_epoch (pm_binding permit))
                            (EvSendOutcome (public_handle attempt) outcome_label
                               (detail_text detail)));
                match audited with
                | inl _ => mret (OutUncertain attempt AuditNotDurableAfterDispatch)
                | inr _ =>
                    persisted ← attempt_ (with_state
                                  (settle_tx attempt durable_state (detail_text detail)));
                    match persisted with
                    | inl _ => mret (OutUncertain attempt StateNotDurableAfterDispatch)
                    | inr _ => mret (detail_outcome attempt detail)
                    end
                end
          end
      end
  end.

Definition settle_settled (permit : PhysicalSendPermit) : M SendOutcome :=
  settle permit STATE_SETTLED "settled" None.

Definition settle_failed_before_write (permit : PhysicalSendPermit) (reason : FailedReason)
    : M SendOutcome :=
  settle permit STATE_FAILED "failed" (Some (inl reason)).

Definition settle_uncertain (permit : PhysicalSendPermit) (reason : UncertainReason)
    : M SendOutcome :=
  settle permit STATE_UNCERTAIN "uncertain" (Some (inr reason)).

(** ** Crash recovery *)

Definition keys_in_state (s : string) (st : StoredAuthority) : list string :=
  (filter (λ kv, at_state kv.2 = s) (btree_iter (au_attempts st))).*1.

(** One of the two audit loops of [recover_incomplete]. *)
Fixpoint recover_audit (epoch : Z) (outcome detail : string) (keys : list string) : M unit :=
  match keys with
  | [] => mret ()
  | key :: keys =>
      id ← lift_res (decode_id (k := KAttempt) key "attempt");
      _ ← append_audit epoch (EvSendOutcome (public_handle id) outcome detail);
      recover_audit epoch outcome detail keys
  end.

(** One of the two update loops of [recover_incomplete]. *)
Fixpoint recover_keys (from to detail : string) (keys : list string) : Tx (list AttemptId) :=
  match keys with
  | [] => mret []
  | key :: keys =>
      id ← tx_res (decode_id (k := KAttempt) key "attempt");
      st ← tx_get;
      record ← tx_res (ok_or (CorruptState "attempt record vanished during recovery")
                         (au_attempts st !! key));
      if decide (at_state record = from) then
        _ ← tx_put (set_attempts st
              (<[key := set_attempt_state record to (Some detail)]> (au_attempts st)));
        ids ← recover_keys from to detail keys;
        mret (id :: ids)
      else recover_keys from to detail keys
  end.

Definition recover_tx (preparing sending : list string) : Tx (list AttemptId) :=
  ids1 ← recover_keys STATE_PREPARING STATE_FAILED
           (failed_debug AbandonedBeforeWireAdmission) preparing;
  ids2 ← recover_keys STATE_SENDING STATE_UNCERTAIN
           (uncertain_debug CrashBetweenDispatchAndSettlement) sending;
  mret (ids1 ++ ids2).

Definition recover_incomplete (h : HostAuthority) (admin : HostAdminAuthority)
    : M (list AttemptId) :=
  _ ← lift_res (require_admin h admin);
  _ ← lock_attempt_lifecycle;
  _ ← replay_attempt_settlements_locked;
  '(preparing, sending) ←
    read (λ st, inr (keys_in_state STATE_PREPARING st, keys_in_state STATE_SENDING st));
  epoch ← read (λ st, inr (au_control_epoch st));
  _ ← recover_audit epoch "failed" (failed_debug AbandonedBeforeWireAdmission) preparing;
  _ ← recover_audit epoch "uncertain"
        (uncertain_debug CrashBetweenDispatchAndSettlement) sending;
  if decide (preparing = [] ∧ sending = []) then mret []
  else with_state (recover_tx preparing sending).

Fixpoint decode_keys (keys : list string) : Res (list AttemptId) :=
  match keys with
  | [] => inr []
  | key :: keys =>
      id ← decode_id key "attempt";
      ids ← decode_keys keys;
      inr (id :: ids)
  end.

Definition ambiguous_attempts (h : HostAuthority) (admin : HostAdminAuthority)
    : M (list AttemptId) :=
  _ ← lift_res (require_admin h admin);
  read (λ st, decode_keys
    (filter (λ kv, at_state kv.2 = STATE_SENDING ∨ at_state kv.2 = STATE_UNCERTAIN)
       (btree_iter (au_attempts st))).*1).

Definition LEGACY_RECONCILE_ATTEMPT_RETIRED : string :=
  "legacy reconcile_attempt is retired; use mint_reconciliation_grant and apply_reconciliation".

Definition reconcile_attempt (h : HostAuthority) (admin : HostAdminAuthority)
    (attempt : AttemptId) (took_effect : bool) : M unit :=
  raise (Invalid LEGACY_RECONCILE_ATTEMPT_RETIRED).

(** ** Projections *)

Record AttemptProjection := {
  ap_attempt : string;
  ap_state : string;
  ap_ordinal : Z;
  ap_request_digest : string;
  ap_body_digest : string;
  ap_settled : bool;
  ap_ambiguous : bool;
  ap_session : string;
  ap_workspace : string;
  ap_dialect : string;
  ap_route : string;
  ap_revision : string;
  ap_auth_generation : Z;
  ap_capability_generation : Z;
  ap_policy_revision : Z;
}.

Definition revision_fields (attempt : AttemptId) (record : StoredAttempt)
    : list (string * string) :=
  [("attempt-revision-v1", to_hex attempt); ("state", at_state record);
   ("settlement", default "" (at_settlement record));
   ("ordinal", to_le_bytes (at_ordinal record)); ("dialect", at_dialect record);
   ("route", at_route_digest record);
   ("auth_generation", to_le_bytes (at_auth_generation record));
   ("capability_generation", to_le_bytes (at_capability_generation record));
   ("policy_revision", to_le_bytes (at_policy_revision record))].

Definition attempt_revision (attempt : AttemptId) (record : StoredAttempt) : ContentDigest :=
  of_fields (revision_fields attempt record).

Definition project_stored_attempt (attempt : AttemptId) (record : StoredAttempt)
    : Res AttemptProjection :=
  session ← decode_id (k := KSession) (at_session record) "session";
  workspace ← decode_id (k := KWorkspace) (at_workspace record) "workspace";
  route ← decode_digest (at_route_digest record) "route";
  request ← decode_digest (at_request_digest record) "request";
  body ← decode_digest (at_body_digest record) "body";
  inr {| ap_attempt := public_handle attempt; ap_state := at_state record;
         ap_ordinal := at_ordinal record; ap_request_digest := digest_handle request;
         ap_body_digest := digest_handle body;
         ap_settled := bool_decide (at_state record ≠ STATE_PREPARING
                                    ∧ at_state record ≠ STATE_SENDING);
         ap_ambiguous := bool_decide (at_state record = STATE_UNCERTAIN);
         ap_session := public_handle session; ap_workspace := public_handle workspace;
         ap_dialect := at_dialect record; ap_route := digest_handle route;
         ap_revision := digest_handle (attempt_revision attempt record);
         ap_auth_generation := at_auth_generation record;
         ap_capability_generation := at_capability_generation record;
         ap_policy_revision := at_policy_revision record |}.

Definition attempt_in_scope (record : StoredAttempt) (auth : AuthContext) (session : SessionId)
    (workspace : WorkspaceId) : bool :=
  bool_decide (at_principal record = to_hex (ac_principal auth)
               ∧ at_session record = to_hex session
               ∧ at_workspace record = to_hex workspace).

(** The loop of [find_attempt_by_handle]. *)
Fixpoint find_handle (handle : string) (found : option (AttemptId * StoredAttempt))
    (kvs : list (string * StoredAttempt)) : Res (option (AttemptId * StoredAttempt)) :=
  match kvs with
  | [] => inr found
  | (key, record) :: kvs =>
      attempt ← decode_id (k := KAttempt) key "attempt";
      if decide (public_handle attempt = handle) then
        match found with
        | Some _ => inl (CorruptState "attempt public-handle collision")
        | None => find_handle handle (Some (attempt, record)) kvs
        end
      else find_handle handle found kvs
  end.

Definition find_attempt_by_handle (st : StoredAuthority) (handle : string)
    : Res (option (AttemptId * StoredAttempt)) :=
  find_handle handle None (btree_iter (au_attempts st)).

Definition attempt_projection (auth : AuthContext) (attempt : AttemptId)
    : M (option AttemptProjection) :=
  read (λ st,
    _ ← require_current_state st auth;
    match au_attempts st !! to_hex attempt with
    | None => inr None
    | Some record =>
        if decide (at_principal record ≠ to_hex (ac_principal auth)
                   ∨ at_credential_incarnation record ≠ to_hex (ac_incarnation auth)) then
          inr None
        else p ← project_stored_attempt attempt record; inr (Some p)
    end).

Fixpoint project_scoped (auth : AuthContext) (session : SessionId) (workspace : WorkspaceId)
    (kvs : list (string * StoredAttempt)) : Res (list AttemptProjection) :=
  match kvs with
  | [] => inr []
  | (key, record) :: kvs =>
      if negb (attempt_in_scope record auth session workspace) then
        project_scoped auth session workspace kvs
      else
        attempt ← decode_id (k := KAttempt) key "attempt";
        p ← project_stored_attempt attempt record;
        ps ← project_scoped auth session workspace kvs;
        inr (p :: ps)
  end.

(** [sort_by]: a stable sort by ordinal, then by handle. *)
Definition projection_le (a b : AttemptProjection) : Prop :=
  (ap_ordinal a < ap_ordinal b)%Z ∨
  (ap_ordinal a = ap_ordinal b ∧ String.le (ap_attempt a) (ap_attempt b)).

#[global] Instance projection_le_dec a b : Decision (projection_le a b).
Proof. unfold projection_le. apply _. Defined.

Fixpoint insert_projection (p : AttemptProjection) (ps : list AttemptProjection)
    : list AttemptProjection :=
  match ps with
  | [] => [p]
  | q :: qs => if decide (projection_le p q) then p :: q :: qs else q :: insert_projection p qs
  end.

Definition sort_projections (ps : list AttemptProjection) : list AttemptProjection :=
  foldr insert_projection [] ps.

Definition list_scoped_attempt_projections (auth : AuthContext) (session : SessionId)
    (workspace : WorkspaceId) : M (list AttemptProjection) :=
  read (λ st,
    _ ← require_current_state st auth;
    out ← project_scoped auth session workspace (btree_iter (au_attempts st));
    inr (sort_projections out)).

Definition scoped_attempt_projection (auth : AuthContext) (session : SessionId)
    (workspace : WorkspaceId) (attempt_handle : string) : M (option AttemptProjection) :=
  read (λ st,
    _ ← require_current_state st auth;
    found ← find_attempt_by_handle st attempt_handle;
    match found with
    | None => inr None
    | Some (attempt, record) =>
        if negb (attempt_in_scope record auth session workspace) then inr None
        else p ← project_stored_attempt attempt record; inr (Some p)
    end).

(** ** Gate 4: typed audit *)

Definition audit_records (h : HostAuthority) (admin : HostAdminAuthority)
    : M (list AuditRecord) :=
  _ ← lift_res (require_admin h admin);
  _ ← lock_audit;
  records.

Definition audit_chain_intact (h : HostAuthority) (admin : HostAdminAuthority) : M bool :=
  _ ← lift_res (require_admin h admin);
  _ ← lock_audit;
  verify_chain.

(** [std::env::current_dir]. *)
Definition env_current_dir : M string :=
  n ← tick;
  match io_event n with
  | IoOk => mret (current_dir n)
  | IoErr msg _ => raise (Durability msg)
  | IoCrash _ => crash
  end.

Definition admit_operator_send (auth : AuthContext) (request : RequestIdentity)
    (target_scope : string) : M PhysicalSendPermit :=
  cwd ← env_current_dir;
  workspace ← issue_workspace auth cwd;
  resource ← obtain_provider_send_surface auth workspace target_scope;
  capability ← seal_capability auth resource VerifiedOperator ProviderSend 60000;
  lease ← mint_lease auth capability (request_digest request) 30000;
  permit ← begin_send auth lease request target_scope;
  admit_sending auth permit.

End gates.
