(* ===== verification/Reconcile.v ===== *)
(** * Operator reconciliation of uncertain attempts

    Models [crates/common/xai-host-authority/src/reconciliation.rs]: minting a
    grant bound to one attempt at its current revision, and spending it.
    Nothing here sends. *)

From S2P Require Import Prelude Text Ids State World AuditWal Store Gates.

Definition DEFAULT_GRANT_TTL_MS : Z := 15000.
Definition RECONCILE_ACTION : string := "operator-reconcile-v1".

Definition validate_reconciliation_binding (auth : AuthContext) (record : StoredAttempt)
    : Res unit :=
  if decide (at_credential_incarnation record ≠ to_hex (ac_incarnation auth)) then
    inl StalePrincipal
  else if decide (at_auth_generation record ≠ ac_auth_generation auth) then inl StalePrincipal
  else if decide (at_capability_generation record ≠ ac_capability_generation auth) then
    inl StaleCapability
  else if decide (at_policy_revision record ≠ ac_policy_revision auth) then inl StalePolicy
  else inr ().

Definition normalize_reconciliation_truth (truth : string) : option string :=
  if decide (truth = "took_effect") then Some "took_effect"
  else if decide (truth = "no_effect") then Some "no_effect"
  else if decide (truth = "discarded") then Some "discarded"
  else None.

Definition already_matches_disposition (record : StoredAttempt) (d : ReconciliationDisposition)
    : bool :=
  match d with
  | Review => true
  | MarkNotSent => bool_decide (at_state record = STATE_FAILED)
  | MarkSettled => bool_decide (at_state record = STATE_SETTLED)
  | Discard => bool_decide (at_state record = STATE_DISCARDED)
  end.

Section reconcile.
  Context {Cdc : Codec} {Env : Environment}.

(** The loop of [audited_reconciliation_truth]. *)
Fixpoint audited_truth (handle : string) (truth : option string) (rs : list AuditRecord)
    : Res (option string) :=
  match rs with
  | [] => inr truth
  | r :: rs =>
      match ar_event r with
      | EvAttemptReconciled audited audited_truth_ =>
          if decide (audited ≠ handle) then audited_truth handle truth rs
          else
            match normalize_reconciliation_truth audited_truth_ with
            | None => inl (CorruptState
                ("unknown audited reconciliation truth " +:+ audited_truth_))
            | Some normalized =>
                match truth with
                | Some existing =>
                    if decide (existing ≠ normalized) then
                      inl (CorruptState
                        "conflicting reconciliation audit records for one attempt")
                    else audited_truth handle truth rs
                | None => audited_truth handle (Some normalized) rs
                end
            end
      | _ => audited_truth handle truth rs
      end
  end.

(** Lock the log, refuse a damaged chain, return the records. *)
Definition verified_records : M (list AuditRecord) :=
  _ ← lock_audit;
  ok ← verify_chain;
  if negb ok then raise (CorruptState "audit chain is damaged") else records.

Definition audited_reconciliation_truth (attempt : AttemptId) : M (option string) :=
  rs ← verified_records;
  lift_res (audited_truth (public_handle attempt) None rs).

Definition lookup_scoped_attempt (st : StoredAuthority) (auth : AuthContext)
    (session : SessionId) (workspace : WorkspaceId) (handle : string)
    : Res (AttemptId * StoredAttempt) :=
  found ← find_attempt_by_handle st handle;
  match found with
  | None => inl UnknownResource
  | Some (attempt, record) =>
      if negb (attempt_in_scope record auth session workspace) then inl UnknownResource
      else inr (attempt, record)
  end.

Definition project_from_current (attempt : AttemptId) (record : StoredAttempt)
    : Res AttemptProjection := project_stored_attempt attempt record.

Definition admission_of (handle : string) (r : AuditRecord) : Prop :=
  ar_event r = EvSendWireAdmission handle.

#[global] Instance admission_of_dec handle r : Decision (admission_of handle r).
Proof. unfold admission_of. apply _. Defined.

Definition wire_admission_recorded (attempt : AttemptId) : M bool :=
  rs ← verified_records;
  mret (existsb (λ r, bool_decide (admission_of (public_handle attempt) r)) rs).

Definition host_has_pre_wire_evidence (attempt : AttemptId) (record : StoredAttempt) : M bool :=
  if decide (at_state record = STATE_PREPARING) then mret true
  else if decide (at_state record = STATE_FAILED
                  ∧ match at_settlement record with
                    | Some detail => str_contains "AbandonedBeforeWireAdmission" detail
                    | None => false
                    end = true) then mret true
  else if decide (at_state record = STATE_SENDING ∨ at_state record = STATE_UNCERTAIN) then
    recorded ← wire_admission_recorded attempt; mret (negb recorded)
  else mret false.

Definition reconcile_action_digest (auth : AuthContext) (attempt : AttemptId)
    (revision : ContentDigest) (record : StoredAttempt) (route_digest : ContentDigest)
    (disposition : ReconciliationDisposition) : ContentDigest :=
  of_fields
    [(RECONCILE_ACTION, ""); ("attempt", to_hex attempt); ("revision", digest_to_hex revision);
     ("state", at_state record); ("dialect", at_dialect record);
     ("route", digest_to_hex route_digest); ("disposition", disposition_as_str disposition);
     ("principal", to_hex (ac_principal auth));
     ("auth_generation", to_le_bytes (ac_auth_generation auth));
     ("capability_generation", to_le_bytes (ac_capability_generation auth));
     ("policy_revision", to_le_bytes (ac_policy_revision auth))].

(** The [match disposition] of [mint_reconciliation_grant]. *)
Definition check_grantable (attempt : AttemptId) (record : StoredAttempt)
    (disposition : ReconciliationDisposition) : M unit :=
  let in_flight :=
    Invalid "attempt is still in flight; wait for settlement before reconciling" in
  match disposition with
  | Review => mret ()
  | MarkNotSent =>
      if decide (at_state record = STATE_SENDING) then raise in_flight
      else
        ok ← host_has_pre_wire_evidence attempt record;
        if negb ok then raise (Invalid "mark-not-sent requires host-proven pre-wire evidence")
        else mret ()
  | MarkSettled | Discard =>
      if decide (at_state record = STATE_SENDING) then raise in_flight
      else if decide (at_state record ≠ STATE_UNCERTAIN
                      ∧ already_matches_disposition record disposition = false) then
        raise (Invalid "attempt is already settled")
      else mret ()
  end.

Definition mint_reconciliation_grant (auth : AuthContext) (session : SessionId)
    (workspace : WorkspaceId) (attempt_handle : string)
    (disposition : ReconciliationDisposition) (ttl_ms : Z) : M ReconciliationGrant :=
  let ttl_ms := if decide (ttl_ms = 0%Z) then DEFAULT_GRANT_TTL_MS else ttl_ms in
  '(attempt, record) ← read (λ st,
    _ ← require_current_state st auth;
    '(attempt, record) ← lookup_scoped_attempt st auth session workspace attempt_handle;
    _ ← validate_reconciliation_binding auth record;
    inr (attempt, record));
  _ ← check_grantable attempt record disposition;
  resource ← lift_res (decode_id (at_resource record) "resource");
  capability ← seal_capability auth resource VerifiedOperator OperatorReconcile ttl_ms;
  let revision := attempt_revision attempt record in
  route_digest ← lift_res (decode_digest (at_route_digest record) "route");
  let action := reconcile_action_digest auth attempt revision record route_digest disposition in
  lease ← mint_lease auth capability action ttl_ms;
  mret {| rg_lease := lease; rg_attempt := attempt; rg_revision := revision;
          rg_state := at_state record; rg_dialect := at_dialect record;
          rg_route_digest := route_digest; rg_disposition := disposition;
          rg_expires_at_ms := el_expires_at_ms lease |}.

Definition mint_reconciliation_grant_for_attempt (auth : AuthContext) (attempt : AttemptId)
    (disposition : ReconciliationDisposition) (ttl_ms : Z) : M ReconciliationGrant :=
  '(session, workspace, handle) ← read (λ st,
    _ ← require_current_state st auth;
    record ← ok_or UnknownResource (au_attempts st !! to_hex attempt);
    if decide (at_principal record ≠ to_hex (ac_principal auth)) then inl UnknownResource
    else
      _ ← validate_reconciliation_binding auth record;
      session ← decode_id (at_session record) "session";
      workspace ← decode_id (at_workspace record) "workspace";
      inr (session, workspace, public_handle attempt));
  mint_reconciliation_grant auth session workspace handle disposition ttl_ms.

Definition consume_grant_records (grant : ReconciliationGrant) (now : Z) (st : StoredAuthority)
    : Res StoredAuthority :=
  let b := el_binding (rg_lease grant) in
  let key := to_hex (el_id (rg_lease grant)) in
  stored ← ok_or AlreadyConsumed (au_leases st !! key);
  if ls_consumed stored then inl AlreadyConsumed
  else if decide (ls_expires_at_ms stored ≤ now)%Z then inl Expired
  else if decide (ls_effect stored ≠ effect_as_str OperatorReconcile) then inl NotPermitted
  else if decide (ls_capability_generation stored ≠ au_capability_generation st) then
    inl StaleCapability
  else if decide (ls_policy_revision stored ≠ au_policy_revision st) then inl StalePolicy
  else if decide (ls_auth_generation stored ≠ ab_auth_generation b) then inl StalePrincipal
  else if decide (ls_principal stored ≠ to_hex (ab_principal b)) then
    inl ResourceOwnershipMismatch
  else
    let st := set_leases st (<[key := consume_lease stored]> (au_leases st)) in
    inr (match au_capabilities st !! ls_capability_id stored with
         | Some c => set_capabilities st
             (<[ls_capability_id stored := consume_capability c]> (au_capabilities st))
         | None => st
         end).

Definition consume_reconciliation_lease (auth : AuthContext) (grant : ReconciliationGrant)
    (now : Z) : M unit :=
  with_state (
    st ← tx_get;
    _ ← tx_res (require_current_state st auth);
    st' ← tx_res (consume_grant_records grant now st);
    tx_put st').

(** The record a grant names, as the first read closure of
    [apply_reconciliation] returns it. *)
Definition granted_attempt (auth : AuthContext) (grant : ReconciliationGrant)
    (st : StoredAuthority) : Res StoredAttempt :=
  _ ← require_current_state st auth;
  record ← ok_or UnknownResource (au_attempts st !! to_hex (rg_attempt grant));
  if decide (at_principal record ≠ to_hex (ac_principal auth)) then inl UnknownResource
  else
    _ ← validate_reconciliation_binding auth record;
    inr record.

(** The [match grant.disposition] of [apply_reconciliation], and the in-flight
    test that follows it. *)
Definition check_disposition (grant : ReconciliationGrant) (evidence : ReconciliationEvidence)
    (current : StoredAttempt) (already_applied : bool) : M unit :=
  _ ← match rg_disposition grant with
      | Review => mret ()
      | MarkNotSent =>
          ok ← host_has_pre_wire_evidence (rg_attempt grant) current;
          if negb ok then raise (Invalid "mark-not-sent requires host-proven pre-wire evidence")
          else mret ()
      | MarkSettled =>
          if negb (has_identity_proof evidence) then
            raise (Invalid "mark-settled requires provider receipt or operator observation")
          else if decide (at_state current ≠ STATE_UNCERTAIN ∧ already_applied = false) then
            raise (Invalid "attempt is already settled")
          else mret ()
      | Discard =>
          if decide (at_state current ≠ STATE_UNCERTAIN ∧ already_applied = false) then
            raise (Invalid "attempt is already settled")
          else mret ()
      end;
  if decide (at_state current = STATE_SENDING ∧ rg_disposition grant ≠ Review
             ∧ already_applied = false) then
    raise (Invalid "attempt is still in flight; wait for settlement before reconciling")
  else mret ().

(** [existing != truth] against the audited truth. *)
Definition check_conflict (grant : ReconciliationGrant) : M unit :=
  match disposition_truth (rg_disposition grant) with
  | None => mret ()
  | Some truth =>
      existing ← audited_reconciliation_truth (rg_attempt grant);
      match existing with
      | Some existing =>
          if decide (existing ≠ truth) then raise (Invalid "conflicting reconciliation")
          else mret ()
      | None => mret ()
      end
  end.

(** The second read closure: re-read under the lock and re-check the revision. *)
Definition reread_attempt (auth : AuthContext) (grant : ReconciliationGrant)
    (st : StoredAuthority) : Res (StoredAttempt * Z) :=
  _ ← require_current_state st auth;
  record ← ok_or UnknownResource (au_attempts st !! to_hex (rg_attempt grant));
  _ ← validate_reconciliation_binding auth record;
  if decide (attempt_revision (rg_attempt grant) record ≠ rg_revision grant) then
    inl (Invalid "stale revision")
  else inr (record, au_control_epoch st).

Definition reconciliation_event (auth : AuthContext) (grant : ReconciliationGrant) : AuditEvent :=
  match disposition_truth (rg_disposition grant) with
  | Some truth => EvAttemptReconciled (public_handle (rg_attempt grant)) truth
  | None => EvAttemptReviewed (public_handle (rg_attempt grant))
              (public_handle (ac_principal auth)) (disposition_as_str (rg_disposition grant))
  end.

Definition next_state (d : ReconciliationDisposition) (current : StoredAttempt) : string :=
  match d with
  | Review => at_state current
  | MarkNotSent => STATE_FAILED
  | MarkSettled => STATE_SETTLED
  | Discard => STATE_DISCARDED
  end.

Definition next_settlement (d : ReconciliationDisposition) (current : StoredAttempt)
    : option string :=
  match d with
  | Review => at_settlement current
  | other => Some ("reconciled:" +:+ disposition_as_str other)
  end.

Definition apply_tx (auth : AuthContext) (grant : ReconciliationGrant) (now : Z)
    (state : string) (settlement : option string) : Tx unit :=
  st ← tx_get;
  _ ← tx_res (require_current_state st auth);
  st ← tx_res (consume_grant_records grant now st);
  record ← tx_res (ok_or UnknownResource (au_attempts st !! to_hex (rg_attempt grant)));
  if decide (attempt_revision (rg_attempt grant) record ≠ rg_revision grant) then
    tx_fail (Invalid "stale revision")
  else tx_put (set_attempts st
         (<[to_hex (rg_attempt grant) := set_attempt_state record state settlement]>
            (au_attempts st))).

(** The part of [apply_reconciliation] after every check: audit, apply, project. *)
Definition commit_reconciliation (auth : AuthContext) (grant : ReconciliationGrant) (now : Z)
    : M AttemptProjection :=
  '(current, epoch) ← read (reread_attempt auth grant);
  _ ← append_audit epoch (reconciliation_event auth grant);
  _ ← with_state (apply_tx auth grant now (next_state (rg_disposition grant) current)
                    (next_settlement (rg_disposition grant) current));
  read (λ st,
    record ← ok_or UnknownResource (au_attempts st !! to_hex (rg_attempt grant));
    project_stored_attempt (rg_attempt grant) record).

Definition apply_reconciliation (auth : AuthContext) (grant : ReconciliationGrant)
    (evidence : ReconciliationEvidence) : M AttemptProjection :=
  _ ← lock_attempt_lifecycle;
  now ← unix_time_millis;
  if decide (rg_expires_at_ms grant ≤ now)%Z then raise Expired
  else if decide (el_effect (rg_lease grant) ≠ OperatorReconcile) then raise NotPermitted
  else if negb (is_operator (el_actor (rg_lease grant))) then raise NotPermitted
  else
    current ← read (granted_attempt auth grant);
    let already_applied := already_matches_disposition current (rg_disposition grant) in
    if decide (attempt_revision (rg_attempt grant) current ≠ rg_revision grant) then
      if already_applied then
        _ ← lift_res (validate_reconciliation_binding auth current);
        _ ← consume_reconciliation_lease auth grant now;
        lift_res (project_from_current (rg_attempt grant) current)
      else raise (Invalid "stale revision")
    else if decide (rg_state grant ≠ at_state current ∨ rg_dialect grant ≠ at_dialect current
                    ∨ digest_to_hex (rg_route_digest grant) ≠ at_route_digest current) then
      raise (Invalid "grant binding mismatch")
    else
      _ ← check_disposition grant evidence current already_applied;
      if decide (el_action_digest (rg_lease grant) ≠
                 reconcile_action_digest auth (rg_attempt grant) (rg_revision grant) current
                   (rg_route_digest grant) (rg_disposition grant)) then raise DigestMismatch
      else if decide (already_applied = true ∧ rg_disposition grant ≠ Review) then
        _ ← lift_res (validate_reconciliation_binding auth current);
        _ ← consume_reconciliation_lease auth grant now;
        lift_res (project_from_current (rg_attempt grant) current)
      else
        _ ← check_conflict grant;
        commit_reconciliation auth grant now.

End reconcile.
