(* ===== verification/Wellformed.v ===== *)
(** * The well-formedness invariant of the durable snapshot

    [wf] is the representation invariant of [authority.json]: counters stay in
    [u64]; every key is the identifier of its record and decodes; capabilities
    and leases carry the current capability generation and policy revision; no
    resource, capability or lease outlives the credential incarnation it was
    issued under; attempt states are lifecycle labels.  Every transaction of
    the crate preserves it. *)

From S2P Require Import Prelude Text Ids State World AuditWal AuditFacts Store StoreFacts Gates Reconcile.

(** ** Identifiers and digests in their stored form *)

Definition hex16 (s : string) : Prop := ∃ b, s = hex b ∧ String.length b = 16%nat.
Definition hex32 (s : string) : Prop := ∃ b, s = hex b ∧ String.length b = 32%nat.

(** The array lengths of the Rust types. *)
Definition id_ok {k} (i : opaque_id k) : Prop := String.length (id_bytes i) = 16%nat.
Definition digest_ok (d : ContentDigest) : Prop := String.length (digest_bytes d) = 32%nat.

Lemma to_hex_hex16 {k} (i : opaque_id k) : id_ok i → hex16 (to_hex i).
Proof. intros Hi. by exists (id_bytes i). Qed.

Lemma digest_to_hex_hex32 d : digest_ok d → hex32 (digest_to_hex d).
Proof. intros Hd. by exists (digest_bytes d). Qed.

Lemma decode_id_ok {k} v what (i : opaque_id k) : decode_id v what = inr i → id_ok i.
Proof.
  intros [Hl Hu]%decode_id_inr. apply unhex_length in Hu. unfold id_ok. lia.
Qed.

Lemma hex16_decode {k} s what : hex16 s → ∃ i : opaque_id k, decode_id s what = inr i ∧ to_hex i = s.
Proof.
  intros (b & -> & Hb). exists (OpaqueId b). split; [|done].
  by apply (decode_id_to_hex (OpaqueId b)).
Qed.

Lemma hex32_decode s what : hex32 s → ∃ d, decode_digest s what = inr d.
Proof.
  intros (b & -> & Hb). exists (MkContentDigest b).
  by apply (decode_digest_to_hex (MkContentDigest b)).
Qed.

#[export] Hint Resolve to_hex_hex16 digest_to_hex_hex32 decode_id_ok : core.

(** ** The invariant *)

Definition state_label (s : string) : Prop :=
  s ∈ [STATE_PREPARING; STATE_SENDING; STATE_SETTLED; STATE_FAILED; STATE_UNCERTAIN;
       STATE_DISCARDED].

Definition live_inc (creds : list StoredCredential) (inc : string) : Prop :=
  inc ∈ sc_incarnation <$> creds.

Record cred_ok (next : Z) (c : StoredCredential) : Prop := {
  co_principal : hex16 (sc_principal c);
  co_incarnation : hex16 (sc_incarnation c);
  co_generation : (0 ≤ sc_auth_generation c < next)%Z;
}.

Record resource_ok (creds : list StoredCredential) (policy epoch : Z) (k : string) (r : StoredResource) : Prop := {
  ro_key : k = sr_incarnation r;
  ro_hex : hex16 k;
  ro_session : hex16 (sr_session r);
  ro_workspace : hex16 (sr_workspace r);
  ro_observation : hex32 (sr_observation_digest r);
  ro_live : live_inc creds (sr_credential_incarnation r);
  ro_policy : sr_policy_revision r = policy;
  ro_epoch : (sr_control_epoch r ≤ epoch)%Z;
  ro_revision : is_u64 (sr_observation_revision r);
  ro_ordinal : is_u64 (sr_next_attempt_ordinal r);
}.

Record capability_ok (creds : list StoredCredential) (generation policy epoch : Z) (k : string)
    (c : StoredCapability) : Prop := {
  po_key : k = cp_capability_id c;
  po_hex : hex16 k;
  po_session : hex16 (cp_session c);
  po_workspace : hex16 (cp_workspace c);
  po_resource : hex16 (cp_resource c);
  po_live : live_inc creds (cp_credential_incarnation c);
  po_generation : cp_capability_generation c = generation;
  po_policy : cp_policy_revision c = policy;
  po_epoch : (cp_control_epoch c ≤ epoch)%Z;
  po_actor : is_Some (actor_parse (cp_actor c));
  po_effect : is_Some (effect_parse (cp_effect c));
}.

Record lease_ok (creds : list StoredCredential) (generation policy epoch : Z) (k : string)
    (l : StoredLease) : Prop := {
  lo_key : k = ls_lease_id l;
  lo_hex : hex16 k;
  lo_session : hex16 (ls_session l);
  lo_workspace : hex16 (ls_workspace l);
  lo_resource : hex16 (ls_resource l);
  lo_live : live_inc creds (ls_credential_incarnation l);
  lo_generation : ls_capability_generation l = generation;
  lo_policy : ls_policy_revision l = policy;
  lo_epoch : (ls_control_epoch l ≤ epoch)%Z;
  lo_actor : is_Some (actor_parse (ls_actor l));
  lo_effect : is_Some (effect_parse (ls_effect l));
}.

Record attempt_ok (k : string) (a : StoredAttempt) : Prop := {
  ao_key : k = at_attempt_id a;
  ao_hex : hex16 k;
  ao_session : hex16 (at_session a);
  ao_workspace : hex16 (at_workspace a);
  ao_resource : hex16 (at_resource a);
  ao_route : hex32 (at_route_digest a);
  ao_request : hex32 (at_request_digest a);
  ao_body : hex32 (at_body_digest a);
  ao_state : state_label (at_state a);
}.

Record wf (st : StoredAuthority) : Prop := {
  wf_schema : au_schema_version st = SCHEMA_VERSION;
  wf_epoch : is_u64 (au_control_epoch st);
  wf_generation : is_u64 (au_capability_generation st);
  wf_policy : is_u64 (au_policy_revision st);
  wf_next : is_u64 (au_next_auth_generation st);
  wf_cred_ids : NoDup (sc_credential_id <$> au_credentials st);
  wf_creds : Forall (cred_ok (au_next_auth_generation st)) (au_credentials st);
  wf_resources : map_Forall (resource_ok (au_credentials st) (au_policy_revision st)
    (au_control_epoch st)) (au_resources st);
  wf_capabilities : map_Forall (capability_ok (au_credentials st) (au_capability_generation st)
    (au_policy_revision st) (au_control_epoch st)) (au_capabilities st);
  wf_leases : map_Forall (lease_ok (au_credentials st) (au_capability_generation st)
    (au_policy_revision st) (au_control_epoch st)) (au_leases st);
  wf_attempts : map_Forall attempt_ok (au_attempts st);
}.

(** ** Inverting transactions *)

Lemma tx_bind_inr {A B} (m : Tx A) (f : A → Tx B) s b s'' :
  (m ≫= f) s = inr (b, s'') ↔ ∃ a s', m s = inr (a, s') ∧ f a s' = inr (b, s'').
Proof. unfold mbind, Tx_bind. destruct (m s) as [|[a s']]; naive_solver. Qed.

Lemma tx_res_inr {A} (r : Res A) s a s' : tx_res r s = inr (a, s') ↔ r = inr a ∧ s' = s.
Proof. unfold tx_res. destruct r; naive_solver. Qed.

Lemma tx_get_inr s a s' : tx_get s = inr (a, s') ↔ a = tx_auth s ∧ s' = s.
Proof. unfold tx_get. naive_solver. Qed.

Lemma tx_put_inr st s a s' :
  tx_put st s = inr (a, s') ↔ s' = {| tx_auth := st; tx_tick := tx_tick s |}.
Proof. destruct a. unfold tx_put. naive_solver. Qed.

Lemma tx_ret_inr {A} (x : A) s a s' : (mret x : Tx A) s = inr (a, s') ↔ a = x ∧ s' = s.
Proof. unfold mret, Tx_ret. naive_solver. Qed.

Lemma tx_fail_inr {A} e s (a : A) s' : tx_fail e s = inr (a, s') ↔ False.
Proof. unfold tx_fail. naive_solver. Qed.

Lemma tx_mint_inr `{Environment} {k} s (i : opaque_id k) s' :
  tx_mint s = inr (i, s') ↔
  i = OpaqueId (uuid_v4 (tx_tick s)) ∧
  s' = {| tx_auth := tx_auth s; tx_tick := S (tx_tick s) |}.
Proof. unfold tx_mint. naive_solver. Qed.

(** Turn [H : tx s = inr _] into the facts its branches give. *)
Ltac tx_inv H :=
  repeat match type of H with
  | (_ ≫= _) _ = inr _ =>
      let H' := fresh H in apply tx_bind_inr in H as (? & ? & H' & H); tx_inv H'
  | tx_res _ _ = inr _ => apply tx_res_inr in H as [H ->]
  | tx_get _ = inr _ => apply tx_get_inr in H as [-> ->]
  | tx_put _ _ = inr _ => apply tx_put_inr in H as ->
  | mret _ _ = inr _ => apply tx_ret_inr in H as [H ->]; simplify_eq
  | tx_mint _ = inr _ => apply tx_mint_inr in H as [-> ->]
  | tx_fail _ _ = inr _ => apply tx_fail_inr in H; destruct H
  | (let _ := _ in _) _ = inr _ => cbv zeta in H
  | (if decide ?P then _ else _) _ = inr _ => destruct (decide P)
  | (let (_, _) := ?p in _) _ = inr _ => destruct p
  | ok_or _ _ = inr _ => apply ok_or_inr in H
  | ensure _ _ = inr _ => apply ensure_inr in H
  end.

(** ** [require_current_state] *)

Lemma require_current_inr st auth u :
  require_current_state st auth = inr u →
  ∃ c, c ∈ au_credentials st ∧ sc_principal c = to_hex (ac_principal auth) ∧
    sc_incarnation c = to_hex (ac_incarnation auth) ∧
    sc_auth_generation c = ac_auth_generation auth ∧
    au_capability_generation st = ac_capability_generation auth ∧
    au_policy_revision st = ac_policy_revision auth ∧
    au_control_epoch st = ac_control_epoch auth.
Proof.
  unfold require_current_state. intros (c & Hf%ok_or_inr & H)%res_bind_inr.
  apply find_some in Hf as [Hin Hp%bool_decide_eq_true].
  apply list_elem_of_In in Hin.
  repeat (case_decide; [done|]). exists c. split; [done|].
  split; [done|]. repeat split; try (apply dec_stable; tauto); by apply dec_stable.
Qed.

Lemma require_current_live st auth u :
  require_current_state st auth = inr u → live_inc (au_credentials st) (to_hex (ac_incarnation auth)).
Proof.
  intros (c & Hc & _ & <- & _)%require_current_inr. by apply list_elem_of_fmap_2.
Qed.

Lemma binding_from_resource_inr st auth r b :
  binding_from_resource st auth r = inr b →
  sr_principal r = to_hex (ac_principal auth) ∧
  sr_credential_incarnation r = to_hex (ac_incarnation auth) ∧
  sr_auth_generation r = ac_auth_generation auth ∧
  sr_policy_revision r = au_policy_revision st ∧
  sr_control_epoch r = au_control_epoch st ∧
  ab_principal b = ac_principal auth ∧ ab_incarnation b = ac_incarnation auth ∧
  ab_auth_generation b = ac_auth_generation auth ∧
  ab_capability_generation b = au_capability_generation st ∧
  ab_policy_revision b = au_policy_revision st ∧
  ab_control_epoch b = au_control_epoch st ∧
  id_ok (ab_session b) ∧ id_ok (ab_workspace b) ∧ id_ok (ab_resource b) ∧
  decode_id (sr_incarnation r) "resource" = inr (ab_resource b).
Proof.
  unfold binding_from_resource. case_decide as H1; [done|]. case_decide as H2; [done|].
  intros (ses & Hs & (ws & Hw & (res & Hr & [= <-])%res_bind_inr)%res_bind_inr)%res_bind_inr.
  simpl. split_and!; try done; try (apply dec_stable; tauto); eauto; by apply dec_stable.
Qed.

(** ** Updating one record *)

Lemma wf_with_resources st m :
  wf st → map_Forall (resource_ok (au_credentials st) (au_policy_revision st)
                        (au_control_epoch st)) m → wf (set_resources st m).
Proof. intros [] ?. by constructor. Qed.

Lemma wf_with_capabilities st m :
  wf st → map_Forall (capability_ok (au_credentials st) (au_capability_generation st)
                        (au_policy_revision st) (au_control_epoch st)) m →
  wf (set_capabilities st m).
Proof. intros [] ?. by constructor. Qed.

Lemma wf_with_leases st m :
  wf st → map_Forall (lease_ok (au_credentials st) (au_capability_generation st)
                        (au_policy_revision st) (au_control_epoch st)) m →
  wf (set_leases st m).
Proof. intros [] ?. by constructor. Qed.

Lemma wf_with_attempts st m : wf st → map_Forall attempt_ok m → wf (set_attempts st m).
Proof. intros [] ?. by constructor. Qed.

(** Changing the state of an attempt keeps it well formed. *)
Lemma attempt_ok_state k a s d :
  attempt_ok k a → state_label s → attempt_ok k (set_attempt_state a s d).
Proof. intros [] ?. by constructor. Qed.

Lemma wf_set_attempt_state st k a s d :
  wf st → au_attempts st !! k = Some a → state_label s →
  wf (set_attempts st (<[k := set_attempt_state a s d]> (au_attempts st))).
Proof.
  intros Hwf Ha Hs. apply wf_with_attempts; [done|].
  apply map_Forall_insert_2; [apply attempt_ok_state; [|done]|]; by apply (wf_attempts _ Hwf).
Qed.

Lemma wf_consume_capability st k c :
  wf st → au_capabilities st !! k = Some c →
  wf (set_capabilities st (<[k := consume_capability c]> (au_capabilities st))).
Proof.
  intros Hwf Hc. apply wf_with_capabilities; [done|]. apply map_Forall_insert_2; [|apply Hwf].
  destruct (wf_capabilities _ Hwf k c Hc). by constructor.
Qed.

Lemma wf_consume_lease st k l :
  wf st → au_leases st !! k = Some l →
  wf (set_leases st (<[k := consume_lease l]> (au_leases st))).
Proof.
  intros Hwf Hl. apply wf_with_leases; [done|]. apply map_Forall_insert_2; [|apply Hwf].
  destruct (wf_leases _ Hwf k l Hl). by constructor.
Qed.

Lemma is_u64_add a b : checked_add a 1 = Some b → is_u64 a → is_u64 b.
Proof. unfold is_u64. intros [-> Hb]%checked_add_Some Ha. lia. Qed.

Lemma state_label_preparing : state_label STATE_PREPARING. Proof. set_solver. Qed.
Lemma state_label_sending : state_label STATE_SENDING. Proof. set_solver. Qed.
Lemma state_label_settled : state_label STATE_SETTLED. Proof. set_solver. Qed.
Lemma state_label_failed : state_label STATE_FAILED. Proof. set_solver. Qed.
Lemma state_label_uncertain : state_label STATE_UNCERTAIN. Proof. set_solver. Qed.
Lemma state_label_discarded : state_label STATE_DISCARDED. Proof. set_solver. Qed.
#[export] Hint Resolve state_label_preparing state_label_sending state_label_settled
  state_label_failed state_label_uncertain state_label_discarded : core.

(** ** Every transaction preserves the invariant *)

Section transactions.
  Context {Cdc : Codec} {Env : Environment} {CL : CodecLaws} {EL : EnvironmentLaws}.

Lemma of_fields_ok fs : digest_ok (of_fields fs).
Proof. apply sha256_length. Qed.

Lemma mint_ok k n : id_ok (OpaqueId (k := k) (uuid_v4 n)).
Proof. apply uuid_length. Qed.

Hint Resolve of_fields_ok mint_ok : core.

Lemma wf_new owner fp : wf (StoredAuthority_new owner fp).
Proof.
  constructor; simpl; try (unfold is_u64, U64_MAX; lia); try apply map_Forall_empty; try done;
    constructor.
Qed.

Lemma tx_wf_issue_session auth :
  tx_wf wf (st ← tx_get; _ ← tx_res (require_current_state st auth);
            tx_mint (k := KSession)).
Proof. intros s a s' Hwf H. by tx_inv H. Qed.

Lemma tx_wf_issue_workspace auth path :
  tx_wf wf (st ← tx_get; _ ← tx_res (require_current_state st auth);
            if decide (path = "") then tx_fail (Invalid "workspace path")
            else mret (OpaqueId (k := KWorkspace)
                   (string_take 16 (digest_bytes (of_fields [("workspace", path)]))))).
Proof. intros s a s' Hwf H. by tx_inv H. Qed.

Lemma tx_wf_issue_resource auth session workspace obs :
  id_ok session → id_ok workspace → digest_ok obs →
  tx_wf wf (issue_resource_tx auth session workspace obs).
Proof.
  intros Hs Hw Ho s a s' Hwf H. unfold issue_resource_tx in H. tx_inv H. simpl.
  select (require_current_state _ _ = _) (fun Hr => pose proof (require_current_live _ _ _ Hr);
    apply require_current_inr in Hr as (c & _ & _ & _ & _ & _ & Hp & _)).
  apply wf_with_resources; [done|]. apply map_Forall_insert_2; [|apply Hwf]. constructor; simpl; auto; unfold is_u64, U64_MAX; lia.
Qed.

Lemma tx_wf_record_observation auth resource obs :
  digest_ok obs → tx_wf wf (record_observation_tx auth resource obs).
Proof.
  intros Ho s a s' Hwf H. unfold record_observation_tx in H. tx_inv H. simpl.
  select (_ !! _ = Some _) (fun Hr => destruct (wf_resources _ Hwf _ _ Hr)).
  apply wf_with_resources; [done|]. apply map_Forall_insert_2; [|apply Hwf]. constructor; simpl; auto. eapply is_u64_add; eassumption.
Qed.

Lemma tx_wf_rotate_control_epoch : tx_wf wf rotate_control_epoch_tx.
Proof.
  intros s a s' Hwf H. unfold rotate_control_epoch_tx in H. tx_inv H. simpl.
  select (checked_add _ _ = _) (fun Hc => pose proof (proj1 (checked_add_Some _ _ _) Hc) as [-> _]).
  destruct Hwf.
  constructor; simpl; try done; try apply map_Forall_empty; [eapply is_u64_add; eassumption|].
  intros k r Hr. destruct (wf_resources0 k r Hr). constructor; try done. lia.
Qed.

Lemma tx_wf_rotate_capability_generation : tx_wf wf rotate_capability_generation_tx.
Proof.
  intros s a s' Hwf H. unfold rotate_capability_generation_tx in H. tx_inv H. simpl.
  destruct Hwf. constructor; simpl; try done; try apply map_Forall_empty. eapply is_u64_add; eassumption.
Qed.

Lemma tx_wf_rotate_policy_revision : tx_wf wf rotate_policy_revision_tx.
Proof.
  intros s a s' Hwf H. unfold rotate_policy_revision_tx in H. tx_inv H. simpl.
  destruct Hwf. constructor; simpl; try done; try apply map_Forall_empty. eapply is_u64_add; eassumption.
Qed.

Lemma tx_wf_seal_capability auth resource actor effect expires :
  tx_wf wf (seal_capability_tx auth resource actor effect expires).
Proof.
  intros s a s' Hwf H. unfold seal_capability_tx in H. tx_inv H. simpl.
  select (require_current_state _ _ = _) (fun Hr => pose proof (require_current_live _ _ _ Hr)).
  select (binding_from_resource _ _ _ = _) (fun Hb => apply binding_from_resource_inr in Hb as
    (_ & _ & _ & _ & _ & _ & Hi & _ & Hg & Hp & He & Hs & Hw & Hr & _)).
  apply wf_with_capabilities; [done|]. apply map_Forall_insert_2; [|apply Hwf]. constructor; simpl; auto.
  - by rw Hi.
  - by rw He.
  - rw actor_parse_as_str; eauto.
  - rw effect_parse_as_str; eauto.
Qed.

Lemma tx_wf_mint_lease auth capability action now expires :
  tx_wf wf (mint_lease_tx auth capability action now expires).
Proof.
  intros s a s' Hwf H. unfold mint_lease_tx in H. tx_inv H. simpl.
  select (au_capabilities _ !! _ = _) (fun Hc => destruct (wf_capabilities _ Hwf _ _ Hc)).
  apply wf_with_leases; [done|]. apply map_Forall_insert_2; [|apply Hwf]. constructor; simpl; auto.
Qed.

Lemma tx_wf_begin_send auth lease request route now :
  digest_ok (request_body_digest request) →
  tx_wf wf (begin_send_tx auth lease request route now).
Proof.
  intros Hb s a s' Hwf H. unfold begin_send_tx in H. tx_inv H. simpl.
  select (au_leases _ !! _ = _) (fun Hl => destruct (wf_leases _ Hwf _ _ Hl)).
  select (au_resources _ !! _ = _) (fun Hr => destruct (wf_resources _ Hwf _ _ Hr)).
  apply wf_with_attempts; [apply wf_with_resources; [apply wf_with_leases;
    [by apply wf_consume_capability|]|]|].
  - apply map_Forall_delete, Hwf.
  - apply map_Forall_insert_2; [|apply Hwf]. constructor; simpl; auto.
    eapply is_u64_add; eassumption.
  - apply map_Forall_insert_2; [|apply Hwf]. constructor; simpl; auto;
      apply digest_to_hex_hex32, of_fields_ok.
Qed.

Lemma tx_wf_admit_sending auth attempt : tx_wf wf (admit_sending_tx auth attempt).
Proof.
  intros s a s' Hwf H. unfold admit_sending_tx in H. tx_inv H. simpl.
  apply wf_set_attempt_state; auto.
Qed.

Lemma tx_wf_settle attempt state detail :
  state_label state → tx_wf wf (settle_tx attempt state detail).
Proof.
  intros Hs s a s' Hwf H. unfold settle_tx in H. tx_inv H. simpl.
  apply wf_set_attempt_state; auto.
Qed.

Lemma tx_wf_recover_keys from to detail keys :
  state_label to → tx_wf wf (recover_keys from to detail keys).
Proof.
  intros Ht. induction keys as [|key keys IH]; intros s a s' Hwf H; simpl in H; tx_inv H; try done.
  - eapply IH; [|done]. simpl. apply wf_set_attempt_state; auto.
  - by eapply IH.
Qed.

Lemma tx_wf_recover preparing sending : tx_wf wf (recover_tx preparing sending).
Proof.
  intros s a s' Hwf H. unfold recover_tx in H.
  apply tx_bind_inr in H as (? & s1 & H1 & H). apply tx_bind_inr in H as (? & s2 & H2 & H).
  tx_inv H. eapply tx_wf_recover_keys in H1, H2; auto.
Qed.

Lemma wf_apply_outcomes by_handle outcomes st st' :
  Forall (λ kv, state_label kv.2.1) outcomes →
  wf st → apply_outcomes by_handle outcomes st = inr st' → wf st'.
Proof.
  intros Hl. revert st. induction Hl as [|[h [o d]] outcomes Ho _ IH]; intros st Hwf; simpl.
  - by intros [= <-].
  - intros ([key attempt] & Hi & H)%res_bind_inr. eapply IH; [|done].
    unfold indexed_attempt in Hi.
    apply res_bind_inr in Hi as (k & _ & (a & Ha%ok_or_inr & [= <- <-])%res_bind_inr).
    by apply wf_set_attempt_state.
Qed.

(** Replay only ever installs lifecycle labels. *)
Lemma replay_event_labels acc e acc' :
  map_Forall (λ _ v, state_label v.1) (ra_outcomes acc) → replay_event acc e = inr acc' →
  map_Forall (λ _ v, state_label v.1) (ra_outcomes acc').
Proof.
  intros Hacc. destruct e; simpl; try (by intros [= <-]).
  - intros (st & Hs & H)%res_bind_inr.
    assert (state_label st). { unfold outcome_state in Hs. repeat case_decide; naive_solver. }
    destruct (ra_outcomes acc !! attempt) as [[? existing]|];
      [destruct (starts_with _ existing)|]; simplify_eq; simpl; try done;
      by apply map_Forall_insert_2.
  - intros (st & Hs & (truths & _ & [= <-])%res_bind_inr)%res_bind_inr. simpl.
    apply map_Forall_insert_2; [|done]. simpl.
    unfold truth_state in Hs. repeat case_decide; naive_solver.
Qed.

Lemma replay_events_labels rs acc acc' :
  map_Forall (λ _ v, state_label v.1) (ra_outcomes acc) → replay_events acc rs = inr acc' →
  map_Forall (λ _ v, state_label v.1) (ra_outcomes acc').
Proof.
  revert acc. induction rs as [|r rs IH]; intros acc Hacc; simpl; [by intros [= <-]|].
  intros (acc1 & H1 & H)%res_bind_inr. eapply IH; [|done]. by eapply replay_event_labels.
Qed.

Lemma tx_wf_replay rs acc :
  replay_events {| ra_outcomes := ∅; ra_truths := ∅ |} rs = inr acc →
  tx_wf wf (st ← tx_get; st' ← tx_res (apply_replay (ra_outcomes acc) st); tx_put st').
Proof.
  intros Hacc s a s' Hwf H. tx_inv H. simpl.
  select (apply_replay _ _ = _) (fun Ha => apply res_bind_inr in Ha as (by_handle & _ & Ha)). eapply wf_apply_outcomes; [|done..].
  apply replay_events_labels in Hacc; [|apply map_Forall_empty].
  apply Forall_forall. intros [k v] Hkv%elem_of_btree_iter. by apply (Hacc k v).
Qed.

(** *** Reconciliation *)

Lemma wf_consume_grant grant now st st' :
  wf st → consume_grant_records grant now st = inr st' → wf st'.
Proof.
  intros Hwf. unfold consume_grant_records. intros (stored & Hl%ok_or_inr & H)%res_bind_inr.
  destruct (ls_consumed stored); [done|]. repeat (case_decide; [done|]).
  pose proof (wf_consume_lease _ _ _ Hwf Hl) as Hwf'. simpl in H.
  destruct (au_capabilities st !! ls_capability_id stored) as [c|] eqn:Hc; simplify_eq; [|done].
  by apply (wf_consume_capability _ _ _ Hwf').
Qed.

Lemma tx_wf_consume_reconciliation auth grant now :
  tx_wf wf (st ← tx_get; _ ← tx_res (require_current_state st auth);
            st' ← tx_res (consume_grant_records grant now st); tx_put st').
Proof. intros s a s' Hwf H. tx_inv H. simpl. by eapply wf_consume_grant. Qed.

Lemma tx_wf_apply auth grant now state settlement :
  state_label state → tx_wf wf (apply_tx auth grant now state settlement).
Proof.
  intros Hs s a s' Hwf H. unfold apply_tx in H. tx_inv H. simpl.
  select (consume_grant_records _ _ _ = _) (fun Hg => apply wf_consume_grant in Hg; [|done]).
  by apply wf_set_attempt_state.
Qed.

(** *** Credential rotation *)

Lemma foldl_delete_lookup {V} (ks : list string) (m : gmap string V) k :
  foldl (λ m k, delete k m) m ks !! k = if decide (k ∈ ks) then None else m !! k.
Proof.
  revert m. induction ks as [|k' ks IH]; intros m; cbn [foldl].
  - case_decide as Hk; [by apply not_elem_of_nil in Hk|done].
  - rw IH. destruct (decide (k = k')) as [->|Hne].
    + rw lookup_delete_eq. repeat case_decide; set_solver.
    + rw lookup_delete_ne; [|done]. repeat case_decide; set_solver.
Qed.

Lemma remove_incarnation_lookup {V} (f : V → string) inc (m : gmap string V) k v :
  remove_incarnation f inc m !! k = Some v ↔ m !! k = Some v ∧ f v ≠ inc.
Proof.
  unfold remove_incarnation. rw foldl_delete_lookup.
  assert (k ∈ (filter (λ kv, f kv.2 = inc) (btree_iter m)).*1 ↔
          ∃ v, m !! k = Some v ∧ f v = inc) as Hk.
  { rw list_elem_of_fmap. split.
    - intros ([k' v'] & -> & [? Hin]%list_elem_of_filter). apply elem_of_btree_iter in Hin. eauto.
    - intros (v' & Hv & Hf). exists (k, v'). split; [done|]. apply list_elem_of_filter.
      split; [done|]. by apply elem_of_btree_iter. }
  case_decide as Hd; rw Hk in Hd; naive_solver.
Qed.

(** Invalidating a list of incarnations keeps exactly the derived authority of
    the others. *)
Lemma invalidate_all incs st :
  let st' := foldl invalidate_incarnation st incs in
  au_credentials st' = au_credentials st ∧ au_attempts st' = au_attempts st ∧
  au_schema_version st' = au_schema_version st ∧ au_owner_id st' = au_owner_id st ∧
  au_control_epoch st' = au_control_epoch st ∧
  au_capability_generation st' = au_capability_generation st ∧
  au_policy_revision st' = au_policy_revision st ∧
  au_next_auth_generation st' = au_next_auth_generation st ∧
  (∀ k r, au_resources st' !! k = Some r ↔
     au_resources st !! k = Some r ∧ sr_credential_incarnation r ∉ incs) ∧
  (∀ k c, au_capabilities st' !! k = Some c ↔
     au_capabilities st !! k = Some c ∧ cp_credential_incarnation c ∉ incs) ∧
  (∀ k l, au_leases st' !! k = Some l ↔
     au_leases st !! k = Some l ∧ ls_credential_incarnation l ∉ incs).
Proof.
  revert st. induction incs as [|inc incs IH]; intros st; cbn [foldl].
  - split_and!; try done; intros; set_solver.
  - destruct (IH (invalidate_incarnation st inc)) as (-> & -> & -> & -> & -> & -> & -> & -> & Hr & Hc & Hl).
    split_and!; try done; intros k v; [rw Hr|rw Hc|rw Hl]; simpl;
      rw remove_incarnation_lookup not_elem_of_cons; naive_solver.
Qed.

(** What the loop of [set_credentials] produces. *)
Lemma install_credential_inv c s r dead s' :
  wf (tx_auth s) → install_credential c s = inr ((r, dead), s') →
  sc_credential_id r = hc_id c ∧
  sc_credential_fingerprint r = credential_fingerprint (hc_secret c) ∧
  (∃ n, tx_auth s' = set_next_auth_generation (tx_auth s) n ∧ is_u64 n ∧
        (au_next_auth_generation (tx_auth s) ≤ n)%Z ∧ cred_ok n r).
Proof.
  intros Hwf H. unfold install_credential in H.
  apply tx_bind_inr in H as (st & s1 & Hg & H). tx_inv Hg.
  destruct (find _ _) as [r0|] eqn:Hf.
  - apply find_some in Hf as [Hin%list_elem_of_In Hid%bool_decide_eq_true].
    pose proof (proj1 (Forall_forall _ _) (wf_creds _ Hwf) _ Hin) as Hok.
    destruct (decide _) as [Hfp|Hfp].
    + tx_inv H. split; [done|]. split; [done|].
      exists (au_next_auth_generation (tx_auth s)). split; [by destruct s as [[]]|].
      split; [apply Hwf|]. split; [lia|done].
    + unfold allocate_auth_generation in H. tx_inv H. simplify_eq. simpl.
      split; [done|]. split; [done|]. eexists; split; [done|].
      select (checked_add _ _ = _) (fun Hc => pose proof (is_u64_add _ _ Hc (wf_next _ Hwf));
        apply checked_add_Some in Hc as [-> _]).
      split; [done|]. split; [lia|]. destruct Hok. constructor; simpl; auto.
      pose proof (wf_next _ Hwf) as []. lia.
  - unfold allocate_auth_generation in H. tx_inv H. simplify_eq. simpl.
    split; [done|]. split; [done|]. eexists; split; [done|].
    select (checked_add _ _ = _) (fun Hc => pose proof (is_u64_add _ _ Hc (wf_next _ Hwf));
      apply checked_add_Some in Hc as [-> _]).
    split; [done|]. split; [lia|]. constructor; simpl; auto.
    pose proof (wf_next _ Hwf) as []. lia.
Qed.

Lemma wf_next_generation st n :
  wf st → is_u64 n → (au_next_auth_generation st ≤ n)%Z → wf (set_next_auth_generation st n).
Proof.
  intros [] ? ?. constructor; simpl; try done.
  eapply Forall_impl; [done|]. intros c []. constructor; [done..|lia].
Qed.

Lemma install_credentials_inv cs s next dead s' :
  wf (tx_auth s) → install_credentials cs s = inr ((next, dead), s') →
  sc_credential_id <$> next = hc_id <$> cs ∧
  sc_credential_fingerprint <$> next = credential_fingerprint ∘ hc_secret <$> cs ∧
  (∃ n, tx_auth s' = set_next_auth_generation (tx_auth s) n ∧ wf (tx_auth s') ∧
        (au_next_auth_generation (tx_auth s) ≤ n)%Z ∧ Forall (cred_ok n) next).
Proof.
  revert s next dead s'. induction cs as [|c cs IH]; intros s next dead s' Hwf H; simpl in H.
  - tx_inv H. simplify_eq. split; [done|]. split; [done|].
    exists (au_next_auth_generation (tx_auth s)). split; [by destruct s as [[]]|].
    split; [done|]. split; [lia|constructor].
  - apply tx_bind_inr in H as ([r d] & s1 & H1 & H).
    apply tx_bind_inr in H as ([rs d'] & s2 & H2 & H). tx_inv H. simplify_eq.
    apply install_credential_inv in H1 as (Hid & Hfp & n1 & Hs1 & Hn1 & Hle1 & Hok); [|done].
    assert (wf (tx_auth s1)) as Hwf1 by (rw Hs1; by apply wf_next_generation).
    apply IH in H2 as (Hids & Hfps & n2 & Hs2 & Hwf2 & Hle2 & Hoks); [|done].
    rw Hs1 /= in Hle2. split; [simpl; by f_equal|]. split; [simpl; by f_equal|].
    exists n2. split; [by rw Hs2 Hs1|]. split; [done|]. split; [lia|].
    constructor; [|done]. destruct Hok. constructor; [done..|lia].
Qed.

Lemma duplicate_id_NoDup seen cs :
  duplicate_id seen cs = false → NoDup (hc_id <$> cs) ∧ ∀ c, c ∈ cs → hc_id c ∉ seen.
Proof.
  revert seen. induction cs as [|c cs IH]; intros seen; simpl; [split; [constructor|set_solver]|].
  intros [Hc%bool_decide_eq_false (Hn & Hs)%IH]%orb_false_iff. split.
  - constructor; [|done]. intros (c' & Heq & Hin)%list_elem_of_fmap.
    apply (Hs c' Hin). rw -Heq. by left.
  - intros c' [->|Hin]%elem_of_cons; [done|]. specialize (Hs c' Hin). set_solver.
Qed.

Lemma gone_incarnations_spec old next inc :
  inc ∈ gone_incarnations old next ↔ live_inc old inc ∧ ¬ live_inc next inc.
Proof.
  unfold gone_incarnations, live_inc. rw !list_elem_of_fmap. split.
  - intros (c & -> & [Hn Hin]%list_elem_of_filter). split; [eauto|].
    by rw -list_elem_of_fmap.
  - intros [(c & -> & Hin) Hn]. exists c. split; [done|]. apply list_elem_of_filter.
    split; [|done]. by rw list_elem_of_fmap.
Qed.

(** The snapshot after [set_credentials]. *)
Lemma set_credentials_inv cs s u s' :
  wf (tx_auth s) → set_credentials_tx cs s = inr (u, s') →
  ∃ next dead n, let st := tx_auth s in let st' := tx_auth s' in
    install_credentials cs s = inr ((next, dead), {| tx_auth := set_next_auth_generation st n;
                                                     tx_tick := tx_tick s' |}) ∧
    au_credentials st' = next ∧ au_next_auth_generation st' = n ∧
    au_attempts st' = au_attempts st ∧ au_schema_version st' = au_schema_version st ∧
    au_control_epoch st' = au_control_epoch st ∧
    au_capability_generation st' = au_capability_generation st ∧
    au_policy_revision st' = au_policy_revision st ∧
    let gone := dead ++ gone_incarnations (au_credentials st) next in
    (∀ k r, au_resources st' !! k = Some r ↔
       au_resources st !! k = Some r ∧ sr_credential_incarnation r ∉ gone) ∧
    (∀ k c, au_capabilities st' !! k = Some c ↔
       au_capabilities st !! k = Some c ∧ cp_credential_incarnation c ∉ gone) ∧
    (∀ k l, au_leases st' !! k = Some l ↔
       au_leases st !! k = Some l ∧ ls_credential_incarnation l ∉ gone).
Proof.
  intros Hwf H. unfold set_credentials_tx in H.
  apply tx_bind_inr in H as ([next dead] & s1 & H1 & H).
  pose proof (install_credentials_inv _ _ _ _ _ Hwf H1) as (_ & _ & n & Hs1 & _).
  tx_inv H. exists next, dead, n. simpl.
  assert (s1 = {| tx_auth := set_next_auth_generation (tx_auth s) n; tx_tick := tx_tick s1 |}) as Es1.
  { rw -Hs1. by destruct s1. }
  split; [by rw {1}Es1 in H1|].
  destruct (invalidate_all (dead ++ gone_incarnations (au_credentials (tx_auth s1)) next)
    (tx_auth s1)) as (_ & -> & -> & _ & -> & -> & -> & -> & Hr & Hc & Hl).
  rw Hs1 in Hr, Hc, Hl. rw Hs1. split_and!; done.
Qed.

Lemma tx_wf_set_credentials cs :
  duplicate_id [] cs = false → tx_wf wf (set_credentials_tx cs).
Proof.
  intros [Hdup _]%duplicate_id_NoDup s u s' Hwf H.
  destruct (set_credentials_inv _ _ _ _ Hwf H)
    as (next & dead & n & Hi & Ec & En & Ea & Es & Ee & Eg & Ep & Hr & Hc & Hl).
  destruct (install_credentials_inv _ _ _ _ _ Hwf Hi) as (Hids & _ & n' & En' & Hwf1 & _ & Hoks).
  simpl in En', Hwf1. injection En' as <-. clear Hi H.
  assert (∀ inc, live_inc (au_credentials (tx_auth s)) inc →
    inc ∉ dead ++ gone_incarnations (au_credentials (tx_auth s)) next → live_inc next inc) as Hlive.
  { intros inc Hinc Hng. destruct (decide (inc ∈ sc_incarnation <$> next)); [done|].
    destruct Hng. apply elem_of_app. right. by apply gone_incarnations_spec. }
  destruct Hwf. constructor; rw ?Ec ?En ?Ea ?Es ?Ee ?Eg ?Ep; try done.
  - apply Hwf1.
  - by rw Hids.
  - intros k r [Hk Hng]%Hr. destruct (wf_resources0 k r Hk). constructor; auto.
  - intros k c [Hk Hng]%Hc. destruct (wf_capabilities0 k c Hk). constructor; auto.
  - intros k l [Hk Hng]%Hl. destruct (wf_leases0 k l Hk). constructor; auto.
Qed.

End transactions.
