(* ===== verification/Operator.v ===== *)
(** * Opening a root, the operator send host, and the read-only surfaces

    Models [HostAuthority::open] and [principal_projection] of [store.rs],
    [operator_send.rs], [projection.rs] and [internal.rs] of
    [crates/common/xai-host-authority/src]. *)

From S2P Require Import Prelude Text Ids State World AuditWal Store Gates.

Section open.
  Context {Cdc : Codec} {Env : Environment}.

(** [Path::exists]: an I/O error reads as absent. *)
Definition state_file_exists : M bool :=
  n ← tick;
  match io_event n with
  | IoOk => gets (λ w, bool_decide (is_Some (d_state (w_disk w))))
  | IoErr _ _ => mret false
  | IoCrash _ => crash
  end.

(** [try_lock_exclusive] on [admin.lock]; any failure is the one error. *)
Definition take_admin_lock : M unit :=
  locked ← attempt_ io;
  held ← gets w_admin_held;
  match locked, held with
  | inr _, false => modify (λ w, set_admin_held w true)
  | _, _ => raise (Durability
      "authority root is already held by another host; admin authority is exclusive")
  end.

(** The locked [File] is dropped when the rest of [open] fails, and the
    operating system releases the lock when the process dies. *)
Definition release_on_failure {A} (m : M A) : M A := λ w,
  match m w with
  | (Done a, w') => (Done a, w')
  | (Raised e, w') => (Raised e, set_admin_held w' false)
  | (Crashed, w') => (Crashed, set_admin_held w' false)
  end.

Definition bump_control_epoch : Tx unit :=
  st ← tx_get;
  epoch ← tx_res (ok_or (Durability "control epoch exhausted")
                    (checked_add (au_control_epoch st) 1));
  tx_put (set_control_epoch st epoch).

(** Both mutexes of a new handle are fresh. *)
Definition fresh_mutexes (w : World) : World := {|
  w_disk := w_disk w; w_admin_held := w_admin_held w; w_audit := w_audit w;
  w_lifecycle_poisoned := false; w_audit_poisoned := false; w_tick := w_tick w |}.

Definition root_binding (root fingerprint : string) : ContentDigest :=
  of_fields [("authority-root", root); ("custody", fingerprint)].

Definition open (requested_root : string) (admin_credential : HostAdminCredential)
    : M (HostAuthority * HostAdminAuthority) :=
  let fingerprint := admin_credential_fingerprint (hac_secret admin_credential) in
  _ ← io;
  _ ← io;
  let binding := root_binding (canonicalize requested_root) fingerprint in
  _ ← io;
  _ ← take_admin_lock;
  release_on_failure (
    _ ← audit_open;
    exists_ ← state_file_exists;
    evidence ← (if exists_ : bool then mret false else has_content);
    if evidence : bool then
      raise (CorruptState "authority root is missing but prior audit evidence exists")
    else
      _ ← modify fresh_mutexes;
      _ ← with_state_init fingerprint bump_control_epoch;
      _ ← replay_attempt_settlements;
      mret ({| ha_root_binding := binding |}, {| ad_root_binding := binding |})).

(** Dropping the handle closes [admin.lock]. *)
Definition drop_authority : M unit := modify (λ w, set_admin_held w false).

(** ** Read-only surfaces *)

Record PrincipalProjection := {
  pp_principal : string;
  pp_credential_id : string;
  pp_owner_id : string;
  pp_auth_generation : Z;
  pp_capability_generation : Z;
  pp_policy_revision : Z;
  pp_control_epoch : Z;
}.

Definition from_context (auth : AuthContext) : PrincipalProjection := {|
  pp_principal := public_handle (ac_principal auth);
  pp_credential_id := ac_credential_id auth;
  pp_owner_id := ac_owner_id auth;
  pp_auth_generation := ac_auth_generation auth;
  pp_capability_generation := ac_capability_generation auth;
  pp_policy_revision := ac_policy_revision auth;
  pp_control_epoch := ac_control_epoch auth;
|}.

Definition principal_projection (auth : AuthContext) : M PrincipalProjection :=
  _ ← require_current auth;
  mret (from_context auth).

Record ServiceLivenessProjection := {
  sv_schema_version : Z;
  sv_credentials_configured : bool;
  sv_control_epoch : Z;
  sv_policy_revision : Z;
  sv_capability_generation : Z;
}.

(** [InternalServiceAuthority::open_probe]: no lock is taken. *)
Definition open_probe (requested_root : string) : M string :=
  _ ← io;
  _ ← io;
  mret (canonicalize requested_root).

Definition liveness_projection : M ServiceLivenessProjection :=
  _ ← io;
  t ← gets (λ w, d_state (w_disk w));
  match t with
  | None => mret {| sv_schema_version := SCHEMA_VERSION; sv_credentials_configured := false;
                    sv_control_epoch := 0; sv_policy_revision := 0;
                    sv_capability_generation := 0 |}
  | Some text =>
      st ← lift_json CorruptState (state_from_json text);
      st ← lift_res (check_schema st);
      mret {| sv_schema_version := au_schema_version st;
              sv_credentials_configured := negb (bool_decide (au_credentials st = []));
              sv_control_epoch := au_control_epoch st;
              sv_policy_revision := au_policy_revision st;
              sv_capability_generation := au_capability_generation st |}
  end.

(** ** The operator send host *)

Definition AUTHORITY_REL : string := "authority/provider-send-v1".
Definition OPERATOR_CREDENTIAL_ID : string := "operator".

Record OperatorSendHost := {
  oh_authority : HostAuthority;
  oh_admin : HostAdminAuthority;
  oh_operator_bearer : string;
}.

Definition derive_operator_bearer (custody : string) : string :=
  hex (sha256 (("xai-host-authority/operator-send-v1" +:+ NUL) +:+ custody)).

Definition secure_directory : M unit := io.

(** [create_custody] with [O_EXCL]: [None] is [AlreadyExists]. *)
Definition create_custody : M (option string) :=
  _ ← io;
  existing ← gets (λ w, d_custody (w_disk w));
  match existing with
  | Some _ => mret None
  | None =>
      _ ← modify (λ w, set_disk w (set_d_custody (w_disk w) (Some (384%Z, ""))));
      a ← tick;
      b ← tick;
      let secret := hex (uuid_v4 a) +:+ hex (uuid_v4 b) in
      _ ← io_write (λ s d, set_d_custody d
            ((λ f, (f.1, f.2 +:+ s)) <$> d_custody d)) secret;
      _ ← io;
      _ ← io;
      _ ← io;
      mret (Some secret)
  end.

(** The mode test is [mode & 0o077 != 0]; at most 4096 bytes are read. *)
Definition read_custody : M string :=
  _ ← io;
  file ← gets (λ w, d_custody (w_disk w));
  match file with
  | None => raise (Durability "No such file or directory")
  | Some (mode, content) =>
      if decide (Z.land (Z.land mode 511) 63 ≠ 0)%Z then
        raise (Durability "operator send custody key must not be group/world accessible")
      else
        _ ← io;
        _ ← io;
        let value := string_take 4096 content in
        if negb (utf8_valid value) then raise (Durability "stream did not contain valid UTF-8")
        else
          let value := trim value in
          if decide (String.length value < 32)%nat then
            raise (Durability "operator send custody key is incomplete")
          else mret value
  end.

Definition load_or_create_custody : M string :=
  _ ← io;
  _ ← secure_directory;
  created ← create_custody;
  match created with
  | Some secret => mret secret
  | None => read_custody
  end.

Definition open_process_host (root : string) : M OperatorSendHost :=
  _ ← io;
  _ ← secure_directory;
  custody ← load_or_create_custody;
  admin ← lift_res (HostAdminCredential_new custody);
  '(authority, admin_authority) ← open root admin;
  release_on_failure (
    _ ← recover_incomplete authority admin_authority;
    let operator_bearer := derive_operator_bearer custody in
    credential ← lift_res (HostCredential_new OPERATOR_CREDENTIAL_ID operator_bearer);
    _ ← set_credentials authority admin_authority [credential];
    mret {| oh_authority := authority; oh_admin := admin_authority;
            oh_operator_bearer := operator_bearer |}).

Definition OperatorSendHost_admit (host : OperatorSendHost) (request : RequestIdentity) (target_scope : string)
    : M (AuthContext * PhysicalSendPermit) :=
  auth ← authenticate (oh_operator_bearer host);
  permit ← admit_operator_send auth request target_scope;
  mret (auth, permit).

Definition replace_operator_secret (host : OperatorSendHost) (secret : string) : M unit :=
  credential ← lift_res (HostCredential_new OPERATOR_CREDENTIAL_ID secret);
  set_credentials (oh_authority host) (oh_admin host) [credential].

Definition host_rotate_capability_generation (host : OperatorSendHost) : M unit :=
  _ ← rotate_capability_generation (oh_authority host) (oh_admin host);
  mret ().

Definition read_attempt_states (auth : AuthContext) : M (list string) :=
  read (λ st,
    _ ← require_current_state st auth;
    inr ((λ kv, at_state kv.2) <$> btree_iter (au_attempts st))).

Definition attempt_states (host : OperatorSendHost) : M (list string) :=
  auth ← authenticate (oh_operator_bearer host);
  read_attempt_states auth.

(** ** Process-wide state: the root override and the host opened once *)

Record ProcessState := {
  ps_override : option string;
  ps_host : option (Res OperatorSendHost);
  ps_isolated : bool;
}.

Definition install_operator_send_root (path : string) (ps : ProcessState) : ProcessState :=
  match ps_host ps with
  | None => {| ps_override := Some path; ps_host := None; ps_isolated := ps_isolated ps |}
  | Some _ => ps
  end.

(** [names.windows(2).any(...)] *)
Fixpoint under_cargo_target (names : list string) : bool :=
  match names with
  | a :: ((b :: _) as rest) =>
      bool_decide (a = "target" ∧ (b = "debug" ∨ b = "release" ∨ b = "deps" ∨ b = "tmp"))
      || under_cargo_target rest
  | _ => false
  end.

(** [exe] is the list of path components of the executable, if known. *)
Definition isolate_cargo_target_binaries (exe : option (list string)) (temp_path : string)
    (ps : ProcessState) : ProcessState :=
  if ps_isolated ps then ps
  else
    let done_ o := {| ps_override := o; ps_host := ps_host ps; ps_isolated := true |} in
    match ps_override ps, ps_host ps, exe with
    | None, None, Some names =>
        if under_cargo_target names then done_ (Some temp_path) else done_ None
    | o, _, _ => done_ o
    end.

Definition process_root (grok_home : string) (ps : ProcessState) : string :=
  match ps_override ps with
  | Some path => path
  | None => grok_home +:+ "/" +:+ AUTHORITY_REL
  end.

(** [OperatorSendHost::process]: [get_or_init] stores the first result, an error
    included, and every later call returns it. *)
Definition process (exe : option (list string)) (temp_path grok_home : string)
    (ps : ProcessState) : M (Res OperatorSendHost * ProcessState) :=
  let ps := isolate_cargo_target_binaries exe temp_path ps in
  match ps_host ps with
  | Some result => mret (result, ps)
  | None =>
      result ← attempt_ (open_process_host (process_root grok_home ps));
      mret (result, {| ps_override := ps_override ps; ps_host := Some result;
                       ps_isolated := ps_isolated ps |})
  end.

End open.
