(* ===== verification/Safety.v ===== *)
(** * Every method preserves the invariant

    [safe m]: whatever [m] does and however it ends, the log only grows, the
    invariant is preserved and an intact log afterwards extends an intact log
    before.  The last section states the same of [HostAuthority::open], which
    establishes the cached head. *)

From S2P Require Import Prelude Text Ids State World AuditWal AuditFacts Store StoreFacts Gates Reconcile Wellformed Operator.

Section safety.
  Context {Cdc : Codec} {Env : Environment} {CL : CodecLaws} {EL : EnvironmentLaws}.

Abbreviation safe := (safe wf).

Lemma safe_bind_res {A B} (r : Res A) (f : A → M B) :
  (∀ a, r = inr a → safe (f a)) → safe (lift_res r ≫= f).
Proof. intros Hf. destruct r as [e|a]; [apply safe_raise|]. intros w. by apply Hf. Qed.

Lemma safe_bind_post {A B} (m : M A) (f : A → M B) (φ : A → Prop) :
  safe m → (∀ w a w', m w = (Done a, w') → φ a) → (∀ a, φ a → safe (f a)) → safe (m ≫= f).
Proof.
  intros Hm Hφ Hf w. unfold mbind, M_bind. pose proof (Hm w) as Hw.
  destruct (m w) as [[a| |] w'] eqn:E; simpl in *; [|done..].
  eapply evolves_trans; [exact Hw|]. apply Hf. by eapply Hφ.
Qed.

Lemma safe_bind_mint {k B} (f : opaque_id k → M B) :
  (∀ i, id_ok i → safe (f i)) → safe (mint ≫= f).
Proof.
  intros Hf. eapply safe_bind_post; [eapply safe_RO, RO_mint| |exact Hf].
  intros w i w' [= <- _]. apply mint_ok.
Qed.

Lemma RO_lock_audit : RO lock_audit (λ w _, w_audit_poisoned w = false).
Proof. ro_seq RO_gets. intros []; [ro_end RO_raise|ro_end RO_ret]; naive_solver. Qed.

Lemma RO_env_current_dir : RO env_current_dir (λ _ _, True).
Proof.
  intros w. exists 1%nat. unfold env_current_dir, tick, mbind, M_bind. simpl.
  destruct (io_event (w_tick w)); done.
Qed.

Lemma safe_verify_chain : safe verify_chain.
Proof. eapply safe_RO, RO_verify_chain. Qed.
Lemma safe_records : safe records.
Proof. eapply safe_RO, RO_records. Qed.
Lemma safe_lock_audit : safe lock_audit.
Proof. eapply safe_RO, RO_lock_audit. Qed.
Lemma safe_env_current_dir : safe env_current_dir.
Proof. eapply safe_RO, RO_env_current_dir. Qed.

Hint Resolve safe_verify_chain safe_records safe_lock_audit safe_env_current_dir : safe.

(** ** Gate 1 *)

Lemma safe_set_credentials h admin cs : safe (set_credentials h admin cs).
Proof.
  apply safe_bind_res. intros _ _. case_decide; [apply safe_raise|].
  destruct (duplicate_id [] cs) eqn:Hd; [apply safe_raise|].
  by apply safe_with_state, tx_wf_set_credentials.
Qed.

Lemma safe_authenticate bearer : safe (authenticate bearer).
Proof. unfold authenticate. solve_safe. Qed.

Lemma safe_require_current auth : safe (require_current auth).
Proof. unfold require_current. solve_safe. Qed.

Lemma safe_principal_projection auth : safe (principal_projection auth).
Proof. unfold principal_projection. apply safe_bind; [apply safe_require_current|]. solve_safe. Qed.

Lemma safe_issue_session auth : safe (issue_session auth).
Proof. apply safe_with_state, tx_wf_issue_session. Qed.

Lemma safe_issue_workspace auth path : safe (issue_workspace auth path).
Proof. apply safe_with_state, tx_wf_issue_workspace. Qed.

Lemma safe_issue_resource auth session workspace obs :
  id_ok session → id_ok workspace → digest_ok obs →
  safe (issue_resource auth session workspace obs).
Proof.
  intros. unfold issue_resource. apply safe_bind; [|solve_safe].
  by apply safe_with_state, tx_wf_issue_resource.
Qed.

Lemma safe_obtain_provider_send_surface auth workspace scope :
  id_ok workspace → safe (obtain_provider_send_surface auth workspace scope).
Proof.
  intros Hw. apply safe_bind; [solve_safe|]. intros [id|]; [apply safe_ret|].
  apply safe_bind_mint. intros session Hs. apply safe_bind; [|solve_safe].
  apply safe_with_state, tx_wf_issue_resource; [done..|apply of_fields_ok].
Qed.

Lemma safe_resource_binding auth resource : safe (resource_binding auth resource).
Proof. unfold resource_binding. solve_safe. Qed.

Lemma safe_record_observation auth resource obs :
  digest_ok obs → safe (record_observation auth resource obs).
Proof. intros. by apply safe_with_state, tx_wf_record_observation. Qed.

Lemma safe_rotate_control_epoch h admin : safe (rotate_control_epoch h admin).
Proof. apply safe_bind; [solve_safe|]. intros _. apply safe_with_state, tx_wf_rotate_control_epoch. Qed.

Lemma safe_rotate_capability_generation h admin : safe (rotate_capability_generation h admin).
Proof.
  apply safe_bind; [solve_safe|]. intros _. apply safe_with_state, tx_wf_rotate_capability_generation.
Qed.

Lemma safe_rotate_policy_revision h admin : safe (rotate_policy_revision h admin).
Proof.
  apply safe_bind; [solve_safe|]. intros _. apply safe_with_state, tx_wf_rotate_policy_revision.
Qed.

Lemma safe_owner_id h admin : safe (owner_id h admin).
Proof. unfold owner_id. solve_safe. Qed.

(** ** Gates 2 and 3 *)

Lemma safe_replay_locked : safe replay_attempt_settlements_locked.
Proof.
  apply safe_bind; [solve_safe|]. intros _. apply safe_bind; [solve_safe|]. intros [].
  2: apply safe_ret.
  simpl. apply safe_bind; [solve_safe|]. intros rs. apply safe_bind_res. intros acc Hacc.
  case_decide; [apply safe_ret|]. apply safe_bind; [solve_safe|]. intros [];
    simpl; [|apply safe_ret]. by eapply safe_with_state, tx_wf_replay.
Qed.

Lemma safe_replay : safe replay_attempt_settlements.
Proof. apply safe_bind; [solve_safe|]. intros _. apply safe_replay_locked. Qed.

Lemma safe_seal_capability auth resource actor effect ttl :
  safe (seal_capability auth resource actor effect ttl).
Proof.
  unfold seal_capability. solve_safe. apply tx_wf_seal_capability.
Qed.

Lemma safe_mint_lease auth capability action ttl : safe (mint_lease auth capability action ttl).
Proof. unfold mint_lease. solve_safe. apply tx_wf_mint_lease. Qed.

Lemma safe_begin_send auth lease request route :
  digest_ok (request_body_digest request) → safe (begin_send auth lease request route).
Proof.
  intros Hb. unfold begin_send. solve_safe. by apply tx_wf_begin_send.
Qed.

Lemma safe_admit_sending auth permit : safe (admit_sending auth permit).
Proof. unfold admit_sending. solve_safe. apply tx_wf_admit_sending. Qed.

Lemma safe_settle permit state label detail :
  state_label state → safe (settle permit state label detail).
Proof. intros Hs. unfold settle. solve_safe. by apply tx_wf_settle. Qed.

Lemma safe_settle_settled permit : safe (settle_settled permit).
Proof. by apply safe_settle. Qed.
Lemma safe_settle_failed permit reason : safe (settle_failed_before_write permit reason).
Proof. by apply safe_settle. Qed.
Lemma safe_settle_uncertain permit reason : safe (settle_uncertain permit reason).
Proof. by apply safe_settle. Qed.

Lemma safe_recover_audit epoch outcome detail keys :
  safe (recover_audit epoch outcome detail keys).
Proof. induction keys as [|key keys IH]; simpl; solve_safe. Qed.

Lemma safe_recover_incomplete h admin : safe (recover_incomplete h admin).
Proof.
  apply safe_bind; [solve_safe|]. intros _. apply safe_bind; [solve_safe|]. intros _.
  apply safe_bind; [apply safe_replay_locked|]. intros _. apply safe_bind; [solve_safe|].
  intros [preparing sending]. apply safe_bind; [solve_safe|]. intros epoch.
  apply safe_bind; [apply safe_recover_audit|]. intros _.
  apply safe_bind; [apply safe_recover_audit|]. intros _.
  case_decide; [apply safe_ret|]. apply safe_with_state, tx_wf_recover.
Qed.

Lemma issue_workspace_ok auth path w i w' :
  issue_workspace auth path w = (Done i, w') → id_ok i.
Proof.
  intros H. pose proof (wp_run _ _ _ _ _ H (wp_with_state _ w)) as [[_ Hno]|(a & Hc & Ha)].
  { by destruct (Hno i). }
  specialize (Ha i eq_refl) as ->. destruct Hc as (st & m & n & s & t & _ & Hf & _).
  tx_inv Hf. unfold id_ok. cbn [id_bytes].
  assert (String.length (digest_bytes (of_fields [("workspace", path)])) = 32%nat) as Hl
    by apply of_fields_ok.
  by rw string_take_length Hl.
Qed.

Lemma safe_admit_operator_send auth request scope :
  digest_ok (request_body_digest request) → safe (admit_operator_send auth request scope).
Proof.
  intros Hb. apply safe_bind; [solve_safe|]. intros cwd.
  eapply safe_bind_post; [apply safe_issue_workspace|by eapply issue_workspace_ok|].
  intros workspace Hw. apply safe_bind; [by apply safe_obtain_provider_send_surface|].
  intros resource. apply safe_bind; [apply safe_seal_capability|]. intros capability.
  apply safe_bind; [apply safe_mint_lease|]. intros lease.
  apply safe_bind; [by apply safe_begin_send|]. intros permit. apply safe_admit_sending.
Qed.

(** ** Reconciliation *)

Lemma safe_verified_records : safe verified_records.
Proof. unfold verified_records. solve_safe. Qed.
Hint Resolve safe_verified_records : safe.

Lemma safe_pre_wire attempt record : safe (host_has_pre_wire_evidence attempt record).
Proof. unfold host_has_pre_wire_evidence, wire_admission_recorded. solve_safe. Qed.
Hint Resolve safe_pre_wire : safe.

Lemma safe_mint_reconciliation_grant auth session workspace handle disposition ttl :
  safe (mint_reconciliation_grant auth session workspace handle disposition ttl).
Proof.
  apply safe_bind; [solve_safe|]. intros [attempt record].
  apply safe_bind; [unfold check_grantable; solve_safe|]. intros _.
  apply safe_bind; [solve_safe|]. intros resource.
  apply safe_bind; [apply safe_seal_capability|]. intros capability.
  apply safe_bind; [solve_safe|]. intros route.
  apply safe_bind; [apply safe_mint_lease|]. intros lease. apply safe_ret.
Qed.

Lemma safe_mint_reconciliation_grant_for_attempt auth attempt disposition ttl :
  safe (mint_reconciliation_grant_for_attempt auth attempt disposition ttl).
Proof.
  apply safe_bind; [solve_safe|]. intros [[session workspace] handle].
  apply safe_mint_reconciliation_grant.
Qed.

Lemma safe_consume_reconciliation_lease auth grant now :
  safe (consume_reconciliation_lease auth grant now).
Proof. apply safe_with_state, tx_wf_consume_reconciliation. Qed.
Hint Resolve safe_consume_reconciliation_lease : safe.

(** The record read before the commit carries a lifecycle label, so the
    unchanged state that [Review] writes back is one. *)
Lemma safe_commit_reconciliation auth grant now : safe (commit_reconciliation auth grant now).
Proof.
  intros w. unfold commit_reconciliation.
  apply (safe_bind_inv wf (read (reread_attempt auth grant)) _
           (λ p, state_label (at_state p.1))).
  - eapply safe_RO, RO_read.
  - intros w0 [current epoch] w1 Hi E. simpl.
    destruct (RO_read (reread_attempt auth grant) w0) as (n & _ & Hr). rw E /= in Hr.
    destruct (Hr _ eq_refl) as (st & Hst & Hre). unfold reread_attempt in Hre.
    apply res_bind_inr in Hre as (? & _ & (r & Hl%ok_or_inr & (? & _ & Hre)%res_bind_inr)%res_bind_inr).
    case_decide; simplify_eq. apply (wf_attempts st) in Hl as []; [done|]. by apply Hi.
  - intros [current epoch] Hs. simpl in *. apply safe_bind; [solve_safe|]. intros _.
    apply safe_bind; [|intros _; solve_safe]. apply safe_with_state, tx_wf_apply.
    destruct (rg_disposition grant); simpl; auto.
  - intros [current epoch]. apply log_grows_bind; [apply (log_grows_append_audit wf)|]. intros _.
    apply log_grows_bind; [apply log_grows_with_state|]. intros _. eapply log_grows_RO, RO_read.
Qed.

Lemma safe_apply_reconciliation auth grant evidence :
  safe (apply_reconciliation auth grant evidence).
Proof.
  unfold apply_reconciliation, check_disposition, check_conflict, audited_reconciliation_truth.
  solve_safe; apply safe_commit_reconciliation.
Qed.

(** ** Read-only surfaces *)

Lemma safe_ambiguous_attempts h admin : safe (ambiguous_attempts h admin).
Proof. unfold ambiguous_attempts. solve_safe. Qed.
Lemma safe_attempt_projection auth attempt : safe (attempt_projection auth attempt).
Proof. unfold attempt_projection. solve_safe. Qed.
Lemma safe_list_scoped auth session workspace :
  safe (list_scoped_attempt_projections auth session workspace).
Proof. unfold list_scoped_attempt_projections. solve_safe. Qed.
Lemma safe_scoped_attempt_projection auth session workspace handle :
  safe (scoped_attempt_projection auth session workspace handle).
Proof. unfold scoped_attempt_projection. solve_safe. Qed.
Lemma safe_audit_records h admin : safe (audit_records h admin).
Proof. unfold audit_records. solve_safe. Qed.
Lemma safe_audit_chain_intact h admin : safe (audit_chain_intact h admin).
Proof. unfold audit_chain_intact. solve_safe. Qed.
Lemma safe_liveness_projection : safe liveness_projection.
Proof.
  apply (safe_RO _ _ (λ _ _, True)). ro_seq RO_io. intros ?. ro_seq RO_gets. intros [t|].
  - ro_seq RO_lift_json. intros st. ro_seq RO_lift_res. intros st'. by ro_end RO_ret.
  - by ro_end RO_ret.
Qed.
Lemma safe_read_attempt_states auth : safe (read_attempt_states auth).
Proof. unfold read_attempt_states. solve_safe. Qed.

End safety.
