(* ===== verification/Trace.v ===== *)
(** * The authority as a transition system

    A system is stopped or runs one [HostAuthority] handle; a step is one call
    of a public method with arguments of the right types, the end of the
    process at any effect of a call, a drop, or an [open].  Each call runs as
    one step: the lifecycle and audit mutexes and the exclusive file locks
    serialise the methods.  The invariant holds in every reachable system and
    the log is append-only along every run. *)

From S2P Require Import Prelude Text Ids State World AuditWal AuditFacts Store StoreFacts Gates Reconcile Wellformed Operator Safety.

Section trace.
  Context {Cdc : Codec} {Env : Environment} {CL : CodecLaws} {EL : EnvironmentLaws}.

(** ** Opening *)

Definition disk_inv (d : Disk) : Prop := log_inv d ∧ ∀ st, holds d st → wf st.

Lemma wp_audit_open w :
  log_room (w_disk w) → wp audit_open (λ o w', audit_only w w' ∧ cache_ok w') w.
Proof.
  intros Hr. unfold audit_open. apply wp_bind_modify.
  set (a := {| al_sequence := 0; al_previous_digest := GENESIS_DIGEST;
               al_observed_len := 0; al_damaged := None |}).
  assert (cache_ok (set_audit w a)) as Hc.
  { split; [done|]. simpl. intros _ Hl rs Hi. symmetry in Hl.
    assert (log_text (w_disk w) = "") as Ht.
    { unfold log_len in Hl. destruct (log_text (w_disk w)); [done|simpl in Hl; lia]. }
    by destruct (intact_empty _ _ Ht Hi) as [-> ?]. }
  ro_step RO_audit_lock; [|intros; split; [do 2 eexists; reflexivity|exact Hc]..].
  intros n u0 _. eapply wp_mono.
  - apply wp_replay; simpl; try done. destruct (decide (log_text (w_disk w) = "")); [by right|].
    left. unfold log_len. destruct (log_text (w_disk w)); [done|simpl; lia].
  - intros o w' ((n' & a' & ->) & ? & _). split; [|done]. by do 2 eexists.
Qed.

Lemma log_grows_audit_open : log_grows audit_open.
Proof.
  apply log_grows_bind; [apply moves_put_audit, _|]. intros _.
  apply log_grows_bind; [eapply log_grows_RO, RO_audit_lock|]. intros _. apply moves_replay, _.
Qed.

Lemma tx_wf_bump : tx_wf wf bump_control_epoch.
Proof.
  intros s a s' Hwf H. unfold bump_control_epoch in H. tx_inv H. simpl.
  select (checked_add _ _ = _) (fun Hc => pose proof (proj1 (checked_add_Some _ _ _) Hc) as [-> _]).
  pose proof (wf_epoch _ Hwf) as He.
  constructor; simpl; try apply Hwf; [eapply is_u64_add; eassumption|..];
    intros k v Hv; [destruct (wf_resources _ Hwf k v Hv)|destruct (wf_capabilities _ Hwf k v Hv)
                   |destruct (wf_leases _ Hwf k v Hv)]; constructor; try done; lia.
Qed.

Lemma safe_with_state_init {A} fp (f : Tx A) : tx_wf wf f → safe wf (with_state_init fp f).
Proof.
  intros Hf w. pose proof (wp_with_state_init fp f w) as Hw. unfold wp in Hw.
  destruct Hw as [[[n ->] _]|(a & st & m & n & s & t & Hst & Hfs & Ht & -> & _)];
    [apply evolves_tick|].
  split; [by exists ""; rw string_app_nil_r|]. intros _ [[Hl Hc] Hwf].
  split; [|intros rs' Hrs'; by exists rs']. split; [split; [exact Hl|exact Hc]|].
  intros st' (t' & [= <-] & Hp & _). apply state_json_roundtrip in Ht.
  assert (st' = tx_auth s) as -> by congruence. eapply Hf; [|exact Hfs]. simpl.
  destruct Hst as [[? _]|(_ & i & ->)]; [by apply Hwf|apply wf_new].
Qed.

Lemma RO_state_file_exists : RO state_file_exists (λ _ _, True).
Proof.
  intros w. exists 1%nat. unfold state_file_exists, tick, mbind, M_bind. simpl.
  destruct (io_event (w_tick w)); done.
Qed.

Lemma RO_has_content : RO has_content (λ _ _, True).
Proof. ro_seq RO_io. intros ?. by ro_end RO_gets. Qed.

Lemma evolves_frame w w' d :
  d = w_disk w' → w_disk w = d → w_audit w = w_audit w' → evolves wf w w'.
Proof.
  intros -> Hd Ha. split; [rw -Hd; apply grows_refl|]. intros _ [[Hl Hc] Hw].
  split; [|rw -Hd; apply append_only_refl]. unfold Inv, audit_inv, cache_ok. rw -Hd -Ha.
  by split.
Qed.

Lemma safe_release {A} (m : M A) : safe wf m → safe wf (release_on_failure m).
Proof.
  intros Hm w. pose proof (Hm w) as Hw. unfold release_on_failure.
  destruct (m w) as [[] w'];
    [exact Hw|(eapply evolves_trans; [exact Hw|]; by eapply evolves_frame)..].
Qed.

(** What a failing or a successful [open] leaves behind. *)
Definition open_post {A} (w : World) (o : outcome A) (w' : World) : Prop :=
  grows (w_disk w) (w_disk w') ∧
  (log_room (w_disk w') → disk_inv (w_disk w) →
   disk_inv (w_disk w') ∧ append_only (w_disk w) (w_disk w') ∧ ∀ a, o = Done a → Inv wf w').

Lemma open_post_same {A} w (o : outcome A) w' :
  (∀ a, o ≠ Done a) → w_disk w' = w_disk w → open_post w o w'.
Proof.
  intros Ho Hd. split; [rw Hd; apply grows_refl|]. rw Hd. intros _ Hi.
  split; [done|]. split; [apply append_only_refl|]. intros a E. by destruct (Ho a).
Qed.

(** The part of [open] under the lock. *)
Lemma open_body_post {A} (m : M A) w w0 :
  safe wf m → w_disk w0 = w_disk w →
  wp (release_on_failure (_ ← audit_open; m)) (open_post w) w0.
Proof.
  intros Hm Hd. unfold wp.
  pose proof (wp_audit_open w0) as Ho. pose proof (log_grows_audit_open w0) as Hg.
  unfold wp in Ho. unfold release_on_failure, mbind, M_bind.
  destruct (audit_open w0) as [[u|e|] w1]; simpl in *.
  2-3: split; [by rw -Hd|]; simpl; intros Hr Hi;
       destruct Ho as [(n & a & ->) Hc]; [by eapply grows_room|]; simpl; rw Hd;
       split; [done|]; split; [apply append_only_refl|done].
  pose proof (Hm w1) as [Hg1 Hm1]. destruct (m w1) as [o w2]; simpl in *.
  assert (∀ (o' : outcome A) w', w_disk w' = w_disk w2 → (∀ a, o' = Done a → w' = w2) →
          open_post w o' w') as Hpost.
  { intros o' w' Hd' Ho'. split; [rw Hd' -Hd; by eapply grows_trans|].
    rw Hd'. intros Hr Hi. pose proof (grows_room _ _ Hg1 Hr) as Hr1.
    destruct Ho as [(n & a & ->) Hc]; [by eapply grows_room|]. simpl in *. rw Hd in Hg1, Hm1.
    destruct Hm1 as [Hi2 Ha2]; [done| |].
    { rw -Hd in Hi. split; [split; [apply Hi|done]|apply Hi]. }
    split; [split; apply Hi2|]. split; [done|]. by intros a0 ->%Ho'. }
  destruct o as [a|e|]; simpl; by apply Hpost.
Qed.

Lemma wp_open root cred w : wp (open root cred) (open_post w) w.
Proof.
  unfold open. do 3 (ro_step RO_io; [|intros; by apply open_post_same..]; intros ? ? _).
  apply wp_bind. unfold take_admin_lock.
  apply wp_bind, wp_attempt. eapply RO_wp; [apply RO_io|..]; simpl.
  3: intros; by apply open_post_same.
  2: { intros. apply wp_bind_gets. by apply open_post_same. }
  intros n2 u2 _. apply wp_bind_gets. simpl. destruct (w_admin_held w); [by apply open_post_same|].
  unfold modify, wp at 1. simpl. apply open_body_post; [|done].
  apply safe_bind; [eapply safe_RO, RO_state_file_exists|]. intros ex.
  apply safe_bind; [destruct ex; [solve_safe|eapply safe_RO, RO_has_content]|]. intros [];
    [solve_safe|].
  apply safe_bind; [intros w'; by eapply evolves_frame|]. intros _.
  apply safe_bind; [apply safe_with_state_init, tx_wf_bump|]. intros _.
  apply safe_bind; [apply safe_replay|]. intros _. solve_safe.
Qed.

(** ** Public methods *)

Inductive api : ∀ {A}, M A → Prop :=
  | api_set_credentials h admin cs : api (set_credentials h admin cs)
  | api_authenticate bearer : api (authenticate bearer)
  | api_require_current auth : api (require_current auth)
  | api_principal_projection auth : api (principal_projection auth)
  | api_issue_session auth : api (issue_session auth)
  | api_issue_workspace auth path : api (issue_workspace auth path)
  | api_issue_resource auth session workspace obs :
      id_ok session → id_ok workspace → digest_ok obs →
      api (issue_resource auth session workspace obs)
  | api_obtain_provider_send_surface auth workspace scope :
      id_ok workspace → api (obtain_provider_send_surface auth workspace scope)
  | api_resource_binding auth resource : api (resource_binding auth resource)
  | api_record_observation auth resource obs :
      digest_ok obs → api (record_observation auth resource obs)
  | api_rotate_control_epoch h admin : api (rotate_control_epoch h admin)
  | api_rotate_capability_generation h admin : api (rotate_capability_generation h admin)
  | api_rotate_policy_revision h admin : api (rotate_policy_revision h admin)
  | api_owner_id h admin : api (owner_id h admin)
  | api_seal_capability auth resource actor effect ttl :
      api (seal_capability auth resource actor effect ttl)
  | api_mint_lease auth capability action ttl : api (mint_lease auth capability action ttl)
  | api_begin_send auth lease request route :
      digest_ok (request_body_digest request) → api (begin_send auth lease request route)
  | api_admit_sending auth permit : api (admit_sending auth permit)
  | api_settle_settled permit : api (settle_settled permit)
  | api_settle_failed permit reason : api (settle_failed_before_write permit reason)
  | api_settle_uncertain permit reason : api (settle_uncertain permit reason)
  | api_recover_incomplete h admin : api (recover_incomplete h admin)
  | api_ambiguous_attempts h admin : api (ambiguous_attempts h admin)
  | api_reconcile_attempt h admin attempt took : api (reconcile_attempt h admin attempt took)
  | api_attempt_projection auth attempt : api (attempt_projection auth attempt)
  | api_list_scoped auth session workspace :
      api (list_scoped_attempt_projections auth session workspace)
  | api_scoped auth session workspace handle :
      api (scoped_attempt_projection auth session workspace handle)
  | api_audit_records h admin : api (audit_records h admin)
  | api_audit_chain_intact h admin : api (audit_chain_intact h admin)
  | api_admit_operator_send auth request scope :
      digest_ok (request_body_digest request) → api (admit_operator_send auth request scope)
  | api_mint_reconciliation_grant auth session workspace handle disposition ttl :
      api (mint_reconciliation_grant auth session workspace handle disposition ttl)
  | api_mint_reconciliation_grant_for_attempt auth attempt disposition ttl :
      api (mint_reconciliation_grant_for_attempt auth attempt disposition ttl)
  | api_apply_reconciliation auth grant evidence :
      api (apply_reconciliation auth grant evidence)
  | api_liveness_projection : api liveness_projection
  | api_read_attempt_states auth : api (read_attempt_states auth).

Lemma api_safe {A} (m : M A) : api m → safe wf m.
Proof.
  destruct 1; eauto using safe_set_credentials, safe_authenticate, safe_require_current,
    safe_principal_projection, safe_issue_session, safe_issue_workspace, safe_issue_resource,
    safe_obtain_provider_send_surface, safe_resource_binding, safe_record_observation,
    safe_rotate_control_epoch, safe_rotate_capability_generation, safe_rotate_policy_revision,
    safe_owner_id, safe_seal_capability, safe_mint_lease, safe_begin_send, safe_admit_sending,
    safe_settle_settled, safe_settle_failed, safe_settle_uncertain, safe_recover_incomplete,
    safe_ambiguous_attempts, safe_attempt_projection, safe_list_scoped,
    safe_scoped_attempt_projection, safe_audit_records, safe_audit_chain_intact,
    safe_admit_operator_send, safe_mint_reconciliation_grant,
    safe_mint_reconciliation_grant_for_attempt, safe_apply_reconciliation,
    safe_liveness_projection, safe_read_attempt_states.
  apply safe_raise.
Qed.

(** ** Runs *)

Inductive sys :=
  | Stopped (w : World)
  | Running (w : World).

Definition sys_world (s : sys) : World := match s with Stopped w | Running w => w end.
Definition sys_disk (s : sys) : Disk := w_disk (sys_world s).

Inductive step : sys → sys → Prop :=
  | step_call {A} (m : M A) w o w' :
      api m → m w = (o, w') → o ≠ Crashed → step (Running w) (Running w')
  | step_crash {A} (m : M A) w w' :
      api m → m w = (Crashed, w') → step (Running w) (Stopped w')
  | step_drop w w' : drop_authority w = (Done (), w') → step (Running w) (Stopped w')
  | step_open root cred w r w' :
      open root cred w = (Done r, w') → step (Stopped w) (Running w')
  | step_open_failed root cred w o w' :
      open root cred w = (o, w') → (∀ r, o ≠ Done r) → step (Stopped w) (Stopped w').

(** A host that has never served: no snapshot, no log, no checkpoint. *)
Definition fresh_root (s : sys) : Prop :=
  match s with
  | Stopped w => d_state (w_disk w) = None ∧ d_log (w_disk w) = None ∧ d_head (w_disk w) = None
  | Running _ => False
  end.

Definition sys_inv (s : sys) : Prop :=
  match s with
  | Stopped w => disk_inv (w_disk w)
  | Running w => Inv wf w
  end.

Lemma Inv_disk_inv w : Inv wf w → disk_inv (w_disk w).
Proof. intros [[Hl _] Hw]. by split. Qed.

Lemma step_sound s s' :
  step s s' →
  grows (sys_disk s) (sys_disk s') ∧
  (log_room (sys_disk s') → sys_inv s → sys_inv s' ∧ append_only (sys_disk s) (sys_disk s')).
Proof.
  destruct 1 as [A m w o w' Ha E Ho|A m w w' Ha E|w w' E|root cred w r w' E|root cred w o w' E Ho];
    unfold sys_disk; simpl.
  - pose proof (api_safe m Ha w) as Hw. by rw E in Hw.
  - pose proof (api_safe m Ha w) as [Hg Hw]. rw E in Hg, Hw. split; [done|].
    intros Hr Hi. destruct (Hw Hr Hi). split; [by apply Inv_disk_inv|done].
  - injection E as <-. split; [apply grows_refl|]. intros _ Hi.
    split; [by apply Inv_disk_inv in Hi|apply append_only_refl].
  - destruct (wp_run _ _ _ _ _ E (wp_open root cred w)) as [Hg Hp]. split; [done|].
    intros Hr Hi. destruct (Hp Hr Hi) as (_ & ? & ?). eauto.
  - destruct (wp_run _ _ _ _ _ E (wp_open root cred w)) as [Hg Hp]. split; [done|].
    intros Hr Hi. by destruct (Hp Hr Hi) as (? & ? & _).
Qed.

Lemma steps_sound s s' :
  rtc step s s' →
  grows (sys_disk s) (sys_disk s') ∧
  (log_room (sys_disk s') → sys_inv s → sys_inv s' ∧ append_only (sys_disk s) (sys_disk s')).
Proof.
  induction 1 as [s|s1 s2 s3 H12 _ [Hg23 IH]].
  - split; [apply grows_refl|]. intros. split; [done|apply append_only_refl].
  - apply step_sound in H12 as [Hg12 H12]. split; [by eapply grows_trans|]. intros Hr Hi.
    destruct H12 as [Hi2 Ha12]; [by eapply grows_room|done|]. destruct (IH Hr Hi2) as [? Ha23].
    split; [done|]. intros rs3 (rs2 & Hrs2 & ?)%Ha23. apply Ha12 in Hrs2 as (rs1 & ? & ?).
    exists rs1. split; [done|]. by etrans.
Qed.

Lemma fresh_root_inv s : fresh_root s → sys_inv s.
Proof.
  destruct s as [w|w]; [|done]. intros (Hs & Hl & Hh). split; [split; [done|]|].
  - intros rs _. exists []. unfold log_text. by rw Hl.
  - intros st (t & Ht & _). congruence.
Qed.

End trace.

(** ** What every transaction keeps, every run keeps

    [P] is a property of the snapshot that holds of a new one and that the
    transactions keep when they mint identifiers at ticks from [N] on. *)

Section keeps.
  Context {Cdc : Codec} {Env : Environment} {CL : CodecLaws} {EL : EnvironmentLaws}.
  Context (N : nat) (P : StoredAuthority → Prop).

Definition kept (w : World) : Prop := (N ≤ w_tick w)%nat ∧ ∀ st, holds (w_disk w) st → P st.

Definition keeps {A} (m : M A) : Prop := ∀ w, kept w → kept (m w).2.

Definition tx_keeps {A} (f : Tx A) : Prop :=
  ∀ s a s', (N ≤ tx_tick s)%nat → P (tx_auth s) → f s = inr (a, s') →
            (N ≤ tx_tick s')%nat ∧ P (tx_auth s').

Lemma kept_frame w w' : kept w → (w_tick w ≤ w_tick w')%nat → d_state (w_disk w') = d_state (w_disk w) → kept w'.
Proof. intros [Hn HP] Ht Hd. split; [lia|]. intros st Hst%(holds_same_state _ _ _ Hd). by apply HP. Qed.

Lemma keeps_RO {A} (m : M A) φ : RO m φ → keeps m.
Proof. intros Hm w Hk. destruct (Hm w) as (n & -> & _). eapply kept_frame; [exact Hk|simpl; lia|done]. Qed.

Lemma keeps_bind {A B} (m : M A) (f : A → M B) : keeps m → (∀ a, keeps (f a)) → keeps (m ≫= f).
Proof.
  intros Hm Hf w Hk. unfold mbind, M_bind. specialize (Hm w Hk).
  destruct (m w) as [[a| |] w']; simpl in *; [by apply Hf|done..].
Qed.

Lemma keeps_attempt {A} (m : M A) : keeps m → keeps (attempt_ m).
Proof. intros Hm w Hk. specialize (Hm w Hk). unfold attempt_. by destruct (m w) as [[]]. Qed.

(** A call that leaves the snapshot alone and does not turn back the ticks. *)
Definition apart {A} (m : M A) : Prop :=
  ∀ w, (w_tick w ≤ w_tick (m w).2)%nat ∧ d_state (w_disk (m w).2) = d_state (w_disk w).

Lemma keeps_apart {A} (m : M A) : apart m → keeps m.
Proof. intros Hm w Hk. destruct (Hm w). by eapply kept_frame. Qed.

Lemma apart_bind {A B} (m : M A) (f : A → M B) : apart m → (∀ a, apart (f a)) → apart (m ≫= f).
Proof.
  intros Hm Hf w. unfold mbind, M_bind. specialize (Hm w).
  destruct (m w) as [[a| |] w']; simpl in *; [|done..]. destruct Hm as [Ht Hd], (Hf a w') as [Ht' Hd'].
  split; [lia|congruence].
Qed.

Lemma apart_RO {A} (m : M A) φ : RO m φ → apart m.
Proof. intros Hm w. destruct (Hm w) as (n & -> & _). simpl. split; [lia|done]. Qed.

Lemma apart_put_audit a : apart (put_audit a).
Proof. intros w. by split. Qed.

Lemma apart_commit f : (∀ d, d_state (f d) = d_state d) → apart (io_commit f).
Proof. intros Hf. apply apart_bind; [eapply apart_RO, RO_io|]. intros _ w. split; [done|apply Hf]. Qed.

Lemma apart_append_log buf : apart (io_append_log buf).
Proof.
  intros w. unfold io_append_log, io_write, tick, mbind, M_bind. simpl.
  destruct (io_event (w_tick w)); simpl; (split; [lia|done]).
Qed.

Ltac solve_apart :=
  repeat first
    [ apply apart_put_audit | apply apart_append_log | (by apply apart_commit)
    | (eapply apart_RO; solve [eauto using RO_io, RO_ret, RO_raise, RO_gets, RO_lift_json, RO_lift_res, RO_clock,
         RO_current_len, RO_read_log, RO_head_matches, RO_verify_chain_unlocked, RO_audit_lock])
    | apply apart_bind; [|intros ?]
    | lazymatch goal with
      | |- apart (if ?b then _ else _) => destruct b
      | |- apart (match ?x with _ => _ end) => destruct x
      end ].

Lemma apart_replay : apart replay.
Proof. unfold replay. solve_apart. Qed.

Lemma apart_append epoch event : apart (append epoch event).
Proof. unfold append, refresh_if_stale, write_record, persist_head. solve_apart; apply apart_replay. Qed.

Lemma keeps_append_audit epoch event : keeps (append_audit epoch event).
Proof.
  apply keeps_bind; [eapply keeps_RO, RO_gets|]. intros []; [eapply keeps_RO, RO_raise|].
  apply keeps_bind; [apply keeps_apart, apart_append|]. intros _. eapply keeps_RO, RO_ret.
Qed.

(** *** Transactions *)

Lemma keeps_persist st : P st → keeps (persist st).
Proof.
  intros HP w [Hn Hst]. pose proof (wp_persist st w (λ o w', (N ≤ w_tick w')%nat → kept w')) as H. unfold wp in H.
  assert (N ≤ w_tick (persist st w).2)%nat as Hn'.
  { assert (∀ w0, w_tick w0 ≤ w_tick (persist st w0).2)%nat as Hm; [|specialize (Hm w); lia].
    intros w0. unfold persist, io_commit, io, tick, modify, mbind, M_bind.
    destruct (state_to_json st) as [e|t]; simpl; [lia|].
    repeat (match goal with |- context [io_event ?n] => destruct (io_event n) end; simpl; try lia). }
  apply H; [| |done].
  - intros n t Ht o _ Hn1. split; [done|]. intros st' (t' & [= <-] & Hp & _). apply state_json_roundtrip in Ht.
    by assert (st' = st) as -> by congruence.
  - intros n o _ Hn1. by split.
Qed.

Lemma keeps_run {A} (f : Tx A) st w :
  tx_keeps f → P st → kept w → kept (('(out, st') ← run_tx f st; _ ← persist st'; mret out) w).2.
Proof.
  intros Hf HP [Hn Hst]. unfold mbind at 1, M_bind at 1, run_tx.
  destruct (f _) as [e|[a s]] eqn:E; [by split|]. destruct (Hf {| tx_auth := st; tx_tick := w_tick w |} a s Hn HP E) as [Hn' HP'].
  apply (keeps_bind (persist (tx_auth s)) (λ _, mret a)); [by apply keeps_persist|intros _; eapply keeps_RO, RO_ret|].
  by split.
Qed.

(** The snapshot that is read satisfies [P]. *)
Lemma keeps_bind_read {B} (f : option StoredAuthority → M B) :
  (∀ o w, match o with Some st => P st | None => True end → kept w → kept (f o w).2) →
  keeps (_ ← store_lock; st ← read_state; f st).
Proof.
  intros Hf. apply keeps_bind; [eapply keeps_RO, RO_store_lock|]. intros _ w Hk.
  unfold mbind, M_bind. destruct (RO_read_state w) as (n & Hn & Ho).
  destruct (read_state w) as [[o| |] w1]; simpl in *; subst w1;
    [|eapply kept_frame; [exact Hk|simpl; lia|done]..].
  apply Hf; [|eapply kept_frame; [exact Hk|simpl; lia|done]].
  specialize (Ho o eq_refl). destruct o; [by apply Hk|done].
Qed.

Lemma keeps_with_state {A} (f : Tx A) : tx_keeps f → keeps (with_state f).
Proof. intros Hf. apply keeps_bind_read. intros [st|] w HP Hk; [|done]. by apply keeps_run. Qed.

Lemma keeps_with_state_init {A} fp (f : Tx A) :
  (∀ owner, P (StoredAuthority_new owner fp)) → tx_keeps f → keeps (with_state_init fp f).
Proof.
  intros Hnew Hf. apply keeps_bind_read. intros [st|] w HP Hk.
  - unfold mbind at 1, M_bind at 1. destruct (constant_time_eq _ fp); [by apply keeps_run|done].
  - unfold mbind at 1, M_bind at 1. simpl. apply keeps_run; [done|apply Hnew|].
    eapply kept_frame; [exact Hk|simpl; lia|done].
Qed.
End keeps.

(** ** What is spent stays spent *)

(** The lease [k] is gone and the capability [c], if it is there, is consumed. *)
Definition spent (k c : string) (st : StoredAuthority) : Prop :=
  au_leases st !! k = None ∧ ∀ cap, au_capabilities st !! c = Some cap → cp_consumed cap = true.

Lemma spent_frame k c st st' :
  spent k c st → au_leases st' = au_leases st → au_capabilities st' = au_capabilities st → spent k c st'.
Proof. unfold spent. by intros ? -> ->. Qed.

Lemma spent_smaller k c st st' :
  spent k c st → (∀ l, au_leases st' !! k = Some l → au_leases st !! k = Some l) →
  (∀ cap, au_capabilities st' !! c = Some cap → au_capabilities st !! c = Some cap) → spent k c st'.
Proof.
  intros [Hl Hc] Hl' Hc'. split; [|naive_solver].
  destruct (au_leases st' !! k) as [l|]; [|done]. specialize (Hl' l eq_refl). congruence.
Qed.

Lemma spent_consume k c st key cap :
  spent k c st → spent k c (set_capabilities st (<[key := consume_capability cap]> (au_capabilities st))).
Proof.
  intros [Hl Hc]. split; [done|]. simpl. intros cap'. destruct (decide (key = c)) as [->|Hne].
  - rw lookup_insert_eq. by intros [= <-].
  - rw lookup_insert_ne //. apply Hc.
Qed.

Section spent.
  Context {Cdc : Codec} {Env : Environment} {CL : CodecLaws} {EL : EnvironmentLaws}.

(** Identifiers minted from the tick [N] on are neither [k] nor [c]. *)
Definition minted_anew (N : nat) (k c : string) : Prop :=
  ∀ n, (N ≤ n)%nat → to_hex (k := KLease) (OpaqueId (uuid_v4 n)) ∉ [k; c].

Context (N : nat) (k c : string) (Hnew : minted_anew N k c).

Abbreviation P := (spent k c).
Abbreviation tx_keeps := (tx_keeps N P).

Lemma tx_keeps_pure {A} (f : Tx A) :
  (∀ s a s', f s = inr (a, s') → (tx_tick s ≤ tx_tick s')%nat ∧
     au_leases (tx_auth s') = au_leases (tx_auth s) ∧ au_capabilities (tx_auth s') = au_capabilities (tx_auth s)) →
  tx_keeps f.
Proof. intros Hf s a s' Hn HP H. destruct (Hf _ _ _ H) as (Ht & Hl & Hc). split; [lia|by eapply spent_frame]. Qed.

Ltac solve_pure := apply tx_keeps_pure; intros s a s' H; tx_inv H; simpl; (split; [lia|done]).

Lemma tx_keeps_issue_resource auth session workspace obs : tx_keeps (issue_resource_tx auth session workspace obs).
Proof. unfold issue_resource_tx. solve_pure. Qed.
Lemma tx_keeps_record_observation auth resource obs : tx_keeps (record_observation_tx auth resource obs).
Proof. unfold record_observation_tx. solve_pure. Qed.
Lemma tx_keeps_admit_sending auth attempt : tx_keeps (admit_sending_tx auth attempt).
Proof. unfold admit_sending_tx. solve_pure. Qed.
Lemma tx_keeps_settle attempt state detail : tx_keeps (settle_tx attempt state detail).
Proof. unfold settle_tx. solve_pure. Qed.
Lemma tx_keeps_bump : tx_keeps bump_control_epoch.
Proof. unfold bump_control_epoch. solve_pure. Qed.

(** The rotations drop leases and capabilities. *)
Ltac solve_rotation :=
  intros s a s' Hn HP H; tx_inv H; simpl; (split; [lia|]); eapply spent_smaller; [exact HP|..]; simpl; intros ?;
  try rw lookup_empty; done.
Lemma tx_keeps_rotate_control_epoch : tx_keeps rotate_control_epoch_tx.
Proof. unfold rotate_control_epoch_tx. solve_rotation. Qed.
Lemma tx_keeps_rotate_capability : tx_keeps rotate_capability_generation_tx.
Proof. unfold rotate_capability_generation_tx. solve_rotation. Qed.
Lemma tx_keeps_rotate_policy : tx_keeps rotate_policy_revision_tx.
Proof. unfold rotate_policy_revision_tx. solve_rotation. Qed.

Lemma tx_keeps_seal auth resource actor effect expires :
  tx_keeps (seal_capability_tx auth resource actor effect expires).
Proof.
  intros s a s' Hn [Hl Hc] H. unfold seal_capability_tx in H. tx_inv H. simpl. split; [lia|]. split; [done|]. simpl.
  intros cap. rw lookup_insert_ne; [apply Hc|]. intros E. apply (Hnew (tx_tick s)); [done|]. set_solver.
Qed.

Lemma tx_keeps_mint auth capability action now expires : tx_keeps (mint_lease_tx auth capability action now expires).
Proof.
  intros s a s' Hn [Hl Hc] H. unfold mint_lease_tx in H. tx_inv H. simpl. split; [lia|]. split; [|done]. simpl.
  rw lookup_insert_ne; [done|]. intros E. apply (Hnew (tx_tick s)); [done|]. set_solver.
Qed.

Lemma tx_keeps_begin auth lease request route now : tx_keeps (begin_send_tx auth lease request route now).
Proof.
  intros s a s' Hn HP H. unfold begin_send_tx in H. tx_inv H. simpl. split; [lia|].
  eapply spent_smaller; [eapply spent_consume, HP|..]; simpl; [|done].
  intros l Hl%lookup_delete_Some. apply Hl.
Qed.

Lemma tx_keeps_recover_keys from to detail keys : tx_keeps (recover_keys from to detail keys).
Proof.
  induction keys as [|key keys IH]; intros s a s' Hn HP H; simpl in H; tx_inv H; try done.
  - eapply IH; [..|done]; simpl; [lia|]. by eapply spent_frame.
  - by eapply IH.
Qed.

Lemma tx_keeps_recover preparing sending : tx_keeps (recover_tx preparing sending).
Proof.
  intros s a s' Hn HP H. unfold recover_tx in H.
  apply tx_bind_inr in H as (? & s1 & H1 & H). apply tx_bind_inr in H as (? & s2 & H2 & H). tx_inv H.
  apply tx_keeps_recover_keys in H1 as [??]; [|done..]. by eapply tx_keeps_recover_keys.
Qed.

Lemma apply_outcomes_frame by_handle outcomes st st' :
  apply_outcomes by_handle outcomes st = inr st' →
  au_leases st' = au_leases st ∧ au_capabilities st' = au_capabilities st.
Proof.
  revert st. induction outcomes as [|[h [o d]] outcomes IH]; intros st; simpl; [by intros [= <-]|].
  intros ([key attempt] & _ & H)%res_bind_inr. by apply IH in H.
Qed.

Lemma tx_keeps_replay outcomes :
  tx_keeps (st ← tx_get; st' ← tx_res (apply_replay outcomes st); tx_put st').
Proof.
  apply tx_keeps_pure. intros s a s' H. tx_inv H. simpl. split; [lia|].
  select (apply_replay _ _ = _) (fun Ha => apply res_bind_inr in Ha as (by_handle & _ & Ha)).
  by eapply apply_outcomes_frame.
Qed.

Lemma spent_consume_grant grant now st st' : P st → consume_grant_records grant now st = inr st' → P st'.
Proof.
  intros [Hl Hc] H. unfold consume_grant_records in H. apply res_bind_inr in H as (l & Hk%ok_or_inr & H).
  repeat (case_match; [done|]). simplify_eq.
  assert (P (set_leases st (<[to_hex (el_id (rg_lease grant)) := consume_lease l]> (au_leases st)))) as HP.
  { split; [|done]. simpl. rw lookup_insert_ne; [done|]. congruence. }
  case_match; [|done]. by apply spent_consume.
Qed.

Lemma tx_keeps_consume_grant auth grant now :
  tx_keeps (st ← tx_get; _ ← tx_res (require_current_state st auth);
            st' ← tx_res (consume_grant_records grant now st); tx_put st').
Proof. intros s a s' Hn HP H. tx_inv H. simpl. split; [lia|]. by eapply spent_consume_grant. Qed.

Lemma tx_keeps_apply auth grant now state settlement : tx_keeps (apply_tx auth grant now state settlement).
Proof.
  intros s a s' Hn HP H. unfold apply_tx in H. tx_inv H. simpl. split; [lia|].
  eapply spent_frame; [by eapply spent_consume_grant|done..].
Qed.

Lemma install_credentials_frame cs s a s' :
  install_credentials cs s = inr (a, s') →
  (tx_tick s ≤ tx_tick s')%nat ∧ au_leases (tx_auth s') = au_leases (tx_auth s) ∧
  au_capabilities (tx_auth s') = au_capabilities (tx_auth s).
Proof.
  revert s a s'. induction cs as [|x cs IH]; intros s a s' H; simpl in H; [by tx_inv H|].
  apply tx_bind_inr in H as ([record dead] & s1 & H1 & H). apply tx_bind_inr in H as ([next inv] & s2 & H2 & H).
  tx_inv H. apply IH in H2 as (Ht & Hl & Hc).
  assert ((tx_tick s ≤ tx_tick s1)%nat ∧ au_leases (tx_auth s1) = au_leases (tx_auth s) ∧
    au_capabilities (tx_auth s1) = au_capabilities (tx_auth s)) as (Ht1 & Hl1 & Hc1).
  { unfold install_credential, allocate_auth_generation in H1.
    apply tx_bind_inr in H1 as (st & s0 & H0 & H1). tx_inv H0. destruct (find _ _); tx_inv H1; simpl; split; auto; lia. }
  split; [lia|]. split; congruence.
Qed.

Lemma tx_keeps_set_credentials cs : tx_keeps (set_credentials_tx cs).
Proof.
  intros s a s' Hn HP H. unfold set_credentials_tx in H. apply tx_bind_inr in H as ([next dead] & s1 & H1 & H).
  apply install_credentials_frame in H1 as (Ht & Hl & Hc). tx_inv H. simpl. split; [lia|].
  destruct (invalidate_all (dead ++ gone_incarnations (au_credentials (tx_auth s1)) next) (tx_auth s1))
    as (_ & _ & _ & _ & _ & _ & _ & _ & _ & Hc' & Hl'). rw Hl in Hl'. rw Hc in Hc'.
  eapply spent_smaller; [exact HP|..]; simpl; intros x Hx; [by apply Hl' in Hx as []|by apply Hc' in Hx as []].
Qed.

(** *** The public methods *)

Ltac keeps_leaf :=
  first [ apply keeps_append_audit
        | eapply keeps_RO; solve [eauto using RO_read, RO_lift_res, RO_lift_json, RO_mint, RO_clock, RO_io, RO_gets,
            RO_ret, RO_raise, RO_lock_attempt_lifecycle, RO_verify_chain, RO_records, RO_lock_audit,
            RO_env_current_dir, RO_has_content, RO_state_file_exists] ].

Ltac solve_keeps :=
  repeat first
    [ keeps_leaf
    | lazymatch goal with
      | |- keeps _ _ (_ ≫= _) => apply keeps_bind
      | |- keeps _ _ (attempt_ _) => apply keeps_attempt
      | |- keeps _ _ (with_state _) => apply keeps_with_state
      | |- keeps _ _ (if ?b then _ else _) => destruct b
      | |- keeps _ _ (match ?x with _ => _ end) => destruct x
      | |- keeps _ _ (let _ := _ in _) => cbv zeta
      | |- ∀ _, keeps _ _ _ => intros ?
      end ].

Hint Resolve tx_keeps_issue_resource tx_keeps_record_observation tx_keeps_admit_sending tx_keeps_settle
  tx_keeps_rotate_control_epoch tx_keeps_rotate_capability tx_keeps_rotate_policy tx_keeps_seal tx_keeps_mint
  tx_keeps_begin tx_keeps_recover tx_keeps_replay tx_keeps_consume_grant tx_keeps_apply tx_keeps_set_credentials : core.

Lemma keeps_replay_locked : keeps N P replay_attempt_settlements_locked.
Proof. unfold replay_attempt_settlements_locked. solve_keeps; eauto. Qed.

Lemma keeps_issue_workspace auth path : keeps N P (issue_workspace auth path).
Proof. unfold issue_workspace. solve_keeps. solve_pure. Qed.

Lemma keeps_obtain_surface auth workspace scope : keeps N P (obtain_provider_send_surface auth workspace scope).
Proof. unfold obtain_provider_send_surface. solve_keeps; eauto. Qed.

Lemma keeps_seal_capability auth resource actor effect ttl : keeps N P (seal_capability auth resource actor effect ttl).
Proof. unfold seal_capability. solve_keeps; eauto. Qed.

Lemma keeps_mint_lease auth capability action ttl : keeps N P (mint_lease auth capability action ttl).
Proof. unfold mint_lease. solve_keeps; eauto. Qed.

Lemma keeps_begin_send auth lease request route : keeps N P (begin_send auth lease request route).
Proof. unfold begin_send. solve_keeps; eauto. Qed.

Lemma keeps_admit_sending auth permit : keeps N P (admit_sending auth permit).
Proof. unfold admit_sending. solve_keeps; eauto. Qed.

Lemma keeps_settle permit state label detail : keeps N P (settle permit state label detail).
Proof. unfold settle. solve_keeps; eauto. Qed.

Lemma keeps_recover_audit epoch outcome detail keys : keeps N P (recover_audit epoch outcome detail keys).
Proof. induction keys as [|key keys IH]; cbn [recover_audit]; solve_keeps; done. Qed.

Lemma keeps_verified_records : keeps N P verified_records.
Proof. unfold verified_records. solve_keeps. Qed.

Lemma keeps_mint_grant auth session workspace handle disposition ttl :
  keeps N P (mint_reconciliation_grant auth session workspace handle disposition ttl).
Proof.
  unfold mint_reconciliation_grant, check_grantable, host_has_pre_wire_evidence, wire_admission_recorded.
  solve_keeps; auto using keeps_seal_capability, keeps_mint_lease, keeps_verified_records.
Qed.

Lemma keeps_apply_reconciliation auth grant evidence : keeps N P (apply_reconciliation auth grant evidence).
Proof.
  unfold apply_reconciliation, check_disposition, check_conflict, audited_reconciliation_truth,
    host_has_pre_wire_evidence, wire_admission_recorded, commit_reconciliation, consume_reconciliation_lease.
  solve_keeps; eauto using keeps_verified_records.
Qed.

Lemma api_keeps {A} (m : M A) : api m → keeps N P m.
Proof.
  destruct 1.
  - unfold set_credentials. solve_keeps; eauto.
  - unfold authenticate. solve_keeps.
  - unfold require_current. solve_keeps.
  - unfold principal_projection, require_current. solve_keeps.
  - unfold issue_session. solve_keeps. solve_pure.
  - apply keeps_issue_workspace.
  - unfold issue_resource. solve_keeps; eauto.
  - apply keeps_obtain_surface.
  - unfold resource_binding. solve_keeps.
  - unfold record_observation. solve_keeps; eauto.
  - unfold rotate_control_epoch. solve_keeps; eauto.
  - unfold rotate_capability_generation. solve_keeps; eauto.
  - unfold rotate_policy_revision. solve_keeps; eauto.
  - unfold owner_id. solve_keeps.
  - apply keeps_seal_capability.
  - apply keeps_mint_lease.
  - apply keeps_begin_send.
  - apply keeps_admit_sending.
  - apply keeps_settle.
  - apply keeps_settle.
  - apply keeps_settle.
  - unfold recover_incomplete. solve_keeps; eauto using keeps_replay_locked, keeps_recover_audit.
  - unfold ambiguous_attempts. solve_keeps.
  - unfold reconcile_attempt. solve_keeps.
  - unfold attempt_projection. solve_keeps.
  - unfold list_scoped_attempt_projections. solve_keeps.
  - unfold scoped_attempt_projection. solve_keeps.
  - unfold audit_records. solve_keeps.
  - unfold audit_chain_intact. solve_keeps.
  - unfold admit_operator_send.
    solve_keeps; auto using keeps_issue_workspace, keeps_obtain_surface, keeps_seal_capability, keeps_mint_lease,
      keeps_begin_send, keeps_admit_sending.
  - apply keeps_mint_grant.
  - unfold mint_reconciliation_grant_for_attempt. solve_keeps; apply keeps_mint_grant.
  - apply keeps_apply_reconciliation.
  - unfold liveness_projection. solve_keeps.
  - unfold read_attempt_states. solve_keeps.
Qed.

Lemma keeps_open root cred : keeps N P (open root cred).
Proof.
  assert (∀ A (m : M A), keeps N P m → keeps N P (release_on_failure m)) as Hrel.
  { intros A m Hm w Hk. specialize (Hm w Hk). unfold release_on_failure.
    destruct (m w) as [[] w']; simpl in *; [done|eapply kept_frame; [exact Hm|done..]..]. }
  assert (∀ f, (∀ w, w_tick (f w) = w_tick w ∧ w_disk (f w) = w_disk w) → keeps N P (modify f)) as Hmod.
  { intros g Hg w Hk. destruct (Hg w) as [Et Ed]. eapply kept_frame; [exact Hk|simpl; lia|simpl; by rw Ed]. }
  unfold open, take_admin_lock. solve_keeps; try (by apply Hmod). apply Hrel. solve_keeps; try (by apply Hmod).
  - unfold audit_open. apply keeps_apart, apart_bind; [apply apart_put_audit|]. intros _.
    apply apart_bind; [eapply apart_RO, RO_audit_lock|]. intros _. apply apart_replay.
  - apply keeps_with_state_init; [|apply tx_keeps_bump]. by split.
  - unfold replay_attempt_settlements. solve_keeps. apply keeps_replay_locked.
Qed.

Lemma step_keeps s s' : step s s' → kept N P (sys_world s) → kept N P (sys_world s').
Proof.
  destruct 1 as [A m w o w' Ha E Ho|A m w w' Ha E|w w' E|root cred w r w' E|root cred w o w' E Ho]; simpl; intros Hk.
  - pose proof (api_keeps m Ha w Hk) as H. by rw E in H.
  - pose proof (api_keeps m Ha w Hk) as H. by rw E in H.
  - injection E as <-. by eapply kept_frame.
  - pose proof (keeps_open root cred w Hk) as H. by rw E in H.
  - pose proof (keeps_open root cred w Hk) as H. by rw E in H.
Qed.

Lemma steps_keep s s' : rtc step s s' → kept N P (sys_world s) → kept N P (sys_world s').
Proof. induction 1; eauto using step_keeps. Qed.
End spent.
