(* ===== verification/GateFacts.v ===== *)
(** * Reasoning about completed calls

    Inversion of runs that return: a sequence splits into its steps, a
    read-only step leaves the world alone, a transaction was applied to the
    snapshot and is durable, an audit append extended the intact log. *)

From S2P Require Import Prelude Text Ids State World AuditWal AuditFacts Store StoreFacts Gates Reconcile Wellformed Operator Safety.

Section runs.
  Context {Cdc : Codec} {Env : Environment} {CL : CodecLaws} {EL : EnvironmentLaws}.

Lemma bind_done {A B} (m : M A) (f : A → M B) w b w' :
  (m ≫= f) w = (Done b, w') → ∃ a w1, m w = (Done a, w1) ∧ f a w1 = (Done b, w').
Proof. unfold mbind, M_bind. destruct (m w) as [[a| |] w1]; naive_solver. Qed.

Lemma RO_done {A} (m : M A) φ w a w' :
  RO m φ → m w = (Done a, w') → (∃ n, w' = set_tick w n) ∧ φ w a.
Proof. intros Hm E. destruct (Hm w) as (n & Hw & Ha). rw E /= in Hw, Ha. naive_solver. Qed.

Lemma RO_evolves {A} (m : M A) φ w o w' : RO m φ → m w = (o, w') → ∃ n, w' = set_tick w n.
Proof. intros Hm E. destruct (Hm w) as (n & Hw & Ha). rw E /= in Hw. naive_solver. Qed.

Lemma attempt_done {A} (m : M A) w r w' :
  attempt_ m w = (Done r, w') →
  match r with inr a => m w = (Done a, w') | inl e => m w = (Raised e, w') end.
Proof. unfold attempt_. destruct (m w) as [[a|e|] w1]; naive_solver. Qed.

Lemma with_state_done {A} (f : Tx A) w a w' :
  with_state f w = (Done a, w') → committed_by f w a w'.
Proof.
  intros E. destruct (wp_run _ _ _ _ _ E (wp_with_state f w)) as [[_ Hno]|(b & Hc & Hb)].
  - by destruct (Hno a).
  - by rw (Hb a eq_refl).
Qed.

(** The snapshots before and after a committed transaction. *)
Lemma committed_holds {A} (f : Tx A) w a w' :
  Inv wf w → tx_wf wf f → committed_by f w a w' →
  ∃ st m s, holds (w_disk w) st ∧ wf st ∧ f {| tx_auth := st; tx_tick := m |} = inr (a, s) ∧
    holds (w_disk w') (tx_auth s) ∧ wf (tx_auth s) ∧ Inv wf w' ∧
    d_log (w_disk w') = d_log (w_disk w) ∧ d_head (w_disk w') = d_head (w_disk w).
Proof.
  intros Hi Hf (st & m & n & s & t & Hst & Hfs & Ht & ->).
  pose proof (proj2 Hi _ Hst) as Hwf. pose proof (Hf {| tx_auth := st; tx_tick := m |} _ _ Hwf Hfs) as Hwf'.
  assert (holds (set_d_state (w_disk w) (Some t)) (tx_auth s)) as Hst'.
  { exists t. split; [done|]. split; [by apply state_json_roundtrip|apply Hwf']. }
  exists st, m, s. split_and!; try done. destruct Hi as [[? ?] _]. split; [done|].
  simpl. intros st' Hst''. by rw (holds_det _ _ _ Hst'' Hst').
Qed.

Lemma append_audit_done epoch event w u w' :
  Inv wf w → log_room (w_disk w) → append_audit epoch event w = (Done u, w') →
  Inv wf w' ∧ d_state (w_disk w') = d_state (w_disk w) ∧
  ∃ rs r, intact (w_disk w) rs ∧ intact (w_disk w') (rs ++ [r]) ∧
          ar_event r = event ∧ ar_control_epoch r = epoch.
Proof.
  intros Hi Hr E. unfold append_audit in E. apply bind_done in E as ([] & w0 & [= Hp <-] & E);
    [done|]. apply bind_done in E as (r & w1 & E & [= _ ->]).
  destruct (wp_run _ _ _ _ _ E (wp_append epoch event w (proj1 Hi) Hr))
    as (Hst & _ & Ha & rs & Hrs & (Hrs' & _) & He & Hep).
  split; [|split; [done|by exists rs, r]]. split; [done|].
  intros st. rw holds_same_state //. apply Hi.
Qed.

(** A transaction never touches the log; an append never touches the snapshot. *)
Lemma with_state_log {A} (f : Tx A) w o w' :
  with_state f w = (o, w') →
  d_log (w_disk w') = d_log (w_disk w) ∧ d_head (w_disk w') = d_head (w_disk w).
Proof.
  intros E. by destruct (wp_run _ _ _ _ _ E (wp_with_state f w))
    as [[[n ->] _]|(a & (st & m & n & s & t & _ & _ & _ & ->) & _)].
Qed.

Lemma append_audit_state epoch event w o w' :
  append_audit epoch event w = (o, w') → d_state (w_disk w') = d_state (w_disk w).
Proof.
  set (R := λ d d' : Disk, d_state d' = d_state d).
  assert (PreOrder R) by (split; [done|intros a b c; unfold R; congruence]).
  assert (moves R (append_audit epoch event)) as Hm.
  { apply moves_bind; [done|eapply moves_RO, RO_gets; done|]. intros [];
      [eapply moves_RO, RO_raise; done|].
    apply moves_bind; [done|by apply moves_append|]. intros ?. eapply moves_RO, RO_ret. done. }
  intros E. specialize (Hm w). by rw E in Hm.
Qed.

Lemma grows_with_state {A} (f : Tx A) w o w' :
  with_state f w = (o, w') → grows (w_disk w) (w_disk w').
Proof. intros E. pose proof (log_grows_with_state f w) as Hg. by rw E in Hg. Qed.

Lemma grows_append_audit epoch event w o w' :
  append_audit epoch event w = (o, w') → grows (w_disk w) (w_disk w').
Proof. intros E. pose proof (log_grows_append_audit wf epoch event w) as Hg. by rw E in Hg. Qed.

(** ** [begin_send] *)

Lemma check_lease_inr st auth lease rd now stored u :
  check_lease st auth lease rd now stored = inr u →
  ls_consumed stored = false ∧ (now < ls_expires_at_ms stored)%Z ∧
  ls_control_epoch stored = au_control_epoch st ∧
  ls_capability_generation stored = au_capability_generation st ∧
  ls_policy_revision stored = au_policy_revision st ∧
  ls_principal stored = to_hex (ac_principal auth) ∧
  ls_credential_incarnation stored = to_hex (ac_incarnation auth) ∧
  ls_auth_generation stored = ac_auth_generation auth ∧
  ls_action_digest stored = digest_to_hex rd ∧
  ls_effect stored = effect_as_str ProviderSend ∧
  ls_actor stored = actor_as_str (el_actor lease) ∧
  ls_session stored = to_hex (ab_session (el_binding lease)) ∧
  ls_workspace stored = to_hex (ab_workspace (el_binding lease)) ∧
  ls_resource stored = to_hex (ab_resource (el_binding lease)).
Proof.
  unfold check_lease. destruct (ls_consumed stored); [done|].
  repeat (case_decide; [done|]).
  destruct (effect_parse (ls_effect stored)) as [[]|] eqn:He; try done.
  destruct (actor_parse (ls_actor stored)) as [actor|] eqn:Ha; [|done].
  case_decide; [done|]. intros _. apply effect_parse_Some in He. apply actor_parse_Some in Ha.
  split_and!; try done; try (apply dec_stable; tauto); try lia; try (by apply dec_stable).
  rw Ha. congruence.
Qed.

Lemma check_parent_inr st now c u :
  check_parent st now c = inr u →
  cp_consumed c = false ∧ (now < cp_expires_at_ms c)%Z ∧
  cp_capability_generation c = au_capability_generation st ∧
  cp_policy_revision c = au_policy_revision st ∧ cp_control_epoch c = au_control_epoch st.
Proof.
  unfold check_parent. destruct (cp_consumed c); [done|]. repeat (case_decide; [done|]).
  intros _. split_and!; try done; try lia; apply dec_stable; tauto.
Qed.

(** No undecided attempt of the principal for this request. *)
Lemma ambiguous_prior_false auth rd st :
  ambiguous_prior auth rd st = false ↔
  ∀ k a, au_attempts st !! k = Some a → at_principal a = to_hex (ac_principal auth) →
         at_request_digest a = rd → ¬ live_state (at_state a).
Proof.
  unfold ambiguous_prior. split.
  - intros Hf k a Ha Hp Hd Hl. assert (existsb (λ kv : string * StoredAttempt,
      bool_decide (at_principal kv.2 = to_hex (ac_principal auth) ∧
        at_request_digest kv.2 = rd ∧ live_state (at_state kv.2))) (btree_iter (au_attempts st)) = true)
      as Ht; [|congruence].
    apply existsb_exists. exists (k, a). split; [by apply list_elem_of_In, elem_of_btree_iter|].
    by apply bool_decide_eq_true.
  - intros Hno. apply not_true_iff_false. intros ([k a] & Hin & Hb)%existsb_exists.
    apply list_elem_of_In, elem_of_btree_iter in Hin.
    apply bool_decide_eq_true in Hb as (? & ? & ?). by eapply Hno.
Qed.

Lemma begin_send_tx_inv auth lease request route now s attempt ordinal s' :
  begin_send_tx auth lease request route now s = inr ((attempt, ordinal), s') →
  let st := tx_auth s in let st' := tx_auth s' in
  ∃ stored resource cap next,
    require_current_state st auth = inr () ∧
    ambiguous_prior auth (digest_to_hex (request_digest request)) st = false ∧
    au_leases st !! to_hex (el_id lease) = Some stored ∧
    check_lease st auth lease (request_digest request) now stored = inr () ∧
    au_resources st !! ls_resource stored = Some resource ∧
    sr_observation_revision resource = ls_observation_revision stored ∧
    sr_observation_digest resource = ls_observation_digest stored ∧
    au_capabilities st !! ls_capability_id stored = Some cap ∧
    check_parent st now cap = inr () ∧
    checked_add (sr_next_attempt_ordinal resource) 1 = Some next ∧
    ordinal = sr_next_attempt_ordinal resource ∧
    attempt = OpaqueId (uuid_v4 (tx_tick s)) ∧
    st' = set_attempts (set_resources (set_leases (set_capabilities st
            (<[ls_capability_id stored := consume_capability cap]> (au_capabilities st)))
            (delete (to_hex (el_id lease)) (au_leases st)))
            (<[ls_resource stored := set_resource_ordinal resource next]> (au_resources st)))
            (<[to_hex attempt := new_attempt stored attempt ordinal request route]>
               (au_attempts st)).
Proof.
  intros H. unfold begin_send_tx in H. tx_inv H. simpl. repeat match goal with u : () |- _ => destruct u end.
  eexists _, _, _, _. split_and!; try done; try (apply dec_stable; tauto).
  by apply negb_true_iff.
Qed.

Lemma intact_frame d d' rs :
  d_log d' = d_log d → d_head d' = d_head d → intact d' rs ↔ intact d rs.
Proof. unfold intact, disk_head. by intros -> ->. Qed.

Lemma Inv_tick w n : Inv wf w → Inv wf (set_tick w n).
Proof. done. Qed.

(** A transaction followed by an audit append, the shape of most gates. *)
Lemma commit_then_append {A} (f : Tx A) epoch event w a w1 u w' :
  Inv wf w → tx_wf wf f → log_room (w_disk w') →
  with_state f w = (Done a, w1) → append_audit epoch event w1 = (Done u, w') →
  ∃ st m s rs r, holds (w_disk w) st ∧ wf st ∧ f {| tx_auth := st; tx_tick := m |} = inr (a, s) ∧
    holds (w_disk w') (tx_auth s) ∧ wf (tx_auth s) ∧ Inv wf w' ∧
    intact (w_disk w) rs ∧ intact (w_disk w') (rs ++ [r]) ∧
    ar_event r = event ∧ ar_control_epoch r = epoch.
Proof.
  intros Hi Hf Hr E1 E2. pose proof (grows_room _ _ (grows_append_audit _ _ _ _ _ E2) Hr) as Hr1.
  apply with_state_done, (committed_holds _ _ _ _ Hi Hf) in E1
    as (st & m & s & Hst & Hwf & Hfs & Hst1 & Hwf1 & Hi1 & Hl1 & Hh1).
  apply append_audit_done in E2 as (Hi2 & Hs2 & rs & r & Hrs & Hrs' & He & Hep); [|done..].
  exists st, m, s, rs, r. split_and!; try done.
  - by rw holds_same_state.
  - by rw -(intact_frame _ _ _ Hl1 Hh1).
Qed.

Lemma lock_attempt_lifecycle_done w u w' : lock_attempt_lifecycle w = (Done u, w') → w' = w.
Proof.
  unfold lock_attempt_lifecycle, gets, mbind, M_bind. by destruct (w_lifecycle_poisoned w); intros [=].
Qed.

Lemma begin_send_done auth lease request route w p w' :
  Inv wf w → digest_ok (request_body_digest request) → log_room (w_disk w') →
  begin_send auth lease request route w = (Done p, w') →
  el_effect lease = ProviderSend ∧
  ∃ st m attempt ordinal s rs r, holds (w_disk w) st ∧ wf st ∧
    begin_send_tx auth lease request route (clock_ms (w_tick w)) {| tx_auth := st; tx_tick := m |} =
      inr ((attempt, ordinal), s) ∧
    holds (w_disk w') (tx_auth s) ∧ wf (tx_auth s) ∧ Inv wf w' ∧
    intact (w_disk w) rs ∧ intact (w_disk w') (rs ++ [r]) ∧
    ar_event r = send_intent lease request route attempt ordinal ∧
    p = {| pm_attempt := attempt; pm_lease := el_id lease; pm_binding := el_binding lease;
           pm_request_digest := request_digest request;
           pm_body_digest := request_body_digest request;
           pm_idempotency_key := idempotency_key_for attempt;
           pm_dialect := request_dialect request; pm_wire_admitted := false |}.
Proof.
  intros Hi Hb Hr E. unfold begin_send in E.
  apply bind_done in E as (u0 & w0 & E0 & E). apply lock_attempt_lifecycle_done in E0 as ->.
  case_decide as Heff; [done|]. split; [done|].
  apply bind_done in E as (now & w1 & [= <- <-] & E).
  apply bind_done in E as (adm & w2 & E2 & E). apply attempt_done in E2.
  destruct adm as [e|[attempt ordinal]].
  { by apply bind_done in E as (? & w3 & _ & [=]). }
  apply bind_done in E as (u3 & w3 & E3 & [= <- <-]).
  destruct (commit_then_append _ _ _ _ _ _ _ _ (Inv_tick _ _ Hi)
    (tx_wf_begin_send auth lease request route _ Hb) Hr E2 E3)
    as (st & m & s & rs & r & ? & ? & ? & ? & ? & ? & ? & ? & ? & ?).
  by exists st, m, attempt, ordinal, s, rs, r.
Qed.

(** ** [admit_sending] *)

Lemma admit_sending_tx_inv auth attempt s u s' :
  admit_sending_tx auth attempt s = inr (u, s') →
  let st := tx_auth s in
  ∃ a, require_current_state st auth = inr () ∧ au_attempts st !! to_hex attempt = Some a ∧
    at_state a = STATE_PREPARING ∧ at_principal a = to_hex (ac_principal auth) ∧
    at_credential_incarnation a = to_hex (ac_incarnation auth) ∧
    at_auth_generation a = ac_auth_generation auth ∧
    at_capability_generation a = au_capability_generation st ∧
    at_policy_revision a = au_policy_revision st ∧ at_control_epoch a = au_control_epoch st ∧
    tx_auth s' = set_attempts st
      (<[to_hex attempt := set_attempt_state a STATE_SENDING (at_settlement a)]> (au_attempts st)).
Proof.
  intros H. unfold admit_sending_tx in H. tx_inv H. simpl.
  repeat match goal with u : () |- _ => destruct u end.
  eexists. split_and!; try done; try (apply dec_stable; tauto).
Qed.

Lemma admit_sending_done auth permit w p w' :
  Inv wf w → log_room (w_disk w') → admit_sending auth permit w = (Done p, w') →
  pm_wire_admitted permit = false ∧ p = wire_admit permit ∧
  ∃ st m s rs r, holds (w_disk w) st ∧ wf st ∧
    admit_sending_tx auth (pm_attempt permit) {| tx_auth := st; tx_tick := m |} = inr ((), s) ∧
    holds (w_disk w') (tx_auth s) ∧ wf (tx_auth s) ∧ Inv wf w' ∧
    intact (w_disk w) rs ∧ intact (w_disk w') (rs ++ [r]) ∧
    ar_event r = EvSendWireAdmission (public_handle (pm_attempt permit)).
Proof.
  intros Hi Hr E. unfold admit_sending in E. destruct (pm_wire_admitted permit); [done|].
  apply bind_done in E as (u0 & w0 & E0 & E).
  apply (RO_done _ _ _ _ _ RO_lock_attempt_lifecycle) in E0 as [[n0 ->] _].
  apply bind_done in E as ([] & w1 & E1 & E). apply bind_done in E as (u2 & w2 & E2 & [= <- <-]).
  destruct (commit_then_append _ _ _ _ _ _ _ _ (Inv_tick _ n0 Hi)
    (tx_wf_admit_sending auth (pm_attempt permit)) Hr E1 E2)
    as (st & m & s & rs & r & ? & ? & ? & ? & ? & ? & ? & ? & ? & ?).
  split; [done|]. split; [done|]. by exists st, m, s, rs, r.
Qed.

(** ** Settlement *)

(** The ways a returning settlement ends. *)
Inductive settled_as (permit : PhysicalSendPermit) (ds label : string) (detail : settle_detail)
    (w w' : World) : SendOutcome → Prop :=
  | sa_unavailable reason :
      reason = LifecycleUnavailableAfterDispatch ∨ reason = StateNotDurableAfterDispatch →
      w_disk w' = w_disk w →
      settled_as permit ds label detail w w' (OutUncertain (pm_attempt permit) reason)
  | sa_absorbed st a out :
      holds (w_disk w) st → au_attempts st !! to_hex (pm_attempt permit) = Some a →
      absorb_settlement_for_reconciled_attempt (pm_attempt permit) a = Some out →
      w_disk w' = w_disk w → settled_as permit ds label detail w w' out
  | sa_unadmitted_settled :
      ds = STATE_SETTLED → pm_wire_admitted permit = false → w_disk w' = w_disk w →
      settled_as permit ds label detail w w'
        (OutUncertain (pm_attempt permit) ProtocolAfterPossibleEffect)
  | sa_unadmitted_uncertain :
      ds = STATE_UNCERTAIN → pm_wire_admitted permit = false → w_disk w' = w_disk w →
      settled_as permit ds label detail w w'
        (OutFailed (pm_attempt permit) AbandonedBeforeWireAdmission)
  | sa_not_durable reason :
      reason = AuditNotDurableAfterDispatch ∨ reason = StateNotDurableAfterDispatch →
      settled_as permit ds label detail w w' (OutUncertain (pm_attempt permit) reason)
  | sa_durable n w1 :
      append_audit (ab_control_epoch (pm_binding permit))
        (EvSendOutcome (public_handle (pm_attempt permit)) label (detail_text detail))
        (set_tick w n) = (Done (), w1) →
      with_state (settle_tx (pm_attempt permit) ds (detail_text detail)) w1 = (Done (), w') →
      settled_as permit ds label detail w w' (detail_outcome (pm_attempt permit) detail).

Lemma settle_done permit ds label detail w out w' :
  settle permit ds label detail w = (Done out, w') →
  settled_as permit ds label detail w w' out.
Proof.
  intros E. unfold settle in E. apply bind_done in E as (lk & wa & Ea & E).
  apply attempt_done in Ea.
  assert (∃ n, wa = set_tick w n) as [n ->].
  { destruct lk; by eapply RO_evolves in Ea; [|apply RO_lock_attempt_lifecycle]. }
  destruct lk as [|u]; [injection E as <- <-; constructor; auto|].
  apply bind_done in E as (cur & wb & Eb & E). apply attempt_done in Eb.
  destruct cur as [e|a].
  { apply (RO_evolves _ _ _ _ _ (RO_read _)) in Eb as [n' ->]. injection E as <- <-.
    constructor; auto. }
  apply (RO_done _ _ _ _ _ (RO_read _)) in Eb as [[n' ->] (st & Hst & Ha%ok_or_inr)].
  destruct (absorb_settlement_for_reconciled_attempt (pm_attempt permit) a) as [out'|] eqn:Habs.
  { injection E as <- <-. by eapply sa_absorbed. }
  destruct (decide _) as [[? ?]|_]; [injection E as <- <-; by apply sa_unadmitted_settled|].
  destruct (decide _) as [(? & ? & _)|_];
    [injection E as <- <-; by apply sa_unadmitted_uncertain|].
  apply bind_done in E as (au & wc & Ec & E). apply attempt_done in Ec.
  destruct au as [e|[]]; [injection E as <- <-; apply sa_not_durable; auto|].
  apply bind_done in E as (ps & wd & Ed & E). apply attempt_done in Ed.
  destruct ps as [e|[]]; [injection E as <- <-; apply sa_not_durable; auto|].
  injection E as <- <-. by eapply (sa_durable _ _ _ _ _ _ n').
Qed.

Lemma settle_tx_inv attempt ds detail s u s' :
  settle_tx attempt ds detail s = inr (u, s') →
  ∃ a, au_attempts (tx_auth s) !! to_hex attempt = Some a ∧
    tx_auth s' = set_attempts (tx_auth s)
      (<[to_hex attempt := set_attempt_state a ds (Some detail)]> (au_attempts (tx_auth s))).
Proof. intros H. unfold settle_tx in H. tx_inv H. eauto. Qed.

(** The write-ahead order: whatever happens, the snapshot changes only after
    the outcome is in the log. *)
Lemma wp_settle_wal permit ds label detail w :
  Inv wf w →
  wp (settle permit ds label detail) (λ o w', (∀ e, o ≠ Raised e) ∧
    (log_room (w_disk w') → d_state (w_disk w') ≠ d_state (w_disk w) →
     ∃ rs r, intact (w_disk w) rs ∧ intact (w_disk w') (rs ++ [r]) ∧
       ar_event r = EvSendOutcome (public_handle (pm_attempt permit)) label (detail_text detail))) w.
Proof.
  intros Hi. unfold settle. set (Q := λ (o : outcome SendOutcome) w', _).
  assert (∀ o w', (∀ e, o ≠ Raised e) → d_state (w_disk w') = d_state (w_disk w) → Q o w') as H0.
  { intros o w' ? ?. by split. }
  apply wp_bind, wp_attempt. eapply RO_wp; [apply RO_lock_attempt_lifecycle| |intros; by apply H0..].
  intros n u _. cbn [post_bind]. apply wp_bind, wp_attempt.
  eapply RO_wp; [apply RO_read| |intros; by apply H0..].
  intros n' a _. cbn [post_bind].
  destruct (absorb_settlement_for_reconciled_attempt _ _); [by apply H0|].
  destruct (decide _); [by apply H0|]. destruct (decide _); [by apply H0|].
  apply wp_bind, wp_attempt. apply wp_of_run. intros oa wa Ea.
  destruct oa as [ua|e|].
  2-3: apply append_audit_state in Ea; by apply H0.
  cbn [post_bind]. apply wp_bind, wp_attempt. apply wp_of_run. intros os ws Es.
  assert (∀ o, (∀ e, o ≠ Raised e) → Q o ws) as Hfin.
  { intros o Ho. split; [done|]. intros Hr _.
    pose proof (grows_with_state _ _ _ _ Es) as Hg.
    apply append_audit_done in Ea as (Hia & _ & rs & r & Hrs & Hrs' & He & _);
      [|done|by eapply grows_room; [|eapply grows_room]; [eapply grows_append_audit| |]].
    exists rs, r. split; [done|]. split; [|done].
    destruct (with_state_log _ _ _ _ Es) as [Hl Hh]. by rw (intact_frame _ _ _ Hl Hh). }
  destruct os; by apply Hfin.
Qed.

Lemma safe_run {A} (m : M A) w o w' :
  safe wf m → m w = (o, w') → log_room (w_disk w') → Inv wf w →
  Inv wf w' ∧ grows (w_disk w) (w_disk w').
Proof. intros Hm E Hr Hi. destruct (Hm w) as [Hg Hs]. rw E in Hg, Hs. by destruct (Hs Hr Hi). Qed.

Lemma room_before {A} (m : M A) w o w' :
  safe wf m → m w = (o, w') → log_room (w_disk w') → log_room (w_disk w).
Proof. intros Hm E Hr. destruct (Hm w) as [Hg _]. rw E in Hg. by eapply grows_room. Qed.

Lemma check_capability_inr st auth cap now stored u :
  check_capability st auth cap now stored = inr u →
  cp_consumed stored = false ∧ (now < cp_expires_at_ms stored)%Z ∧
  cp_capability_generation stored = au_capability_generation st ∧
  cp_control_epoch stored = au_control_epoch st ∧
  cp_resource stored = to_hex (ab_resource (sl_binding cap)) ∧
  cp_effect stored = effect_as_str (sl_effect cap) ∧ cp_actor stored = actor_as_str (sl_actor cap) ∧
  cp_principal stored = to_hex (ac_principal auth) ∧
  cp_credential_incarnation stored = to_hex (ac_incarnation auth).
Proof.
  unfold check_capability. destruct (cp_consumed stored); [done|].
  repeat (case_decide; [done|]).
  intros _. split_and!; try done; try lia; apply dec_stable; tauto.
Qed.

Lemma mint_lease_done auth cap action ttl w l w' :
  Inv wf w → log_room (w_disk w') → mint_lease auth cap action ttl w = (Done l, w') →
  ∃ st m now s, holds (w_disk w) st ∧ wf st ∧
    mint_lease_tx auth cap action now (now + ttl) {| tx_auth := st; tx_tick := m |} = inr (l, s) ∧
    holds (w_disk w') (tx_auth s) ∧ Inv wf w'.
Proof.
  intros Hi Hr E. unfold mint_lease in E. case_decide; [done|].
  apply bind_done in E as (now & w1 & E1 & E).
  apply (RO_done _ _ _ _ _ RO_clock) in E1 as [[n1 ->] _].
  apply bind_done in E as (ex & w2 & E2 & E).
  apply (RO_done _ _ _ _ _ (RO_lift_res _)) in E2 as [[n2 ->] Hex%ok_or_inr].
  apply checked_add_Some in Hex as [-> _].
  apply bind_done in E as (lease & w3 & E3 & E). apply bind_done in E as (? & w4 & E4 & [= <- <-]).
  destruct (commit_then_append _ _ _ _ _ _ _ _ (Inv_tick _ n2 Hi)
    (tx_wf_mint_lease auth cap action now (now + ttl)) Hr E3 E4)
    as (st & m & s & rs & r & ? & ? & ? & ? & ? & ? & _). by exists st, m, now, s.
Qed.

End runs.
