(* ===== verification/ReplayFacts.v ===== *)
(** * Replay and recovery

    The settlement replay is a fold over the log that a later open applies to
    the snapshot; it converges in one application.  Recovery moves every
    attempt that was in flight to a terminal or ambiguous state. *)

From S2P Require Import Prelude Text Ids State World AuditWal AuditFacts Store StoreFacts Gates Wellformed.

Section replay.
  Context {Cdc : Codec} {Env : Environment} {CL : CodecLaws} {EL : EnvironmentLaws}.

(** ** The index from public handles to keys *)

(** The handle a key is projected under. *)
Definition key_handle (key handle : string) : Prop :=
  ∃ id : AttemptId, decode_id key "attempt" = inr id ∧ handle = public_handle id.

Lemma index_keys_spec keys m m' :
  index_keys keys m = inr m' →
  ∀ h k, m' !! h = Some k ↔ m !! h = Some k ∨ k ∈ keys ∧ key_handle k h.
Proof.
  revert m. induction keys as [|key keys IH]; intros m; simpl.
  - intros [= ->] h k. set_solver.
  - intros (id & Hid & H)%res_bind_inr. destruct (m !! public_handle id) eqn:Hm; [done|].
    assert (key_handle key (public_handle id)) as Hkey by (by exists id).
    intros h k. rw (IH _ H) elem_of_cons.
    destruct (decide (h = public_handle id)) as [->|Hne].
    + rw lookup_insert_eq Hm. split.
      * intros [[= <-]|[? ?]]; right; [by split; [left|]|by split; [right|]].
      * intros [|[[->|?] ?]]; [done|by left|by right].
    + rw lookup_insert_ne //. split.
      * intros [?|[? ?]]; [by left|right; by split; [right|]].
      * intros [?|[[->|?] (i & Hi & ->)]]; [by left| |right; split; [done|by exists i]].
        destruct Hne. congruence.
Qed.

Lemma attempt_index_spec st m h k :
  attempt_index st = inr m → m !! h = Some k ↔ is_Some (au_attempts st !! k) ∧ key_handle k h.
Proof.
  intros Hm. rw (index_keys_spec _ _ _ Hm) lookup_empty list_elem_of_fmap. split.
  - intros [?|[([k' a] & -> & Hin%elem_of_btree_iter) ?]]; [done|]. eauto.
  - intros [[a Ha] Hk]. right. split; [|done]. exists (k, a). by rw elem_of_btree_iter.
Qed.

Lemma key_handle_det k h h' : key_handle k h → key_handle k h' → h = h'.
Proof. intros (i & Hi & ->) (i' & Hi' & ->). congruence. Qed.

Lemma indexed_attempt_inr bh st h key a :
  indexed_attempt bh st h = inr (key, a) ↔ bh !! h = Some key ∧ au_attempts st !! key = Some a.
Proof.
  unfold indexed_attempt. rw res_bind_inr. split.
  - intros (k & Hk%ok_or_inr & (x & Hx%ok_or_inr & [= <- <-])%res_bind_inr). done.
  - intros [Hk Ha]. exists key. rw Hk Ha. done.
Qed.

(** ** Applying the outcomes *)

Definition only_attempts (st st' : StoredAuthority) : Prop :=
  st' = set_attempts st (au_attempts st').

Lemma apply_outcomes_spec bh outs st st' :
  (∀ h h' k, bh !! h = Some k → bh !! h' = Some k → h = h') →
  NoDup outs.*1 → apply_outcomes bh outs st = inr st' →
  only_attempts st st' ∧
  (∀ h o d, (h, (o, d)) ∈ outs → ∃ k a, bh !! h = Some k ∧ au_attempts st !! k = Some a ∧
     au_attempts st' !! k = Some (set_attempt_state a o (Some d))) ∧
  (∀ k, (∀ h, h ∈ outs.*1 → bh !! h ≠ Some k) → au_attempts st' !! k = au_attempts st !! k).
Proof.
  intros Hinj. revert st. induction outs as [|[h [o d]] outs IH]; intros st Hnd; simpl.
  - intros [= <-]. split; [by destruct st|]. split; [set_solver|done].
  - apply NoDup_cons in Hnd as [Hh Hnd].
    intros ([key a] & [Hk Ha]%indexed_attempt_inr & H)%res_bind_inr.
    apply IH in H as (Hot & Hin & Hout); [|done]. simpl in *. split_and!.
    + unfold only_attempts in *. by rw {1}Hot.
    + intros h' o' d' [[= -> -> ->]|Hin']%elem_of_cons.
      * exists key, a. split; [done|]. split; [done|]. rw Hout; [by rw lookup_insert_eq|].
        intros h2 Hh2 Hk2. by rw (Hinj _ _ _ Hk Hk2) in Hh.
      * destruct (Hin _ _ _ Hin') as (k' & a' & Hk' & Ha' & Hs). exists k', a'.
        split; [done|]. split; [|done]. rw lookup_insert_ne // in Ha'. intros ->.
        apply Hh. rw (Hinj _ _ _ Hk Hk'). apply list_elem_of_fmap. by exists (h', (o', d')).
    + intros k Hno. rw Hout; [|set_solver]. apply lookup_insert_ne. intros ->.
      by destruct (Hno h); [left|].
Qed.

Lemma replay_pending_false bh st outs :
  (∀ h o d, (h, (o, d)) ∈ outs → ∃ k a, bh !! h = Some k ∧ au_attempts st !! k = Some a ∧
     at_state a = o ∧ at_settlement a = Some d) →
  replay_pending bh st outs = inr false.
Proof.
  induction outs as [|[h [o d]] outs IH]; intros Hin; simpl; [done|].
  destruct (Hin h o d) as (k & a & Hk & Ha & Hs & Hd); [by left|].
  rw (proj2 (indexed_attempt_inr bh st h k a) (conj Hk Ha)) /=.
  case_decide as Hc; [naive_solver|]. apply IH. intros; apply Hin. by right.
Qed.

Lemma only_attempts_index st st' :
  only_attempts st st' → (∀ k, is_Some (au_attempts st' !! k) ↔ is_Some (au_attempts st !! k)) →
  attempt_index st' = attempt_index st.
Proof. intros _ Hk. unfold attempt_index. by rw (btree_iter_keys _ _ Hk). Qed.

(** The whole effect of applying a replay to the snapshot. *)
Lemma apply_replay_spec outcomes st st' :
  apply_replay outcomes st = inr st' →
  only_attempts st st' ∧ attempt_index st' = attempt_index st ∧
  ∀ k, match au_attempts st !! k with
       | None => au_attempts st' !! k = None
       | Some a =>
           ∃ s d, au_attempts st' !! k = Some (set_attempt_state a s d) ∧
             ((∀ h, key_handle k h → outcomes !! h = None) ∧ s = at_state a ∧ d = at_settlement a
              ∨ ∃ h det, key_handle k h ∧ outcomes !! h = Some (s, det) ∧ d = Some det)
       end.
Proof.
  intros (bh & Hbh & H)%res_bind_inr.
  assert (∀ h h' k, bh !! h = Some k → bh !! h' = Some k → h = h') as Hinj.
  { intros h h' k Hk Hk'. apply (attempt_index_spec _ _ _ _ Hbh) in Hk as [_ ?], Hk' as [_ ?].
    by eapply key_handle_det. }
  apply apply_outcomes_spec in H as (Hot & Hin & Hout); [|done|apply btree_iter_NoDup].
  assert (∀ k, match au_attempts st !! k with
       | None => au_attempts st' !! k = None
       | Some a =>
           ∃ s d, au_attempts st' !! k = Some (set_attempt_state a s d) ∧
             ((∀ h, key_handle k h → outcomes !! h = None) ∧ s = at_state a ∧ d = at_settlement a
              ∨ ∃ h det, key_handle k h ∧ outcomes !! h = Some (s, det) ∧ d = Some det)
       end) as Hall.
  { intros k.
    destruct (decide (Exists (λ h, bh !! h = Some k) (btree_iter outcomes).*1)) as [He|Hne].
    - apply Exists_exists in He as (h & Hh & Hk).
      apply list_elem_of_fmap in Hh as ([h' [o d]] & -> & Ho).
      destruct (Hin _ _ _ Ho) as (k' & a & Hk' & Ha & Ha'). simpl in Hk.
      assert (k' = k) as -> by congruence. rw Ha. exists o, (Some d). split; [done|]. right.
      exists h', d. split; [by apply (attempt_index_spec _ _ _ _ Hbh) in Hk as [_ ?]|].
      split; [by apply elem_of_btree_iter|done].
    - rw Hout. 2: { intros h Hh Hk. apply Hne, Exists_exists. eauto. }
      destruct (au_attempts st !! k) as [a|] eqn:Ha; [|done].
      exists (at_state a), (at_settlement a). split; [by destruct a|]. left. split; [|done].
      intros h Hkh. apply eq_None_not_Some. intros [v Hv]. apply Hne, Exists_exists.
      exists h. split.
      + apply list_elem_of_fmap. exists (h, v). split; [done|]. by apply elem_of_btree_iter.
      + apply (attempt_index_spec _ _ _ _ Hbh). split; [by rw Ha|done]. }
  split; [done|]. split; [|done]. apply only_attempts_index; [done|]. intros k.
  specialize (Hall k). destruct (au_attempts st !! k) as [a|].
  - destruct Hall as (s & d & -> & _). done.
  - by rw Hall.
Qed.

(** ** Recovery *)

Lemma recover_keys_spec from to detail keys s ids s' :
  from ≠ to → recover_keys from to detail keys s = inr (ids, s') →
  only_attempts (tx_auth s) (tx_auth s') ∧
  ∀ k, au_attempts (tx_auth s') !! k =
       (λ a, if decide (k ∈ keys ∧ at_state a = from)
             then set_attempt_state a to (Some detail) else a)
         <$> au_attempts (tx_auth s) !! k.
Proof.
  intros Hne. revert s ids. induction keys as [|key keys IH]; intros s ids H; simpl in H.
  - tx_inv H. split; [by destruct s as [[]]|]. intros k.
    by destruct (au_attempts (tx_auth s) !! k).
  - tx_inv H.
    + match goal with Hr : recover_keys _ _ _ keys _ = _ |- _ => apply IH in Hr as [Hot Hl] end.
      simpl in *. split; [unfold only_attempts in *; by rw {1}Hot|]. intros k. rw Hl.
      destruct (decide (k = key)) as [->|Hk].
      * rw lookup_insert_eq.
        match goal with Ha : au_attempts _ !! key = Some _ |- _ => rw Ha end. simpl. f_equal.
        repeat case_decide; try done; [naive_solver..|].
        match goal with Hd : ¬ (key ∈ key :: keys ∧ _) |- _ => destruct Hd; split; [by left|done] end.
      * rw lookup_insert_ne //. destruct (au_attempts (tx_auth s) !! k); [|done]. simpl. f_equal.
        repeat case_decide; set_solver.
    + match goal with Hr : recover_keys _ _ _ keys _ = _ |- _ => apply IH in Hr as [Hot Hl] end.
      split; [done|]. intros k. rw Hl. destruct (au_attempts (tx_auth s) !! k) as [a|] eqn:Ha; [|done].
      simpl. f_equal. repeat case_decide; try done; [set_solver|].
      match goal with Hd : k ∈ key :: keys ∧ _ |- _ => destruct Hd as [[->|?]%elem_of_cons ?] end.
      * congruence.
      * naive_solver.
Qed.

Lemma keys_in_state_spec s st k :
  k ∈ keys_in_state s st ↔ ∃ a, au_attempts st !! k = Some a ∧ at_state a = s.
Proof.
  unfold keys_in_state. rw list_elem_of_fmap. split.
  - intros ([k' a] & -> & [Hs Hin]%list_elem_of_filter). apply elem_of_btree_iter in Hin. eauto.
  - intros (a & Ha & Hs). exists (k, a). split; [done|]. apply list_elem_of_filter.
    split; [done|]. by apply elem_of_btree_iter.
Qed.

(** What recovery does to each attempt. *)
Definition recovered (a : StoredAttempt) : StoredAttempt :=
  if decide (at_state a = STATE_PREPARING) then
    set_attempt_state a STATE_FAILED (Some (failed_debug AbandonedBeforeWireAdmission))
  else if decide (at_state a = STATE_SENDING) then
    set_attempt_state a STATE_UNCERTAIN (Some (uncertain_debug CrashBetweenDispatchAndSettlement))
  else a.

Lemma recover_tx_spec st s ids s' :
  tx_auth s = st →
  recover_tx (keys_in_state STATE_PREPARING st) (keys_in_state STATE_SENDING st) s = inr (ids, s') →
  only_attempts st (tx_auth s') ∧
  ∀ k, au_attempts (tx_auth s') !! k = recovered <$> au_attempts st !! k.
Proof.
  intros <- H. unfold recover_tx in H.
  apply tx_bind_inr in H as (ids1 & s1 & H1 & H). apply tx_bind_inr in H as (ids2 & s2 & H2 & H).
  tx_inv H. apply recover_keys_spec in H1 as [Hot1 Hl1], H2 as [Hot2 Hl2]; [|done..].
  split; [unfold only_attempts in *; by rw {1}Hot2 {1}Hot1|].
  intros k. rw Hl2 Hl1. destruct (au_attempts (tx_auth s) !! k) as [a|] eqn:Ha; [|done]. simpl. f_equal.
  unfold recovered.
  assert (∀ x, k ∈ keys_in_state x (tx_auth s) ↔ at_state a = x) as Hk.
  { intros x. rw keys_in_state_spec Ha. naive_solver. }
  pose proof (Hk STATE_PREPARING) as Hk1. pose proof (Hk STATE_SENDING) as Hk2. clear Hk.
  assert (STATE_PREPARING ≠ STATE_SENDING) by done. assert (STATE_FAILED ≠ STATE_SENDING) by done.
  repeat case_decide; simpl in *; naive_solver congruence.
Qed.

End replay.
