(* ===== verification/OpenFacts.v ===== *)
(** * What an [open] and a credential rotation leave behind

    Inversion of the runs of [HostAuthority::open] and [set_credentials]. *)

From S2P Require Import Prelude Text Ids State World AuditWal AuditFacts Store StoreFacts Gates Reconcile Wellformed Operator Safety Trace GateFacts ReplayFacts.

Section open_facts.
  Context {Cdc : Codec} {Env : Environment} {CL : CodecLaws} {EL : EnvironmentLaws}.

(** ** Steps that leave the disk alone *)

Definition keeps_disk {A} (m : M A) : Prop := moves eq m.

Lemma keeps_disk_audit_open : keeps_disk audit_open.
Proof.
  apply moves_bind; [apply _|apply moves_put_audit, _|]. intros _.
  apply moves_bind; [apply _|eapply moves_RO, RO_audit_lock; apply _|]. intros _.
  apply moves_replay, _.
Qed.

Lemma keeps_disk_run {A} (m : M A) w o w' : keeps_disk m → m w = (o, w') → w_disk w' = w_disk w.
Proof. intros Hm E. pose proof (Hm w) as Hw. by rw E in Hw. Qed.

Lemma release_done {A} (m : M A) w a w' :
  release_on_failure m w = (Done a, w') ↔ m w = (Done a, w').
Proof. unfold release_on_failure. destruct (m w) as [[] ]; naive_solver. Qed.

(** ** Settlement replay *)

(** The record settles the attempt of this handle. *)
Definition settles (h : string) (r : AuditRecord) : Prop :=
  match ar_event r with
  | EvSendOutcome attempt _ _ | EvAttemptReconciled attempt _ => attempt = h
  | _ => False
  end.

Lemma replay_event_settles acc r acc' h :
  replay_event acc (ar_event r) = inr acc' → ¬ settles h r →
  ra_outcomes acc' !! h = ra_outcomes acc !! h.
Proof.
  unfold settles. destruct (ar_event r); simpl; try (by intros [= <-]).
  - intros (st & _ & H)%res_bind_inr Hne.
    destruct (ra_outcomes acc !! attempt) as [[? ex]|]; [destruct (starts_with _ ex)|];
      simplify_eq; simpl; rw ?lookup_insert_ne //.
  - intros (st & _ & (truths & _ & [= <-])%res_bind_inr)%res_bind_inr Hne.
    simpl. by rw lookup_insert_ne.
Qed.

Lemma replay_events_settles rs acc acc' h :
  replay_events acc rs = inr acc' → (∀ r, r ∈ rs → ¬ settles h r) →
  ra_outcomes acc' !! h = ra_outcomes acc !! h.
Proof.
  revert acc. induction rs as [|r rs IH]; intros acc; simpl; [by intros [= <-]|].
  intros (acc1 & H1 & H)%res_bind_inr Hn.
  rw (IH _ H); [|set_solver]. apply (replay_event_settles _ _ _ _ H1). set_solver.
Qed.

(** What a replay of the settled log may change: attempts, and of these only
    the ones a record settles. *)
Definition replayed (d : Disk) (st st' : StoredAuthority) : Prop :=
  only_attempts st st' ∧
  ∀ k a rs, au_attempts st !! k = Some a → intact d rs →
    (∀ h r, key_handle k h → r ∈ rs → ¬ settles h r) → au_attempts st' !! k = Some a.

Lemma replay_locked_done w u w' st :
  Inv wf w → log_room (w_disk w) → holds (w_disk w) st →
  replay_attempt_settlements_locked w = (Done u, w') →
  ∃ st', Inv wf w' ∧ holds (w_disk w') st' ∧ replayed (w_disk w) st st' ∧
    d_log (w_disk w') = d_log (w_disk w) ∧ d_head (w_disk w') = d_head (w_disk w).
Proof.
  intros Hi Hr Hst E.
  assert (∀ n, Inv wf (set_tick w n) ∧ holds (w_disk (set_tick w n)) st) as Htick by done.
  assert (replayed (w_disk w) st st) as Hrefl by (split; [by destruct st|done]).
  unfold replay_attempt_settlements_locked in E.
  apply bind_done in E as (? & w2 & E2 & E).
  apply (RO_done _ _ _ _ _ RO_lock_audit) in E2 as [[n2 ->] _].
  apply bind_done in E as (ok & w3 & E3 & E).
  apply (RO_done _ _ _ _ _ RO_verify_chain) in E3 as [[n3 ->] _].
  destruct ok; simpl in E; [|injection E as _ <-; exists st; split_and!; done].
  apply bind_done in E as (rs & w4 & E4 & E).
  apply (RO_done _ _ _ _ _ RO_records) in E4 as [[n4 ->] Hrs].
  apply bind_done in E as (acc & w5 & E5 & E).
  apply (RO_done _ _ _ _ _ (RO_lift_res _)) in E5 as [[n5 ->] Hacc].
  case_decide; [injection E as _ <-; exists st; split_and!; done|].
  apply bind_done in E as (pending & w6 & E6 & E).
  apply (RO_done _ _ _ _ _ (RO_read _)) in E6 as [[n6 ->] _].
  destruct pending; simpl in E; [|injection E as _ <-; exists st; split_and!; done].
  apply with_state_done, (committed_holds _ _ _ _) in E
    as (st0 & m & s & Hst0 & _ & Htx & Hst' & _ & Hi' & Hl & Hh).
  2: apply Htick. 2: by eapply tx_wf_replay.
  pose proof (holds_det _ _ _ Hst0 Hst) as ->. tx_inv Htx. simpl in *.
  select (apply_replay _ _ = _) (fun H => apply apply_replay_spec in H as (Hot & _ & Hall)).
  eexists. split; [done|]. split; [done|]. split; [|done]. split; [done|].
  intros k a rs' Ha Hrs' Hno. specialize (Hall k). rw Ha in Hall.
  assert (rs' = rs) as -> by (eapply intact_det; [done|]; apply Hrs; by right).
  destruct Hall as (s0 & d0 & Hk & [(_ & -> & ->)|(h & det & Hkh & Ho & _)]).
  - rw Hk. by destruct a.
  - rw (replay_events_settles _ _ _ h Hacc) in Ho; [done|]. intros r Hr'. by apply Hno.
Qed.

Lemma replay_settlements_done w u w' st :
  Inv wf w → log_room (w_disk w) → holds (w_disk w) st →
  replay_attempt_settlements w = (Done u, w') →
  ∃ st', holds (w_disk w') st' ∧ replayed (w_disk w) st st'.
Proof.
  intros Hi Hr Hst E. apply bind_done in E as (? & w1 & E1 & E).
  apply (RO_done _ _ _ _ _ RO_lock_attempt_lifecycle) in E1 as [[n1 ->] _].
  apply (replay_locked_done _ _ _ st) in E as (st' & _ & ? & ? & _); [eauto|done..].
Qed.

(** ** Opening *)

Lemma with_state_init_done {A} fp (f : Tx A) w a w' st :
  tx_wf wf f → Inv wf w → holds (w_disk w) st → with_state_init fp f w = (Done a, w') →
  au_admin_credential_fingerprint st = fp ∧ Inv wf w' ∧
  ∃ m s, f {| tx_auth := st; tx_tick := m |} = inr (a, s) ∧ holds (w_disk w') (tx_auth s).
Proof.
  intros Hf Hi Hst E. pose proof (wp_run _ _ _ _ _ E (wp_with_state_init fp f w)) as Hw.
  destruct Hw as [[_ Hno]|(b & st0 & m & n & s & t & Hst0 & Hfs & Ht & Ew & Hb)];
    [by destruct (Hno a)|]. rw (Hb a eq_refl).
  destruct Hst0 as [[Hst0 Hc]|[Hn _]]; [|by destruct Hst as (? & ? & _); congruence].
  pose proof (holds_det _ _ _ Hst0 Hst) as ->. apply constant_time_eq_true in Hc.
  assert (committed_by f w b w') as Hcb by (by exists st, m, n, s, t).
  apply (committed_holds _ _ _ _ Hi Hf) in Hcb as (st1 & m1 & s1 & Hst1 & _ & Hf1 & Hst1' & _ & Hi' & _).
  pose proof (holds_det _ _ _ Hst1 Hst) as ->. eauto 10.
Qed.

(** The steps of an [open] that returns on an existing root. *)
Lemma open_done root cred w hs w' st :
  disk_inv (w_disk w) → log_room (w_disk w') → holds (w_disk w) st →
  open root cred w = (Done hs, w') →
  w_admin_held w = false ∧
  au_admin_credential_fingerprint st = admin_credential_fingerprint (hac_secret cred) ∧
  ∃ st', holds (w_disk w') st' ∧
    only_attempts (set_control_epoch st (au_control_epoch st + 1)%Z) st'.
Proof.
  intros Hi Hr Hst E.
  pose proof (wp_run _ _ _ _ _ E (wp_open root cred w)) as [Hg _].
  unfold open in E. do 3 (apply bind_done in E as (? & ? & E1 & E);
    apply (RO_done _ _ _ _ _ RO_io) in E1 as [[? ->] _]).
  apply bind_done in E as (? & wl & El & E).
  unfold take_admin_lock in El. apply bind_done in El as (lk & w1 & E1 & El).
  assert (∃ n, w1 = set_tick w n) as [n1 ->].
  { apply attempt_done in E1. destruct lk; apply (RO_evolves _ _ _ _ _ RO_io) in E1 as [? ->]; by eexists. }
  apply bind_done in El as (held & w2 & [= <- <-] & El). simpl in El.
  destruct lk as [|[]]; [by destruct (w_admin_held w)|].
  destruct (w_admin_held w) eqn:Hheld; [done|]. split; [done|]. injection El as _ <-.
  apply (proj1 (release_done _ _ _ _)) in E. apply bind_done in E as (? & w2 & E2 & E).
  pose proof (keeps_disk_run _ _ _ _ keeps_disk_audit_open E2) as Hd2. simpl in Hd2.
  match type of E2 with audit_open ?wx = _ =>
    pose proof (wp_run _ _ _ _ _ E2 (wp_audit_open wx (grows_room _ _ Hg Hr))) as [_ Hc2] end.
  assert (Inv wf w2) as Hi2.
  { split; [split; [by rw Hd2; apply Hi|done]|]. rw Hd2. apply Hi. }
  rw -Hd2 in Hst. clear E2.
  apply bind_done in E as (ex & w3 & E3 & E).
  apply (RO_done _ _ _ _ _ RO_state_file_exists) in E3 as [[n3 ->] _].
  apply bind_done in E as (ev & w4 & E4 & E).
  assert (∃ n, w4 = set_tick w2 n) as [n4 ->].
  { destruct ex; [injection E4 as _ <-; by eexists|].
    apply (RO_done _ _ _ _ _ RO_has_content) in E4 as [[? ->] _]. by eexists. }
  destruct ev; [done|]. apply bind_done in E as (? & w5 & [= _ <-] & E).
  apply bind_done in E as (? & w6 & E6 & E).
  apply (with_state_init_done _ _ _ _ _ st tx_wf_bump) in E6 as (Hfp & Hi6 & m & s & Htx & Hst6);
    [|exact Hi2|exact Hst].
  apply bind_done in E as (? & w7 & E7 & [= _ <-]).
  assert (log_room (w_disk w6)) as Hr6.
  { pose proof (safe_replay w6) as [Hg6 _]. rw E7 in Hg6. by eapply grows_room. }
  destruct (replay_settlements_done _ _ _ _ Hi6 Hr6 Hst6 E7) as (st' & Hst' & Hot & _).
  split; [done|]. exists st'. split; [done|].
  unfold bump_control_epoch in Htx. tx_inv Htx. simpl in *.
  select (checked_add _ _ = _) (fun Hc => apply checked_add_Some in Hc as [-> _]). done.
Qed.

(** ** Refusing to open *)

(** On a disk [d], the call leaves [d] alone and does not return. *)
Definition refuses {A} (d : Disk) (m : M A) : Prop :=
  ∀ w, w_disk w = d → w_disk (m w).2 = d ∧ ∀ a, (m w).1 ≠ Done a.

Lemma refuses_after {A B} d (m : M A) (f : A → M B) :
  keeps_disk m → (∀ a, refuses d (f a)) → refuses d (m ≫= f).
Proof.
  intros Hm Hf w Hd. unfold mbind, M_bind. pose proof (Hm w) as Hw.
  destruct (m w) as [[a| |] w1]; simpl in *; [|by rw -Hw..]. apply Hf. by rw -Hw.
Qed.

Lemma refuses_first {A B} d (m : M A) (f : A → M B) : refuses d m → refuses d (m ≫= f).
Proof.
  intros Hm w Hd. unfold mbind, M_bind. destruct (Hm w Hd) as [Hw Hn].
  destruct (m w) as [[a| |] w1]; simpl in *; [by destruct (Hn a)|done..].
Qed.

Lemma refuses_release {A} d (m : M A) : refuses d m → refuses d (release_on_failure m).
Proof.
  intros Hm w Hd. unfold release_on_failure. destruct (Hm w Hd) as [Hw Hn].
  destruct (m w) as [[a| |] w1]; simpl in *; [by destruct (Hn a)|done..].
Qed.

Lemma refuses_raise {A} d e : refuses d (@raise _ A e).
Proof. by intros w Hd. Qed.

Lemma refuses_with_state_init {A} d fp (f : Tx A) st :
  holds d st → au_admin_credential_fingerprint st ≠ fp → refuses d (with_state_init fp f).
Proof.
  intros Hst Hne w <-. pose proof (wp_with_state_init fp f w) as Hw. unfold wp in Hw.
  destruct Hw as [[[n ->] Hno]|(a & st' & m & n & s & t & Hst' & _)]; [done|]. exfalso.
  destruct Hst' as [[Hst' Hc]|[Hn _]]; [|by destruct Hst as (? & ? & _); congruence].
  rw (holds_det _ _ _ Hst' Hst) in Hc. by apply constant_time_eq_true in Hc.
Qed.

Lemma keeps_disk_take_admin_lock : keeps_disk take_admin_lock.
Proof.
  intros w. unfold take_admin_lock, attempt_, gets, modify, mbind, M_bind.
  destruct (RO_io w) as (n & Hw & _).
  destruct (io w) as [[u|e|] w1]; simpl in *; subst; [|done..]. by destruct (w_admin_held _).
Qed.

Lemma refuses_open root cred d st :
  holds d st →
  au_admin_credential_fingerprint st ≠ admin_credential_fingerprint (hac_secret cred) →
  refuses d (open root cred).
Proof.
  intros Hst Hne. unfold open.
  do 3 (apply refuses_after; [eapply moves_RO, RO_io; apply _|]; intros _).
  apply refuses_after; [apply keeps_disk_take_admin_lock|]; intros _.
  apply refuses_release, refuses_after; [apply keeps_disk_audit_open|]; intros _.
  apply refuses_after; [eapply moves_RO, RO_state_file_exists; apply _|]; intros ex.
  apply refuses_after;
    [destruct ex; eapply moves_RO; [apply _|apply RO_ret|apply _|apply RO_has_content]|].
  intros []; [apply refuses_raise|]. apply refuses_after; [by intros w|]; intros _.
  by eapply refuses_first, refuses_with_state_init.
Qed.

(** ** Credentials *)

(** A record of the new set is the old record of a slot presented again with
    the same secret, or carries a generation no earlier context can have. *)
Definition kept_slot (st : StoredAuthority) (cs : list HostCredential) (c : StoredCredential)
    : Prop :=
  c ∈ au_credentials st ∧
  ∃ h, h ∈ cs ∧ hc_id h = sc_credential_id c ∧
       credential_fingerprint (hc_secret h) = sc_credential_fingerprint c.

Lemma install_credential_kept c s r dead s' :
  install_credential c s = inr ((r, dead), s') →
  (∃ n, tx_auth s' = set_next_auth_generation (tx_auth s) n ∧
        (au_next_auth_generation (tx_auth s) ≤ n)%Z) ∧
  (kept_slot (tx_auth s) [c] r ∨ (au_next_auth_generation (tx_auth s) ≤ sc_auth_generation r)%Z).
Proof.
  intros H. unfold install_credential in H.
  apply tx_bind_inr in H as (st & s1 & Hg & H). tx_inv Hg.
  destruct (find _ _) as [r0|] eqn:Hf.
  - apply find_some in Hf as [Hin%list_elem_of_In Hid%bool_decide_eq_true].
    destruct (decide _) as [Hfp|Hfp].
    + tx_inv H. split; [exists (au_next_auth_generation (tx_auth s)); by destruct s as [[]]|].
      left. split; [done|]. exists c. split; [by left|]. done.
    + unfold allocate_auth_generation in H. tx_inv H. simplify_eq. simpl.
      select (checked_add _ _ = _) (fun Hc => apply checked_add_Some in Hc as [-> _]).
      split; [eexists; split; [done|lia]|right; lia].
  - unfold allocate_auth_generation in H. tx_inv H. simplify_eq. simpl.
    select (checked_add _ _ = _) (fun Hc => apply checked_add_Some in Hc as [-> _]).
    split; [eexists; split; [done|lia]|right; lia].
Qed.

Lemma install_credentials_kept cs s next dead s' :
  install_credentials cs s = inr ((next, dead), s') →
  ∀ c, c ∈ next →
    kept_slot (tx_auth s) cs c ∨ (au_next_auth_generation (tx_auth s) ≤ sc_auth_generation c)%Z.
Proof.
  revert s next dead s'. induction cs as [|h cs IH]; intros s next dead s' H; simpl in H.
  - tx_inv H. simplify_eq. intros c Hc. by apply not_elem_of_nil in Hc.
  - apply tx_bind_inr in H as ([r d] & s1 & H1 & H).
    apply tx_bind_inr in H as ([rs d'] & s2 & H2 & H). tx_inv H. simplify_eq.
    apply install_credential_kept in H1 as ((n & Hs1 & Hn) & Hr).
    intros c [->|Hc]%elem_of_cons.
    + destruct Hr as [[Hin (h' & Hh & ?)]|?]; [left|by right]. split; [done|]. exists h'.
      split; [set_solver|done].
    + apply (IH _ _ _ _ H2) in Hc. rw Hs1 /= in Hc.
      destruct Hc as [[Hin (h' & Hh & ?)]|?]; [left|right; lia]. split; [done|]. exists h'.
      split; [by right|done].
Qed.

End open_facts.
