(* ===== verification/SendProps.v ===== *)
(** * Properties of the send gates

    Capabilities and leases, the physical-send lattice, settlement, replay and
    recovery.  [Inv wf] is the invariant of every reachable authority. *)

From S2P Require Import Prelude Text Ids State World AuditWal AuditFacts Store StoreFacts Gates Reconcile Wellformed Operator Safety Trace GateFacts ReplayFacts.

Section props.
  Context {Cdc : Codec} {Env : Environment} {CL : CodecLaws} {EL : EnvironmentLaws}.

(** The stored lease is what the presented handle says, for this request and
    principal, and nothing it was minted under has moved or run out at [now]. *)
Record lease_current (st : StoredAuthority) (auth : AuthContext) (lease : EffectLease)
    (request : RequestIdentity) (now : Z) (l : StoredLease) : Prop := {
  lc_unspent : ls_consumed l = false;
  lc_unexpired : (now < ls_expires_at_ms l)%Z;
  lc_epoch : ls_control_epoch l = au_control_epoch st;
  lc_generation : ls_capability_generation l = au_capability_generation st;
  lc_policy : ls_policy_revision l = au_policy_revision st;
  lc_principal : ls_principal l = to_hex (ac_principal auth)
    ∧ ls_credential_incarnation l = to_hex (ac_incarnation auth)
    ∧ ls_auth_generation l = ac_auth_generation auth;
  lc_place : ls_session l = to_hex (ab_session (el_binding lease))
    ∧ ls_workspace l = to_hex (ab_workspace (el_binding lease))
    ∧ ls_resource l = to_hex (ab_resource (el_binding lease));
  lc_action : ls_action_digest l = digest_to_hex (request_digest request);
  lc_effect : ls_effect l = effect_as_str ProviderSend;
  lc_actor : ls_actor l = actor_as_str (el_actor lease);
}.

(** The same of the parent capability, and of the resource the lease names. *)
Record capability_current (st : StoredAuthority) (now : Z) (c : StoredCapability) : Prop := {
  cc_unspent : cp_consumed c = false;
  cc_unexpired : (now < cp_expires_at_ms c)%Z;
  cc_epoch : cp_control_epoch c = au_control_epoch st;
  cc_generation : cp_capability_generation c = au_capability_generation st;
  cc_policy : cp_policy_revision c = au_policy_revision st;
}.

Definition observation_current (l : StoredLease) (r : StoredResource) : Prop :=
  sr_observation_revision r = ls_observation_revision l ∧ sr_observation_digest r = ls_observation_digest l.

Lemma check_lease_current st auth lease request now l u :
  check_lease st auth lease (request_digest request) now l = inr u → lease_current st auth lease request now l.
Proof. intros H. apply check_lease_inr in H. by split; naive_solver. Qed.

Lemma check_parent_current st now c u : check_parent st now c = inr u → capability_current st now c.
Proof. intros H. apply check_parent_inr in H. by split; naive_solver. Qed.

(** C1: no permit without durable evidence.  When [begin_send] returns a
    permit, then before the call the principal was current, the lease was on
    disk, unspent, not expired at the time of the call, of the current control
    epoch, capability generation and policy revision, and bound to this
    principal, session, workspace, resource, actor and request; its parent
    capability was unspent, not expired and current in the same three ways; and
    the observation of the resource was the one the lease was minted against.
    After it the snapshot on disk holds the attempt as [preparing] for exactly
    this request and principal, the lease is gone and its parent capability is
    consumed, and the last record of the intact log is the matching
    [SendIntent]. *)
Theorem begin_send_durable auth lease request route w p w' :
  Inv wf w → digest_ok (request_body_digest request) → log_room (w_disk w') →
  begin_send auth lease request route w = (Done p, w') →
  ∃ st st' stored res cap a rs r,
    holds (w_disk w) st ∧ holds (w_disk w') st' ∧
    require_current_state st auth = inr () ∧
    au_leases st !! to_hex (el_id lease) = Some stored ∧
    lease_current st auth lease request (clock_ms (w_tick w)) stored ∧
    au_resources st !! ls_resource stored = Some res ∧ observation_current stored res ∧
    au_leases st' !! to_hex (el_id lease) = None ∧
    au_capabilities st !! ls_capability_id stored = Some cap ∧
    capability_current st (clock_ms (w_tick w)) cap ∧
    au_capabilities st' !! ls_capability_id stored = Some (consume_capability cap) ∧
    au_attempts st' !! to_hex (pm_attempt p) = Some a ∧
    at_state a = STATE_PREPARING ∧ at_principal a = to_hex (ac_principal auth) ∧
    at_request_digest a = digest_to_hex (request_digest request) ∧
    at_idempotency_key a = pm_idempotency_key p ∧
    pm_request_digest p = request_digest request ∧ pm_wire_admitted p = false ∧
    intact (w_disk w) rs ∧ intact (w_disk w') (rs ++ [r]) ∧
    ar_event r = send_intent lease request route (pm_attempt p) (at_ordinal a).
Proof.
  intros Hi Hb Hr E. destruct (begin_send_done _ _ _ _ _ _ _ Hi Hb Hr E) as
    (_ & st & m & attempt & ordinal & s & rs & r & Hst & _ & Htx & Hst' & _ & _ & Hrs & Hrs' & He & ->).
  apply begin_send_tx_inv in Htx as (stored & res & cap & next & Hcur & _ & Hl & Hchk & Hres & Ho1 & Ho2 &
    Hcap & Hpar & _ & -> & _ & Est). simpl in *.
  apply check_lease_current in Hchk. apply check_parent_current in Hpar.
  pose proof (lc_principal _ _ _ _ _ _ Hchk) as [? _].
  eexists st, (tx_auth s), stored, res, cap,
    (new_attempt stored attempt (sr_next_attempt_ordinal res) request route), rs, r.
  rw Est /= lookup_delete_eq !lookup_insert_eq. rw -Est. split_and!; done.
Qed.

(** C3: at most one undecided attempt.  After [begin_send] returns, the new
    attempt is the only one of this principal for this request whose effect is
    not decided ([preparing], [sending] or [uncertain]): an ambiguous prior
    attempt blocks a new permit. *)
Theorem begin_send_single_live auth lease request route w p w' :
  Inv wf w → digest_ok (request_body_digest request) → log_room (w_disk w') →
  begin_send auth lease request route w = (Done p, w') →
  ∃ st', holds (w_disk w') st' ∧
    ∀ k a, au_attempts st' !! k = Some a → at_principal a = to_hex (ac_principal auth) →
      at_request_digest a = digest_to_hex (request_digest request) →
      live_state (at_state a) → k = to_hex (pm_attempt p).
Proof.
  intros Hi Hb Hr E. destruct (begin_send_done _ _ _ _ _ _ _ Hi Hb Hr E) as
    (_ & st & m & attempt & ordinal & s & rs & r & Hst & _ & Htx & Hst' & _ & _ & _ & _ & _ & ->).
  apply begin_send_tx_inv in Htx as (stored & res & cap & next & _ & Hprior & _ & _ & _ & _ & _ &
    _ & _ & _ & _ & _ & Est). simpl in *.
  exists (tx_auth s). split; [done|]. rw Est /=. intros k a Ha Hp Hd Hlive.
  destruct (decide (k = to_hex attempt)) as [|Hne]; [done|]. rw lookup_insert_ne // in Ha.
  destruct (proj1 (ambiguous_prior_false _ _ _) Hprior k a Ha Hp Hd Hlive).
Qed.

(** C6: a lease and a capability authorise one send, for ever.  Once
    [begin_send] has returned a permit, then after any further run of the
    system (public methods with any arguments, failures, crashes and reopenings)
    a [begin_send] that returns again was given another lease, and one whose
    durable record names another capability.  The identifiers minted after the
    first permit are assumed to differ from those of its lease and capability. *)
Theorem begin_send_one_use auth lease request route w p w1 w2 auth2 lease2 request2 route2 p2 w3 st stored :
  Inv wf w → digest_ok (request_body_digest request) →
  digest_ok (request_body_digest request2) → log_room (w_disk w3) →
  begin_send auth lease request route w = (Done p, w1) →
  holds (w_disk w) st → au_leases st !! to_hex (el_id lease) = Some stored →
  minted_anew (w_tick w1) (to_hex (el_id lease)) (ls_capability_id stored) →
  rtc step (Running w1) (Running w2) →
  begin_send auth2 lease2 request2 route2 w2 = (Done p2, w3) →
  el_id lease2 ≠ el_id lease ∧
  ∃ st2 stored2, holds (w_disk w2) st2 ∧ au_leases st2 !! to_hex (el_id lease2) = Some stored2 ∧
    ls_capability_id stored2 ≠ ls_capability_id stored.
Proof.
  intros Hi Hb Hb2 Hr3 E Hst Hl Hnew Hrun E2.
  assert (log_room (w_disk w2)) as Hr2.
  { eapply grows_room; [|exact Hr3]. pose proof (safe_begin_send auth2 lease2 request2 route2 Hb2 w2) as [Hg _].
    by rw E2 in Hg. }
  destruct (steps_sound _ _ Hrun) as [Hg12 Hs12]. unfold sys_disk in Hg12, Hs12. simpl in Hg12, Hs12.
  destruct (begin_send_done _ _ _ _ _ _ _ Hi Hb (grows_room _ _ Hg12 Hr2) E) as
    (_ & st0 & m & attempt & ordinal & s & rs & r & Hst0 & _ & Htx & Hst1 & _ & Hi1 & _).
  pose proof (holds_det _ _ _ Hst0 Hst) as ->. destruct (Hs12 Hr2 Hi1) as [Hi2 _].
  apply begin_send_tx_inv in Htx as (stored' & res & cap & next & _ & _ & Hl' & _ & _ & _ & _ &
    _ & _ & _ & _ & _ & Est). simpl in *. simplify_eq.
  assert (kept (w_tick w1) (spent (to_hex (el_id lease)) (ls_capability_id stored)) w1) as Hk1.
  { split; [done|]. intros st' Hst'. pose proof (holds_det _ _ _ Hst' Hst1) as ->. rw Est. split; simpl.
    - by rw lookup_delete_eq.
    - rw lookup_insert_eq. by intros ? [= <-]. }
  destruct (steps_keep _ _ _ Hnew _ _ Hrun Hk1) as [_ Hspent]. simpl in Hspent.
  destruct (begin_send_done _ _ _ _ _ _ _ Hi2 Hb2 Hr3 E2) as
    (_ & st2 & m2 & attempt2 & ordinal2 & s2 & rs2 & r2 & Hst2 & _ & Htx2 & _).
  destruct (Hspent st2 Hst2) as [Hnone Hcons].
  apply begin_send_tx_inv in Htx2 as (stored2 & res2 & cap2 & next2 & _ & _ & Hl2 & _ & _ & _ & _ &
    Hc2 & Hp2 & _). simpl in *. apply check_parent_inr in Hp2 as [Hp2 _]. split.
  - intros Heq. rw Heq in Hl2. congruence.
  - exists st2, stored2. split_and!; [done..|]. intros Heq. rw Heq in Hc2. apply Hcons in Hc2. congruence.
Qed.

(** The surface must not have moved.  After [record_observation] on a
    resource, no lease minted against an earlier revision of it begins a send. *)
Theorem moved_surface_refuses auth resource obs w rev w1 auth2 lease request route p w2 st l old :
  Inv wf w → digest_ok obs → digest_ok (request_body_digest request) → log_room (w_disk w2) →
  holds (w_disk w) st → au_leases st !! to_hex (el_id lease) = Some l →
  au_resources st !! to_hex resource = Some old → ls_resource l = to_hex resource →
  (ls_observation_revision l ≤ sr_observation_revision old)%Z →
  record_observation auth resource obs w = (Done rev, w1) →
  begin_send auth2 lease request route w1 ≠ (Done p, w2).
Proof.
  intros Hi Ho Hb Hr2 Hst Hl Hres Hlr Hrev E E2.
  apply with_state_done, (committed_holds _ _ _ _ Hi (tx_wf_record_observation auth resource obs Ho)) in E
    as (st0 & m & s & Hst0 & _ & Htx & Hst1 & _ & Hi1 & _).
  pose proof (holds_det _ _ _ Hst0 Hst) as ->.
  destruct (begin_send_done _ _ _ _ _ _ _ Hi1 Hb Hr2 E2) as
    (_ & st1 & m2 & attempt2 & ordinal2 & s2 & rs2 & r2 & Hst1' & _ & Htx2 & _).
  pose proof (holds_det _ _ _ Hst1' Hst1) as ->.
  apply begin_send_tx_inv in Htx2 as (stored2 & res2 & cap2 & next2 & _ & _ & Hl2 & _ & Hr & Hor & _).
  unfold record_observation_tx in Htx. tx_inv Htx. simpl in *. simplify_eq.
  rw Hlr lookup_insert_eq in Hr. simplify_eq. simpl in *.
  match goal with Hc : checked_add _ _ = Some _ |- _ => apply checked_add_Some in Hc as [-> _] end.
  lia.
Qed.

(** C8: the only way to the wire.  When [admit_sending] returns, the permit was
    not admitted before, its attempt went from [preparing] to [sending] and
    nothing else in the snapshot changed, under current generations of the
    presenting principal, and the log ends with the wire admission. *)
Theorem admit_sending_sound auth permit w p w' :
  Inv wf w → log_room (w_disk w') → admit_sending auth permit w = (Done p, w') →
  pm_wire_admitted permit = false ∧ p = wire_admit permit ∧
  ∃ st a rs r, holds (w_disk w) st ∧ au_attempts st !! to_hex (pm_attempt permit) = Some a ∧
    at_state a = STATE_PREPARING ∧ at_principal a = to_hex (ac_principal auth) ∧
    require_current_state st auth = inr () ∧
    at_capability_generation a = au_capability_generation st ∧
    at_policy_revision a = au_policy_revision st ∧ at_control_epoch a = au_control_epoch st ∧
    holds (w_disk w') (set_attempts st (<[to_hex (pm_attempt permit) :=
      set_attempt_state a STATE_SENDING (at_settlement a)]> (au_attempts st))) ∧
    intact (w_disk w) rs ∧ intact (w_disk w') (rs ++ [r]) ∧
    ar_event r = EvSendWireAdmission (public_handle (pm_attempt permit)).
Proof.
  intros Hi Hr E. destruct (admit_sending_done _ _ _ _ _ Hi Hr E) as
    (Hu & -> & st & m & s & rs & r & Hst & _ & Htx & Hst' & _ & _ & Hrs & Hrs' & He).
  apply admit_sending_tx_inv in Htx as (a & ? & ? & ? & ? & _ & _ & ? & ? & ? & Est).
  split; [done|]. split; [done|]. exists st, a, rs, r. rw -Est. split_and!; done.
Qed.

(** Settlement never downgrades ambiguity.  An outcome that says the send
    is safe to repeat comes only from the caller's own assertion that nothing
    was written, from an operator's reconciliation of this attempt as not sent,
    or for a permit that never reached the wire. *)
Theorem settle_failed_justified permit ds label detail w attempt reason w' :
  settle permit ds label detail w = (Done (OutFailed attempt reason), w') →
  detail = Some (inl reason) ∨ pm_wire_admitted permit = false ∨
  ∃ st a, holds (w_disk w) st ∧ au_attempts st !! to_hex (pm_attempt permit) = Some a ∧
    is_operator_reconciled a = true ∧ at_state a = STATE_FAILED.
Proof.
  intros E. apply settle_done in E.
  inversion E as [| st a out Hst Ha Habs Hd Eo | | | |n w1 E1 E2 Eo]; subst; eauto.
  - right; right. exists st, a. unfold absorb_settlement_for_reconciled_attempt in Habs.
    destruct (is_operator_reconciled a); [|done]. simpl in Habs.
    repeat (case_decide; [simplify_eq; try done; eauto|]). done.
  - left. destruct detail as [[r|r]|]; simpl in *; naive_solver.
Qed.

(** A settlement that reports success is durable.  When [settle_settled]
    returns [Settled], the attempt is [settled] in the snapshot; unless an
    operator had reconciled it so, the log ends with its outcome record. *)
Theorem settle_settled_durable permit w attempt w' :
  Inv wf w → log_room (w_disk w') →
  settle_settled permit w = (Done (OutSettled attempt), w') →
  ∃ st a, holds (w_disk w') st ∧ au_attempts st !! to_hex (pm_attempt permit) = Some a ∧
    at_state a = STATE_SETTLED ∧
    (is_operator_reconciled a = true ∨
     ∃ rs r, intact (w_disk w) rs ∧ intact (w_disk w') (rs ++ [r]) ∧
       ar_event r = EvSendOutcome (public_handle (pm_attempt permit)) "settled" "response observed").
Proof.
  intros Hi Hr E. apply settle_done in E.
  inversion E as [| st a out Hst Ha Habs Hd Eo | | | |n w1 E1 E2 Eo]; subst.
  - exists st, a. rw Hd. split; [done|]. split; [done|].
    unfold absorb_settlement_for_reconciled_attempt in Habs.
    destruct (is_operator_reconciled a) eqn:Hrec; [|done]. simpl in Habs.
    case_decide; [simplify_eq; split; [assumption|by left]|]. by repeat (case_decide; simplify_eq).
  - pose proof (grows_room _ _ (grows_append_audit _ _ _ _ _ E1) (grows_room _ _ (grows_with_state _ _ _ _ E2) Hr)) as Hr1.
    apply append_audit_done in E1 as (Hi1 & Hs1 & rs & r & Hrs & Hrs' & He & _);
      [|done..].
    destruct (with_state_log _ _ _ _ E2) as [Hl2 Hh2].
    apply with_state_done, (committed_holds _ _ _ _ Hi1 (tx_wf_settle _ _ _ state_label_settled)) in E2
      as (st & m & s & Hst & _ & Htx & Hst' & _ & _ & _ & _).
    apply settle_tx_inv in Htx as (a & Ha & Est). simpl in *.
    exists (tx_auth s), (set_attempt_state a STATE_SETTLED (Some "response observed")).
    rw Est /= lookup_insert_eq -Est. split_and!; try done. right.
    exists rs, r. rw (intact_frame _ _ _ Hl2 Hh2). split_and!; done.
Qed.

(** C16: the write-ahead order of settlement.  However a settlement ends, it
    never reports an error, and if it changed the snapshot at all then the
    outcome is already the last record of an intact log: no crash can publish a
    terminal state without its evidence. *)
Theorem settle_wal_first permit ds label detail w o w' :
  Inv wf w → log_room (w_disk w') → settle permit ds label detail w = (o, w') →
  (∀ e, o ≠ Raised e) ∧
  (d_state (w_disk w') ≠ d_state (w_disk w) →
   ∃ rs r, intact (w_disk w) rs ∧ intact (w_disk w') (rs ++ [r]) ∧
     ar_event r = EvSendOutcome (public_handle (pm_attempt permit)) label (detail_text detail)).
Proof.
  intros Hi Hr E. destruct (wp_run _ _ _ _ _ E (wp_settle_wal permit ds label detail w Hi)) as [? Hw].
  split; [done|]. by apply Hw.
Qed.

(** Replay converges.  Applying the audited outcomes to a snapshot leaves
    nothing more to replay, changes no field but attempt states and
    settlements, and leaves every attempt without an audited outcome alone. *)
Theorem replay_converges outcomes st st' :
  apply_replay outcomes st = inr st' →
  needs_replay outcomes st' = inr false ∧ only_attempts st st' ∧
  ∀ k a, au_attempts st !! k = Some a → (∀ h, key_handle k h → outcomes !! h = None) →
    au_attempts st' !! k = Some a.
Proof.
  intros H. pose proof (apply_replay_spec _ _ _ H) as (Hot & Hidx & Hall). split_and!; [|done|].
  - apply res_bind_inr in H as (bh & Hbh & H). unfold needs_replay. rw Hidx Hbh /=.
    apply apply_outcomes_spec in H as (_ & Hin & _); [| |apply btree_iter_NoDup].
    + apply replay_pending_false. intros h o d Hh.
      destruct (Hin h o d Hh) as (k & a & Hk & _ & Ha'). exists k. eexists. eauto.
    + intros h h' k Hk Hk'. apply (attempt_index_spec _ _ _ _ Hbh) in Hk as [_ ?], Hk' as [_ ?].
      by eapply key_handle_det.
  - intros k a Ha Hno. specialize (Hall k). rw Ha in Hall.
    destruct Hall as (s & d & Hk & [(_ & -> & ->)|(h & det & Hkh & Ho & _)]).
    + rw Hk. by destruct a.
    + by rw (Hno h Hkh) in Ho.
Qed.

Lemma replay_event_reconciled acc e acc' h s :
  ra_outcomes acc !! h = Some (s, "reconciled") →
  (∀ t, ra_truths acc !! h = Some t → truth_state t = inr s) → is_Some (ra_truths acc !! h) →
  replay_event acc e = inr acc' →
  ra_outcomes acc' !! h = Some (s, "reconciled") ∧
  (∀ t, ra_truths acc' !! h = Some t → truth_state t = inr s) ∧ is_Some (ra_truths acc' !! h).
Proof.
  intros Ho Ht Hs. destruct e; simpl; try (by intros [= <-]).
  - intros (st & _ & H)%res_bind_inr. destruct (decide (attempt = h)) as [->|Hne].
    + rw Ho /= in H. by simplify_eq.
    + destruct (ra_outcomes acc !! attempt) as [[? ex]|];
        [destruct (starts_with "reconciled" ex)|]; simplify_eq; simpl; rw ?lookup_insert_ne //.
  - intros (st & Hst & (truths & Htr & [= <-])%res_bind_inr)%res_bind_inr. simpl.
    destruct (decide (attempt = h)) as [->|Hne].
    + destruct Hs as [t0 Ht0]. rw Ht0 in Htr. case_decide; [done|]. simplify_eq.
      rw lookup_insert_eq. rw (Ht _ Ht0) in Hst. simplify_eq. split; [done|]. split; [done|by rw Ht0].
    + rw lookup_insert_ne //. destruct (ra_truths acc !! attempt) as [t0|];
        [case_decide|]; simplify_eq; rw ?lookup_insert_ne //.
Qed.

Lemma replay_events_reconciled rs acc acc' h s :
  ra_outcomes acc !! h = Some (s, "reconciled") →
  (∀ t, ra_truths acc !! h = Some t → truth_state t = inr s) → is_Some (ra_truths acc !! h) →
  replay_events acc rs = inr acc' → ra_outcomes acc' !! h = Some (s, "reconciled").
Proof.
  revert acc. induction rs as [|r rs IH]; intros acc Ho Ht Hs; simpl; [by intros [= <-]|].
  intros (acc1 & H1 & H)%res_bind_inr.
  destruct (replay_event_reconciled _ _ _ _ _ Ho Ht Hs H1) as (? & ? & ?). by eapply IH.
Qed.

Lemma replay_events_app acc rs rs' acc' :
  replay_events acc (rs ++ rs') = inr acc' ↔
  ∃ acc1, replay_events acc rs = inr acc1 ∧ replay_events acc1 rs' = inr acc'.
Proof.
  revert acc. induction rs as [|r rs IH]; intros acc; simpl; [naive_solver|].
  rw res_bind_inr. setoid_rewrite IH. setoid_rewrite res_bind_inr. naive_solver.
Qed.

(** Operator truth is final.  If a reconciliation record for a handle is in
    the log, replaying the log installs that truth for it, whatever outcomes are
    recorded before or after. *)
Theorem reconciliation_wins rs1 r rs2 h truth s acc :
  ar_event r = EvAttemptReconciled h truth → truth_state truth = inr s →
  replay_events {| ra_outcomes := ∅; ra_truths := ∅ |} (rs1 ++ r :: rs2) = inr acc →
  ra_outcomes acc !! h = Some (s, "reconciled").
Proof.
  intros He Ht (acc1 & _ & H)%replay_events_app. simpl in H.
  apply res_bind_inr in H as (acc2 & H2 & H). rw He /= Ht /= in H2.
  apply res_bind_inr in H2 as (truths & Htr & [= <-]).
  eapply replay_events_reconciled; [..|exact H]; simpl.
  - by rw lookup_insert_eq.
  - intros t. destruct (ra_truths acc1 !! h) eqn:E; [case_decide|]; simplify_eq; [congruence|].
    by rw lookup_insert_eq; intros [= <-].
  - destruct (ra_truths acc1 !! h) eqn:E; [case_decide|]; simplify_eq; [by rw E|].
    by rw lookup_insert_eq.
Qed.

End props.
