(* ===== verification/ScopeProps.v ===== *)
(** * Properties of the principal root

    The atomicity of a transaction, credentials and contexts, rotation, and
    opening a root. *)

From stdpp Require Import sorting.
From S2P Require Import Prelude Text Ids State World AuditWal AuditFacts Store StoreFacts Gates Reconcile Wellformed Operator Safety Trace GateFacts ReplayFacts OpenFacts.

Section props.
  Context {Cdc : Codec} {Env : Environment} {CL : CodecLaws} {EL : EnvironmentLaws}.

(** C22: a mutation of the store is atomic.  Wherever [with_state f] fails or
    the process dies, the disk is as before, or differs only in a snapshot that
    parses back to exactly the state [f] computed from the previous one; a value
    is returned only in the second case. *)
Theorem with_state_atomic {A} (f : Tx A) w o w' :
  with_state f w = (o, w') →
  w_disk w' = w_disk w ∧ (∀ a, o ≠ Done a) ∨
  ∃ st m a s t, holds (w_disk w) st ∧ f {| tx_auth := st; tx_tick := m |} = inr (a, s) ∧
    state_from_json t = inr (tx_auth s) ∧ w_disk w' = set_d_state (w_disk w) (Some t) ∧
    ∀ b, o = Done b → b = a.
Proof.
  intros E. destruct (wp_run _ _ _ _ _ E (wp_with_state f w))
    as [[[n ->] Hno]|(a & (st & m & n & s & t & Hst & Hf & Ht & ->) & Hb)]; [by left|].
  right. exists st, m, a, s, t. apply state_json_roundtrip in Ht. done.
Qed.

(** The constant-time comparison decides equality. *)
Theorem constant_time_eq_spec a b : constant_time_eq a b = true ↔ a = b.
Proof.
  unfold constant_time_eq. case_decide as Hl; [naive_solver|].
  rw bool_decide_eq_true ct_diff_zero; [naive_solver|done].
Qed.

(** The digest of a request binds every field of its identity, up to a
    collision of SHA-256 on the two messages hashed. *)
Theorem request_digest_binds r r' :
  Forall field_ok (request_fields r) → Forall field_ok (request_fields r') →
  no_collision (fields_message (request_fields r)) (fields_message (request_fields r')) →
  request_digest r = request_digest r' → r = r'.
Proof.
  intros Hr Hr' Hnc H. apply of_fields_inj in H; [|done..].
  destruct r as [? ? ? [] ? ? []], r' as [? ? ? [] ? ? []]. by simplify_eq/=.
Qed.

(** Authentication is sound and recorded.  A context is returned only for
    a bearer whose fingerprint equals that of an installed credential, it
    carries that credential's identity and the current generations, and the
    last record of the intact log says which principal authenticated. *)
Theorem authenticate_sound bearer w auth w' :
  Inv wf w → log_room (w_disk w) → authenticate bearer w = (Done auth, w') →
  ∃ st c rs r, holds (w_disk w) st ∧ c ∈ au_credentials st ∧
    sc_credential_fingerprint c = credential_fingerprint (bearer_token bearer) ∧
    bearer_token bearer ≠ "" ∧
    sc_principal c = to_hex (ac_principal auth) ∧ sc_incarnation c = to_hex (ac_incarnation auth) ∧
    sc_auth_generation c = ac_auth_generation auth ∧
    au_capability_generation st = ac_capability_generation auth ∧
    au_policy_revision st = ac_policy_revision auth ∧ au_control_epoch st = ac_control_epoch auth ∧
    intact (w_disk w) rs ∧ intact (w_disk w') (rs ++ [r]) ∧
    ar_event r = EvAuthenticated (public_handle (ac_principal auth)) ∧
    ar_control_epoch r = ac_control_epoch auth.
Proof.
  intros Hi Hr E. unfold authenticate in E. case_decide as Ht; [done|].
  apply bind_done in E as (auth' & w1 & E1 & E).
  apply (RO_done _ _ _ _ _ (RO_read _)) in E1 as ([n ->] & st & Hst & Ha).
  apply bind_done in E as (u & w2 & E2 & [= <- <-]).
  apply append_audit_done in E2 as (_ & _ & rs & r & Hrs & Hrs' & He & Hep); [|done..].
  unfold authenticate_state in Ha. case_decide; [done|].
  apply res_bind_inr in Ha as (c & Hc%ok_or_inr & Ha).
  apply find_some in Hc as [Hin%list_elem_of_In Hfp%constant_time_eq_true].
  apply res_bind_inr in Ha as (p & Hp & Ha). apply res_bind_inr in Ha as (i & Hinc & [= <-]).
  pose proof (proj1 (Forall_forall _ _) (wf_creds _ (proj2 Hi _ Hst)) _ Hin) as Hok.
  exists st, c, rs, r. simpl. split_and!; try done.
  - destruct (hex16_decode (k := KPrincipal) _ "principal" (co_principal _ _ Hok)) as (p' & Hp' & <-).
    congruence.
  - destruct (hex16_decode (k := KIncarnation) _ "incarnation" (co_incarnation _ _ Hok)) as (p' & Hp' & <-).
    congruence.
Qed.

(** A secret with surrounding white space can be installed but never
    presented: [HostCredential::new] accepts it as it is, while [authenticate]
    trims the bearer, so no bearer's token is that secret. *)
Theorem untrimmed_secret_unusable id secret c bearer :
  HostCredential_new id secret = inr c → trim secret ≠ secret →
  hc_secret c = secret ∧ bearer_token bearer ≠ hc_secret c.
Proof.
  unfold HostCredential_new. case_decide; [done|]. case_decide; [done|].
  intros [= <-] Hne. split; [done|]. simpl. intros Hb. apply Hne. rw -Hb.
  unfold bearer_token. apply trim_idem.
Qed.

(** Rotating a credential set revokes.  After [set_credentials], a context
    issued before survives only through a slot presented again with the very
    secret it had, and every resource, capability and lease left was there
    before and belongs to an incarnation of the new set. *)
Theorem set_credentials_revokes h admin cs w w' :
  Inv wf w → set_credentials h admin cs w = (Done (), w') →
  ∃ st st', holds (w_disk w) st ∧ holds (w_disk w') st' ∧
    sc_credential_id <$> au_credentials st' = hc_id <$> cs ∧
    (∀ auth, (ac_auth_generation auth < au_next_auth_generation st)%Z →
       require_current_state st' auth = inr () →
       ∃ c, kept_slot st cs c ∧ sc_auth_generation c = ac_auth_generation auth ∧
            sc_incarnation c = to_hex (ac_incarnation auth)) ∧
    (∀ k r, au_resources st' !! k = Some r → au_resources st !! k = Some r ∧
       live_inc (au_credentials st') (sr_credential_incarnation r)) ∧
    (∀ k c, au_capabilities st' !! k = Some c → au_capabilities st !! k = Some c ∧
       live_inc (au_credentials st') (cp_credential_incarnation c)) ∧
    (∀ k l, au_leases st' !! k = Some l → au_leases st !! k = Some l ∧
       live_inc (au_credentials st') (ls_credential_incarnation l)).
Proof.
  intros Hi E. unfold set_credentials in E. apply bind_done in E as (? & w1 & E1 & E).
  apply (RO_done _ _ _ _ _ (RO_lift_res _)) in E1 as [[n ->] _].
  case_decide; [done|]. destruct (duplicate_id [] cs) eqn:Hd; [done|].
  apply with_state_done, (committed_holds _ _ _ _ Hi (tx_wf_set_credentials cs Hd)) in E
    as (st & m & s & Hst & Hwf & Htx & Hst' & Hwf' & _).
  destruct (set_credentials_inv cs {| tx_auth := st; tx_tick := m |} _ _ Hwf Htx)
    as (next & dead & k & Hin & Ec & _ & _ & _ & _ & _ & _ & Hr & Hc & Hl). simpl in *.
  exists st, (tx_auth s). split; [done|]. split; [done|]. split.
  { rw Ec. by apply (install_credentials_inv cs {| tx_auth := st; tx_tick := m |}) in Hin as [? _]. }
  split; [|split_and!; intros key v Hv].
  - intros auth Hgen (c & Hc' & _ & Hinc & Hg & _)%require_current_inr. rw Ec in Hc'.
    destruct (install_credentials_kept _ _ _ _ _ Hin c Hc') as [Hk|Hle]; [by exists c|].
    simpl in Hle. lia.
  - split; [by apply Hr|]. by apply (wf_resources _ Hwf' key v Hv).
  - split; [by apply Hc|]. by apply (wf_capabilities _ Hwf' key v Hv).
  - split; [by apply Hl|]. by apply (wf_leases _ Hwf' key v Hv).
Qed.

(** Rotation by one of the three counters. *)
Lemma rotate_done (f : Tx Z) h admin w n w' :
  Inv wf w → tx_wf wf f →
  (_ ← lift_res (require_admin h admin); with_state f) w = (Done n, w') →
  ∃ st m s, holds (w_disk w) st ∧ f {| tx_auth := st; tx_tick := m |} = inr (n, s) ∧
    holds (w_disk w') (tx_auth s) ∧ ad_root_binding admin = ha_root_binding h.
Proof.
  intros Hi Hf E. apply bind_done in E as (? & w1 & E1 & E).
  apply (RO_done _ _ _ _ _ (RO_lift_res _)) in E1 as [[k ->] Ha].
  apply ensure_inr, bool_decide_eq_true in Ha.
  apply with_state_done, (committed_holds _ _ _ _ Hi Hf) in E
    as (st & m & s & Hst & _ & Htx & Hst' & _). eauto 10.
Qed.

(** The state-level meaning of a rotation: contexts current before are refused
    after with [e], and no capability or lease survives. *)
Definition revoked (e : AuthorityError) (st st' : StoredAuthority) : Prop :=
  au_capabilities st' = ∅ ∧ au_leases st' = ∅ ∧
  ∀ auth, require_current_state st auth = inr () → require_current_state st' auth = inl e.

(** Run the rotation [tx] and compare the checks of the two states. *)
Ltac check_stale :=
  let auth := fresh "auth" in
  intros auth; unfold require_current_state; simpl;
  destruct (ok_or _ _); simpl; [done|]; repeat (case_decide; try done); lia.

Ltac rotated E Hwf tx :=
  apply (rotate_done tx) in E as (st & m & s & Hst & Htx & Hst' & _); [|done|exact Hwf];
  exists st, (tx_auth s); unfold tx in Htx; tx_inv Htx;
  select (checked_add _ _ = _) (fun Hc => apply checked_add_Some in Hc as [-> _]);
  unfold revoked; simpl in *; split_and!; try done; check_stale.

(** Rotation revokes at once and says why.  Each of the three admin
    rotations increments its counter by one, leaves no capability and no lease
    behind, and turns every context current before into the matching error. *)
Theorem rotations_revoke h admin w n w' :
  Inv wf w →
  (rotate_capability_generation h admin w = (Done n, w') →
   ∃ st st', holds (w_disk w) st ∧ holds (w_disk w') st' ∧ revoked StaleCapability st st' ∧
     n = (au_capability_generation st + 1)%Z ∧ au_capability_generation st' = n) ∧
  (rotate_policy_revision h admin w = (Done n, w') →
   ∃ st st', holds (w_disk w) st ∧ holds (w_disk w') st' ∧ revoked StalePolicy st st' ∧
     n = (au_policy_revision st + 1)%Z ∧ au_policy_revision st' = n ∧ au_resources st' = ∅) ∧
  (rotate_control_epoch h admin w = (Done n, w') →
   ∃ st st', holds (w_disk w) st ∧ holds (w_disk w') st' ∧ revoked StaleControlEpoch st st' ∧
     n = (au_control_epoch st + 1)%Z ∧ au_control_epoch st' = n).
Proof.
  intros Hi. split_and!; intros E.
  - rotated E tx_wf_rotate_capability_generation rotate_capability_generation_tx.
  - rotated E tx_wf_rotate_policy_revision rotate_policy_revision_tx.
  - rotated E tx_wf_rotate_control_epoch rotate_control_epoch_tx.
Qed.

(** A restart invalidates every context.  [open] on an existing root
    returns only to the holder of its admin credential and only when no other
    handle holds the root; it increments the control epoch and changes nothing
    else but attempts, so every context current before is a
    [StaleControlEpoch]. *)
Theorem open_restart root cred w hs w' st :
  disk_inv (w_disk w) → log_room (w_disk w') → holds (w_disk w) st →
  open root cred w = (Done hs, w') →
  w_admin_held w = false ∧
  au_admin_credential_fingerprint st = admin_credential_fingerprint (hac_secret cred) ∧
  ∃ st', holds (w_disk w') st' ∧
    only_attempts (set_control_epoch st (au_control_epoch st + 1)) st' ∧
    ∀ auth, require_current_state st auth = inr () →
      require_current_state st' auth = inl StaleControlEpoch.
Proof.
  intros Hi Hr Hst E. destruct (open_done _ _ _ _ _ _ Hi Hr Hst E) as (Hh & Hf & st' & Hst' & Hot).
  split; [done|]. split; [done|]. exists st'. split; [done|]. split; [done|].
  rw Hot. check_stale.
Qed.

(** The wrong admin credential changes nothing.  On a root whose snapshot
    carries another fingerprint, [open] does not return a handle and leaves the
    disk exactly as it was. *)
Theorem open_wrong_admin root cred w o w' st :
  holds (w_disk w) st →
  au_admin_credential_fingerprint st ≠ admin_credential_fingerprint (hac_secret cred) →
  open root cred w = (o, w') → w_disk w' = w_disk w ∧ ∀ hs, o ≠ Done hs.
Proof.
  intros Hst Hne E. destruct (refuses_open root cred _ st Hst Hne w eq_refl) as [Hd Hn].
  by rw E in Hd, Hn.
Qed.

End props.

(** ** Properties of the scoped projections

    What a principal sees of the attempts, and what it cannot tell apart. *)

Section props.
  Context {Cdc : Codec} {Env : Environment} {CL : CodecLaws} {EL : EnvironmentLaws}.

(** ** A read is its closure, up to I/O *)

Definition io_failed {A} (o : outcome A) : Prop :=
  o = Crashed ∨ ∃ msg, o = Raised (Durability msg).

Definition of_res {A} (r : Res A) : outcome A :=
  match r with inl e => Raised e | inr a => Done a end.

(** The outcome of a read on a root whose snapshot parses is a function of the
    tick and of the closure's value. *)
Definition read_outcome {A} (n : nat) (r : Res A) : outcome A :=
  let k (e : io_result) (o : outcome A) :=
    match e with
    | IoOk => o
    | IoErr msg _ => Raised (Durability msg)
    | IoCrash _ => Crashed
    end in
  k (io_event n) (k (io_event (S n)) (k (io_event (S (S n))) (of_res r))).

Lemma read_run {A} (f : StoredAuthority → Res A) w st :
  holds (w_disk w) st → (read f w).1 = read_outcome (w_tick w) (f st).
Proof.
  intros (t & Ht & Hp & Hs).
  unfold read, store_lock, read_state, io, tick, read_outcome, mbind, M_bind, mret, M_ret. simpl.
  destruct (io_event (w_tick w)); try done. simpl.
  destruct (io_event (S (w_tick w))); try done. simpl.
  destruct (io_event (S (S (w_tick w)))); try done. simpl. unfold gets. simpl.
  rw Ht Hp /=. unfold check_schema. rw decide_False; [|tauto]. simpl.
  by destruct (f st).
Qed.

Lemma read_outcome_cases {A} n (r : Res A) : read_outcome n r = of_res r ∨ io_failed (read_outcome n r).
Proof. unfold read_outcome, io_failed. repeat (destruct (io_event _)); eauto. Qed.

Lemma bind_read_refused {A B} (g : StoredAuthority → Res A) (f : A → M B) w st e :
  holds (w_disk w) st → g st = inl e →
  ((read g ≫= f) w).1 = read_outcome (w_tick w) (inl e).
Proof.
  intros Hst He. unfold mbind, M_bind. pose proof (read_run g w st Hst) as Hr. rw He in Hr.
  destruct (read g w) as [o w']. simpl in Hr. subst o. unfold read_outcome.
  by repeat (destruct (io_event _); simpl; try done).
Qed.

(** ** Sorting *)

#[local] Instance projection_le_total : Total projection_le.
Proof.
  intros a b. unfold projection_le.
  destruct (Z.lt_trichotomy (ap_ordinal a) (ap_ordinal b)) as [|[|]]; [auto| |auto].
  destruct (total String.le (ap_attempt a) (ap_attempt b)); auto.
Qed.

#[local] Instance projection_le_trans : Transitive projection_le.
Proof.
  intros a b c. unfold projection_le. intros [?|[? ?]] [?|[? ?]]; try (left; lia).
  right. split; [lia|]. by etrans.
Qed.

Lemma insert_projection_perm p ps : insert_projection p ps ≡ₚ p :: ps.
Proof.
  induction ps as [|q qs IH]; simpl; [done|]. case_decide; [done|]. rw IH. constructor.
Qed.

Lemma sort_projections_perm ps : sort_projections ps ≡ₚ ps.
Proof. induction ps as [|p ps IH]; simpl; [done|]. by rw insert_projection_perm IH. Qed.

Lemma insert_projection_sorted p ps :
  StronglySorted projection_le ps → StronglySorted projection_le (insert_projection p ps).
Proof.
  induction 1 as [|q qs Hs IH Hq]; simpl; [repeat constructor|]. case_decide as Hpq.
  - constructor; [by constructor|]. constructor; [done|].
    eapply Forall_impl; [exact Hq|]. intros x Hx. by etrans.
  - constructor; [done|]. rw insert_projection_perm. constructor; [|done].
    by destruct (total projection_le p q).
Qed.

Lemma sort_projections_sorted ps : StronglySorted projection_le (sort_projections ps).
Proof. induction ps as [|p ps IH]; simpl; [constructor|]. by apply insert_projection_sorted. Qed.

(** ** Projections of well-formed records *)

Lemma project_stored_total k a id : attempt_ok k a → ∃ p, project_stored_attempt id a = inr p.
Proof.
  intros [_ _ Hs Hw _ Hr Hq Hb _]. unfold project_stored_attempt.
  destruct (hex16_decode (k := KSession) _ "session" Hs) as (? & -> & _).
  destruct (hex16_decode (k := KWorkspace) _ "workspace" Hw) as (? & -> & _).
  destruct (hex32_decode _ "route" Hr) as [? ->].
  destruct (hex32_decode _ "request" Hq) as [? ->].
  destruct (hex32_decode _ "body" Hb) as [? ->]. simpl. eauto.
Qed.

(** The attempts a principal may see in one session and workspace. *)
Definition visible (st : StoredAuthority) (auth : AuthContext) (session : SessionId)
    (workspace : WorkspaceId) (id : AttemptId) (a : StoredAttempt) : Prop :=
  au_attempts st !! to_hex id = Some a ∧ attempt_in_scope a auth session workspace = true.

Lemma project_scoped_spec auth session workspace kvs :
  Forall (λ kv, attempt_ok kv.1 kv.2) kvs →
  ∃ ps, project_scoped auth session workspace kvs = inr ps ∧
    ∀ p, p ∈ ps ↔ ∃ id a, (to_hex id, a) ∈ kvs ∧ attempt_in_scope a auth session workspace = true ∧
                          project_stored_attempt id a = inr p.
Proof.
  induction 1 as [|[k a] kvs Hok _ (ps & Hps & Hin)]; simpl in *; [exists []; set_solver|].
  destruct (attempt_in_scope a auth session workspace) eqn:Hsc; simpl.
  - destruct (hex16_decode (k := KAttempt) _ "attempt" (ao_hex _ _ Hok)) as (id & -> & <-).
    destruct (project_stored_total _ _ id Hok) as [p Hp]. simpl. rw Hp Hps /=.
    exists (p :: ps). split; [done|]. intros q. rw elem_of_cons Hin. split.
    + intros [->|(id' & a' & ? & ?)]; [exists id, a|exists id', a']; set_solver.
    + intros (id' & a' & [Heq|?]%elem_of_cons & ? & ?); [|by eauto 10].
      left. injection Heq as ->%(inj to_hex) ->. congruence.
  - exists ps. split; [done|]. intros q. rw Hin. split; intros (id' & a' & Hk & Hs & Hp).
    + exists id', a'. set_solver.
    + apply elem_of_cons in Hk as [Heq|?]; [|by eauto 10]. injection Heq as <- ->. congruence.
Qed.

(** A scoped listing is exact.  For a current context the listing of one
    session and workspace is, up to I/O failures, exactly the projections of the
    principal's attempts there, sorted by ordinal then handle; on a well-formed
    root no record makes it fail. *)
Theorem list_scoped_exact auth session workspace w st :
  Inv wf w → holds (w_disk w) st → require_current_state st auth = inr () →
  let o := (list_scoped_attempt_projections auth session workspace w).1 in
  io_failed o ∨
  ∃ ps, o = Done ps ∧ StronglySorted projection_le ps ∧
    ∀ p, p ∈ ps ↔ ∃ id a, visible st auth session workspace id a ∧
                          project_stored_attempt id a = inr p.
Proof.
  intros Hi Hst Hcur o. subst o. unfold list_scoped_attempt_projections.
  rw (read_run _ _ _ Hst). rw Hcur /=.
  assert (Forall (λ kv, attempt_ok kv.1 kv.2) (btree_iter (au_attempts st))) as Hall.
  { apply Forall_forall. intros [k a] Hin%elem_of_btree_iter.
    by apply (wf_attempts _ (proj2 Hi _ Hst)). }
  destruct (project_scoped_spec auth session workspace _ Hall) as (ps & Hps & Hin). rw Hps /=.
  edestruct (read_outcome_cases (w_tick w) (inr (sort_projections ps))) as [->|?]; [|by left].
  right. exists (sort_projections ps). split; [done|]. split; [apply sort_projections_sorted|].
  intros p. rw sort_projections_perm Hin. unfold visible. setoid_rewrite elem_of_btree_iter.
  naive_solver.
Qed.

(** ** Handles *)

(** No attempt of the principal in this scope carries the handle, and handles
    are distinct; the handle may be unknown or belong to somebody else. *)
Record out_of_scope (st : StoredAuthority) (auth : AuthContext) (session : SessionId)
    (workspace : WorkspaceId) (handle : string) : Prop := {
  os_foreign : ∀ id a, visible st auth session workspace id a → public_handle id ≠ handle;
  os_distinct : ∀ (id id' : AttemptId) a a', au_attempts st !! to_hex id = Some a →
    au_attempts st !! to_hex id' = Some a' → public_handle id = handle →
    public_handle id' = handle → id = id';
}.

Lemma find_handle_spec handle found kvs :
  Forall (λ kv, attempt_ok kv.1 kv.2) kvs → NoDup kvs.*1 →
  (∀ (id id' : AttemptId) a a', (to_hex id, a) ∈ kvs → (to_hex id', a') ∈ kvs → public_handle id = handle →
     public_handle id' = handle → id = id') →
  (∀ (id : AttemptId) a, is_Some found → (to_hex id, a) ∈ kvs → public_handle id ≠ handle) →
  ∃ r, find_handle handle found kvs = inr r ∧
    ∀ (id : AttemptId) a, r = Some (id, a) → found = Some (id, a) ∨ (to_hex id, a) ∈ kvs ∧ public_handle id = handle.
Proof.
  intros Hok. revert found. induction Hok as [|[k a] kvs Hok _ IH]; intros found Hnd Hinj Hfound.
  { exists found. split; [done|]. naive_solver. }
  apply NoDup_cons in Hnd as [Hk Hnd]. simpl in *.
  destruct (hex16_decode (k := KAttempt) _ "attempt" (ao_hex _ _ Hok)) as (id & -> & <-). simpl.
  case_decide as Hh.
  - destruct found as [y|]; [by destruct (Hfound id a); [eauto|left|]|].
    destruct (IH (Some (id, a)) Hnd) as (r & Hr & Hspec).
    + intros; eapply (Hinj _ _ a0 a'); set_solver.
    + intros id' a' _ Hin Hh'. assert (id' = id) as -> by (apply (Hinj id' id a' a); set_solver).
      apply Hk, list_elem_of_fmap. by exists (to_hex id, a').
    + exists r. split; [done|]. intros id' a' Hr'. right.
      destruct (Hspec id' a' Hr') as [[= <- <-]|[? ?]]; split; try done; set_solver.
  - destruct (IH found Hnd) as (r & Hr & Hspec).
    + intros; eapply (Hinj _ _ a0 a'); set_solver.
    + intros; apply (Hfound id0 a0); set_solver.
    + exists r. split; [done|]. intros id' a' Hr'. destruct (Hspec id' a' Hr') as [?|[? ?]]; set_solver.
Qed.

Lemma find_out_of_scope st auth session workspace handle :
  wf st → out_of_scope st auth session workspace handle →
  ∃ r, find_attempt_by_handle st handle = inr r ∧
    ∀ id a, r = Some (id, a) → attempt_in_scope a auth session workspace = false.
Proof.
  intros Hwf [Hf Hd].
  destruct (find_handle_spec handle None (btree_iter (au_attempts st))) as (r & Hr & Hspec).
  - apply Forall_forall. intros [k a] Hin%elem_of_btree_iter. by apply (wf_attempts _ Hwf).
  - apply btree_iter_NoDup.
  - intros id id' a a' ?%elem_of_btree_iter ?%elem_of_btree_iter. eauto.
  - by intros id a [].
  - exists r. split; [done|]. intros id a Hra.
    destruct (Hspec id a Hra) as [?|[Hin%elem_of_btree_iter Hh]]; [done|].
    destruct (attempt_in_scope a auth session workspace) eqn:E; [|done].
    by destruct (Hf id a).
Qed.

(** A foreign attempt looks unknown.  For a current context, a handle that
    is unknown and a handle of somebody else's attempt give the same outcome,
    both from the projection and from [mint_reconciliation_grant]: two roots
    that differ in which of the two holds cannot be told apart, I/O failures
    included. *)
Theorem foreign_looks_unknown auth session workspace handle d ttl w1 w2 st1 st2 :
  Inv wf w1 → Inv wf w2 → w_tick w1 = w_tick w2 →
  holds (w_disk w1) st1 → holds (w_disk w2) st2 →
  require_current_state st1 auth = inr () → require_current_state st2 auth = inr () →
  out_of_scope st1 auth session workspace handle → out_of_scope st2 auth session workspace handle →
  (scoped_attempt_projection auth session workspace handle w1).1 =
  (scoped_attempt_projection auth session workspace handle w2).1 ∧
  (mint_reconciliation_grant auth session workspace handle d ttl w1).1 =
  (mint_reconciliation_grant auth session workspace handle d ttl w2).1.
Proof.
  intros Hi1 Hi2 Ht Hs1 Hs2 Hc1 Hc2 Ho1 Ho2.
  assert (∀ st, wf st → require_current_state st auth = inr () →
    out_of_scope st auth session workspace handle →
    ∃ r, find_attempt_by_handle st handle = inr r ∧
      ∀ id a, r = Some (id, a) → attempt_in_scope a auth session workspace = false) as Hfind.
  { intros st Hwf _ Ho. by apply find_out_of_scope. }
  destruct (Hfind st1) as (r1 & Hr1 & Hout1); [by apply Hi1|done..|].
  destruct (Hfind st2) as (r2 & Hr2 & Hout2); [by apply Hi2|done..|]. split.
  - unfold scoped_attempt_projection. rw (read_run _ _ _ Hs1) (read_run _ _ _ Hs2) Ht.
    rw Hc1 Hc2 /= Hr1 Hr2 /=. f_equal.
    destruct r1 as [[id1 a1]|]; [rw (Hout1 _ _ eq_refl) /=|];
      (destruct r2 as [[id2 a2]|]; [by rw (Hout2 _ _ eq_refl)|done]).
  - unfold mint_reconciliation_grant.
    rw (bind_read_refused _ _ _ _ UnknownResource Hs1) ?(bind_read_refused _ _ _ _ UnknownResource Hs2) ?Ht //.
    + rw Hc2 /=. unfold lookup_scoped_attempt. rw Hr2 /=.
      destruct r2 as [[id2 a2]|]; [by rw (Hout2 _ _ eq_refl)|done].
    + rw Hc1 /=. unfold lookup_scoped_attempt. rw Hr1 /=.
      destruct r1 as [[id1 a1]|]; [by rw (Hout1 _ _ eq_refl)|done].
Qed.

End props.
