(* ===== verification/GateProps.v ===== *)
(** * Properties of leases, recovery and the operator's send *)

From S2P Require Import Prelude Text Ids State World AuditWal AuditFacts Store StoreFacts Gates Reconcile Wellformed Operator Safety Trace GateFacts ReplayFacts OpenFacts.

Section props.
  Context {Cdc : Codec} {Env : Environment} {CL : CodecLaws} {EL : EnvironmentLaws}.

(** A lease never widens its capability.  When [mint_lease] returns, the
    presenting principal owned the unconsumed, unexpired capability; the durable
    lease has the capability's effect, actor and resource, expires no later than
    the capability and no later than asked, is bound to the action digest and to
    the resource's current observation, and nothing else in the snapshot
    changed. *)
Theorem mint_lease_narrows auth cap action ttl w l w' :
  Inv wf w → log_room (w_disk w') → mint_lease auth cap action ttl w = (Done l, w') →
  ∃ st stored res lr now, holds (w_disk w) st ∧
    au_capabilities st !! to_hex (sl_id cap) = Some stored ∧
    au_resources st !! cp_resource stored = Some res ∧
    holds (w_disk w') (set_leases st (<[to_hex (el_id l) := lr]> (au_leases st))) ∧
    cp_consumed stored = false ∧ (now < cp_expires_at_ms stored)%Z ∧
    cp_principal stored = to_hex (ac_principal auth) ∧
    ls_capability_id lr = to_hex (sl_id cap) ∧ ls_principal lr = cp_principal stored ∧
    ls_effect lr = cp_effect stored ∧ ls_actor lr = cp_actor stored ∧
    ls_resource lr = cp_resource stored ∧ ls_consumed lr = false ∧
    ls_observation_revision lr = sr_observation_revision res ∧
    ls_action_digest lr = digest_to_hex action ∧
    (ls_expires_at_ms lr ≤ cp_expires_at_ms stored)%Z ∧ (ls_expires_at_ms lr ≤ now + ttl)%Z.
Proof.
  intros Hi Hr E. destruct (mint_lease_done _ _ _ _ _ _ _ Hi Hr E)
    as (st & m & now & s & Hst & Hwf & Htx & Hst' & _).
  unfold mint_lease_tx in Htx. tx_inv Htx. simpl in *.
  select (check_capability _ _ _ _ _ = _) (fun Hc => apply check_capability_inr in Hc as
    (? & ? & _ & _ & _ & _ & _ & ? & _)).
  eexists st, _, _, _, now. split_and!; try done; simpl; try lia.
  select (au_capabilities _ !! _ = _) (fun Hc => by rw (po_key _ _ _ _ _ _ (wf_capabilities _ Hwf _ _ Hc))).
Qed.

(** ** Crash recovery *)

Lemma recover_audit_done epoch outcome detail keys w u w' :
  Inv wf w → log_room (w_disk w') → recover_audit epoch outcome detail keys w = (Done u, w') →
  Inv wf w' ∧ d_state (w_disk w') = d_state (w_disk w) ∧
  ∃ rs', (∀ rs, intact (w_disk w) rs → intact (w_disk w') (rs ++ rs')) ∧
    ∀ key, key ∈ keys → ∃ (id : AttemptId) r, decode_id key "attempt" = inr id ∧ r ∈ rs' ∧
      ar_event r = EvSendOutcome (public_handle id) outcome detail.
Proof.
  revert w. induction keys as [|key keys IH]; intros w Hi Hr E; simpl in E.
  - injection E as _ <-. split; [done|]. split; [done|]. exists [].
    split; [intros rs; by rw app_nil_r|]. intros k Hk. by apply not_elem_of_nil in Hk.
  - apply bind_done in E as (id & w1 & E1 & E).
    apply (RO_done _ _ _ _ _ (RO_lift_res _)) in E1 as [[n1 ->] Hid].
    apply bind_done in E as (u2 & w2 & E2 & E).
    assert (log_room (w_disk w2)) as Hr2.
    { pose proof (safe_recover_audit epoch outcome detail keys w2) as [Hg _]. rw E in Hg.
      by eapply grows_room. }
    pose proof (grows_room _ _ (grows_append_audit _ _ _ _ _ E2) Hr2) as Hr1.
    apply append_audit_done in E2 as (Hi2 & Hs2 & rs & r & Hrs & Hrs2 & He & _); [|done..].
    destruct (IH w2 Hi2 Hr E) as (Hi' & Hs' & rs' & Hlog & Hev).
    split; [done|]. split; [by rw Hs' Hs2|]. exists (r :: rs'). split.
    + intros rs0 Hrs0. rw (intact_det _ _ _ Hrs0 Hrs) cons_middle app_assoc. by apply Hlog.
    + intros k [->|Hk]%elem_of_cons; [exists id, r; split_and!; [done|by left|done]|].
      destruct (Hev k Hk) as (id' & r' & ? & ? & ?). exists id', r'. split_and!; [done|by right|done].
Qed.

Lemma recovered_decided a :
  at_state (recovered a) ≠ STATE_PREPARING ∧ at_state (recovered a) ≠ STATE_SENDING.
Proof. unfold recovered. repeat case_decide; simpl; done. Qed.

Lemma recovered_id a : at_state a ≠ STATE_PREPARING → at_state a ≠ STATE_SENDING → recovered a = a.
Proof. intros. unfold recovered. by repeat case_decide. Qed.

(** The last step of [recover_incomplete]. *)
Lemma recover_commit_done w ids w' st :
  let prep := keys_in_state STATE_PREPARING st in let send := keys_in_state STATE_SENDING st in
  Inv wf w → holds (w_disk w) st →
  (if decide (prep = [] ∧ send = []) then mret [] else with_state (recover_tx prep send)) w
    = (Done ids, w') →
  ∃ st', holds (w_disk w') st' ∧ only_attempts st st' ∧
    (∀ k, au_attempts st' !! k = recovered <$> au_attempts st !! k) ∧
    d_log (w_disk w') = d_log (w_disk w) ∧ d_head (w_disk w') = d_head (w_disk w).
Proof.
  intros prep send Hi Hst E. case_decide as Hnil.
  - injection E as _ <-. exists st. split; [done|]. split; [by destruct st|]. split; [|done].
    destruct Hnil as [Hp Hs]. intros k. destruct (au_attempts st !! k) as [a|] eqn:Ha; [|done].
    simpl. rw recovered_id //; intros Hstate.
    + assert (k ∈ prep) as Hin by (apply keys_in_state_spec; eauto).
      rw Hp in Hin. by apply not_elem_of_nil in Hin.
    + assert (k ∈ send) as Hin by (apply keys_in_state_spec; eauto).
      rw Hs in Hin. by apply not_elem_of_nil in Hin.
  - apply with_state_done, (committed_holds _ _ _ _ Hi (tx_wf_recover _ _)) in E
      as (st1 & m & s & Hst1 & _ & Htx & Hst' & _ & _ & Hl' & Hh').
    pose proof (holds_det _ _ _ Hst1 Hst) as ->.
    apply (recover_tx_spec st) in Htx as [Hot Hrec]; [|done]. eauto 10.
Qed.

(** Recovery decides everything and never calls a dispatched send failed.
    After [recover_incomplete] no attempt is [preparing] or [sending]: beyond
    what the log already settles, a [preparing] attempt became [failed] and a
    [sending] one [uncertain], nothing else changed, and each decision was
    appended to the log. *)
Theorem recover_incomplete_decides h admin w ids w' st :
  Inv wf w → log_room (w_disk w') → holds (w_disk w) st →
  recover_incomplete h admin w = (Done ids, w') →
  ∃ st0 st' rs', replayed (w_disk w) st st0 ∧ holds (w_disk w') st' ∧ only_attempts st0 st' ∧
    (∀ k, au_attempts st' !! k = recovered <$> au_attempts st0 !! k) ∧
    (∀ k a, au_attempts st' !! k = Some a →
       at_state a ≠ STATE_PREPARING ∧ at_state a ≠ STATE_SENDING) ∧
    (∀ rs, intact (w_disk w) rs → intact (w_disk w') (rs ++ rs')) ∧
    ∀ k a, au_attempts st0 !! k = Some a →
      (at_state a = STATE_SENDING → ∃ (id : AttemptId) r, decode_id k "attempt" = inr id ∧ r ∈ rs' ∧
         ar_event r = EvSendOutcome (public_handle id) "uncertain" "CrashBetweenDispatchAndSettlement") ∧
      (at_state a = STATE_PREPARING → ∃ (id : AttemptId) r, decode_id k "attempt" = inr id ∧ r ∈ rs' ∧
         ar_event r = EvSendOutcome (public_handle id) "failed" "AbandonedBeforeWireAdmission").
Proof.
  intros Hi Hr Hst E. unfold recover_incomplete in E.
  apply bind_done in E as (? & w1 & E1 & E).
  apply (RO_done _ _ _ _ _ (RO_lift_res _)) in E1 as [[n1 ->] _].
  apply bind_done in E as (? & w2 & E2 & E).
  apply (RO_done _ _ _ _ _ RO_lock_attempt_lifecycle) in E2 as [[n2 ->] _].
  apply bind_done in E as (? & w3 & E3 & E).
  apply bind_done in E as ([prep send] & w4 & E4 & E).
  apply (RO_done _ _ _ _ _ (RO_read _)) in E4 as ([n4 ->] & st0 & Hst0 & [= <- <-]).
  apply bind_done in E as (epoch & w5 & E5 & E).
  apply (RO_done _ _ _ _ _ (RO_read _)) in E5 as ([n5 ->] & _).
  apply bind_done in E as (? & w6 & E6 & E). apply bind_done in E as (? & w7 & E7 & E).
  assert (log_room (w_disk w7)) as Hr7.
  { case_decide; [by injection E as _ <-|]. apply (room_before _ _ _ _
      (safe_with_state _ _ (tx_wf_recover _ _)) E Hr). }
  pose proof (room_before _ _ _ _ (safe_recover_audit _ _ _ _) E7 Hr7) as Hr6.
  pose proof (room_before _ _ _ _ (safe_recover_audit _ _ _ _) E6 Hr6) as Hr3.
  pose proof (room_before _ _ _ _ safe_replay_locked E3 Hr3) as Hr2.
  destruct (replay_locked_done (set_tick (set_tick w n1) n2) _ _ st Hi Hr2 Hst E3) as (st0' & Hi3 & Hst3 & Hrep & Hl3 & Hh3).
  pose proof (holds_det _ _ _ Hst0 Hst3) as <-.
  destruct (recover_audit_done _ _ _ _ _ _ _ (Inv_tick _ n5 Hi3) Hr6 E6) as (Hi6 & Hs6 & rs1 & Hlog1 & Hev1).
  destruct (recover_audit_done _ _ _ _ _ _ _ Hi6 Hr7 E7) as (Hi7 & Hs7 & rs2 & Hlog2 & Hev2).
  assert (holds (w_disk w7) st0) as Hst7 by (by rw (holds_same_state _ _ _ Hs7) (holds_same_state _ _ _ Hs6)).
  destruct (recover_commit_done _ _ _ _ Hi7 Hst7 E) as (st' & Hst' & Hot & Hrec & Hl' & Hh').
  exists st0, st', (rs1 ++ rs2). split; [done|]. split; [done|]. split; [done|]. split; [done|].
  split; [|split].
  - intros k a Ha. rw Hrec in Ha. apply fmap_Some in Ha as (a0 & _ & ->). apply recovered_decided.
  - intros rs Hrs. rw (intact_frame _ _ _ Hl' Hh') app_assoc. apply Hlog2, Hlog1.
    by apply (intact_frame _ _ _ Hl3 Hh3).
  - intros k a Ha. split; intros Hs.
    + destruct (Hev2 k) as (id & r & ? & ? & ?); [apply keys_in_state_spec; eauto|].
      exists id, r. split_and!; [done|set_solver|done].
    + destruct (Hev1 k) as (id & r & ? & ? & ?); [apply keys_in_state_spec; eauto|].
      exists id, r. split_and!; [done|set_solver|done].
Qed.

(** C15: an operator's send reaches the wire with both records behind it.  When
    [admit_operator_send] returns, the permit is admitted and for exactly this
    request, its attempt is the operator's and [sending] in the snapshot, and the
    log ends with the intent and the wire admission of this attempt, in that
    order. *)
Theorem admit_operator_send_sound auth request scope w p w' :
  Inv wf w → digest_ok (request_body_digest request) → log_room (w_disk w') →
  admit_operator_send auth request scope w = (Done p, w') →
  pm_wire_admitted p = true ∧ pm_request_digest p = request_digest request ∧
  ∃ st a lease rs r1 r2, holds (w_disk w') st ∧
    au_attempts st !! to_hex (pm_attempt p) = Some a ∧ at_state a = STATE_SENDING ∧
    at_principal a = to_hex (ac_principal auth) ∧
    at_request_digest a = digest_to_hex (request_digest request) ∧
    intact (w_disk w') (rs ++ [r1; r2]) ∧
    ar_event r1 = send_intent lease request scope (pm_attempt p) (at_ordinal a) ∧
    ar_event r2 = EvSendWireAdmission (public_handle (pm_attempt p)).
Proof.
  intros Hi Hb Hr E. unfold admit_operator_send in E.
  apply bind_done in E as (cwd & w1 & E1 & E).
  apply (RO_done _ _ _ _ _ RO_env_current_dir) in E1 as [[n1 ->] _].
  apply bind_done in E as (ws & w2 & E2 & E). apply bind_done in E as (res & w3 & E3 & E).
  apply bind_done in E as (cap & w4 & E4 & E). apply bind_done in E as (lease & w5 & E5 & E).
  apply bind_done in E as (permit & w6 & E6 & E7).
  pose proof (safe_obtain_provider_send_surface auth ws scope (issue_workspace_ok _ _ _ _ _ E2)) as S3.
  pose proof (room_before _ _ _ _ (safe_admit_sending _ _) E7 Hr) as Hr6.
  pose proof (room_before _ _ _ _ (safe_begin_send _ _ _ _ Hb) E6 Hr6) as Hr5.
  pose proof (room_before _ _ _ _ (safe_mint_lease _ _ _ _) E5 Hr5) as Hr4.
  pose proof (room_before _ _ _ _ (safe_seal_capability _ _ _ _ _) E4 Hr4) as Hr3.
  pose proof (room_before _ _ _ _ S3 E3 Hr3) as Hr2.
  destruct (safe_run _ _ _ _ (safe_issue_workspace _ _) E2 Hr2 Hi) as [Hi2 _].
  destruct (safe_run _ _ _ _ S3 E3 Hr3 Hi2) as [Hi3 _].
  destruct (safe_run _ _ _ _ (safe_seal_capability _ _ _ _ _) E4 Hr4 Hi3) as [Hi4 _].
  destruct (safe_run _ _ _ _ (safe_mint_lease _ _ _ _) E5 Hr5 Hi4) as [Hi5 _].
  destruct (begin_send_done _ _ _ _ _ _ _ Hi5 Hb Hr6 E6) as
    (_ & st & m & attempt & ordinal & s & rs & r1 & _ & _ & Htx & Hst6 & _ & Hi6 & Hrs & Hrs6 & He1 & ->).
  destruct (admit_sending_done _ _ _ _ _ Hi6 Hr E7) as
    (_ & -> & st6 & m6 & s7 & rs6 & r2 & Hst6' & _ & Htx7 & Hst7 & _ & _ & Hrs6' & Hrs7 & He2).
  pose proof (holds_det _ _ _ Hst6' Hst6) as ->. rw (intact_det _ _ _ Hrs6' Hrs6) in Hrs7.
  apply begin_send_tx_inv in Htx as (stored & rr & cc & next & _ & _ & _ & _ & _ & _ & _ & _ & _ & _ & _ & _ & Est).
  apply admit_sending_tx_inv in Htx7 as (a & _ & Ha & _ & Hp & _ & _ & _ & _ & _ & Est7). simpl in *.
  split; [done|]. split; [done|].
  exists (tx_auth s7), (set_attempt_state a STATE_SENDING (at_settlement a)), lease, rs, r1, r2.
  rw Est /= lookup_insert_eq in Ha. simplify_eq. rw {2}Est7 /= lookup_insert_eq.
  split_and!; try done. by rw -app_assoc in Hrs7.
Qed.

End props.
