(* ===== verification/ReconcileProps.v ===== *)
(** * Properties of operator reconciliation *)

From S2P Require Import Prelude Text Ids State World AuditWal AuditFacts Store StoreFacts Gates Reconcile Wellformed Operator Safety Trace GateFacts ReplayFacts OpenFacts.

Section props.
  Context {Cdc : Codec} {Env : Environment} {CL : CodecLaws} {EL : EnvironmentLaws}.

(** ** Evidence *)

Lemma RO_verified_records :
  RO verified_records (λ w rs, log_room (w_disk w) → intact (w_disk w) rs).
Proof.
  ro_seq RO_lock_audit. intros ?. ro_seq RO_verify_chain. intros [|]; [|by ro_end RO_raise].
  ro_end RO_records. intros w rs Hr _ _ Hroom. apply Hr. by right.
Qed.

(** What [host_has_pre_wire_evidence] establishes: the attempt never got past
    preparation, or the log shows no admission of it to the wire. *)
Definition never_on_wire (d : Disk) (attempt : AttemptId) (a : StoredAttempt) : Prop :=
  at_state a = STATE_PREPARING ∨
  (at_state a = STATE_FAILED ∧ ∃ detail, at_settlement a = Some detail ∧
     str_contains "AbandonedBeforeWireAdmission" detail = true) ∨
  ((at_state a = STATE_SENDING ∨ at_state a = STATE_UNCERTAIN) ∧
   ∃ rs, intact d rs ∧ ∀ r, r ∈ rs → ¬ admission_of (public_handle attempt) r).

Lemma RO_wire_admission attempt :
  RO (wire_admission_recorded attempt)
     (λ w b, log_room (w_disk w) → ∃ rs, intact (w_disk w) rs ∧
        (b = true ↔ ∃ r, r ∈ rs ∧ admission_of (public_handle attempt) r)).
Proof.
  ro_seq RO_verified_records. intros rs. ro_end RO_ret. intros w b -> Hrs Hroom.
  exists rs. split; [by apply Hrs|]. rw existsb_exists. setoid_rewrite bool_decide_eq_true.
  by setoid_rewrite <-list_elem_of_In.
Qed.

Lemma RO_pre_wire attempt a :
  RO (host_has_pre_wire_evidence attempt a)
     (λ w b, log_room (w_disk w) → b = true → never_on_wire (w_disk w) attempt a).
Proof.
  unfold host_has_pre_wire_evidence. case_decide; [ro_end RO_ret; intros; by left|].
  case_decide as Hf.
  { ro_end RO_ret. intros w b _ _ _. right; left. destruct Hf as [? Hd].
    destruct (at_settlement a) as [detail|]; [eauto|done]. }
  case_decide as Hs; [|by ro_end RO_ret; intros w b ->].
  ro_seq RO_wire_admission. intros recorded. ro_end RO_ret.
  intros w b -> Hrec Hroom Hb. right; right. split; [done|].
  destruct (Hrec Hroom) as (rs & Hrs & Hr). exists rs. split; [done|].
  intros r Hin Hadm. destruct recorded; [done|]. assert (false = true); [|done]. apply Hr. eauto.
Qed.

Lemma RO_truth attempt : RO (audited_reconciliation_truth attempt) (λ _ _, True).
Proof. ro_seq RO_verified_records. intros rs. by ro_end RO_lift_res. Qed.

Lemma RO_check_grantable attempt a d : RO (check_grantable attempt a d) (λ _ _, True).
Proof.
  unfold check_grantable. destruct d; [by ro_end RO_ret|..];
    (case_decide; [by ro_end RO_raise|]).
  - ro_seq RO_pre_wire. intros [|]; [by ro_end RO_ret|by ro_end RO_raise].
  - case_decide; [by ro_end RO_raise|by ro_end RO_ret].
  - case_decide; [by ro_end RO_raise|by ro_end RO_ret].
Qed.

(** What the checks before a commit establish about the current record. *)
Definition justified (d : Disk) (grant : ReconciliationGrant) (evidence : ReconciliationEvidence)
    (a : StoredAttempt) (already : bool) : Prop :=
  match rg_disposition grant with
  | Review => True
  | MarkNotSent => never_on_wire d (rg_attempt grant) a
  | MarkSettled => has_identity_proof evidence = true ∧
                   (at_state a = STATE_UNCERTAIN ∨ already = true)
  | Discard => at_state a = STATE_UNCERTAIN ∨ already = true
  end ∧ (at_state a ≠ STATE_SENDING ∨ rg_disposition grant = Review ∨ already = true).

Lemma RO_check_disposition grant evidence a already :
  RO (check_disposition grant evidence a already)
     (λ w _, log_room (w_disk w) → justified (w_disk w) grant evidence a already).
Proof.
  unfold check_disposition.
  eapply (RO_seq _ _ (λ w _, log_room (w_disk w) →
    match rg_disposition grant with
    | Review => True
    | MarkNotSent => never_on_wire (w_disk w) (rg_attempt grant) a
    | MarkSettled => has_identity_proof evidence = true ∧
                     (at_state a = STATE_UNCERTAIN ∨ already = true)
    | Discard => at_state a = STATE_UNCERTAIN ∨ already = true
    end)); [|solve_tick_free..|].
  - destruct (rg_disposition grant).
    + by ro_end RO_ret.
    + ro_seq RO_pre_wire. intros [|]; [|by ro_end RO_raise]. ro_end RO_ret. naive_solver.
    + destruct (has_identity_proof evidence); [|by ro_end RO_raise].
      case_decide; [by ro_end RO_raise|]. ro_end RO_ret. intros w u _ _. split; [done|].
      destruct already; [by right|]. left. apply dec_stable. tauto.
    + case_decide; [by ro_end RO_raise|]. ro_end RO_ret. intros w u _ _.
      destruct already; [by right|]. left. apply dec_stable. tauto.
  - intros u. case_decide as Hs; [by ro_end RO_raise|]. ro_end RO_ret.
    intros w v _ Hd Hr. split; [by apply Hd|].
    destruct (decide (at_state a = STATE_SENDING)); [|by left]. right.
    destruct (decide (rg_disposition grant = Review)); [by left|]. right.
    destruct already; [done|]. destruct Hs. done.
Qed.

Lemma RO_check_conflict grant : RO (check_conflict grant) (λ _ _, True).
Proof.
  unfold check_conflict. destruct (disposition_truth (rg_disposition grant)) as [t|];
    [|by ro_end RO_ret].
  unfold audited_reconciliation_truth. ro_seq (RO_truth (rg_attempt grant)). intros [e|];
    [case_decide; [by ro_end RO_raise|]|]; by ro_end RO_ret.
Qed.

(** ** Completed reconciliations *)

(** The two ways [apply_reconciliation] returns: the record already says so and
    only the lease is spent, or the decision is audited and applied. *)
Inductive applied (auth : AuthContext) (grant : ReconciliationGrant)
    (evidence : ReconciliationEvidence) (w w' : World) : Prop :=
  | applied_already st a now st1 :
      holds (w_disk w) st → granted_attempt auth grant st = inr a →
      already_matches_disposition a (rg_disposition grant) = true →
      consume_grant_records grant now st = inr st1 →
      holds (w_disk w') st1 → applied auth grant evidence w w'
  | applied_commit st a now st1 rs r :
      holds (w_disk w) st → granted_attempt auth grant st = inr a →
      attempt_revision (rg_attempt grant) a = rg_revision grant →
      justified (w_disk w) grant evidence a
        (already_matches_disposition a (rg_disposition grant)) →
      already_matches_disposition a (rg_disposition grant) = false ∨ rg_disposition grant = Review →
      consume_grant_records grant now st = inr st1 →
      holds (w_disk w') (set_attempts st1 (<[to_hex (rg_attempt grant) :=
        set_attempt_state a (next_state (rg_disposition grant) a)
          (next_settlement (rg_disposition grant) a)]> (au_attempts st))) →
      intact (w_disk w) rs → intact (w_disk w') (rs ++ [r]) →
      ar_event r = reconciliation_event auth grant → applied auth grant evidence w w'.

Lemma consume_grant_frame grant now st st1 :
  consume_grant_records grant now st = inr st1 →
  au_attempts st1 = au_attempts st ∧ au_credentials st1 = au_credentials st ∧
  ∃ stored, au_leases st !! to_hex (el_id (rg_lease grant)) = Some stored ∧
    ls_consumed stored = false ∧ ls_effect stored = effect_as_str OperatorReconcile ∧
    au_leases st1 = <[to_hex (el_id (rg_lease grant)) := consume_lease stored]> (au_leases st).
Proof.
  intros H. unfold consume_grant_records in H. apply res_bind_inr in H as (stored & Hl%ok_or_inr & H).
  destruct (ls_consumed stored) eqn:Hc; [done|]. repeat (case_decide; [done|]).
  injection H as <-. simpl. destruct (au_capabilities st !! ls_capability_id stored); simpl;
    split_and!; try done; exists stored; split_and!; try done; apply dec_stable; tauto.
Qed.

Lemma consume_lease_done auth grant now w u w' :
  Inv wf w → consume_reconciliation_lease auth grant now w = (Done u, w') →
  ∃ st st1, holds (w_disk w) st ∧ consume_grant_records grant now st = inr st1 ∧
            holds (w_disk w') st1.
Proof.
  intros Hi E. apply with_state_done, (committed_holds _ _ _ _ Hi
    (tx_wf_consume_reconciliation auth grant now)) in E as (st & m & s & Hst & _ & Htx & Hst' & _).
  tx_inv Htx. simpl in *. eauto.
Qed.

Lemma granted_lookup auth grant st a :
  granted_attempt auth grant st = inr a → au_attempts st !! to_hex (rg_attempt grant) = Some a.
Proof.
  unfold granted_attempt. intros (? & _ & (r & Hl%ok_or_inr & Ha)%res_bind_inr)%res_bind_inr.
  case_decide; [done|]. by apply res_bind_inr in Ha as (? & _ & [= <-]).
Qed.

Lemma granted_label auth grant st a :
  wf st → granted_attempt auth grant st = inr a → state_label (at_state a).
Proof. intros Hwf Ha%granted_lookup. by apply (wf_attempts _ Hwf) in Ha as []. Qed.

Lemma commit_reconciliation_done auth grant now w p w' st a :
  Inv wf w → log_room (w_disk w') → holds (w_disk w) st → granted_attempt auth grant st = inr a →
  commit_reconciliation auth grant now w = (Done p, w') →
  ∃ st1 rs r, consume_grant_records grant now st = inr st1 ∧
    holds (w_disk w') (set_attempts st1 (<[to_hex (rg_attempt grant) :=
      set_attempt_state a (next_state (rg_disposition grant) a)
        (next_settlement (rg_disposition grant) a)]> (au_attempts st))) ∧
    intact (w_disk w) rs ∧ intact (w_disk w') (rs ++ [r]) ∧
    ar_event r = reconciliation_event auth grant.
Proof.
  intros Hi Hr Hst Ha E. unfold commit_reconciliation in E.
  apply bind_done in E as ([cur epoch] & w1 & E1 & E).
  apply (RO_done _ _ _ _ _ (RO_read _)) in E1 as ([n1 ->] & st0 & Hst0 & Hre).
  pose proof (holds_det _ _ _ Hst0 Hst) as ->.
  apply bind_done in E as (? & w2 & E2 & E). apply bind_done in E as (? & w3 & E3 & E4).
  apply (RO_done _ _ _ _ _ (RO_read _)) in E4 as ([n4 ->] & _).
  assert (cur = a) as ->.
  { unfold reread_attempt in Hre. unfold granted_attempt in Ha.
    apply res_bind_inr in Hre as (? & _ & (r & Hl%ok_or_inr & (? & _ & Hre)%res_bind_inr)%res_bind_inr).
    apply res_bind_inr in Ha as (? & _ & (r' & Hl'%ok_or_inr & Ha)%res_bind_inr).
    repeat case_decide; try done. apply res_bind_inr in Ha as (? & _ & [= <-]). congruence. }
  pose proof (grows_room _ _ (grows_with_state _ _ _ _ E3) Hr) as Hr2.
  pose proof (grows_room _ _ (grows_append_audit _ _ _ _ _ E2) Hr2) as Hr1.
  destruct (append_audit_done _ _ _ _ _ (Inv_tick _ n1 Hi) Hr1 E2)
    as (Hi2 & Hs2 & rs & r & Hrs & Hrs2 & He & _).
  destruct (with_state_log _ _ _ _ E3) as [Hl3 Hh3].
  assert (state_label (next_state (rg_disposition grant) a)) as Hlab.
  { destruct (rg_disposition grant); simpl; auto. eapply granted_label; [|exact Ha]. by apply Hi. }
  apply with_state_done, (committed_holds _ _ _ _ Hi2 (tx_wf_apply _ _ _ _ _ Hlab)) in E3
    as (st2 & m & s & Hst2 & _ & Htx & Hst3 & _).
  rw (holds_same_state _ _ _ Hs2) in Hst2. pose proof (holds_det _ _ _ Hst2 Hst) as ->.
  unfold apply_tx in Htx. tx_inv Htx. simpl in *.
  select (consume_grant_records _ _ _ = _) (fun Hg => pose proof Hg as Hc;
    destruct (consume_grant_frame _ _ _ _ Hg) as (Hat & _)).
  select (au_attempts _ !! _ = Some _) (fun Hx => rw Hat in Hx;
    rw (granted_lookup _ _ _ _ Ha) in Hx; injection Hx as <-).
  rw Hat in Hst3. eexists _, rs, r. split; [done|]. split; [exact Hst3|].
  rw (intact_frame _ _ _ Hl3 Hh3). done.
Qed.

(** The idempotent branch: only the lease is spent. *)
Lemma apply_already_done auth grant evidence w n now st a (p : AttemptProjection) w' :
  Inv wf w → holds (w_disk w) st → granted_attempt auth grant st = inr a →
  already_matches_disposition a (rg_disposition grant) = true →
  (_ ← lift_res (validate_reconciliation_binding auth a);
   _ ← consume_reconciliation_lease auth grant now;
   lift_res (project_from_current (rg_attempt grant) a)) (set_tick w n) = (Done p, w') →
  applied auth grant evidence w w'.
Proof.
  intros Hi Hst Ha Hal E. apply bind_done in E as (? & w1 & E1 & E).
  apply (RO_done _ _ _ _ _ (RO_lift_res _)) in E1 as [[n1 ->] _].
  apply bind_done in E as (? & w2 & E2 & E3).
  apply (RO_done _ _ _ _ _ (RO_lift_res _)) in E3 as [[n3 ->] _].
  apply consume_lease_done in E2 as (st0 & st1 & Hst0 & Hc & Hst1); [|done].
  pose proof (holds_det _ _ _ Hst0 Hst) as ->. by eapply (applied_already _ _ _ _ _ st a now st1).
Qed.

(** Every return of [apply_reconciliation] is one of the two. *)
Lemma apply_done auth grant evidence w p w' :
  Inv wf w → log_room (w_disk w') →
  apply_reconciliation auth grant evidence w = (Done p, w') → applied auth grant evidence w w'.
Proof.
  intros Hi Hr E. unfold apply_reconciliation in E.
  apply bind_done in E as (? & w1 & E1 & E).
  apply (RO_done _ _ _ _ _ RO_lock_attempt_lifecycle) in E1 as [[n1 ->] _].
  apply bind_done in E as (now & w2 & E2 & E).
  apply (RO_done _ _ _ _ _ RO_clock) in E2 as [[n2 ->] _].
  repeat (case_decide; [done|]). destruct (is_operator _); [|done]. simpl in E.
  apply bind_done in E as (a & w3 & E3 & E).
  apply (RO_done _ _ _ _ _ (RO_read _)) in E3 as ([n3 ->] & st & Hst & Ha).
  case_decide as Hrev.
  - destruct (already_matches_disposition a (rg_disposition grant)) eqn:Hal; [|done].
    by apply (apply_already_done auth grant evidence w _ _ _ _ _ _ Hi Hst Ha Hal) in E.
  - case_decide; [done|]. apply bind_done in E as (? & w4 & E4 & E).
    apply (RO_done _ _ _ _ _ (RO_check_disposition _ _ _ _)) in E4 as ([n4 ->] & Hj).
    case_decide; [done|]. case_decide as Hal.
    + destruct Hal as [Hal _].
      by apply (apply_already_done auth grant evidence w _ _ _ _ _ _ Hi Hst Ha Hal) in E.
    + apply bind_done in E as (? & w5 & E5 & E).
      apply (RO_done _ _ _ _ _ (RO_check_conflict _)) in E5 as ([n5 ->] & _).
      assert (log_room (w_disk w)) as Hr0.
      { match type of E with _ ?wx = _ => pose proof (safe_commit_reconciliation auth grant now wx) as [Hg _] end.
        rw E in Hg. by eapply grows_room. }
      apply (commit_reconciliation_done _ _ _ _ _ _ st a) in E
        as (st1 & rs & r & Hc & Hst' & Hrs & Hrs' & He); [|done..].
      eapply (applied_commit _ _ _ _ _ st a now st1 rs r); try done; [by apply Hj|].
      destruct (already_matches_disposition a (rg_disposition grant)); [|by left].
      right. destruct (decide (rg_disposition grant = Review)); [done|]. by destruct Hal.
Qed.

Lemma granted_principal auth grant st a :
  granted_attempt auth grant st = inr a →
  require_current_state st auth = inr () ∧ at_principal a = to_hex (ac_principal auth).
Proof.
  unfold granted_attempt. intros ([] & Hc & (r & Hl%ok_or_inr & Ha)%res_bind_inr)%res_bind_inr.
  case_decide; [done|]. apply res_bind_inr in Ha as (? & _ & [= <-]). done.
Qed.

(** The state a disposition leaves, and what entitles an operator to it. *)
Definition says (d : ReconciliationDisposition) (a a' : StoredAttempt) : Prop :=
  match d with
  | Review => a' = a
  | MarkNotSent => at_state a' = STATE_FAILED
  | MarkSettled => at_state a' = STATE_SETTLED
  | Discard => at_state a' = STATE_DISCARDED
  end.

Definition entitled_to (d : ReconciliationDisposition) (attempt : AttemptId)
    (evidence : ReconciliationEvidence) (a : StoredAttempt) (rs : list AuditRecord) : Prop :=
  match d with
  | Review => False
  | MarkNotSent => at_state a = STATE_PREPARING ∨
      at_state a = STATE_UNCERTAIN ∧ ∀ r, r ∈ rs → ¬ admission_of (public_handle attempt) r
  | MarkSettled => at_state a = STATE_UNCERTAIN ∧
      (is_Some (re_provider_receipt evidence) ∨ is_Some (re_operator_observation evidence))
  | Discard => at_state a = STATE_UNCERTAIN
  end.

Lemma justified_entitled d grant evidence a rs :
  intact d rs → rg_disposition grant ≠ Review →
  already_matches_disposition a (rg_disposition grant) = false →
  justified d grant evidence a (already_matches_disposition a (rg_disposition grant)) →
  entitled_to (rg_disposition grant) (rg_attempt grant) evidence a rs.
Proof.
  intros Hrs Hd Hal [Hj Hs]. rw Hal in Hj, Hs. destruct (rg_disposition grant); simpl in *; [done|..].
  - apply bool_decide_eq_false in Hal.
    destruct Hj as [?|[[? _]|[[?|?] (rs' & Hrs' & Hn)]]]; [by left|done|naive_solver|].
    right. split; [done|]. by rw (intact_det _ _ _ Hrs Hrs').
  - destruct Hj as [Hp [?|?]]; [|done]. split; [done|]. unfold has_identity_proof in Hp.
    by apply orb_prop in Hp as [?%bool_decide_eq_true|?%bool_decide_eq_true]; [left|right].
  - by destruct Hj.
Qed.

(** C29: reconciliation changes one attempt, and only for cause.  When
    [apply_reconciliation] returns, the presenting context is current and owns
    the attempt, the attempt's record reads as the disposition says and no other
    attempt changed.  A review changes no record.  If the record changed, the
    grant was for exactly its revision, the decision is the last record of the
    log, and the operator was entitled to it: the record was uncertain, and a
    provider receipt or an operator observation was presented to mark it settled;
    to mark it not sent, the record was still preparing, or it was uncertain and
    the log holds no admission of it to the wire. *)
Theorem reconciliation_justified auth grant evidence w p w' :
  Inv wf w → log_room (w_disk w') →
  apply_reconciliation auth grant evidence w = (Done p, w') →
  ∃ st a st' a', holds (w_disk w) st ∧ holds (w_disk w') st' ∧
    require_current_state st auth = inr () ∧ at_principal a = to_hex (ac_principal auth) ∧
    au_attempts st !! to_hex (rg_attempt grant) = Some a ∧
    au_attempts st' = <[to_hex (rg_attempt grant) := a']> (au_attempts st) ∧
    says (rg_disposition grant) a a' ∧
    (a' = a ∨
     attempt_revision (rg_attempt grant) a = rg_revision grant ∧
     a' = set_attempt_state a (at_state a')
            (Some ("reconciled:" +:+ disposition_as_str (rg_disposition grant))) ∧
     ∃ rs r, intact (w_disk w) rs ∧ intact (w_disk w') (rs ++ [r]) ∧
       ar_event r = reconciliation_event auth grant ∧
       entitled_to (rg_disposition grant) (rg_attempt grant) evidence a rs).
Proof.
  intros Hi Hr E. destruct (apply_done _ _ _ _ _ _ Hi Hr E)
    as [st a now st1 Hst Ha Hal Hc Hst'|st a now st1 rs r Hst Ha Hrev Hj Hal Hc Hst' Hrs Hrs' He];
    destruct (granted_principal _ _ _ _ Ha) as [Hcur Hp]; pose proof (granted_lookup _ _ _ _ Ha) as Hl.
  - destruct (consume_grant_frame _ _ _ _ Hc) as (Hat & _).
    exists st, a, st1, a. split_and!; try done; [by rw Hat insert_id| |by left].
    destruct (rg_disposition grant); [done|by apply bool_decide_eq_true in Hal..].
  - eexists st, a, _, _. split_and!; [done..| |].
    { destruct (rg_disposition grant); [|done..]. by destruct a. }
    destruct (decide (rg_disposition grant = Review)) as [Hd|Hd].
    { left. rw Hd. by destruct a. }
    destruct Hal as [Hal|]; [|done]. right. split; [done|]. split.
    { by destruct (rg_disposition grant). }
    exists rs, r. split_and!; try done. by eapply justified_entitled.
Qed.

(** A grant is spent once.  After [apply_reconciliation] returns for a
    grant, applying the same grant again does not return. *)
Theorem grant_one_use auth grant evidence w p w1 auth2 evidence2 p2 w2 :
  Inv wf w → log_room (w_disk w2) →
  apply_reconciliation auth grant evidence w = (Done p, w1) →
  apply_reconciliation auth2 grant evidence2 w1 ≠ (Done p2, w2).
Proof.
  intros Hi Hr E E2.
  assert (log_room (w_disk w1) ∧ Inv wf w1) as [Hr1 Hi1].
  { pose proof (safe_apply_reconciliation auth2 grant evidence2 w1) as [Hg _]. rw E2 in Hg.
    pose proof (grows_room _ _ Hg Hr) as Hr1. split; [done|].
    pose proof (safe_apply_reconciliation auth grant evidence w) as [_ Hs]. rw E in Hs. by apply Hs. }
  assert (∃ st stored, holds (w_disk w1) st ∧
    au_leases st !! to_hex (el_id (rg_lease grant)) = Some stored ∧ ls_consumed stored = true)
    as (st & stored & Hst & Hl & Hcons).
  { destruct (apply_done _ _ _ _ _ _ Hi Hr1 E) as [st a now st1 _ _ _ Hc Hst'|
      st a now st1 rs r _ _ _ _ _ Hc Hst' _ _ _];
      destruct (consume_grant_frame _ _ _ _ Hc) as (_ & _ & stored & _ & _ & _ & Hls);
      eexists _, (consume_lease stored); (split; [exact Hst'|]); simpl; rw Hls lookup_insert_eq //. }
  destruct (apply_done _ _ _ _ _ _ Hi1 Hr E2) as [st0 a now st1 Hst0 _ _ Hc _|
      st0 a now st1 rs r Hst0 _ _ _ _ Hc _ _ _ _];
    destruct (consume_grant_frame _ _ _ _ Hc) as (_ & _ & stored' & Hl' & Hc' & _);
    rw (holds_det _ _ _ Hst0 Hst) Hl in Hl'; simplify_eq; congruence.
Qed.

(** A stale grant mutates nothing.  If the record moved on since the grant
    was minted and does not already say what the grant would say, then
    [apply_reconciliation] does not return and leaves the disk as it was. *)
Theorem stale_grant_refused auth grant evidence w o w' st a :
  holds (w_disk w) st → au_attempts st !! to_hex (rg_attempt grant) = Some a →
  attempt_revision (rg_attempt grant) a ≠ rg_revision grant →
  already_matches_disposition a (rg_disposition grant) = false →
  apply_reconciliation auth grant evidence w = (o, w') →
  w_disk w' = w_disk w ∧ ∀ p, o ≠ Done p.
Proof.
  intros Hst Ha Hrev Hal E. apply (wp_run _ (λ o w', w_disk w' = w_disk w ∧ ∀ p, o ≠ Done p) _ _ _ E).
  unfold apply_reconciliation.
  ro_step RO_lock_attempt_lifecycle; [|done..]. intros n1 u1 _.
  ro_step RO_clock; [|done..]. intros n2 now _. cbn [post_bind].
  case_decide; [done|]. case_decide; [done|]. destruct (is_operator _); [|done]. cbn [negb].
  ro_step RO_read; [|done..]. intros n3 a' (st' & Hst' & Ha'). cbn [post_bind].
  pose proof (holds_det _ _ _ Hst' Hst) as ->. apply granted_lookup in Ha'.
  rw Ha in Ha'. injection Ha' as <-. rw Hal. by rw decide_True.
Qed.

(** ** Grants do not send *)

Lemma seal_capability_effect auth resource actor effect ttl w c w' :
  seal_capability auth resource actor effect ttl w = (Done c, w') → sl_effect c = effect.
Proof.
  intros E. unfold seal_capability in E. case_decide; [done|].
  apply bind_done in E as (now & w1 & _ & E). apply bind_done in E as (ex & w2 & _ & E).
  apply bind_done in E as (cap & w3 & E3 & E). apply bind_done in E as (? & w4 & _ & [= <- _]).
  apply with_state_done in E3 as (st & m & n & s & t & _ & Htx & _).
  unfold seal_capability_tx in Htx. by tx_inv Htx.
Qed.

(** A reconciliation grant authorises no send.  Whatever handle is presented
    under the identifier of a grant's lease, [begin_send] does not return. *)
Theorem grant_cannot_send auth session workspace handle d ttl w g w1 auth2 lease request route p w2 :
  Inv wf w → digest_ok (request_body_digest request) → log_room (w_disk w2) →
  mint_reconciliation_grant auth session workspace handle d ttl w = (Done g, w1) →
  el_id lease = el_id (rg_lease g) → begin_send auth2 lease request route w1 ≠ (Done p, w2).
Proof.
  intros Hi Hb Hr E Hid E2.
  pose proof (room_before _ _ _ _ (safe_begin_send _ _ _ _ Hb) E2 Hr) as Hr1.
  destruct (safe_run _ _ _ _ (safe_mint_reconciliation_grant _ _ _ _ _ _) E Hr1 Hi) as [Hi1 _].
  unfold mint_reconciliation_grant in E. apply bind_done in E as ([attempt a] & wa & Ea & E).
  apply (RO_done _ _ _ _ _ (RO_read _)) in Ea as ([na ->] & _).
  apply bind_done in E as (? & wb & Eb & E). apply (RO_done _ _ _ _ _ (RO_check_grantable _ _ _)) in Eb as [[nb ->] _].
  apply bind_done in E as (res & wc & Ec & E). apply (RO_done _ _ _ _ _ (RO_lift_res _)) in Ec as [[nc ->] _].
  apply bind_done in E as (cap & wd & Ed & E).
  apply bind_done in E as (rt & we & Ee & E). apply (RO_done _ _ _ _ _ (RO_lift_res _)) in Ee as [[ne ->] _].
  apply bind_done in E as (l & wf_ & Ef & [= <- <-]). simpl in Hid.
  pose proof (seal_capability_effect _ _ _ _ _ _ _ _ Ed) as Heff.
  pose proof (room_before _ _ _ _ (safe_mint_lease _ _ _ _) Ef Hr1) as Hrd.
  destruct (safe_run _ _ _ _ (safe_seal_capability _ _ _ _ _) Ed Hrd Hi) as [Hid' _].
  destruct (mint_lease_done _ _ _ _ _ _ _ (Inv_tick _ ne Hid') Hr1 Ef)
    as (st & m & now & s & _ & _ & Htx & Hst' & _).
  destruct (begin_send_done _ _ _ _ _ _ _ Hi1 Hb Hr E2) as
    (_ & st1 & m2 & attempt2 & ordinal2 & s2 & rs2 & r2 & Hst1 & _ & Htx2 & _).
  pose proof (holds_det _ _ _ Hst1 Hst') as ->.
  apply begin_send_tx_inv in Htx2 as (stored2 & res2 & cap2 & next2 & _ & _ & Hl2 & Hchk & _).
  apply check_lease_inr in Hchk as (_ & _ & _ & _ & _ & _ & _ & _ & _ & Hsend & _).
  unfold mint_lease_tx in Htx. tx_inv Htx. simpl in *.
  rw Hid lookup_insert_eq in Hl2. injection Hl2 as <-. simpl in Hsend.
  select (check_capability _ _ _ _ _ = _) (fun Hc => apply check_capability_inr in Hc as
    (_ & _ & _ & _ & _ & He & _)). rw Hsend Heff in He. done.
Qed.

End props.
