(* ===== verification/SystemProps.v ===== *)
(** * Properties of whole runs *)

From S2P Require Import Prelude Text Ids State World AuditWal AuditFacts Store StoreFacts Gates Reconcile Wellformed Operator Safety Trace.

Section props.
  Context {Cdc : Codec} {Env : Environment} {CL : CodecLaws} {EL : EnvironmentLaws}.

(** C27: every reachable authority is well formed.  From a root that has never
    served, whatever public methods are called with whatever arguments, whatever
    file-system calls fail, and wherever processes die and reopen the root, the
    snapshot on disk, if there is one, satisfies the invariant of the store. *)
Theorem reachable_wf s0 s st :
  fresh_root s0 → rtc step s0 s → log_room (sys_disk s) → holds (sys_disk s) st → wf st.
Proof.
  intros Hf Hs Hr Hst. destruct (steps_sound _ _ Hs) as [_ Hp].
  destruct (Hp Hr (fresh_root_inv _ Hf)) as [Hi _].
  destruct s as [w|w]; [by apply Hi|by apply (Inv_disk_inv _ Hi)].
Qed.

(** The log is append-only along every run.  Between any two points of a
    run, the records of an intact log only grow at the end: no call, failure,
    crash or restart rewrites or drops one. *)
Theorem runs_append_only s0 s1 s2 rs2 :
  fresh_root s0 → rtc step s0 s1 → rtc step s1 s2 → log_room (sys_disk s2) →
  intact (sys_disk s2) rs2 → ∃ rs1, intact (sys_disk s1) rs1 ∧ rs1 `prefix_of` rs2.
Proof.
  intros Hf H1 H2 Hr Hrs2. destruct (steps_sound _ _ H2) as [Hg2 Hp2].
  destruct (steps_sound _ _ H1) as [_ Hp1].
  destruct (Hp1 (grows_room _ _ Hg2 Hr) (fresh_root_inv _ Hf)) as [Hi1 _].
  destruct (Hp2 Hr Hi1) as [_ Ha]. by apply Ha.
Qed.

End props.
