(* ===== verification/Scenario.v ===== *)
(** * A concrete run

    One operator opens a fresh root, installs a credential, authenticates and
    drives a send through the gates, with no injected fault.  The worlds and
    receipts along the way are the inputs of the witnesses. *)

From S2P Require Import Prelude Text Ids State World Concrete AuditWal AuditFacts Store StoreFacts Gates Reconcile Wellformed Operator Safety Trace GateFacts.

#[export] Existing Instances concrete_codec toy_sha concrete_codec_laws.
#[export] Instance run_env : Environment := env_with no_faults.
#[export] Instance run_env_laws : EnvironmentLaws := env_with_laws no_faults.

(** The value of a call that returns, [d] otherwise. *)
Definition the {A} (d : A) (o : outcome A) : A :=
  match o with Done a => a | Raised _ => d | Crashed => d end.

Definition d0 : ContentDigest := MkContentDigest "".
Definition i0 {k} : opaque_id k := OpaqueId "".
Definition auth0 : AuthContext :=
  {| ac_principal := i0; ac_incarnation := i0; ac_auth_generation := 0;
     ac_capability_generation := 0; ac_policy_revision := 0; ac_control_epoch := 0;
     ac_credential_id := ""; ac_owner_id := "" |}.
Definition binding0 : AuthorityBinding :=
  {| ab_principal := i0; ab_incarnation := i0; ab_auth_generation := 0;
     ab_capability_generation := 0; ab_policy_revision := 0; ab_session := i0;
     ab_workspace := i0; ab_resource := i0; ab_control_epoch := 0 |}.
Definition capability0 : SealedCapability :=
  {| sl_id := i0; sl_binding := binding0; sl_actor := VerifiedModel; sl_effect := ProviderSend;
     sl_expires_at_ms := 0 |}.
Definition lease0 : EffectLease :=
  {| el_id := i0; el_capability := i0; el_binding := binding0; el_observation_revision := 0;
     el_observation_digest := d0; el_action_digest := d0; el_actor := VerifiedModel;
     el_effect := ProviderSend; el_expires_at_ms := 0 |}.
Definition permit0 : PhysicalSendPermit :=
  {| pm_attempt := i0; pm_lease := i0; pm_binding := binding0; pm_request_digest := d0;
     pm_body_digest := d0; pm_idempotency_key := ""; pm_dialect := "";
     pm_wire_admitted := false |}.

Definition admin_cred : HostAdminCredential :=
  {| hac_secret := "0123456789abcdef0123456789abcdef" |}.
Definition operator_cred : HostCredential := {| hc_id := "op"; hc_secret := "s3cret" |}.
Definition request1 : RequestIdentity :=
  request_new "https://api/v1" "post" "openai-chat" "sk" "grok" "hello".

Definition w0 : World := empty_world.
Definition handles : HostAuthority * HostAdminAuthority :=
  Eval vm_compute in the ({| ha_root_binding := d0 |}, {| ad_root_binding := d0 |}) (open "/root" admin_cred w0).1.
Definition host : HostAuthority := handles.1.
Definition admin : HostAdminAuthority := handles.2.
Definition w1 : World := (open "/root" admin_cred w0).2.
Definition w2 : World := (set_credentials host admin [operator_cred] w1).2.
Definition auth1 : AuthContext :=
  Eval vm_compute in the auth0 (authenticate "Bearer s3cret" w2).1.
Definition w3 : World := (authenticate "Bearer s3cret" w2).2.
Definition workspace1 : WorkspaceId :=
  Eval vm_compute in the i0 (issue_workspace auth1 "/work" w3).1.
Definition w4 : World := (issue_workspace auth1 "/work" w3).2.
Definition resource1 : ResourceIncarnation :=
  Eval vm_compute in the i0 (obtain_provider_send_surface auth1 workspace1 "chat" w4).1.
Definition w5 : World :=
  (obtain_provider_send_surface auth1 workspace1 "chat" w4).2.
Definition capability1 : SealedCapability :=
  Eval vm_compute in the capability0 (seal_capability auth1 resource1 VerifiedOperator ProviderSend 60000 w5).1.
Definition w6 : World :=
  (seal_capability auth1 resource1 VerifiedOperator ProviderSend 60000 w5).2.
Definition lease1 : EffectLease :=
  Eval vm_compute in the lease0 (mint_lease auth1 capability1 (request_digest request1) 30000 w6).1.
Definition w7 : World :=
  (mint_lease auth1 capability1 (request_digest request1) 30000 w6).2.
Definition permit1 : PhysicalSendPermit :=
  Eval vm_compute in the permit0 (begin_send auth1 lease1 request1 "chat" w7).1.
Definition w8 : World := (begin_send auth1 lease1 request1 "chat" w7).2.
Definition permit2 : PhysicalSendPermit :=
  Eval vm_compute in the permit0 (admit_sending auth1 permit1 w8).1.
Definition w9 : World := (admit_sending auth1 permit1 w8).2.

(** ** The invariant along the run *)

Lemma safe_step {A} (m : M A) w :
  safe wf m → Inv wf w → log_room (w_disk (m w).2) → Inv wf (m w).2.
Proof. intros Hm Hi Hr. by apply Hm. Qed.

Lemma inv_w1 : Inv wf w1.
Proof.
  destruct (wp_open "/root" admin_cred w0) as [_ Hp].
  destruct Hp as (_ & _ & Hd); [vm_compute; reflexivity| |].
  - apply (fresh_root_inv (Stopped w0)). by repeat split.
  - apply (Hd handles). vm_compute. reflexivity.
Qed.

Lemma inv_w2 : Inv wf w2.
Proof. apply safe_step; [apply safe_set_credentials|apply inv_w1|vm_compute; reflexivity]. Qed.
Lemma inv_w3 : Inv wf w3.
Proof. apply safe_step; [apply safe_authenticate|apply inv_w2|vm_compute; reflexivity]. Qed.
Lemma inv_w4 : Inv wf w4.
Proof. apply safe_step; [apply safe_issue_workspace|apply inv_w3|vm_compute; reflexivity]. Qed.
Lemma inv_w5 : Inv wf w5.
Proof.
  apply safe_step; [by apply safe_obtain_provider_send_surface|apply inv_w4|vm_compute; reflexivity].
Qed.
Lemma inv_w6 : Inv wf w6.
Proof. apply safe_step; [apply safe_seal_capability|apply inv_w5|vm_compute; reflexivity]. Qed.
Lemma inv_w7 : Inv wf w7.
Proof. apply safe_step; [apply safe_mint_lease|apply inv_w6|vm_compute; reflexivity]. Qed.
Lemma inv_w8 : Inv wf w8.
Proof. apply safe_step; [by apply safe_begin_send|apply inv_w7|vm_compute; reflexivity]. Qed.
Lemma inv_w9 : Inv wf w9.
Proof. apply safe_step; [apply safe_admit_sending|apply inv_w8|vm_compute; reflexivity]. Qed.

(** ** The calls of the run *)

(** A call that returned, as an equation on the run. *)
Ltac ran :=
  lazymatch goal with |- ?m ?w = (?o, ?w') =>
    let E := fresh in
    assert ((m w).1 = o) as E by (vm_compute; reflexivity); exact (run_done m w o E)
  end.

Lemma ran_open : open "/root" admin_cred w0 = (Done handles, w1).
Proof. ran. Qed.
Lemma ran_set_credentials : set_credentials host admin [operator_cred] w1 = (Done (), w2).
Proof. ran. Qed.
Lemma ran_authenticate : authenticate "Bearer s3cret" w2 = (Done auth1, w3).
Proof. ran. Qed.
Lemma ran_obtain :
  obtain_provider_send_surface auth1 workspace1 "chat" w4 = (Done resource1, w5).
Proof. ran. Qed.
Lemma ran_seal :
  seal_capability auth1 resource1 VerifiedOperator ProviderSend 60000 w5 = (Done capability1, w6).
Proof. ran. Qed.
Lemma ran_mint :
  mint_lease auth1 capability1 (request_digest request1) 30000 w6 = (Done lease1, w7).
Proof. ran. Qed.
Lemma ran_begin : begin_send auth1 lease1 request1 "chat" w7 = (Done permit1, w8).
Proof. ran. Qed.
Lemma ran_admit : admit_sending auth1 permit1 w8 = (Done permit2, w9).
Proof. ran. Qed.

(** The snapshot of a world of the run. *)
Definition snapshot (w : World) : option StoredAuthority :=
  match (read inr w).1 with Done st => Some st | Raised _ => None | Crashed => None end.

Lemma snapshot_holds w st : snapshot w = Some st → holds (w_disk w) st.
Proof.
  unfold snapshot. destruct (read inr w) as [[x| |] w'] eqn:E; simpl; [|done..].
  intros [= ->].
  destruct (RO_done _ _ _ _ _ (RO_read inr) E) as (_ & st' & Hst & [= ->]).
  done.
Qed.

Lemma snapshot_look {V} (f : StoredAuthority → option V) w v :
  snapshot w ≫= f = Some v → ∃ st, holds (w_disk w) st ∧ f st = Some v.
Proof.
  destruct (snapshot w) as [st|] eqn:E; simpl; [|done]. intros Hf. exists st.
  split; [by apply snapshot_holds|done].
Qed.

(** ** Side branches: a second send, a moved surface, a settled send *)

Definition request2 : RequestIdentity :=
  request_new "https://api/v1" "post" "openai-chat" "sk" "grok" "bonjour".
(** After the first permit: another capability, another lease and a second send. *)
Definition capability3 : SealedCapability :=
  Eval vm_compute in the capability0 (seal_capability auth1 resource1 VerifiedOperator ProviderSend 60000 w8).1.
Definition w8s : World := (seal_capability auth1 resource1 VerifiedOperator ProviderSend 60000 w8).2.
Definition lease3 : EffectLease :=
  Eval vm_compute in the lease0 (mint_lease auth1 capability3 (request_digest request2) 30000 w8s).1.
Definition w8m : World := (mint_lease auth1 capability3 (request_digest request2) 30000 w8s).2.
Definition permit_c : PhysicalSendPermit :=
  Eval vm_compute in the permit0 (begin_send auth1 lease3 request2 "chat" w8m).1.
Definition w8t : World := (begin_send auth1 lease3 request2 "chat" w8m).2.

Lemma ran_seal_c :
  seal_capability auth1 resource1 VerifiedOperator ProviderSend 60000 w8 = (Done capability3, w8s).
Proof. ran. Qed.
Lemma ran_mint_c :
  mint_lease auth1 capability3 (request_digest request2) 30000 w8s = (Done lease3, w8m).
Proof. ran. Qed.
Lemma ran_begin_c : begin_send auth1 lease3 request2 "chat" w8m = (Done permit_c, w8t).
Proof. ran. Qed.

(** Identifiers minted before the tick [N] are not minted again. *)
Lemma concrete_minted_anew N x y :
  (0 < x ≤ Z.of_nat N)%Z → (0 < y ≤ Z.of_nat N)%Z → (x < 2 ^ 127)%Z → (y < 2 ^ 127)%Z →
  minted_anew N (hex (le_bytes 16 x)) (hex (le_bytes 16 y)).
Proof.
  intros Hx Hy Hx' Hy' n Hn.
  assert (∀ z, (0 < z ≤ Z.of_nat N)%Z → (z < 2 ^ 127)%Z →
    to_hex (k := KLease) (OpaqueId (uuid_v4 n)) ≠ hex (le_bytes 16 z)) as H.
  { intros z Hz Hz' E%hex_inj. cbn [id_bytes uuid_v4] in E. apply (f_equal le_value) in E.
    change (256 ^ Z.of_nat 16)%Z with (2 ^ 128)%Z in *. 
    rw !le_value_bytes in E; lia. }
  specialize (H x Hx Hx') as H1. specialize (H y Hy Hy') as H2. set_solver.
Qed.

Definition w7m : World := (record_observation auth1 resource1 (of_bytes "moved") w7).2.
Definition w9s : World := (settle_settled permit2 w9).2.

Lemma ran_observe : record_observation auth1 resource1 (of_bytes "moved") w7 = (Done 2%Z, w7m).
Proof. ran. Qed.
Lemma ran_settle : settle_settled permit2 w9 = (Done (OutSettled (pm_attempt permit2)), w9s).
Proof. ran. Qed.
Definition failing : settle_detail := Some (inl DeniedBeforeDispatch).
Definition w9f : World := (settle permit2 STATE_FAILED "failed" failing w9).2.
Lemma ran_settle_failed :
  settle permit2 STATE_FAILED "failed" failing w9
  = (Done (OutFailed (pm_attempt permit2) DeniedBeforeDispatch), w9f).
Proof. ran. Qed.

(** ** Reconciliation, recovery and restart *)

Definition w9u : World := (settle_uncertain permit2 TransportAfterPossibleWrite w9).2.
Definition session1 : SessionId := ab_session (sl_binding capability1).
Definition handle1 : string := Eval vm_compute in public_handle (pm_attempt permit1).
Definition grant0 : ReconciliationGrant :=
  {| rg_lease := lease0; rg_attempt := i0; rg_revision := d0; rg_state := ""; rg_dialect := "";
     rg_route_digest := d0; rg_disposition := Review; rg_expires_at_ms := 0 |}.
Definition grant1 : ReconciliationGrant :=
  Eval vm_compute in the grant0 (mint_reconciliation_grant auth1 session1 workspace1 handle1 MarkSettled 0 w9u).1.
Definition w10 : World :=
  (mint_reconciliation_grant auth1 session1 workspace1 handle1 MarkSettled 0 w9u).2.
Definition receipt1 : ReconciliationEvidence := evidence_provider_receipt (of_bytes "receipt").
Definition projection0 : AttemptProjection :=
  {| ap_attempt := ""; ap_state := ""; ap_ordinal := 0; ap_request_digest := "";
     ap_body_digest := ""; ap_settled := false; ap_ambiguous := false; ap_session := "";
     ap_workspace := ""; ap_dialect := ""; ap_route := ""; ap_revision := "";
     ap_auth_generation := 0; ap_capability_generation := 0; ap_policy_revision := 0 |}.
Definition projection1 : AttemptProjection :=
  Eval vm_compute in the projection0 (apply_reconciliation auth1 grant1 receipt1 w10).1.
Definition w11 : World := (apply_reconciliation auth1 grant1 receipt1 w10).2.
Definition w9r : World := (recover_incomplete host admin w9).2.
Definition w9d : World := (drop_authority w9).2.
Definition w12 : World := (open "/root" admin_cred w9d).2.

Lemma inv_w9u : Inv wf w9u.
Proof. apply safe_step; [apply safe_settle_uncertain|apply inv_w9|vm_compute; reflexivity]. Qed.
Lemma inv_w10 : Inv wf w10.
Proof.
  apply safe_step; [apply safe_mint_reconciliation_grant|apply inv_w9u|vm_compute; reflexivity].
Qed.
Lemma ran_grant :
  mint_reconciliation_grant auth1 session1 workspace1 handle1 MarkSettled 0 w9u = (Done grant1, w10).
Proof. ran. Qed.
Lemma ran_apply : apply_reconciliation auth1 grant1 receipt1 w10 = (Done projection1, w11).
Proof. ran. Qed.
Lemma ran_recover : recover_incomplete host admin w9 = (Done [pm_attempt permit2], w9r).
Proof. ran. Qed.
Lemma ran_reopen : open "/root" admin_cred w9d = (Done handles, w12).
Proof. ran. Qed.
Definition w7p : World := (rotate_policy_revision host admin w7).2.
Lemma ran_rotate_policy : rotate_policy_revision host admin w7 = (Done 2%Z, w7p).
Proof. ran. Qed.

(** The log of a world of the run, as the verifier reads it. *)
Lemma verified_log_of w :
  (verify_chain w).1 = Done true → log_room (w_disk w) → ∃ rs, intact (w_disk w) rs.
Proof.
  intros E Hr. destruct (RO_done _ _ _ _ _ RO_verify_chain (run_done _ _ _ E)) as [_ Hv].
  by apply (verified_intact _ _ Hr Hv).
Qed.

(** ** A run with one failing write

    [apply_reconciliation] appends its decision to the log before it commits the
    snapshot.  When that commit fails and the process goes on, the operator sees
    an error, the permit can still be admitted and settled, and the next [open]
    replays the decision over the settlement. *)

Section run.
  Context {Env : Environment}.

(** What the caller observes: the result of the reconciliation, the outcome of
    the send, the state of the attempt after a restart, and whether the same
    request was then sent again under a new attempt. *)
Record observed := {
  ob_reconciled : Res AttemptProjection;
  ob_outcome : SendOutcome;
  ob_state : option string;
  ob_resent : bool;
}.

Definition reconcile_then_send : M observed :=
  '(host, admin) ← open "/root" admin_cred;
  _ ← set_credentials host admin [operator_cred];
  auth ← authenticate "Bearer s3cret";
  workspace ← issue_workspace auth "/work";
  resource ← obtain_provider_send_surface auth workspace "chat";
  capability ← seal_capability auth resource VerifiedOperator ProviderSend 60000;
  lease ← mint_lease auth capability (request_digest request1) 30000;
  permit ← begin_send auth lease request1 "chat";
  grant ← mint_reconciliation_grant_for_attempt auth (pm_attempt permit) MarkNotSent 15000;
  reconciled ← attempt_ (apply_reconciliation auth grant evidence_default);
  admitted ← admit_sending auth permit;
  out ← settle_settled admitted;
  _ ← drop_authority;
  _ ← open "/root" admin_cred;
  auth ← authenticate "Bearer s3cret";
  projection ← attempt_projection auth (pm_attempt permit);
  again ← admit_operator_send auth request1 "chat";
  mret {| ob_reconciled := reconciled; ob_outcome := out; ob_state := ap_state <$> projection;
          ob_resent := pm_wire_admitted again &&
                       bool_decide (pm_attempt again ≠ pm_attempt permit) |}.
End run.

(** The rename that commits the reconciled snapshot fails; every other call
    succeeds. *)
Definition commit_fault : Environment := env_with (fault_at 279).

(** a reconciliation that reports an error can still overwrite a settled
    send.  With one failing rename inside [apply_reconciliation], the caller gets
    an error, admits and settles the same permit, and after a restart the
    attempt reads [failed], so that the request may be sent again. *)
Example failed_commit_overwrites_settlement :
  match (reconcile_then_send (Env := commit_fault) w0).1 with
  | Done o => ob_reconciled o = inl (Durability "injected fault") ∧
              (∃ a, ob_outcome o = OutSettled a) ∧ ob_state o = Some STATE_FAILED ∧
              ob_resent o = true
  | Raised _ => False
  | Crashed => False
  end.
Proof. vm_compute. eauto. Qed.
