(* ===== verification/AuthorityWitness.v ===== *)
(** * The send properties on the concrete run *)

From S2P Require Import Prelude Text Ids State World Concrete AuditWal AuditFacts Store StoreFacts Gates Reconcile Wellformed Operator Safety Trace GateFacts ReplayFacts OpenFacts SendProps ScopeProps GateProps ReconcileProps SystemProps Scenario.

Lemma begin_send_durable_witness :
  ∃ st' a, holds (w_disk w8) st' ∧ au_attempts st' !! to_hex (pm_attempt permit1) = Some a ∧
           at_state a = STATE_PREPARING.
Proof.
  destruct (begin_send_durable auth1 lease1 request1 "chat" w7 permit1 w8)
    as (st & st' & stored & res & cap & a & rs & r & _ & Hst & _ & _ & _ & _ & _ & _ & _ & _ & _ & Ha & Hp & _);
    [apply inv_w7|reflexivity|vm_compute; reflexivity|apply ran_begin|]. eauto.
Defined.

Lemma begin_send_single_live_witness :
  ∃ st', holds (w_disk w8) st' ∧
    ∀ k a, au_attempts st' !! k = Some a → at_principal a = to_hex (ac_principal auth1) →
      at_request_digest a = digest_to_hex (request_digest request1) →
      live_state (at_state a) → k = to_hex (pm_attempt permit1).
Proof.
  apply (begin_send_single_live auth1 lease1 request1 "chat" w7 permit1 w8);
    [apply inv_w7|reflexivity|vm_compute; reflexivity|apply ran_begin].
Defined.

Lemma begin_send_one_use_witness : el_id lease3 ≠ el_id lease1.
Proof.
  assert (∃ st stored, holds (w_disk w7) st ∧ au_leases st !! to_hex (el_id lease1) = Some stored ∧
    ls_capability_id stored = to_hex (sl_id capability1)) as (st & stored & Hst & Hl & Hc).
  { eexists _, _. split; [eexists; split_and!; vm_compute; reflexivity|]. split; vm_compute; reflexivity. }
  refine (proj1 (begin_send_one_use auth1 lease1 request1 "chat" w7 permit1 w8 w8m auth1 lease3 request2 "chat"
    permit_c w8t st stored inv_w7 eq_refl eq_refl _ ran_begin Hst Hl _ _ ran_begin_c)); [vm_compute; reflexivity|..].
  - rw Hc.
    assert (to_hex (el_id lease1) = hex (le_bytes 16 (le_value (id_bytes (el_id lease1))))) as ->
      by (vm_compute; reflexivity).
    assert (to_hex (sl_id capability1) = hex (le_bytes 16 (le_value (id_bytes (sl_id capability1))))) as ->
      by (vm_compute; reflexivity).
    assert (0 < le_value (id_bytes (el_id lease1)) ≤ Z.of_nat (w_tick w8))%Z as H1 by (vm_compute; split; congruence).
    assert (0 < le_value (id_bytes (sl_id capability1)) ≤ Z.of_nat (w_tick w8))%Z as H2 by (vm_compute; split; congruence).
    assert (le_value (id_bytes (el_id lease1)) < 2 ^ 127)%Z as H3 by (vm_compute; congruence).
    assert (le_value (id_bytes (sl_id capability1)) < 2 ^ 127)%Z as H4 by (vm_compute; congruence).
    exact (concrete_minted_anew (w_tick w8) _ _ H1 H2 H3 H4).
  - apply (rtc_l step (Running w8) (Running w8s) (Running w8m)).
    + exact (step_call _ w8 _ w8s (api_seal_capability _ _ _ _ _) ran_seal_c ltac:(discriminate)).
    + apply rtc_once. exact (step_call _ w8s _ w8m (api_mint_lease _ _ _ _) ran_mint_c ltac:(discriminate)).
Defined.

(** The durable records of the run's lease and resource. *)
Definition look1 (st : StoredAuthority) : option (StoredLease * StoredResource) :=
  l ← au_leases st !! to_hex (el_id lease1); r ← au_resources st !! to_hex resource1; Some (l, r).
Definition minted_unmoved (lr : StoredLease * StoredResource) : bool :=
  bool_decide (ls_resource lr.1 = to_hex resource1) &&
  (ls_observation_revision lr.1 <=? sr_observation_revision lr.2)%Z.

Lemma lease1_stored :
  ∃ st l r, holds (w_disk w7) st ∧ au_leases st !! to_hex (el_id lease1) = Some l ∧
    au_resources st !! to_hex resource1 = Some r ∧ ls_resource l = to_hex resource1 ∧
    (ls_observation_revision l ≤ sr_observation_revision r)%Z.
Proof.
  destruct (snapshot_look (λ st, minted_unmoved <$> look1 st) w7 true) as (st & Hst & Hf);
    [vm_compute; reflexivity|].
  unfold look1 in Hf. destruct (au_leases st !! _) as [l|] eqn:Hl; [|done].
  destruct (au_resources st !! _) as [r|] eqn:Hr; [|done]. injection Hf as Hf.
  apply andb_prop in Hf as [Hm Hle]. exists st, l, r. split_and!; try done.
  - by apply bool_decide_eq_true in Hm.
  - by apply Z.leb_le in Hle.
Qed.

Lemma moved_surface_refuses_witness :
  begin_send auth1 lease1 request1 "chat" w7m ≠ (Done permit1, w8).
Proof.
  destruct lease1_stored as (st & l & r & Hst & Hl & Hr & Hlr & Hle).
  apply (moved_surface_refuses auth1 resource1 (of_bytes "moved") w7 2 w7m auth1 lease1 request1
           "chat" permit1 w8 st l r);
    [apply inv_w7|reflexivity|reflexivity|vm_compute; reflexivity|done..|apply ran_observe].
Defined.

Lemma admit_sending_sound_witness :
  ∃ rs r, intact (w_disk w9) (rs ++ [r]) ∧
    ar_event r = EvSendWireAdmission (public_handle (pm_attempt permit1)).
Proof.
  destruct (admit_sending_sound auth1 permit1 w8 permit2 w9) 
    as (_ & _ & st & a & rs & r & _ & _ & _ & _ & _ & _ & _ & _ & _ & _ & Hrs & He);
    [apply inv_w8|vm_compute; reflexivity|apply ran_admit|]. exists rs, r. by split.
Defined.

Lemma settle_failed_justified_witness :
  failing = Some (inl DeniedBeforeDispatch) ∨
  pm_wire_admitted permit2 = false ∨
  ∃ st a, holds (w_disk w9) st ∧ au_attempts st !! to_hex (pm_attempt permit2) = Some a ∧
    is_operator_reconciled a = true ∧ at_state a = STATE_FAILED.
Proof.
  exact (settle_failed_justified permit2 _ _ failing w9 _ _ _ ran_settle_failed).
Defined.

Lemma settle_settled_durable_witness :
  ∃ st a, holds (w_disk w9s) st ∧ au_attempts st !! to_hex (pm_attempt permit2) = Some a ∧
    at_state a = STATE_SETTLED.
Proof.
  destruct (settle_settled_durable permit2 w9 (pm_attempt permit2) w9s) as (st & a & ? & ? & ? & _);
    [apply inv_w9|vm_compute; reflexivity|apply ran_settle|]. eauto.
Defined.

Lemma settled_moved : d_state (w_disk w9f) ≠ d_state (w_disk w9).
Proof.
  assert (bool_decide (d_state (w_disk w9f) = d_state (w_disk w9)) = false) as H
    by (vm_compute; reflexivity).
  exact (proj1 (bool_decide_eq_false _) H).
Qed.

Lemma settle_wal_first_witness :
  ∃ rs r, intact (w_disk w9) rs ∧ intact (w_disk w9f) (rs ++ [r]) ∧
    ar_event r = EvSendOutcome (public_handle (pm_attempt permit2)) "failed" (detail_text failing).
Proof.
  assert (log_room (w_disk w9f)) as Hr by (vm_compute; reflexivity).
  exact (proj2 (settle_wal_first _ _ _ _ _ _ _ inv_w9 Hr ran_settle_failed) settled_moved).
Defined.

(** An audited outcome the snapshot of [w9] does not show yet. *)
Definition missed : gmap string (string * string) :=
  {[ public_handle (pm_attempt permit1) := (STATE_SETTLED, "response observed") ]}.

Lemma replay_converges_witness :
  ∃ st st', holds (w_disk w9) st ∧ needs_replay missed st = inr true ∧
            needs_replay missed st' = inr false.
Proof.
  destruct (snapshot_look (λ st, match needs_replay missed st, apply_replay missed st with
              | inr true, inr _ => Some () | _, _ => None end) w9 ()) as (st & Hst & H);
    [vm_compute; reflexivity|].
  exists st. destruct (needs_replay missed st) as [|[]]; [done| |done].
  destruct (apply_replay missed st) as [|st'] eqn:E; [done|]. exists st'.
  destruct (replay_converges missed st st' E) as [Hn _]. done.
Defined.

Definition record_of (e : AuditEvent) : AuditRecord :=
  {| ar_sequence := 1; ar_recorded_at_ms := 0; ar_control_epoch := 1;
     ar_previous_digest := GENESIS_DIGEST; ar_event := e |}.

Lemma reconciliation_wins_witness :
  match replay_events {| ra_outcomes := ∅; ra_truths := ∅ |}
          ([record_of (EvSendOutcome "att_1" "uncertain" "TransportAfterPossibleWrite")]
           ++ record_of (EvAttemptReconciled "att_1" "no_effect")
           :: [record_of (EvSendOutcome "att_1" "settled" "response observed")]) with
  | inr acc => ra_outcomes acc !! "att_1" = Some (STATE_FAILED, "reconciled")
  | inl _ => False
  end.
Proof.
  destruct (replay_events _ _) as [e|acc] eqn:E; [by vm_compute in E|].
  eapply (reconciliation_wins _ _ _ "att_1" "no_effect" STATE_FAILED acc); [..|exact E];
    reflexivity.
Defined.

(** * The store, scope and system properties on the concrete run *)

Lemma with_state_atomic_witness :
  let w' := (with_state rotate_control_epoch_tx w7).2 in
  w_disk w' = w_disk w7 ∨ ∃ t, w_disk w' = set_d_state (w_disk w7) (Some t).
Proof.
  destruct (with_state_atomic rotate_control_epoch_tx w7 _ _ (surjective_pairing _))
    as [[H _]|(st & m & a & s & t & _ & _ & _ & H & _)]; [by left|right; by exists t].
Defined.

Lemma request_digest_binds_witness :
  request_digest request1 = request_digest request1 ∧ request1 = request1.
Proof.
  split; [reflexivity|]. apply request_digest_binds; [repeat constructor; vm_compute; done..| |reflexivity].
  by intros _.
Defined.

Lemma authenticate_sound_witness :
  ∃ st c, holds (w_disk w2) st ∧ c ∈ au_credentials st ∧
    sc_credential_fingerprint c = credential_fingerprint "s3cret".
Proof.
  destruct (authenticate_sound "Bearer s3cret" w2 auth1 w3) as (st & c & rs & r & H1 & H2 & H3 & _);
    [apply inv_w2|vm_compute; reflexivity|apply ran_authenticate|].
  exists st, c. split; [exact H1|]. split; [exact H2|]. exact H3.
Defined.

Lemma untrimmed_secret_unusable_witness : bearer_token "Bearer  pad " ≠ " pad ".
Proof.
  exact (proj2 (untrimmed_secret_unusable "op" " pad " {| hc_id := "op"; hc_secret := " pad " |}
                  "Bearer  pad " eq_refl ltac:(discriminate))).
Defined.

Lemma set_credentials_revokes_witness :
  ∃ st', holds (w_disk w2) st' ∧ sc_credential_id <$> au_credentials st' = ["op"].
Proof.
  destruct (set_credentials_revokes host admin [operator_cred] w1 w2) as (st & st' & _ & H & Hc & _);
    [apply inv_w1|apply ran_set_credentials|].
  exists st'. split; [exact H|exact Hc].
Defined.

Lemma rotations_revoke_witness :
  ∃ st', holds (w_disk w7p) st' ∧ au_resources st' = ∅ ∧ au_leases st' = ∅.
Proof.
  destruct (rotations_revoke host admin w7 2 w7p inv_w7) as (_ & H & _).
  destruct (H ran_rotate_policy) as (st & st' & _ & Hst' & (_ & Hl & _) & _ & _ & Hr).
  exists st'. split; [exact Hst'|]. split; [exact Hr|exact Hl].
Defined.

(** The snapshot of [w9], which a drop leaves on disk. *)
Lemma w9_snapshot : ∃ st, holds (w_disk w9) st ∧
  bool_decide (au_admin_credential_fingerprint st
               = admin_credential_fingerprint (hac_secret admin_cred)) = true.
Proof.
  destruct (snapshot_look (λ st, Some (bool_decide (au_admin_credential_fingerprint st
    = admin_credential_fingerprint (hac_secret admin_cred)))) w9 true) as (st & Hst & [= Hf]);
    [vm_compute; reflexivity|]. by exists st.
Qed.

Lemma drop_disk w : w_disk (drop_authority w).2 = w_disk w.
Proof. reflexivity. Qed.

Lemma open_restart_witness :
  ∃ st st', holds (w_disk w9) st ∧ holds (w_disk w12) st' ∧
    only_attempts (set_control_epoch st (au_control_epoch st + 1)) st'.
Proof.
  destruct w9_snapshot as (st & Hst & _). pose proof (drop_disk w9) as Hd.
  assert (disk_inv (w_disk w9d)) as Hi by (unfold w9d; rw Hd; exact (Inv_disk_inv _ inv_w9)).
  assert (holds (w_disk w9d) st) as Hst9 by (unfold w9d; rw Hd; exact Hst).
  assert (log_room (w_disk w12)) as Hr by (vm_compute; reflexivity).
  destruct (open_restart "/root" admin_cred w9d handles w12 st) as (_ & _ & st' & Hst' & Hot & _);
    [exact Hi|exact Hr|exact Hst9|exact ran_reopen|].
  exists st, st'. split; [exact Hst|]. split; [exact Hst'|exact Hot].
Defined.

Definition intruder : HostAdminCredential := {| hac_secret := "another secret of thirty-two byte" |}.

Lemma open_wrong_admin_witness : w_disk (open "/root" intruder w9d).2 = w_disk w9d.
Proof.
  destruct w9_snapshot as (st & Hst & Hf%bool_decide_eq_true).
  assert (holds (w_disk w9d) st) as Hst9 by (unfold w9d; rw (drop_disk w9); exact Hst).
  assert (au_admin_credential_fingerprint st ≠ admin_credential_fingerprint (hac_secret intruder))
    as Hne by (rw Hf; vm_compute; discriminate).
  exact (proj1 (open_wrong_admin "/root" intruder w9d _ _ st Hst9 Hne (surjective_pairing _))).
Defined.

(** ** Scoped projections *)

Lemma current_at w (b : snapshot w ≫= (λ st, match require_current_state st auth1 with
    | inr _ => Some () | inl _ => None end) = Some ()) :
  ∃ st, holds (w_disk w) st ∧ require_current_state st auth1 = inr ().
Proof.
  destruct (snapshot_look _ _ _ b) as (st & Hst & Hc). exists st. split; [exact Hst|].
  destruct (require_current_state st auth1) as [|[]]; [discriminate|reflexivity].
Qed.

Lemma list_scoped_exact_witness :
  ∃ st, holds (w_disk w9) st ∧
  let o := (list_scoped_attempt_projections auth1 session1 workspace1 w9).1 in
  io_failed o ∨ ∃ ps, o = Done ps ∧ ∀ p, p ∈ ps ↔ ∃ id a,
    visible st auth1 session1 workspace1 id a ∧ project_stored_attempt id a = inr p.
Proof.
  destruct (current_at w9 ltac:(vm_compute; reflexivity)) as (st & Hst & Hc).
  exists st. split; [exact Hst|].
  destruct (list_scoped_exact auth1 session1 workspace1 w9 st inv_w9 Hst Hc) as [H|(ps & H & _ & Hp)];
    [by left|right; exists ps; split; [exact H|exact Hp]].
Defined.

(** One attempt in the snapshot, of another session than the one asked about. *)
Definition other_session : SessionId := i0.
Definition one_foreign (st : StoredAuthority) : bool :=
  bool_decide (size (au_attempts st) ≤ 1) &&
  bool_decide (map_Forall (λ _ a, at_session a ≠ to_hex other_session) (au_attempts st)).

Lemma one_foreign_out st handle :
  one_foreign st = true → out_of_scope st auth1 other_session workspace1 handle.
Proof.
  intros [Hs%bool_decide_eq_true Hf%bool_decide_eq_true]%andb_prop. split.
  - intros id a [Ha Hsc]. unfold attempt_in_scope in Hsc. apply bool_decide_eq_true in Hsc as (_ & Hses & _).
    by destruct (Hf _ _ Ha).
  - intros id id' a a' Ha Ha' _ _. destruct (decide (id = id')) as [|Hne]; [done|].
    rw -(insert_id _ _ _ Ha) -(insert_delete_eq (au_attempts st)) map_size_insert_None in Hs;
      [|apply lookup_delete_eq].
    assert (delete (to_hex id) (au_attempts st) !! to_hex id' = Some a') as Hd.
    { rw lookup_delete_ne //. intros Heq. by apply Hne, (inj to_hex). }
    assert (size (delete (to_hex id) (au_attempts st)) ≠ 0)%nat as Hz; [|lia].
    intros He%map_size_empty_iff. rw He in Hd. done.
Qed.

(** [w7] has no attempt; [w8] has one, brought to the same instant. *)
Definition w8t : World := set_tick w8 (w_tick w7).

Lemma at_instant w (b : snapshot w ≫= (λ st, if one_foreign st then
    match require_current_state st auth1 with inr _ => Some () | inl _ => None end
    else None) = Some ()) :
  ∃ st, holds (w_disk w) st ∧ require_current_state st auth1 = inr () ∧ one_foreign st = true.
Proof.
  destruct (snapshot_look _ _ _ b) as (st & Hst & Hc). exists st. split; [exact Hst|].
  destruct (one_foreign st); [|discriminate].
  destruct (require_current_state st auth1) as [|[]]; [discriminate|]. by split.
Qed.

Lemma tick_disk w n : w_disk (set_tick w n) = w_disk w.
Proof. reflexivity. Qed.

Lemma foreign_looks_unknown_witness :
  (scoped_attempt_projection auth1 other_session workspace1 handle1 w7).1 =
  (scoped_attempt_projection auth1 other_session workspace1 handle1 w8t).1.
Proof.
  destruct (at_instant w7 ltac:(vm_compute; reflexivity)) as (st7 & H7 & C7 & F7).
  destruct (at_instant w8 ltac:(vm_compute; reflexivity)) as (st8 & H8 & C8 & F8).
  assert (holds (w_disk w8t) st8) as H8t by (unfold w8t; rw tick_disk; exact H8).
  assert (w_tick w7 = w_tick w8t) as Ht by (vm_compute; reflexivity).
  exact (proj1 (foreign_looks_unknown auth1 other_session workspace1 handle1 Review 0 w7 w8t st7 st8
    inv_w7 (Inv_tick _ _ inv_w8) Ht H7 H8t C7 C8 (one_foreign_out _ _ F7) (one_foreign_out _ _ F8))).
Defined.

(** ** Runs *)

Lemma run_to_w2 : rtc step (Stopped w0) (Running w2).
Proof.
  eapply rtc_l; [exact (step_open _ _ _ _ _ ran_open)|].
  apply rtc_once. exact (step_call _ _ _ _ (api_set_credentials host admin [operator_cred])
    ran_set_credentials ltac:(discriminate)).
Qed.

Lemma w0_fresh : fresh_root (Stopped w0).
Proof. repeat split. Qed.

Lemma reachable_wf_witness : ∃ st, holds (sys_disk (Running w2)) st ∧ wf st.
Proof.
  destruct (snapshot_look (λ _, Some ()) w2 ()) as (st & Hst & _); [vm_compute; reflexivity|].
  exists st. split; [exact Hst|].
  apply (reachable_wf (Stopped w0) (Running w2) st w0_fresh run_to_w2);
    [vm_compute; reflexivity|exact Hst].
Defined.

Lemma runs_append_only_witness :
  ∃ rs rs1, intact (sys_disk (Running w3)) rs ∧
            intact (sys_disk (Running w2)) rs1 ∧ rs1 `prefix_of` rs.
Proof.
  assert (rtc step (Running w2) (Running w3)) as H23.
  { apply rtc_once. exact (step_call _ _ _ _ (api_authenticate "Bearer s3cret") ran_authenticate
      ltac:(discriminate)). }
  assert (log_room (w_disk w3)) as Hr by (vm_compute; reflexivity).
  assert ((verify_chain w3).1 = Done true) as Hv by (vm_compute; reflexivity).
  destruct (verified_log_of w3 Hv Hr) as [rs Hrs]. exists rs.
  destruct (runs_append_only (Stopped w0) (Running w2) (Running w3) rs w0_fresh run_to_w2 H23 Hr Hrs)
    as [rs1 H1]. exists rs1. exact (conj Hrs H1).
Defined.

(** * The lease, recovery and reconciliation properties on the concrete run *)

Lemma mint_lease_narrows_witness :
  ∃ st lr, holds (w_disk w7) st ∧ au_leases st !! to_hex (el_id lease1) = Some lr ∧
    ls_consumed lr = false ∧ ls_action_digest lr = digest_to_hex (request_digest request1).
Proof.
  assert (log_room (w_disk w7)) as Hr by (vm_compute; reflexivity).
  destruct (mint_lease_narrows auth1 capability1 (request_digest request1) 30000 w6 lease1 w7
              inv_w6 Hr ran_mint)
    as (st & stored & res & lr & now & _ & _ & _ & Hst' & _ & _ & _ & _ & _ & _ & _ & _ & Hc & _ & Ha & _).
  exists (set_leases st (<[to_hex (el_id lease1) := lr]> (au_leases st))), lr.
  split; [exact Hst'|]. split; [apply lookup_insert_eq|]. split; [exact Hc|exact Ha].
Defined.

Lemma recover_incomplete_decides_witness :
  ∃ st', holds (w_disk w9r) st' ∧ ∀ k a, au_attempts st' !! k = Some a →
    at_state a ≠ STATE_PREPARING ∧ at_state a ≠ STATE_SENDING.
Proof.
  assert (log_room (w_disk w9r)) as Hr by (vm_compute; reflexivity).
  destruct (snapshot_look (λ _, Some ()) w9 ()) as (st & Hst & _); [vm_compute; reflexivity|].
  destruct (recover_incomplete_decides host admin w9 _ w9r st inv_w9 Hr Hst ran_recover)
    as (st0 & st' & rs' & _ & Hst' & _ & _ & Hd & _). exists st'. split; [exact Hst'|exact Hd].
Defined.

(** The whole path in one call, from an authenticated context. *)
Definition w3a : World := (admit_operator_send auth1 request1 "chat" w3).2.
Definition permit3 : PhysicalSendPermit :=
  Eval vm_compute in the permit0 (admit_operator_send auth1 request1 "chat" w3).1.

Lemma admit_operator_send_sound_witness :
  pm_wire_admitted permit3 = true ∧
  ∃ st a, holds (w_disk w3a) st ∧ au_attempts st !! to_hex (pm_attempt permit3) = Some a ∧
          at_state a = STATE_SENDING.
Proof.
  assert (log_room (w_disk w3a)) as Hr by (vm_compute; reflexivity).
  assert ((admit_operator_send auth1 request1 "chat" w3).1 = Done permit3) as E by (vm_compute; reflexivity).
  destruct (admit_operator_send_sound auth1 request1 "chat" w3 permit3 w3a inv_w3 eq_refl Hr
              (run_done (admit_operator_send auth1 request1 "chat") w3 _ E))
    as (H1 & _ & st & a & lease & rs & r1 & r2 & Hst & Ha & Hs & _).
  split; [exact H1|]. exists st, a. split; [exact Hst|]. split; [exact Ha|exact Hs].
Defined.

Lemma reconciliation_justified_witness :
  ∃ st' a', holds (w_disk w11) st' ∧
    au_attempts st' !! to_hex (rg_attempt grant1) = Some a' ∧ at_state a' = STATE_SETTLED.
Proof.
  assert (log_room (w_disk w11)) as Hr by (vm_compute; reflexivity).
  destruct (reconciliation_justified auth1 grant1 receipt1 w10 projection1 w11 inv_w10 Hr ran_apply)
    as (st & a & st' & a' & _ & Hst' & _ & _ & _ & Hat & Hm & _).
  exists st', a'. split; [exact Hst'|]. rw Hat lookup_insert_eq. split; [reflexivity|exact Hm].
Defined.

Lemma grant_one_use_witness :
  apply_reconciliation auth1 grant1 receipt1 w11 ≠ (Done projection1, w11).
Proof.
  assert (log_room (w_disk w11)) as Hr by (vm_compute; reflexivity).
  exact (grant_one_use auth1 grant1 receipt1 w10 projection1 w11 auth1 receipt1 projection1 w11
           inv_w10 Hr ran_apply).
Defined.

(** A grant whose revision is not the record's. *)
Definition stale_grant : ReconciliationGrant :=
  {| rg_lease := rg_lease grant1; rg_attempt := rg_attempt grant1; rg_revision := d0;
     rg_state := rg_state grant1; rg_dialect := rg_dialect grant1;
     rg_route_digest := rg_route_digest grant1; rg_disposition := MarkSettled;
     rg_expires_at_ms := rg_expires_at_ms grant1 |}.

Definition stale_at (st : StoredAuthority) : option bool :=
  a ← au_attempts st !! to_hex (rg_attempt stale_grant);
  Some (bool_decide (attempt_revision (rg_attempt stale_grant) a ≠ rg_revision stale_grant) &&
        negb (already_matches_disposition a (rg_disposition stale_grant))).

Lemma stale_grant_refused_witness :
  w_disk (apply_reconciliation auth1 stale_grant receipt1 w10).2 = w_disk w10.
Proof.
  destruct (snapshot_look stale_at w10 true) as (st & Hst & H); [vm_compute; reflexivity|].
  unfold stale_at in H. destruct (au_attempts st !! _) as [a|] eqn:Ha; [|discriminate].
  assert (∀ b c : bool, Some b = Some c → b = c) as Hinj by (by intros b c [= ->]).
  apply Hinj, andb_prop in H as [Hrev%bool_decide_eq_true Hal%negb_true_iff].
  exact (proj1 (stale_grant_refused auth1 stale_grant receipt1 w10 _ _ st a Hst Ha Hrev Hal
                  (surjective_pairing _))).
Defined.

Lemma grant_cannot_send_witness :
  begin_send auth1 (rg_lease grant1) request2 "chat" w10 ≠ (Done permit1, w10).
Proof.
  assert (log_room (w_disk w10)) as Hr by (vm_compute; reflexivity).
  exact (grant_cannot_send auth1 session1 workspace1 handle1 MarkSettled 0 w9u grant1 w10 auth1
           (rg_lease grant1) request2 "chat" permit1 w10 inv_w9u eq_refl Hr ran_grant eq_refl).
Defined.
