(* ===== verification/Window.v ===== *)
(** * Numbers of the Rust standard library: wrapping integers, [FromStr], [f64]

    A [usize] is 64 bits wide.  An [f64] is a [spec_float] of the Standard
    Library with 53 bits of precision; conversion, division and comparison are
    the correctly rounded IEEE 754 operations.  [str::parse] is modelled for the
    unsigned integers, [bool] and [f64]. *)

From Stdlib Require Import Ascii.
From Stdlib Require Export SpecFloat.
From Stdlib Require Import Sorted.
From S2P Require Import Prelude Text.

(** ** Machine integers *)

Definition wrap64 (z : Z) : Z := z mod 2 ^ 64.
Definition wrapping_add (a b : Z) : Z := wrap64 (a + b).
Definition wrapping_sub (a b : Z) : Z := wrap64 (a - b).

Lemma wrap64_small z : (0 ≤ z < 2 ^ 64)%Z → wrap64 z = z.
Proof. intros H. by apply Z.mod_small. Qed.

Lemma wrap64_range z : (0 ≤ wrap64 z < 2 ^ 64)%Z.
Proof. apply Z.mod_pos_bound. lia. Qed.

(** ** [f64] *)

Definition f64 : Type := spec_float.

Definition f64_of_Z (z : Z) : f64 := binary_normalize 53 1024 z 0 false.
Definition f64_div : f64 → f64 → f64 := SFdiv 53 1024.
(** [a >= b]; false when either is not a number. *)
Definition f64_ge (a b : f64) : bool := SFleb b a.

(** The correctly rounded value of [m * 10 ^ e]. *)
Definition f64_of_decimal (neg : bool) (m e : Z) : f64 :=
  match m with
  | Zpos p =>
      if (0 <=? e)%Z then
        let x := (m * 10 ^ e)%Z in binary_normalize 53 1024 (if neg then - x else x)%Z 0 neg
      else
        let '(q, ex, l) := SFdiv_core_binary 53 1024 m 0 (10 ^ (- e)) 0 in
        binary_round_aux 53 1024 neg q ex l
  | _ => S754_zero neg
  end.

(** ** [str::parse] *)

Definition digit_of (c : ascii) : option Z :=
  let b := byte_val c in if decide (48 ≤ b ≤ 57)%Z then Some (b - 48)%Z else None.

(** The leading digits as a number continuing [acc], their count, and the rest. *)
Fixpoint take_digits (s : string) (acc : Z) (n : nat) : Z * nat * string :=
  match s with
  | String c s' =>
      match digit_of c with
      | Some d => take_digits s' (10 * acc + d)%Z (S n)
      | None => (acc, n, s)
      end
  | "" => (acc, n, "")
  end.

(** [uN::from_str]: an optional plus sign, at least one digit, no overflow. *)
Definition parse_unsigned (bits : Z) (s : string) : option Z :=
  let s := match s with String "+" s' => s' | _ => s end in
  match take_digits s 0 0 with
  | (v, S _, "") => if decide (v < 2 ^ bits)%Z then Some v else None
  | _ => None
  end.

Definition parse_bool (s : string) : option bool :=
  if decide (s = "true") then Some true
  else if decide (s = "false") then Some false else None.

(** The exponent part of [f64::from_str]: [e] or [E], a sign, digits, end. *)
Definition parse_exponent (s : string) : option Z :=
  match s with
  | "" => Some 0%Z
  | String c s' =>
      if decide (c = "e"%char ∨ c = "E"%char) then
        let '(neg, s') := match s' with
                          | String "-" r => (true, r)
                          | String "+" r => (false, r)
                          | _ => (false, s')
                          end in
        match take_digits s' 0 0 with
        | (v, S _, "") => Some (if neg then - v else v)%Z
        | _ => None
        end
      else None
  end.

(** [f64::from_str]: a sign, then a case-insensitive [inf], [infinity] or
    [nan], or digits with at most one point and at least one digit. *)
Definition parse_f64 (s : string) : option f64 :=
  let '(neg, s) := match s with
                   | String "-" r => (true, r)
                   | String "+" r => (false, r)
                   | _ => (false, s)
                   end in
  let u := to_ascii_uppercase s in
  if decide (u = "INF" ∨ u = "INFINITY") then Some (S754_infinity neg)
  else if decide (u = "NAN") then Some S754_nan
  else
    let '(ip, ni, rest) := take_digits s 0 0 in
    let '(m, nf, rest) := match rest with
                          | String "." r => take_digits r ip 0
                          | _ => (ip, 0%nat, rest)
                          end in
    if decide (ni + nf = 0)%nat then None
    else (λ e, f64_of_decimal neg m (e - Z.of_nat nf)) <$> parse_exponent rest.

Definition f64_half : f64 := f64_div (f64_of_Z 1) (f64_of_Z 2).

Example parse_f64_half : parse_f64 "0.5" = Some f64_half.
Proof. reflexivity. Qed.
Example parse_f64_forms :
  (parse_f64 ".5e0", parse_f64 "5E-1", parse_f64 "", parse_f64 ".", parse_f64 "1e", parse_f64 "0.1")
  = (Some f64_half, Some f64_half, None, None, None,
     Some (S754_finite false 7205759403792794 (-56))).
Proof. reflexivity. Qed.
Example parse_unsigned_forms :
  (parse_unsigned 16 "+429", parse_unsigned 16 "65536", parse_unsigned 16 "-1", parse_unsigned 16 "")
  = (Some 429%Z, None, None, None).
Proof. reflexivity. Qed.

(** ** [str::split] on one ASCII character *)
Fixpoint split_on (sep : ascii) (s : string) : list string :=
  match s with
  | "" => [""]
  | String c s' =>
      if decide (c = sep) then "" :: split_on sep s'
      else match split_on sep s' with
           | p :: ps => String c p :: ps
           | [] => [String c ""]
           end
  end.

(** ** The sliding window of the circuit breaker

    Models [crates/common/xai-circuit-breaker/src/window.rs].  An [Instant] is a
    number of nanoseconds; on Unix it is a 64-bit count of seconds with
    nanoseconds, so [checked_sub] fails only below [-2^63] seconds.  A
    [VecDeque] is a list, front first. *)

Abbreviation Instant := Z (only parsing).
Abbreviation Duration := Z (only parsing).

Definition instant_min : Instant := (- 2 ^ 63 * 10 ^ 9)%Z.

Definition checked_sub_instant (now : Instant) (d : Duration) : option Instant :=
  if decide (instant_min ≤ now - d)%Z then Some (now - d)%Z else None.

Definition MAX_WINDOW_ENTRIES : Z := 10000.

Record SlidingWindow := {
  sw_entries : list (Instant * bool);
  sw_failures : Z;
}.

Definition window_new : SlidingWindow := {| sw_entries := []; sw_failures := 0 |}.

Definition pop_failure (was_failure : bool) (failures : Z) : Z :=
  if was_failure then wrapping_sub failures 1 else failures.

Definition window_push (w : SlidingWindow) (is_failure : bool) (at_ : Instant) : SlidingWindow :=
  let '(entries, failures) :=
    if decide (MAX_WINDOW_ENTRIES ≤ Z.of_nat (length (sw_entries w)))%Z then
      match sw_entries w with
      | (_, was_failure) :: rest => (rest, pop_failure was_failure (sw_failures w))
      | [] => ([], sw_failures w)
      end
    else (sw_entries w, sw_failures w) in
  {| sw_entries := entries ++ [(at_, is_failure)];
     sw_failures := if is_failure then wrapping_add failures 1 else failures |}.

(** The [while let] loop of [evict]. *)
Fixpoint evict_front (cutoff : Instant) (entries : list (Instant * bool)) (failures : Z)
    : SlidingWindow :=
  match entries with
  | (ts, was_failure) :: rest =>
      if decide (ts < cutoff)%Z then evict_front cutoff rest (pop_failure was_failure failures)
      else {| sw_entries := entries; sw_failures := failures |}
  | [] => {| sw_entries := []; sw_failures := failures |}
  end.

Definition window_evict (w : SlidingWindow) (window : Duration) (now : Instant) : SlidingWindow :=
  match checked_sub_instant now window with
  | None => w
  | Some cutoff => evict_front cutoff (sw_entries w) (sw_failures w)
  end.

Definition window_error_rate (w : SlidingWindow) : f64 :=
  match sw_entries w with
  | [] => S754_zero false
  | _ => f64_div (f64_of_Z (sw_failures w)) (f64_of_Z (Z.of_nat (length (sw_entries w))))
  end.

Definition window_sample_count (w : SlidingWindow) : Z := Z.of_nat (length (sw_entries w)).

Definition window_clear (w : SlidingWindow) : SlidingWindow := window_new.

(** ** The representation invariant *)

Definition failures_in (entries : list (Instant * bool)) : Z :=
  Z.of_nat (length (filter (λ e, e.2 = true) entries)).

Definition window_ok (w : SlidingWindow) : Prop :=
  sw_failures w = failures_in (sw_entries w) ∧ (Z.of_nat (length (sw_entries w)) ≤ MAX_WINDOW_ENTRIES)%Z.

Lemma failures_in_cons e es : failures_in (e :: es) = (Z.b2z e.2 + failures_in es)%Z.
Proof. unfold failures_in. rw filter_cons. destruct e as [t []]; simpl; lia. Qed.

Lemma failures_in_snoc es t b : failures_in (es ++ [(t, b)]) = (failures_in es + Z.b2z b)%Z.
Proof. unfold failures_in. rw filter_app length_app filter_cons. destruct b; simpl; lia. Qed.

Lemma failures_in_bound es : (0 ≤ failures_in es ≤ Z.of_nat (length es))%Z.
Proof. unfold failures_in. pose proof (length_filter (λ e : Z * bool, e.2 = true) es). lia. Qed.

(** Popping the front never wraps while the counter is exact. *)
Lemma pop_failure_exact t b es :
  (Z.of_nat (length es) < 2 ^ 63)%Z → pop_failure b (failures_in ((t, b) :: es)) = failures_in es.
Proof.
  intros Hl. rw failures_in_cons. pose proof (failures_in_bound es). unfold pop_failure, wrapping_sub.
  destruct b; simpl; [|lia]. rw wrap64_small; lia.
Qed.

Lemma max_entries_small : (0 < MAX_WINDOW_ENTRIES < 2 ^ 63)%Z.
Proof. done. Qed.

Lemma window_ok_new : window_ok window_new.
Proof. by split. Qed.

(** Appending a sample to an exact, not full window. *)
Lemma push_exact es b t :
  (Z.of_nat (length es) < MAX_WINDOW_ENTRIES)%Z →
  window_ok {| sw_entries := es ++ [(t, b)];
               sw_failures := if b then wrapping_add (failures_in es) 1 else failures_in es |}.
Proof.
  intros Hl. pose proof max_entries_small. pose proof (failures_in_bound es). split; simpl.
  - rw failures_in_snoc. destruct b; simpl; [|lia]. unfold wrapping_add. rw wrap64_small; lia.
  - rw length_app /=. lia.
Qed.

Lemma window_ok_push w b t : window_ok w → window_ok (window_push w b t).
Proof.
  destruct w as [es f]. intros [Hf Hl]. unfold window_push. simpl in *. subst f.
  pose proof max_entries_small. case_decide as Hc; [|apply push_exact; lia].
  destruct es as [|[t0 b0] es]; simpl in *; [lia|].
  rw pop_failure_exact; [|lia]. apply push_exact. lia.
Qed.

(** ** Eviction *)

Definition fresh (cutoff : Instant) (e : Instant * bool) : Prop := (cutoff ≤ e.1)%Z.

#[export] Instance fresh_dec cutoff e : Decision (fresh cutoff e).
Proof. unfold fresh. apply _. Defined.

Lemma evict_front_spec cutoff es :
  (Z.of_nat (length es) ≤ MAX_WINDOW_ENTRIES)%Z →
  let w := evict_front cutoff es (failures_in es) in
  window_ok w ∧ (∃ gone, es = gone ++ sw_entries w ∧ Forall (λ e, ¬ fresh cutoff e) gone) ∧
  (∀ e rest, sw_entries w = e :: rest → fresh cutoff e).
Proof.
  pose proof max_entries_small. induction es as [|[t b] es IH]; intros Hl; simpl in *.
  { split; [by split|]. split; [by exists []|done]. }
  case_decide as Ht.
  - rw pop_failure_exact; [|lia]. destruct IH as (Hok & (gone & Hg & Hs) & Hfr); [lia|].
    split; [done|]. split; [|done]. exists ((t, b) :: gone). split; [by f_equal/=|].
    constructor; [unfold fresh; simpl; lia|done].
  - split; [by split|]. split; [by exists []|]. intros e rest [= <- <-]. unfold fresh. simpl. lia.
Qed.

Lemma filter_all {A} (P : A → Prop) `{!∀ x, Decision (P x)} l : Forall P l → filter P l = l.
Proof. induction 1; [done|]. rw filter_cons_True //. by f_equal. Qed.

(** On time-ordered samples the loop keeps exactly the fresh ones. *)
Lemma evict_front_sorted cutoff es f :
  StronglySorted Z.le es.*1 → sw_entries (evict_front cutoff es f) = filter (fresh cutoff) es.
Proof.
  revert f. induction es as [|[t b] es IH]; intros f Hs; [done|].
  rw fmap_cons in Hs. apply StronglySorted_inv in Hs as [Hs Ht]. rw filter_cons. cbn [evict_front].
  destruct (decide (t < cutoff)%Z) as [Hc|Hc].
  - rw decide_False; [|unfold fresh; simpl; lia]. by apply IH.
  - rw decide_True; [|unfold fresh; simpl; lia]. cbn [sw_entries]. f_equal. symmetry.
    apply filter_all. apply Forall_forall. intros e He. unfold fresh.
    rw Forall_fmap Forall_forall in Ht. specialize (Ht e He). simpl in Ht. lia.
Qed.

Lemma window_ok_evict w d now : window_ok w → window_ok (window_evict w d now).
Proof.
  destruct w as [es f]. intros [Hf Hl]. unfold window_evict. destruct (checked_sub_instant _ _); [|done].
  simpl in *. subst f. by apply evict_front_spec.
Qed.

Lemma window_ok_clear w : window_ok (window_clear w).
Proof. apply window_ok_new. Qed.

Create HintDb window.
#[export] Hint Resolve window_ok_new window_ok_push window_ok_evict window_ok_clear : window.
