(* ===== verification/Breaker.v ===== *)
(** * The circuit breaker

    Models [breaker.rs], [state.rs], [config.rs], [observer.rs], [clock.rs] and
    [registry.rs] of [crates/common/xai-circuit-breaker/src].

    The fields of [CircuitBreakerInner] that change are shared memory.  A method
    is a program: a tree whose nodes are single atomic operations (an atomic
    load, store, read-modify-write, one critical section of the window mutex,
    one reading of the clock, one call of the observer) and whose branches are
    their answers.  The same program runs alone or interleaved with others, one
    node at a time; the memory orderings of the source are not weaker than that
    for a single variable, and reorderings between variables are not modelled. *)

From S2P Require Import Prelude Text Window.
From Stdlib Require Import Ascii.

(** ** Data *)

Inductive BreakerState := Closed | Open | HalfOpen.

#[export] Instance BreakerState_eq_dec : EqDecision BreakerState.
Proof. solve_decision. Defined.

(** The [repr(u8)] discriminants. *)
Definition state_u8 (s : BreakerState) : Z :=
  match s with Closed => 0 | Open => 1 | HalfOpen => 2 end.

(** Release build: the [debug_assert] is compiled out. *)
Definition from_u8 (v : Z) : BreakerState :=
  if decide (v = 0)%Z then Closed
  else if decide (v = 1)%Z then Open
  else if decide (v = 2)%Z then HalfOpen
  else Closed.

Inductive Outcome := Success | Failure.

#[export] Instance Outcome_eq_dec : EqDecision Outcome.
Proof. solve_decision. Defined.

Record BreakerOpen := { retry_after : Duration }.

Record BreakerConfig := {
  window_duration : Duration;
  min_samples : Z;
  error_rate_threshold : f64;
  open_duration : Duration;
  half_open_max_probes : Z;
  failure_codes : gset Z;
  enabled : bool;
}.

Definition from_secs (n : Z) : Duration := (n * 10 ^ 9)%Z.
Definition from_millis (n : Z) : Duration := (n * 10 ^ 6)%Z.
(** [as_millis] is 128 bits wide; [as u64] truncates it. *)
Definition as_millis_u64 (d : Duration) : Z := wrap64 (d / 10 ^ 6).
Definition duration_saturating_sub (a b : Duration) : Duration := Z.max 0 (a - b).
Definition saturating_duration_since (a b : Instant) : Duration := Z.max 0 (a - b).

Definition DEFAULT_FAILURE_CODES : list Z := [429; 500; 502; 503; 504]%Z.
Definition default_failure_codes : gset Z := list_to_set DEFAULT_FAILURE_CODES.

Definition config_server : BreakerConfig := {|
  window_duration := from_secs 60; min_samples := 10; error_rate_threshold := f64_half;
  open_duration := from_secs 10; half_open_max_probes := 1;
  failure_codes := default_failure_codes; enabled := true |}.

Definition config_client : BreakerConfig := {|
  window_duration := from_secs 60; min_samples := 5; error_rate_threshold := f64_half;
  open_duration := from_secs 60; half_open_max_probes := 1;
  failure_codes := {[ 401%Z ]}; enabled := true |}.

Definition config_is_failure_status (c : BreakerConfig) (status : Z) : bool :=
  bool_decide (status ∈ failure_codes c).

(** Invalid entries are silently dropped. *)
Definition parse_failure_codes (s : string) : gset Z :=
  list_to_set (omap (λ c, parse_unsigned 16 (trim c)) (split_on ","%char s)).

(** The parse failure is logged; the log is not modelled. *)
Definition lookup_or {T} (parse : string → option T) (get : string → option string)
    (key : string) (default : T) : T :=
  match get key with
  | Some v => match parse v with Some parsed => parsed | None => default end
  | None => default
  end.

Definition from_lookup_with_prefix (prefix : string) (get : string → option string)
    : BreakerConfig :=
  let key k := prefix +:+ k in
  let codes := match get (key "FAILURE_CODES") with
               | Some raw =>
                   let codes := parse_failure_codes raw in
                   if decide (codes = ∅) then default_failure_codes else codes
               | None => default_failure_codes
               end in
  {| window_duration := from_secs (lookup_or (parse_unsigned 64) get (key "WINDOW_SECS") 60%Z);
     min_samples := lookup_or (parse_unsigned 64) get (key "MIN_SAMPLES") 10%Z;
     error_rate_threshold := lookup_or parse_f64 get (key "ERROR_RATE_THRESHOLD") f64_half;
     open_duration := from_secs (lookup_or (parse_unsigned 64) get (key "OPEN_DURATION_SECS") 10%Z);
     half_open_max_probes :=
       Z.max (lookup_or (parse_unsigned 64) get (key "HALF_OPEN_MAX_PROBES") 1%Z) 1;
     failure_codes := codes;
     enabled := lookup_or parse_bool get (key "ENABLED") true |}.

Definition from_env_with_prefix (env : string → option string) (prefix : string) : BreakerConfig :=
  from_lookup_with_prefix prefix env.
Definition from_env (env : string → option string) : BreakerConfig :=
  from_env_with_prefix env "CB_".

(** The callbacks of the [Observer] trait. *)
Inductive ObserverEvent :=
  | OnStateChange (old new : BreakerState) (reason : string)
  | OnProbeAdmission (allowed : bool)
  | OnOutcome (outcome : Outcome) (status : BreakerState).

(** ** Shared memory *)

(** The immutable part of [CircuitBreakerInner]: every clone of the handle has it. *)
Record CircuitBreaker := { cb_config : BreakerConfig; cb_baseline : Instant }.

(** The atomics, the window behind its mutex, the observer cell; and the
    world outside: the clock and the callbacks received by installed observers. *)
Record Shared := {
  sh_state : Z;
  sh_opened_at_millis : Z;
  sh_half_open_probes : Z;
  sh_probe_claimed_at_millis : Z;
  sh_is_open_fast : bool;
  sh_window : SlidingWindow;
  sh_observer : option nat;
  sh_clock : Instant;
  sh_callbacks : list (nat * ObserverEvent);
}.

Definition set_state (s : Shared) v : Shared := {|
  sh_state := v; sh_opened_at_millis := sh_opened_at_millis s;
  sh_half_open_probes := sh_half_open_probes s;
  sh_probe_claimed_at_millis := sh_probe_claimed_at_millis s;
  sh_is_open_fast := sh_is_open_fast s; sh_window := sh_window s; sh_observer := sh_observer s;
  sh_clock := sh_clock s; sh_callbacks := sh_callbacks s |}.
Definition set_opened (s : Shared) v : Shared := {|
  sh_state := sh_state s; sh_opened_at_millis := v;
  sh_half_open_probes := sh_half_open_probes s;
  sh_probe_claimed_at_millis := sh_probe_claimed_at_millis s;
  sh_is_open_fast := sh_is_open_fast s; sh_window := sh_window s; sh_observer := sh_observer s;
  sh_clock := sh_clock s; sh_callbacks := sh_callbacks s |}.
Definition set_probes (s : Shared) v : Shared := {|
  sh_state := sh_state s; sh_opened_at_millis := sh_opened_at_millis s;
  sh_half_open_probes := v;
  sh_probe_claimed_at_millis := sh_probe_claimed_at_millis s;
  sh_is_open_fast := sh_is_open_fast s; sh_window := sh_window s; sh_observer := sh_observer s;
  sh_clock := sh_clock s; sh_callbacks := sh_callbacks s |}.
Definition set_claimed (s : Shared) v : Shared := {|
  sh_state := sh_state s; sh_opened_at_millis := sh_opened_at_millis s;
  sh_half_open_probes := sh_half_open_probes s; sh_probe_claimed_at_millis := v;
  sh_is_open_fast := sh_is_open_fast s; sh_window := sh_window s; sh_observer := sh_observer s;
  sh_clock := sh_clock s; sh_callbacks := sh_callbacks s |}.
Definition set_fast (s : Shared) v : Shared := {|
  sh_state := sh_state s; sh_opened_at_millis := sh_opened_at_millis s;
  sh_half_open_probes := sh_half_open_probes s;
  sh_probe_claimed_at_millis := sh_probe_claimed_at_millis s; sh_is_open_fast := v;
  sh_window := sh_window s; sh_observer := sh_observer s; sh_clock := sh_clock s;
  sh_callbacks := sh_callbacks s |}.
Definition set_window (s : Shared) v : Shared := {|
  sh_state := sh_state s; sh_opened_at_millis := sh_opened_at_millis s;
  sh_half_open_probes := sh_half_open_probes s;
  sh_probe_claimed_at_millis := sh_probe_claimed_at_millis s;
  sh_is_open_fast := sh_is_open_fast s; sh_window := v; sh_observer := sh_observer s;
  sh_clock := sh_clock s; sh_callbacks := sh_callbacks s |}.
Definition set_observer (s : Shared) v : Shared := {|
  sh_state := sh_state s; sh_opened_at_millis := sh_opened_at_millis s;
  sh_half_open_probes := sh_half_open_probes s;
  sh_probe_claimed_at_millis := sh_probe_claimed_at_millis s;
  sh_is_open_fast := sh_is_open_fast s; sh_window := sh_window s; sh_observer := v;
  sh_clock := sh_clock s; sh_callbacks := sh_callbacks s |}.
Definition set_clock (s : Shared) v : Shared := {|
  sh_state := sh_state s; sh_opened_at_millis := sh_opened_at_millis s;
  sh_half_open_probes := sh_half_open_probes s;
  sh_probe_claimed_at_millis := sh_probe_claimed_at_millis s;
  sh_is_open_fast := sh_is_open_fast s; sh_window := sh_window s; sh_observer := sh_observer s;
  sh_clock := v; sh_callbacks := sh_callbacks s |}.
Definition add_callback (s : Shared) v : Shared := {|
  sh_state := sh_state s; sh_opened_at_millis := sh_opened_at_millis s;
  sh_half_open_probes := sh_half_open_probes s;
  sh_probe_claimed_at_millis := sh_probe_claimed_at_millis s;
  sh_is_open_fast := sh_is_open_fast s; sh_window := sh_window s; sh_observer := sh_observer s;
  sh_clock := sh_clock s; sh_callbacks := sh_callbacks s ++ [v] |}.

(** ** Atomic operations and programs *)

Inductive op : Type → Type :=
  | LoadState : op Z
  | StoreState (v : Z) : op unit
  | CasState (from to : Z) : op bool
  | LoadOpened : op Z
  | StoreOpened (v : Z) : op unit
  | FetchAddProbes : op Z
  | FetchSubProbes : op Z
  | StoreProbes (v : Z) : op unit
  | LoadClaimed : op Z
  | StoreClaimed (v : Z) : op unit
  | CasClaimed (from to : Z) : op bool
  | LoadFast : op bool
  | StoreFast (b : bool) : op unit
  | LockedWindow {R} (f : SlidingWindow → R * SlidingWindow) : op R
  | ClockNow : op Instant
  | InstallObserver (o : nat) : op unit
  | Notify (e : ObserverEvent) : op unit.

Definition exec {R} (o : op R) (s : Shared) : R * Shared :=
  match o in op R return R * Shared with
  | LoadState => (sh_state s, s)
  | StoreState v => ((), set_state s v)
  | CasState from to =>
      if decide (sh_state s = from) then (true, set_state s to) else (false, s)
  | LoadOpened => (sh_opened_at_millis s, s)
  | StoreOpened v => ((), set_opened s v)
  | FetchAddProbes =>
      (sh_half_open_probes s, set_probes s (wrapping_add (sh_half_open_probes s) 1))
  | FetchSubProbes =>
      (sh_half_open_probes s, set_probes s (wrapping_sub (sh_half_open_probes s) 1))
  | StoreProbes v => ((), set_probes s v)
  | LoadClaimed => (sh_probe_claimed_at_millis s, s)
  | StoreClaimed v => ((), set_claimed s v)
  | CasClaimed from to =>
      if decide (sh_probe_claimed_at_millis s = from) then (true, set_claimed s to)
      else (false, s)
  | LoadFast => (sh_is_open_fast s, s)
  | StoreFast b => ((), set_fast s b)
  | LockedWindow f => let '(r, w) := f (sh_window s) in (r, set_window s w)
  | ClockNow => (sh_clock s, s)
  | InstallObserver o =>
      ((), match sh_observer s with Some _ => s | None => set_observer s (Some o) end)
  | Notify e =>
      ((), match sh_observer s with Some o => add_callback s (o, e) | None => s end)
  end.

Inductive prog (A : Type) :=
  | Ret (a : A)
  | Do {R} (o : op R) (k : R → prog A).
Arguments Ret {_} _.
Arguments Do {_ _} _ _.

Fixpoint prog_bind {A B} (p : prog A) (f : A → prog B) : prog B :=
  match p with
  | Ret a => f a
  | Do o k => Do o (λ r, prog_bind (k r) f)
  end.

#[export] Instance prog_mret : MRet prog := λ A a, Ret a.
#[export] Instance prog_mbind : MBind prog := λ A B f p, prog_bind p f.

Definition act {R} (o : op R) : prog R := Do o Ret.

(** ** The methods *)

Section methods.
Context (cb : CircuitBreaker).
Let cfg : BreakerConfig := cb_config cb.

Definition state : prog BreakerState := v ← act LoadState; mret (from_u8 v).

Definition is_open : prog bool := act LoadFast.

Definition elapsed_millis_at (now : Instant) : Z :=
  as_millis_u64 (saturating_duration_since now (cb_baseline cb)).

Definition elapsed_millis : prog Z := now ← act ClockNow; mret (elapsed_millis_at now).

(** Inside the critical section of [record] in the closed state. *)
Definition sample (is_failure : bool) (now : Instant) (w : SlidingWindow) : SlidingWindow :=
  window_evict (window_push w is_failure now) (window_duration cfg) now.

Definition should_trip (w : SlidingWindow) : bool :=
  bool_decide (min_samples cfg ≤ window_sample_count w)%Z
  && f64_ge (window_error_rate w) (error_rate_threshold cfg).

Definition trip (prev : BreakerState) (reason : string) : prog unit :=
  _ ← act (StoreState (state_u8 Open));
  now ← elapsed_millis;
  _ ← act (StoreOpened now);
  _ ← act (StoreProbes 0);
  _ ← act (StoreFast true);
  if decide (prev ≠ Open) then act (Notify (OnStateChange prev Open reason)) else mret ().

Definition close (prev : BreakerState) (reason : string) : prog unit :=
  _ ← act (StoreState (state_u8 Closed));
  _ ← act (LockedWindow (λ w, ((), window_clear w)));
  _ ← act (StoreProbes 0);
  _ ← act (StoreFast false);
  if decide (prev ≠ Closed) then act (Notify (OnStateChange prev Closed reason)) else mret ().

Definition HALF_OPEN_PROBE_BACKOFF : Duration := from_millis 50.

Definition try_half_open_probe : prog (unit + BreakerOpen) :=
  now ← elapsed_millis;
  prev ← act FetchAddProbes;
  if decide (prev < half_open_max_probes cfg)%Z then
    _ ← act (StoreClaimed now);
    _ ← act (Notify (OnProbeAdmission true));
    mret (inl ())
  else
    _ ← act FetchSubProbes;
    let lease_millis := as_millis_u64 (open_duration cfg) in
    claimed ← act LoadClaimed;
    won ← (if decide (lease_millis ≤ saturating_sub now claimed)%Z
           then act (CasClaimed claimed now) else mret false);
    if won : bool then
      _ ← act (Notify (OnProbeAdmission true));
      mret (inl ())
    else
      _ ← act (Notify (OnProbeAdmission false));
      mret (inr {| retry_after := Z.min HALF_OPEN_PROBE_BACKOFF (open_duration cfg) |}).

Definition cas_state (from to : BreakerState) : prog bool :=
  act (CasState (state_u8 from) (state_u8 to)).

Definition check_open : prog (unit + BreakerOpen) :=
  opened ← act LoadOpened;
  now ← elapsed_millis;
  let elapsed := from_millis (saturating_sub now opened) in
  if decide (open_duration cfg ≤ elapsed)%Z then
    won ← cas_state Open HalfOpen;
    if won : bool then
      _ ← act (StoreFast false);
      _ ← act (Notify (OnStateChange Open HalfOpen "open_elapsed"));
      try_half_open_probe
    else
      s ← state;
      match s with
      | Closed => mret (inl ())
      | HalfOpen => try_half_open_probe
      | Open =>
          opened ← act LoadOpened;
          now ← elapsed_millis;
          let elapsed := from_millis (saturating_sub now opened) in
          mret (inr {| retry_after := duration_saturating_sub (open_duration cfg) elapsed |})
      end
  else mret (inr {| retry_after := duration_saturating_sub (open_duration cfg) elapsed |}).

Definition check : prog (unit + BreakerOpen) :=
  if negb (enabled cfg) then mret (inl ())
  else
    s ← state;
    match s with
    | Closed => mret (inl ())
    | Open => check_open
    | HalfOpen => try_half_open_probe
    end.

Definition record (outcome : Outcome) : prog unit :=
  if negb (enabled cfg) then mret ()
  else
    let is_failure := bool_decide (outcome = Failure) in
    now ← act ClockNow;
    prev_state ← state;
    _ ← match prev_state with
        | Closed =>
            tripped ← act (LockedWindow (λ w, let w := sample is_failure now w in (should_trip w, w)));
            if tripped : bool then trip prev_state "trip" else mret ()
        | HalfOpen =>
            if is_failure then trip prev_state "probe_failure"
            else close prev_state "probe_success"
        | Open => act (LockedWindow (λ w, ((), sample is_failure now w)))
        end;
    new_state ← state;
    act (Notify (OnOutcome outcome new_state)).

Definition error_rate : prog f64 :=
  now ← act ClockNow;
  act (LockedWindow (λ w, let w := window_evict w (window_duration cfg) now in
                          (window_error_rate w, w))).

Definition is_failure_status (status : Z) : bool := config_is_failure_status cfg status.

Definition with_observer (o : nat) : prog unit := act (InstallObserver o).

End methods.

(** [with_clock]: clamp the probe limit and take the baseline. *)
Definition with_clock (config : BreakerConfig) (now : Instant) : CircuitBreaker * Shared :=
  ({| cb_config := {| window_duration := window_duration config;
                      min_samples := min_samples config;
                      error_rate_threshold := error_rate_threshold config;
                      open_duration := open_duration config;
                      half_open_max_probes := Z.max (half_open_max_probes config) 1;
                      failure_codes := failure_codes config; enabled := enabled config |};
      cb_baseline := now |},
   {| sh_state := state_u8 Closed; sh_opened_at_millis := 0; sh_half_open_probes := 0;
      sh_probe_claimed_at_millis := 0; sh_is_open_fast := false; sh_window := window_new;
      sh_observer := None; sh_clock := now; sh_callbacks := [] |}).

(** ** Interleaving *)

(** The public calls; a reply carries what the caller sees. *)
Inductive Call :=
  | CCheck | CRecord (o : Outcome) | CState | CIsOpen | CErrorRate | CWithObserver (o : nat).

Inductive Reply :=
  | RCheck (r : unit + BreakerOpen) | RUnit | RState (s : BreakerState) | RBool (b : bool)
  | RRate (f : f64).

Definition call_prog (cb : CircuitBreaker) (c : Call) : prog Reply :=
  match c with
  | CCheck => r ← check cb; mret (RCheck r)
  | CRecord o => _ ← record cb o; mret RUnit
  | CState => s ← state; mret (RState s)
  | CIsOpen => b ← is_open; mret (RBool b)
  | CErrorRate => f ← error_rate cb; mret (RRate f)
  | CWithObserver o => _ ← with_observer o; mret RUnit
  end.

(** Threads over one breaker; a finished thread is a [Ret]. *)
Record Pool := { pl_shared : Shared; pl_threads : list (prog Reply) }.

(** [allowed] limits the calls that may begin. *)
Inductive pool_step (cb : CircuitBreaker) (allowed : Call → Prop) : Pool → Pool → Prop :=
  | pool_atomic s ts i R (o : op R) k r s' :
      ts !! i = Some (Do o k) → exec o s = (r, s') →
      pool_step cb allowed {| pl_shared := s; pl_threads := ts |}
                           {| pl_shared := s'; pl_threads := <[i := k r]> ts |}
  | pool_clock s ts t :
      (sh_clock s ≤ t)%Z →
      pool_step cb allowed {| pl_shared := s; pl_threads := ts |}
                           {| pl_shared := set_clock s t; pl_threads := ts |}
  | pool_call s ts c :
      allowed c →
      pool_step cb allowed {| pl_shared := s; pl_threads := ts |}
                           {| pl_shared := s; pl_threads := ts ++ [call_prog cb c] |}.

(** The same steps as a program: a schedule names the thread to run next. *)
Inductive Choice := Run (i : nat) | Wait (d : Duration) | Begin (c : Call).

Definition pool_choose (cb : CircuitBreaker) (p : Pool) (c : Choice) : Pool :=
  match c with
  | Run i =>
      match pl_threads p !! i with
      | Some (Do o k) =>
          let '(r, s) := exec o (pl_shared p) in
          {| pl_shared := s; pl_threads := <[i := k r]> (pl_threads p) |}
      | _ => p
      end
  | Wait d => {| pl_shared := set_clock (pl_shared p) (sh_clock (pl_shared p) + Z.max 0 d);
                 pl_threads := pl_threads p |}
  | Begin c => {| pl_shared := pl_shared p; pl_threads := pl_threads p ++ [call_prog cb c] |}
  end.

Definition pool_run (cb : CircuitBreaker) (cs : list Choice) (p : Pool) : Pool :=
  foldl (pool_choose cb) p cs.

Definition replies (p : Pool) : list (option Reply) :=
  (λ t, match t with Ret r => Some r | Do _ _ => None end) <$> pl_threads p.

(** ** One call alone *)

(** [solo p s a s']: [p] runs from [s] to its end with no other thread and
    returns [a]; the clock may advance before every operation. *)
Fixpoint solo {A} (p : prog A) (s : Shared) (a : A) (s' : Shared) : Prop :=
  match p with
  | Ret x => a = x ∧ s' = s
  | Do o k =>
      ∃ t, (sh_clock s ≤ t)%Z ∧ let '(r, s1) := exec o (set_clock s t) in solo (k r) s1 a s'
  end.

(** The frozen-clock execution, for tests of the model. *)
Fixpoint run {A} (p : prog A) (s : Shared) : A * Shared :=
  match p with
  | Ret a => (a, s)
  | Do o k => let '(r, s) := exec o s in run (k r) s
  end.

(** ** The registry *)

(** An [Arc<CircuitBreaker>] is an index into the breakers created so far. *)
Record CircuitBreakerRegistry := {
  rg_config : BreakerConfig;
  rg_breakers : gmap string nat;
  rg_arcs : list (CircuitBreaker * Shared);
}.

Definition registry_new (config : BreakerConfig) : CircuitBreakerRegistry :=
  {| rg_config := config; rg_breakers := ∅; rg_arcs := [] |}.

Definition registry_get (r : CircuitBreakerRegistry) (key : string) (now : Instant)
    : option nat * CircuitBreakerRegistry :=
  if negb (enabled (rg_config r)) then (None, r)
  else match rg_breakers r !! key with
       | Some cb => (Some cb, r)
       | None =>
           let cb := length (rg_arcs r) in
           (Some cb,
            {| rg_config := rg_config r; rg_breakers := <[key := cb]> (rg_breakers r);
               rg_arcs := rg_arcs r ++ [with_clock (rg_config r) now] |})
       end.

(** ** Retry policy ([retry_policy.rs]) *)

Inductive Disposition := Retryable | AuthRefresh | Terminal.

#[export] Instance Disposition_eq_dec : EqDecision Disposition.
Proof. solve_decision. Defined.

Record RetryPolicy := {
  rp_retryable : list Z;
  rp_auth_refresh : list Z;
  rp_terminal : list Z;
  rp_default : Disposition;
}.

Definition classify (p : RetryPolicy) (status : Z) : option Disposition :=
  if decide (200 ≤ status < 300)%Z then None
  else if decide (status ∈ rp_auth_refresh p) then Some AuthRefresh
  else if decide (status ∈ rp_terminal p) then Some Terminal
  else if decide (status ∈ rp_retryable p ∨ 500 ≤ status < 600)%Z then Some Retryable
  else Some (rp_default p).

Definition should_retry (p : RetryPolicy) (status : Z) : bool :=
  bool_decide (classify p status = Some Retryable).

Definition policy_server : RetryPolicy := {|
  rp_retryable := [429%Z]; rp_auth_refresh := []; rp_terminal := []; rp_default := Terminal |}.

Definition policy_client_storage : RetryPolicy := {|
  rp_retryable := []; rp_auth_refresh := [401%Z]; rp_terminal := [400; 403; 404]%Z;
  rp_default := Retryable |}.
