(* ===== verification/BreakerFacts.v ===== *)
(** * Reasoning about breaker programs

    [always I P p]: every operation of [p] preserves [I] whatever the other
    threads do, and every value [p] returns satisfies [P].  A pool of such
    threads keeps [I].  [solo] runs are inverted one operation at a time. *)

From S2P Require Import Prelude Text Window Breaker.

(** ** Invariants of every interleaving *)

Definition state_valid (v : Z) : Prop := v = 0%Z ∨ v = 1%Z ∨ v = 2%Z.

Record shared_ok (s : Shared) : Prop := {
  so_state : state_valid (sh_state s);
  so_window : window_ok (sh_window s);
  so_probes : (0 ≤ sh_half_open_probes s < 2 ^ 64)%Z;
}.

Definition op_ok {R} (o : op R) : Prop := ∀ s, shared_ok s → shared_ok (exec o s).2.

Fixpoint always {A} (P : A → Prop) (p : prog A) : Prop :=
  match p with
  | Ret a => P a
  | Do o k => op_ok o ∧ ∀ r, always P (k r)
  end.

Lemma always_bind {A B} (P : A → Prop) (Q : B → Prop) p (f : A → prog B) :
  always P p → (∀ a, P a → always Q (f a)) → always Q (prog_bind p f).
Proof.
  intros Hp Hf. induction p as [a|R o k IH]; simpl in *; [by apply Hf|].
  destruct Hp as [Ho Hk]. split; [done|]. intros r. by apply IH.
Qed.

Lemma always_mono {A} (P Q : A → Prop) p : always P p → (∀ a, P a → Q a) → always Q p.
Proof.
  intros Hp HPQ. induction p as [a|R o k IH]; simpl in *; [by apply HPQ|].
  destruct Hp as [Ho Hk]. split; [done|]. intros r. by apply IH.
Qed.

Lemma state_valid_u8 b : state_valid (state_u8 b).
Proof. unfold state_valid. destruct b; simpl; auto. Qed.

Lemma from_state_u8 b : from_u8 (state_u8 b) = b.
Proof. by destruct b. Qed.

Lemma state_u8_from v : state_valid v → state_u8 (from_u8 v) = v.
Proof. by intros [->|[->| ->]]. Qed.

(** ** Time *)

(** The millisecond counter does not go back before it wraps. *)
Lemma elapsed_mono cb t t' :
  (t ≤ t')%Z → (t' - cb_baseline cb < 2 ^ 64 * 10 ^ 6)%Z →
  (elapsed_millis_at cb t ≤ elapsed_millis_at cb t')%Z.
Proof.
  intros Ht Hb. unfold elapsed_millis_at, as_millis_u64, saturating_duration_since.
  assert (∀ x, x ≤ t' → Z.max 0 (x - cb_baseline cb) / 10 ^ 6 < 2 ^ 64)%Z as Hr.
  { intros x Hx. apply Z.div_lt_upper_bound; lia. }
  rw !wrap64_small.
  - apply Z.div_le_mono; lia.
  - split; [apply Z.div_pos; lia|apply Hr; lia].
  - split; [apply Z.div_pos; lia|apply Hr; lia].
Qed.

Lemma exec_clock {R} (o : op R) s : sh_clock (exec o s).2 = sh_clock s.
Proof.
  destruct o; simpl; try done; repeat case_decide; try done; try by destruct (sh_observer s).
  by destruct (f (sh_window s)).
Qed.

(** ** Operations *)

(** An operation that writes neither the state, the window nor the counter. *)
Ltac op_frame := intros s [???]; simpl; repeat case_decide; simpl; by constructor.

Lemma op_ok_load_state : op_ok LoadState. Proof. op_frame. Qed.
Lemma op_ok_load_opened : op_ok LoadOpened. Proof. op_frame. Qed.
Lemma op_ok_store_opened v : op_ok (StoreOpened v). Proof. op_frame. Qed.
Lemma op_ok_load_claimed : op_ok LoadClaimed. Proof. op_frame. Qed.
Lemma op_ok_store_claimed v : op_ok (StoreClaimed v). Proof. op_frame. Qed.
Lemma op_ok_cas_claimed a b : op_ok (CasClaimed a b). Proof. op_frame. Qed.
Lemma op_ok_load_fast : op_ok LoadFast. Proof. op_frame. Qed.
Lemma op_ok_store_fast b : op_ok (StoreFast b). Proof. op_frame. Qed.
Lemma op_ok_clock : op_ok ClockNow. Proof. op_frame. Qed.
Lemma op_ok_install o : op_ok (InstallObserver o).
Proof. intros s [???]. simpl. by destruct (sh_observer s). Qed.
Lemma op_ok_notify e : op_ok (Notify e).
Proof. intros s [???]. simpl. by destruct (sh_observer s). Qed.

Lemma op_ok_store_state b : op_ok (StoreState (state_u8 b)).
Proof. intros s [???]. split; [apply state_valid_u8|done..]. Qed.
Lemma op_ok_cas_state v b : op_ok (CasState v (state_u8 b)).
Proof. intros s [???]. simpl. case_decide; [|done]. split; [apply state_valid_u8|done..]. Qed.
Lemma op_ok_fetch_add : op_ok FetchAddProbes.
Proof. intros s [???]. split; [done..|apply wrap64_range]. Qed.
Lemma op_ok_fetch_sub : op_ok FetchSubProbes.
Proof. intros s [???]. split; [done..|apply wrap64_range]. Qed.
Lemma op_ok_store_probes : op_ok (StoreProbes 0).
Proof. by intros s [???]. Qed.
Lemma op_ok_window {R} (f : SlidingWindow → R * SlidingWindow) :
  (∀ w, window_ok w → window_ok (f w).2) → op_ok (LockedWindow f).
Proof.
  intros Hf s [Hs Hw ?]. simpl. specialize (Hf _ Hw). by destruct (f (sh_window s)) as [r w].
Qed.

Create HintDb breaker.
#[export] Hint Resolve op_ok_load_state op_ok_load_opened op_ok_store_opened op_ok_load_claimed
  op_ok_store_claimed op_ok_cas_claimed op_ok_load_fast op_ok_store_fast op_ok_clock op_ok_install
  op_ok_notify op_ok_store_state op_ok_cas_state op_ok_fetch_add op_ok_fetch_sub
  op_ok_store_probes : breaker.

Lemma always_act {R} (o : op R) (Q : R → Prop) : op_ok o → (∀ r, Q r) → always Q (act o).
Proof. by split. Qed.

Lemma always_act_bind {R A} (o : op R) (f : R → prog A) Q :
  op_ok o → (∀ r, always Q (f r)) → always Q (act o ≫= f).
Proof. by split. Qed.

Lemma always_state_bind {A} (f : BreakerState → prog A) Q :
  (∀ s, always Q (f s)) → always Q (state ≫= f).
Proof. intros Hf. split; [auto with breaker|]. intros v. apply Hf. Qed.

Lemma always_elapsed_bind {A} cb (f : Z → prog A) Q :
  (∀ t, always Q (f t)) → always Q (elapsed_millis cb ≫= f).
Proof. intros Hf. split; [auto with breaker|]. intros v. apply Hf. Qed.

(** Walk a program: every operation is ok, every branch is taken. *)
Ltac walk :=
  repeat match goal with
  | |- always _ (let _ := _ in _) => cbv zeta
  | |- always _ (mret _) => simpl
  | |- always _ (mret ?a ≫= ?f) => change (mret a ≫= f) with (f a); cbv beta
  | |- always _ (act _) => apply always_act; [auto with breaker|intros ?]
  | |- always _ (act _ ≫= _) => apply always_act_bind; [auto with breaker|intros ?]
  | |- always _ (state ≫= _) => apply always_state_bind; intros ?
  | |- always _ (elapsed_millis _ ≫= _) => apply always_elapsed_bind; intros ?
  | |- always _ ((if decide _ then _ else _) ≫= _) => case_decide
  | |- always _ (if decide _ then _ else _) => case_decide
  | |- always _ (match ?b with _ => _ end) => destruct b eqn:?
  end.

Section breaker.
Context (cb : CircuitBreaker).

(** What a caller of [check] may be told. *)
Definition answer_ok (r : unit + BreakerOpen) : Prop :=
  match r with
  | inl _ => True
  | inr e => enabled (cb_config cb) = true ∧
             (retry_after e ≤ Z.max 0 (open_duration (cb_config cb)))%Z
  end.

Lemma always_try_probe :
  enabled (cb_config cb) = true → always answer_ok (try_half_open_probe cb).
Proof. intros He. unfold try_half_open_probe. walk; try done; (split; [done|simpl; lia]). Qed.

Lemma saturating_sub_nonneg a b : (0 ≤ saturating_sub a b)%Z.
Proof. unfold saturating_sub. lia. Qed.

Lemma always_check_open :
  enabled (cb_config cb) = true → always answer_ok (check_open cb).
Proof.
  intros He. unfold check_open, cas_state. walk; try done; try by apply always_try_probe.
  all: simpl; unfold duration_saturating_sub, from_millis, saturating_sub; split; [done|lia].
Qed.

Lemma always_check : always answer_ok (check cb).
Proof.
  unfold check. destruct (enabled _) eqn:He; cbn [negb]; [|done].
  walk; try done; [by apply always_check_open|by apply always_try_probe].
Qed.

Lemma always_trip prev reason : always (λ _, True) (trip cb prev reason).
Proof. unfold trip. walk; done. Qed.

Lemma always_close prev reason : always (λ _, True) (close prev reason).
Proof. unfold close. walk; try done. apply op_ok_window. auto with window. Qed.

Lemma sample_ok b now w : window_ok w → window_ok (sample cb b now w).
Proof. unfold sample. auto with window. Qed.

Lemma always_record o : always (λ _, True) (record cb o).
Proof.
  unfold record. destruct (enabled _); cbn [negb]; [|done]. walk.
  apply (always_bind (λ _, True)); [|by intros; walk].
  destruct s; walk; try done; try apply always_trip; try apply always_close;
    apply op_ok_window; intros w Hw; by apply sample_ok.
Qed.

(** What a reply may be, whatever the interleaving. *)
Definition reply_ok (r : Reply) : Prop :=
  match r with RCheck r => answer_ok r | _ => True end.

Lemma always_call c : always reply_ok (call_prog cb c).
Proof.
  destruct c; unfold call_prog.
  - apply (always_bind answer_ok); [apply always_check|done].
  - apply (always_bind (λ _, True)); [apply always_record|done].
  - by walk.
  - unfold is_open. by walk.
  - unfold error_rate. apply (always_bind (λ _, True)); [|done]. walk; [|done].
    apply op_ok_window. intros w Hw. simpl. auto with window.
  - unfold with_observer. by walk.
Qed.

Definition pool_ok (p : Pool) : Prop :=
  shared_ok (pl_shared p) ∧ Forall (always reply_ok) (pl_threads p).

Lemma pool_ok_step allowed p p' : pool_step cb allowed p p' → pool_ok p → pool_ok p'.
Proof.
  intros Hs [Hsh Hts]. destruct Hs as [s ts i R o k r s' Hi He|s ts t Ht|s ts c Hc]; simpl in *.
  - pose proof (Forall_lookup_1 _ _ _ _ Hts Hi) as [Ho Hk]. split; simpl.
    + specialize (Ho s Hsh). by rw He in Ho.
    + by apply Forall_insert.
  - split; [by destruct Hsh|done].
  - split; [done|]. apply Forall_app. split; [done|]. constructor; [apply always_call|done].
Qed.
End breaker.

Lemma pool_ok_run cb allowed p p' : rtc (pool_step cb allowed) p p' → pool_ok cb p → pool_ok cb p'.
Proof. induction 1 as [|p p1 p2 Hs _ IH]; [done|]. intros Hp. apply IH. by eapply pool_ok_step. Qed.

Lemma pool_ok_reachable config now cb s allowed p :
  with_clock config now = (cb, s) →
  rtc (pool_step cb allowed) {| pl_shared := s; pl_threads := [] |} p → pool_ok cb p.
Proof.
  intros [= <- <-] Hr. apply (pool_ok_run _ _ _ _ Hr). split; [|constructor].
  split; [by left|apply window_ok_new|simpl; lia].
Qed.
