(* ===== verification/BreakerBurst.v ===== *)
(** * A burst of concurrent [check]s

    Any number of threads call [check] on a breaker that is open or half open
    and whose probe counter is zero.  Each thread carries a ghost state: it holds
    nothing, has bumped the counter past the limit and not yet undone it, holds a
    probe slot, or has taken over an expired claim.  Counting ghosts bounds the
    admissions of every interleaving. *)

From S2P Require Import Prelude Text Window Breaker BreakerFacts.

Inductive ghost := Idle | Transient | Slot | Claimer.

#[export] Instance ghost_eq_dec : EqDecision ghost.
Proof. solve_decision. Defined.

Definition count (g : ghost) (gs : list ghost) : Z := Z.of_nat (length (filter (.= g) gs)).
Definition weight (g x : ghost) : Z := (if decide (x = g) then 1 else 0)%Z.

Lemma count_cons g x gs : count g (x :: gs) = (weight g x + count g gs)%Z.
Proof. unfold count, weight. rw filter_cons. case_decide; simpl; lia. Qed.

Lemma count_snoc g gs x : count g (gs ++ [x]) = (count g gs + weight g x)%Z.
Proof. unfold count, weight. rw filter_app length_app filter_cons. case_decide; simpl; lia. Qed.

Lemma count_insert g gs i x y :
  gs !! i = Some x → count g (<[i := y]> gs) = (count g gs - weight g x + weight g y)%Z.
Proof.
  revert i. induction gs as [|z gs IH]; intros [|i] Hi; try done; simpl in *; rw !count_cons.
  - simplify_eq. lia.
  - rw IH //. lia.
Qed.

Lemma count_nonneg g gs : (0 ≤ count g gs)%Z.
Proof. unfold count. lia. Qed.

Lemma count_length gs : (count Slot gs + count Transient gs ≤ Z.of_nat (length gs))%Z.
Proof.
  induction gs as [|[] gs IH]; [done|rw !count_cons; cbn [length]; unfold weight; simpl; lia..].
Qed.

Definition admitted_reply (t : prog Reply) : bool :=
  match t with Ret (RCheck (inl _)) => true | _ => false end.

(** The calls let through so far. *)
Definition admitted (p : Pool) : Z :=
  Z.of_nat (length (filter (λ t, admitted_reply t = true) (pl_threads p))).

(** ** Time along a run *)

Lemma pool_step_mono cb allowed p p' :
  pool_step cb allowed p p' →
  (sh_clock (pl_shared p) ≤ sh_clock (pl_shared p'))%Z ∧
  (length (pl_threads p) ≤ length (pl_threads p'))%nat.
Proof.
  destruct 1 as [s ts i R o k r s' Hi He|s ts t Ht|s ts c Hc]; simpl.
  - pose proof (exec_clock o s) as Hc. rw He /= in Hc. rw length_insert. lia.
  - lia.
  - rw length_app. lia.
Qed.

Lemma pool_run_mono cb allowed p p' :
  rtc (pool_step cb allowed) p p' →
  (sh_clock (pl_shared p) ≤ sh_clock (pl_shared p'))%Z ∧
  (length (pl_threads p) ≤ length (pl_threads p'))%nat.
Proof.
  induction 1 as [|p p1 p2 Hs _ IH]; [lia|]. pose proof (pool_step_mono _ _ _ _ Hs). lia.
Qed.

Section burst.
Context (cb : CircuitBreaker) (T0 : Z) (c0 : Z).
Let cfg := cb_config cb.
Let lease := as_millis_u64 (open_duration cfg).
Let max_probes := half_open_max_probes cfg.

(** Milliseconds less than one lease after [T0]. *)
Definition in_lease (n : Z) : Prop := (T0 ≤ n < T0 + lease)%Z.

Fixpoint good (g : ghost) (p : prog Reply) : Prop :=
  match p with
  | Ret (RCheck (inl _)) => g = Slot ∨ g = Claimer
  | Ret (RCheck (inr _)) => g = Idle
  | Ret _ => False
  | Do o k =>
      match o in op R return (R → ghost → Prop) → Prop with
      | LoadState => λ K, ∀ v, v = 1%Z ∨ v = 2%Z → K v g
      | CasState _ to => λ K, to = 2%Z ∧ ∀ b, K b g
      | LoadOpened => λ K, ∀ v, K v g
      | FetchAddProbes =>
          λ K, g = Idle ∧ ∀ prev, K prev (if decide (prev < max_probes)%Z then Slot else Transient)
      | FetchSubProbes => λ K, g = Transient ∧ ∀ v, K v Idle
      | LoadClaimed => λ K, ∀ v, K v g
      | StoreClaimed n => λ K, in_lease n ∧ K () g
      | CasClaimed c n => λ K, g = Idle ∧ in_lease n ∧ ¬ in_lease c ∧ K true Claimer ∧ K false Idle
      | StoreFast _ => λ K, K () g
      | ClockNow => λ K, ∀ t, in_lease (elapsed_millis_at cb t) → K t g
      | Notify _ => λ K, K () g
      | _ => λ _, False
      end (λ r g', good g' (k r))
  end.

Lemma good_try :
  good Idle (try_half_open_probe cb ≫= λ r, mret (RCheck r)).
Proof.
  simpl. intros t Ht. split; [done|]. intros prev. unfold max_probes, cfg.
  destruct (decide (prev < _)%Z) as [Hp|Hp]; simpl; [by auto|].
  split; [done|]. intros _ claimed. destruct (decide (_ ≤ _)%Z) as [Hl|Hl]; simpl; [|done].
  split; [done|]. split; [done|]. split; [|by auto].
  unfold in_lease, saturating_sub, lease, cfg in *. lia.
Qed.

Lemma good_check : enabled cfg = true → good Idle (call_prog cb CCheck).
Proof.
  intros He. unfold call_prog, check. fold cfg. rw He. cbn [negb]. simpl.
  intros v [->| ->]; simpl; [|apply good_try].
  intros opened t Ht. destruct (decide (_ ≤ _)%Z) as [Hd|Hd]; simpl; [|done].
  split; [done|]. intros [|]; simpl; [apply good_try|].
  intros v [->| ->]; simpl; [done|apply good_try].
Qed.

Lemma good_admitted gs ts :
  Forall2 good gs ts →
  (Z.of_nat (length (filter (λ t, admitted_reply t = true) ts)) ≤ count Slot gs + count Claimer gs)%Z.
Proof.
  induction 1 as [|g t gs ts Hg _ IH]; [done|]. rw filter_cons !count_cons.
  assert (0 ≤ weight Slot g ∧ 0 ≤ weight Claimer g)%Z as [??]
    by (unfold weight; split; case_decide; lia).
  case_decide as Ha; cbn [length]; [|lia].
  destruct t as [[[]| | | |]|]; try done. destruct Hg as [-> | ->]; unfold weight; simpl; lia.
Qed.

(** ** The invariant *)

Definition takeovers : Z := (if decide (in_lease c0) then 0 else 1)%Z.

Record burst_inv (s : Shared) (ts : list (prog Reply)) (gs : list ghost) : Prop := {
  bi_good : Forall2 good gs ts;
  bi_state : sh_state s = 1%Z ∨ sh_state s = 2%Z;
  bi_probes : sh_half_open_probes s = (count Slot gs + count Transient gs)%Z;
  bi_slots : (count Slot gs ≤ max_probes)%Z;
  bi_claims :
    count Claimer gs = 0%Z ∧ sh_probe_claimed_at_millis s = c0 ∨
    in_lease (sh_probe_claimed_at_millis s) ∧ (count Claimer gs ≤ takeovers)%Z;
}.

(** A thread moves on; its ghost changes from [g] to [g']. *)
Lemma burst_move s ts gs i g g' t' s' :
  burst_inv s ts gs → gs !! i = Some g → good g' t' →
  (sh_state s' = 1%Z ∨ sh_state s' = 2%Z) →
  sh_half_open_probes s' =
    (sh_half_open_probes s - weight Slot g - weight Transient g
       + weight Slot g' + weight Transient g')%Z →
  (count Slot gs - weight Slot g + weight Slot g' ≤ max_probes)%Z →
  (∀ n, n = (count Claimer gs - weight Claimer g + weight Claimer g')%Z →
     n = 0%Z ∧ sh_probe_claimed_at_millis s' = c0 ∨
     in_lease (sh_probe_claimed_at_millis s') ∧ (n ≤ takeovers)%Z) →
  burst_inv s' (<[i := t']> ts) (<[i := g']> gs).
Proof.
  intros [Hg Hs Hp Hsl Hc] Hi Ht Hs' Hp' Hsl' Hc'. split; [by apply Forall2_insert|done|..].
  - rw !(count_insert _ _ _ _ _ Hi). lia.
  - by rw (count_insert _ _ _ _ _ Hi).
  - apply Hc'. apply (count_insert _ _ _ _ _ Hi).
Qed.

(** An operation that keeps the ghost and the three variables. *)
Lemma burst_keep s ts gs i g t' s' :
  burst_inv s ts gs → gs !! i = Some g → good g t' →
  (sh_state s' = 1%Z ∨ sh_state s' = 2%Z) → sh_half_open_probes s' = sh_half_open_probes s →
  sh_probe_claimed_at_millis s' = sh_probe_claimed_at_millis s →
  burst_inv s' (<[i := t']> ts) gs.
Proof.
  intros Hi Hg Ht Hs Hp Hc. rw -(list_insert_id gs i g) //.
  eapply burst_move; [done..| | |]; [lia|destruct Hi; lia|]. intros n ->. rw Hc.
  replace (count Claimer gs - weight Claimer g + weight Claimer g)%Z with (count Claimer gs) by lia.
  by apply Hi.
Qed.

Lemma burst_atomic {R} s ts gs i (o : op R) k r s' :
  burst_inv s ts gs → ts !! i = Some (Do o k) → exec o s = (r, s') →
  in_lease (elapsed_millis_at cb (sh_clock s)) → (Z.of_nat (length ts) < 2 ^ 64 - 1)%Z →
  ∃ gs', burst_inv s' (<[i := k r]> ts) gs'.
Proof.
  intros Hb Ht He Hl Hn. pose proof Hb as [Hg Hs Hp Hsl Hc].
  destruct (Forall2_lookup_r _ _ _ _ _ Hg Ht) as (g & Hi & Hgood).
  pose proof (Forall2_length _ _ _ Hg) as Hlen. pose proof (count_length gs) as Hcl.
  pose proof (count_nonneg Slot gs). pose proof (count_nonneg Transient gs).
  destruct o; simpl in Hgood, He; try done; simplify_eq;
    try (exists gs; eapply burst_keep; [done|done|naive_solver|done..]).
  - destruct Hgood as [-> Hk]. exists gs. case_decide; simplify_eq;
      (eapply burst_keep; [done|done|apply Hk|simpl; auto|done..]).
  - destruct Hgood as [-> Hk]. exists (<[i := if decide (sh_half_open_probes s < max_probes)%Z
                                           then Slot else Transient]> gs).
    eapply burst_move; [done|done|apply Hk|done|..]; simpl.
    + unfold wrapping_add. rw wrap64_small; [|lia]. case_decide; unfold weight; simpl; lia.
    + case_decide; unfold weight; simpl; lia.
    + intros n ->. case_decide; unfold weight; simpl; rw Z.sub_0_r Z.add_0_r; done.
  - destruct Hgood as [-> Hk]. exists (<[i := Idle]> gs).
    pose proof (count_insert Transient _ _ _ Idle Hi) as Hci.
    pose proof (count_nonneg Transient (<[i := Idle]> gs)). unfold weight in Hci; simpl in Hci.
    eapply burst_move; [done|done|apply Hk|done|..]; simpl.
    + unfold wrapping_sub. rw wrap64_small; unfold weight; simpl; lia.
    + unfold weight; simpl; lia.
    + intros n ->. unfold weight; simpl; rw Z.sub_0_r Z.add_0_r; done.
  - destruct Hgood as [Hv Hk]. exists gs. rw -(list_insert_id gs i g) //.
    eapply burst_move; [done|done|apply Hk|done|simpl; lia|lia|]. intros n ->. right. simpl.
    split; [done|]. unfold takeovers. destruct Hc as [[Hc _]|[_ Hc]]; [case_decide; lia|].
    unfold takeovers in Hc. lia.
  - destruct Hgood as (-> & Hn' & Hc0 & Hkt & Hkf). case_decide as Heq; simplify_eq.
    + exists (<[i := Claimer]> gs). eapply burst_move; [done|done|apply Hkt|done|..]; simpl.
      * unfold weight; simpl; lia.
      * unfold weight; simpl; lia.
      * intros n ->. right. split; [done|]. destruct Hc as [[Hc Hcc]|[Hc _]]; [|done].
        unfold takeovers. rw decide_False; [|by rw -Hcc]. unfold weight; simpl; lia.
    + exists gs. by eapply burst_keep.
  - exists gs. destruct (sh_observer s); by eapply burst_keep.
Qed.

(** ** Whole runs *)

(** Every clock reading of the run is less than one lease after [T0]. *)
Definition within (p : Pool) : Prop :=
  (sh_clock (pl_shared p) - cb_baseline cb < 2 ^ 64 * 10 ^ 6)%Z ∧
  (elapsed_millis_at cb (sh_clock (pl_shared p)) < T0 + lease)%Z ∧
  (Z.of_nat (length (pl_threads p)) < 2 ^ 64 - 1)%Z.

Lemma burst_step p p' gs :
  enabled cfg = true → pool_step cb (.= CCheck) p p' → within p' →
  (T0 ≤ elapsed_millis_at cb (sh_clock (pl_shared p)))%Z →
  burst_inv (pl_shared p) (pl_threads p) gs → ∃ gs', burst_inv (pl_shared p') (pl_threads p') gs'.
Proof.
  intros He [s ts i R o k r s' Hi Hx|s ts t Ht|s ts c ->] (Hb & Hl & Hn) HT Hinv; simpl in *.
  - pose proof (exec_clock o s) as Hc. rw Hx /= in Hc. rw Hc in Hl.
    rw length_insert in Hn. by eapply burst_atomic.
  - exists gs. by destruct Hinv.
  - exists (gs ++ [Idle]). destruct Hinv as [Hg Hs Hp Hsl Hc].
    split; rw ?count_snoc; unfold weight; simpl; rw ?Z.add_0_r; try done.
    apply Forall2_app; [done|]. constructor; [by apply good_check|constructor].
Qed.

Lemma burst_run p p' gs :
  enabled cfg = true → rtc (pool_step cb (.= CCheck)) p p' → within p' →
  (T0 ≤ elapsed_millis_at cb (sh_clock (pl_shared p)))%Z →
  burst_inv (pl_shared p) (pl_threads p) gs → ∃ gs', burst_inv (pl_shared p') (pl_threads p') gs'.
Proof.
  intros He Hr Hw. revert gs. induction Hr as [p|p p1 p2 Hs Hr IH]; intros gs HT Hinv; [eauto|].
  destruct (pool_run_mono _ _ _ _ Hr) as [Hc Hl].
  destruct (pool_run_mono _ _ _ _ (rtc_once _ _ Hs)) as [Hc1 _].
  destruct Hw as (Hb & Hlt & Hn).
  destruct (burst_step p p1 gs) as [gs1 H1]; [done..| |done|done|].
  { split; [lia|]. split; [|lia]. eapply Z.le_lt_trans; [|done]. by apply elapsed_mono. }
  eapply IH; [done| |done]. etrans; [done|]. apply elapsed_mono; [done|lia].
Qed.
End burst.
