(* ===== verification/BreakerSeq.v ===== *)
(** * A breaker used by one thread refines its abstract machine

    The abstract machine has no counters to keep consistent: it is closed on a
    window, open since an instant, or half open with a number of probe slots
    taken.  A quiescent memory ([seq_ok]) represents one of its states, and
    every call that runs alone is one of its steps. *)

From S2P Require Import Prelude Text Window Breaker BreakerFacts.

Inductive Abs :=
  | AClosed (w : SlidingWindow)
  | AOpen (w : SlidingWindow) (since : Z)
  | AHalf (w : SlidingWindow) (taken : Z) (claimed : Z).

Definition abs (s : Shared) : Abs :=
  match from_u8 (sh_state s) with
  | Closed => AClosed (sh_window s)
  | Open => AOpen (sh_window s) (sh_opened_at_millis s)
  | HalfOpen => AHalf (sh_window s) (sh_half_open_probes s) (sh_probe_claimed_at_millis s)
  end.

Definition abs_state (a : Abs) : BreakerState :=
  match a with AClosed _ => Closed | AOpen _ _ => Open | AHalf _ _ _ => HalfOpen end.

Definition abs_window (a : Abs) : SlidingWindow :=
  match a with AClosed w | AOpen w _ | AHalf w _ _ => w end.

Definition with_abs_window (a : Abs) (w : SlidingWindow) : Abs :=
  match a with
  | AClosed _ => AClosed w
  | AOpen _ since => AOpen w since
  | AHalf _ n c => AHalf w n c
  end.

Section spec.
Context (cb : CircuitBreaker).
Let cfg := cb_config cb.
Let ms := elapsed_millis_at cb.

(** [t1] is the instant at which the call decides, [t2] a later one. *)
Definition spec_check (t1 t2 : Instant) (a : Abs) : (unit + BreakerOpen) * Abs :=
  if negb (enabled cfg) then (inl (), a)
  else match a with
  | AClosed _ => (inl (), a)
  | AOpen w since =>
      let waited := from_millis (saturating_sub (ms t1) since) in
      if decide (open_duration cfg ≤ waited)%Z then (inl (), AHalf w 1 (ms t2))
      else (inr {| retry_after := duration_saturating_sub (open_duration cfg) waited |}, a)
  | AHalf w n c =>
      if decide (n < half_open_max_probes cfg)%Z then (inl (), AHalf w (n + 1) (ms t1))
      else if decide (as_millis_u64 (open_duration cfg) ≤ saturating_sub (ms t1) c)%Z then
        (inl (), AHalf w n (ms t1))
      else (inr {| retry_after := Z.min HALF_OPEN_PROBE_BACKOFF (open_duration cfg) |}, a)
  end.

Definition spec_record (t1 t2 : Instant) (o : Outcome) (a : Abs) : Abs :=
  if negb (enabled cfg) then a
  else match a with
  | AClosed w =>
      let w := sample cb (bool_decide (o = Failure)) t1 w in
      if should_trip cb w then AOpen w (ms t2) else AClosed w
  | AOpen w since => AOpen (sample cb (bool_decide (o = Failure)) t1 w) since
  | AHalf w n c => if decide (o = Failure) then AOpen w (ms t2) else AClosed window_new
  end.

(** One call of the abstract machine, at instants between its start and end. *)
Definition spec_call (t1 t2 : Instant) (c : Call) (a : Abs) : Reply * Abs :=
  match c with
  | CCheck => let '(r, a) := spec_check t1 t2 a in (RCheck r, a)
  | CRecord o => (RUnit, spec_record t1 t2 o a)
  | CState => (RState (abs_state a), a)
  | CIsOpen => (RBool (bool_decide (abs_state a = Open)), a)
  | CErrorRate =>
      let w := window_evict (abs_window a) (window_duration cfg) t1 in
      (RRate (window_error_rate w), with_abs_window a w)
  | CWithObserver _ => (RUnit, a)
  end.

End spec.

(** ** Running alone *)

Lemma solo_bind {A B} (p : prog A) (f : A → prog B) s b s' :
  solo (p ≫= f) s b s' ↔ ∃ a s1, solo p s a s1 ∧ solo (f a) s1 b s'.
Proof.
  change (p ≫= f) with (prog_bind p f). revert s.
  induction p as [a|R o k IH]; intros s; simpl.
  { split; [by intros H; exists a, s|]. by intros (? & ? & [-> ->] & H). }
  split.
  - intros (t & Ht & H). destruct (exec o (set_clock s t)) as [r s1] eqn:E.
    apply IH in H as (a & s2 & H1 & H2). exists a, s2. split; [|done].
    exists t. split; [done|]. by rw E.
  - intros (a & s2 & (t & Ht & H1) & H2). exists t. split; [done|].
    destruct (exec o (set_clock s t)) as [r s1]. apply IH. eauto.
Qed.

Lemma solo_act {R} (o : op R) s r s' :
  solo (act o) s r s' ↔ ∃ t, (sh_clock s ≤ t)%Z ∧ exec o (set_clock s t) = (r, s').
Proof.
  simpl. split.
  - intros (t & Ht & H). exists t. split; [done|]. by destruct (exec _ _) as [??], H as [-> ->].
  - intros (t & Ht & H). exists t. split; [done|]. by rw H.
Qed.

(** A call alone always ends: at a frozen clock it is [run]. *)
Lemma solo_run {A} (p : prog A) s : solo p s (run p s).1 (run p s).2.
Proof.
  revert s. induction p as [a|R o k IH]; intros s; simpl; [done|].
  exists (sh_clock s). split; [lia|]. replace (set_clock s (sh_clock s)) with s by (by destruct s).
  destruct (exec o s) as [r s1]. apply IH.
Qed.

Lemma solo_always {A} (P : A → Prop) (p : prog A) s a s' :
  always P p → shared_ok s → solo p s a s' → shared_ok s' ∧ P a.
Proof.
  revert s. induction p as [x|R o k IH]; simpl; intros s Hp Hs Hr; [by destruct Hr as [-> ->]|].
  destruct Hp as [Ho Hk], Hr as (t & _ & Hr).
  assert (shared_ok (set_clock s t)) as Ht by (by destruct Hs).
  specialize (Ho _ Ht). destruct (exec o (set_clock s t)) as [r s1].
  exact (IH r s1 (Hk r) Ho Hr).
Qed.

Lemma solo_mono {A} (p : prog A) s a s' : solo p s a s' → (sh_clock s ≤ sh_clock s')%Z.
Proof.
  revert s. induction p as [x|R o k IH]; simpl; intros s H; [by destruct H as [_ ->]|].
  destruct H as (t & Ht & H). pose proof (exec_clock o (set_clock s t)) as Hc. simpl in Hc.
  destruct (exec o (set_clock s t)) as [r s1]. apply IH in H. simpl in Hc. lia.
Qed.

Lemma wrapping_add_small a b : (0 ≤ a + b < 2 ^ 64)%Z → wrapping_add a b = (a + b)%Z.
Proof. apply wrap64_small. Qed.

Lemma wrap_add_sub n : (0 ≤ n < 2 ^ 64)%Z → wrapping_sub (wrapping_add n 1) 1 = n.
Proof.
  intros Hn. unfold wrapping_sub, wrapping_add, wrap64.
  rw Zminus_mod_idemp_l. replace (n + 1 - 1)%Z with n by lia. by apply Z.mod_small.
Qed.

#[local] Opaque wrap64 wrapping_add wrapping_sub as_millis_u64 elapsed_millis_at saturating_sub
  HALF_OPEN_PROBE_BACKOFF from_millis.

Lemma solo_act_bind {R A} (o : op R) (f : R → prog A) s b s' :
  solo (act o ≫= f) s b s' →
  ∃ t r s1, (sh_clock s ≤ t)%Z ∧ exec o (set_clock s t) = (r, s1) ∧ solo (f r) s1 b s'.
Proof. intros (r & s1 & (t & Ht & E)%solo_act & H)%solo_bind. by exists t, r, s1. Qed.

Lemma solo_elapsed_bind {A} cb (f : Z → prog A) s b s' :
  solo (elapsed_millis cb ≫= f) s b s' →
  ∃ t, (sh_clock s ≤ t)%Z ∧ solo (f (elapsed_millis_at cb t)) (set_clock s t) b s'.
Proof. intros (t & Ht & H). by exists t. Qed.

Lemma solo_state_bind {A} (f : BreakerState → prog A) s b s' :
  solo (state ≫= f) s b s' →
  ∃ t, (sh_clock s ≤ t)%Z ∧ solo (f (from_u8 (sh_state s))) (set_clock s t) b s'.
Proof. intros (t & Ht & H). by exists t. Qed.

(** The variables of the breaker; a callback leaves them alone. *)
Definition vars (s : Shared) :=
  (sh_state s, sh_opened_at_millis s, sh_half_open_probes s, sh_probe_claimed_at_millis s,
   sh_is_open_fast s, sh_window s).

Lemma solo_notify e s b s' :
  solo (act (Notify e)) s b s' → (sh_clock s ≤ sh_clock s')%Z ∧ vars s' = vars s.
Proof. intros (t & Ht & [= _ <-])%solo_act. simpl. by destruct (sh_observer s). Qed.

Lemma solo_notify_bind {A} e (f : unit → prog A) s b s' :
  solo (act (Notify e) ≫= f) s b s' →
  ∃ s1, (sh_clock s ≤ sh_clock s1)%Z ∧ vars s1 = vars s ∧ solo (f ()) s1 b s'.
Proof. intros ([] & s1 & [Ht Hv]%solo_notify & H)%solo_bind. by exists s1. Qed.

(** Take the next operation of a run apart. *)
Ltac solo_one H :=
  let t := fresh "t" in let Ht := fresh "Ht" in
  lazymatch type of H with
  | solo (mret _) _ _ _ =>
      let Ha := fresh in let Hb := fresh in destruct H as [Ha Hb]; subst; try clear Ha
  | solo (mret ?a ≫= ?f) ?s ?b ?s' => change (solo (f a) s b s') in H; cbv beta in H
  | solo (elapsed_millis _ ≫= _) _ _ _ => apply solo_elapsed_bind in H as (t & Ht & H)
  | solo (state ≫= _) _ _ _ => apply solo_state_bind in H as (t & Ht & H)
  | solo (act (Notify _) ≫= _) _ _ _ =>
      let s := fresh "s" in let Hv := fresh "Hv" in
      apply solo_notify_bind in H as (s & Ht & Hv & H); unfold vars in Hv; simplify_eq Hv; intros
  | solo (act (Notify _)) _ _ _ =>
      let Hv := fresh "Hv" in
      apply solo_notify in H as (Ht & Hv); unfold vars in Hv; simplify_eq Hv; intros
  | solo (act _ ≫= _) _ _ _ =>
      let r := fresh "r" in let s := fresh "s" in let E := fresh "E" in
      apply solo_act_bind in H as (t & r & s & Ht & E & H); cbn [exec] in E;
      try (injection E as <- <-)
  | solo (act _) _ _ _ =>
      let E := fresh "E" in
      apply solo_act in H as (t & Ht & E); cbn [exec] in E; try (injection E as <- <-)
  end; cbn [set_clock set_probes set_claimed set_state set_opened set_fast set_window sh_clock sh_state
            sh_opened_at_millis sh_half_open_probes sh_probe_claimed_at_millis sh_is_open_fast
            sh_window sh_observer] in *.

Section refine.
Context (cb : CircuitBreaker).
Let cfg := cb_config cb.
Let ms := elapsed_millis_at cb.

(** A memory between two calls. *)
Record seq_ok (s : Shared) : Prop := {
  sq_shared : shared_ok s;
  sq_fast : sh_is_open_fast s = bool_decide (from_u8 (sh_state s) = Open);
  sq_zero : from_u8 (sh_state s) ≠ HalfOpen → sh_half_open_probes s = 0%Z;
  sq_taken : (sh_half_open_probes s ≤ half_open_max_probes cfg)%Z;
}.

(** The effect of a probe attempt: state, opening time, mirror and window stay. *)
Definition probe_effect (t : Instant) (s : Shared) (r : unit + BreakerOpen) (s' : Shared) : Prop :=
  sh_state s' = sh_state s ∧ sh_opened_at_millis s' = sh_opened_at_millis s ∧
  sh_is_open_fast s' = sh_is_open_fast s ∧ sh_window s' = sh_window s ∧
  if decide (sh_half_open_probes s < half_open_max_probes cfg)%Z then
    r = inl () ∧ sh_half_open_probes s' = (sh_half_open_probes s + 1)%Z ∧
    sh_probe_claimed_at_millis s' = ms t
  else
    sh_half_open_probes s' = sh_half_open_probes s ∧
    if decide (as_millis_u64 (open_duration cfg)
               ≤ saturating_sub (ms t) (sh_probe_claimed_at_millis s))%Z then
      r = inl () ∧ sh_probe_claimed_at_millis s' = ms t
    else
      r = inr {| retry_after := Z.min HALF_OPEN_PROBE_BACKOFF (open_duration cfg) |} ∧
      sh_probe_claimed_at_millis s' = sh_probe_claimed_at_millis s.

Lemma solo_try_probe s r s' :
  shared_ok s → (half_open_max_probes cfg < 2 ^ 64)%Z →
  solo (try_half_open_probe cb) s r s' →
  ∃ t, (sh_clock s ≤ t ≤ sh_clock s')%Z ∧ probe_effect t s r s'.
Proof.
  intros [_ _ Hp] Hm H. unfold probe_effect, try_half_open_probe, ms in *.
  solo_one H. exists t. solo_one H. fold cfg in H. case_decide as Hlt.
  - pose proof (wrapping_add_small (sh_half_open_probes s) 1 ltac:(lia)).
    repeat solo_one H. split; [lia|]. split_and!; congruence.
  - pose proof (wrap_add_sub _ Hp). solo_one H. solo_one H. case_decide as Hl.
    + solo_one H. rw decide_True // in E. injection E as <- <-. repeat solo_one H.
      split; [lia|]. split_and!; congruence.
    + repeat solo_one H. split; [lia|]. split_and!; congruence.
Qed.

Lemma solo_trip prev reason s r s' :
  solo (trip cb prev reason) s r s' →
  ∃ t, (sh_clock s ≤ t ≤ sh_clock s')%Z ∧
    vars s' = (state_u8 Open, ms t, 0%Z, sh_probe_claimed_at_millis s, true, sh_window s).
Proof.
  unfold trip. intros H. solo_one H. solo_one H. exists t0. do 3 solo_one H.
  unfold vars, ms. case_decide; [solo_one H; split; [lia|assumption]|].
  destruct H as [_ ->]. split; [simpl; lia|done].
Qed.

Lemma solo_close prev reason s r s' :
  solo (close prev reason) s r s' →
  (sh_clock s ≤ sh_clock s')%Z ∧
  vars s' = (state_u8 Closed, sh_opened_at_millis s, 0%Z, sh_probe_claimed_at_millis s, false, window_new).
Proof.
  unfold close, window_clear. intros H. do 4 solo_one H.
  unfold vars, ms. case_decide; [solo_one H; split; [lia|assumption]|].
  destruct H as [_ ->]. split; [simpl; lia|done].
Qed.

Context (Hmax : (1 ≤ half_open_max_probes cfg < 2 ^ 64)%Z).

(** ** Each call alone is one step of the abstract machine *)

Lemma from_valid s : shared_ok s →
  (from_u8 (sh_state s) = Closed ∧ sh_state s = 0 ∨ from_u8 (sh_state s) = Open ∧ sh_state s = 1 ∨
   from_u8 (sh_state s) = HalfOpen ∧ sh_state s = 2)%Z.
Proof. intros [[H|[H|H]] _ _]; rw H; auto. Qed.

Lemma seq_ok_clock s t : seq_ok s → seq_ok (set_clock s t).
Proof. intros [[???]???]. split; [by split|done..]. Qed.

Lemma refine_probe s r s' :
  enabled cfg = true → seq_ok s → from_u8 (sh_state s) = HalfOpen →
  solo (try_half_open_probe cb) s r s' →
  ∃ t, (sh_clock s ≤ t ≤ sh_clock s')%Z ∧
    spec_check cb t t (abs s) = (r, abs s') ∧ seq_ok s'.
Proof.
  intros He [Hok Hfast Hzero Htaken] Hs H.
  destruct (solo_always _ _ _ _ _ (always_try_probe cb He) Hok H) as [Hok' _].
  destruct (solo_try_probe s r s' Hok ltac:(lia) H) as (t & Ht & Hst & Hop & Hfa & Hw & Heff).
  exists t. split; [done|]. unfold spec_check, abs. fold cfg. rw He Hst Hs Hw. cbn [negb].
  assert (seq_ok s' ↔ (sh_half_open_probes s' ≤ half_open_max_probes cfg)%Z) as Hsq.
  { split; [by intros []|]. intros Hle. split; rw ?Hst ?Hfa; done. }
  rw Hsq. fold ms. case_decide as Hlt.
  - destruct Heff as (-> & -> & ->). split; [done|lia].
  - destruct Heff as [-> Heff]. case_decide; destruct Heff as [-> ->]; by split.
Qed.

Lemma refine_check_open s r s' :
  enabled cfg = true → seq_ok s → from_u8 (sh_state s) = Open →
  solo (check_open cb) s r s' →
  ∃ t1 t2, (sh_clock s ≤ t1 ≤ t2 ∧ t2 ≤ sh_clock s')%Z ∧
    spec_check cb t1 t2 (abs s) = (r, abs s') ∧ seq_ok s'.
Proof.
  intros He Hsq Hs H. pose proof Hsq as [Hok Hfast Hzero Htaken].
  assert (sh_state s = 1%Z) as Hv by (destruct (from_valid s Hok) as [[]|[[]|[]]]; congruence).
  specialize (Hzero ltac:(congruence)). unfold check_open, cas_state in H. do 2 solo_one H.
  unfold spec_check, abs. rw Hs. fold cfg in H |- *. rw He. cbn [negb]. case_decide as Hd.
  - solo_one H. rw decide_True // in E. injection E as <- <-. do 2 solo_one H.
    assert (seq_ok s0) as Hsq0.
    { split; rw ?H0 ?H2 ?H4 ?Hzero; [|done..|lia].
      split; [rw H0; by right; right|rw H5; apply Hok|rw H2; apply Hok]. }
    destruct (refine_probe s0 r s' He Hsq0) as (t4 & Ht5 & Hspec & Hsq'); [by rw H0|done|].
    exists t0, t4. split; [lia|]. rw decide_True //. split; [|done].
    unfold spec_check, abs in Hspec. fold cfg in Hspec. rw He H0 /= H2 H3 H5 Hzero in Hspec.
    rw decide_True in Hspec; [|lia]. done.
  - solo_one H. exists t0, t0. split; [simpl; lia|]. rw decide_False //. simpl. rw Hs.
    split; [done|]. repeat apply seq_ok_clock. done.
Qed.

Lemma refine_check s r s' :
  seq_ok s → solo (check cb) s r s' →
  ∃ t1 t2, (sh_clock s ≤ t1 ≤ t2 ∧ t2 ≤ sh_clock s')%Z ∧
    spec_check cb t1 t2 (abs s) = (r, abs s') ∧ seq_ok s'.
Proof.
  intros Hsq H. pose proof Hsq as [Hok _ _ _]. unfold check in H. fold cfg in H.
  destruct (enabled cfg) eqn:He; cbn [negb] in H.
  2:{ solo_one H. exists (sh_clock s), (sh_clock s). unfold spec_check. fold cfg. rw He. done. }
  solo_one H. assert (seq_ok (set_clock s t)) as Hsqt by (by apply seq_ok_clock).
  change (abs s) with (abs (set_clock s t)). change (sh_state s) with (sh_state (set_clock s t)) in H.
  destruct (from_u8 (sh_state (set_clock s t))) eqn:Hs.
  - solo_one H. exists t, t. split; [simpl; lia|]. split; [|done].
    unfold spec_check, abs. fold cfg. by rw He Hs.
  - destruct (refine_check_open _ r s' He Hsqt Hs H) as (t1 & t2 & Ht12 & Hr).
    exists t1, t2. split; [simpl in Ht12; lia|done].
  - destruct (refine_probe _ r s' He Hsqt Hs H) as (t1 & Ht1 & Hr).
    exists t1, t1. split; [simpl in Ht1; lia|done].
Qed.

(** The abstraction and the invariant depend on the variables only. *)
Lemma abs_vars s s' : vars s' = vars s → abs s' = abs s.
Proof. unfold vars, abs. intros Hv. simplify_eq Hv. by intros -> -> -> -> _ ->. Qed.

Lemma seq_ok_vars s s' : vars s' = vars s → seq_ok s → seq_ok s'.
Proof.
  unfold vars. intros Hv [[???]???]. simplify_eq Hv. intros Hst Hop Hpr Hcl Hfa Hw.
  split; rw ?Hst ?Hpr ?Hfa; try done. by split; rw ?Hst ?Hpr ?Hw.
Qed.

(** What a call has written, when it is known. *)
Lemma seq_ok_closed s w op cl :
  vars s = (state_u8 Closed, op, 0%Z, cl, false, w) → window_ok w → seq_ok s ∧ abs s = AClosed w.
Proof.
  unfold vars, abs. intros Hv Hw. simplify_eq Hv. intros Hst Hop Hpr Hcl Hfa Hsw. rw Hst Hsw.
  split; [|done]. split; rw ?Hst ?Hpr ?Hfa; [|done..|lia]. split; rw ?Hst ?Hpr ?Hsw; [by left|done|lia].
Qed.

Lemma seq_ok_open s w op cl :
  vars s = (state_u8 Open, op, 0%Z, cl, true, w) → window_ok w → seq_ok s ∧ abs s = AOpen w op.
Proof.
  unfold vars, abs. intros Hv Hw. simplify_eq Hv. intros Hst Hop Hpr Hcl Hfa Hsw. rw Hst Hsw Hop.
  split; [|done]. split; rw ?Hst ?Hpr ?Hfa; [|done..|lia].
  split; rw ?Hst ?Hpr ?Hsw; [by right; left|done|lia].
Qed.

Lemma solo_outcome o s r s' :
  solo (state ≫= λ new_state, act (Notify (OnOutcome o new_state))) s r s' →
  (sh_clock s ≤ sh_clock s')%Z ∧ vars s' = vars s.
Proof. intros H. solo_one H. apply solo_notify in H as [Ht' Hv]. simpl in *. split; [lia|done]. Qed.

Lemma seq_window s w :
  seq_ok s → window_ok w → seq_ok (set_window s w) ∧ abs (set_window s w) = with_abs_window (abs s) w.
Proof.
  intros [[???]???] Hw. split; [split; [by split|done..]|].
  unfold abs. simpl. by destruct (from_u8 (sh_state s)).
Qed.

Lemma refine_record o s r s' :
  seq_ok s → solo (record cb o) s r s' →
  ∃ t1 t2, (sh_clock s ≤ t1 ≤ t2 ∧ t2 ≤ sh_clock s')%Z ∧
    spec_record cb t1 t2 o (abs s) = abs s' ∧ seq_ok s'.
Proof.
  intros Hsq H. pose proof Hsq as [Hok _ Hzero _].
  unfold record in H. unfold spec_record. fold cfg in H |- *.
  destruct (enabled cfg) eqn:He; cbn [negb] in *.
  2:{ solo_one H. exists (sh_clock s), (sh_clock s). done. }
  do 2 solo_one H. apply solo_bind in H as ([] & s1 & H & [Htail Hv]%solo_outcome).
  rw (abs_vars _ _ Hv). pose proof (seq_ok_vars _ _ Hv) as Hsq'. set (b := bool_decide (o = Failure)) in *.
  pose proof (sample_ok cb b t _ (so_window _ Hok)) as Hw.
  destruct (seq_window s _ Hsq Hw) as [Hsw Haw].
  unfold abs at 1. unfold abs at 2 in Haw. destruct (from_u8 (sh_state s)) eqn:Hs.
  - solo_one H. destruct (should_trip _ _) eqn:Hst.
    + apply solo_trip in H as (t2 & Ht2 & Hv2). simpl in Ht2. exists t, t2. split; [lia|]. rw Hst.
      destruct (seq_ok_open _ _ _ _ Hv2) as [? ->]; [done|]. auto.
    + solo_one H. exists t, t. split; [lia|]. rw Hst. split; [exact (eq_sym Haw)|]. apply Hsq'.
      by apply (seq_ok_vars (set_window s (sample cb b t (sh_window s)))).
  - solo_one H. injection E as <-. exists t, t. split; [simpl in *; lia|]. split; [exact (eq_sym Haw)|]. apply Hsq'.
    by apply (seq_ok_vars (set_window s (sample cb b t (sh_window s)))).
  - destruct o; simpl in b; subst b; cbv iota in H.
    + apply solo_close in H as (Ht2 & Hv2). simpl in Ht2. exists t, t. split; [lia|].
      destruct (seq_ok_closed _ _ _ _ Hv2) as [? ->]; [apply window_ok_new|]. auto.
    + apply solo_trip in H as (t2 & Ht2 & Hv2). simpl in Ht2. exists t, t2. split; [lia|].
      destruct (seq_ok_open _ _ _ _ Hv2) as [? ->]; [apply Hok|]. auto.
Qed.

Lemma refine_call c s r s' :
  seq_ok s → solo (call_prog cb c) s r s' →
  ∃ t1 t2, (sh_clock s ≤ t1 ≤ t2 ∧ t2 ≤ sh_clock s')%Z ∧
    spec_call cb t1 t2 c (abs s) = (r, abs s') ∧ seq_ok s'.
Proof.
  intros Hsq H. pose proof Hsq as [Hok Hfast _ _]. destruct c as [|o| | | |o]; unfold call_prog in H.
  - apply solo_bind in H as (x & s1 & H & [-> ->]).
    destruct (refine_check _ _ _ Hsq H) as (t1 & t2 & Ht & Hspec & Hsq').
    exists t1, t2. simpl. by rw Hspec.
  - apply solo_bind in H as (x & s1 & H & [-> ->]).
    destruct (refine_record _ _ _ _ Hsq H) as (t1 & t2 & Ht & Hspec & Hsq').
    exists t1, t2. simpl. by rw Hspec.
  - solo_one H. solo_one H. exists t, t. split; [simpl; lia|]. split; [|by apply seq_ok_clock].
    unfold abs. simpl. by destruct (from_u8 _).
  - unfold is_open in H. solo_one H. solo_one H. exists t, t. split; [simpl; lia|].
    split; [|by apply seq_ok_clock]. unfold abs. simpl. rw Hfast. by destruct (from_u8 _).
  - unfold error_rate in H. apply solo_bind in H as (x & s1 & H & [-> ->]). do 2 solo_one H.
    exists t, t. split; [simpl; lia|].
    pose proof (window_ok_evict _ (window_duration cfg) t (so_window _ Hok)) as Hw.
    destruct (seq_window s _ Hsq Hw) as [Hsw Haw]. split; [|refine (seq_ok_vars _ _ _ Hsw); done].
    simpl. assert (abs_window (abs s) = sh_window s) as -> by (unfold abs; by destruct (from_u8 _)).
    fold cfg. by rw -Haw.
  - unfold with_observer in H. solo_one H. solo_one H. exists t, t.
    split; [destruct (sh_observer s); simpl; lia|]. simpl.
    destruct (sh_observer s); simpl; (split; [done|]); by refine (seq_ok_vars s _ _ Hsq).
Qed.
(** ** Recovery from any memory

    [heal] asks only that the cool-down and the claim have run out; the counter
    and the mirror may hold anything. *)

Definition run_out (s : Shared) (t : Instant) : Prop :=
  (open_duration cfg ≤ from_millis (saturating_sub (ms t) (sh_opened_at_millis s)))%Z ∧
  (as_millis_u64 (open_duration cfg) ≤ saturating_sub (ms t) (sh_probe_claimed_at_millis s))%Z.

#[local] Transparent saturating_sub from_millis.

Lemma run_out_later s t t' :
  run_out s t → (t ≤ t')%Z → (t' - cb_baseline cb < 2 ^ 64 * 10 ^ 6)%Z → run_out s t'.
Proof.
  unfold run_out. intros [Ho Hc] Ht Hb. pose proof (elapsed_mono cb t t' Ht Hb).
  unfold ms, from_millis, saturating_sub in *. lia.
Qed.

#[local] Opaque saturating_sub from_millis.

Lemma heal_probe s r s' :
  shared_ok s → run_out s (sh_clock s) → solo (try_half_open_probe cb) s r s' →
  (sh_clock s' - cb_baseline cb < 2 ^ 64 * 10 ^ 6)%Z →
  r = inl () ∧ sh_state s' = sh_state s.
Proof.
  intros Hok Hro H Hb.
  destruct (solo_try_probe s r s' Hok ltac:(lia) H) as (t & Ht & Hst & _ & _ & _ & Heff).
  destruct (run_out_later s _ t Hro ltac:(lia) ltac:(lia)) as [_ Hc].
  case_decide; [by destruct Heff as [-> _]|]. destruct Heff as [_ Heff].
  rw decide_True // in Heff. by destruct Heff as [-> _].
Qed.

Lemma heal_check s r s' :
  enabled cfg = true → shared_ok s → run_out s (sh_clock s) → solo (check cb) s r s' →
  (sh_clock s' - cb_baseline cb < 2 ^ 64 * 10 ^ 6)%Z →
  r = inl () ∧ (from_u8 (sh_state s) ≠ Closed → from_u8 (sh_state s') = HalfOpen).
Proof.
  intros He Hok Hro H Hb. pose proof Hok as [_ Hw Hp].
  assert (∀ t, shared_ok (set_clock s t)) as Hokt by (intros t; by destruct Hok).
  pose proof (solo_mono _ _ _ _ H) as Hmono.
  unfold check in H. fold cfg in H. rw He in H. cbn [negb] in H. solo_one H.
  pose proof (solo_mono _ _ _ _ H) as Hm1. simpl in Hm1.
  destruct (from_valid s Hok) as [[Hs Hv]|[[Hs Hv]|[Hs Hv]]]; rw Hs in H |- *.
  - solo_one H. done.
  - unfold check_open, cas_state in H. do 2 solo_one H. pose proof (solo_mono _ _ _ _ H) as Hm.
    simpl in Hm. destruct (run_out_later s _ t1 Hro ltac:(lia) ltac:(lia)) as [Ho Hc].
    fold cfg in H. rw decide_True // in H. solo_one H. rw decide_True // in E.
    injection E as <- <-. do 2 solo_one H. pose proof (solo_mono _ _ _ _ H) as Hm2.
    destruct (heal_probe s0 r s') as [-> Hst]; [| |done|done|].
    + split; [rw H0; by right; right|by rw H5|by rw H2].
    + unfold run_out. rw H1 H3. apply (run_out_later s _ _ Hro); lia.
    + split; [done|]. intros _. by rw Hst H0.
  - destruct (heal_probe _ r s' (Hokt t)) as [-> Hst]; [|done|done|].
    + apply (run_out_later s _ _ Hro); simpl; lia.
    + split; [done|]. intros _. by rw Hst.
Qed.

Lemma heal_record s r s' :
  enabled cfg = true → from_u8 (sh_state s) = HalfOpen → solo (record cb Success) s r s' →
  seq_ok s' ∧ abs s' = AClosed window_new.
Proof.
  intros He Hs H. unfold record in H. fold cfg in H. rw He in H. cbn [negb] in H. do 2 solo_one H.
  rw Hs in H. apply solo_bind in H as ([] & s1 & H & [_ Hv]%solo_outcome).
  apply solo_close in H as [_ Hv1]. rw Hv1 in Hv.
  by apply (seq_ok_closed _ _ _ _ Hv), window_ok_new.
Qed.
End refine.

(** ** Histories *)

(** Calls that follow each other, with what each one answered. *)
Inductive history (cb : CircuitBreaker) : Shared → list (Call * Reply) → Shared → Prop :=
  | history_nil s : history cb s [] s
  | history_cons s c r s1 h s2 :
      solo (call_prog cb c) s r s1 → history cb s1 h s2 → history cb s ((c, r) :: h) s2.

(** The same on the abstract machine, at instants that never go back. *)
Inductive spec_history (cb : CircuitBreaker) : Instant → Abs → list (Call * Reply) → Abs → Prop :=
  | spec_nil t a : spec_history cb t a [] a
  | spec_cons t a c r t1 t2 a1 h a2 :
      (t ≤ t1 ≤ t2)%Z → spec_call cb t1 t2 c a = (r, a1) → spec_history cb t2 a1 h a2 →
      spec_history cb t a ((c, r) :: h) a2.

Lemma spec_history_earlier cb t t' a h a' :
  spec_history cb t a h a' → (t' ≤ t)%Z → spec_history cb t' a h a'.
Proof.
  intros [|? ? c r t1 t2 a1 h' a2 Ht Hc Hh] Hle; [constructor|].
  apply (spec_cons _ _ _ _ _ t1 t2 a1); [lia|done|done].
Qed.

Lemma history_refines cb s h s' :
  (1 ≤ half_open_max_probes (cb_config cb) < 2 ^ 64)%Z →
  seq_ok cb s → history cb s h s' →
  spec_history cb (sh_clock s) (abs s) h (abs s') ∧ seq_ok cb s'.
Proof.
  intros Hmax Hsq Hh. induction Hh as [|s c r s1 h s2 Hs _ IH]; [by split; [constructor|]|].
  destruct (refine_call cb Hmax _ _ _ _ Hsq Hs) as (t1 & t2 & Ht & Hspec & Hsq1).
  destruct (IH Hsq1) as [Hh Hsq2]. split; [|done].
  apply (spec_cons _ _ _ _ _ t1 t2 (abs s1)); [lia|done|]. eapply spec_history_earlier; [done|lia].
Qed.
