(* ===== verification/BreakerProps.v ===== *)
(** * Properties of the circuit breaker *)

From Stdlib Require Import Sorted.
From S2P Require Import Prelude Text Window Breaker BreakerFacts BreakerBurst BreakerSeq.

(** ** The window *)

(** Eviction is exact.  On a window whose counter is exact and whose
    samples are in time order, [evict] keeps the samples that are not older
    than the window, in order, and no others; the incremental failure counter
    is still the number of failed samples kept, so that the constant-time error
    rate is the one a scan would compute. *)
Theorem window_evict_exact w d now :
  window_ok w → StronglySorted Z.le (sw_entries w).*1 → (instant_min ≤ now - d)%Z →
  let w' := window_evict w d now in
  sw_entries w' = filter (fresh (now - d)) (sw_entries w) ∧
  sw_failures w' = failures_in (filter (fresh (now - d)) (sw_entries w)) ∧
  window_error_rate w' =
    match filter (fresh (now - d)) (sw_entries w) with
    | [] => S754_zero false
    | es => f64_div (f64_of_Z (failures_in es)) (f64_of_Z (Z.of_nat (length es)))
    end.
Proof.
  intros Hok Hs Hd. simpl. pose proof (window_ok_evict w d now Hok) as [Hf _].
  assert (sw_entries (window_evict w d now) = filter (fresh (now - d)) (sw_entries w)) as He.
  { unfold window_evict, checked_sub_instant. rw decide_True //. by apply evict_front_sorted. }
  rw He in Hf. split; [done|]. split; [done|]. unfold window_error_rate. rw He Hf.
  by destruct (filter _ _).
Qed.

(** ** Interleavings *)

(** What no interleaving can break.  Whatever calls run concurrently on a
    new breaker, in whatever order their atomic operations take effect, the
    state byte is one of the three states, the failure counter of the window is
    exact and the window bounded, a disabled breaker never refuses, and no
    refusal asks to wait longer than the cool-down. *)
Theorem interleavings_sound config now cb s p :
  with_clock config now = (cb, s) →
  rtc (pool_step cb (λ _, True)) {| pl_shared := s; pl_threads := [] |} p →
  state_u8 (from_u8 (sh_state (pl_shared p))) = sh_state (pl_shared p) ∧
  window_ok (sh_window (pl_shared p)) ∧
  ∀ i r, pl_threads p !! i = Some (Ret (RCheck (inr r))) →
    enabled config = true ∧ (retry_after r ≤ Z.max 0 (open_duration config))%Z.
Proof.
  intros E Hr.
  destruct (pool_ok_reachable _ _ _ _ _ _ E Hr) as [[Hs Hw _] Hts].
  split; [by apply state_u8_from|]. split; [done|]. intros i r Hi.
  pose proof (Forall_lookup_1 _ _ _ _ Hts Hi) as Ha. by injection E as <- _.
Qed.

Lemma burst_bound cb s p T0 :
  enabled (cb_config cb) = true → (0 ≤ half_open_max_probes (cb_config cb))%Z →
  sh_half_open_probes s = 0%Z → (sh_state s = 1%Z ∨ sh_state s = 2%Z) →
  rtc (pool_step cb (.= CCheck)) {| pl_shared := s; pl_threads := [] |} p →
  within cb T0 p → (T0 ≤ elapsed_millis_at cb (sh_clock s))%Z →
  (admitted p ≤ half_open_max_probes (cb_config cb)
                + takeovers cb T0 (sh_probe_claimed_at_millis s))%Z.
Proof.
  intros He Hm Hp Hs Hr Hw HT.
  assert (burst_inv cb T0 (sh_probe_claimed_at_millis s) s [] []) as Hi.
  { split; [constructor|done|by rw Hp|done|by left]. }
  destruct (burst_run cb T0 _ _ p _ He Hr Hw HT Hi) as [gs [Hg _ _ Hsl Hc]].
  pose proof (good_admitted _ _ _ _ Hg). unfold admitted.
  destruct Hc as [[Hc _]|[_ Hc]]; unfold takeovers in *; [case_decide; lia|lia].
Qed.

(** How many probes a burst gets.  Any number of threads call [check], in
    any interleaving, on a breaker that is open or half open with its probe
    counter at zero.  As long as less than one lease has passed, at most one
    more than the configured number of probes is let through; and exactly the
    configured number is the limit while the last recorded claim is itself
    younger than a lease. *)
Theorem burst_admission_bound cb s p :
  enabled (cb_config cb) = true → (0 ≤ half_open_max_probes (cb_config cb))%Z →
  sh_half_open_probes s = 0%Z →
  (sh_state s = state_u8 Open ∨ sh_state s = state_u8 HalfOpen) →
  rtc (pool_step cb (.= CCheck)) {| pl_shared := s; pl_threads := [] |} p →
  (sh_clock (pl_shared p) - cb_baseline cb < 2 ^ 64 * 10 ^ 6)%Z →
  (Z.of_nat (length (pl_threads p)) < 2 ^ 64 - 1)%Z →
  let start := elapsed_millis_at cb (sh_clock s) in
  let finish := elapsed_millis_at cb (sh_clock (pl_shared p)) in
  let lease := as_millis_u64 (open_duration (cb_config cb)) in
  let claimed := sh_probe_claimed_at_millis s in
  ((finish < start + lease)%Z → (admitted p ≤ half_open_max_probes (cb_config cb) + 1)%Z) ∧
  ((claimed ≤ start)%Z → (finish < claimed + lease)%Z →
   (admitted p ≤ half_open_max_probes (cb_config cb))%Z).
Proof.
  intros He Hm Hp Hs Hr Hb Hn start finish lease claimed.
  pose proof (burst_bound cb s p) as Hbound. split.
  - intros Hl. specialize (Hbound start He Hm Hp Hs Hr ltac:(done) ltac:(lia)).
    unfold takeovers in Hbound. case_decide; lia.
  - intros Hcl Hl. specialize (Hbound claimed He Hm Hp Hs Hr ltac:(done) ltac:(done)).
    destruct (pool_run_mono _ _ _ _ Hr) as [Hc _]. simpl in Hc.
    pose proof (elapsed_mono cb _ _ Hc Hb) as Hmono. fold start finish in Hmono.
    unfold takeovers in Hbound. rw decide_True in Hbound; [lia|].
    unfold in_lease. fold lease claimed. lia.
Qed.

(** ** One thread *)

(** C31: a breaker used by one thread is its abstract machine.  Every sequence
    of calls on a new breaker, with the clock advancing at will between and
    inside the calls, gives the answers of a machine that is closed on a window,
    open since an instant, or half open with a number of slots taken; and the
    lock-free mirror and the probe counter agree with the state after every
    call. *)
Theorem breaker_refines config now cb s h s' :
  with_clock config now = (cb, s) →
  (half_open_max_probes config < 2 ^ 64)%Z → history cb s h s' →
  spec_history cb now (AClosed window_new) h (abs s') ∧
  sh_is_open_fast s' = bool_decide (from_u8 (sh_state s') = Open) ∧
  (0 ≤ sh_half_open_probes s' ≤ half_open_max_probes (cb_config cb))%Z.
Proof.
  intros E Hm Hh. injection E as Ecb Es.
  assert (1 ≤ half_open_max_probes (cb_config cb) < 2 ^ 64)%Z as Hmax by (subst cb; simpl; lia).
  assert (seq_ok cb s) as Hsq.
  { subst s. split; simpl; [|done..|lia].
    split; [by left|apply window_ok_new|simpl; lia]. }
  destruct (history_refines cb s h s' Hmax Hsq Hh) as [Hspec [[_ _ Hp] Hf _ Ht]].
  split; [by subst s|]. split; [done|lia].
Qed.

(** The breaker never strands its callers.  Take any memory that any
    interleaving can produce, with its probe counter and mirror in any state.
    Once the cool-down and the last probe claim have run out, the next [check]
    that runs alone lets its caller through; and if the breaker was not closed,
    recording that caller's success closes it and restores every invariant. *)
Theorem breaker_recovers config now cb s0 p s r s1 :
  with_clock config now = (cb, s0) → s = pl_shared p →
  (half_open_max_probes config < 2 ^ 64)%Z →
  rtc (pool_step cb (λ _, True)) {| pl_shared := s0; pl_threads := [] |} p →
  enabled config = true → run_out cb s (sh_clock s) →
  solo (check cb) s r s1 → (sh_clock s1 - cb_baseline cb < 2 ^ 64 * 10 ^ 6)%Z →
  r = inl () ∧
  (from_u8 (sh_state s) ≠ Closed →
   ∀ u s2, solo (record cb Success) s1 u s2 → seq_ok cb s2 ∧ abs s2 = AClosed window_new).
Proof.
  intros E -> Hm Hr He Hro Hc Hb.
  destruct (pool_ok_reachable _ _ _ _ _ _ E Hr) as [Hok _].
  injection E as Ecb _.
  assert (enabled (cb_config cb) = true) as Hen by (by subst cb).
  assert (1 ≤ half_open_max_probes (cb_config cb) < 2 ^ 64)%Z as Hmax by (subst cb; simpl; lia).
  destruct (heal_check cb Hmax _ _ _ Hen Hok Hro Hc Hb) as [-> Hst]. split; [done|].
  intros Hs u s2 H2. apply (heal_record cb Hmax s1 u s2 Hen (Hst Hs) H2).
Qed.

(** ** Schedules of the circuit breaker

    Concrete interleavings of the server preset.  Three of them show races:
    [trip] publishes the open state before the instant of opening and before it
    resets the probe counter, and [try_half_open_probe] bumps the counter before
    it records its claim. *)

Definition permitted (allowed : Call → Prop) (c : Choice) : Prop :=
  match c with Begin c => allowed c | _ => True end.

Lemma pool_choose_step cb allowed p c :
  permitted allowed c → rtc (pool_step cb allowed) p (pool_choose cb p c).
Proof.
  intros Hc. destruct p as [s ts], c as [i|d|c]; simpl.
  - destruct (ts !! i) as [[a|R o k]|] eqn:Hi; try done. destruct (exec o s) as [r s'] eqn:He.
    apply rtc_once. by eapply pool_atomic.
  - apply rtc_once. constructor. lia.
  - apply rtc_once. by constructor.
Qed.

Lemma pool_run_permitted cb allowed cs p :
  Forall (permitted allowed) cs → rtc (pool_step cb allowed) p (pool_run cb cs p).
Proof.
  intros Hcs. revert p. induction Hcs as [|c cs Hc _ IH]; intros p; [done|]. simpl.
  etrans; [by apply pool_choose_step|apply IH].
Qed.

Lemma pool_run_steps cb cs p : rtc (pool_step cb (λ _, True)) p (pool_run cb cs p).
Proof. apply pool_run_permitted, Forall_true. by intros []. Qed.

Definition breaker1 : CircuitBreaker := (with_clock config_server 0).1.
Definition memory0 : Shared := (with_clock config_server 0).2.
Definition pool0 : Pool := {| pl_shared := memory0; pl_threads := [] |}.

(** Thread [i] makes a call and runs to its end: no call takes more than
    fifteen operations. *)
Definition whole (i : nat) (c : Call) : list Choice := Begin c :: replicate 15 (Run i).

Definition failures (n : nat) : list Choice :=
  mjoin ((λ i, whole i (CRecord Failure)) <$> seq 0 n).

(** Ten failures trip the breaker at twenty seconds; the cool-down runs out. *)
Definition tripped : Pool :=
  pool_run breaker1 (Wait (from_secs 20) :: failures 10 ++ [Wait (from_secs 10)]) pool0.

Definition finished (p : Pool) : bool :=
  forallb (λ t, match t with Ret _ => true | Do _ _ => false end) (pl_threads p).

(** Two threads check; the first is stopped between taking its slot and
    recording the claim, and the second finds the old claim expired. *)
Definition two_probes : Pool :=
  pool_run breaker1 ([Begin CCheck; Begin CCheck] ++ replicate 8 (Run 10) ++ replicate 7 (Run 11)
                     ++ replicate 2 (Run 10)) tripped.

(** The tenth failure is stopped after publishing the open state; another
    thread checks and succeeds; then the first goes on. *)
Definition mirror_left_set : Pool :=
  pool_run breaker1 (Wait (from_secs 20) :: failures 9
    ++ [Begin (CRecord Failure); Begin CCheck] ++ replicate 4 (Run 9) ++ replicate 10 (Run 10)
    ++ whole 11 (CRecord Success) ++ replicate 10 (Run 9)) pool0.

(** A refused probe is stopped before it undoes its increment; the admitted one
    fails and trips the breaker, which resets the counter. *)
Definition counter_wrapped : Pool :=
  pool_run breaker1 (whole 10 CCheck ++ [Begin CCheck] ++ replicate 3 (Run 11)
    ++ whole 12 (CRecord Failure) ++ replicate 10 (Run 11)) tripped.

Lemma reach_tripped : rtc (pool_step breaker1 (λ _, True)) pool0 tripped.
Proof. unfold tripped. apply pool_run_steps. Qed.

Lemma reach_two_probes : rtc (pool_step breaker1 (λ _, True)) pool0 two_probes.
Proof. etrans; [exact reach_tripped|]. unfold two_probes. apply pool_run_steps. Qed.

Lemma reach_mirror_left_set : rtc (pool_step breaker1 (λ _, True)) pool0 mirror_left_set.
Proof. unfold mirror_left_set. apply pool_run_steps. Qed.

Lemma reach_counter_wrapped : rtc (pool_step breaker1 (λ _, True)) pool0 counter_wrapped.
Proof. etrans; [exact reach_tripped|]. unfold counter_wrapped. apply pool_run_steps. Qed.

(** Three reachable states of the server preset that its comments rule
    out.  With one probe slot, two threads are let through in the same
    half-open episode.  A breaker that is closed, with no call in progress,
    reports [is_open] and let a request through at the very instant it tripped.
    A breaker with no call in progress has a probe counter of [2^64 - 1]. *)
Theorem breaker_races :
  (∃ p, rtc (pool_step breaker1 (λ _, True)) pool0 p ∧ finished p = true ∧
     half_open_max_probes (cb_config breaker1) = 1%Z ∧
     sh_opened_at_millis (pl_shared p) = 20000%Z ∧ sh_clock (pl_shared p) = from_secs 30 ∧
     admitted p = 2%Z) ∧
  (∃ p, rtc (pool_step breaker1 (λ _, True)) pool0 p ∧ finished p = true ∧
     from_u8 (sh_state (pl_shared p)) = Closed ∧ (run is_open (pl_shared p)).1 = true ∧
     sh_opened_at_millis (pl_shared p) = elapsed_millis_at breaker1 (sh_clock (pl_shared p)) ∧
     admitted p = 1%Z) ∧
  (∃ p, rtc (pool_step breaker1 (λ _, True)) pool0 p ∧ finished p = true ∧
     sh_half_open_probes (pl_shared p) = (2 ^ 64 - 1)%Z).
Proof.
  split; [|split].
  - exists two_probes. split; [exact reach_two_probes|]. vm_compute. by repeat split.
  - exists mirror_left_set. split; [exact reach_mirror_left_set|]. vm_compute. by repeat split.
  - exists counter_wrapped. split; [exact reach_counter_wrapped|]. vm_compute. by repeat split.
Qed.

(** ** Witnesses *)

Definition window_seen : SlidingWindow := sh_window (pl_shared tripped).

Lemma window_seen_ok : window_ok window_seen.
Proof. split; vm_compute; [reflexivity|discriminate]. Qed.

Lemma window_seen_sorted : StronglySorted Z.le (sw_entries window_seen).*1.
Proof. vm_compute. repeat constructor; discriminate. Qed.

Lemma window_evict_exact_witness :
  sw_entries (window_evict window_seen (from_secs 60) (from_secs 81)) = [].
Proof.
  destruct (window_evict_exact window_seen (from_secs 60) (from_secs 81) window_seen_ok
              window_seen_sorted ltac:(vm_compute; discriminate)) as [He _].
  rw He. vm_compute. reflexivity.
Defined.

Lemma interleavings_sound_witness : window_ok (sh_window (pl_shared two_probes)).
Proof.
  exact (proj1 (proj2 (interleavings_sound config_server 0 breaker1 memory0 two_probes eq_refl
                         reach_two_probes))).
Defined.

(** The first two checks of a burst, one after the other. *)
Definition calm : Pool := {| pl_shared := pl_shared tripped; pl_threads := [] |}.
Definition burst : list Choice := whole 0 CCheck ++ whole 1 CCheck.

Lemma burst_steps : rtc (pool_step breaker1 (.= CCheck)) calm (pool_run breaker1 burst calm).
Proof.
  apply pool_run_permitted. repeat constructor.
Qed.

Lemma burst_admission_bound_witness : (admitted (pool_run breaker1 burst calm) ≤ 2)%Z.
Proof.
  destruct (burst_admission_bound breaker1 (pl_shared tripped) (pool_run breaker1 burst calm)
              ltac:(reflexivity) ltac:(vm_compute; discriminate) ltac:(vm_compute; reflexivity)
              ltac:(left; vm_compute; reflexivity) burst_steps ltac:(vm_compute; reflexivity)
              ltac:(vm_compute; reflexivity)) as [H _].
  exact (H ltac:(vm_compute; reflexivity)).
Defined.

(** A check and a recorded failure, one after the other. *)
Definition after_check : Shared := (run (call_prog breaker1 CCheck) memory0).2.
Definition after_failure : Shared := (run (call_prog breaker1 (CRecord Failure)) after_check).2.

Lemma short_history :
  history breaker1 memory0 [(CCheck, RCheck (inl ())); (CRecord Failure, RUnit)] after_failure.
Proof.
  eapply history_cons; [exact (solo_run (call_prog breaker1 CCheck) memory0)|].
  eapply history_cons; [exact (solo_run (call_prog breaker1 (CRecord Failure)) after_check)|].
  constructor.
Qed.

Lemma breaker_refines_witness :
  spec_history breaker1 0 (AClosed window_new)
    [(CCheck, RCheck (inl ())); (CRecord Failure, RUnit)] (abs after_failure).
Proof.
  exact (proj1 (breaker_refines config_server 0 breaker1 memory0 _ after_failure eq_refl ltac:(reflexivity)
                  short_history)).
Defined.

(** The wrapped counter, once its cool-down has run out. *)
Definition waited : Pool := pool_run breaker1 [Wait (from_secs 10)] counter_wrapped.
Definition probed : Shared := (run (check breaker1) (pl_shared waited)).2.
Definition healed : Shared := (run (record breaker1 Success) probed).2.

Lemma reach_waited : rtc (pool_step breaker1 (λ _, True)) pool0 waited.
Proof. etrans; [exact reach_counter_wrapped|]. unfold waited. apply pool_run_steps. Qed.

Lemma breaker_recovers_witness :
  sh_half_open_probes (pl_shared waited) = (2 ^ 64 - 1)%Z ∧
  seq_ok breaker1 healed ∧ abs healed = AClosed window_new.
Proof.
  split; [vm_compute; reflexivity|].
  assert (run_out breaker1 (pl_shared waited) (sh_clock (pl_shared waited))) as Hro
    by (split; vm_compute; discriminate).
  assert (from_u8 (sh_state (pl_shared waited)) ≠ Closed) as Hs by (vm_compute; discriminate).
  assert (sh_clock probed - cb_baseline breaker1 < 2 ^ 64 * 10 ^ 6)%Z as Hb by (vm_compute; reflexivity).
  destruct (breaker_recovers config_server 0 breaker1 memory0 waited _ _ probed eq_refl eq_refl
              ltac:(reflexivity) reach_waited eq_refl Hro
              (solo_run (check breaker1) (pl_shared waited)) Hb) as [_ H].
  exact (H Hs _ healed (solo_run (record breaker1 Success) probed)).
Defined.

(** ** The registry, the policies and the environment *)

(** A key keeps its breaker; two keys never share one. *)
Lemma registry_get_stable r key now n r1 key' now' :
  (∀ k m, rg_breakers r !! k = Some m → (m < length (rg_arcs r))%nat) →
  registry_get r key now = (Some n, r1) →
  ∃ n', registry_get r1 key' now' = (Some n', (registry_get r1 key' now').2) ∧
    (key' = key → n' = n) ∧
    ((∀ k k' m, rg_breakers r !! k = Some m → rg_breakers r !! k' = Some m → k = k') →
     key' ≠ key → n' ≠ n).
Proof.
  intros Hlt. unfold registry_get. destruct (enabled (rg_config r)) eqn:He; cbn [negb]; [|done].
  destruct (rg_breakers r !! key) as [m|] eqn:Hk; intros [= <- <-]; simpl; rw ?He; cbn [negb].
  - destruct (rg_breakers r !! key') as [m'|] eqn:Hk'; simpl.
    + exists m'. split; [done|]. split; [congruence|]. intros Hinj Hne ->. eauto.
    + exists (length (rg_arcs r)). split; [done|]. split; [congruence|].
      intros _ _ Heq. apply Hlt in Hk. lia.
  - destruct (decide (key' = key)) as [->|Hne].
    + rw lookup_insert_eq. by eexists.
    + rw lookup_insert_ne //. destruct (rg_breakers r !! key') as [m'|] eqn:Hk'; simpl.
      * exists m'. split; [done|]. split; [done|]. intros _ _ Heq. apply Hlt in Hk'. lia.
      * eexists. split; [done|]. split; [done|]. intros _ _. rw length_app /=. lia.
Qed.

(** No variables set: the server preset. *)
Lemma from_env_unset : from_env (λ _, None) = config_server.
Proof. reflexivity. Qed.

(** The server policy retries exactly 429 and the 5xx codes. *)
Lemma policy_server_retries status :
  should_retry policy_server status = true ↔ status = 429%Z ∨ (500 ≤ status < 600)%Z.
Proof.
  unfold should_retry, classify. rw bool_decide_eq_true. simpl.
  repeat case_decide; naive_solver (try set_solver; lia).
Qed.
