(* ===== verification/Workload.v ===== *)
(** * Durable work records

    Models [orchestration/workload.rs] of
    [crates/codegen/grokptah-agent-bridge/src], with the record types it stores
    from [orchestration/types.rs], [orchestration/managed.rs], [completion.rs]
    and [verified_change.rs], and their validators.  A [DateTime<Utc>] is a
    number of nanoseconds, a [Uuid] a 128-bit number; [usize] lengths are byte
    lengths. *)

From S2P Require Import Prelude Text Window.
From Stdlib Require Import Ascii.

Abbreviation DateTime := Z (only parsing).
Abbreviation Uuid := Z (only parsing).

(** ** Errors *)

Inductive OrchErrorCode :=
  | Unauthenticated | ForbiddenScope | WorkspaceMismatch | SessionBusy | CapacityExhausted
  | StaleVersion | CursorExpired | RestartRequired | Internal | Timeout | InvalidRequest
  | Unsupported | Conflict.

#[export] Instance OrchErrorCode_eq_dec : EqDecision OrchErrorCode.
Proof. solve_decision. Defined.

(** [OrchError::new]: the other two fields are absent. *)
Record OrchError := { oe_code : OrchErrorCode; oe_message : string }.

#[export] Instance OrchError_eq_dec : EqDecision OrchError.
Proof. solve_decision. Defined.

Abbreviation ORes A := (sum OrchError A).

#[export] Instance ores_ret : MRet (sum OrchError) := λ A a, inr a.
#[export] Instance ores_bind : MBind (sum OrchError) := λ A B f m,
  match m with inl e => inl e | inr a => f a end.

Definition invalid (message : string) : OrchError :=
  {| oe_code := InvalidRequest; oe_message := message |}.

(** [if b { return Err(invalid(message)) }]. *)
Definition refuse_if (b : bool) (message : string) : ORes unit :=
  if b then inl (invalid message) else inr ().

(** [for x in xs { f(x)?; }]. *)
Fixpoint each {A} (f : A → ORes unit) (xs : list A) : ORes unit :=
  match xs with
  | [] => inr ()
  | x :: xs => _ ← f x; each f xs
  end.

(** [if let Some(x) = o { f(x)?; }]. *)
Definition when_some {A} (o : option A) (f : A → ORes unit) : ORes unit :=
  match o with Some x => f x | None => inr () end.

Lemma ores_bind_inr {A B} (m : ORes A) (f : A → ORes B) b :
  m ≫= f = inr b ↔ ∃ a, m = inr a ∧ f a = inr b.
Proof. destruct m; cbn; naive_solver. Qed.

Lemma refuse_if_inr b msg u : refuse_if b msg = inr u ↔ b = false.
Proof. unfold refuse_if. destruct u, b; naive_solver. Qed.

Lemma each_inr {A} (f : A → ORes unit) xs u : each f xs = inr u ↔ Forall (λ x, f x = inr ()) xs.
Proof.
  destruct u. induction xs as [|x xs IH]; simpl; [by split; [constructor|]|].
  rw Forall_cons ores_bind_inr. split; [intros ([] & ? & ?); tauto|].
  intros [? ?]. exists (). tauto.
Qed.

(** ** Constants *)

Definition WORKLOAD_SCHEMA_VERSION : Z := 1.
Definition MAX_WORK_KIND_BYTES : Z := 96.
Definition MAX_WORK_OBJECTIVE_BYTES : Z := 32 * 1024.
Definition MAX_WORK_ACTOR_BYTES : Z := 256.
Definition MAX_WORK_ARTIFACTS : Z := 256.
Definition MAX_WORK_ARTIFACT_BYTES : Z := 2 * 1024.
Definition MAX_WORK_DEPENDENCIES : Z := 128.
Definition MAX_WORK_APPROVAL_NOTE_BYTES : Z := 4 * 1024.
Definition DEFAULT_WORK_LEASE_MS : Z := 5 * 60 * 1000.
Definition MAX_WORK_LEASE_MS : Z := 60 * 60 * 1000.
Definition DEFAULT_WORK_MAX_ATTEMPTS : Z := 3.
Definition MAX_WORK_ALLOWED_FILES : Z := 256.
Definition MAX_WORK_ALLOWED_FILE_PATH_BYTES : Z := 1024.

Definition slen (s : string) : Z := Z.of_nat (String.length s).
Definition NUL : string := String "000"%char "".

Definition validate_id (value field : string) : ORes unit :=
  refuse_if (bool_decide (value = "") || bool_decide (256 < slen value)%Z
             || str_contains ".." value || str_contains "/" value || str_contains "\" value
             || str_contains NUL value)
    (field +:+ " is empty or invalid").

Definition validate_text (value : string) (max_bytes : Z) (field : string) : ORes unit :=
  refuse_if (bool_decide (value = "") || bool_decide (max_bytes < slen value)%Z
             || str_contains NUL value)
    (field +:+ " is empty or exceeds its bound").

(** ** States *)

Inductive WorkState :=
  | WQueued | WBlocked | WLeased | WRunning | WAwaitingInput | WAwaitingApproval | WReview
  | WSucceeded | WFailed | WCancelled.

#[export] Instance WorkState_eq_dec : EqDecision WorkState.
Proof. solve_decision. Defined.

Definition work_is_terminal (s : WorkState) : bool :=
  match s with WSucceeded | WFailed | WCancelled => true | _ => false end.
Definition work_is_review_gate (s : WorkState) : bool :=
  match s with WAwaitingApproval | WReview => true | _ => false end.
Definition work_is_claimable (s : WorkState) : bool :=
  match s with WQueued => true | _ => false end.

Inductive AssignmentStatus := Unassigned | Offered | Accepted | Declined.

#[export] Instance AssignmentStatus_eq_dec : EqDecision AssignmentStatus.
Proof. solve_decision. Defined.

Definition is_claimable_by (s : AssignmentStatus) (assigned : option string) (claimant : string)
    : ORes unit :=
  match s with
  | Offered => inl (invalid "work offer must be accepted before it can be claimed")
  | Declined | Unassigned => inr ()
  | Accepted =>
      refuse_if (match assigned with Some agent => bool_decide (agent ≠ claimant) | None => false end)
        "work item is assigned to a different worker"
  end.

Inductive WorkDecisionAction :=
  | DAssign | DOffer | DAccept | DDecline | DReassign | DReprioritize | DBlock | DUnblock
  | DCancel | DRequestReview | DAuthorizeExecution.

#[export] Instance WorkDecisionAction_eq_dec : EqDecision WorkDecisionAction.
Proof. solve_decision. Defined.

Record WorkDecision := {
  wd_schema_version : Z; wd_decision_id : string; wd_work_id : string;
  wd_action : WorkDecisionAction; wd_actor_id : string; wd_actor_agent_id : option string;
  wd_assigned_agent_id : option string; wd_policy_revision : option Z;
  wd_work_revision : option Z; wd_reason : string; wd_created_at : DateTime;
}.

Definition decision_validate (d : WorkDecision) : ORes unit :=
  _ ← refuse_if (bool_decide (wd_schema_version d ≠ WORKLOAD_SCHEMA_VERSION))
        "work decision schema version is invalid";
  _ ← validate_id (wd_decision_id d) "decision_id";
  _ ← validate_id (wd_work_id d) "work_id";
  _ ← validate_text (wd_actor_id d) MAX_WORK_ACTOR_BYTES "actor_id";
  _ ← when_some (wd_actor_agent_id d) (λ a, validate_id a "actor_agent_id");
  _ ← when_some (wd_assigned_agent_id d) (λ a, validate_id a "assigned_agent_id");
  _ ← refuse_if (bool_decide (wd_work_revision d = Some 0%Z))
        "work_revision must be greater than zero";
  _ ← refuse_if (bool_decide (wd_policy_revision d = Some 0%Z))
        "policy_revision must be greater than zero";
  validate_text (wd_reason d) MAX_WORK_OBJECTIVE_BYTES "reason".

Inductive AttemptState :=
  | ALeased | ARunning | AAwaitingInput | AAwaitingApproval | AReview | AReleased | AExpired
  | ASucceeded | AFailed | ACancelled.

#[export] Instance AttemptState_eq_dec : EqDecision AttemptState.
Proof. solve_decision. Defined.

Definition attempt_is_active (s : AttemptState) : bool :=
  match s with
  | ALeased | ARunning | AAwaitingInput | AAwaitingApproval | AReview => true
  | _ => false
  end.
Definition attempt_is_review_gate (s : AttemptState) : bool :=
  match s with AAwaitingApproval | AReview => true | _ => false end.
Definition requires_lease_heartbeat (s : AttemptState) : bool :=
  match s with ALeased | ARunning | AAwaitingInput => true | _ => false end.

(** ** Policies *)

Record WorkRetryPolicy := {
  rt_max_attempts : Z; rt_retry_failed : bool; rt_retry_expired : bool; rt_backoff_ms : Z;
}.

Definition retry_default : WorkRetryPolicy := {|
  rt_max_attempts := DEFAULT_WORK_MAX_ATTEMPTS; rt_retry_failed := true;
  rt_retry_expired := true; rt_backoff_ms := 0 |}.

Definition retry_validate (p : WorkRetryPolicy) : ORes unit :=
  _ ← refuse_if (bool_decide (rt_max_attempts p = 0%Z))
        "retry.max_attempts must be greater than zero";
  _ ← refuse_if (bool_decide (100 < rt_max_attempts p)%Z)
        "retry.max_attempts exceeds the workload bound";
  refuse_if (bool_decide (24 * 60 * 60 * 1000 < rt_backoff_ms p)%Z)
    "retry.backoff_ms exceeds one day".

Record RunBounds := {
  rb_max_prompt_bytes : Z; rb_max_rounds : Z; rb_max_duration_ms : Z;
  rb_max_total_tokens : option Z;
}.

Definition bounds_default : RunBounds := {|
  rb_max_prompt_bytes := 100000; rb_max_rounds := 24; rb_max_duration_ms := 15 * 60 * 1000;
  rb_max_total_tokens := None |}.

Definition bounds_validate (b : RunBounds) : ORes unit :=
  _ ← refuse_if (bool_decide (rb_max_prompt_bytes b = 0%Z)) "max_prompt_bytes must be > 0";
  _ ← refuse_if (bool_decide (rb_max_rounds b = 0%Z)) "max_rounds must be > 0";
  _ ← refuse_if (bool_decide (rb_max_duration_ms b = 0%Z)) "max_duration_ms must be > 0";
  refuse_if (bool_decide (rb_max_total_tokens b = Some 0%Z)) "max_total_tokens must be > 0".

Inductive ManagedWorkMode := Inherit | Forbid.

Inductive RequiredCheckCwd := Candidate | Oracle.
Record RequiredCheckEnv := { rq_key : string; rq_value : string }.
Record RequiredCheckSpec := {
  rc_check_id : string; rc_executable : string; rc_args : list string; rc_cwd : RequiredCheckCwd;
  rc_env : list RequiredCheckEnv; rc_timeout_ms : Z; rc_max_output_bytes : Z;
}.

Definition MAX_CHECKS : Z := 8.
Definition MAX_ARGS : Z := 16.
Definition MAX_ARG_BYTES : Z := 512.
Definition MAX_ENV : Z := 8.

Definition in_range (lo hi : Z) (c : ascii) : bool := bool_decide (lo ≤ byte_val c ≤ hi)%Z.
Definition is_lower : ascii → bool := in_range 97 122.
Definition is_upper : ascii → bool := in_range 65 90.
Definition is_digit : ascii → bool := in_range 48 57.

Definition valid_check_id (value : string) : bool :=
  negb (bool_decide (value = "")) && bool_decide (slen value ≤ 64)%Z
  && string_forall (λ c, is_lower c || is_digit c || bool_decide (c = "-"%char)) value.

Definition valid_env_key (value : string) : bool :=
  match value with
  | "" => false
  | String first rest =>
      (is_upper first || bool_decide (first = "_"%char))
      && string_forall (λ c, is_upper c || is_digit c || bool_decide (c = "_"%char)) rest
      && bool_decide (slen value ≤ 64)%Z
  end.

Definition SECRET_NEEDLES : list string :=
  ["TOKEN"; "SECRET"; "KEY"; "PASSWORD"; "CREDENTIAL"; "HOME"; "PATH"; "GITHUB"; "AUTHORIZATION";
   "GROK"; "XAI"; "AWS"; "SSH"; "COOKIE"].

Definition secret_env_key (value : string) : bool :=
  existsb (λ needle, str_contains needle (to_ascii_uppercase value)) SECRET_NEEDLES.

(** One pass of the loop, given the identifiers seen before. *)
Definition validate_required_check (seen : gset string) (check : RequiredCheckSpec) : ORes unit :=
  _ ← refuse_if (negb (valid_check_id (rc_check_id check)) || bool_decide (rc_check_id check ∈ seen))
        "required check id must be a unique lowercase token";
  _ ← refuse_if (negb (starts_with "/" (rc_executable check)) || str_contains NUL (rc_executable check))
        "required check executable must be an absolute path";
  _ ← refuse_if (bool_decide (MAX_ARGS < Z.of_nat (length (rc_args check)))%Z)
        "required check has too many arguments";
  _ ← each (λ arg, refuse_if (bool_decide (MAX_ARG_BYTES < slen arg)%Z || str_contains NUL arg)
              "required check argument is empty, too long, or contains NUL") (rc_args check);
  _ ← refuse_if (bool_decide (MAX_ENV < Z.of_nat (length (rc_env check)))%Z)
        "required check environment is too large";
  _ ← each (λ e, refuse_if (negb (valid_env_key (rq_key e)) || secret_env_key (rq_key e)
                            || str_contains NUL (rq_value e))
              "required check environment refuses operator credentials, PATH, and HOME") (rc_env check);
  _ ← refuse_if (bool_decide (rc_timeout_ms check = 0 ∨ 60000 < rc_timeout_ms check)%Z)
        "required check timeout must be between 1 and 60000 milliseconds";
  refuse_if (bool_decide (rc_max_output_bytes check = 0 ∨ 16 * 1024 < rc_max_output_bytes check)%Z)
    "required check output bound must be between 1 and 16384 bytes".

Fixpoint validate_checks_from (seen : gset string) (checks : list RequiredCheckSpec) : ORes unit :=
  match checks with
  | [] => inr ()
  | check :: checks =>
      _ ← validate_required_check seen check;
      validate_checks_from ({[ rc_check_id check ]} ∪ seen) checks
  end.

(** The error is an [OrchError] already, as [WorkPolicy::validate] maps it. *)
Definition validate_required_checks (checks : list RequiredCheckSpec) : ORes unit :=
  _ ← refuse_if (bool_decide (MAX_CHECKS < Z.of_nat (length checks))%Z)
        "required checks exceed the host bound";
  validate_checks_from ∅ checks.

Record WorkPolicy := {
  wp_bounds : RunBounds; wp_retry : WorkRetryPolicy; wp_requires_approval : bool;
  wp_max_concurrent_attempts : Z; wp_managed_execution : ManagedWorkMode;
  wp_allowed_files : list string; wp_required_checks : list RequiredCheckSpec;
}.

Definition policy_default : WorkPolicy := {|
  wp_bounds := bounds_default; wp_retry := retry_default; wp_requires_approval := false;
  wp_max_concurrent_attempts := 1; wp_managed_execution := Inherit; wp_allowed_files := [];
  wp_required_checks := [] |}.

(** The loop over the components of a path. *)
Fixpoint normal_components (parts : list string) : ORes (list string) :=
  match parts with
  | [] => inr []
  | part :: rest =>
      if decide (part = "" ∨ part = ".") then
        inl (invalid "allowed_files path contains empty or dot components")
      else if decide (part = "..") then inl (invalid "allowed_files paths must not contain ..")
      else ps ← normal_components rest; mret (part :: ps)
  end.

Definition normalize_allowed_file_path (raw : string) : ORes string :=
  _ ← refuse_if (bool_decide (MAX_WORK_ALLOWED_FILE_PATH_BYTES < slen raw)%Z)
        "allowed_files path exceeds its bound";
  _ ← refuse_if (bool_decide (raw = "" ∨ raw = "." ∨ raw = ".."))
        "allowed_files entries must be relative workspace files";
  _ ← refuse_if (str_contains NUL raw || str_contains "\" raw || str_contains "//" raw
                 || ends_with "/" raw)
        "allowed_files path contains empty/dot targets or separator tricks";
  _ ← refuse_if (starts_with "/" raw) "allowed_files paths must be relative";
  parts ← normal_components (split_on "/"%char raw);
  _ ← refuse_if (bool_decide (parts = [])) "allowed_files entries must be relative workspace files";
  mret (String.concat "/" parts).

Fixpoint normalize_from (seen : gset string) (entries : list string) : ORes (list string) :=
  match entries with
  | [] => inr []
  | raw :: entries =>
      normalized ← normalize_allowed_file_path raw;
      _ ← refuse_if (bool_decide (normalized ∈ seen)) "allowed_files contains duplicate normalized paths";
      out ← normalize_from ({[ normalized ]} ∪ seen) entries;
      mret (normalized :: out)
  end.

Definition normalize_allowed_files (entries : list string) : ORes (list string) :=
  _ ← refuse_if (bool_decide (MAX_WORK_ALLOWED_FILES < Z.of_nat (length entries))%Z)
        "allowed_files exceeds the work policy bound";
  normalize_from ∅ entries.

Definition policy_validate (p : WorkPolicy) : ORes unit :=
  _ ← bounds_validate (wp_bounds p);
  _ ← retry_validate (wp_retry p);
  _ ← refuse_if (bool_decide (wp_max_concurrent_attempts p = 0 ∨ 1 < wp_max_concurrent_attempts p)%Z)
        "policy.max_concurrent_attempts must be exactly one in the single-owner runtime";
  normalized ← normalize_allowed_files (wp_allowed_files p);
  _ ← refuse_if (bool_decide (normalized ≠ wp_allowed_files p))
        "allowed_files must be stored as normalized relative workspace paths";
  validate_required_checks (wp_required_checks p).

Definition restricts_local_mutations (p : WorkPolicy) : bool :=
  bool_decide (wp_allowed_files p ≠ []).
Definition denies_shell (p : WorkPolicy) : bool := restricts_local_mutations p.

(** ** Parts of a work item *)

Inductive BlockProvenance := Derived | Manual.

#[export] Instance BlockProvenance_eq_dec : EqDecision BlockProvenance.
Proof. solve_decision. Defined.

Definition is_manual (p : BlockProvenance) : bool := match p with Manual => true | Derived => false end.
Definition is_derived (p : BlockProvenance) : bool := match p with Derived => true | Manual => false end.

Record WorkDependency := { dep_work_id : string; dep_required_state : WorkState }.

Definition dependency_validate (d : WorkDependency) : ORes unit :=
  _ ← validate_id (dep_work_id d) "dependency.work_id";
  refuse_if (bool_decide (dep_required_state d ≠ WSucceeded))
    "dependency.required_state must be succeeded in this slice".

Record WorkProgress := {
  pg_summary : string; pg_percent : option Z; pg_updated_at : DateTime;
}.

Record WorkArtifactRef := {
  ar_artifact_id : string; ar_kind : string; ar_label : string; ar_digest : option string;
  ar_retained_until : option DateTime;
}.

Definition artifact_validate (a : WorkArtifactRef) : ORes unit :=
  _ ← validate_id (ar_artifact_id a) "artifact.artifact_id";
  _ ← validate_text (ar_kind a) MAX_WORK_ARTIFACT_BYTES "artifact.kind";
  _ ← validate_text (ar_label a) MAX_WORK_ARTIFACT_BYTES "artifact.label";
  when_some (ar_digest a) (λ d, validate_text d MAX_WORK_ARTIFACT_BYTES "artifact.digest").

Record CompletionClaims := {
  cc_present : bool; cc_mentions_changes : bool; cc_mentions_tests : bool;
  cc_mentions_verification : bool;
}.
Record CompletionObservations := {
  co_changed_files : Z; co_tests_observed : Z; co_tests_passed : Z; co_tests_failed : Z;
  co_tests_incomplete : Z; co_permissions_requested : Z; co_permissions_granted : Z;
  co_permissions_denied : Z; co_permissions_unresolved : Z;
}.
Record CompletionUsage := {
  cu_prompt_tokens : Z; cu_completion_tokens : Z; cu_total_tokens : Z; cu_requests : Z;
}.
Record CompletionEvidence := {
  ce_status : string; ce_stop_reason : string; ce_interrupted : bool; ce_claims : CompletionClaims;
  ce_observations : CompletionObservations; ce_usage : CompletionUsage;
  ce_work_id : option string; ce_run_id : option string; ce_attempt_id : option string;
}.

Record CandidateFileRecord := { cf_path : string; cf_digest : string; cf_kind : string }.
Record RequiredCheckExecution := {
  rx_check_id : string; rx_outcome : string; rx_exit_code : option Z; rx_output_digest : string;
  rx_output_truncated : bool; rx_duration_ms : Z; rx_spec_digest : string;
}.
Record CandidateVerification := {
  cv_schema_version : Z; cv_work_id : string; cv_run_id : option string;
  cv_attempt_id : option string; cv_source_revision : string; cv_source_fingerprint : string;
  cv_content_digest : string; cv_spec_digest : string; cv_files : list CandidateFileRecord;
  cv_checks : list RequiredCheckExecution; cv_worker_stopped : bool; cv_change_proposed : bool;
  cv_checks_passed : bool; cv_invalidated : bool; cv_applied : bool; cv_diff_digest : option string;
  cv_changed_paths : list string; cv_bounded_diff : string; cv_diff_truncated : bool;
  cv_reconciliation_required : bool; cv_check_profile_id : string;
  cv_check_profile_revision : Z; cv_check_authority_digest : string;
  cv_apply_bundle_digest : string; cv_execution_envelope_digest : string;
}.

Record WorkResult := {
  wr_summary : string; wr_evidence : list string; wr_artifacts : list WorkArtifactRef;
  wr_failure : option string; wr_cancellation_reason : option string; wr_completed_at : DateTime;
  wr_verification : option CompletionEvidence;
  wr_candidate_verification : option CandidateVerification;
}.

Record WorkApproval := {
  wa_reviewer_id : string; wa_note : option string; wa_approved_at : DateTime;
  wa_candidate_digest : option string; wa_target_revision : option string;
  wa_apply_bundle_digest : option string;
}.

Definition approval_validate (a : WorkApproval) : ORes unit :=
  _ ← validate_text (wa_reviewer_id a) MAX_WORK_ACTOR_BYTES "approval.reviewer_id";
  when_some (wa_note a) (λ n, validate_text n MAX_WORK_APPROVAL_NOTE_BYTES "approval.note").

Definition evidence_validate (v : CompletionEvidence) : ORes unit :=
  _ ← validate_text (ce_status v) MAX_WORK_ARTIFACT_BYTES "result.verification.status";
  _ ← validate_text (ce_stop_reason v) MAX_WORK_ARTIFACT_BYTES "result.verification.stop_reason";
  each (λ p, when_some p.1 (λ id, validate_id id p.2))
    [(ce_work_id v, "result.verification.work_id"); (ce_run_id v, "result.verification.run_id");
     (ce_attempt_id v, "result.verification.attempt_id")].

Definition outside_path (path : string) : bool :=
  starts_with "/" path || str_contains ".." path || str_contains NUL path.

Definition candidate_validate (c : CandidateVerification) : ORes unit :=
  refuse_if (bool_decide (16 * 1024 < slen (cv_bounded_diff c))%Z
             || bool_decide (256 < Z.of_nat (length (cv_files c)))%Z
             || bool_decide (8 < Z.of_nat (length (cv_checks c)))%Z
             || existsb outside_path (cv_changed_paths c ++ (cf_path <$> cv_files c)))
    "candidate verification is outside the host evidence bound".

Definition result_validate (r : WorkResult) : ORes unit :=
  _ ← validate_text (wr_summary r) MAX_WORK_OBJECTIVE_BYTES "result.summary";
  _ ← refuse_if (bool_decide (MAX_WORK_ARTIFACTS < Z.of_nat (length (wr_evidence r)))%Z)
        "result.evidence exceeds the workload bound";
  _ ← each (λ e, validate_text e MAX_WORK_ARTIFACT_BYTES "result.evidence") (wr_evidence r);
  _ ← refuse_if (bool_decide (MAX_WORK_ARTIFACTS < Z.of_nat (length (wr_artifacts r)))%Z)
        "result.artifacts exceeds the workload bound";
  _ ← each artifact_validate (wr_artifacts r);
  _ ← when_some (wr_failure r) (λ f, validate_text f MAX_WORK_OBJECTIVE_BYTES "result.failure");
  _ ← when_some (wr_cancellation_reason r)
        (λ c, validate_text c MAX_WORK_OBJECTIVE_BYTES "result.cancellation_reason");
  _ ← when_some (wr_verification r) evidence_validate;
  when_some (wr_candidate_verification r) candidate_validate.

(** ** The work item *)

Record WorkItem := {
  wi_schema_version : Z; wi_work_id : string; wi_kind : string; wi_objective : string;
  wi_session_id : Uuid; wi_workspace : string; wi_created_by : string;
  wi_assigned_agent_id : option string; wi_priority : Z; wi_deadline : option DateTime;
  wi_parent_work_id : option string; wi_dependencies : list WorkDependency;
  wi_policy : WorkPolicy; wi_state : WorkState; wi_revision : Z; wi_attempt_count : Z;
  wi_progress : option WorkProgress; wi_result : option WorkResult; wi_is_container : bool;
  wi_approval : option WorkApproval; wi_source_routine_id : option string;
  wi_source_activation_id : option string; wi_source_manager_plan_id : option string;
  wi_source_manager_step_id : option string; wi_assignment_status : AssignmentStatus;
  wi_blocked_reason : option string; wi_block_provenance : option BlockProvenance;
  wi_last_decision_id : option string; wi_created_at : DateTime; wi_updated_at : DateTime;
}.

(** The loop over the dependencies of [WorkItem::validate]. *)
Fixpoint dependencies_validate (own : string) (seen : gset string) (ds : list WorkDependency)
    : ORes unit :=
  match ds with
  | [] => inr ()
  | d :: ds =>
      _ ← dependency_validate d;
      _ ← refuse_if (bool_decide (dep_work_id d = own)) "work item cannot depend on itself";
      _ ← refuse_if (bool_decide (dep_work_id d ∈ seen)) "duplicate workload dependency";
      dependencies_validate own ({[ dep_work_id d ]} ∪ seen) ds
  end.

Definition item_validate (i : WorkItem) : ORes unit :=
  _ ← refuse_if (bool_decide (wi_schema_version i ≠ WORKLOAD_SCHEMA_VERSION ∨ wi_revision i = 0%Z))
        "work item schema version or revision is invalid";
  _ ← validate_id (wi_work_id i) "work_id";
  _ ← validate_text (wi_kind i) MAX_WORK_KIND_BYTES "kind";
  _ ← validate_text (wi_objective i) MAX_WORK_OBJECTIVE_BYTES "objective";
  _ ← validate_text (wi_workspace i) (MAX_WORK_ACTOR_BYTES * 4) "workspace";
  _ ← validate_text (wi_created_by i) MAX_WORK_ACTOR_BYTES "created_by";
  _ ← when_some (wi_assigned_agent_id i) (λ a, validate_id a "assigned_agent_id");
  _ ← when_some (wi_parent_work_id i) (λ parent,
        _ ← validate_id parent "parent_work_id";
        refuse_if (bool_decide (parent = wi_work_id i)) "work item cannot be its own parent");
  _ ← refuse_if (bool_decide (MAX_WORK_DEPENDENCIES < Z.of_nat (length (wi_dependencies i)))%Z)
        "dependencies exceeds the workload bound";
  _ ← dependencies_validate (wi_work_id i) ∅ (wi_dependencies i);
  _ ← policy_validate (wi_policy i);
  _ ← refuse_if (bool_decide (rt_max_attempts (wp_retry (wi_policy i)) < wi_attempt_count i)%Z)
        "attempt_count exceeds retry.max_attempts";
  _ ← when_some (wi_progress i) (λ p,
        _ ← validate_text (pg_summary p) MAX_WORK_OBJECTIVE_BYTES "progress.summary";
        refuse_if (match pg_percent p with Some n => bool_decide (100 < n)%Z | None => false end)
          "progress.percent must be between 0 and 100");
  _ ← when_some (wi_result i) result_validate;
  _ ← when_some (wi_approval i) approval_validate;
  _ ← when_some (wi_source_routine_id i) (λ x, validate_id x "source_routine_id");
  _ ← when_some (wi_source_activation_id i) (λ x, validate_id x "source_activation_id");
  _ ← refuse_if (xorb (bool_decide (is_Some (wi_source_manager_plan_id i)))
                 (bool_decide (is_Some (wi_source_manager_step_id i))))
        "source manager plan and step links must be provided together";
  _ ← when_some (wi_source_manager_plan_id i) (λ x, validate_id x "source_manager_plan_id");
  _ ← when_some (wi_source_manager_step_id i) (λ x, validate_id x "source_manager_step_id");
  _ ← when_some (wi_blocked_reason i) (λ r, validate_text r MAX_WORK_OBJECTIVE_BYTES "blocked_reason");
  when_some (wi_last_decision_id i) (λ x, validate_id x "last_decision_id").

(** [new_at]; the identifier comes from [Uuid::new_v4]. *)
Definition item_new_at (fresh_id kind objective : string) (session_id : Uuid)
    (workspace created_by : string) (policy : WorkPolicy) (now : DateTime) : ORes WorkItem :=
  let item := {|
    wi_schema_version := WORKLOAD_SCHEMA_VERSION; wi_work_id := fresh_id; wi_kind := kind;
    wi_objective := objective; wi_session_id := session_id; wi_workspace := workspace;
    wi_created_by := created_by; wi_assigned_agent_id := None; wi_priority := 0;
    wi_deadline := None; wi_parent_work_id := None; wi_dependencies := []; wi_policy := policy;
    wi_state := WQueued; wi_revision := 1; wi_attempt_count := 0; wi_progress := None;
    wi_result := None; wi_is_container := false; wi_approval := None;
    wi_source_routine_id := None; wi_source_activation_id := None;
    wi_source_manager_plan_id := None; wi_source_manager_step_id := None;
    wi_assignment_status := Unassigned; wi_blocked_reason := None; wi_block_provenance := None;
    wi_last_decision_id := None; wi_created_at := now; wi_updated_at := now |} in
  _ ← item_validate item;
  mret item.

Definition dependency_ready (i : WorkItem) (states : list WorkState) : bool :=
  bool_decide (length (wi_dependencies i) = length (filter (.= WSucceeded) states)).

Definition bump_at (i : WorkItem) (now : DateTime) : WorkItem := {|
  wi_schema_version := wi_schema_version i; wi_work_id := wi_work_id i; wi_kind := wi_kind i;
  wi_objective := wi_objective i; wi_session_id := wi_session_id i;
  wi_workspace := wi_workspace i; wi_created_by := wi_created_by i;
  wi_assigned_agent_id := wi_assigned_agent_id i; wi_priority := wi_priority i;
  wi_deadline := wi_deadline i; wi_parent_work_id := wi_parent_work_id i;
  wi_dependencies := wi_dependencies i; wi_policy := wi_policy i; wi_state := wi_state i;
  wi_revision := saturating_add (wi_revision i) 1; wi_attempt_count := wi_attempt_count i;
  wi_progress := wi_progress i; wi_result := wi_result i; wi_is_container := wi_is_container i;
  wi_approval := wi_approval i; wi_source_routine_id := wi_source_routine_id i;
  wi_source_activation_id := wi_source_activation_id i;
  wi_source_manager_plan_id := wi_source_manager_plan_id i;
  wi_source_manager_step_id := wi_source_manager_step_id i;
  wi_assignment_status := wi_assignment_status i; wi_blocked_reason := wi_blocked_reason i;
  wi_block_provenance := wi_block_provenance i; wi_last_decision_id := wi_last_decision_id i;
  wi_created_at := wi_created_at i; wi_updated_at := now |}.

(** ** Attempts *)

Record WorkAttempt := {
  wt_schema_version : Z; wt_attempt_id : string; wt_work_id : string; wt_attempt_number : Z;
  wt_claimant_id : string; wt_lease_token_hash : string; wt_acquired_at : DateTime;
  wt_lease_expires_at : DateTime; wt_last_heartbeat_at : DateTime; wt_state : AttemptState;
  wt_linked_run_ids : list string; wt_progress : option WorkProgress;
  wt_result : option WorkResult; wt_terminal_reason : option string; wt_created_at : DateTime;
  wt_updated_at : DateTime;
}.

(** [hash_payload] is SHA-256 over a [serde_json] object; the two objects the
    lease uses are a token, and a secret with the identity of an attempt. *)
Class LeaseHash := {
  hash_lease_token : string → string;
  hash_lease_secret : string → string → string → Z → string;
}.

Section attempts.
Context {LH : LeaseHash}.

Definition attempt_new (fresh_id work_id : string) (attempt_number : Z)
    (claimant_id lease_token : string) (now : DateTime) : WorkAttempt := {|
  wt_schema_version := WORKLOAD_SCHEMA_VERSION; wt_attempt_id := fresh_id; wt_work_id := work_id;
  wt_attempt_number := attempt_number; wt_claimant_id := claimant_id;
  wt_lease_token_hash := hash_lease_token lease_token; wt_acquired_at := now;
  wt_lease_expires_at := now + DEFAULT_WORK_LEASE_MS * 10 ^ 6; wt_last_heartbeat_at := now;
  wt_state := ALeased; wt_linked_run_ids := []; wt_progress := None; wt_result := None;
  wt_terminal_reason := None; wt_created_at := now; wt_updated_at := now |}.

Definition lease_token_for_secret (a : WorkAttempt) (lease_secret : string) : string :=
  hash_lease_secret lease_secret (wt_work_id a) (wt_attempt_id a) (wt_attempt_number a).

Definition attempt_new_with_lease_secret (fresh_id work_id : string) (attempt_number : Z)
    (claimant_id lease_secret : string) (now : DateTime) : WorkAttempt :=
  let a := attempt_new fresh_id work_id attempt_number claimant_id "generated-at-claim" now in
  {| wt_schema_version := wt_schema_version a; wt_attempt_id := wt_attempt_id a;
     wt_work_id := wt_work_id a; wt_attempt_number := wt_attempt_number a;
     wt_claimant_id := wt_claimant_id a;
     wt_lease_token_hash := hash_lease_token (lease_token_for_secret a lease_secret);
     wt_acquired_at := wt_acquired_at a; wt_lease_expires_at := wt_lease_expires_at a;
     wt_last_heartbeat_at := wt_last_heartbeat_at a; wt_state := wt_state a;
     wt_linked_run_ids := wt_linked_run_ids a; wt_progress := wt_progress a;
     wt_result := wt_result a; wt_terminal_reason := wt_terminal_reason a;
     wt_created_at := wt_created_at a; wt_updated_at := wt_updated_at a |}.

Definition token_matches (a : WorkAttempt) (lease_token : string) : bool :=
  bool_decide (wt_lease_token_hash a = hash_lease_token lease_token).
End attempts.

Definition attempt_validate (a : WorkAttempt) : ORes unit :=
  _ ← refuse_if (bool_decide (wt_schema_version a ≠ WORKLOAD_SCHEMA_VERSION))
        "work attempt schema version is invalid";
  _ ← validate_id (wt_attempt_id a) "attempt_id";
  _ ← validate_id (wt_work_id a) "attempt.work_id";
  _ ← refuse_if (bool_decide (wt_attempt_number a = 0%Z)) "attempt_number must be greater than zero";
  _ ← validate_text (wt_claimant_id a) MAX_WORK_ACTOR_BYTES "claimant_id";
  _ ← validate_text (wt_lease_token_hash a) 128 "lease_token_hash";
  _ ← refuse_if (bool_decide (wt_lease_expires_at a < wt_acquired_at a)%Z)
        "lease expires before it was acquired";
  _ ← refuse_if (bool_decide (16 < Z.of_nat (length (wt_linked_run_ids a)))%Z)
        "linked_run_ids exceeds the workload bound";
  _ ← each (λ r, validate_id r "linked_run_id") (wt_linked_run_ids a);
  _ ← when_some (wt_progress a)
        (λ p, validate_text (pg_summary p) MAX_WORK_OBJECTIVE_BYTES "attempt.progress");
  _ ← when_some (wt_result a) result_validate;
  when_some (wt_terminal_reason a)
    (λ r, validate_text r MAX_WORK_OBJECTIVE_BYTES "attempt.terminal_reason").

Definition lease_active_at (a : WorkAttempt) (now : DateTime) : bool :=
  attempt_is_active (wt_state a) && bool_decide (now < wt_lease_expires_at a)%Z.

Definition lease_duration (milliseconds : option Z) : ORes Z :=
  let ms := default DEFAULT_WORK_LEASE_MS milliseconds in
  _ ← refuse_if (bool_decide (ms = 0 ∨ MAX_WORK_LEASE_MS < ms)%Z)
        "lease_ms must be between 1 and 3600000";
  mret (ms * 10 ^ 6)%Z.
