(* ===== verification/WorkGraph.v ===== *)
(** * The work-graph authority

    Models [orchestration/graph.rs] of
    [crates/codegen/grokptah-agent-bridge/src], with [workspaces_match] of
    [orchestration/store.rs]: the lane of an item, the total order of work,
    dependency resolution, validation with cycle detection, the admission
    evaluator and the operator projection.  The canonical form of a path comes
    from the file system and is a parameter. *)

From S2P Require Import Prelude Text Window Workload.
From stdpp Require Import pretty.

Definition MAX_GRAPH_SCOPE_ITEMS : Z := 4096.
Definition MAX_GRAPH_EDGES : Z := 16384.

Definition exhausted (message : string) : OrchError :=
  {| oe_code := CapacityExhausted; oe_message := message |}.

(** ** Scope *)

Record GraphScope := { gs_session_id : Uuid; gs_workspace : string }.

Definition scope_of (item : WorkItem) : GraphScope :=
  {| gs_session_id := wi_session_id item; gs_workspace := wi_workspace item |}.

(** [dunce::canonicalize]: [None] when the file system has no such path. *)
Class FileSystem := canonicalize : string → option string.

Definition workspaces_match `{FileSystem} (left right : string) : bool :=
  if decide (left = right) then true
  else match canonicalize left, canonicalize right with
       | Some l, Some r => bool_decide (l = r)
       | _, _ => false
       end.

Definition scope_contains `{FileSystem} (scope : GraphScope) (item : WorkItem) : bool :=
  bool_decide (wi_session_id item = gs_session_id scope)
  && workspaces_match (wi_workspace item) (gs_workspace scope).

(** ** Deterministic ordering *)

Definition compare_work_order (left right : WorkItem) : comparison :=
  then_with (wi_priority right ?= wi_priority left)%Z
    (then_with (wi_created_at left ?= wi_created_at right)%Z
       (string_cmp (wi_work_id left) (wi_work_id right))).

Definition order_work (items : list WorkItem) : list WorkItem := sort_by compare_work_order items.

(** ** Dependency resolution *)

Definition DependencyStates : Type := gmap string (option WorkState).

Definition visible_states `{FileSystem} (scope : GraphScope) (items : list WorkItem)
    : gmap string WorkState :=
  foldl (λ m item, if scope_contains scope item then <[wi_work_id item := wi_state item]> m else m)
    ∅ items.

Definition states_of (visible : gmap string WorkState) (ds : list WorkDependency)
    : DependencyStates :=
  foldl (λ m d, <[dep_work_id d := visible !! dep_work_id d]> m) ∅ ds.

Definition resolve_dependency_states `{FileSystem} (scope_items : list WorkItem)
    (candidate : WorkItem) (scope : GraphScope) : DependencyStates :=
  states_of (visible_states scope scope_items) (wi_dependencies candidate).

(** ** Cycle detection *)

(** The declared dependencies of a node that are nodes themselves. *)
Definition resolvable (declared : gset string) (node : WorkItem) : list string :=
  filter (.∈ declared) (dep_work_id <$> wi_dependencies node).

(** The first loop of [find_cycle]: in-degrees and reverse edges. *)
Definition build_graph (nodes : list WorkItem) (declared : gset string)
    : gmap string nat * gmap string (list string) :=
  foldl (λ '(indegree, dependents) node,
           (<[wi_work_id node := length (resolvable declared node)]> indegree,
            foldl (λ m d, <[d := default [] (m !! d) ++ [wi_work_id node]]> m) dependents
              (resolvable declared node)))
    (∅, ∅) nodes.

(** One decrement of the peeling loop. *)
Definition decrement (s : gmap string nat * list string) (dependent : string)
    : gmap string nat * list string :=
  let degree := Nat.pred (default 0%nat (s.1 !! dependent)) in
  (<[dependent := degree]> s.1, if decide (degree = 0%nat) then s.2 ++ [dependent] else s.2).

(** The [while let] loop that peels nodes without unpeeled dependencies. *)
Fixpoint peel (fuel : nat) (dependents : gmap string (list string)) (ready : list string)
    (indegree : gmap string nat) (peeled : gset string) : option (gmap string nat * gset string) :=
  match fuel with
  | O => None
  | S fuel =>
      match ready with
      | [] => Some (indegree, peeled)
      | id :: rest =>
          let '(indegree, ready) := foldl decrement (indegree, rest) (default [] (dependents !! id)) in
          peel fuel dependents ready indegree ({[ id ]} ∪ peeled)
      end
  end.

Definition dependency_targets (nodes : list WorkItem) (declared residue : gset string)
    : gmap string (list string) :=
  foldl (λ m node,
           if decide (wi_work_id node ∈ residue) then
             <[wi_work_id node :=
                 merge_sort String.le (filter (.∈ residue) (resolvable declared node))]> m
           else m) ∅ nodes.

(** The walk: [path] so far, the index of each of its nodes, the next node.  The
    outer [None] is an exhausted fuel, the inner one the [None] of the source. *)
Fixpoint walk (fuel : nat) (targets : gmap string (list string)) (path : list string)
    (on_path : gmap string nat) (current : string) : option (option (list string)) :=
  match fuel with
  | O => None
  | S fuel =>
      match on_path !! current with
      | Some index => Some (Some (drop index path ++ [current]))
      | None =>
          match targets !! current ≫= head with
          | Some next =>
              walk fuel targets (path ++ [current]) (<[current := length path]> on_path) next
          | None => Some None
          end
      end
  end.

(** The body of [find_cycle] with its two bounded loops; [None] when one of them
    runs out of fuel. *)
Definition find_cycle_run (nodes : list WorkItem) (declared : gset string)
    : option (option (list string)) :=
  let '(indegree, dependents) := build_graph nodes declared in
  let ready := (filter (λ kv, kv.2 = 0%nat) (btree_iter indegree)).*1 in
  '(indegree, peeled) ← peel (S (length nodes)) dependents ready indegree ∅;
  if decide (size peeled = size indegree) then Some None
  else
    let residue := filter (.∉ peeled) (btree_iter indegree).*1 in
    match residue with
    | [] => Some None
    | start :: _ =>
        walk (S (length residue)) (dependency_targets nodes declared (list_to_set residue)) [] ∅ start
    end.

Definition find_cycle (nodes : list WorkItem) (declared : gset string) : option (list string) :=
  default None (find_cycle_run nodes declared).

(** ** Validation *)

(** The loop that builds the working set: the lane without the candidate. *)
Fixpoint lane_nodes `{FileSystem} (scope : GraphScope) (candidate : WorkItem) (items : list WorkItem)
    (nodes : list WorkItem) (declared : gset string) : ORes (list WorkItem * gset string) :=
  match items with
  | [] => inr (nodes, declared)
  | item :: items =>
      if decide (wi_work_id item = wi_work_id candidate ∨ scope_contains scope item = false) then
        lane_nodes scope candidate items nodes declared
      else if decide (wi_work_id item ∈ declared) then
        inl (invalid "scope contains duplicate work ids")
      else lane_nodes scope candidate items (nodes ++ [item]) ({[ wi_work_id item ]} ∪ declared)
  end.

Fixpoint count_edges (nodes : list WorkItem) (edges : Z) : ORes unit :=
  match nodes with
  | [] => inr ()
  | node :: nodes =>
      let edges := saturating_add edges (Z.of_nat (length (wi_dependencies node))) in
      if decide (MAX_GRAPH_EDGES < edges)%Z then
        inl (exhausted ("scope declares more than " +:+ pretty MAX_GRAPH_EDGES
               +:+ " dependency edges; validation is refused rather than unbounded"))
      else count_edges nodes edges
  end.

Fixpoint check_edges (own : string) (declared seen : gset string) (ds : list WorkDependency)
    : ORes unit :=
  match ds with
  | [] => inr ()
  | d :: ds =>
      let dep_id := dep_work_id d in
      if decide (dep_id = own) then inl (invalid "work item depends on itself")
      else if decide (dep_id ∈ seen) then
        inl (invalid ("work item declares dependency " +:+ dep_id +:+ " more than once"))
      else if decide (dep_id ∉ declared) then
        inl (invalid ("dependency " +:+ dep_id +:+ " is not resolvable in this scope"))
      else check_edges own declared ({[ dep_id ]} ∪ seen) ds
  end.

Definition validate_scoped_dependency_graph `{FileSystem} (scope_items : list WorkItem)
    (candidate : WorkItem) (scope : GraphScope) : ORes unit :=
  if negb (scope_contains scope candidate) then
    inl {| oe_code := WorkspaceMismatch;
           oe_message := "work item does not belong to the requested scope" |}
  else if decide (MAX_GRAPH_SCOPE_ITEMS < saturating_add (Z.of_nat (length scope_items)) 1)%Z then
    inl (exhausted ("scope holds more than " +:+ pretty MAX_GRAPH_SCOPE_ITEMS
           +:+ " work items; dependency validation is refused rather than unbounded"))
  else
    '(nodes, declared) ← lane_nodes scope candidate scope_items [] ∅;
    if decide (wi_work_id candidate ∈ declared) then
      inl (invalid "scope contains duplicate work ids")
    else
      let declared := {[ wi_work_id candidate ]} ∪ declared in
      let nodes := nodes ++ [candidate] in
      _ ← count_edges nodes 0;
      _ ← check_edges (wi_work_id candidate) declared ∅ (wi_dependencies candidate);
      match find_cycle nodes declared with
      | Some cycle => inl (invalid ("work dependency cycle: " +:+ String.concat " -> " cycle))
      | None => inr ()
      end.

(** ** Admission *)

Inductive AdmissionBlock :=
  | Admissible | DependenciesPending | DependencyUnsatisfiable | DependencyUnresolved
  | AttemptActive | AwaitingInput | AwaitingApproval | UnderReview | AttemptsExhausted
  | DeadlineExceeded | Succeeded | Failed | Cancelled | Container | ManuallyBlocked.

#[export] Instance AdmissionBlock_eq_dec : EqDecision AdmissionBlock.
Proof. solve_decision. Defined.

Definition is_admissible (a : AdmissionBlock) : bool :=
  match a with Admissible => true | _ => false end.
Definition admission_is_terminal (a : AdmissionBlock) : bool :=
  match a with Succeeded | Failed | Cancelled => true | _ => false end.
Definition needs_operator_attention (a : AdmissionBlock) : bool :=
  match a with
  | DependencyUnsatisfiable | DependencyUnresolved | AttemptsExhausted | DeadlineExceeded
  | ManuallyBlocked => true
  | _ => false
  end.

Definition admission_as_str (a : AdmissionBlock) : string :=
  match a with
  | Admissible => "admissible"
  | DependenciesPending => "dependencies_pending"
  | DependencyUnsatisfiable => "dependency_unsatisfiable"
  | DependencyUnresolved => "dependency_unresolved"
  | AttemptActive => "attempt_active"
  | AwaitingInput => "awaiting_input"
  | AwaitingApproval => "awaiting_approval"
  | UnderReview => "under_review"
  | AttemptsExhausted => "attempts_exhausted"
  | DeadlineExceeded => "deadline_exceeded"
  | Succeeded => "succeeded"
  | Failed => "failed"
  | Cancelled => "cancelled"
  | Container => "container"
  | ManuallyBlocked => "manually_blocked"
  end.

Definition is_legacy_derived_wait (item : WorkItem) : bool :=
  bool_decide (wi_state item = WBlocked) && bool_decide (wi_block_provenance item = None)
  && bool_decide (wi_blocked_reason item = None) && bool_decide (wi_dependencies item ≠ [])
  && negb (wi_is_container item).

Definition past_deadline (item : WorkItem) (now : DateTime) : bool :=
  match wi_deadline item with Some deadline => bool_decide (deadline ≤ now)%Z | None => false end.

(** The loop over the dependencies: an early answer, or whether one is pending. *)
Fixpoint admission_dependencies (states : DependencyStates) (ds : list WorkDependency)
    (pending : bool) : AdmissionBlock + bool :=
  match ds with
  | [] => inr pending
  | d :: ds =>
      match states !! dep_work_id d with
      | None | Some None => inl DependencyUnresolved
      | Some (Some state) =>
          if decide (state = dep_required_state d) then admission_dependencies states ds pending
          else if work_is_terminal state then inl DependencyUnsatisfiable
          else admission_dependencies states ds true
      end
  end.

(** From the deadline on: queued work and derived waits. *)
Definition admission_of_waiting (item : WorkItem) (states : DependencyStates) (now : DateTime)
    : AdmissionBlock :=
  if past_deadline item now then DeadlineExceeded
  else match admission_dependencies states (wi_dependencies item) false with
       | inl early => early
       | inr true => DependenciesPending
       | inr false =>
           if decide (rt_max_attempts (wp_retry (wi_policy item)) ≤ wi_attempt_count item)%Z then
             AttemptsExhausted
           else Admissible
       end.

Definition evaluate_admission (item : WorkItem) (states : DependencyStates) (now : DateTime)
    : AdmissionBlock :=
  match wi_state item with
  | WSucceeded => Succeeded
  | WFailed => if past_deadline item now then DeadlineExceeded else Failed
  | WCancelled => Cancelled
  | state =>
      if bool_decide (state = WBlocked)
         && match wi_block_provenance item with Some p => is_manual p | None => true end
         && negb (is_legacy_derived_wait item) then ManuallyBlocked
      else if wi_is_container item then Container
      else match state with
           | WLeased | WRunning => AttemptActive
           | WAwaitingInput => AwaitingInput
           | WAwaitingApproval => AwaitingApproval
           | WReview => UnderReview
           | _ => admission_of_waiting item states now
           end
  end.

(** ** The operator projection *)

Record WorkGraphNode := {
  gn_work_id : string; gn_kind : string; gn_state : WorkState; gn_admission : AdmissionBlock;
  gn_priority : Z; gn_revision : Z; gn_attempt_count : Z; gn_max_attempts : Z;
  gn_is_container : bool; gn_deadline : option DateTime; gn_dependencies : list string;
  gn_unresolved_dependencies : Z; gn_created_at : DateTime; gn_updated_at : DateTime;
}.

Definition is_resolved (states : DependencyStates) (d : WorkDependency) : bool :=
  match states !! dep_work_id d with Some (Some _) => true | _ => false end.

Definition project_node (visible : gmap string WorkState) (now : DateTime) (item : WorkItem)
    : WorkGraphNode :=
  let states := states_of visible (wi_dependencies item) in
  {| gn_work_id := wi_work_id item; gn_kind := wi_kind item; gn_state := wi_state item;
     gn_admission := evaluate_admission item states now; gn_priority := wi_priority item;
     gn_revision := wi_revision item; gn_attempt_count := wi_attempt_count item;
     gn_max_attempts := rt_max_attempts (wp_retry (wi_policy item));
     gn_is_container := wi_is_container item; gn_deadline := wi_deadline item;
     gn_dependencies :=
       dep_work_id <$> filter (λ d, is_resolved states d = true) (wi_dependencies item);
     gn_unresolved_dependencies :=
       foldl (λ n d, if is_resolved states d then n else saturating_add n 1) 0%Z
         (wi_dependencies item);
     gn_created_at := wi_created_at item; gn_updated_at := wi_updated_at item |}.

Definition project_scoped_graph `{FileSystem} (scope_items : list WorkItem) (scope : GraphScope)
    (now : DateTime) : list WorkGraphNode :=
  let lane := order_work (filter (λ item, scope_contains scope item = true) scope_items) in
  let visible := list_to_map (reverse ((λ item, (wi_work_id item, wi_state item)) <$> lane)) in
  project_node visible now <$> lane.
