(* ===== verification/GraphFacts.v ===== *)
(** * Facts of the cycle search

    [find_cycle] of [orchestration/graph.rs] peels the items that have no
    unpeeled dependency and walks what remains.  This file gives the invariants
    of the two loops and proves that their bounds suffice; the theorem itself
    is in [GraphProps]. *)

From S2P Require Import Prelude Text Window Workload WorkGraph.
From stdpp Require Import relations.

(** ** Counting occurrences *)

Definition cnt (x : string) (l : list string) : nat := length (filter (.= x) l).

Lemma cnt_nil x : cnt x [] = 0.
Proof. done. Qed.

Lemma cnt_cons x y l : cnt x (y :: l) = (if decide (y = x) then 1 else 0) + cnt x l.
Proof. unfold cnt. rw filter_cons. by case_decide. Qed.

Lemma cnt_app x l k : cnt x (l ++ k) = cnt x l + cnt x k.
Proof. unfold cnt. by rw filter_app length_app. Qed.

Lemma cnt_pos x l : 0 < cnt x l ↔ x ∈ l.
Proof.
  induction l as [|y l IH]; [rw cnt_nil elem_of_nil; lia|].
  rw cnt_cons elem_of_cons. case_decide; naive_solver lia.
Qed.

Lemma filter_cnt (p : gset string) x (l : list string) :
  x ∉ p → length (filter (.∉ p) l) = length (filter (.∉ {[ x ]} ∪ p) l) + cnt x l.
Proof.
  intros Hx. induction l as [|y l IH]; [done|]. rw !filter_cons cnt_cons.
  repeat case_decide; simpl; set_solver by lia.
Qed.

Lemma filter_none (p : gset string) (l : list string) :
  length (filter (.∉ p) l) = 0 ↔ ∀ u, u ∈ l → u ∈ p.
Proof.
  induction l as [|y l IH]; [set_solver|]. rw filter_cons.
  case_decide; simpl; [set_solver by lia|]. rw IH.
  split; [intros Hl u [->|?]%elem_of_cons; [done|by apply Hl]|set_solver].
Qed.

(** ** The graph of a list of items *)

Definition ids (nodes : list WorkItem) : list string := wi_work_id <$> nodes.

(** The dependencies of the item [v] that are items of the list. *)
Definition targets_of (nodes : list WorkItem) (declared : gset string) (v : string) : list string :=
  nodes ≫= λ n, if decide (wi_work_id n = v) then resolvable declared n else [].

Definition depends (nodes : list WorkItem) (declared : gset string) (v u : string) : Prop :=
  u ∈ targets_of nodes declared v.

(** A work set as [validate_scoped_dependency_graph] builds it. *)
Definition work_set (nodes : list WorkItem) (declared : gset string) : Prop :=
  NoDup (ids nodes) ∧ declared = list_to_set (ids nodes).

Definition degree (m : gmap string nat) (v : string) : nat := default 0 (m !! v).

Lemma elem_of_targets nodes declared v u :
  u ∈ targets_of nodes declared v ↔
    ∃ n, n ∈ nodes ∧ wi_work_id n = v ∧ u ∈ dep_work_id <$> wi_dependencies n ∧ u ∈ declared.
Proof.
  unfold targets_of. rw list_elem_of_bind. split.
  - intros (n & Hu & Hn). case_decide; [|by apply elem_of_nil in Hu].
    unfold resolvable in Hu. apply list_elem_of_filter in Hu. naive_solver.
  - intros (n & Hn & Hv & Hu & Hd). exists n. split; [|done].
    rw decide_True //. unfold resolvable. by apply list_elem_of_filter.
Qed.

Lemma targets_declared nodes declared v u : depends nodes declared v u → u ∈ declared.
Proof. intros (n & ? & ? & ? & ?)%elem_of_targets. done. Qed.

Lemma targets_outside nodes declared v : v ∉ ids nodes → targets_of nodes declared v = [].
Proof.
  intros Hv. destruct (targets_of nodes declared v) as [|u l] eqn:E; [done|].
  assert (u ∈ targets_of nodes declared v) as Hu by (rw E; by left).
  apply elem_of_targets in Hu as (n & Hn & <- & _). destruct Hv.
  by apply list_elem_of_fmap_2.
Qed.

Lemma targets_app nodes k declared v :
  targets_of (nodes ++ k) declared v = targets_of nodes declared v ++ targets_of k declared v.
Proof. apply bind_app. Qed.

Lemma targets_single n declared v :
  targets_of [n] declared v = if decide (wi_work_id n = v) then resolvable declared n else [].
Proof. unfold targets_of. simpl. by rw app_nil_r. Qed.

(** ** The first loop *)

Lemma reverse_edges_cnt (w : string) ds (m : gmap string (list string)) u v :
  cnt v (default [] (foldl (λ m d, <[d := default [] (m !! d) ++ [w]]> m) m ds !! u))
  = cnt v (default [] (m !! u)) + (if decide (w = v) then cnt u ds else 0).
Proof.
  revert m. induction ds as [|d ds IH]; intros m; simpl.
  { rw cnt_nil. case_decide; lia. }
  rw IH cnt_cons. destruct (decide (d = u)) as [->|Hne].
  - rw lookup_insert_eq /= cnt_app cnt_cons cnt_nil. repeat case_decide; lia.
  - by rw lookup_insert_ne.
Qed.

Lemma build_graph_spec nodes declared indegree dependents :
  NoDup (ids nodes) →
  build_graph nodes declared = (indegree, dependents) →
  (∀ v, is_Some (indegree !! v) ↔ v ∈ ids nodes) ∧
  (∀ v, degree indegree v = length (targets_of nodes declared v)) ∧
  (∀ u v, cnt v (default [] (dependents !! u)) = cnt u (targets_of nodes declared v)).
Proof.
  revert indegree dependents. induction nodes as [|n nodes IH] using rev_ind.
  { intros ?? _ [= <- <-]. split_and!; intros; [|done..].
    rw lookup_empty. split; [by intros []|by intros ?%elem_of_nil]. }
  intros ind deps. unfold ids. rw fmap_app /= NoDup_app. intros (Hnd & Hn & _).
  unfold build_graph. rw foldl_snoc. change (foldl _ (∅, ∅) nodes) with (build_graph nodes declared).
  destruct (build_graph nodes declared) as [i0 d0] eqn:E. intros [= <- <-].
  destruct (IH i0 d0 Hnd eq_refl) as (Hdom & Hdeg & Hcnt).
  assert (∀ v, wi_work_id n = v → targets_of nodes declared v = []) as Hnew.
  { intros v <-. apply targets_outside. intros Hin. by apply (Hn _ Hin), list_elem_of_singleton. }
  split_and!.
  - intros v. rw elem_of_app list_elem_of_singleton -(Hdom v) lookup_insert_is_Some'. naive_solver.
  - intros v. unfold degree. rw targets_app targets_single length_app. case_decide as Hv.
    + rw Hnew // -Hv lookup_insert_eq //.
    + rw lookup_insert_ne // Nat.add_0_r. apply Hdeg.
  - intros u v. rw reverse_edges_cnt Hcnt targets_app targets_single cnt_app. case_decide; rw ?cnt_nil; lia.
Qed.

(** ** One round of decrements *)

Lemma degree_insert m x k v : degree (<[x := k]> m) v = if decide (x = v) then k else degree m v.
Proof. unfold degree. rw lookup_insert. by case_decide. Qed.

Lemma degree_pos m v : 0 < degree m v → is_Some (m !! v).
Proof. unfold degree. destruct (m !! v); simpl; [by eexists|lia]. Qed.

Lemma decrement_all L deg r deg' r' :
  (∀ v, cnt v L ≤ degree deg v) →
  foldl decrement (deg, r) L = (deg', r') →
  (∀ v, degree deg' v = degree deg v - cnt v L) ∧
  (∀ v, is_Some (deg' !! v) ↔ is_Some (deg !! v)) ∧
  ∃ extra, r' = r ++ extra ∧ NoDup extra ∧
    ∀ v, v ∈ extra ↔ 0 < cnt v L ∧ degree deg v = cnt v L.
Proof.
  revert deg' r'. induction L as [|x L IH] using rev_ind; intros deg' r' Hle.
  { intros [= <- <-]. split_and!; [intros; rw cnt_nil; lia|done|].
    exists []. rw app_nil_r. split_and!; [done|constructor|].
    intros v. rw cnt_nil elem_of_nil. lia. }
  assert (∀ v, cnt v (L ++ [x]) = cnt v L + if decide (x = v) then 1 else 0) as Hc.
  { intros v. by rw cnt_app cnt_cons cnt_nil Nat.add_0_r. }
  setoid_rewrite Hc. setoid_rewrite Hc in Hle. rw foldl_snoc.
  destruct (foldl decrement (deg, r) L) as [d0 r0] eqn:E.
  destruct (IH d0 r0) as (Hd & Hdom & extra & -> & Hnd & Hex); [intros v; pose proof (Hle v); lia|done|].
  pose proof (Hle x) as Hx. rw decide_True // in Hx.
  unfold decrement at 1. simpl. change (default 0 (d0 !! x)) with (degree d0 x).
  intros [= <- <-].
  split_and!.
  - intros v. rw degree_insert. case_decide as Hv; [subst v|]; rw Hd; lia.
  - intros v. rw lookup_insert_is_Some' Hdom. split; [intros [<-|?]; [|done]|by right].
    apply degree_pos. lia.
  - assert (x ∉ extra) as Hnx by (rw Hex; lia).
    case_decide as H0; rw Hd in H0.
    + exists (extra ++ [x]). rw -assoc NoDup_app. split_and!; [done..| |apply NoDup_singleton|].
      { intros y Hy ->%list_elem_of_singleton. done. }
      intros v. rw elem_of_app list_elem_of_singleton Hex. case_decide as Hv; [subst v|]; naive_solver lia.
    + exists extra. split_and!; [done..|]. intros v. rw Hex. case_decide as Hv; [subst v|]; naive_solver lia.
Qed.

(** ** The peeling loop *)

Section peeling.
Context (nodes : list WorkItem) (declared : gset string).
Context (dependents : gmap string (list string)).
Context (Hrev : ∀ u v, cnt v (default [] (dependents !! u)) = cnt u (targets_of nodes declared v)).

Abbreviation T := (targets_of nodes declared).
(** [u] is smaller than [v] when [v] depends on it. *)
Definition below (u v : string) : Prop := depends nodes declared v u.

Record peel_inv (deg : gmap string nat) (ready : list string) (peeled : gset string) : Prop := {
  pi_dom v : is_Some (deg !! v) ↔ v ∈ declared;
  pi_deg v : degree deg v = length (filter (.∉ peeled) (T v));
  pi_nodup : NoDup ready;
  pi_zero v : (v ∈ declared ∧ degree deg v = 0) ↔ (v ∈ ready ∨ v ∈ peeled);
  pi_disj v : v ∈ ready → v ∉ peeled;
  pi_acc v : v ∈ ready ∨ v ∈ peeled → Acc below v;
}.

Lemma peel_step deg id rest peeled deg' ready' :
  peel_inv deg (id :: rest) peeled →
  foldl decrement (deg, rest) (default [] (dependents !! id)) = (deg', ready') →
  peel_inv deg' ready' ({[ id ]} ∪ peeled).
Proof.
  intros [Hdom Hdeg Hnd Hzero Hdisj Hacc] E.
  assert (id ∉ peeled) as Hid by (apply Hdisj; by left).
  assert (∀ v, length (filter (.∉ {[ id ]} ∪ peeled) (T v)) = degree deg v - cnt id (T v)) as Hlen.
  { intros v. pose proof (filter_cnt peeled id (T v) Hid). rw Hdeg. lia. }
  assert (∀ v, cnt id (T v) ≤ degree deg v) as Hle.
  { intros v. pose proof (filter_cnt peeled id (T v) Hid). rw Hdeg. lia. }
  apply decrement_all in E as (Hd & Hdom' & extra & -> & Hndx & Hex); [|intros v; by rw Hrev].
  setoid_rewrite Hrev in Hd. setoid_rewrite Hrev in Hex.
  apply NoDup_cons in Hnd as [Hidr Hnd].
  assert (∀ v, v ∈ extra → (v ∉ id :: rest) ∧ (v ∉ peeled) ∧ v ∈ declared) as Hnew.
  { intros v Hv%Hex. assert (v ∈ declared) by (apply Hdom, degree_pos; lia).
    split_and!; [| |done]; intros Hr; [assert (v ∈ declared ∧ degree deg v = 0) by (apply Hzero; by left); lia|].
    assert (v ∈ declared ∧ degree deg v = 0) by (apply Hzero; by right). lia. }
  assert (∀ v, (v ∈ declared ∧ degree deg' v = 0) ↔ (v ∈ rest ++ extra ∨ v ∈ {[ id ]} ∪ peeled)) as Hz'.
  { intros v. transitivity ((v ∈ declared ∧ degree deg v = 0) ∨ v ∈ extra); [|rw Hzero; set_solver].
    pose proof (Hle v). rw Hd Hex. split; [|intros [[??]|[??]]; split; [done|lia| |lia]].
    - intros [??]. destruct (decide (degree deg v = 0)); [by left|right; lia].
    - apply Hdom, degree_pos. lia. }
  split; [|by intros v; rw Hd Hlen| |done| |].
  - intros v. by rw Hdom'.
  - apply NoDup_app. split_and!; [done| |done]. intros v Hr Hx%Hnew. set_solver.
  - intros v [Hr|Hx%Hnew]%elem_of_app; [|set_solver].
    assert (v ∉ peeled) by (apply Hdisj; by right). set_solver.
  - intros v [Hv H0]%Hz'. constructor. intros u Hu. rw Hd -Hlen in H0.
    pose proof (proj1 (filter_none _ _) H0 u Hu). apply Hacc. set_solver.
Qed.

Lemma peel_inv_subset deg ready peeled : peel_inv deg ready peeled → peeled ⊆ declared.
Proof. intros I v Hv. apply (pi_zero _ _ _ I v). by right. Qed.

Lemma peel_total fuel deg ready peeled :
  peel_inv deg ready peeled → size declared < fuel + size peeled →
  ∃ deg' peeled', peel fuel dependents ready deg peeled = Some (deg', peeled') ∧
    peel_inv deg' [] peeled'.
Proof.
  revert deg ready peeled. induction fuel as [|fuel IH]; intros deg ready peeled I Hf.
  { pose proof (subseteq_size _ _ (peel_inv_subset _ _ _ I)). lia. }
  destruct ready as [|id rest]; simpl; [by eauto|].
  destruct (foldl decrement _ _) as [deg' ready'] eqn:E.
  pose proof (pi_disj _ _ _ I id (list_elem_of_here _ _)).
  apply IH; [by eapply peel_step|]. rw size_union; [|set_solver]. rw size_singleton. lia.
Qed.

(** What is peeled is what no cycle can be reached from. *)
Lemma peeled_acc deg peeled :
  peel_inv deg [] peeled → ∀ v, v ∈ peeled ↔ v ∈ declared ∧ Acc below v.
Proof.
  intros I v. split; [intros Hv; split; [by apply (peel_inv_subset _ _ _ I)|apply (pi_acc _ _ _ I); by right]|].
  intros [Hv Ha]. induction Ha as [v _ IH].
  assert (v ∈ ([] : list string) ∨ v ∈ peeled) as [[]%elem_of_nil|?]; [|done].
  apply (pi_zero _ _ _ I). split; [done|]. rw (pi_deg _ _ _ I). apply filter_none.
  intros u Hu. apply IH; [done|by eapply targets_declared].
Qed.

(** An item that is not peeled depends on another such item. *)
Lemma residue_next deg peeled v :
  peel_inv deg [] peeled → v ∈ declared → v ∉ peeled → ∃ u, u ∈ T v ∧ u ∈ declared ∧ u ∉ peeled.
Proof.
  intros I Hv Hp. assert (degree deg v ≠ 0) as H0.
  { intros H0. assert (v ∈ ([] : list string) ∨ v ∈ peeled) as [[]%elem_of_nil|?]; [|done].
    by apply (pi_zero _ _ _ I). }
  rw (pi_deg _ _ _ I) in H0. destruct (filter (.∉ peeled) (T v)) as [|u l] eqn:E; [done|].
  assert (u ∈ filter (.∉ peeled) (T v)) as [??]%list_elem_of_filter by (rw E; by left).
  exists u. split_and!; [done| |done]. by eapply targets_declared.
Qed.
End peeling.

(** ** The walk *)

(** Consecutive members are related. *)
Definition chain (R : string → string → Prop) (l : list string) : Prop :=
  ∀ i a b, l !! i = Some a → l !! S i = Some b → R a b.

(** A closed walk through distinct members: the first one is repeated at the end. *)
Definition ring (R : string → string → Prop) (c : list string) : Prop :=
  ∃ x t, c = x :: t ++ [x] ∧ NoDup (x :: t) ∧ chain R c.

Lemma chain_snoc R l a b : chain R (l ++ [a]) → R a b → chain R (l ++ [a; b]).
Proof.
  intros Hc Hab i x y. change [a; b] with ([a] ++ [b]). rw assoc. intros Hx Hy.
  destruct (decide (S i < length (l ++ [a]))).
  - rw lookup_app_l in Hx; [|lia]. rw lookup_app_l in Hy; [|lia]. by eapply Hc.
  - pose proof (lookup_lt_Some _ _ _ Hy) as Hl. rw !length_app /= in n Hl.
    assert (i = length l) as -> by lia.
    rw lookup_app_r in Hy; [|rw length_app /=; lia]. rw lookup_app_l in Hx; [|rw length_app /=; lia].
    rw list_lookup_middle // in Hx. rw length_app /= in Hy.
    replace (S (length l) - (length l + 1)) with 0 in Hy by lia. by simplify_eq/=.
Qed.

Lemma chain_drop R n l : chain R l → chain R (drop n l).
Proof. intros Hc i a b. rw !lookup_drop -plus_n_Sm. apply Hc. Qed.

Lemma chain_tc R x l y : chain R (x :: l ++ [y]) → tc R x y.
Proof.
  revert x. induction l as [|z l IH]; intros x Hc; [apply tc_once; by apply (Hc 0)|].
  eapply tc_l; [by apply (Hc 0)|]. apply IH. intros i. apply (Hc (S i)).
Qed.

Lemma ring_cyclic R c : ring R c → ∃ x, x ∈ c ∧ tc R x x.
Proof. intros (x & t & -> & _ & Hc). exists x. split; [by left|by eapply chain_tc]. Qed.

Lemma walk_ring R (res : gset string) (tg : gmap string (list string)) :
  (∀ v, v ∈ res → ∃ u, tg !! v ≫= head = Some u ∧ u ∈ res ∧ R v u) →
  ∀ fuel path on_path current,
    NoDup path → (∀ v, v ∈ path → v ∈ res) → current ∈ res →
    (∀ x i, on_path !! x = Some i ↔ path !! i = Some x) →
    chain R (path ++ [current]) → size res < fuel + length path →
    ∃ c, walk fuel tg path on_path current = Some (Some c) ∧ ring R c.
Proof.
  intros Htg fuel. induction fuel as [|fuel IH]; intros path on_path current Hnd Hsub Hcur Hon Hch Hf.
  { assert (length path ≤ size res); [|lia]. rw -(size_list_to_set (C := gset string) path) //.
    apply subseteq_size. set_solver. }
  simpl. destruct (on_path !! current) as [i|] eqn:Ei.
  - pose proof (proj1 (Hon _ _) Ei) as Hi. pose proof (lookup_lt_Some _ _ _ Hi).
    exists (drop i path ++ [current]). split; [done|]. exists current, (drop (S i) path).
    rw app_comm_cons -(drop_S _ _ _ Hi). split_and!; [done| |].
    + by eapply sublist_NoDup, sublist_drop.
    + rw -(drop_app_le path [current] i); [|lia]. by apply chain_drop.
  - destruct (Htg current Hcur) as (u & -> & Hu & HR).
    assert (current ∉ path) as Hnew.
    { intros [i Hi]%list_elem_of_lookup. apply Hon in Hi. by rw Ei in Hi. }
    apply IH; [|set_solver|done| | |rw length_app /=; lia].
    + apply NoDup_app. split_and!; [done|set_solver|apply NoDup_singleton].
    + intros x i. rw lookup_insert lookup_snoc_Some. case_decide as Hx; [subst x|].
      * split; [intros [= <-]; by right|intros [[_ ?%list_elem_of_lookup_2]|[-> _]]; done].
      * rw Hon. split; [intros Hi; left; split; [by eapply lookup_lt_Some|done]|naive_solver].
    + rw -assoc. by apply chain_snoc.
Qed.

Lemma dependency_targets_lookup nodes declared residue v :
  NoDup (ids nodes) →
  dependency_targets nodes declared residue !! v =
    if decide (v ∈ ids nodes ∧ v ∈ residue) then
      Some (merge_sort String.le (filter (.∈ residue) (targets_of nodes declared v)))
    else None.
Proof.
  unfold ids. induction nodes as [|n nodes IH] using rev_ind; [done|].
  rw fmap_app /= NoDup_app. intros (Hnd & Hn & _). unfold dependency_targets. rw foldl_snoc.
  change (foldl _ ∅ nodes) with (dependency_targets nodes declared residue).
  rw targets_app targets_single. destruct (decide (wi_work_id n = v)) as [<-|Hne].
  - rw targets_outside /=; [|intros Hin; by apply (Hn _ Hin), list_elem_of_singleton].
    destruct (decide (wi_work_id n ∈ residue)) as [Hr|Hr].
    + rw lookup_insert_eq decide_True //. split; [|done]. apply elem_of_app. right. by left.
    + rw IH // !decide_False //; naive_solver.
  - assert (∀ m : gmap string (list string), (if decide (wi_work_id n ∈ residue)
      then <[wi_work_id n := merge_sort String.le (filter (.∈ residue) (resolvable declared n))]> m
      else m) !! v = m !! v) as ->.
    { intros m. destruct (decide (wi_work_id n ∈ residue)); [by rw lookup_insert_ne|done]. }
    rw IH // app_nil_r. repeat case_decide; set_solver.
Qed.

(** ** The two loops together *)

Definition sorted_ids (declared : gset string) : list string :=
  (btree_iter (gset_to_gmap () declared)).*1.

(** [find_cycle_run] after the peeling loop. *)
Definition search_residue (nodes : list WorkItem) (declared : gset string) (residue : list string)
    : option (option (list string)) :=
  match residue with
  | [] => Some None
  | start :: _ =>
      walk (S (length residue)) (dependency_targets nodes declared (list_to_set residue)) [] ∅ start
  end.

Lemma elem_of_sorted_ids declared v : v ∈ sorted_ids declared ↔ v ∈ declared.
Proof.
  unfold sorted_ids. rw list_elem_of_fmap. split.
  - intros ([k []] & -> & Hk%elem_of_btree_iter). by apply lookup_gset_to_gmap_Some in Hk as [? _].
  - intros Hv. exists (v, ()). split; [done|]. apply elem_of_btree_iter. by apply lookup_gset_to_gmap_Some.
Qed.

Lemma peel_inv_init nodes declared indegree dependents :
  work_set nodes declared → build_graph nodes declared = (indegree, dependents) →
  peel_inv nodes declared indegree (filter (λ kv, kv.2 = 0) (btree_iter indegree)).*1 ∅.
Proof.
  intros [Hnd ->] E. apply build_graph_spec in E as (Hdom & Hdeg & _); [|done].
  assert (∀ v, v ∈ (filter (λ kv, kv.2 = 0) (btree_iter indegree)).*1 ↔ indegree !! v = Some 0) as Hr.
  { intros v. rw list_elem_of_fmap. split.
    - intros ([k d] & -> & [H0 Hk%elem_of_btree_iter]%list_elem_of_filter). simpl in *. by subst d.
    - intros Hv. exists (v, 0). split; [done|]. apply list_elem_of_filter. by rw elem_of_btree_iter. }
  assert (∀ v, targets_of nodes (list_to_set (ids nodes)) v = [] → Acc (below nodes (list_to_set (ids nodes))) v)
    as Hacc.
  { intros v Hv. constructor. intros u Hu. unfold below, depends in Hu. rw Hv in Hu. by apply elem_of_nil in Hu. }
  split.
  - intros v. by rw elem_of_list_to_set.
  - intros v. rw Hdeg. f_equal. induction (targets_of _ _ v) as [|u l IH]; [done|].
    rw filter_cons_True; [by rw -IH|set_solver].
  - eapply sublist_NoDup; [apply (btree_iter_NoDup indegree)|]. apply fmap_sublist, sublist_filter.
  - intros v. rw Hr elem_of_list_to_set -(Hdom v). unfold degree. split.
    + intros [[d ->] H0]. left. simpl in H0. by subst d.
    + intros [->|[]%elem_of_empty]. split; [by eexists|done].
  - set_solver.
  - intros v [Hv%Hr|[]%elem_of_empty]. apply Hacc, length_zero_iff_nil. rw -Hdeg. unfold degree. by rw Hv.
Qed.

Lemma find_cycle_split nodes declared :
  work_set nodes declared →
  ∃ peeled : gset string,
    (∀ v, v ∈ peeled ↔ v ∈ declared ∧ Acc (below nodes declared) v) ∧
    (∀ v, v ∈ declared → v ∉ peeled →
       ∃ u, depends nodes declared v u ∧ u ∈ declared ∧ u ∉ peeled) ∧
    find_cycle_run nodes declared =
      search_residue nodes declared (filter (.∉ peeled) (sorted_ids declared)).
Proof.
  intros Hws. destruct (build_graph nodes declared) as [indegree dependents] eqn:E.
  pose proof (peel_inv_init _ _ _ _ Hws E) as I0. pose proof Hws as [Hnd Hdecl].
  apply build_graph_spec in E as HE; [|done]. destruct HE as (_ & _ & Hrev).
  assert (size declared = length nodes) as Hsize.
  { rw Hdecl size_list_to_set // /ids. by rw length_fmap. }
  destruct (peel_total nodes declared dependents Hrev (S (length nodes)) _ _ _ I0) as (deg & peeled & Hp & I);
    [rw size_empty; lia|].
  exists peeled. split_and!; [by eapply peeled_acc|intros v; by eapply residue_next|].
  assert (dom deg = declared) as Hdom.
  { apply set_eq. intros v. rw elem_of_dom. apply (pi_dom _ _ _ _ _ I). }
  assert ((btree_iter deg).*1 = sorted_ids declared) as Hkeys.
  { apply btree_iter_keys. intros v. rw (pi_dom _ _ _ _ _ I) -elem_of_dom dom_gset_to_gmap //. }
  unfold find_cycle_run. rw E Hp /= Hkeys. case_decide as Hs; [|done].
  assert (peeled = declared) as ->.
  { apply set_subseteq_size_eq; [by eapply peel_inv_subset|]. rw -size_dom Hdom in Hs. lia. }
  assert (filter (.∉ declared) (sorted_ids declared) = []) as ->; [|done].
  apply length_zero_iff_nil, filter_none. intros v. apply elem_of_sorted_ids.
Qed.

(** The walk over a residue in which every member has a successor. *)
Lemma search_residue_ring nodes declared residue :
  work_set nodes declared → NoDup residue → residue ≠ [] →
  (∀ v, v ∈ residue → v ∈ declared ∧ ∃ u, depends nodes declared v u ∧ u ∈ residue) →
  ∃ c, search_residue nodes declared residue = Some (Some c) ∧ ring (depends nodes declared) c.
Proof.
  intros [Hids Hdecl] Hnd Hne Hres. destruct residue as [|start rest] eqn:E; [done|].
  rw -E in Hnd Hres |- *. assert (start ∈ residue) as Hstart by (subst; by left).
  replace (search_residue nodes declared residue) with
    (walk (S (length residue)) (dependency_targets nodes declared (list_to_set residue)) [] ∅ start)
    by (by subst).
  apply (walk_ring (depends nodes declared) (list_to_set residue)).
  - intros v Hv%elem_of_list_to_set. destruct (Hres v Hv) as (Hd & u & Hu & Hur).
    rw dependency_targets_lookup // decide_True; [|by set_solver]. simpl.
    destruct (merge_sort _ _) as [|w l] eqn:Em.
    { exfalso. apply (elem_of_nil u). rw -Em merge_sort_Permutation list_elem_of_filter. set_solver. }
    assert (w ∈ merge_sort String.le (filter (.∈ (list_to_set residue : gset string)) (targets_of nodes declared v)))
      as Hw by (rw Em; by left).
    rw merge_sort_Permutation list_elem_of_filter in Hw. exists w. split; [done|]. by destruct Hw.
  - constructor.
  - set_solver.
  - set_solver.
  - intros x i. by rw lookup_empty.
  - intros i a b Ha Hb. by destruct i.
  - rw size_list_to_set //=. lia.
Qed.
