(* ===== verification/GraphProps.v ===== *)
(** * Properties of the work graph

    The cycle search decides acyclicity and is deterministic, validation is
    exactly its specification and looks at one lane only, the order of work
    does not depend on the input order, and the admission evaluator and the
    operator projection do what they promise. *)

From S2P Require Import Prelude Text Window Workload WorkGraph GraphFacts.
From stdpp Require Import relations.

(** ** The cycle search *)

Lemma acc_acyclic {A} (R : A → A → Prop) x : Acc (flip R) x → ¬ tc R x x.
Proof.
  intros Ha. induction Ha as [x _ IH]. intros Hx.
  inversion Hx as [? ? Hy|? y ? Hy Ht]; subst; [by apply (IH x)|].
  apply (IH y Hy). by eapply tc_r.
Qed.

Lemma tc_declared nodes declared u v : tc (depends nodes declared) u v → v ∈ declared.
Proof. induction 1 as [u v Hv|]; [by eapply targets_declared|done]. Qed.

Lemma residue_NoDup (p : gset string) declared : NoDup (filter (.∉ p) (sorted_ids declared)).
Proof. apply NoDup_filter, btree_iter_NoDup. Qed.

Lemma elem_of_residue (p declared : gset string) v :
  v ∈ filter (.∉ p) (sorted_ids declared) ↔ v ∈ declared ∧ v ∉ p.
Proof. rw list_elem_of_filter elem_of_sorted_ids. naive_solver. Qed.

Lemma find_cycle_total nodes declared :
  work_set nodes declared →
  ∃ answer, find_cycle_run nodes declared = Some answer ∧
    match answer with
    | None => ∀ v, ¬ tc (depends nodes declared) v v
    | Some cycle => ring (depends nodes declared) cycle
    end.
Proof.
  intros Hws. destruct (find_cycle_split _ _ Hws) as (p & Hp & Hnext & ->).
  set (residue := filter (.∉ p) (sorted_ids declared)).
  destruct (decide (residue = [])) as [Hnil|Hne].
  - rw Hnil. exists None. split; [done|]. intros v Hv.
    apply (acc_acyclic (depends nodes declared) v); [|done].
    assert (v ∈ declared) as Hd by (by eapply tc_declared).
    assert (v ∉ residue) as Hr by (rw Hnil; apply not_elem_of_nil).
    unfold residue in Hr. rw elem_of_residue in Hr.
    destruct (decide (v ∈ p)) as [[_ ?]%Hp|]; [done|naive_solver].
  - destruct (search_residue_ring nodes declared residue) as (c & -> & Hc);
      [done|apply residue_NoDup|done| |by exists (Some c)].
    intros v [Hd Hv]%elem_of_residue. split; [done|]. destruct (Hnext v Hd Hv) as (u & ? & ? & ?).
    exists u. split; [done|]. by apply elem_of_residue.
Qed.

Lemma find_cycle_cases nodes declared :
  work_set nodes declared →
  match find_cycle nodes declared with
  | None => ∀ v, ¬ tc (depends nodes declared) v v
  | Some cycle => ring (depends nodes declared) cycle
  end.
Proof. intros (answer & E & Ha)%find_cycle_total. unfold find_cycle. by rw E. Qed.

(** C33: [find_cycle] decides acyclicity and always terminates: on a set of
    items with distinct ids, whose declared ids are theirs, neither the peeling
    loop nor the walk runs out of its fuel (one round more than there are items
    to peel, one more than there are left to walk), and the answer is that of the
    run.  No answer means that no item transitively depends on itself, and an
    answer is a closed walk through distinct items in which each one depends on
    the next, so that no item off a cycle is ever named. *)
Theorem find_cycle_decides nodes declared :
  work_set nodes declared →
  find_cycle_run nodes declared = Some (find_cycle nodes declared) ∧
  match find_cycle nodes declared with
  | None => ∀ v, ¬ tc (depends nodes declared) v v
  | Some cycle => ring (depends nodes declared) cycle
  end.
Proof.
  intros Hws. split; [|by apply find_cycle_cases].
  destruct (find_cycle_total _ _ Hws) as (answer & E & _). unfold find_cycle. by rw E.
Qed.

Lemma targets_perm nodes nodes' declared v :
  nodes ≡ₚ nodes' → targets_of nodes declared v ≡ₚ targets_of nodes' declared v.
Proof. intros H. unfold targets_of. by apply bind_Permutation. Qed.

Lemma acc_equiv {A} (R S : A → A → Prop) x : (∀ a b, S a b → R a b) → Acc R x → Acc S x.
Proof. intros HSR Ha. induction Ha as [x _ IH]. constructor. eauto. Qed.

Lemma merge_sort_perm (l k : list string) : l ≡ₚ k → merge_sort String.le l = merge_sort String.le k.
Proof.
  intros H. apply (Sorted_unique String.le); [apply Sorted_merge_sort; apply _..|].
  by rw !merge_sort_Permutation.
Qed.

(** The reported cycle is deterministic: [find_cycle] gives the same answer
    for every order in which the items of a set are supplied. *)
Theorem find_cycle_deterministic nodes nodes' declared :
  work_set nodes declared → nodes ≡ₚ nodes' →
  find_cycle nodes declared = find_cycle nodes' declared.
Proof.
  intros Hws Hperm. assert (ids nodes ≡ₚ ids nodes') as Hids by (by apply fmap_Permutation).
  assert (work_set nodes' declared) as Hws'.
  { destruct Hws as [Hnd ->]. split; [by rw -Hids|]. by apply list_to_set_perm_L. }
  unfold find_cycle. destruct (find_cycle_split _ _ Hws) as (p & Hp & _ & ->).
  destruct (find_cycle_split _ _ Hws') as (p' & Hp' & _ & ->).
  assert (p = p') as <-.
  { apply set_eq. intros v. rw Hp Hp'.
    split; intros [? Ha]; (split; [done|]); (eapply acc_equiv; [|exact Ha]); intros a b;
      apply (elem_of_Permutation_proper a), targets_perm; by rw Hperm. }
  unfold search_residue. destruct (filter _ _); [done|]. do 2 f_equal.
  apply map_eq. intros v. destruct Hws, Hws'. rw !dependency_targets_lookup //.
  assert (v ∈ ids nodes ↔ v ∈ ids nodes') as Hv by (by rw Hids).
  case_decide; case_decide; [|tauto..]. f_equal.
  by apply merge_sort_perm, filter_Permutation, targets_perm.
Qed.

(** ** Validation *)

(** The lane's items other than the stored copy of the candidate. *)
Definition lane_of `{FileSystem} (scope : GraphScope) (candidate : WorkItem) (items : list WorkItem)
    : list WorkItem :=
  filter (λ i, ¬ (wi_work_id i = wi_work_id candidate ∨ scope_contains scope i = false)) items.

Definition edge_count (nodes : list WorkItem) : Z :=
  foldr (λ n e, Z.of_nat (length (wi_dependencies n)) + e)%Z 0%Z nodes.

Abbreviation id_set nodes := (list_to_set (ids nodes) : gset string).

Lemma id_set_snoc nodes i : id_set (nodes ++ [i]) = {[ wi_work_id i ]} ∪ id_set nodes.
Proof. unfold ids. rw fmap_app list_to_set_app_L /=. set_solver. Qed.

Lemma ids_app nodes k : ids (nodes ++ k) = ids nodes ++ ids k.
Proof. apply fmap_app. Qed.

Lemma lane_nodes_spec `{FileSystem} scope candidate items nodes :
  NoDup (ids nodes) →
  lane_nodes scope candidate items nodes (id_set nodes) =
    let all := nodes ++ lane_of scope candidate items in
    if decide (NoDup (ids all)) then inr (all, id_set all)
    else inl (invalid "scope contains duplicate work ids").
Proof.
  revert nodes. induction items as [|i items IH]; intros nodes Hnd; simpl.
  { by rw app_nil_r decide_True. }
  unfold lane_of. rw filter_cons. fold (lane_of scope candidate items).
  destruct (decide (_ ∨ _)) as [Hs|Hs].
  { rw (decide_False (P := ¬ _)); [|tauto]. by apply IH. }
  rw (decide_True (P := ¬ _)) //. case_decide as Hd.
  { rw decide_False //. rw ids_app NoDup_app. intros (_ & Hdis & _).
    apply elem_of_list_to_set in Hd. apply (Hdis _ Hd). by left. }
  rw -id_set_snoc IH; [by rw -assoc|].
  rw ids_app NoDup_app. split_and!; [done| |apply NoDup_singleton].
  intros v Hv ->%list_elem_of_singleton. by apply Hd, elem_of_list_to_set.
Qed.

Lemma edge_count_nonneg nodes : (0 ≤ edge_count nodes)%Z.
Proof. induction nodes; simpl; lia. Qed.

Lemma count_edges_spec nodes edges :
  (0 ≤ edges ≤ MAX_GRAPH_EDGES)%Z →
  count_edges nodes edges = inr () ↔ (edges + edge_count nodes ≤ MAX_GRAPH_EDGES)%Z.
Proof.
  revert edges. induction nodes as [|n nodes IH]; intros edges He; simpl; [split; [lia|done]|].
  pose proof (edge_count_nonneg nodes). unfold saturating_add.
  assert (MAX_GRAPH_EDGES < U64_MAX)%Z as Hmax by done.
  case_decide; [split; [done|lia]|]. rw IH; lia.
Qed.

Lemma check_edges_spec own (declared seen : gset string) ds :
  check_edges own declared seen ds = inr () ↔
    NoDup (dep_work_id <$> ds) ∧ Forall (λ d, d ≠ own ∧ (d ∉ seen) ∧ d ∈ declared) (dep_work_id <$> ds).
Proof.
  revert seen. induction ds as [|d ds IH]; intros seen; simpl; [split; [by repeat constructor|done]|].
  rw NoDup_cons Forall_cons.
  case_decide; [naive_solver|]. case_decide; [naive_solver|]. case_decide; [naive_solver|].
  rw IH !Forall_forall. set_solver.
Qed.

(** The nodes of the graph that a write of [candidate] would create. *)
Definition written_lane `{FileSystem} (scope : GraphScope) (candidate : WorkItem)
    (items : list WorkItem) : list WorkItem :=
  lane_of scope candidate items ++ [candidate].

(** What a dependency-carrying write has to satisfy. *)
Record graph_accepted `{FileSystem} (scope : GraphScope) (candidate : WorkItem)
    (items : list WorkItem) : Prop := {
  ga_lane : scope_contains scope candidate = true;
  ga_size : (Z.of_nat (length items) + 1 ≤ MAX_GRAPH_SCOPE_ITEMS)%Z;
  ga_distinct : NoDup (ids (written_lane scope candidate items));
  ga_edges : (edge_count (written_lane scope candidate items) ≤ MAX_GRAPH_EDGES)%Z;
  ga_once : NoDup (dep_work_id <$> wi_dependencies candidate);
  ga_resolved d : d ∈ dep_work_id <$> wi_dependencies candidate →
    d ∈ ids (lane_of scope candidate items);
  ga_acyclic v : let nodes := written_lane scope candidate items in
    ¬ tc (depends nodes (id_set nodes)) v v;
}.

Lemma candidate_not_in_lane `{FileSystem} scope candidate items :
  wi_work_id candidate ∉ ids (lane_of scope candidate items).
Proof. intros (i & Hi & [Hno _]%list_elem_of_filter)%list_elem_of_fmap. apply Hno. by left. Qed.

Lemma written_distinct `{FileSystem} scope candidate items :
  NoDup (ids (lane_of scope candidate items)) ↔ NoDup (ids (written_lane scope candidate items)).
Proof.
  unfold written_lane. rw ids_app NoDup_app. split; [|naive_solver]. intros Hnd.
  split_and!; [done| |apply NoDup_singleton].
  intros v Hv ->%list_elem_of_singleton. by eapply candidate_not_in_lane.
Qed.

Lemma own_edges_spec `{FileSystem} scope candidate items :
  Forall (λ d, d ≠ wi_work_id candidate ∧ (d ∉ (∅ : gset string))
            ∧ d ∈ id_set (written_lane scope candidate items)) (dep_work_id <$> wi_dependencies candidate)
  ↔ ∀ d, d ∈ dep_work_id <$> wi_dependencies candidate → d ∈ ids (lane_of scope candidate items).
Proof.
  rw Forall_forall. unfold written_lane. rw id_set_snoc. split; intros Hall d Hd.
  - destruct (Hall d Hd) as (? & _ & Hin). apply elem_of_union in Hin as [?%elem_of_singleton|Hin]; [done|].
    by apply elem_of_list_to_set in Hin.
  - specialize (Hall d Hd). split_and!; [intros ->; by eapply candidate_not_in_lane|set_solver|].
    apply elem_of_union_r. by apply elem_of_list_to_set.
Qed.

Lemma find_cycle_none nodes :
  NoDup (ids nodes) →
  find_cycle nodes (id_set nodes) = None ↔ ∀ v, ¬ tc (depends nodes (id_set nodes)) v v.
Proof.
  intros Hnd. pose proof (find_cycle_cases nodes (id_set nodes) (conj Hnd eq_refl)) as Hc.
  destruct (find_cycle _ _) as [c|]; [|done].
  apply ring_cyclic in Hc as (x & _ & Hx). split; [done|intros Ha; by destruct (Ha x)].
Qed.

(** C34: validation accepts exactly the writes it promises to accept: the
    candidate belongs to the lane, the two ceilings hold, the ids of the lane
    are distinct, the candidate's dependencies are distinct items of the lane
    other than itself, and the dependency graph that the write creates has no
    cycle. *)
Theorem validate_exact `{FileSystem} items candidate scope :
  validate_scoped_dependency_graph items candidate scope = inr () ↔
  graph_accepted scope candidate items.
Proof.
  unfold validate_scoped_dependency_graph, saturating_add.
  destruct (scope_contains scope candidate) eqn:Hl; simpl; [|split; [done|intros []; congruence]].
  case_decide as Hsize; [split; [done|intros []; unfold MAX_GRAPH_SCOPE_ITEMS, U64_MAX in *; lia]|].
  change ∅ with (id_set []) at 1. rw lane_nodes_spec; [|constructor]. simpl.
  destruct (decide (NoDup _)) as [Hnd|Hnd]; simpl; [|split; [done|intros G; destruct Hnd; apply written_distinct, (ga_distinct _ _ _ G)]].
  rw decide_False; [|rw elem_of_list_to_set; apply candidate_not_in_lane].
  rw -id_set_snoc. fold (written_lane scope candidate items).
  apply written_distinct in Hnd. rw ores_bind_inr. split.
  - intros ([] & He & ([] & [Hon Hr]%check_edges_spec & Hc)%ores_bind_inr).
    rw count_edges_spec // in He. pose proof (proj1 (own_edges_spec scope candidate items) Hr) as Hres.
    split; try done; [unfold MAX_GRAPH_SCOPE_ITEMS, U64_MAX in *; lia|].
    apply find_cycle_none; [done|]. by destruct (find_cycle _ _).
  - intros G. exists (). split; [apply count_edges_spec; [done|by destruct G]|].
    apply ores_bind_inr. exists (). split.
    + apply check_edges_spec. split; [by destruct G|]. apply own_edges_spec, G.
    + pose proof (proj2 (find_cycle_none _ Hnd) (ga_acyclic _ _ _ G)) as ->. done.
Qed.

Lemma lane_of_filter `{FileSystem} scope candidate items :
  lane_of scope candidate items =
    filter (λ i, wi_work_id i ≠ wi_work_id candidate)
      (filter (λ i, scope_contains scope i = true) items).
Proof.
  unfold lane_of. induction items as [|i items IH]; [done|]. rw !filter_cons.
  destruct (scope_contains scope i) eqn:Hs; simpl.
  - rw filter_cons IH. repeat case_decide; naive_solver.
  - by rw decide_False; [|tauto].
Qed.

(** Validation answers from one lane: two ledgers within the size ceiling
    that agree on the items of the lane get the same answer, message included,
    whatever other lanes hold.  A dependency on an unknown id and one on an id
    of another lane are therefore refused alike. *)
Theorem validate_one_lane `{FileSystem} items items' candidate scope :
  filter (λ i, scope_contains scope i = true) items
  = filter (λ i, scope_contains scope i = true) items' →
  (Z.of_nat (length items) < MAX_GRAPH_SCOPE_ITEMS)%Z →
  (Z.of_nat (length items') < MAX_GRAPH_SCOPE_ITEMS)%Z →
  validate_scoped_dependency_graph items candidate scope
  = validate_scoped_dependency_graph items' candidate scope.
Proof.
  intros Heq Hl Hl'. unfold validate_scoped_dependency_graph, saturating_add.
  destruct (scope_contains scope candidate); [simpl|done].
  rw !decide_False; [|unfold MAX_GRAPH_SCOPE_ITEMS in *; lia..].
  change ∅ with (id_set []) at 1. rw !lane_nodes_spec; [|constructor..].
  by rw !lane_of_filter Heq.
Qed.

(** ** The order of work *)

Definition work_le (a b : WorkItem) : Prop := compare_work_order a b ≠ Gt.

Lemma work_le_spec a b :
  work_le a b ↔
    (wi_priority b < wi_priority a)%Z ∨ wi_priority a = wi_priority b ∧
    ((wi_created_at a < wi_created_at b)%Z ∨ wi_created_at a = wi_created_at b ∧
     String.le (wi_work_id a) (wi_work_id b)).
Proof.
  unfold work_le, compare_work_order, then_with, string_cmp.
  destruct (Z.compare_spec (wi_priority b) (wi_priority a)); [|naive_solver lia..].
  destruct (Z.compare_spec (wi_created_at a) (wi_created_at b)); [|naive_solver lia..].
  case_decide as Hid; [rw Hid|case_decide]; split; intros; try done; [|naive_solver lia..].
  right. split; [done|]. right. by split.
Qed.

#[export] Instance work_le_trans : Transitive work_le.
Proof.
  intros a b c. rw !work_le_spec. intros Hab Hbc.
  assert (String.le (wi_work_id a) (wi_work_id b) → String.le (wi_work_id b) (wi_work_id c) →
          String.le (wi_work_id a) (wi_work_id c)) by (apply transitivity).
  intuition lia.
Qed.

Lemma work_le_total a b : compare_work_order a b = Gt → work_le b a.
Proof.
  intros Hgt. assert (¬ work_le a b) as Hn by (unfold work_le; naive_solver).
  rw work_le_spec in Hn. apply work_le_spec.
  destruct (Z.lt_trichotomy (wi_priority a) (wi_priority b)) as [|[|]],
    (Z.lt_trichotomy (wi_created_at a) (wi_created_at b)) as [|[|]],
    (total String.le (wi_work_id a) (wi_work_id b)); intuition lia.
Qed.

Lemma insert_work_sorted x l :
  Sorted work_le l → Sorted work_le (insert_by compare_work_order x l).
Proof.
  induction 1 as [|y l Hl IH Hhd]; simpl; [by repeat constructor|].
  destruct (compare_work_order x y) eqn:E;
    [constructor; [by constructor|constructor; unfold work_le; by rw E]..|].
  constructor; [done|]. apply work_le_total in E.
  destruct l as [|z l]; simpl; [by constructor|]. inversion Hhd.
  destruct (compare_work_order x z); by constructor.
Qed.

Lemma order_work_sorted items : Sorted work_le (order_work items).
Proof. induction items as [|x items IH]; [constructor|]. by apply insert_work_sorted. Qed.

Lemma order_work_unique items sorted :
  NoDup (ids items) → sorted ≡ₚ items → Sorted work_le sorted → order_work items = sorted.
Proof.
  intros Hnd Hp Hs. apply (Sorted_unique_strong work_le);
    [|apply order_work_sorted|done|unfold order_work; by rw sort_by_perm Hp].
  intros a b Ha Hb Hab Hba. rw Hp in Hb. unfold order_work in Ha. rw sort_by_perm in Ha.
  apply work_le_spec in Hab, Hba.
  assert (wi_work_id a = wi_work_id b) as Hid.
  { apply (anti_symm String.le); intuition lia. }
  apply list_elem_of_lookup in Ha as [i Hi], Hb as [j Hj].
  assert (i = j) as ->; [|by simplify_eq].
  eapply (NoDup_lookup (ids items)); [done|..]; rw list_lookup_fmap ?Hi ?Hj //=. by rw Hid.
Qed.

(** The order of work is deterministic: items with distinct ids have
    exactly one arrangement sorted by priority, creation instant and id, and
    [order_work] returns it from every order in which the items are read. *)
Theorem order_work_canonical items items' :
  NoDup (ids items) → items ≡ₚ items' →
  order_work items = order_work items' ∧ order_work items ≡ₚ items ∧
  ∀ sorted, sorted ≡ₚ items → Sorted work_le sorted → sorted = order_work items.
Proof.
  intros Hnd Hp. split_and!; [|apply sort_by_perm|intros; by rw (order_work_unique items sorted)].
  apply order_work_unique; [done| |apply order_work_sorted]. unfold order_work. by rw sort_by_perm Hp.
Qed.
