(* ===== verification/LedgerProps.v ===== *)
(** * Properties of admission and of the operator projection

    When the evaluator admits an item, that resolution and projection see one
    lane only and agree with each other, and which file lists a policy may
    carry. *)

From S2P Require Import Prelude Text Window Workload WorkGraph GraphFacts GraphProps.
From Stdlib Require Import Ascii.

(** ** Admission *)

(** Queued work, and waits that reconciliation itself derived. *)
Definition waiting (item : WorkItem) : Prop :=
  wi_state item = WQueued ∨
  wi_state item = WBlocked ∧
    (wi_block_provenance item = Some Derived ∨ is_legacy_derived_wait item = true).

#[export] Instance waiting_dec item : Decision (waiting item).
Proof. unfold waiting. apply _. Defined.

Lemma admission_dependencies_inr states ds pending :
  admission_dependencies states ds pending = inr false ↔
    pending = false ∧ Forall (λ d, states !! dep_work_id d = Some (Some (dep_required_state d))) ds.
Proof.
  revert pending. induction ds as [|d ds IH]; intros pending; simpl.
  { split; [intros [= ->]; by split; [|constructor]|by intros [-> _]]. }
  rw Forall_cons. destruct (states !! dep_work_id d) as [[s|]|]; [|naive_solver..].
  case_decide; [subst s; rw IH; naive_solver|].
  destruct (work_is_terminal s); [naive_solver|]. rw IH. naive_solver.
Qed.

Lemma admission_dependencies_inl states ds pending :
  admission_dependencies states ds pending ≠ inl Admissible.
Proof.
  revert pending. induction ds as [|d ds IH]; intros pending; simpl; [done|].
  destruct (states !! dep_work_id d) as [[s|]|]; [|done..].
  case_decide; [done|]. by destruct (work_is_terminal s).
Qed.

Lemma admission_of_waiting_admissible item states now :
  admission_of_waiting item states now = Admissible ↔
    past_deadline item now = false ∧
    Forall (λ d, states !! dep_work_id d = Some (Some (dep_required_state d))) (wi_dependencies item) ∧
    (wi_attempt_count item < rt_max_attempts (wp_retry (wi_policy item)))%Z.
Proof.
  unfold admission_of_waiting. destruct (past_deadline item now); [naive_solver|].
  pose proof (admission_dependencies_inr states (wi_dependencies item) false) as Hd.
  pose proof (admission_dependencies_inl states (wi_dependencies item) false) as Hne.
  destruct (admission_dependencies _ _ _) as [e|[]]; [naive_solver..|].
  case_decide; [split; [done|lia]|]. split; [|done]. intros _. split_and!; [done| |lia].
  by apply Hd.
Qed.

Lemma admission_of_waiting_hold item states now :
  admission_of_waiting item states now ≠ ManuallyBlocked.
Proof.
  unfold admission_of_waiting. destruct (past_deadline item now); [done|].
  assert (∀ ds p, admission_dependencies states ds p ≠ inl ManuallyBlocked) as Hne.
  { intros ds. induction ds as [|d ds IH]; intros p; simpl; [done|].
    destruct (states !! dep_work_id d) as [[s|]|]; [|done..].
    case_decide; [done|]. by destruct (work_is_terminal s). }
  specialize (Hne (wi_dependencies item) false).
  destruct (admission_dependencies _ _ _) as [e|[]]; [naive_solver|done|]. by case_decide.
Qed.

Lemma held_blocked item :
  wi_state item = WBlocked →
  (match wi_block_provenance item with Some p => is_manual p | None => true end
   && negb (is_legacy_derived_wait item)) = true ↔ ¬ waiting item.
Proof.
  intros Hs. unfold waiting. rw Hs andb_true_iff negb_true_iff -not_true_iff_false.
  assert (is_legacy_derived_wait item = true → wi_block_provenance item = None) as Hl.
  { unfold is_legacy_derived_wait. rw !andb_true_iff !bool_decide_eq_true. naive_solver. }
  destruct (wi_block_provenance item) as [[]|]; simpl; naive_solver.
Qed.

(** The evaluator admits an item exactly when it is queued or in a wait
    that reconciliation derived, is no container, has its deadline ahead,
    every dependency resolved in the required state, and attempts left; and it
    answers that an item is held by hand exactly when it is blocked without
    such a wait, whatever its dependencies, deadline and attempts say. *)
Theorem admission_exact item states now :
  (evaluate_admission item states now = Admissible ↔
     waiting item ∧ wi_is_container item = false ∧ past_deadline item now = false ∧
     Forall (λ d, states !! dep_work_id d = Some (Some (dep_required_state d)))
       (wi_dependencies item) ∧
     (wi_attempt_count item < rt_max_attempts (wp_retry (wi_policy item)))%Z) ∧
  (evaluate_admission item states now = ManuallyBlocked ↔
     wi_state item = WBlocked ∧ ¬ waiting item).
Proof.
  rw -admission_of_waiting_admissible. pose proof (admission_of_waiting_hold item states now) as Hh.
  unfold evaluate_admission.
  destruct (wi_state item) eqn:Hs; simpl;
    try (unfold waiting; rw Hs; repeat case_match; naive_solver).
  pose proof (held_blocked item Hs) as Hb. destruct (_ && _); [naive_solver|].
  assert (waiting item) as Hw by (apply dec_stable; naive_solver).
  destruct (wi_is_container item); naive_solver.
Qed.

(** ** Resolution and projection *)

Abbreviation lane scope items := (filter (λ i, scope_contains scope i = true) items).

Lemma visible_states_lane `{FileSystem} scope items :
  visible_states scope items =
    list_to_map (reverse ((λ i, (wi_work_id i, wi_state i)) <$> lane scope items)).
Proof.
  unfold visible_states. induction items as [|i items IH] using rev_ind; [done|].
  rw foldl_snoc filter_app fmap_app reverse_app IH filter_cons filter_nil.
  by destruct (scope_contains scope i).
Qed.

Lemma lane_map_lookup (items : list WorkItem) v s :
  NoDup (ids items) →
  (list_to_map (reverse ((λ i, (wi_work_id i, wi_state i)) <$> items)) : gmap string WorkState) !! v
    = Some s ↔ ∃ i, i ∈ items ∧ wi_work_id i = v ∧ wi_state i = s.
Proof.
  intros Hnd. rw -elem_of_list_to_map.
  - rw elem_of_reverse list_elem_of_fmap. naive_solver.
  - by rw fmap_reverse reverse_Permutation -list_fmap_compose.
Qed.

Lemma lane_map_perm (k l : list WorkItem) :
  NoDup (ids k) → k ≡ₚ l →
  (list_to_map (reverse ((λ i, (wi_work_id i, wi_state i)) <$> k)) : gmap string WorkState)
  = list_to_map (reverse ((λ i, (wi_work_id i, wi_state i)) <$> l)).
Proof.
  intros Hnd Hp. apply map_eq. intros v. apply option_eq. intros s.
  rw !lane_map_lookup //; [by setoid_rewrite Hp|]. unfold ids. by rw -Hp.
Qed.

Lemma states_of_lookup visible ds v :
  states_of visible ds !! v = if decide (v ∈ dep_work_id <$> ds) then Some (visible !! v) else None.
Proof.
  unfold states_of. induction ds as [|d ds IH] using rev_ind; [done|].
  rw foldl_snoc fmap_app /= lookup_insert IH.
  destruct (decide (dep_work_id d = v)) as [<-|Hne].
  - by rw decide_True; [|set_solver].
  - repeat case_decide; set_solver.
Qed.

Lemma resolved_visible visible ds d :
  d ∈ ds → is_resolved (states_of visible ds) d = bool_decide (is_Some (visible !! dep_work_id d)).
Proof.
  intros Hd. unfold is_resolved. rw states_of_lookup decide_True; [|by apply list_elem_of_fmap_2].
  by destruct (visible !! dep_work_id d); [rw bool_decide_true|rw bool_decide_false; [|intros []]].
Qed.

Lemma unresolved_count states ds n :
  (0 ≤ n)%Z → (n + Z.of_nat (length ds) ≤ U64_MAX)%Z →
  (foldl (λ n d, if is_resolved states d then n else saturating_add n 1) n ds
   + Z.of_nat (length (filter (λ d, is_resolved states d = true) ds)) = n + Z.of_nat (length ds))%Z.
Proof.
  revert n. induction ds as [|d ds IH]; intros n Hn Hmax; simpl; [lia|].
  rw filter_cons. simpl in Hmax. destruct (is_resolved states d); simpl.
  - specialize (IH n). lia.
  - assert (saturating_add n 1 = n + 1)%Z as -> by (unfold saturating_add; lia).
    specialize (IH (n + 1)%Z). lia.
Qed.

(** What one projected node says of the item behind it. *)
Record node_shows `{FileSystem} (items : list WorkItem) (scope : GraphScope) (now : DateTime)
    (node : WorkGraphNode) (item : WorkItem) : Prop := {
  ns_id : gn_work_id node = wi_work_id item;
  ns_state : gn_state node = wi_state item;
  ns_admission : gn_admission node =
    evaluate_admission item (resolve_dependency_states items item scope) now;
  (** Only ids of the lane, each with its item. *)
  ns_dependencies d : d ∈ gn_dependencies node ↔
    d ∈ dep_work_id <$> wi_dependencies item ∧ d ∈ ids (lane scope items);
  (** The others are counted. *)
  ns_unresolved : (Z.of_nat (length (wi_dependencies item)) ≤ U64_MAX)%Z →
    (gn_unresolved_dependencies node + Z.of_nat (length (gn_dependencies node))
     = Z.of_nat (length (wi_dependencies item)))%Z;
}.

Lemma project_node_shows `{FileSystem} items scope now item :
  NoDup (ids (lane scope items)) →
  node_shows items scope now (project_node (visible_states scope items) now item) item.
Proof.
  intros Hnd. split; try done; simpl.
  - intros d. rw list_elem_of_fmap. setoid_rewrite list_elem_of_filter. split.
    + intros (e & -> & Hr & He). split; [by apply list_elem_of_fmap_2|].
      rw resolved_visible // bool_decide_eq_true visible_states_lane in Hr.
      destruct Hr as [s (i & Hi & <- & _)%lane_map_lookup]; [|done]. by apply list_elem_of_fmap_2.
    + intros [(e & -> & He)%list_elem_of_fmap (i & Hid & Hi)%list_elem_of_fmap].
      exists e. split_and!; [done| |done]. rw resolved_visible // bool_decide_eq_true visible_states_lane.
      exists (wi_state i). apply lane_map_lookup; [done|]. by exists i.
  - intros Hmax. rw length_fmap. by apply unresolved_count.
Qed.

(** The operator projection shows exactly one lane: its nodes are the items
    of the lane in the ledger's order, each with the state, the answer that the
    evaluator gives on the resolved dependencies, the ids of the dependencies
    that are in the lane, and a count of the others; two ledgers that hold the
    same lane, in any order and beside any other items, have the same
    projection. *)
Theorem projection_one_lane `{FileSystem} items items' scope now :
  NoDup (ids (lane scope items)) → lane scope items ≡ₚ lane scope items' →
  Forall2 (node_shows items scope now) (project_scoped_graph items scope now)
    (order_work (lane scope items)) ∧
  project_scoped_graph items' scope now = project_scoped_graph items scope now.
Proof.
  intros Hnd Hp.
  assert (order_work (lane scope items') = order_work (lane scope items)) as Hord.
  { symmetry. apply order_work_unique; [done| |apply order_work_sorted].
    unfold order_work. by rw sort_by_perm Hp. }
  split; [|unfold project_scoped_graph; by rw Hord].
  unfold project_scoped_graph. apply Forall2_fmap_l, Forall_Forall2_diag, Forall_forall.
  intros item _. simpl. rw -(lane_map_perm (lane scope items)).
  - rw -visible_states_lane. by apply project_node_shows.
  - done.
  - unfold order_work. by rw sort_by_perm.
Qed.

(** ** File lists of a policy *)

(** A relative path of the workspace: bounded, without NUL or backslash, every
    component a proper name. *)
Definition confined (path : string) : Prop :=
  (slen path ≤ MAX_WORK_ALLOWED_FILE_PATH_BYTES)%Z ∧
  str_contains NUL path = false ∧ str_contains "\" path = false ∧
  Forall (λ part, part ≠ "" ∧ part ≠ "." ∧ part ≠ "..") (split_on "/"%char path).

Lemma split_on_cons sep s : ∃ p ps, split_on sep s = p :: ps.
Proof.
  destruct s as [|c s]; simpl; [by eexists _, _|]. case_decide; [by eexists _, _|].
  destruct (split_on sep s); by eexists _, _.
Qed.

Lemma concat_split_on sep s : String.concat (String sep "") (split_on sep s) = s.
Proof.
  induction s as [|c s IH]; [done|]. simpl.
  destruct (split_on_cons sep s) as (p & ps & E). rw E in IH |- *.
  case_decide as Hc; [subst c; rw -IH; by destruct ps|]. rw -IH. by destruct ps.
Qed.

Lemma normal_components_inr parts ps :
  normal_components parts = inr ps →
  ps = parts ∧ Forall (λ part, part ≠ "" ∧ part ≠ "." ∧ part ≠ "..") parts.
Proof.
  revert ps. induction parts as [|p parts IH]; intros ps; simpl; [intros [= <-]; by split|].
  case_decide; [done|]. case_decide; [done|]. intros (qs & Hq & [= <-])%ores_bind_inr.
  apply IH in Hq as [-> ?]. split; [done|]. constructor; [tauto|done].
Qed.

Lemma normalize_path_inr raw path :
  normalize_allowed_file_path raw = inr path → path = raw ∧ confined raw.
Proof.
  unfold normalize_allowed_file_path. rw !ores_bind_inr.
  intros (_ & Hlen%refuse_if_inr & H). rw !ores_bind_inr in H. destruct H as (_ & _ & H).
  rw !ores_bind_inr in H. destruct H as (_ & Hc%refuse_if_inr & H).
  rw !ores_bind_inr in H. destruct H as (_ & _ & H).
  apply ores_bind_inr in H as (parts & [-> Hp]%normal_components_inr & H).
  apply ores_bind_inr in H as (_ & _ & [= <-]).
  split; [apply concat_split_on|]. apply bool_decide_eq_false in Hlen.
  rw !orb_false_iff in Hc. unfold confined. split_and!; [lia|tauto|tauto|done].
Qed.

Lemma normalize_from_inr seen entries out :
  normalize_from seen entries = inr out →
  out = entries ∧ NoDup entries ∧ (∀ e, e ∈ entries → e ∉ seen) ∧ Forall confined entries.
Proof.
  revert seen out. induction entries as [|e entries IH]; intros seen out; simpl.
  { intros [= <-]. split_and!; [done|constructor|set_solver|constructor]. }
  intros (n & [-> He]%normalize_path_inr & H)%ores_bind_inr.
  apply ores_bind_inr in H as (_ & Hs%refuse_if_inr%bool_decide_eq_false & H).
  apply ores_bind_inr in H as (o & (-> & Hnd & Hfresh & Hall)%IH & [= <-]).
  rw NoDup_cons. split_and!; [done|set_solver|done|set_solver|by constructor].
Qed.

(** A list of allowed files is stored as it was given or refused: whatever
    normalisation accepts is unchanged by it, has no duplicates, is within the
    count, and holds only bounded relative paths without empty, dot or parent
    components, so that no accepted entry leaves the workspace lexically. *)
Theorem allowed_files_confined entries out :
  normalize_allowed_files entries = inr out →
  out = entries ∧ NoDup entries ∧
  (Z.of_nat (length entries) ≤ MAX_WORK_ALLOWED_FILES)%Z ∧ Forall confined entries.
Proof.
  intros (_ & Hlen%refuse_if_inr%bool_decide_eq_false & H)%ores_bind_inr.
  apply normalize_from_inr in H as (-> & ? & _ & ?). split_and!; [done..|lia|done].
Qed.
