(* ===== verification/GraphWitness.v ===== *)
(** * The work graph on concrete ledgers

    A lane of four items whose dependencies form a diamond, the write that
    would close it into a cycle, an item of another lane, and each theorem of
    [GraphProps] and [LedgerProps] applied to them. *)

From S2P Require Import Prelude Text Window Workload WorkGraph GraphFacts GraphProps LedgerProps.
From stdpp Require Import relations.

(** A file system in which [/link] is a symbolic link to [/ws]. *)
#[local] Instance linked : FileSystem := λ p,
  if decide (p = "/link" ∨ p = "/ws") then Some "/ws" else None.

Definition policy : WorkPolicy := policy_default.

Definition item (id : string) (workspace : string) (priority : Z) (ds : list string) : WorkItem := {|
  wi_schema_version := 1; wi_work_id := id; wi_kind := "code"; wi_objective := "do";
  wi_session_id := 7%Z; wi_workspace := workspace; wi_created_by := "p";
  wi_assigned_agent_id := None; wi_priority := priority; wi_deadline := None;
  wi_parent_work_id := None;
  wi_dependencies := (λ d, {| dep_work_id := d; dep_required_state := WSucceeded |}) <$> ds;
  wi_policy := policy; wi_state := WQueued; wi_revision := 1; wi_attempt_count := 0;
  wi_progress := None; wi_result := None; wi_is_container := false; wi_approval := None;
  wi_source_routine_id := None; wi_source_activation_id := None;
  wi_source_manager_plan_id := None; wi_source_manager_step_id := None;
  wi_assignment_status := Unassigned; wi_blocked_reason := None; wi_block_provenance := None;
  wi_last_decision_id := None; wi_created_at := 0; wi_updated_at := 0 |}.

Definition ws : GraphScope := {| gs_session_id := 7; gs_workspace := "/ws" |}.
Definition diamond : list WorkItem :=
  [item "a" "/ws" 0 []; item "b" "/link" 1 ["a"]; item "c" "/ws" 1 ["a"]; item "d" "/ws" 2 ["b"; "c"]].
(** [a] rewritten to depend on [d]: [e] hangs off the cycle and is not on it. *)
Definition closed : list WorkItem :=
  [item "e" "/ws" 0 ["b"]; item "a" "/ws" 0 ["d"]; item "b" "/link" 1 ["a"]; item "d" "/ws" 2 ["b"]].
Definition foreign : WorkItem := item "z" "/elsewhere" 9 ["a"].

Lemma diamond_set : work_set diamond (list_to_set (ids diamond)).
Proof. split; [by apply (bool_decide_unpack _); vm_compute|done]. Defined.

Lemma closed_set : work_set closed (list_to_set (ids closed)).
Proof. split; [by apply (bool_decide_unpack _); vm_compute|done]. Defined.

Example closed_cycle :
  find_cycle closed (list_to_set (ids closed)) = Some ["a"; "d"; "b"; "a"].
Proof. vm_compute. reflexivity. Qed.

Example rewrite_refused :
  validate_scoped_dependency_graph diamond (item "a" "/ws" 0 ["d"]) ws
  = inl (invalid "work dependency cycle: a -> d -> b -> a").
Proof. vm_compute. reflexivity. Qed.

(** The id of another lane and an unknown one get the same message. *)
Example foreign_looks_missing :
  validate_scoped_dependency_graph (foreign :: diamond) (item "n" "/ws" 0 ["z"]) ws
  = inl (invalid "dependency z is not resolvable in this scope").
Proof. vm_compute. reflexivity. Qed.

Lemma find_cycle_decides_witness :
  (∀ v, ¬ tc (depends diamond (list_to_set (ids diamond))) v v) ∧
  ring (depends closed (list_to_set (ids closed))) ["a"; "d"; "b"; "a"].
Proof.
  split; [exact (proj2 (find_cycle_decides diamond _ diamond_set))|].
  exact (proj2 (find_cycle_decides closed _ closed_set)).
Defined.

Lemma find_cycle_deterministic_witness :
  find_cycle closed (list_to_set (ids closed)) = find_cycle (reverse closed) (list_to_set (ids closed)).
Proof.
  apply (find_cycle_deterministic closed (reverse closed) _ closed_set).
  symmetry. apply reverse_Permutation.
Defined.

Lemma validate_one_lane_witness :
  validate_scoped_dependency_graph (foreign :: diamond) (item "n" "/ws" 0 ["z"]) ws
  = validate_scoped_dependency_graph diamond (item "n" "/ws" 0 ["z"]) ws.
Proof. apply validate_one_lane; vm_compute; reflexivity. Defined.

Lemma order_work_canonical_witness :
  order_work diamond = order_work (reverse diamond) ∧ order_work diamond ≡ₚ diamond ∧
  ∀ sorted, sorted ≡ₚ diamond → Sorted work_le sorted → sorted = order_work diamond.
Proof.
  apply (order_work_canonical diamond (reverse diamond)); [exact (proj1 diamond_set)|].
  symmetry. apply reverse_Permutation.
Defined.

Lemma projection_one_lane_witness :
  Forall2 (node_shows diamond ws 5) (project_scoped_graph diamond ws 5)
    (order_work (filter (λ i, scope_contains ws i = true) diamond)) ∧
  project_scoped_graph (foreign :: diamond) ws 5 = project_scoped_graph diamond ws 5.
Proof.
  apply (projection_one_lane diamond (foreign :: diamond) ws 5); [|by vm_compute].
  apply (bool_decide_unpack _). by vm_compute.
Defined.

Lemma allowed_files_confined_witness :
  ["src/lib.rs"; "docs/a..b.md"] = ["src/lib.rs"; "docs/a..b.md"] ∧
  NoDup ["src/lib.rs"; "docs/a..b.md"] ∧
  (Z.of_nat (length ["src/lib.rs"; "docs/a..b.md"]) ≤ MAX_WORK_ALLOWED_FILES)%Z ∧
  Forall confined ["src/lib.rs"; "docs/a..b.md"].
Proof. apply allowed_files_confined. vm_compute. reflexivity. Defined.
