(* ===== verification/PromptQueue.v ===== *)
(** * The prompt queue

    Models [prompt_queue.rs] and [prompt_combine.rs] of
    [crates/codegen/grokptah-agent-bridge/src]: queued follow-ups, steering
    accepted in the middle of a turn and steering handed to the model, their
    versions and the batch that starts a turn.  A [VecDeque] is a list; a new
    entry takes its identifier and its instant as arguments. *)

From S2P Require Import Prelude Text Window Workload.
From stdpp Require Import pretty.
From Stdlib Require Import Ascii.

(** An [anyhow] error is its message. *)
Abbreviation QRes A := (sum string A).

Definition MAX_PROMPT_BYTES : Z := 100000.
Definition LARGE_STEERING_BYTES : Z := 25000.

Record PromptQueueEntry := {
  pe_id : string; pe_version : Z; pe_text : string; pe_kind : string; pe_source : string;
  pe_owner : option string; pe_created_at : DateTime; pe_priority : bool;
}.

#[export] Instance PromptQueueEntry_eq_dec : EqDecision PromptQueueEntry.
Proof. solve_decision. Defined.

Record PromptQueueBatch := { pb_entries : list PromptQueueEntry; pb_text : string }.

Record PromptQueueTakeResult := {
  tr_batch : option PromptQueueBatch; tr_entries : list PromptQueueEntry;
  tr_reservation : option string;
}.

Record PromptQueueClearOutcome := {
  co_queued_cleared : Z; co_steering_cancelled : Z; co_steering_in_flight : Z;
}.

Definition fully_stopped (o : PromptQueueClearOutcome) : bool :=
  bool_decide (co_steering_in_flight o = 0%Z).

Inductive SteeringDisposition := Pending | Queued.

Record SteeringReceipt := {
  sr_entry : PromptQueueEntry; sr_disposition : SteeringDisposition;
  sr_entries : list PromptQueueEntry;
}.

Record SessionPromptQueue := {
  q_queued : list PromptQueueEntry; q_steering : list PromptQueueEntry;
  q_delivering : list PromptQueueEntry;
}.

Definition queue_default : SessionPromptQueue :=
  {| q_queued := []; q_steering := []; q_delivering := [] |}.

(** ** Text *)

Definition clean_prompt (text : string) : QRes string :=
  let text := trim text in
  if decide (text = "") then inl "prompt cannot be empty"
  else if decide (MAX_PROMPT_BYTES < slen text)%Z then
    inl ("prompt exceeds " +:+ pretty MAX_PROMPT_BYTES +:+ " bytes")
  else inr text.

Definition classify_kind (text : string) : string :=
  let text := trim_start text in
  if starts_with "/" text || starts_with "!" text then "command" else "prompt".

(** [char::len_utf8], from the first byte. *)
Definition len_utf8 (c : ascii) : Z :=
  let b := byte_val c in
  if decide (b < 128)%Z then 1%Z else if decide (b < 224)%Z then 2%Z
  else if decide (b < 240)%Z then 3%Z else 4%Z.

(** [str::char_indices]: the offset and the first byte of every character. *)
Fixpoint char_indices (index : Z) (s : string) : list (Z * ascii) :=
  match s with
  | "" => []
  | String c s' =>
      if decide (128 ≤ byte_val c < 192)%Z then char_indices (index + 1)%Z s'
      else (index, c) :: char_indices (index + 1)%Z s'
  end.

Fixpoint take_while {A} (p : A → bool) (l : list A) : list A :=
  match l with
  | [] => []
  | x :: l => if p x then x :: take_while p l else []
  end.

Definition truncation_end (text : string) : Z :=
  match last (take_while (λ ic, bool_decide (ic.1 < LARGE_STEERING_BYTES)%Z) (char_indices 0 text)) with
  | Some (index, c) => (index + len_utf8 c)%Z
  | None => slen text
  end.

Definition format_interjection (text : string) : string :=
  let text :=
    if decide (LARGE_STEERING_BYTES < slen text)%Z then
      string_take (Z.to_nat (truncation_end text)) text +:+ "... [truncated]"
    else text in
  "The user sent a message while you were working:" +:+ String "010"%char "" +:+ "<user_query>"
  +:+ String "010"%char "" +:+ text +:+ String "010"%char "" +:+ "</user_query>".

(** ** Combining *)

Definition TEXT_SEPARATOR : string := String "010"%char (String "010"%char "").

Record CombineGate := {
  cg_id : string; cg_is_plain_prompt : bool; cg_is_synthetic : bool; cg_is_expanded_skill : bool;
  cg_is_bash : bool; cg_has_images : bool; cg_text : string;
}.

Definition can_merge_front (g : CombineGate) : bool :=
  cg_is_plain_prompt g && negb (cg_is_synthetic g) && negb (cg_is_expanded_skill g)
  && negb (cg_is_bash g) && bool_decide (cg_text g ≠ "").

Definition can_merge_follower (g : CombineGate) (skip_ids : list string) : bool :=
  can_merge_front g && negb (cg_has_images g) && bool_decide (cg_id g ∉ skip_ids).

(** The loop over the followers, counting from [n]. *)
Fixpoint count_followers (items : list CombineGate) (skip_ids : list string) (n : nat) : nat :=
  match items with
  | [] => n
  | next :: rest =>
      if can_merge_follower next skip_ids then count_followers rest skip_ids (S n) else n
  end.

Definition combine_prefix_len (items : list CombineGate) (skip_ids : list string) : nat :=
  match items with
  | [] => 0
  | front :: rest => if can_merge_front front then count_followers rest skip_ids 1 else 1
  end.

Definition join_texts (texts : list string) : string :=
  String.concat TEXT_SEPARATOR (filter (λ t, t ≠ "") texts).

Definition is_combined (segs : list string) : bool := bool_decide (2 ≤ length segs).

(** ** Entries *)

Definition entry_new (id : string) (now : DateTime) (text source : string) (priority : bool)
    : QRes PromptQueueEntry :=
  match clean_prompt text with
  | inl e => inl e
  | inr text =>
      inr {| pe_id := id; pe_version := 0; pe_text := text; pe_kind := classify_kind text;
             pe_source := source; pe_owner := Some "desktop"; pe_created_at := now;
             pe_priority := priority |}
  end.

Definition with_owner (e : PromptQueueEntry) (owner : option string) : PromptQueueEntry :=
  {| pe_id := pe_id e; pe_version := pe_version e; pe_text := pe_text e; pe_kind := pe_kind e;
     pe_source := pe_source e; pe_owner := owner; pe_created_at := pe_created_at e;
     pe_priority := pe_priority e |}.

(** [entry.version += 1], in a release build. *)
Definition bump (e : PromptQueueEntry) : PromptQueueEntry :=
  {| pe_id := pe_id e; pe_version := wrapping_add (pe_version e) 1; pe_text := pe_text e;
     pe_kind := pe_kind e; pe_source := pe_source e; pe_owner := pe_owner e;
     pe_created_at := pe_created_at e; pe_priority := pe_priority e |}.

Definition with_source (e : PromptQueueEntry) (source : string) : PromptQueueEntry :=
  {| pe_id := pe_id e; pe_version := pe_version e; pe_text := pe_text e; pe_kind := pe_kind e;
     pe_source := source; pe_owner := pe_owner e; pe_created_at := pe_created_at e;
     pe_priority := pe_priority e |}.

Definition with_priority (e : PromptQueueEntry) : PromptQueueEntry :=
  {| pe_id := pe_id e; pe_version := pe_version e; pe_text := pe_text e; pe_kind := pe_kind e;
     pe_source := pe_source e; pe_owner := pe_owner e; pe_created_at := pe_created_at e;
     pe_priority := true |}.

(** [for entry in entries.rev() { ..; queued.push_front(entry) }]. *)
Definition push_all_front (f : PromptQueueEntry → PromptQueueEntry)
    (entries queued : list PromptQueueEntry) : list PromptQueueEntry :=
  foldl (λ q e, f e :: q) queued (reverse entries).

Definition as_deferred (source : string) (e : PromptQueueEntry) : PromptQueueEntry :=
  bump (with_priority (with_source e source)).

(** ** The queue *)

Definition set_queued (q : SessionPromptQueue) (queued : list PromptQueueEntry) : SessionPromptQueue :=
  {| q_queued := queued; q_steering := q_steering q; q_delivering := q_delivering q |}.

Definition durable_snapshot (q : SessionPromptQueue) : SessionPromptQueue :=
  let queued := push_all_front (as_deferred "steering_deferred") (q_steering q) (q_queued q) in
  let queued := push_all_front (as_deferred "steering_delivery_recovery") (q_delivering q) queued in
  {| q_queued := queued; q_steering := []; q_delivering := [] |}.

Definition queue_list (q : SessionPromptQueue) : list PromptQueueEntry := q_queued q.

Definition add_with_owner (id : string) (now : DateTime) (text source : string) (priority : bool)
    (owner : option string) (q : SessionPromptQueue)
    : QRes (SessionPromptQueue * PromptQueueEntry) :=
  match entry_new id now text source priority with
  | inl e => inl e
  | inr entry =>
      let entry := with_owner entry owner in
      inr (set_queued q (if priority then entry :: q_queued q else q_queued q ++ [entry]), entry)
  end.

Definition queue_add (id : string) (now : DateTime) (text source : string) (priority : bool)
    (q : SessionPromptQueue) : QRes (SessionPromptQueue * PromptQueueEntry) :=
  add_with_owner id now text source priority (Some "desktop") q.

(** [iter().position(|entry| entry.id == id)] with the entry. *)
Definition position (id : string) (l : list PromptQueueEntry) : option (nat * PromptQueueEntry) :=
  list_find (λ e, pe_id e = id) l.

Definition unknown_prompt (id : string) : string := "unknown queued prompt " +:+ id.

Definition stale_version (id : string) (current version : Z) : string :=
  "stale queued prompt version for " +:+ id +:+ ": expected " +:+ pretty current +:+ ", got "
  +:+ pretty version.

Definition edited (e : PromptQueueEntry) (text : string) : PromptQueueEntry :=
  bump {| pe_id := pe_id e; pe_version := pe_version e; pe_text := text;
          pe_kind := classify_kind text; pe_source := pe_source e; pe_owner := pe_owner e;
          pe_created_at := pe_created_at e; pe_priority := pe_priority e |}.

Definition queue_edit (id : string) (version : Z) (text : string) (q : SessionPromptQueue)
    : QRes (SessionPromptQueue * PromptQueueEntry) :=
  match clean_prompt text with
  | inl e => inl e
  | inr text =>
      match position id (q_queued q) with
      | None => inl (unknown_prompt id)
      | Some (index, entry) =>
          if decide (pe_version entry ≠ version) then
            inl (stale_version id (pe_version entry) version)
          else inr (set_queued q (<[index := edited entry text]> (q_queued q)), edited entry text)
      end
  end.

Definition check_version (id : string) (version : Z) (q : SessionPromptQueue) : QRes unit :=
  match position id (q_queued q) with
  | None => inl (unknown_prompt id)
  | Some (_, entry) =>
      if decide (pe_version entry ≠ version) then inl (stale_version id (pe_version entry) version)
      else inr ()
  end.

Definition queue_remove (id : string) (q : SessionPromptQueue)
    : QRes (SessionPromptQueue * PromptQueueEntry) :=
  match position id (q_queued q) with
  | None => inl (unknown_prompt id)
  | Some (index, entry) => inr (set_queued q (delete index (q_queued q)), entry)
  end.

Definition queue_clear (q : SessionPromptQueue) : SessionPromptQueue * PromptQueueClearOutcome :=
  ({| q_queued := []; q_steering := []; q_delivering := q_delivering q |},
   {| co_queued_cleared := Z.of_nat (length (q_queued q));
      co_steering_cancelled := Z.of_nat (length (q_steering q));
      co_steering_in_flight := Z.of_nat (length (q_delivering q)) |}).

(** [range_mut(lo..=hi)] with [version += 1]. *)
Definition bump_range (lo hi : nat) (l : list PromptQueueEntry) : list PromptQueueEntry :=
  imap (λ i e, if decide (lo ≤ i ≤ hi) then bump e else e) l.

Definition move_to (id : string) (to_index : nat) (q : SessionPromptQueue)
    : QRes SessionPromptQueue :=
  match position id (q_queued q) with
  | None => inl (unknown_prompt id)
  | Some (from_index, entry) =>
      let rest := delete from_index (q_queued q) in
      let target := to_index `min` length rest in
      let queued := take target rest ++ entry :: drop target rest in
      if decide (target = from_index) then inr (set_queued q queued)
      else
        let '(lo, hi) :=
          if decide (target < from_index) then (target, from_index) else (from_index, target) in
        inr (set_queued q (bump_range lo hi queued))
  end.

Definition run_next (id : string) (q : SessionPromptQueue)
    : QRes (SessionPromptQueue * PromptQueueEntry) :=
  match queue_remove id q with
  | inl e => inl e
  | inr (q, entry) =>
      let entry := bump (with_priority entry) in
      inr (set_queued q (entry :: q_queued q), entry)
  end.

Definition steer_queued (id : string) (can_inject : bool) (q : SessionPromptQueue)
    : QRes (SessionPromptQueue * SteeringReceipt) :=
  match queue_remove id q with
  | inl e => inl e
  | inr (q, entry) =>
      if can_inject then
        let entry := bump (with_source entry "steer_now") in
        let q := {| q_queued := q_queued q; q_steering := q_steering q ++ [entry];
                    q_delivering := q_delivering q |} in
        inr (q, {| sr_entry := entry; sr_disposition := Pending; sr_entries := queue_list q |})
      else
        let entry := as_deferred "steering_deferred" entry in
        let q := set_queued q (entry :: q_queued q) in
        inr (q, {| sr_entry := entry; sr_disposition := Queued; sr_entries := queue_list q |})
  end.

Definition steer_text_with_owner (id : string) (now : DateTime) (text : string) (can_inject : bool)
    (owner : option string) (q : SessionPromptQueue) : QRes (SessionPromptQueue * SteeringReceipt) :=
  let source := if can_inject then "steer_now" else "steering_deferred" in
  match entry_new id now text source (negb can_inject) with
  | inl e => inl e
  | inr entry =>
      let entry := with_owner entry owner in
      let q :=
        if can_inject then
          {| q_queued := q_queued q; q_steering := q_steering q ++ [entry];
             q_delivering := q_delivering q |}
        else set_queued q (entry :: q_queued q) in
      inr (q, {| sr_entry := entry; sr_disposition := if can_inject then Pending else Queued;
                 sr_entries := queue_list q |})
  end.

Definition steer_text (id : string) (now : DateTime) (text : string) (can_inject : bool)
    (q : SessionPromptQueue) : QRes (SessionPromptQueue * SteeringReceipt) :=
  steer_text_with_owner id now text can_inject (Some "desktop") q.

Definition drain_steering (q : SessionPromptQueue) : SessionPromptQueue * list PromptQueueEntry :=
  ({| q_queued := q_queued q; q_steering := []; q_delivering := q_steering q |}, q_steering q).

Definition defer_pending_steering (q : SessionPromptQueue) : SessionPromptQueue * Z :=
  ({| q_queued := push_all_front (as_deferred "steering_deferred") (q_steering q) (q_queued q);
      q_steering := []; q_delivering := [] |},
   Z.of_nat (length (q_steering q))).

Definition recover_pending_steering (q : SessionPromptQueue) : SessionPromptQueue * Z :=
  let pending := q_delivering q ++ q_steering q in
  ({| q_queued := push_all_front (as_deferred "steering_delivery_recovery") pending (q_queued q);
      q_steering := []; q_delivering := [] |},
   Z.of_nat (length pending)).

(** The gate of one queue row in [take_next]. *)
Definition gate_of (e : PromptQueueEntry) : CombineGate :=
  {| cg_id := pe_id e;
     cg_is_plain_prompt := bool_decide (pe_kind e = "prompt") && negb (pe_priority e);
     cg_is_synthetic := false; cg_is_expanded_skill := false;
     cg_is_bash := bool_decide (pe_kind e = "command") && starts_with "!" (trim_start (pe_text e));
     cg_has_images := false; cg_text := pe_text e |}.

Definition take_next (q : SessionPromptQueue) : SessionPromptQueue * PromptQueueTakeResult :=
  match q_queued q with
  | [] => (q, {| tr_batch := None; tr_entries := []; tr_reservation := None |})
  | _ =>
      let count := combine_prefix_len (gate_of <$> q_queued q) [] `max` 1 in
      let drained := take count (q_queued q) in
      let q' := set_queued q (drop count (q_queued q)) in
      (q', {| tr_batch := Some {| pb_entries := drained; pb_text := join_texts (pe_text <$> drained) |};
              tr_entries := queue_list q'; tr_reservation := None |})
  end.

Definition restore_batch (entries : list PromptQueueEntry) (q : SessionPromptQueue)
    : SessionPromptQueue :=
  set_queued q (push_all_front bump entries (q_queued q)).
