(* ===== verification/QueueProps.v ===== *)
(** * Properties of the prompt queue

    Which batch a turn takes and what restoring it gives back, that a crash
    keeps accepted steering, which versions a move changes, and that a version
    identifies the contents of an entry along every run of the queue. *)

From S2P Require Import Prelude Text Window Workload PromptQueue.

Lemma push_all_front_eq f entries queued :
  push_all_front f entries queued = (f <$> entries) ++ queued.
Proof.
  unfold push_all_front. revert queued. induction entries as [|e entries IH]; intros queued; [done|].
  rw reverse_cons foldl_snoc IH. done.
Qed.

Lemma bumped_version v : (0 ≤ v < 2 ^ 64)%Z → wrapping_add v 1 ≠ v.
Proof.
  intros Hv. unfold wrapping_add, wrap64. destruct (decide (v = 2 ^ 64 - 1)%Z) as [->|]; [done|].
  rw Z.mod_small; lia.
Qed.

(** ** Batches *)

(** A plain prompt that may share a turn with others. *)
Definition mergeable (e : PromptQueueEntry) : bool :=
  bool_decide (pe_kind e = "prompt") && negb (pe_priority e) && bool_decide (pe_text e ≠ "").

(** The batch that starts the next turn. *)
Definition next_batch (queued : list PromptQueueEntry) : list PromptQueueEntry :=
  match queued with
  | [] => []
  | e :: _ => if mergeable e then take_while mergeable queued else [e]
  end.

Lemma gate_mergeable e : can_merge_front (gate_of e) = mergeable e.
Proof.
  unfold can_merge_front, mergeable. simpl.
  destruct (decide (pe_kind e = "prompt")) as [Hk|Hk]; [rw !Hk|rw !(bool_decide_false _ Hk)];
    simpl; by rw ?andb_true_r.
Qed.

Lemma follower_mergeable e : can_merge_follower (gate_of e) [] = mergeable e.
Proof.
  unfold can_merge_follower. by rw gate_mergeable !andb_true_r.
Qed.

Lemma take_while_prefix {A} (p : A → bool) l : take (length (take_while p l)) l = take_while p l.
Proof. induction l as [|x l IH]; [done|]. simpl. destruct (p x); [|done]. simpl. by rw IH. Qed.

Lemma count_followers_spec l n :
  count_followers (gate_of <$> l) [] n = n + length (take_while mergeable l).
Proof.
  revert n. induction l as [|e l IH]; intros n; simpl; [lia|]. rw follower_mergeable.
  destruct (mergeable e); simpl; [rw IH; lia|lia].
Qed.

Lemma take_next_spec q :
  take_next q =
    (set_queued q (drop (length (next_batch (q_queued q))) (q_queued q)),
     {| tr_batch :=
          match q_queued q with
          | [] => None
          | _ => Some {| pb_entries := next_batch (q_queued q);
                         pb_text := join_texts (pe_text <$> next_batch (q_queued q)) |}
          end;
        tr_entries := drop (length (next_batch (q_queued q))) (q_queued q);
        tr_reservation := None |}).
Proof.
  unfold take_next. destruct q as [[|e l] steering delivering]; simpl; [done|].
  rw gate_mergeable. destruct (mergeable e) eqn:He; simpl; [|done].
  rw count_followers_spec /= Nat.max_0_r take_while_prefix. done.
Qed.

Lemma next_batch_prefix l : l = next_batch l ++ drop (length (next_batch l)) l.
Proof.
  destruct l as [|e l]; [done|]. simpl. destruct (mergeable e) eqn:He; simpl; [|done]. f_equal.
  rw -{1}(take_drop (length (take_while mergeable l)) l). by rw take_while_prefix.
Qed.

(** C38: [take_next] drains exactly the next batch, the longest run of plain
    prompts at the head or else the head alone, and nothing only from an empty
    queue; handing the batch back with [restore_batch] puts the same entries
    back in the same order, each with a new version, so that a start that is
    refused loses no prompt and stale versions are refused. *)
Theorem take_restore q q' r :
  take_next q = (q', r) →
  match tr_batch r with
  | None => q_queued q = [] ∧ q' = q
  | Some b =>
      pb_entries b = next_batch (q_queued q) ∧ pb_entries b ≠ [] ∧
      q_queued q = pb_entries b ++ q_queued q' ∧
      pb_text b = join_texts (pe_text <$> pb_entries b) ∧
      restore_batch (pb_entries b) q' =
        set_queued q ((bump <$> pb_entries b) ++ q_queued q')
  end.
Proof.
  rw take_next_spec. intros [= <- <-]. destruct q as [[|e l] steering delivering]; simpl; [done|].
  split_and!; try done.
  - by destruct (mergeable e).
  - apply (next_batch_prefix (e :: l)).
  - unfold restore_batch. by rw push_all_front_eq.
Qed.

(** ** Crashes *)

(** What a writer gave the queue. *)
Definition content (e : PromptQueueEntry) : string * string * string * option string * DateTime :=
  (pe_id e, pe_text e, pe_kind e, pe_owner e, pe_created_at e).

(** Everything a session still owes the model, in the order of delivery. *)
Definition entries (q : SessionPromptQueue) : list PromptQueueEntry :=
  q_delivering q ++ q_steering q ++ q_queued q.

Lemma content_map f (l : list PromptQueueEntry) :
  (∀ e, content (f e) = content e) → content <$> (f <$> l) = content <$> l.
Proof. intros Hf. rw -list_fmap_compose. apply list_fmap_ext. intros ? e _. apply Hf. Qed.

Lemma defer_spec q :
  content <$> q_queued (defer_pending_steering q).1 = content <$> q_steering q ++ q_queued q.
Proof. simpl. by rw push_all_front_eq !fmap_app content_map. Qed.

(** A crash loses no accepted prompt: the durable snapshot holds the
    contents of the steering in delivery, of the accepted steering and of the
    follow-ups, in that order and with nothing added, it is its own snapshot,
    and it agrees with the recovery of a failed delivery up to the label that
    says where an entry came from. *)
Theorem snapshot_keeps_accepted q :
  content <$> q_queued (durable_snapshot q) = content <$> entries q ∧
  durable_snapshot (durable_snapshot q) = durable_snapshot q ∧
  (λ e, with_source e "") <$> q_queued (durable_snapshot q)
  = (λ e, with_source e "") <$> q_queued (recover_pending_steering q).1 ∧
  (recover_pending_steering q).2
  = (Z.of_nat (length (q_delivering q)) + Z.of_nat (length (q_steering q)))%Z.
Proof.
  unfold durable_snapshot, entries. simpl. rw !push_all_front_eq. split_and!.
  - by rw !fmap_app !content_map.
  - done.
  - rw !fmap_app -!list_fmap_compose assoc. f_equal.
  - rw length_app. lia.
Qed.

(** [clear] reports what it stopped: the queue holds afterwards exactly
    the steering in delivery, the outcome counts the three parts, and it says
    that everything is stopped exactly when nothing is left. *)
Theorem clear_reports q q' o :
  queue_clear q = (q', o) →
  entries q' = q_delivering q ∧
  (co_queued_cleared o + co_steering_cancelled o + co_steering_in_flight o
   = Z.of_nat (length (entries q)))%Z ∧
  (fully_stopped o = true ↔ entries q' = []).
Proof.
  intros [= <- <-]. unfold entries, fully_stopped. simpl. rw !app_nil_r !length_app bool_decide_eq_true.
  split_and!; [done|lia|]. destruct (q_delivering q); naive_solver.
Qed.

(** ** Moving *)

Lemma position_Some id l i e :
  position id l = Some (i, e) → l !! i = Some e ∧ pe_id e = id.
Proof. intros (? & ? & _)%list_find_Some. done. Qed.

Lemma lookup_bump_range lo hi l i :
  bump_range lo hi l !! i = (λ e, if decide (lo ≤ i ≤ hi) then bump e else e) <$> l !! i.
Proof. unfold bump_range. apply list_lookup_imap. Qed.

(** Where a move from [f] to [t] puts the entry that was at [i]. *)
Definition moved (f t i : nat) : nat :=
  if decide (i = f) then t
  else if decide (f < i ≤ t) then i - 1
  else if decide (t ≤ i < f) then i + 1 else i.

Lemma lookup_put {A} (r : list A) t e k :
  t ≤ length r →
  (take t r ++ e :: drop t r) !! k =
    if decide (k < t) then r !! k else if decide (k = t) then Some e else r !! (k - 1).
Proof.
  intros Ht. assert (length (take t r) = t) as Hl by (rw length_take; lia).
  case_decide; [rw lookup_app_l; [|lia]; by apply lookup_take_lt|].
  rw lookup_app_r; [|lia]. rw Hl. case_decide; [by subst k; rw Nat.sub_diag|].
  replace (k - t) with (S (k - 1 - t)) by lia. simpl. rw lookup_drop. f_equal. lia.
Qed.

Lemma lookup_moved {A} (l : list A) f t e i x :
  l !! f = Some e → t < length l → l !! i = Some x →
  (take t (delete f l) ++ e :: drop t (delete f l)) !! moved f t i = Some x.
Proof.
  intros Hf Ht Hi. rw lookup_put; [|rw length_delete; [lia|by eexists]]. unfold moved.
  destruct (decide (i = f)) as [->|Hne].
  { rw decide_False; [|lia]. rw decide_True //. by rw -Hi. }
  destruct (decide (f < i ≤ t)).
  { rw decide_True; [|lia]. rw list_lookup_delete_ge; [|lia]. by replace (S (i - 1)) with i by lia. }
  destruct (decide (t ≤ i < f)).
  { rw !decide_False; [|lia..]. rw list_lookup_delete_lt; [|lia]. by replace (i + 1 - 1) with i by lia. }
  case_decide; [rw list_lookup_delete_lt //; lia|]. rw decide_False; [|lia].
  rw list_lookup_delete_ge; [|lia]. by replace (S (i - 1)) with i by lia.
Qed.

Lemma moved_range f t i :
  f ≠ t → (t `min` f ≤ moved f t i ≤ t `max` f) ↔ moved f t i ≠ i.
Proof. intros Hne. unfold moved. repeat case_decide; lia. Qed.

Lemma move_to_spec id to_index q q' :
  move_to id to_index q = inr q' →
  ∃ f t e, q_queued q !! f = Some e ∧ pe_id e = id ∧
    t = to_index `min` (length (q_queued q) - 1) ∧ t < length (q_queued q) ∧
    q' = set_queued q (if decide (t = f) then q_queued q
      else bump_range (t `min` f) (t `max` f)
             (take t (delete f (q_queued q)) ++ e :: drop t (delete f (q_queued q)))).
Proof.
  unfold move_to. destruct (position id (q_queued q)) as [[f e]|] eqn:E; [|done].
  apply position_Some in E as [Hf Hid]. pose proof (lookup_lt_Some _ _ _ Hf) as Hlt.
  rw length_delete; [|by eexists].
  set (t := to_index `min` (length (q_queued q) - 1)). intros Hq'.
  exists f, t, e. split_and!; [done..|lia|].
  case_decide as Ht.
  - simplify_eq. f_equal. rw delete_take_drop. rw take_app_length'; [|rw length_take; lia].
    rw drop_app_length'; [|rw length_take; lia]. by apply take_drop_middle.
  - case_decide; simplify_eq; f_equal; [rw Nat.min_l; [|lia]; by rw Nat.max_r; [|lia]|].
    rw Nat.min_r; [|lia]. by rw Nat.max_l; [|lia].
Qed.

Lemma bump_range_ids lo hi l : pe_id <$> bump_range lo hi l = pe_id <$> l.
Proof.
  apply list_eq. intros i. rw !list_lookup_fmap lookup_bump_range.
  destruct (l !! i); simpl; [|done]. by case_decide.
Qed.

Lemma put_perm {A} (l : list A) f t e :
  l !! f = Some e → take t (delete f l) ++ e :: drop t (delete f l) ≡ₚ l.
Proof. intros Hf. rw -Permutation_middle take_drop. by rw -delete_Permutation. Qed.

Lemma move_to_ids id to_index q q' :
  move_to id to_index q = inr q' → pe_id <$> q_queued q' ≡ₚ pe_id <$> q_queued q.
Proof.
  intros (f & t & e & Hf & _ & _ & _ & ->)%move_to_spec. simpl. case_decide; [done|].
  by rw bump_range_ids (put_perm _ _ _ _ Hf).
Qed.

Lemma move_to_lookup l f t e i x :
  l !! f = Some e → t < length l → l !! i = Some x →
  (if decide (t = f) then l
   else bump_range (t `min` f) (t `max` f) (take t (delete f l) ++ e :: drop t (delete f l)))
    !! moved f t i = Some (if decide (moved f t i = i) then x else bump x).
Proof.
  intros Hf Ht Hi. case_decide as Htf.
  - assert (moved f t i = i) as -> by (unfold moved; repeat case_decide; lia). by rw decide_True.
  - rw lookup_bump_range (lookup_moved _ _ _ _ _ _ Hf Ht Hi) /=. f_equal.
    pose proof (moved_range f t i). repeat case_decide; try done; naive_solver lia.
Qed.

Lemma check_version_at q i e v :
  NoDup (pe_id <$> q_queued q) → q_queued q !! i = Some e →
  check_version (pe_id e) v q = inr () ↔ pe_version e = v.
Proof.
  intros Hnd Hi. unfold check_version, position.
  assert (list_find (λ x, pe_id x = pe_id e) (q_queued q) = Some (i, e)) as ->.
  { apply list_find_Some. split_and!; [done..|]. intros j y Hj Hlt Hid.
    assert (j = i); [|lia]. eapply NoDup_lookup; [exact Hnd|..]; rw list_lookup_fmap ?Hj ?Hi //=. by rw Hid. }
  case_decide; naive_solver.
Qed.

(** A move puts the entry at the given index, at most the last one, keeps
    every other entry in its order, and bumps the version of exactly the
    entries whose index changed, so that a writer that read an index before the
    move is refused for each of them and for no other. *)
Theorem move_bumps_shifted id to_index q q' :
  move_to id to_index q = inr q' → NoDup (pe_id <$> q_queued q) →
  Forall (λ e, 0 ≤ pe_version e < 2 ^ 64)%Z (q_queued q) →
  ∃ f t, t = to_index `min` (length (q_queued q) - 1) ∧
    (∃ e, q_queued q !! f = Some e ∧ pe_id e = id) ∧
    length (q_queued q') = length (q_queued q) ∧
    ∀ i e, q_queued q !! i = Some e →
      q_queued q' !! moved f t i = Some (if decide (moved f t i = i) then e else bump e) ∧
      (check_version (pe_id e) (pe_version e) q' = inr () ↔ moved f t i = i).
Proof.
  intros Hm Hnd Hv. pose proof (move_to_ids _ _ _ _ Hm) as Hids.
  assert (NoDup (pe_id <$> q_queued q')) as Hnd' by (by rw Hids).
  apply Permutation_length in Hids. rw !length_fmap in Hids.
  apply move_to_spec in Hm as (f & t & e & Hf & Hid & Ht & Hlt & ->). simpl in *.
  exists f, t. split_and!; [done|by exists e|done|]. intros i x Hi.
  pose proof (move_to_lookup _ _ _ _ _ _ Hf Hlt Hi) as Hl. split; [done|].
  pose proof (proj1 (Forall_lookup _ _) Hv _ _ Hi) as Hx.
  pose proof (check_version_at (set_queued q _) _ _ (pe_version x) Hnd' Hl) as Hc.
  pose proof (bumped_version _ Hx). revert Hc.
  destruct (decide (moved f t i = i)); simpl; intros ->; naive_solver.
Qed.
