(* ===== verification/QueueTrace.v ===== *)
(** * Runs of the prompt queue

    A session is the queue, the batches that were drained and neither started
    nor handed back, and the identifiers it has used.  Its steps are the
    methods of the queue and a restart from the durable snapshot.  Along every
    run an identifier names one entry, and a version identifies its contents. *)

From S2P Require Import Prelude Text Window Workload PromptQueue QueueProps.
From stdpp Require Import relations.

Record Session := {
  ss_queue : SessionPromptQueue; ss_taken : list (list PromptQueueEntry); ss_used : gset string;
}.

Definition session_new : Session := {| ss_queue := queue_default; ss_taken := []; ss_used := ∅ |}.

(** Every entry that is queued, in steering, in delivery or in a drained batch. *)
Definition all (s : Session) : list PromptQueueEntry := entries (ss_queue s) ++ mjoin (ss_taken s).

Definition on_queue (s : Session) (q : SessionPromptQueue) : Session :=
  {| ss_queue := q; ss_taken := ss_taken s; ss_used := ss_used s |}.

Definition with_new (s : Session) (q : SessionPromptQueue) (id : string) : Session :=
  {| ss_queue := q; ss_taken := ss_taken s; ss_used := {[ id ]} ∪ ss_used s |}.

(** The identifier of a new entry is one that the session has not used. *)
Inductive session_step : Session → Session → Prop :=
  | step_add s id now text source priority owner q e :
      id ∉ ss_used s → add_with_owner id now text source priority owner (ss_queue s) = inr (q, e) →
      session_step s (with_new s q id)
  | step_steer_text s id now text can_inject owner q r :
      id ∉ ss_used s → steer_text_with_owner id now text can_inject owner (ss_queue s) = inr (q, r) →
      session_step s (with_new s q id)
  | step_edit s id version text q e :
      queue_edit id version text (ss_queue s) = inr (q, e) → session_step s (on_queue s q)
  | step_remove s id q e : queue_remove id (ss_queue s) = inr (q, e) → session_step s (on_queue s q)
  | step_clear s q o : queue_clear (ss_queue s) = (q, o) → session_step s (on_queue s q)
  | step_move s id to_index q :
      move_to id to_index (ss_queue s) = inr q → session_step s (on_queue s q)
  | step_run_next s id q e : run_next id (ss_queue s) = inr (q, e) → session_step s (on_queue s q)
  | step_steer_queued s id can_inject q r :
      steer_queued id can_inject (ss_queue s) = inr (q, r) → session_step s (on_queue s q)
  | step_drain s q l : drain_steering (ss_queue s) = (q, l) → session_step s (on_queue s q)
  | step_defer s q n : defer_pending_steering (ss_queue s) = (q, n) → session_step s (on_queue s q)
  | step_recover s q n : recover_pending_steering (ss_queue s) = (q, n) → session_step s (on_queue s q)
  | step_take s q r b :
      take_next (ss_queue s) = (q, r) → tr_batch r = Some b →
      session_step s {| ss_queue := q; ss_taken := ss_taken s ++ [pb_entries b]; ss_used := ss_used s |}
  | step_restore s k batch :
      ss_taken s !! k = Some batch →
      session_step s {| ss_queue := restore_batch batch (ss_queue s);
                        ss_taken := delete k (ss_taken s); ss_used := ss_used s |}
  | step_start s k batch :
      ss_taken s !! k = Some batch →
      session_step s {| ss_queue := ss_queue s; ss_taken := delete k (ss_taken s);
                        ss_used := ss_used s |}
  | step_restart s :
      session_step s {| ss_queue := durable_snapshot (ss_queue s); ss_taken := [];
                        ss_used := ss_used s |}.

(** ** How entries evolve in one step *)

Definition next (e e' : PromptQueueEntry) : Prop :=
  e' = e ∨ pe_id e' = pe_id e ∧ pe_version e' = wrapping_add (pe_version e) 1.

Definition evolves (l l' : list PromptQueueEntry) : Prop := ∃ k, k ⊆+ l ∧ Forall2 next k l'.

#[export] Instance evolves_proper : Proper ((≡ₚ) ==> (≡ₚ) ==> impl) evolves.
Proof.
  intros l k Hlk l' k' Hp (m & Hm & Hall).
  apply Forall2_flip in Hall. destruct (Permutation_Forall2 Hp Hall) as (m' & Hm' & Hall').
  exists m'. split; [by rw -Hlk -Hm'|by apply Forall2_flip].
Qed.

Lemma next_refl e : next e e.
Proof. by left. Qed.

Lemma Forall2_next_refl l : Forall2 next l l.
Proof. induction l as [|e l IH]; constructor; [apply next_refl|done]. Qed.

Lemma evolves_refl l : evolves l l.
Proof. exists l. split; [done|apply Forall2_next_refl]. Qed.

Lemma evolves_sub l l' : l' ⊆+ l → evolves l l'.
Proof. intros Hs. exists l'. split; [done|apply Forall2_next_refl]. Qed.

Lemma evolves_app l1 l2 k1 k2 : evolves l1 k1 → evolves l2 k2 → evolves (l1 ++ l2) (k1 ++ k2).
Proof.
  intros (m1 & ? & ?) (m2 & ? & ?). exists (m1 ++ m2).
  split; [by apply submseteq_app|by apply Forall2_app].
Qed.

Lemma evolves_map f (l : list PromptQueueEntry) : (∀ e, next e (f e)) → evolves l (f <$> l).
Proof.
  intros Hf. exists l. split; [done|]. induction l; by constructor.
Qed.

Lemma evolves_cons e e' l l' : next e e' → evolves l l' → evolves (e :: l) (e' :: l').
Proof. intros He Hl. apply (evolves_app [e] l [e'] l'); [|done]. exists [e]. split; [done|]. by constructor. Qed.

Lemma next_bump e e' : pe_id e' = pe_id e → pe_version e' = pe_version e → next e (bump e').
Proof. intros Hid Hv. right. simpl. by rw Hid Hv. Qed.

Create HintDb queue.
#[export] Hint Resolve next_refl evolves_refl next_bump : queue.

(** ** One lemma per method *)

Lemma set_queued_evolves q queued :
  evolves (q_queued q) queued → evolves (entries q) (entries (set_queued q queued)).
Proof. intros H. unfold entries. simpl. by repeat apply evolves_app; [apply evolves_refl..|]. Qed.

Lemma remove_perm id q q' e :
  queue_remove id q = inr (q', e) → entries q ≡ₚ e :: entries q' ∧
  q_steering q' = q_steering q ∧ q_delivering q' = q_delivering q ∧ q_queued q ≡ₚ e :: q_queued q'.
Proof.
  unfold queue_remove. destruct (position _ _) as [[i x]|] eqn:E; [|done]. intros [= <- <-].
  apply position_Some in E as [Hi _]. apply delete_Permutation in Hi as Hp.
  split_and!; [|done..]. unfold entries. simpl. rw {1}Hp. solve_Permutation.
Qed.

Lemma evolves_insert l i x y : l !! i = Some x → next x y → evolves l (<[i := y]> l).
Proof.
  intros Hi Hn. exists l. split; [done|]. revert i Hi.
  induction l as [|z l IH]; intros [|i] Hi; simplify_eq/=; constructor;
    auto using next_refl, Forall2_next_refl.
Qed.

Lemma edit_evolves id v text q q' e :
  queue_edit id v text q = inr (q', e) → evolves (entries q) (entries q').
Proof.
  unfold queue_edit. destruct (clean_prompt text) as [|t]; [done|].
  destruct (position _ _) as [[i x]|] eqn:E; [|done]. case_decide; [done|]. intros [= <- _].
  apply position_Some in E as [Hi _]. apply set_queued_evolves.
  eapply evolves_insert; [done|]. by apply next_bump.
Qed.

Lemma remove_evolves id q q' e :
  queue_remove id q = inr (q', e) → evolves (entries q) (entries q').
Proof.
  intros [Hp _]%remove_perm. apply evolves_sub. rw Hp. by apply submseteq_cons.
Qed.

Lemma clear_evolves q q' o : queue_clear q = (q', o) → evolves (entries q) (entries q').
Proof.
  intros [= <- _]. apply evolves_sub. unfold entries. simpl. rw app_nil_r.
  apply submseteq_inserts_r. done.
Qed.

Lemma bump_range_evolves lo hi l : evolves l (bump_range lo hi l).
Proof.
  exists l. split; [done|]. apply Forall2_same_length_lookup_2.
  - unfold bump_range. by rw length_imap.
  - intros i x y Hx. rw lookup_bump_range Hx /=. intros [= <-].
    case_decide; [by apply next_bump|apply next_refl].
Qed.

Lemma move_evolves id to_index q q' :
  move_to id to_index q = inr q' → evolves (entries q) (entries q').
Proof.
  intros (f & t & e & Hf & _ & _ & _ & ->)%move_to_spec. apply set_queued_evolves.
  case_decide; [apply evolves_refl|]. eapply (evolves_proper _ _ (put_perm _ f t e Hf)); [reflexivity|].
  apply bump_range_evolves.
Qed.

Lemma run_next_evolves id q q' e : run_next id q = inr (q', e) → evolves (entries q) (entries q').
Proof.
  unfold run_next. destruct (queue_remove id q) as [|[q0 x]] eqn:E; [done|]. intros [= <- _].
  apply remove_perm in E as (Hp & _). rw Hp.
  assert (entries (set_queued q0 (bump (with_priority x) :: q_queued q0))
    ≡ₚ bump (with_priority x) :: entries q0) as -> by (unfold entries; simpl; solve_Permutation).
  apply evolves_cons; auto with queue.
Qed.

Lemma steer_queued_evolves id can_inject q q' r :
  steer_queued id can_inject q = inr (q', r) → evolves (entries q) (entries q').
Proof.
  unfold steer_queued. destruct (queue_remove id q) as [|[q0 x]] eqn:E; [done|].
  apply remove_perm in E as (Hp & _). intros Heq.
  assert (∃ y, next x y ∧ entries q' ≡ₚ y :: entries q0) as (y & Hy & ->).
  { destruct can_inject; simplify_eq; eexists; (split; [|unfold entries; simpl; solve_Permutation]);
      by apply next_bump. }
  rw Hp. by apply evolves_cons; [|apply evolves_refl].
Qed.

Lemma deferred_next source e : next e (as_deferred source e).
Proof. by apply next_bump. Qed.

Lemma drain_evolves q q' l : drain_steering q = (q', l) → evolves (entries q) (entries q').
Proof. intros [= <- _]. apply evolves_sub. unfold entries. simpl. by apply submseteq_inserts_l. Qed.

Lemma defer_evolves q q' n : defer_pending_steering q = (q', n) → evolves (entries q) (entries q').
Proof.
  intros [= <- _]. unfold entries. simpl. rw push_all_front_eq.
  destruct (evolves_map _ (q_steering q) (deferred_next "steering_deferred")) as (k & Hk & Hall).
  exists (k ++ q_queued q). split; [|by apply Forall2_app, Forall2_next_refl].
  apply submseteq_inserts_l. by apply submseteq_app.
Qed.

Lemma recover_evolves q q' n : recover_pending_steering q = (q', n) → evolves (entries q) (entries q').
Proof.
  intros [= <- _]. unfold entries. simpl. rw push_all_front_eq assoc.
  apply evolves_app; [|apply evolves_refl]. apply evolves_map, deferred_next.
Qed.

Lemma snapshot_evolves q : evolves (entries q) (entries (durable_snapshot q)).
Proof.
  unfold durable_snapshot, entries. simpl. rw !push_all_front_eq.
  repeat apply evolves_app; [apply evolves_map, deferred_next..|apply evolves_refl].
Qed.

Lemma take_perm q q' r b :
  take_next q = (q', r) → tr_batch r = Some b → entries q ≡ₚ entries q' ++ pb_entries b.
Proof.
  rw take_next_spec. intros [= <- <-]. simpl.
  destruct (q_queued q) as [|e l] eqn:E; [done|]. intros [= <-]. unfold entries. simpl. rw E.
  rw {1}(next_batch_prefix (e :: l)). simpl. solve_Permutation.
Qed.

Lemma add_perm id now text source priority owner q q' e :
  add_with_owner id now text source priority owner q = inr (q', e) →
  entries q' ≡ₚ e :: entries q ∧ pe_id e = id ∧ pe_version e = 0%Z.
Proof.
  unfold add_with_owner, entry_new. destruct (clean_prompt text); [done|]. intros [= <- <-].
  split; [|done]. unfold entries. destruct priority; simpl; solve_Permutation.
Qed.

Lemma steer_text_perm id now text can_inject owner q q' r :
  steer_text_with_owner id now text can_inject owner q = inr (q', r) →
  entries q' ≡ₚ sr_entry r :: entries q ∧ pe_id (sr_entry r) = id ∧ pe_version (sr_entry r) = 0%Z.
Proof.
  unfold steer_text_with_owner, entry_new. destruct (clean_prompt text); [done|]. intros [= <- <-].
  split; [|done]. unfold entries. destruct can_inject; simpl; solve_Permutation.
Qed.

(** ** Steps of a session *)

(** What a step does to the entries: one new entry, or none. *)
Lemma step_cases s s' :
  session_step s s' →
  (evolves (all s) (all s') ∧ ss_used s' = ss_used s) ∨
  ∃ e, all s' ≡ₚ e :: all s ∧ (pe_id e ∉ ss_used s) ∧ pe_version e = 0%Z ∧
    ss_used s' = {[ pe_id e ]} ∪ ss_used s.
Proof.
  unfold all. destruct 1; simpl;
    try (left; split; [|done]; apply evolves_app; [|apply evolves_refl];
         eauto using edit_evolves, remove_evolves, clear_evolves, move_evolves, run_next_evolves,
           steer_queued_evolves, drain_evolves, defer_evolves, recover_evolves).
  - right. apply add_perm in H0 as (Hp & Hid & Hv). exists e. rw Hp Hid. by split_and!.
  - right. apply steer_text_perm in H0 as (Hp & Hid & Hv). exists (sr_entry r). rw Hp Hid. by split_and!.
  - left. split; [|done]. rw (take_perm _ _ _ _ H H0) join_app /= app_nil_r.
    apply evolves_sub, Permutation_submseteq. solve_Permutation.
  - left. split; [|done]. apply delete_Permutation in H. rw {1}H /=.
    unfold restore_batch, entries. simpl. rw push_all_front_eq.
    set (rest := q_delivering (ss_queue s) ++ q_steering (ss_queue s) ++ q_queued (ss_queue s)
      ++ mjoin (delete k (ss_taken s))).
    eapply evolves_proper; [| |apply (evolves_app rest batch rest (bump <$> batch))];
      [unfold rest; solve_Permutation..|apply evolves_refl|].
    apply evolves_map. intros e. by apply next_bump.
  - left. split; [|done]. apply delete_Permutation in H. rw {1}H /=. apply evolves_sub.
    apply submseteq_app; [done|]. by apply submseteq_inserts_l.
  - left. split; [|done]. apply evolves_app; [apply snapshot_evolves|].
    apply evolves_sub, submseteq_nil_l.
Qed.

(** Identifiers name one entry and are recorded, versions are in range. *)
Record session_ok (s : Session) : Prop := {
  so_nodup : NoDup (pe_id <$> all s);
  so_used e : e ∈ all s → pe_id e ∈ ss_used s;
  so_range e : e ∈ all s → (0 ≤ pe_version e < 2 ^ 64)%Z;
}.

Lemma evolves_elem l l' e' : evolves l l' → e' ∈ l' → ∃ e, e ∈ l ∧ next e e'.
Proof.
  intros (k & Hk & Hall) He'. apply list_elem_of_lookup in He' as [i Hi].
  destruct (Forall2_lookup_r _ _ _ _ _ Hall Hi) as (e & He & Hn).
  exists e. split; [|done]. eapply elem_of_submseteq; [|done]. by eapply list_elem_of_lookup_2.
Qed.

Lemma next_id e e' : next e e' → pe_id e' = pe_id e.
Proof. by intros [->|[? _]]. Qed.

Lemma evolves_nodup l l' : evolves l l' → NoDup (pe_id <$> l) → NoDup (pe_id <$> l').
Proof.
  intros (k & Hk & Hall) Hnd. assert (pe_id <$> l' = pe_id <$> k) as ->.
  { symmetry. apply list_eq_Forall2, Forall2_fmap. eapply Forall2_impl; [done|].
    intros e e' Hn. by rw (next_id _ _ Hn). }
  apply submseteq_Permutation in Hk as [m Hk]. rw Hk fmap_app NoDup_app in Hnd. by destruct Hnd.
Qed.

Lemma step_ok s s' : session_ok s → session_step s s' → session_ok s'.
Proof.
  intros [Hnd Hu Hr] [[Hev Hused]|(e & Hp & Hfresh & Hv & Hused)]%step_cases.
  - split; [by eapply evolves_nodup|..]; intros e' (e & He & Hn)%(evolves_elem _ _ _ Hev).
    + rw Hused (next_id _ _ Hn). by apply Hu.
    + destruct Hn as [->|[_ ->]]; [by apply Hr|]. apply wrap64_range.
  - split.
    + rw Hp fmap_cons NoDup_cons. split; [|done]. intros (x & Hid & Hx)%list_elem_of_fmap.
      apply Hfresh. rw Hid. by apply Hu.
    + intros x. rw Hp elem_of_cons Hused. intros [->|?%Hu]; set_solver.
    + intros x. rw Hp elem_of_cons. intros [->|?%Hr]; [rw Hv|]; done.
Qed.

Lemma session_new_ok : session_ok session_new.
Proof. split; [constructor|intros e []%elem_of_nil..]. Qed.

Lemma steps_ok n s s' : session_ok s → nsteps session_step n s s' → session_ok s'.
Proof. intros Hok. induction 1; eauto using step_ok. Qed.

Lemma steps_used n s s' : nsteps session_step n s s' → ss_used s ⊆ ss_used s'.
Proof.
  induction 1 as [|n s s1 s' Hs _ IH]; [done|]. etrans; [|exact IH].
  destruct (step_cases _ _ Hs) as [[_ ->]|(e & _ & _ & _ & ->)]; set_solver.
Qed.

(** After [n] steps an entry is the same or its version has advanced. *)
Lemma steps_advance n s s' e e' :
  session_ok s → nsteps session_step n s s' → e ∈ all s → e' ∈ all s' → pe_id e' = pe_id e →
  e' = e ∨ ∃ j, (0 < j ≤ Z.of_nat n)%Z ∧ pe_version e' = wrapping_add (pe_version e) j.
Proof.
  intros Hok. revert s' e'. induction n as [|n IH]; intros s' e' Hs He He' Hid.
  { inversion Hs; subst. left. destruct Hok as [Hnd _ _].
    apply list_elem_of_lookup in He as [i Hi], He' as [j Hj].
    assert (i = j) as ->; [|by simplify_eq].
    eapply (NoDup_lookup (pe_id <$> all s')); [done|..]; rw list_lookup_fmap ?Hi ?Hj //=. by rw Hid. }
  apply nsteps_inv_r in Hs as (sm & Hs & Hstep).
  destruct (step_cases _ _ Hstep) as [[Hev _]|(x & Hp & Hfresh & _ & _)].
  - destruct (evolves_elem _ _ _ Hev He') as (em & Hem & Hn).
    destruct (IH sm em Hs He Hem) as [->|(j & Hj & Hv)]; [by rw -(next_id _ _ Hn)|..].
    + destruct Hn as [->|[_ Hv]]; [by left|]. right. exists 1%Z. split; [lia|done].
    + right. destruct Hn as [->|[_ Hv']]; [exists j; split; [lia|done]|].
      exists (j + 1)%Z. split; [lia|]. rw Hv' Hv. unfold wrapping_add, wrap64.
      rw Zplus_mod_idemp_l. f_equal. lia.
  - rw Hp elem_of_cons in He'. destruct He' as [->|He'].
    + destruct Hfresh. rw Hid. apply (steps_used _ _ _ Hs). by apply Hok.
    + destruct (IH sm e' Hs He He' Hid) as [->|(j & Hj & Hv)]; [by left|].
      right. exists j. split; [lia|done].
Qed.

(** A version identifies the contents of an entry: in every run of fewer
    than [2^64] steps between two points of the life of a session, an entry
    that still has the version a writer read is the entry it read, with every
    field the same, so that a check of the version before a change loses no
    update of another writer. *)
Theorem version_identifies m n s s' e e' :
  nsteps session_step m session_new s → nsteps session_step n s s' → (Z.of_nat n < 2 ^ 64)%Z →
  e ∈ all s → e' ∈ all s' → pe_id e' = pe_id e → pe_version e' = pe_version e → e' = e.
Proof.
  intros Hm Hn Hlt He He' Hid Hv. pose proof (steps_ok _ _ _ session_new_ok Hm) as Hok.
  destruct (steps_advance n s s' e e' Hok Hn He He' Hid) as [->|(j & Hj & Hadv)]; [done|].
  pose proof (so_range _ Hok e He) as Hr. exfalso. rw Hv in Hadv.
  unfold wrapping_add, wrap64 in Hadv.
  destruct (decide (pe_version e + j < 2 ^ 64)%Z); [rw Z.mod_small in Hadv; lia|].
  rw -(Z.mod_add _ (-1)) in Hadv; [|done]. rw Z.mod_small in Hadv; lia.
Qed.
