(* ===== verification/QueueWitness.v ===== *)
(** * The prompt queue on concrete sessions

    A queue with two plain prompts, a command and accepted steering, and each
    theorem of [QueueProps] and [QueueTrace] applied to it. *)

From S2P Require Import Prelude Text Window Workload PromptQueue QueueProps QueueTrace.
From stdpp Require Import relations.

Definition plain (id text : string) : PromptQueueEntry :=
  {| pe_id := id; pe_version := 0; pe_text := text; pe_kind := classify_kind text;
     pe_source := "composer"; pe_owner := Some "desktop"; pe_created_at := 0; pe_priority := false |}.

Definition queue4 : SessionPromptQueue :=
  {| q_queued := [plain "a" "one"; plain "b" "two"; plain "c" "/help"; plain "d" "four"];
     q_steering := [plain "s" "stop"]; q_delivering := [plain "t" "wait"] |}.

Example taken_text :
  (take_next queue4).2.(tr_batch) =
  Some {| pb_entries := [plain "a" "one"; plain "b" "two"];
          pb_text := "one" +:+ TEXT_SEPARATOR +:+ "two" |}.
Proof. vm_compute. reflexivity. Qed.

Example move_versions :
  (λ e, (pe_id e, pe_version e)) <$> (match move_to "d" 1 queue4 with inr q => q_queued q | inl _ => [] end)
  = [("a", 0%Z); ("d", 1%Z); ("b", 1%Z); ("c", 1%Z)].
Proof. vm_compute. reflexivity. Qed.

(** [run_next] shifts [a] and [b] to other indices and leaves their versions. *)
Example run_next_shifts_silently :
  (λ e, (pe_id e, pe_version e)) <$> (match run_next "c" queue4 with inr (q, _) => q_queued q | inl _ => [] end)
  = [("c", 1%Z); ("a", 0%Z); ("b", 0%Z); ("d", 0%Z)].
Proof. vm_compute. reflexivity. Qed.

Lemma take_restore_witness :
  q_queued queue4
    = next_batch (q_queued queue4) ++ q_queued (take_next queue4).1 ∧
  restore_batch (next_batch (q_queued queue4)) (take_next queue4).1
    = set_queued queue4 ((bump <$> next_batch (q_queued queue4)) ++ q_queued (take_next queue4).1).
Proof.
  destruct (take_restore queue4 (take_next queue4).1 (take_next queue4).2 eq_refl)
    as (_ & _ & Hq & _ & Hr).
  split; [exact Hq|exact Hr].
Defined.

Lemma clear_reports_witness :
  entries (queue_clear queue4).1 = [plain "t" "wait"] ∧
  (fully_stopped (queue_clear queue4).2 = true ↔ entries (queue_clear queue4).1 = []).
Proof.
  destruct (clear_reports queue4 (queue_clear queue4).1 (queue_clear queue4).2 eq_refl) as (He & _ & Hf).
  split; [exact He|exact Hf].
Defined.

Definition moved4 : SessionPromptQueue :=
  match move_to "d" 1 queue4 with inr q => q | inl _ => queue4 end.

Lemma move_bumps_shifted_witness :
  ∃ f t, t = 1 `min` (length (q_queued queue4) - 1) ∧
    (∃ e, q_queued queue4 !! f = Some e ∧ pe_id e = "d") ∧
    length (q_queued moved4) = length (q_queued queue4) ∧
    ∀ i e, q_queued queue4 !! i = Some e →
      q_queued moved4 !! moved f t i = Some (if decide (moved f t i = i) then e else bump e) ∧
      (check_version (pe_id e) (pe_version e) moved4 = inr () ↔ moved f t i = i).
Proof.
  apply (move_bumps_shifted "d" 1 queue4 moved4).
  - vm_compute. reflexivity.
  - apply (bool_decide_unpack _). by vm_compute.
  - repeat constructor; vm_compute; congruence.
Defined.

(** A session with two prompts, and the same one after an edit of the second. *)
Definition session2 : Session :=
  {| ss_queue := set_queued queue_default [plain "a" "one"; plain "b" "two"]; ss_taken := [];
     ss_used := {[ "b" ]} ∪ ({[ "a" ]} ∪ ∅) |}.
Definition session3 : Session :=
  {| ss_queue := set_queued queue_default [plain "a" "one"; edited (plain "b" "two") "three"];
     ss_taken := []; ss_used := {[ "b" ]} ∪ ({[ "a" ]} ∪ ∅) |}.

Lemma session2_runs : nsteps session_step 2 session_new session2.
Proof.
  eapply nsteps_l; [eapply (step_add session_new "a" 0%Z "one" "composer" false (Some "desktop"));
    [apply not_elem_of_empty|vm_compute; reflexivity]|].
  eapply nsteps_l; [eapply (step_add _ "b" 0%Z "two" "composer" false (Some "desktop"));
    [by apply (bool_decide_unpack _); vm_compute|vm_compute; reflexivity]|].
  apply nsteps_O.
Defined.

Lemma session3_runs : nsteps session_step 1 session2 session3.
Proof.
  eapply nsteps_l; [eapply (step_edit session2 "b" 0%Z "three"); vm_compute; reflexivity|].
  apply nsteps_O.
Defined.

Lemma version_identifies_witness : head (all session3) = head (all session2).
Proof.
  refine (f_equal Some (version_identifies 2 1 session2 session3 (plain "a" "one") (plain "a" "one")
            session2_runs session3_runs _ _ _ _ _));
    [vm_compute; reflexivity|by left..|reflexivity|reflexivity].
Defined.
