(* ===== verification/Ledger.v ===== *)
(** * The work ledger: files, redo-log intents and their recovery

    Models the part of [orchestration/store.rs] of
    [crates/codegen/grokptah-agent-bridge/src] that keeps work items, attempts,
    decisions and request receipts as one JSON file per record, and changes
    several of them through an intent file that is written first, replayed by
    [open], and removed last; with [safe_id_filename], [IdempotencyScope] and
    [IdempotencyReceipt] of [orchestration/types.rs] and [WorkAttemptView] of
    [orchestration/workload.rs].

    A write is atomic (a temporary file, [fsync], [rename], [fsync] of the
    directory) but may fail or end the process before or after the rename; a
    read may fail.  Which of these happens, the clock, the fresh identifiers and
    the order of a directory are fields of [LedgerEnv], indexed by the number of
    effects so far.  An [anyhow] error is the [Internal] error with its text,
    which is what every caller in the store makes of it. *)

From S2P Require Import Prelude Text Window Ids Workload WorkGraph.
From stdpp Require Import pretty.
From Stdlib Require Import Ascii.

(** ** Equality of records ([PartialEq]) *)

#[export] Instance RunBounds_eq_dec : EqDecision RunBounds.
Proof. solve_decision. Defined.
#[export] Instance WorkRetryPolicy_eq_dec : EqDecision WorkRetryPolicy.
Proof. solve_decision. Defined.
#[export] Instance ManagedWorkMode_eq_dec : EqDecision ManagedWorkMode.
Proof. solve_decision. Defined.
#[export] Instance RequiredCheckCwd_eq_dec : EqDecision RequiredCheckCwd.
Proof. solve_decision. Defined.
#[export] Instance RequiredCheckEnv_eq_dec : EqDecision RequiredCheckEnv.
Proof. solve_decision. Defined.
#[export] Instance RequiredCheckSpec_eq_dec : EqDecision RequiredCheckSpec.
Proof. solve_decision. Defined.
#[export] Instance WorkPolicy_eq_dec : EqDecision WorkPolicy.
Proof. solve_decision. Defined.
#[export] Instance WorkDependency_eq_dec : EqDecision WorkDependency.
Proof. solve_decision. Defined.
#[export] Instance WorkProgress_eq_dec : EqDecision WorkProgress.
Proof. solve_decision. Defined.
#[export] Instance WorkArtifactRef_eq_dec : EqDecision WorkArtifactRef.
Proof. solve_decision. Defined.
#[export] Instance CompletionClaims_eq_dec : EqDecision CompletionClaims.
Proof. solve_decision. Defined.
#[export] Instance CompletionObservations_eq_dec : EqDecision CompletionObservations.
Proof. solve_decision. Defined.
#[export] Instance CompletionUsage_eq_dec : EqDecision CompletionUsage.
Proof. solve_decision. Defined.
#[export] Instance CompletionEvidence_eq_dec : EqDecision CompletionEvidence.
Proof. solve_decision. Defined.
#[export] Instance CandidateFileRecord_eq_dec : EqDecision CandidateFileRecord.
Proof. solve_decision. Defined.
#[export] Instance RequiredCheckExecution_eq_dec : EqDecision RequiredCheckExecution.
Proof. solve_decision. Defined.
#[export] Instance CandidateVerification_eq_dec : EqDecision CandidateVerification.
Proof. solve_decision. Defined.
#[export] Instance WorkResult_eq_dec : EqDecision WorkResult.
Proof. solve_decision. Defined.
#[export] Instance WorkApproval_eq_dec : EqDecision WorkApproval.
Proof. solve_decision. Defined.
#[export] Instance WorkItem_eq_dec : EqDecision WorkItem.
Proof. solve_decision. Defined.
#[export] Instance WorkAttempt_eq_dec : EqDecision WorkAttempt.
Proof. solve_decision. Defined.
#[export] Instance WorkDecision_eq_dec : EqDecision WorkDecision.
Proof. solve_decision. Defined.

(** ** Errors *)

Definition conflict (message : string) : OrchError :=
  {| oe_code := Conflict; oe_message := message |}.
Definition internal (message : string) : OrchError :=
  {| oe_code := Internal; oe_message := message |}.
Definition forbidden (message : string) : OrchError :=
  {| oe_code := ForbiddenScope; oe_message := message |}.

(** [OrchErrorCode::as_str] and [Display for OrchError]. *)
Definition code_as_str (c : OrchErrorCode) : string :=
  match c with
  | Unauthenticated => "unauthenticated"
  | ForbiddenScope => "forbidden_scope"
  | WorkspaceMismatch => "workspace_mismatch"
  | SessionBusy => "session_busy"
  | CapacityExhausted => "capacity_exhausted"
  | StaleVersion => "stale_version"
  | CursorExpired => "cursor_expired"
  | RestartRequired => "restart_required"
  | Internal => "internal"
  | Timeout => "timeout"
  | InvalidRequest => "invalid_request"
  | Unsupported => "unsupported"
  | Conflict => "conflict"
  end.

Definition error_display (e : OrchError) : string :=
  code_as_str (oe_code e) +:+ ": " +:+ oe_message e.

(** [.map_err(|error| anyhow::anyhow!(error.to_string()))]. *)
Definition anyhow_of {A} (r : ORes A) : ORes A :=
  match r with inl e => inl (internal (error_display e)) | inr a => inr a end.

(** [if b { return Err(e) }]. *)
Definition ensure_not (b : bool) (e : OrchError) : ORes unit := if b then inl e else inr ().

(** [o.ok_or_else(|| e)]. *)
Definition ok_or {A} (o : option A) (e : OrchError) : ORes A :=
  match o with Some a => inr a | None => inl e end.

(** ** File names and request scopes *)

Section names.
Context {SH : Sha256}.

Definition safe_id_filename (id : string) : ORes string :=
  _ ← refuse_if (bool_decide (id = "") || bool_decide (256 < slen id)%Z) "id length out of range";
  _ ← refuse_if (str_contains ".." id || str_contains "/" id || str_contains "\" id
                 || str_contains NUL id) "id contains path separators";
  mret (hex (sha256 id)).

(** [u64::to_be_bytes]. *)
Definition to_be_bytes (n : Z) : string := string_rev (to_le_bytes n).

Definition domain_digest (domain value : string) : string :=
  hex (sha256 (domain +:+ NUL +:+ to_be_bytes (slen value) +:+ value)).

Record IdempotencyScope := {
  is_owner_id : string; is_session_id : Uuid; is_workspace_digest : string;
}.

Definition MAX_AGENT_WORKSPACE_BYTES : Z := 4096.

Definition validate_bounded_string (value : string) (max_bytes : Z) (field : string) : ORes unit :=
  refuse_if (bool_decide (value = "") || bool_decide (max_bytes < slen value)%Z
             || str_contains NUL value) (field +:+ " is empty or exceeds its bound").

Definition validate_workspace (value : string) : ORes unit :=
  _ ← validate_bounded_string value MAX_AGENT_WORKSPACE_BYTES "workspace";
  refuse_if (bool_decide (trim value = "")) "workspace must not be empty".

(** [IdempotencyScope::new]; a path of the model is UTF-8 text. *)
Definition scope_new (owner_id : string) (session_id : Uuid) (workspace : string)
    : ORes IdempotencyScope :=
  _ ← validate_bounded_string owner_id 256 "owner_id";
  _ ← validate_workspace workspace;
  mret {| is_owner_id := owner_id; is_session_id := session_id;
          is_workspace_digest := domain_digest "grokptah-idempotency-workspace-v2" workspace |}.

Definition owner_path_digest (scope : IdempotencyScope) : string :=
  domain_digest "grokptah-idempotency-owner-v2" (is_owner_id scope).

Definition is_hexdigit (c : ascii) : bool := bool_decide (is_Some (to_digit16 c)).

(** The path below [idempotency/v2]: owner, workspace, request. *)
Definition idemp_path (scope : IdempotencyScope) (request_id : string)
    : ORes (string * string * string) :=
  safe ← safe_id_filename request_id;
  let workspace := is_workspace_digest scope in
  _ ← ensure_not (bool_decide (slen workspace ≠ 64%Z) || negb (string_forall is_hexdigit workspace))
        (internal "idempotency workspace scope is invalid");
  mret (owner_path_digest scope, workspace, safe).
End names.

(** ** Digests of records

    [hash_payload] of the JSON value of a record: a string that is only compared
    for equality. *)
Class LedgerDigests := {
  digest : Type;
  digest_eq_dec :: EqDecision digest;
  item_digest : WorkItem → digest;
  attempt_digest : WorkAttempt → digest;
  decision_digest : WorkDecision → digest;
}.

(** ** Requests, responses and receipts *)

Record WorkRequestBinding := {
  rq_request_id : string; rq_owner_id : string; rq_tool : string; rq_session_id : Uuid;
  rq_workspace_digest : string; rq_workspace_display : string; rq_payload_hash : string;
  rq_shape : string; rq_target_work_id : option string; rq_target_attempt_id : option string;
  rq_expected_revision : option Z;
}.

Record WorkAttemptView := {
  av_schema_version : Z; av_attempt_id : string; av_work_id : string; av_attempt_number : Z;
  av_claimant_id : string; av_acquired_at : DateTime; av_lease_expires_at : DateTime;
  av_last_heartbeat_at : DateTime; av_state : AttemptState; av_linked_run_ids : list string;
  av_progress : option WorkProgress; av_result : option WorkResult;
  av_terminal_reason : option string; av_created_at : DateTime; av_updated_at : DateTime;
}.

Definition view_of (a : WorkAttempt) : WorkAttemptView := {|
  av_schema_version := wt_schema_version a; av_attempt_id := wt_attempt_id a;
  av_work_id := wt_work_id a; av_attempt_number := wt_attempt_number a;
  av_claimant_id := wt_claimant_id a; av_acquired_at := wt_acquired_at a;
  av_lease_expires_at := wt_lease_expires_at a; av_last_heartbeat_at := wt_last_heartbeat_at a;
  av_state := wt_state a; av_linked_run_ids := wt_linked_run_ids a;
  av_progress := wt_progress a; av_result := wt_result a;
  av_terminal_reason := wt_terminal_reason a; av_created_at := wt_created_at a;
  av_updated_at := wt_updated_at a |}.

(** The JSON values a receipt holds: one constructor per set of keys the ledger
    writes, and the values other tools store. *)
Inductive Response :=
  | RNull
  | RWorkAttempt (work : WorkItem) (attempt : WorkAttemptView)
  | RWorkAttempts (work : WorkItem) (attempts : list WorkAttemptView)
  | RWorkScope (work : WorkItem) (session_id : Uuid) (workspace : string)
  | RClaim (work : WorkItem) (attempt : WorkAttemptView) (session_id : Uuid) (workspace : string)
  | RLeaseView (work_id : string) (attempt : WorkAttemptView) (session_id : Uuid) (workspace : string)
  | RDecision (work : WorkItem) (decision : WorkDecision)
  | RDecisionScope (work : WorkItem) (decision : WorkDecision) (session_id : Uuid) (workspace : string)
  | RUnblock (work_id : string) (state : WorkState) (revision : Z)
      (block_provenance : option BlockProvenance) (session_id : Uuid)
  | ROther (json : string).

#[export] Instance WorkAttemptView_eq_dec : EqDecision WorkAttemptView.
Proof. solve_decision. Defined.
#[export] Instance Response_eq_dec : EqDecision Response.
Proof. solve_decision. Defined.

Record IdempotencyReceipt := {
  ir_schema_version : Z; ir_owner_id : string; ir_session_id : Uuid;
  ir_workspace_digest : string; ir_request_id : string; ir_payload_hash : string;
  ir_run_id : option string; ir_tool : string; ir_response : Response;
  ir_error : option OrchError; ir_created_at : DateTime; ir_status : string;
  ir_cleanup_plan_digest : string;
}.

Definition IDEMPOTENCY_RECEIPT_SCHEMA_VERSION : Z := 2.

Definition is_in_scope (r : IdempotencyReceipt) (scope : IdempotencyScope) : bool :=
  bool_decide (ir_schema_version r = IDEMPOTENCY_RECEIPT_SCHEMA_VERSION)
  && bool_decide (ir_owner_id r = is_owner_id scope)
  && bool_decide (ir_session_id r = is_session_id scope)
  && bool_decide (ir_workspace_digest r = is_workspace_digest scope).

Definition scope_of_request (request : WorkRequestBinding) : IdempotencyScope := {|
  is_owner_id := rq_owner_id request; is_session_id := rq_session_id request;
  is_workspace_digest := rq_workspace_digest request |}.

(** ** Intents *)

Record WorkLifecycleIntent := {
  li_schema_version : Z; li_intent_id : string; li_operation : string; li_work_id : string;
  li_prior_item : WorkItem; li_item : WorkItem; li_prior_attempts : list WorkAttempt;
  li_attempts : list WorkAttempt; li_request : option WorkRequestBinding;
}.

Definition WORK_LIFECYCLE_INTENT_SCHEMA_VERSION : Z := 1.

(** The loop of [validate_work_attempt_set]. *)
Fixpoint validate_attempts_from (ids : gset string) (work_id : string) (attempts : list WorkAttempt)
    : ORes unit :=
  match attempts with
  | [] => inr ()
  | attempt :: attempts =>
      _ ← attempt_validate attempt;
      _ ← refuse_if (bool_decide (wt_work_id attempt ≠ work_id)
                     || bool_decide (wt_attempt_id attempt ∈ ids))
            "work lifecycle intent has a duplicate or foreign attempt";
      validate_attempts_from ({[ wt_attempt_id attempt ]} ∪ ids) work_id attempts
  end.

Definition validate_work_attempt_set (work_id : string) (attempts : list WorkAttempt) : ORes unit :=
  validate_attempts_from ∅ work_id attempts.

(** [WorkLifecycleIntent::validate]. *)
Definition lifecycle_validate (i : WorkLifecycleIntent) : ORes unit :=
  _ ← refuse_if (bool_decide (li_schema_version i ≠ WORK_LIFECYCLE_INTENT_SCHEMA_VERSION)
                 || bool_decide (li_intent_id i = "") || bool_decide (trim (li_operation i) = "")
                 || bool_decide (li_work_id i = "")
                 || bool_decide (wi_work_id (li_prior_item i) ≠ li_work_id i)
                 || bool_decide (wi_work_id (li_item i) ≠ li_work_id i)
                 || bool_decide (wi_session_id (li_prior_item i) ≠ wi_session_id (li_item i))
                 || bool_decide (wi_workspace (li_prior_item i) ≠ wi_workspace (li_item i))
                 || bool_decide (wi_created_by (li_prior_item i) ≠ wi_created_by (li_item i)))
        "work lifecycle intent schema or lane identity is invalid";
  _ ← item_validate (li_prior_item i);
  _ ← item_validate (li_item i);
  _ ← validate_work_attempt_set (li_work_id i) (li_prior_attempts i);
  validate_work_attempt_set (li_work_id i) (li_attempts i).

(** [WorkLifecycleIntent::new_with_id]. *)
Definition lifecycle_new (intent_id operation : string) (prior_item item : WorkItem)
    (prior_attempts attempts : list WorkAttempt) : ORes WorkLifecycleIntent :=
  let intent := {| li_schema_version := WORK_LIFECYCLE_INTENT_SCHEMA_VERSION;
                   li_intent_id := intent_id; li_operation := operation;
                   li_work_id := wi_work_id item; li_prior_item := prior_item; li_item := item;
                   li_prior_attempts := prior_attempts; li_attempts := attempts;
                   li_request := None |} in
  _ ← lifecycle_validate intent;
  mret intent.

Definition lifecycle_with_request (i : WorkLifecycleIntent) (request : WorkRequestBinding)
    : WorkLifecycleIntent := {|
  li_schema_version := li_schema_version i; li_intent_id := li_intent_id i;
  li_operation := li_operation i; li_work_id := li_work_id i; li_prior_item := li_prior_item i;
  li_item := li_item i; li_prior_attempts := li_prior_attempts i; li_attempts := li_attempts i;
  li_request := Some request |}.

Section intents.
Context {DG : LedgerDigests}.

Record WorkMutationIntent := {
  mi_schema_version : Z; mi_intent_id : string; mi_work_id : string; mi_expected_revision : Z;
  mi_prior_item_digest : digest; mi_next_item_digest : digest; mi_decision_digest : digest;
  mi_item : WorkItem; mi_decision : WorkDecision; mi_request : option WorkRequestBinding;
}.

(** [WorkMutationIntent::validate]. *)
Definition mutation_validate (i : WorkMutationIntent) : ORes unit :=
  _ ← refuse_if (bool_decide (mi_schema_version i ≠ WORKLOAD_SCHEMA_VERSION)
                 || bool_decide (mi_intent_id i = "") || bool_decide (mi_work_id i = "")
                 || bool_decide (mi_expected_revision i = 0%Z))
        "work mutation intent schema or identity is invalid";
  _ ← item_validate (mi_item i);
  _ ← decision_validate (mi_decision i);
  _ ← refuse_if (bool_decide (wi_work_id (mi_item i) ≠ mi_work_id i)
                 || bool_decide (wd_work_id (mi_decision i) ≠ mi_work_id i)
                 || bool_decide (mi_intent_id i ≠ wd_decision_id (mi_decision i))
                 || bool_decide (wi_last_decision_id (mi_item i) ≠ Some (mi_intent_id i))
                 || bool_decide (wd_work_revision (mi_decision i) ≠ Some (mi_expected_revision i))
                 || bool_decide ((wd_work_revision (mi_decision i) ≫= λ r, checked_add r 1)
                                 ≠ Some (wi_revision (mi_item i))))
        "work mutation intent records do not agree";
  refuse_if (bool_decide (item_digest (mi_item i) ≠ mi_next_item_digest i)
             || bool_decide (decision_digest (mi_decision i) ≠ mi_decision_digest i))
    "work mutation intent digest is invalid".

(** [WorkMutationIntent::new]. *)
Definition mutation_new (prior item : WorkItem) (decision : WorkDecision) : ORes WorkMutationIntent :=
  let intent := {| mi_schema_version := WORKLOAD_SCHEMA_VERSION;
                   mi_intent_id := wd_decision_id decision; mi_work_id := wi_work_id item;
                   mi_expected_revision := wi_revision prior;
                   mi_prior_item_digest := item_digest prior;
                   mi_next_item_digest := item_digest item;
                   mi_decision_digest := decision_digest decision; mi_item := item;
                   mi_decision := decision; mi_request := None |} in
  _ ← mutation_validate intent;
  mret intent.

Definition mutation_with_request (i : WorkMutationIntent) (request : WorkRequestBinding)
    : WorkMutationIntent := {|
  mi_schema_version := mi_schema_version i; mi_intent_id := mi_intent_id i;
  mi_work_id := mi_work_id i; mi_expected_revision := mi_expected_revision i;
  mi_prior_item_digest := mi_prior_item_digest i; mi_next_item_digest := mi_next_item_digest i;
  mi_decision_digest := mi_decision_digest i; mi_item := mi_item i; mi_decision := mi_decision i;
  mi_request := Some request |}.

Definition mutation_response_value (i : WorkMutationIntent) : Response :=
  match mi_request i with
  | None => RNull
  | Some request =>
      if decide (rq_shape request = "decision") then RDecision (mi_item i) (mi_decision i)
      else if decide (rq_shape request = "decision_scope") then
        RDecisionScope (mi_item i) (mi_decision i) (rq_session_id request)
          (rq_workspace_display request)
      else if decide (rq_shape request = "work_scope") then
        RWorkScope (mi_item i) (rq_session_id request) (rq_workspace_display request)
      else if decide (rq_shape request = "unblock") then
        RUnblock (wi_work_id (mi_item i)) (wi_state (mi_item i)) (wi_revision (mi_item i))
          (wi_block_provenance (mi_item i)) (rq_session_id request)
      else RNull
  end.

Definition find_attempt (id : string) (attempts : list WorkAttempt) : option WorkAttempt :=
  List.find (λ a, bool_decide (wt_attempt_id a = id)) attempts.

(** The loop of [changed_lifecycle_attempt]. *)
Definition changed_lifecycle_attempt (i : WorkLifecycleIntent) : ORes WorkAttempt :=
  let changed attempt :=
    match find_attempt (wt_attempt_id attempt) (li_prior_attempts i) with
    | None => true
    | Some prior => bool_decide (attempt_digest prior ≠ attempt_digest attempt)
    end in
  match List.find changed (li_attempts i) with
  | Some attempt => inr attempt
  | None => ok_or (head (li_attempts i)) (internal "work attempt response has no attempt")
  end.

Definition lifecycle_response_value (i : WorkLifecycleIntent) : ORes Response :=
  match li_request i with
  | None => inr RNull
  | Some request =>
      if decide (rq_shape request = "work_attempt") then
        attempt ← changed_lifecycle_attempt i;
        mret (RWorkAttempt (li_item i) (view_of attempt))
      else if decide (rq_shape request = "work_attempts") then
        mret (RWorkAttempts (li_item i) (view_of <$> li_attempts i))
      else if decide (rq_shape request = "work_scope") then
        mret (RWorkScope (li_item i) (rq_session_id request) (rq_workspace_display request))
      else if decide (rq_shape request = "claim") then
        attempt ← changed_lifecycle_attempt i;
        mret (RClaim (li_item i) (view_of attempt) (rq_session_id request)
                (rq_workspace_display request))
      else if decide (rq_shape request = "lease_view") then
        attempt ← changed_lifecycle_attempt i;
        mret (RLeaseView (li_work_id i) (view_of attempt) (rq_session_id request)
                (rq_workspace_display request))
      else mret RNull
  end.

(** ** The ledger's files and the store *)

(** One map per directory, keyed by file name; a decision is kept in a
    directory of its work item. *)
Record Disk := {
  dk_items : gmap string WorkItem;
  dk_attempts : gmap string WorkAttempt;
  dk_decisions : gmap (string * string) WorkDecision;
  dk_mutations : gmap string WorkMutationIntent;
  dk_lifecycles : gmap string WorkLifecycleIntent;
  dk_receipts : gmap (string * string * string) IdempotencyReceipt;
}.

Definition put_item (k : string) (v : WorkItem) (d : Disk) : Disk := {|
  dk_items := <[k := v]> (dk_items d); dk_attempts := dk_attempts d;
  dk_decisions := dk_decisions d; dk_mutations := dk_mutations d;
  dk_lifecycles := dk_lifecycles d; dk_receipts := dk_receipts d |}.
Definition put_attempt (k : string) (v : WorkAttempt) (d : Disk) : Disk := {|
  dk_items := dk_items d; dk_attempts := <[k := v]> (dk_attempts d);
  dk_decisions := dk_decisions d; dk_mutations := dk_mutations d;
  dk_lifecycles := dk_lifecycles d; dk_receipts := dk_receipts d |}.
Definition put_decision (k : string * string) (v : WorkDecision) (d : Disk) : Disk := {|
  dk_items := dk_items d; dk_attempts := dk_attempts d;
  dk_decisions := <[k := v]> (dk_decisions d); dk_mutations := dk_mutations d;
  dk_lifecycles := dk_lifecycles d; dk_receipts := dk_receipts d |}.
Definition put_mutations (v : gmap string WorkMutationIntent) (d : Disk) : Disk := {|
  dk_items := dk_items d; dk_attempts := dk_attempts d; dk_decisions := dk_decisions d;
  dk_mutations := v; dk_lifecycles := dk_lifecycles d; dk_receipts := dk_receipts d |}.
Definition put_lifecycles (v : gmap string WorkLifecycleIntent) (d : Disk) : Disk := {|
  dk_items := dk_items d; dk_attempts := dk_attempts d; dk_decisions := dk_decisions d;
  dk_mutations := dk_mutations d; dk_lifecycles := v; dk_receipts := dk_receipts d |}.
Definition put_receipt (k : string * string * string) (v : IdempotencyReceipt) (d : Disk) : Disk := {|
  dk_items := dk_items d; dk_attempts := dk_attempts d; dk_decisions := dk_decisions d;
  dk_mutations := dk_mutations d; dk_lifecycles := dk_lifecycles d;
  dk_receipts := <[k := v]> (dk_receipts d) |}.

(** [OrchStoreInner]: the files, [ledger_admission_closed], and the number of
    effects so far. *)
Record Store := { st_disk : Disk; st_closed : option string; st_tick : nat }.

Definition with_disk (d : Disk) (s : Store) : Store :=
  {| st_disk := d; st_closed := st_closed s; st_tick := S (st_tick s) |}.
Definition ticked (s : Store) : Store :=
  {| st_disk := st_disk s; st_closed := st_closed s; st_tick := S (st_tick s) |}.
Definition with_closed (message : option string) (s : Store) : Store :=
  {| st_disk := st_disk s; st_closed := message; st_tick := st_tick s |}.

(** A method returns, returns an error, or the process ends inside it. *)
Inductive outcome (A : Type) := Returned (a : A) | Refused (e : OrchError) | Died.
#[global] Arguments Returned {A} a.
#[global] Arguments Refused {A} e.
#[global] Arguments Died {A}.

Definition LM (A : Type) : Type := Store → outcome A * Store.

#[global] Instance LM_ret : MRet LM := λ A a s, (Returned a, s).
#[global] Instance LM_bind : MBind LM := λ A B f m s,
  match m s with
  | (Returned a, s') => f a s'
  | (Refused e, s') => (Refused e, s')
  | (Died, s') => (Died, s')
  end.

Definition fail {A} (e : OrchError) : LM A := λ s, (Refused e, s).
Definition lift {A} (r : ORes A) : LM A :=
  match r with inl e => fail e | inr a => mret a end.
(** [.map_err(|error| anyhow::anyhow!(error.to_string()))] on a store method. *)
Definition as_anyhow {A} (m : LM A) : LM A := λ s,
  match m s with (Refused e, s') => (Refused (internal (error_display e)), s') | r => r end.
End intents.

(** ** The environment of a run *)

Inductive WriteOutcome := WDone | WErrBefore | WErrAfter | WDiesBefore | WDiesAfter.

Class LedgerEnv := {
  write_result : nat → WriteOutcome;
  read_ok : nat → bool;
  io_message : nat → string;
  clock : nat → DateTime;
  fresh_uuid : nat → string;
  dir_order : nat → list string → list string;
}.
