(* ===== verification/LedgerStore.v ===== *)
(** * The work ledger: reading, writing, committing and recovering

    The private methods of [OrchStore] in [orchestration/store.rs] that load and
    save the records of [Ledger], commit an intent and replay the pending ones.
    Every method runs under the store's lock, so a method is one sequence of
    effects.  The settlement of a managed finalization is a parameter; receipts
    of the layout before [idempotency/v2] are not modelled. *)

From stdpp Require Import pretty.
From S2P Require Import Prelude Text Ids Window Workload WorkGraph Ledger.

(** [settle_managed_finalization_unlocked], which writes the records of a
    managed execution. *)
Class ManagedSettlement {DG : LedgerDigests} :=
  settle_managed_finalization : WorkLifecycleIntent → DateTime → LM unit.

Section store.
Context {SH : Sha256} {DG : LedgerDigests} {FS : FileSystem} {ENV : LedgerEnv}
  {MS : ManagedSettlement}.

(** ** Effects *)

(** [Utc::now] and [Uuid::new_v4]. *)
Definition now_utc : LM DateTime := λ s, (Returned (clock (st_tick s)), ticked s).
Definition new_uuid : LM string := λ s, (Returned (fresh_uuid (st_tick s)), ticked s).

(** [path.is_file()] and [fs::read_to_string] with the JSON decoder. *)
Definition read_file {A} (sel : Disk → option A) : LM (option A) := λ s,
  match sel (st_disk s) with
  | None => (Returned None, s)
  | Some a =>
      if read_ok (st_tick s) then (Returned (Some a), ticked s)
      else (Refused (internal (io_message (st_tick s))), ticked s)
  end.

(** [fs::read_dir]. *)
Definition read_dir {A} (sel : Disk → gmap string A) : LM (list string) := λ s,
  if read_ok (st_tick s) then
    (Returned (dir_order (st_tick s) (map_to_list (sel (st_disk s))).*1), ticked s)
  else (Refused (internal (io_message (st_tick s))), ticked s).

(** [atomic_write_json] and [remove_file_durable]. *)
Definition write_file (change : Disk → Disk) : LM unit := λ s,
  match write_result (st_tick s) with
  | WDone => (Returned (), with_disk (change (st_disk s)) s)
  | WErrBefore => (Refused (internal (io_message (st_tick s))), ticked s)
  | WErrAfter =>
      (Refused (internal (io_message (st_tick s))), with_disk (change (st_disk s)) s)
  | WDiesBefore => (Died, ticked s)
  | WDiesAfter => (Died, with_disk (change (st_disk s)) s)
  end.

(** [note_partial_commit], applied to the error of a method. *)
Definition CLOSED_MESSAGE : string := "ledger admission is closed until the store is reopened".

Definition note_partial_commit {A} (m : LM A) : LM A := λ s,
  match m s with
  | (Refused e, s') =>
      (Refused e, if decide (oe_code e = Internal) then with_closed (Some CLOSED_MESSAGE) s' else s')
  | r => r
  end.

Fixpoint for_each {A} (xs : list A) (f : A → LM unit) : LM unit :=
  match xs with
  | [] => mret ()
  | x :: xs => _ ← f x; for_each xs f
  end.

Fixpoint collect {A B} (xs : list A) (f : A → LM B) : LM (list B) :=
  match xs with
  | [] => mret []
  | x :: xs => y ← f x; ys ← collect xs f; mret (y :: ys)
  end.

(** ** Loading *)

Definition load_work_item (work_id : string) : LM (option WorkItem) :=
  match safe_id_filename work_id with
  | inl _ => mret None
  | inr name =>
      o ← read_file (λ d, dk_items d !! name);
      match o with
      | None => mret None
      | Some item => _ ← lift (anyhow_of (item_validate item)); mret (Some item)
      end
  end.

Definition load_work_attempt (attempt_id : string) : LM (option WorkAttempt) :=
  match safe_id_filename attempt_id with
  | inl _ => mret None
  | inr name =>
      o ← read_file (λ d, dk_attempts d !! name);
      match o with
      | None => mret None
      | Some attempt => _ ← lift (anyhow_of (attempt_validate attempt)); mret (Some attempt)
      end
  end.

Definition work_decision_path (work_id decision_id : string) : ORes (string * string) :=
  dir ← safe_id_filename work_id;
  name ← safe_id_filename decision_id;
  mret (dir, name).

Definition load_work_decision (work_id decision_id : string) : LM (option WorkDecision) :=
  path ← lift (work_decision_path work_id decision_id);
  o ← read_file (λ d, dk_decisions d !! path);
  match o with
  | None => mret None
  | Some decision => _ ← lift (decision_validate decision); mret (Some decision)
  end.

(** One entry of a directory loop; the file is there, so a missing one is the
    read error. *)
Definition read_entry {A} (sel : Disk → gmap string A) (validate : A → ORes unit) (name : string)
    : LM A :=
  o ← read_file (λ d, sel d !! name);
  match o with
  | None => fail (internal (io_message 0))
  | Some a => _ ← lift (validate a); mret a
  end.

Definition list_work_items : LM (list WorkItem) :=
  names ← read_dir dk_items;
  out ← collect names (read_entry dk_items (λ i, anyhow_of (item_validate i)));
  mret (order_work out).

Definition compare_attempt_number (a b : WorkAttempt) : comparison :=
  (wt_attempt_number a ?= wt_attempt_number b)%Z.

Definition list_work_attempts (work_id : option string) : LM (list WorkAttempt) :=
  names ← read_dir dk_attempts;
  all ← collect names (read_entry dk_attempts (λ a, anyhow_of (attempt_validate a)));
  mret (sort_by compare_attempt_number
          match work_id with
          | Some id => filter (λ a, wt_work_id a = id) all
          | None => all
          end).

(** The loop of [scoped_work_items_unlocked]: the count is checked as it grows. *)
Fixpoint scoped_entries (scope : GraphScope) (names : list string) (items : list WorkItem)
    : LM (list WorkItem) :=
  match names with
  | [] => mret items
  | name :: names =>
      item ← read_entry dk_items (λ i, anyhow_of (item_validate i)) name;
      if scope_contains scope item then
        let items := items ++ [item] in
        if decide (MAX_GRAPH_SCOPE_ITEMS < Z.of_nat (length items))%Z then
          lift (anyhow_of (inl (exhausted ("lane contains more than " +:+ pretty MAX_GRAPH_SCOPE_ITEMS
                  +:+ " work items; bounded read refused"))))
        else scoped_entries scope names items
      else scoped_entries scope names items
  end.

Definition scoped_work_items (scope : GraphScope) : LM (list WorkItem) :=
  names ← read_dir dk_items;
  items ← scoped_entries scope names [];
  mret (order_work items).

(** ** Saving *)

Definition validate_work_item_for_save (item : WorkItem) : LM unit :=
  _ ← lift (anyhow_of (item_validate item));
  existing ← load_work_item (wi_work_id item);
  let scope := scope_of item in
  _ ← match existing with
      | Some _ => mret ()
      | None =>
          lane ← scoped_work_items scope;
          if decide (MAX_GRAPH_SCOPE_ITEMS ≤ Z.of_nat (length lane))%Z then
            lift (anyhow_of (inl (exhausted ("scope holds more than " +:+ pretty MAX_GRAPH_SCOPE_ITEMS
                    +:+ " work items; a new item is refused rather than unbounded"))))
          else mret ()
      end;
  if bool_decide (wi_dependencies item ≠ [])
     && bool_decide (wi_dependencies <$> existing ≠ Some (wi_dependencies item)) then
    lane ← scoped_work_items scope;
    let lane := filter (λ e, wi_work_id e ≠ wi_work_id item ∧ scope_contains scope e = true) lane in
    lift (anyhow_of (validate_scoped_dependency_graph lane item scope))
  else mret ().

Definition write_work_item (item : WorkItem) : LM unit :=
  name ← lift (anyhow_of (safe_id_filename (wi_work_id item)));
  write_file (put_item name item).

Definition save_work_item (item : WorkItem) : LM unit :=
  _ ← validate_work_item_for_save item;
  write_work_item item.

Definition save_work_attempt (attempt : WorkAttempt) : LM unit :=
  _ ← lift (anyhow_of (attempt_validate attempt));
  name ← lift (anyhow_of (safe_id_filename (wt_attempt_id attempt)));
  write_file (put_attempt name attempt).

Definition save_work_decision (decision : WorkDecision) : LM unit :=
  _ ← lift (decision_validate decision);
  path ← lift (work_decision_path (wd_work_id decision) (wd_decision_id decision));
  write_file (put_decision path decision).

(** ** Receipts *)

Definition load_idempotency (scope : IdempotencyScope) (request_id : string)
    : LM (option IdempotencyReceipt) :=
  match idemp_path scope request_id with
  | inl _ => mret None
  | inr path =>
      o ← read_file (λ d, dk_receipts d !! path);
      match o with
      | None => mret None
      | Some receipt =>
          _ ← lift (ensure_not (negb (is_in_scope receipt scope
                                      && bool_decide (ir_request_id receipt = request_id)))
                      (internal "idempotency receipt scope does not match its durable path"));
          mret (Some receipt)
      end
  end.

(** The receipt [finish_idempotency_unlocked] writes over [previous]. *)
Definition finished_receipt (previous : IdempotencyReceipt) (scope : IdempotencyScope)
    (tool request_id payload_hash : string) (run_id : option string) (response : Response)
    (error : option OrchError) (status : string) : IdempotencyReceipt := {|
  ir_schema_version := IDEMPOTENCY_RECEIPT_SCHEMA_VERSION; ir_owner_id := is_owner_id scope;
  ir_session_id := is_session_id scope; ir_workspace_digest := is_workspace_digest scope;
  ir_request_id := request_id; ir_payload_hash := payload_hash; ir_run_id := run_id;
  ir_tool := tool; ir_response := response; ir_error := error;
  ir_created_at := ir_created_at previous; ir_status := status;
  ir_cleanup_plan_digest := ir_cleanup_plan_digest previous |}.

Definition finish_idempotency (scope : IdempotencyScope) (tool request_id payload_hash : string)
    (run_id : option string) (response : Response) (error : option OrchError) (status : string)
    : LM unit :=
  path ← lift (idemp_path scope request_id);
  o ← read_file (λ d, dk_receipts d !! path);
  previous ← lift (ok_or o (conflict "idempotency claim is missing"));
  _ ← lift (ensure_not (negb (is_in_scope previous scope)
                        || bool_decide (ir_request_id previous ≠ request_id)
                        || bool_decide (ir_tool previous ≠ tool)
                        || bool_decide (ir_payload_hash previous ≠ payload_hash))
              (conflict "request_id reused with different payload"));
  if bool_decide (ir_status previous = "complete") && bool_decide (status = "complete")
     && bool_decide (ir_response previous = response) && bool_decide (ir_error previous = None) then
    mret ()
  else
    _ ← lift (ensure_not (bool_decide (ir_status previous ≠ "pending"))
                (conflict ("idempotency claim is already " +:+ ir_status previous)));
    write_file (put_receipt path
      (finished_receipt previous scope tool request_id payload_hash run_id response error status)).

Definition complete_bound_request (request : option WorkRequestBinding) (response : Response)
    : LM unit :=
  match request with
  | None => mret ()
  | Some request =>
      if decide (response = RNull) then mret ()
      else note_partial_commit
             (finish_idempotency (scope_of_request request) (rq_tool request) (rq_request_id request)
                (rq_payload_hash request) None response None "complete")
  end.

Definition SHAPES : list string :=
  ["work_attempt"; "work_attempts"; "work_scope"; "decision"; "decision_scope"; "claim";
   "lease_view"; "unblock"].

Definition bound_request_workspace_matches (request : WorkRequestBinding) (item_workspace : string)
    : bool :=
  if workspaces_match item_workspace (rq_workspace_display request) then true
  else match scope_new (rq_owner_id request) (rq_session_id request) item_workspace with
       | inr scope => bool_decide (is_workspace_digest scope = rq_workspace_digest request)
       | inl _ => false
       end.

Definition validate_bound_request (request : WorkRequestBinding) (prior_item : WorkItem)
    (prior_attempts next_attempts : list WorkAttempt) : LM unit :=
  _ ← lift (ensure_not (bool_decide (rq_shape request ∉ SHAPES))
              (conflict "work request binding has an unknown response shape"));
  _ ← lift (ensure_not (bool_decide (rq_session_id request ≠ wi_session_id prior_item))
              (forbidden "work request binding does not match the work session"));
  _ ← lift (ensure_not (negb (bound_request_workspace_matches request (wi_workspace prior_item)))
              (forbidden "work request binding does not match the work workspace"));
  _ ← lift (ensure_not (match rq_target_work_id request with
                        | Some id => bool_decide (id ≠ wi_work_id prior_item) | None => false end)
              (conflict "work request binding names a different work item"));
  _ ← lift (ensure_not (match rq_expected_revision request with
                        | Some r => bool_decide (r ≠ wi_revision prior_item) | None => false end)
              (conflict "work request binding expected a different revision"));
  _ ← lift (ensure_not (match rq_target_attempt_id request with
                        | Some id => bool_decide (id ∉ wt_attempt_id <$> prior_attempts ++ next_attempts)
                        | None => false end)
              (conflict "work request binding names a missing attempt"));
  o ← load_idempotency (scope_of_request request) (rq_request_id request);
  receipt ← lift (ok_or o (conflict "idempotency claim is missing"));
  _ ← lift (ensure_not (bool_decide (ir_owner_id receipt ≠ rq_owner_id request)
                        || bool_decide (ir_session_id receipt ≠ rq_session_id request)
                        || bool_decide (ir_workspace_digest receipt ≠ rq_workspace_digest request)
                        || bool_decide (ir_tool receipt ≠ rq_tool request)
                        || bool_decide (ir_payload_hash receipt ≠ rq_payload_hash request)
                        || bool_decide (ir_request_id receipt ≠ rq_request_id request))
              (conflict "work request binding does not match its idempotency receipt"));
  lift (ensure_not (bool_decide (ir_status receipt ≠ "pending"))
          (conflict ("idempotency claim is already " +:+ ir_status receipt))).

(** ** Committing a lifecycle intent *)

Definition persist_work_lifecycle_intent (intent : WorkLifecycleIntent) : LM unit :=
  _ ← lift (lifecycle_validate intent);
  name ← lift (safe_id_filename (li_intent_id intent));
  write_file (λ d, put_lifecycles (<[name := intent]> (dk_lifecycles d)) d).

Definition clear_work_lifecycle_intent (intent_id : string) : LM unit :=
  name ← lift (safe_id_filename intent_id);
  write_file (λ d, put_lifecycles (delete name (dk_lifecycles d)) d).

(** A [HashMap] of the attempts by identifier: the last of equal keys stays. *)
Definition by_id (attempts : list WorkAttempt) : gmap string WorkAttempt :=
  foldl (λ m a, <[wt_attempt_id a := a]> m) ∅ attempts.

(** The loop over the prior attempts: each is still its prior or its next
    version; the attempts left over are returned. *)
Fixpoint match_prior (next_by_id : gmap string WorkAttempt) (prior : list WorkAttempt)
    (current_by_id : gmap string WorkAttempt) : ORes (gmap string WorkAttempt) :=
  match prior with
  | [] => inr current_by_id
  | attempt :: prior =>
      let id := wt_attempt_id attempt in
      current ← ok_or (current_by_id !! id)
                  (conflict "work lifecycle recovery found a missing attempt");
      next ← ok_or (next_by_id !! id)
               (invalid "work lifecycle intent removed an existing attempt");
      _ ← ensure_not (bool_decide (attempt_digest current ≠ attempt_digest attempt)
                      && bool_decide (attempt_digest current ≠ attempt_digest next))
            (conflict "work lifecycle recovery found an unexpected attempt revision");
      match_prior next_by_id prior (delete id current_by_id)
  end.

Definition preflight_work_lifecycle_intent (intent : WorkLifecycleIntent)
    : LM (digest * list WorkAttempt) :=
  _ ← lift (lifecycle_validate intent);
  o ← load_work_item (li_work_id intent);
  current_item ← lift (ok_or o (conflict "work item disappeared during lifecycle recovery"));
  let current_digest := item_digest current_item in
  _ ← lift (ensure_not (bool_decide (current_digest ≠ item_digest (li_prior_item intent))
                        && bool_decide (current_digest ≠ item_digest (li_item intent)))
              (conflict ("work lifecycle recovery found an unexpected prior revision for "
                         +:+ li_operation intent)));
  current_attempts ← list_work_attempts (Some (li_work_id intent));
  let next_by_id := by_id (li_attempts intent) in
  rest ← lift (match_prior next_by_id (li_prior_attempts intent) (by_id current_attempts));
  _ ← lift (ensure_not (bool_decide (¬ dom rest ⊆ dom next_by_id))
              (conflict "work lifecycle recovery found an unexpected attempt"));
  mret (current_digest, current_attempts).

(** The loop of [work_lifecycle_attempt_updates]. *)
Fixpoint attempt_updates (prior current_attempts attempts : list WorkAttempt)
    : ORes (list WorkAttempt) :=
  match attempts with
  | [] => inr []
  | attempt :: attempts =>
      let id := wt_attempt_id attempt in
      match find_attempt id current_attempts with
      | Some current =>
          if decide (attempt_digest current = attempt_digest attempt) then
            attempt_updates prior current_attempts attempts
          else match find_attempt id prior with
               | None =>
                   inl (conflict "work lifecycle recovery found an unexpected next-only attempt revision")
               | Some _ =>
                   rest ← attempt_updates prior current_attempts attempts; mret (attempt :: rest)
               end
      | None => rest ← attempt_updates prior current_attempts attempts; mret (attempt :: rest)
      end
  end.

Definition work_lifecycle_attempt_updates (intent : WorkLifecycleIntent)
    (current_attempts : list WorkAttempt) : ORes (list WorkAttempt) :=
  attempt_updates (li_prior_attempts intent) current_attempts (li_attempts intent).

Definition write_work_lifecycle_attempt_updates (intent : WorkLifecycleIntent)
    (current_attempts : list WorkAttempt) : LM unit :=
  updates ← lift (work_lifecycle_attempt_updates intent current_attempts);
  for_each updates save_work_attempt.

Definition write_work_lifecycle_item_update (intent : WorkLifecycleIntent) (current : digest)
    : LM unit :=
  if decide (current = item_digest (li_item intent)) then mret ()
  else save_work_item (li_item intent).

Definition lifecycle_settles_service_receipt (intent : WorkLifecycleIntent) : bool :=
  match rq_tool <$> li_request intent with
  | None => true
  | Some tool =>
      if decide (tool = "ptah_apply_verified_change") then false
      else if decide (tool = "ptah_discard_verified_change") then
        bool_decide (li_operation intent = "discard-candidate")
      else true
  end.

Definition commit_work_lifecycle_intent (intent : WorkLifecycleIntent) : LM unit :=
  '(current_digest, current_attempts) ← preflight_work_lifecycle_intent intent;
  _ ← note_partial_commit (write_work_lifecycle_attempt_updates intent current_attempts);
  _ ← note_partial_commit (write_work_lifecycle_item_update intent current_digest);
  _ ← (if decide (li_operation intent = "managed_finalization") then
         now ← now_utc;
         note_partial_commit (settle_managed_finalization intent now)
       else mret ());
  _ ← (if lifecycle_settles_service_receipt intent then
         response ← lift (lifecycle_response_value intent);
         complete_bound_request (li_request intent) response
       else mret ());
  clear_work_lifecycle_intent (li_intent_id intent).

Definition commit_lifecycle_with_request (operation : string) (prior_item item : WorkItem)
    (prior_attempts attempts : list WorkAttempt) (request : option WorkRequestBinding) : LM unit :=
  intent_id ← new_uuid;
  intent ← lift (lifecycle_new intent_id operation prior_item item prior_attempts attempts);
  intent ← match request with
           | None => mret intent
           | Some request =>
               _ ← validate_bound_request request (li_prior_item intent) (li_prior_attempts intent)
                     (li_attempts intent);
               mret (lifecycle_with_request intent request)
           end;
  _ ← persist_work_lifecycle_intent intent;
  commit_work_lifecycle_intent intent.

Definition commit_work_lifecycle_snapshots (operation : string) (prior_item item : WorkItem)
    (prior_attempts attempts : list WorkAttempt) : LM unit :=
  commit_lifecycle_with_request operation prior_item item prior_attempts attempts None.

(** ** Committing a mutation intent *)

Definition persist_work_mutation_intent (intent : WorkMutationIntent) : LM unit :=
  _ ← lift (mutation_validate intent);
  name ← lift (safe_id_filename (mi_intent_id intent));
  write_file (λ d, put_mutations (<[name := intent]> (dk_mutations d)) d).

Definition clear_work_mutation_intent (intent_id : string) : LM unit :=
  name ← lift (safe_id_filename intent_id);
  write_file (λ d, put_mutations (delete name (dk_mutations d)) d).

Definition commit_work_mutation_intent (intent : WorkMutationIntent) : LM unit :=
  _ ← lift (mutation_validate intent);
  current ← load_work_item (mi_work_id intent);
  let current_digest := item_digest <$> current in
  _ ← lift (ensure_not (bool_decide (current_digest ≠ Some (mi_prior_item_digest intent))
                        && bool_decide (current_digest ≠ Some (mi_next_item_digest intent)))
              (conflict "work mutation recovery found an unexpected prior revision"));
  _ ← lift (ensure_not (bool_decide (current_digest = Some (mi_prior_item_digest intent))
                        && match current with
                           | Some item => bool_decide (wi_revision item ≠ mi_expected_revision intent)
                           | None => true
                           end)
              (conflict "work mutation recovery found an unexpected expected_revision"));
  stored ← load_work_decision (mi_work_id intent) (wd_decision_id (mi_decision intent));
  _ ← match stored with
      | Some decision =>
          lift (ensure_not (bool_decide (decision_digest decision ≠ mi_decision_digest intent)
                            || bool_decide (decision ≠ mi_decision intent))
                  (conflict "work mutation recovery found a conflicting decision receipt"))
      | None => note_partial_commit (save_work_decision (mi_decision intent))
      end;
  _ ← (if decide (current_digest = Some (mi_next_item_digest intent)) then mret ()
       else note_partial_commit (save_work_item (mi_item intent)));
  _ ← complete_bound_request (mi_request intent) (mutation_response_value intent);
  clear_work_mutation_intent (mi_intent_id intent).

(** ** Recovery *)

Definition recover_work_mutation_intents : LM unit :=
  names ← read_dir dk_mutations;
  for_each names (λ name,
    intent ← read_entry dk_mutations (λ _, inr ()) name;
    commit_work_mutation_intent intent).

Definition compare_lifecycle (left right : WorkLifecycleIntent) : comparison :=
  let managed i := Z.b2z (bool_decide (li_operation i = "managed_finalization")) in
  then_with (wi_revision (li_prior_item left) ?= wi_revision (li_prior_item right))%Z
    (then_with (managed left ?= managed right)%Z
       (string_cmp (li_intent_id left) (li_intent_id right))).

Definition recover_work_lifecycle_intents : LM unit :=
  names ← read_dir dk_lifecycles;
  intents ← collect names (read_entry dk_lifecycles (λ _, inr ()));
  for_each (sort_by compare_lifecycle intents) commit_work_lifecycle_intent.

(** The part of [open] that settles the ledger: a new process has an open
    admission and replays the mutations, then the lifecycle changes. *)
Definition reopen : LM unit := λ s,
  (_ ← recover_work_mutation_intents; recover_work_lifecycle_intents) (with_closed None s).
End store.

(** ** Field assignments on work items and attempts

    The methods of [orchestration/store.rs] change a record by assigning some of
    its fields; each assignment, or group of assignments that always occur
    together, is a function here. *)

(** A work item with its mutable fields replaced. *)
Definition item_put (x : WorkItem) (assigned : option string) (priority : Z) (state : WorkState)
    (revision : Z) (attempt_count : Z) (progress : option WorkProgress) (result : option WorkResult)
    (approval : option WorkApproval) (status : AssignmentStatus) (reason : option string)
    (provenance : option BlockProvenance) (decision : option string) (updated : DateTime) : WorkItem := {|
  wi_schema_version := wi_schema_version x; wi_work_id := wi_work_id x; wi_kind := wi_kind x;
  wi_objective := wi_objective x; wi_session_id := wi_session_id x;
  wi_workspace := wi_workspace x; wi_created_by := wi_created_by x;
  wi_assigned_agent_id := assigned; wi_priority := priority; wi_deadline := wi_deadline x;
  wi_parent_work_id := wi_parent_work_id x; wi_dependencies := wi_dependencies x;
  wi_policy := wi_policy x; wi_state := state; wi_revision := revision;
  wi_attempt_count := attempt_count; wi_progress := progress; wi_result := result;
  wi_is_container := wi_is_container x; wi_approval := approval;
  wi_source_routine_id := wi_source_routine_id x;
  wi_source_activation_id := wi_source_activation_id x;
  wi_source_manager_plan_id := wi_source_manager_plan_id x;
  wi_source_manager_step_id := wi_source_manager_step_id x; wi_assignment_status := status;
  wi_blocked_reason := reason; wi_block_provenance := provenance; wi_last_decision_id := decision;
  wi_created_at := wi_created_at x; wi_updated_at := updated |}.

Definition set_assignment (assigned : option string) (status : AssignmentStatus) (x : WorkItem) :
    WorkItem :=
  item_put x assigned (wi_priority x) (wi_state x) (wi_revision x) (wi_attempt_count x)
    (wi_progress x) (wi_result x) (wi_approval x) status (wi_blocked_reason x)
    (wi_block_provenance x) (wi_last_decision_id x) (wi_updated_at x).
Definition set_priority (priority : Z) (x : WorkItem) : WorkItem :=
  item_put x (wi_assigned_agent_id x) priority (wi_state x) (wi_revision x) (wi_attempt_count x)
    (wi_progress x) (wi_result x) (wi_approval x) (wi_assignment_status x) (wi_blocked_reason x)
    (wi_block_provenance x) (wi_last_decision_id x) (wi_updated_at x).
Definition set_state (state : WorkState) (x : WorkItem) : WorkItem :=
  item_put x (wi_assigned_agent_id x) (wi_priority x) state (wi_revision x) (wi_attempt_count x)
    (wi_progress x) (wi_result x) (wi_approval x) (wi_assignment_status x) (wi_blocked_reason x)
    (wi_block_provenance x) (wi_last_decision_id x) (wi_updated_at x).
Definition set_block (provenance : option BlockProvenance) (reason : option string) (x : WorkItem)
    : WorkItem :=
  item_put x (wi_assigned_agent_id x) (wi_priority x) (wi_state x) (wi_revision x)
    (wi_attempt_count x) (wi_progress x) (wi_result x) (wi_approval x) (wi_assignment_status x)
    reason provenance (wi_last_decision_id x) (wi_updated_at x).
Definition set_provenance (provenance : option BlockProvenance) (x : WorkItem) : WorkItem :=
  item_put x (wi_assigned_agent_id x) (wi_priority x) (wi_state x) (wi_revision x)
    (wi_attempt_count x) (wi_progress x) (wi_result x) (wi_approval x) (wi_assignment_status x)
    (wi_blocked_reason x) provenance (wi_last_decision_id x) (wi_updated_at x).
Definition set_attempt_count (attempt_count : Z) (x : WorkItem) : WorkItem :=
  item_put x (wi_assigned_agent_id x) (wi_priority x) (wi_state x) (wi_revision x) attempt_count
    (wi_progress x) (wi_result x) (wi_approval x) (wi_assignment_status x) (wi_blocked_reason x)
    (wi_block_provenance x) (wi_last_decision_id x) (wi_updated_at x).
Definition set_progress (progress : option WorkProgress) (x : WorkItem) : WorkItem :=
  item_put x (wi_assigned_agent_id x) (wi_priority x) (wi_state x) (wi_revision x)
    (wi_attempt_count x) progress (wi_result x) (wi_approval x) (wi_assignment_status x)
    (wi_blocked_reason x) (wi_block_provenance x) (wi_last_decision_id x) (wi_updated_at x).
Definition set_result (result : option WorkResult) (x : WorkItem) : WorkItem :=
  item_put x (wi_assigned_agent_id x) (wi_priority x) (wi_state x) (wi_revision x)
    (wi_attempt_count x) (wi_progress x) result (wi_approval x) (wi_assignment_status x)
    (wi_blocked_reason x) (wi_block_provenance x) (wi_last_decision_id x) (wi_updated_at x).
Definition set_approval (approval : option WorkApproval) (x : WorkItem) : WorkItem :=
  item_put x (wi_assigned_agent_id x) (wi_priority x) (wi_state x) (wi_revision x)
    (wi_attempt_count x) (wi_progress x) (wi_result x) approval (wi_assignment_status x)
    (wi_blocked_reason x) (wi_block_provenance x) (wi_last_decision_id x) (wi_updated_at x).
Definition set_decision (decision : option string) (x : WorkItem) : WorkItem :=
  item_put x (wi_assigned_agent_id x) (wi_priority x) (wi_state x) (wi_revision x)
    (wi_attempt_count x) (wi_progress x) (wi_result x) (wi_approval x) (wi_assignment_status x)
    (wi_blocked_reason x) (wi_block_provenance x) decision (wi_updated_at x).

(** An attempt with its mutable fields replaced. *)
Definition attempt_put (x : WorkAttempt) (acquired : DateTime) (expires : DateTime)
    (heartbeat : DateTime) (state : AttemptState) (runs : list string)
    (progress : option WorkProgress) (result : option WorkResult) (reason : option string)
    (updated : DateTime) : WorkAttempt := {|
  wt_schema_version := wt_schema_version x; wt_attempt_id := wt_attempt_id x;
  wt_work_id := wt_work_id x; wt_attempt_number := wt_attempt_number x;
  wt_claimant_id := wt_claimant_id x; wt_lease_token_hash := wt_lease_token_hash x;
  wt_acquired_at := acquired; wt_lease_expires_at := expires; wt_last_heartbeat_at := heartbeat;
  wt_state := state; wt_linked_run_ids := runs; wt_progress := progress; wt_result := result;
  wt_terminal_reason := reason; wt_created_at := wt_created_at x; wt_updated_at := updated |}.

Definition att_state (state : AttemptState) (x : WorkAttempt) : WorkAttempt :=
  attempt_put x (wt_acquired_at x) (wt_lease_expires_at x) (wt_last_heartbeat_at x) state
    (wt_linked_run_ids x) (wt_progress x) (wt_result x) (wt_terminal_reason x) (wt_updated_at x).
Definition att_close (state : AttemptState) (reason : option string) (updated : DateTime)
    (x : WorkAttempt) : WorkAttempt :=
  attempt_put x (wt_acquired_at x) (wt_lease_expires_at x) (wt_last_heartbeat_at x) state
    (wt_linked_run_ids x) (wt_progress x) (wt_result x) reason updated.
Definition att_reason (reason : option string) (updated : DateTime) (x : WorkAttempt) :
    WorkAttempt :=
  attempt_put x (wt_acquired_at x) (wt_lease_expires_at x) (wt_last_heartbeat_at x) (wt_state x)
    (wt_linked_run_ids x) (wt_progress x) (wt_result x) reason updated.
Definition att_lease (heartbeat expires : DateTime) (x : WorkAttempt) : WorkAttempt :=
  attempt_put x (wt_acquired_at x) expires heartbeat (wt_state x) (wt_linked_run_ids x)
    (wt_progress x) (wt_result x) (wt_terminal_reason x) heartbeat.
Definition att_acquire (now expires : DateTime) (x : WorkAttempt) : WorkAttempt :=
  attempt_put x now expires now (wt_state x) (wt_linked_run_ids x) (wt_progress x) (wt_result x)
    (wt_terminal_reason x) now.
Definition att_run (runs : list string) (state : AttemptState) (updated : DateTime)
    (x : WorkAttempt) : WorkAttempt :=
  attempt_put x (wt_acquired_at x) (wt_lease_expires_at x) (wt_last_heartbeat_at x) state runs
    (wt_progress x) (wt_result x) (wt_terminal_reason x) updated.
Definition att_progress (progress : option WorkProgress) (now : DateTime) (x : WorkAttempt) :
    WorkAttempt :=
  attempt_put x (wt_acquired_at x) (wt_lease_expires_at x) now ARunning (wt_linked_run_ids x)
    progress (wt_result x) (wt_terminal_reason x) now.
Definition att_park (now : DateTime) (x : WorkAttempt) : WorkAttempt :=
  attempt_put x (wt_acquired_at x) (wt_lease_expires_at x) now AAwaitingInput (wt_linked_run_ids x)
    (wt_progress x) (wt_result x) (wt_terminal_reason x) now.
Definition att_result (result : option WorkResult) (updated : DateTime) (x : WorkAttempt) :
    WorkAttempt :=
  attempt_put x (wt_acquired_at x) (wt_lease_expires_at x) (wt_last_heartbeat_at x) (wt_state x)
    (wt_linked_run_ids x) (wt_progress x) result (wt_terminal_reason x) updated.
