(* ===== verification/LedgerOps.v ===== *)
(** * The work ledger: its operations

    The public methods of [OrchStore] in [orchestration/store.rs] that move a
    work item through its life: assignment and operator holds, reconciliation,
    claims and leases, completion, failure, cancellation, retry and approval;
    with [evidence_authorizes_success] of [completion.rs] and
    [authorizes_applied_success] of [verified_change.rs].

    [adopt_operation_request] is the argument [request].  Agents, runs and the
    retained candidates of verified changes are kept by other parts of the
    store and are read through [LedgerPeers]. *)

From S2P Require Import Prelude Text Window Ids Workload WorkGraph Ledger LedgerStore.
From S2P Require Import LedgerStore.
From stdpp Require Import pretty.

(** ** What the other parts of the store answer *)

Inductive AgentState := AgActive | AgWaiting | AgInterrupted | AgFailed | AgCompleted.

Definition is_active_identity (s : AgentState) : bool :=
  match s with AgFailed | AgCompleted => false | _ => true end.

Record AgentLaneAssociation := { la_lane_id : Uuid; la_detached_at : option DateTime }.

(** The fields of [AgentRecord] the ledger reads; of the specification, its
    revision. *)
Record AgentRecord := {
  ag_agent_id : string; ag_session_id : Uuid; ag_lane_ids : list Uuid;
  ag_lane_associations : list AgentLaneAssociation; ag_workspace : string;
  ag_spec_revision : option Z; ag_state : AgentState;
}.

Definition known_lane_ids (a : AgentRecord) : list Uuid :=
  match ag_lane_associations a with
  | [] =>
      let ids := foldl (λ ids l, if decide (l ∈ ids) then ids else ids ++ [l]) [] (ag_lane_ids a) in
      if decide (ag_session_id a ∈ ids) then ids else ag_session_id a :: ids
  | associations => la_lane_id <$> filter (λ l, la_detached_at l = None) associations
  end.

(** The fields of [RunRecord] the ledger reads. *)
Record RunRecord := {
  rn_session_id : Uuid; rn_workspace : string; rn_verification : option CompletionEvidence;
}.

Record CheckAuthority := {
  ca_profile_id : string; ca_profile_revision : Z; ca_authority_digest : string;
}.

(** Each answer may change from effect to effect; an error is its text. *)
Class LedgerPeers := {
  load_agent : nat → string → string + option AgentRecord;
  load_run : nat → string → string + option RunRecord;
  verified_check_authority : nat → string → option CheckAuthority;
  candidate_snapshot_dir : string → ORes string;
  source_revision : nat → string → string + string;
  retained_matches : nat → string → string → list CandidateFileRecord → string + bool;
  recompute_candidate_apply_bundle :
    nat → string → CandidateVerification → list string → string + string;
}.

(** ** Success authority *)

Definition evidence_authorizes_success (e : CompletionEvidence) : bool :=
  let o := ce_observations e in
  let c := ce_claims e in
  if bool_decide (ce_status e ≠ "verified") || bool_decide (ce_stop_reason e ≠ "completed")
     || ce_interrupted e then false
  else if bool_decide (0 < co_tests_failed o)%Z then false
  else if negb (cc_present c) then false
  else negb (bool_decide (co_tests_observed o = 0%Z) || bool_decide (co_tests_passed o = 0%Z)
             || bool_decide (0 < co_tests_incomplete o)%Z
             || bool_decide (0 < co_permissions_unresolved o)%Z
             || (bool_decide (0 < co_changed_files o)%Z && negb (cc_mentions_changes c))
             || (bool_decide (0 < co_tests_observed o)%Z
                 && (negb (cc_mentions_tests c) || negb (cc_mentions_verification c)))).

Definition CANDIDATE_VERIFICATION_SCHEMA : Z := 1.

Definition authorizes_applied_success (v : CandidateVerification)
    (approved_digest target_revision : option string) (profile_id : string) (profile_revision : Z)
    (authority_digest : string) (approved_bundle : option string) : bool :=
  bool_decide (cv_schema_version v = CANDIDATE_VERIFICATION_SCHEMA) && cv_applied v
  && negb (cv_invalidated v) && cv_checks_passed v && cv_worker_stopped v && cv_change_proposed v
  && bool_decide (approved_digest = Some (cv_content_digest v))
  && bool_decide (approved_bundle = Some (cv_apply_bundle_digest v))
  && bool_decide (cv_apply_bundle_digest v ≠ "")
  && bool_decide (target_revision = Some (cv_source_revision v))
  && forallb (λ c, bool_decide (rx_outcome c = "passed")) (cv_checks v)
  && bool_decide (cv_checks v ≠ []) && negb (cv_reconciliation_required v)
  && bool_decide (profile_id ≠ "") && bool_decide (cv_check_profile_id v = profile_id)
  && bool_decide (cv_check_profile_revision v = profile_revision)
  && bool_decide (0 < cv_check_profile_revision v)%Z && bool_decide (authority_digest ≠ "")
  && bool_decide (cv_check_authority_digest v = authority_digest).

Definition work_failure_result (summary : string) (now : DateTime) : WorkResult := {|
  wr_summary := summary; wr_evidence := []; wr_artifacts := []; wr_failure := Some summary;
  wr_cancellation_reason := None; wr_completed_at := now; wr_verification := None;
  wr_candidate_verification := None |}.

Definition bound_completion_evidence (evidence : option CompletionEvidence)
    (work_id attempt_id : string) (linked_run_ids : list string) (extra_run_id : option string)
    : ORes (option CompletionEvidence) :=
  match evidence with
  | None => inr None
  | Some e =>
      let w := bool_decide (is_Some (ce_work_id e)) in
      let r := bool_decide (is_Some (ce_run_id e)) in
      let a := bool_decide (is_Some (ce_attempt_id e)) in
      if (w || r || a) && negb (w && r && a) then
        inl (invalid "completion evidence must bind work, run, and attempt together")
      else if negb (w && r && a) then inr None
      else
        let run_id := default "" (ce_run_id e) in
        if bool_decide (ce_work_id e ≠ Some work_id) || bool_decide (ce_attempt_id e ≠ Some attempt_id)
           || negb (bool_decide (run_id ∈ linked_run_ids) || bool_decide (extra_run_id = Some run_id)) then
          inl (forbidden "completion evidence is not bound to this work/run/attempt")
        else inr (Some e)
  end.

Definition ordinary_completion_states (item : WorkItem) : AttemptState * WorkState :=
  if wp_requires_approval (wi_policy item) then (AAwaitingApproval, WAwaitingApproval)
  else (AReview, WReview).

Definition completion_result_replays (stored incoming : WorkResult) : bool :=
  bool_decide (wr_summary stored = wr_summary incoming)
  && bool_decide (wr_evidence stored = wr_evidence incoming)
  && bool_decide (wr_artifacts stored = wr_artifacts incoming)
  && bool_decide (wr_failure stored = wr_failure incoming)
  && bool_decide (wr_cancellation_reason stored = wr_cancellation_reason incoming)
  && bool_decide (wr_verification stored = wr_verification incoming)
  && bool_decide (wr_candidate_verification stored = wr_candidate_verification incoming).

(** [Debug for WorkState]. *)
Definition state_debug (s : WorkState) : string :=
  match s with
  | WQueued => "Queued" | WBlocked => "Blocked" | WLeased => "Leased" | WRunning => "Running"
  | WAwaitingInput => "AwaitingInput" | WAwaitingApproval => "AwaitingApproval"
  | WReview => "Review" | WSucceeded => "Succeeded" | WFailed => "Failed"
  | WCancelled => "Cancelled"
  end.

(** The slot of the attempt is replaced in place. *)
Fixpoint replace_attempt_snapshot (attempts : list WorkAttempt) (updated : WorkAttempt)
    : ORes (list WorkAttempt) :=
  match attempts with
  | [] => inl (conflict "work attempt disappeared during lifecycle mutation")
  | attempt :: attempts =>
      if decide (wt_attempt_id attempt = wt_attempt_id updated) then inr (updated :: attempts)
      else rest ← replace_attempt_snapshot attempts updated; mret (attempt :: rest)
  end.

Section operations.
Context {SH : Sha256} {DG : LedgerDigests} {FS : FileSystem} {ENV : LedgerEnv}
  {MS : ManagedSettlement} {LH : LeaseHash} {LP : LedgerPeers}.

(** A question to another part of the store. *)
Definition ask {A} (f : nat → A) : LM A := λ s, (Returned (f (st_tick s)), ticked s).

(** The same, with an error text mapped by [e]. *)
Definition ask_or {A} (e : string → OrchError) (f : nat → string + A) : LM A :=
  r ← ask f;
  lift (match r with inl message => inl (e message) | inr a => inr a end).

Definition bump (item : WorkItem) : LM WorkItem := now ← now_utc; mret (bump_at item now).

Definition require_work_item (work_id : string) : LM WorkItem :=
  o ← load_work_item work_id;
  lift (ok_or o (conflict "work item not found")).

Definition require_work_revision (item : WorkItem) (expected_revision : option Z) : ORes unit :=
  match expected_revision with
  | None => inr ()
  | Some expected =>
      ensure_not (bool_decide (expected ≠ wi_revision item))
        {| oe_code := StaleVersion;
           oe_message := "work item revision is " +:+ pretty (wi_revision item)
                         +:+ ", expected " +:+ pretty expected |}
  end.

Definition require_agent_in_scope (agent_id : string) (session_id : Uuid) (workspace : string)
    : LM AgentRecord :=
  o ← ask_or internal (λ t, load_agent t agent_id);
  agent ← lift (ok_or o (invalid "unknown agent identity"));
  _ ← lift (ensure_not (bool_decide (session_id ∉ known_lane_ids agent)
                        || negb (workspaces_match (ag_workspace agent) workspace))
              (forbidden "agent is outside the requested session workspace"));
  _ ← lift (ensure_not (negb (is_active_identity (ag_state agent)))
              (conflict "agent identity is inactive"));
  mret agent.

(** [o.map(f).transpose()?]. *)
Definition traverse {A B} (o : option A) (f : A → LM B) : LM (option B) :=
  match o with None => mret None | Some a => b ← f a; mret (Some b) end.

Definition resolve_assignment_agents (item : WorkItem) (actor_agent_id assigned_agent_id : option string)
    : LM (option string * option Z) :=
  let in_scope agent_id := require_agent_in_scope agent_id (wi_session_id item) (wi_workspace item) in
  actor ← traverse actor_agent_id in_scope;
  assigned ← match union assigned_agent_id (wi_assigned_agent_id item) with
             | None => mret None
             | Some agent_id =>
                 if decide (ag_agent_id <$> actor = Some agent_id) then mret actor
                 else agent ← in_scope agent_id; mret (Some agent)
             end;
  mret (ag_agent_id <$> actor, union actor assigned ≫= ag_spec_revision).

(** ** Success *)

(** The comparison of evidence with the run it names. *)
Definition same_observation (e run : CompletionEvidence) : bool :=
  bool_decide (ce_status e = ce_status run) && bool_decide (ce_stop_reason e = ce_stop_reason run)
  && bool_decide (ce_interrupted e = ce_interrupted run) && bool_decide (ce_claims e = ce_claims run)
  && bool_decide (ce_observations e = ce_observations run) && bool_decide (ce_usage e = ce_usage run).

Definition success_is_authorized (item : WorkItem) (attempt : option WorkAttempt)
    (result : option WorkResult) (extra_run_id : option string) : LM bool :=
  if decide (wp_required_checks (wi_policy item) ≠ []) then
    authority ← ask (λ t, verified_check_authority t (wi_work_id item));
    mret (match wi_result item ≫= wr_candidate_verification with
          | None => false
          | Some v =>
              authorizes_applied_success v (wi_approval item ≫= wa_candidate_digest)
                (wi_approval item ≫= wa_target_revision)
                (default "" (ca_profile_id <$> authority))
                (default 0%Z (ca_profile_revision <$> authority))
                (default "" (ca_authority_digest <$> authority))
                (wi_approval item ≫= wa_apply_bundle_digest)
          end)
  else if decide (is_Some (wi_approval item)) then mret true
  else match union result (wi_result item) with
  | None => mret false
  | Some result =>
      if decide (is_Some (wr_failure result) ∨ is_Some (wr_cancellation_reason result)) then mret false
      else match attempt with
      | None => mret false
      | Some attempt =>
          _ ← lift (ensure_not (bool_decide (wt_work_id attempt ≠ wi_work_id item))
                      (forbidden "completion attempt does not belong to this work item"));
          evidence ← lift (bound_completion_evidence (wr_verification result) (wi_work_id item)
                             (wt_attempt_id attempt) (wt_linked_run_ids attempt) extra_run_id);
          match evidence with
          | None => mret false
          | Some e =>
              if negb (evidence_authorizes_success e) then mret false
              else
                o ← ask_or internal (λ t, load_run t (default "" (ce_run_id e)));
                match o with
                | None => fail (forbidden "completion evidence run does not exist")
                | Some run =>
                    _ ← lift (ensure_not (bool_decide (rn_session_id run ≠ wi_session_id item)
                                || negb (workspaces_match (rn_workspace run) (wi_workspace item)))
                                (forbidden "completion evidence run is outside this work lane"));
                    match rn_verification run with
                    | None => mret false
                    | Some run_evidence =>
                        if negb (evidence_authorizes_success run_evidence) then mret false
                        else
                          _ ← lift (ensure_not (negb (same_observation e run_evidence))
                                      (forbidden "completion evidence does not match the durable Run observation"));
                          mret true
                    end
                end
          end
      end
  end.

Definition NOT_AUTHORIZED : OrchError := conflict
  "work item cannot enter succeeded without verified completion evidence or durable approval".

(** The only writer of [Succeeded]. *)
Definition assign_work_succeeded (item : WorkItem) (attempt : WorkAttempt) (extra_run_id : option string)
    : LM (WorkItem * WorkAttempt) :=
  authorized ← success_is_authorized item (Some attempt) (wi_result item) extra_run_id;
  _ ← lift (ensure_not (negb authorized) NOT_AUTHORIZED);
  mret (set_state WSucceeded item, att_state ASucceeded attempt).

(** ** Reconciliation *)

(** One pass of the loop: an unreadable record resolves to [None]. *)
Definition resolve_dependency (scope : GraphScope) (id : string) : LM (option WorkState) := λ s,
  match load_work_item id s with
  | (Returned o, s') =>
      (Returned (o ≫= λ c, if scope_contains scope c then Some (wi_state c) else None), s')
  | (Refused _, s') => (Returned None, s')
  | (Died, s') => (Died, s')
  end.

Fixpoint resolve_each (scope : GraphScope) (ds : list WorkDependency) (states : DependencyStates)
    : LM DependencyStates :=
  match ds with
  | [] => mret states
  | d :: ds =>
      resolved ← resolve_dependency scope (dep_work_id d);
      resolve_each scope ds (<[dep_work_id d := resolved]> states)
  end.

Definition resolve_dependencies (item : WorkItem) : LM DependencyStates :=
  resolve_each (scope_of item) (wi_dependencies item) ∅.

Definition commit_refreshed_work_item (prior_item item : WorkItem) : LM unit :=
  attempts ← list_work_attempts (Some (wi_work_id item));
  as_anyhow (commit_work_lifecycle_snapshots "refresh" prior_item item attempts attempts).

(** What the first branches of [refresh_work_item_at_unlocked] make of an item,
    before the revision is bumped; [None] when they leave it alone. *)
Definition refresh_wait (item : WorkItem) (admission : AdmissionBlock) : option WorkItem :=
  let manually_held := bool_decide (admission = ManuallyBlocked) in
  let waiting := negb manually_held
    && match admission with
       | DependenciesPending | DependencyUnsatisfiable | DependencyUnresolved => true
       | _ => false
       end in
  let reason := Some (admission_as_str admission) in
  if waiting && bool_decide (wi_state item = WQueued) then
    Some (set_block (Some Derived) reason (set_state WBlocked item))
  else if negb waiting && negb manually_held && bool_decide (wi_state item = WBlocked) then
    Some (set_block None None (set_state WQueued item))
  else if waiting && bool_decide (wi_state item = WBlocked) then
    if bool_decide (wi_blocked_reason item ≠ reason)
       || bool_decide (wi_block_provenance item ≠ Some Derived) then
      Some (set_block (Some Derived) reason item)
    else None
  else None.

Definition DEADLINE_MESSAGE : string := "work item deadline exceeded".

Definition refresh_deadline (item : WorkItem) (now : DateTime) : option WorkItem :=
  if past_deadline item now && negb (work_is_terminal (wi_state item))
     && negb (work_is_review_gate (wi_state item)) then
    Some (set_result (Some (work_failure_result DEADLINE_MESSAGE now))
            (set_provenance None (set_state WFailed item)))
  else None.

(** A change of the item alone, bumped and committed. *)
Definition commit_refresh (item : WorkItem) (next : option WorkItem) : LM WorkItem :=
  match next with
  | None => mret item
  | Some next =>
      next ← bump next;
      _ ← commit_refreshed_work_item item next;
      mret next
  end.

Definition refresh_work_item_at (item : WorkItem) (now : DateTime) : LM WorkItem :=
  if work_is_terminal (wi_state item) then mret item
  else
    states ← resolve_dependencies item;
    let admission := evaluate_admission item states now in
    item ← commit_refresh item (refresh_wait item admission);
    if wi_is_container item || bool_decide (admission = Container) then mret item
    else commit_refresh item (refresh_deadline item now).

Definition commit_expired_attempt_lifecycle (operation : string) (prior_item item : WorkItem)
    (attempt : WorkAttempt) : LM unit :=
  prior_attempts ← list_work_attempts (Some (wi_work_id item));
  attempts ← lift (anyhow_of (replace_attempt_snapshot prior_attempts attempt));
  as_anyhow (commit_work_lifecycle_snapshots operation prior_item item prior_attempts attempts).

Definition EXPIRED_MESSAGE : string := "work item lease expired and retry budget was exhausted".

Definition expired (attempt : WorkAttempt) (now : DateTime) : WorkAttempt :=
  att_close AExpired (Some "lease expired") now attempt.

Definition expired_item (item : WorkItem) (attempt : WorkAttempt) (now : DateTime) : WorkItem :=
  let retry := wp_retry (wi_policy item) in
  if rt_retry_expired retry && bool_decide (wt_attempt_number attempt < rt_max_attempts retry)%Z then
    set_state WQueued item
  else set_result (Some (work_failure_result EXPIRED_MESSAGE now)) (set_state WFailed item).

Definition expire_attempt (item : WorkItem) (attempt : WorkAttempt) (now : DateTime) : LM WorkItem :=
  next ← bump (expired_item item attempt now);
  _ ← commit_expired_attempt_lifecycle "expire" item next (expired attempt now);
  mret next.

Definition expire_terminal_attempt (item : WorkItem) (attempt : WorkAttempt) (now : DateTime) : LM unit :=
  commit_expired_attempt_lifecycle "expire_terminal" item item (expired attempt now).

Record WorkloadReconciliationReport := {
  rp_scanned_items : Z; rp_expired_attempts : Z; rp_retried_items : Z; rp_failed_items : Z;
  rp_blocked_items : Z; rp_unblocked_items : Z; rp_deadline_failed_items : Z;
}.

Definition report_default : WorkloadReconciliationReport := {|
  rp_scanned_items := 0; rp_expired_attempts := 0; rp_retried_items := 0; rp_failed_items := 0;
  rp_blocked_items := 0; rp_unblocked_items := 0; rp_deadline_failed_items := 0 |}.

(** The counters a pass adds, one argument per field. *)
Definition report_add (r : WorkloadReconciliationReport)
    (scanned expired retried failed blocked unblocked deadline : bool)
    : WorkloadReconciliationReport := {|
  rp_scanned_items := rp_scanned_items r + Z.b2z scanned;
  rp_expired_attempts := rp_expired_attempts r + Z.b2z expired;
  rp_retried_items := rp_retried_items r + Z.b2z retried;
  rp_failed_items := rp_failed_items r + Z.b2z failed;
  rp_blocked_items := rp_blocked_items r + Z.b2z blocked;
  rp_unblocked_items := rp_unblocked_items r + Z.b2z unblocked;
  rp_deadline_failed_items := rp_deadline_failed_items r + Z.b2z deadline |}.

Definition is_state (s : WorkState) (item : WorkItem) : bool := bool_decide (wi_state item = s).

(** The loop over the attempts of one item. *)
Fixpoint reconcile_attempts (item : WorkItem) (attempts : list WorkAttempt) (now : DateTime)
    (report : WorkloadReconciliationReport) : LM WorkloadReconciliationReport :=
  match attempts with
  | [] => mret report
  | attempt :: attempts =>
      if negb (requires_lease_heartbeat (wt_state attempt))
         || bool_decide (now < wt_lease_expires_at attempt)%Z then
        reconcile_attempts item attempts now report
      else if work_is_terminal (wi_state item) then
        _ ← expire_terminal_attempt item attempt now;
        reconcile_attempts item attempts now (report_add report false true false false false false false)
      else
        next ← expire_attempt item attempt now;
        reconcile_attempts next attempts now
          (report_add report false true (negb (is_state WQueued item) && is_state WQueued next)
             (negb (is_state WFailed item) && is_state WFailed next) false false false)
  end.

Fixpoint reconcile_items (items : list WorkItem) (now : DateTime)
    (report : WorkloadReconciliationReport) : LM WorkloadReconciliationReport :=
  match items with
  | [] => mret report
  | item :: items =>
      next ← refresh_work_item_at item now;
      let unblocked := is_state WBlocked item && is_state WQueued next in
      let blocked := is_state WQueued item && is_state WBlocked next in
      let failed := negb (is_state WFailed item) && is_state WFailed next && past_deadline next now in
      attempts ← list_work_attempts (Some (wi_work_id next));
      report ← reconcile_attempts next attempts now
                 (report_add report true false false failed (negb unblocked && blocked) unblocked failed);
      reconcile_items items now report
  end.

Definition reconcile_workloads_at (now : DateTime) : LM WorkloadReconciliationReport :=
  items ← list_work_items;
  reconcile_items items now report_default.

Definition reconcile_workloads : LM WorkloadReconciliationReport :=
  now ← now_utc; reconcile_workloads_at now.

(** ** Assignment and operator decisions *)

Definition assign_work (request : option WorkRequestBinding) (work_id : string)
    (assigned_agent_id : option string) (expected_revision : option Z) : LM WorkItem :=
  item ← require_work_item work_id;
  prior_attempts ← list_work_attempts (Some work_id);
  _ ← lift (require_work_revision item expected_revision);
  _ ← lift (ensure_not (work_is_terminal (wi_state item))
              (conflict "terminal work items cannot be reassigned"));
  let next := set_assignment assigned_agent_id
                (if decide (is_Some assigned_agent_id) then Accepted else Unassigned) item in
  _ ← lift (item_validate next);
  next ← bump next;
  _ ← commit_lifecycle_with_request "assign" item next prior_attempts prior_attempts request;
  mret next.

Record AssignmentMutation := {
  am_work_id : string; am_action : WorkDecisionAction; am_actor_id : string;
  am_actor_agent_id : option string; am_assigned_agent_id : option string; am_reason : string;
  am_expected_revision : option Z; am_now : DateTime;
}.

(** The decision and the item [mutate_assignment] commits. *)
Definition decision_of (m : AssignmentMutation) (decision_id : string) (actor_agent_id : option string)
    (policy_revision : option Z) (item : WorkItem) : WorkDecision := {|
  wd_schema_version := WORKLOAD_SCHEMA_VERSION; wd_decision_id := decision_id;
  wd_work_id := am_work_id m; wd_action := am_action m; wd_actor_id := am_actor_id m;
  wd_actor_agent_id := actor_agent_id;
  wd_assigned_agent_id := union (am_assigned_agent_id m) (wi_assigned_agent_id item);
  wd_policy_revision := policy_revision; wd_work_revision := Some (wi_revision item);
  wd_reason := am_reason m; wd_created_at := am_now m |}.

Definition mutate_assignment (request : option WorkRequestBinding) (m : AssignmentMutation)
    (mutate : WorkItem → ORes WorkItem) : LM (WorkItem * WorkDecision) :=
  _ ← lift (ensure_not (bool_decide (trim (am_reason m) = "")) (invalid "decision reason is required"));
  prior_item ← require_work_item (am_work_id m);
  _ ← lift (require_work_revision prior_item (am_expected_revision m));
  '(actor_agent_id, policy_revision) ←
     resolve_assignment_agents prior_item (am_actor_agent_id m) (am_assigned_agent_id m);
  item ← lift (mutate prior_item);
  decision_id ← new_uuid;
  let decision := decision_of m decision_id actor_agent_id policy_revision item in
  let item := bump_at (set_decision (Some decision_id) item) (am_now m) in
  _ ← lift (item_validate item);
  intent ← lift (mutation_new prior_item item decision);
  intent ← match request with
           | None => mret intent
           | Some request =>
               _ ← validate_bound_request request prior_item [] [];
               mret (mutation_with_request intent request)
           end;
  _ ← persist_work_mutation_intent intent;
  _ ← commit_work_mutation_intent intent;
  mret (item, decision).

(** The closures the decisions pass to [mutate_assignment]. *)
Definition offer_mutation (agent_id : string) (item : WorkItem) : ORes WorkItem :=
  _ ← ensure_not (work_is_terminal (wi_state item)) (conflict "terminal work items cannot be offered");
  mret (set_assignment (Some agent_id) Offered item).

Definition pending_offer (agent_id : string) (item : WorkItem) : ORes unit :=
  ensure_not (bool_decide (wi_assignment_status item ≠ Offered)
              || bool_decide (wi_assigned_agent_id item ≠ Some agent_id))
    (conflict "work offer is not pending for this worker").

Definition accept_mutation (agent_id : string) (item : WorkItem) : ORes WorkItem :=
  _ ← pending_offer agent_id item;
  mret (set_assignment (wi_assigned_agent_id item) Accepted item).

Definition decline_mutation (agent_id : string) (item : WorkItem) : ORes WorkItem :=
  _ ← pending_offer agent_id item;
  mret (set_assignment None Declined item).

Definition reassign_mutation (agent_id : string) (item : WorkItem) : ORes WorkItem :=
  _ ← ensure_not (work_is_terminal (wi_state item) || is_state WLeased item || is_state WRunning item)
        (conflict "active or terminal work cannot be reassigned");
  mret (set_assignment (Some agent_id) Accepted item).

Definition reprioritize_mutation (priority : Z) (item : WorkItem) : ORes WorkItem :=
  _ ← ensure_not (work_is_terminal (wi_state item)) (conflict "terminal work cannot be reprioritized");
  mret (set_priority priority item).

Definition block_mutation (reason : string) (item : WorkItem) : ORes WorkItem :=
  _ ← ensure_not (work_is_terminal (wi_state item)) (conflict "terminal work cannot be blocked");
  _ ← ensure_not (is_state WLeased item || is_state WRunning item)
        (conflict "leased work cannot be blocked");
  mret (set_block (Some Manual) (Some reason) (set_state WBlocked item)).

Definition unblock_mutation (item : WorkItem) : ORes WorkItem :=
  _ ← ensure_not (negb (is_state WBlocked item)) (conflict "work item is not blocked");
  _ ← ensure_not (bool_decide (wi_block_provenance item = Some Derived) || is_legacy_derived_wait item)
        (conflict "a dependency block is released by reconciliation, not by an operator");
  mret (set_block None None (set_state WQueued item)).

Definition review_mutation (item : WorkItem) : ORes WorkItem :=
  _ ← ensure_not (negb (is_state WSucceeded item || is_state WAwaitingApproval item
                        || is_state WReview item))
        (conflict "review can be requested only for completed or approval-gated work");
  mret (set_state WReview item).

Section decisions.
Context (request : option WorkRequestBinding) (work_id : string).

Definition mutation_for (action : WorkDecisionAction) (actor_id : string)
    (actor_agent_id assigned_agent_id : option string) (reason : string)
    (expected_revision : option Z) (now : DateTime) : AssignmentMutation := {|
  am_work_id := work_id; am_action := action; am_actor_id := actor_id;
  am_actor_agent_id := actor_agent_id; am_assigned_agent_id := assigned_agent_id;
  am_reason := reason; am_expected_revision := expected_revision; am_now := now |}.

Definition offer_work (agent_id actor_id : string) (actor_agent_id : option string) (reason : string)
    (expected_revision : option Z) (now : DateTime) : LM (WorkItem * WorkDecision) :=
  mutate_assignment request
    (mutation_for DOffer actor_id actor_agent_id (Some agent_id) reason expected_revision now)
    (offer_mutation agent_id).

Definition accept_work (agent_id actor_id reason : string) (expected_revision : option Z)
    (now : DateTime) : LM (WorkItem * WorkDecision) :=
  mutate_assignment request
    (mutation_for DAccept actor_id (Some agent_id) (Some agent_id) reason expected_revision now)
    (accept_mutation agent_id).

Definition decline_work (agent_id actor_id reason : string) (expected_revision : option Z)
    (now : DateTime) : LM (WorkItem * WorkDecision) :=
  mutate_assignment request
    (mutation_for DDecline actor_id (Some agent_id) (Some agent_id) reason expected_revision now)
    (decline_mutation agent_id).

Definition reassign_work (agent_id actor_id : string) (actor_agent_id : option string)
    (reason : string) (expected_revision : option Z) (now : DateTime) : LM (WorkItem * WorkDecision) :=
  mutate_assignment request
    (mutation_for DReassign actor_id actor_agent_id (Some agent_id) reason expected_revision now)
    (reassign_mutation agent_id).

Definition reprioritize_work (priority : Z) (actor_id reason : string) (expected_revision : option Z)
    (now : DateTime) : LM (WorkItem * WorkDecision) :=
  mutate_assignment request
    (mutation_for DReprioritize actor_id None None reason expected_revision now)
    (reprioritize_mutation priority).

Definition block_work (actor_id reason : string) (expected_revision : option Z) (now : DateTime)
    : LM (WorkItem * WorkDecision) :=
  mutate_assignment request
    (mutation_for DBlock actor_id None None reason expected_revision now) (block_mutation reason).

Definition unblock_work (actor_id reason : string) (expected_revision : option Z) (now : DateTime)
    : LM (WorkItem * WorkDecision) :=
  mutate_assignment request
    (mutation_for DUnblock actor_id None None reason expected_revision now) unblock_mutation.

Definition request_work_review (actor_id reason : string) (expected_revision : option Z)
    (now : DateTime) : LM (WorkItem * WorkDecision) :=
  mutate_assignment request
    (mutation_for DRequestReview actor_id None None reason expected_revision now) review_mutation.

Definition authorize_work_execution (actor_id : string) (actor_agent_id : option string)
    (reason : string) (expected_revision : option Z) (now : DateTime) : LM (WorkItem * WorkDecision) :=
  mutate_assignment request
    (mutation_for DAuthorizeExecution actor_id actor_agent_id None reason expected_revision now) mret.
End decisions.

(** ** Claims *)

Record ManagedGrokClaimFence := {
  fe_expected_work_revision : Z; fe_expected_decision_id : string;
  fe_expected_agent_spec_revision : Z; fe_expected_allowed_files : list string;
}.

Definition require_managed_grok_claim_fence (item : WorkItem) (claimant_id : string)
    (fence : ManagedGrokClaimFence) : LM unit :=
  _ ← lift (ensure_not (bool_decide (wi_revision item ≠ fe_expected_work_revision fence)
                        || bool_decide (wi_last_decision_id item ≠ Some (fe_expected_decision_id fence))
                        || bool_decide (wi_assigned_agent_id item ≠ Some claimant_id))
              (conflict "managed Grok Work authority changed before claim"));
  current_allowed ← lift (normalize_allowed_files (wp_allowed_files (wi_policy item)));
  expected_allowed ← lift (normalize_allowed_files (fe_expected_allowed_files fence));
  _ ← lift (ensure_not (bool_decide (current_allowed ≠ expected_allowed))
              (conflict "managed Grok mutable-file authority changed before claim"));
  agent ← require_agent_in_scope claimant_id (wi_session_id item) (wi_workspace item);
  spec_revision ← lift (ok_or (ag_spec_revision agent)
    (conflict (error_display (invalid "agent specification has not been migrated"))));
  _ ← lift (ensure_not (bool_decide (spec_revision ≠ fe_expected_agent_spec_revision fence))
              (conflict "managed Grok Agent authority changed before claim"));
  path ← lift (work_decision_path (wi_work_id item) (fe_expected_decision_id fence));
  o ← read_file (λ d, dk_decisions d !! path);
  decision ← lift (ok_or o (internal (io_message 0)));
  lift (ensure_not (negb (bool_decide (wd_schema_version decision = WORKLOAD_SCHEMA_VERSION)
                    && bool_decide (wd_decision_id decision = fe_expected_decision_id fence)
                    && bool_decide (wd_work_id decision = wi_work_id item)
                    && bool_decide (wd_action decision = DAuthorizeExecution)
                    && bool_decide (wd_assigned_agent_id decision = wi_assigned_agent_id item)
                    && bool_decide (wd_policy_revision decision
                                    = Some (fe_expected_agent_spec_revision fence))
                    && bool_decide ((wd_work_revision decision ≫= λ r, checked_add r 1)
                                    = Some (wi_revision item))))
          (conflict "managed Grok execution decision changed before claim")).

Definition active_attempt (work_id : string) (now : DateTime) : LM (option WorkAttempt) :=
  attempts ← list_work_attempts (Some work_id);
  mret (List.find (λ a, lease_active_at a now) attempts).

(** The loop of [claim_work_inner] that closes lapsed leases. *)
Fixpoint expire_lapsed (item : WorkItem) (attempts : list WorkAttempt) (now : DateTime) : LM WorkItem :=
  match attempts with
  | [] => mret item
  | attempt :: attempts =>
      if requires_lease_heartbeat (wt_state attempt) && negb (lease_active_at attempt now) then
        next ← expire_attempt item attempt now;
        expire_lapsed next attempts now
      else expire_lapsed item attempts now
  end.

Record WorkClaim := { wc_work : WorkItem; wc_attempt : WorkAttempt; wc_lease_token : string }.

(** The attempt of a claim and the token given to the worker. *)
Definition mint_attempt (item : WorkItem) (claimant_id : string) (lease_secret : option string)
    : LM (WorkAttempt * string) :=
  let number := (wi_attempt_count item + 1)%Z in
  match lease_secret with
  | Some secret =>
      created ← now_utc;
      id ← new_uuid;
      let attempt := attempt_new_with_lease_secret id (wi_work_id item) number claimant_id secret created in
      mret (attempt, lease_token_for_secret attempt secret)
  | None =>
      lease_token ← new_uuid;
      created ← now_utc;
      id ← new_uuid;
      mret (attempt_new id (wi_work_id item) number claimant_id lease_token created, lease_token)
  end.

(** The first half of [claim_work_inner] under the lock: the item, refreshed,
    without a live lease and with its lapsed leases closed, and the time. *)
Definition claimable_item (work_id claimant_id : string) (fence : option ManagedGrokClaimFence)
    : LM (WorkItem * DateTime) :=
  item ← require_work_item work_id;
  _ ← lift (ensure_not (wi_is_container item) (conflict "coordination container Work is not executable"));
  refreshed ← now_utc;
  item ← refresh_work_item_at item refreshed;
  _ ← match fence with
      | None => mret ()
      | Some fence => require_managed_grok_claim_fence item claimant_id fence
      end;
  now ← now_utc;
  active ← active_attempt work_id now;
  _ ← lift (ensure_not (bool_decide (is_Some active))
              (conflict "work item is already leased by an active attempt"));
  stale ← list_work_attempts (Some work_id);
  item ← expire_lapsed item stale now;
  _ ← lift (ensure_not (negb (is_state WQueued item))
              (conflict ("work item is not claimable in state " +:+ state_debug (wi_state item))));
  mret (item, now).

(** The second half: admission, the attempt and the commit. *)
Definition claim_item (request : option WorkRequestBinding) (work_id claimant_id : string) (lease : Z)
    (lease_secret : option string) (item : WorkItem) (now : DateTime) : LM WorkClaim :=
  states ← resolve_dependencies item;
  let admission := evaluate_admission item states now in
  _ ← lift (ensure_not (negb (is_admissible admission))
              (conflict ("work item is not admissible: " +:+ admission_as_str admission)));
  _ ← lift (is_claimable_by (wi_assignment_status item) (wi_assigned_agent_id item) claimant_id);
  '(attempt, lease_token) ← mint_attempt item claimant_id lease_secret;
  let attempt := att_acquire now (now + lease)%Z attempt in
  prior_attempts ← list_work_attempts (Some work_id);
  next ← bump (set_state WLeased (set_attempt_count (wt_attempt_number attempt) item));
  _ ← commit_lifecycle_with_request "claim" item next prior_attempts
        (prior_attempts ++ [attempt]) request;
  mret {| wc_work := next; wc_attempt := attempt; wc_lease_token := lease_token |}.

(** [refuse_closed_admission], and the check [claim_work_inner] starts with. *)
Definition admission_open : LM unit := λ s,
  match st_closed s with
  | Some message => fail (conflict message) s
  | None => (Returned (), s)
  end.

Definition claim_work_inner (request : option WorkRequestBinding) (work_id claimant_id : string)
    (lease_ms : option Z) (lease_secret : option string) (fence : option ManagedGrokClaimFence)
    : LM WorkClaim :=
  _ ← admission_open;
  lease ← lift (lease_duration lease_ms);
  _ ← lift (ensure_not (bool_decide (trim claimant_id = "") || bool_decide (256 < slen claimant_id)%Z)
              (invalid "claimant_id is empty or exceeds its bound"));
  '(item, now) ← claimable_item work_id claimant_id fence;
  claim_item request work_id claimant_id lease lease_secret item now.

Definition claim_work (request : option WorkRequestBinding) (work_id claimant_id : string)
    (lease_ms : option Z) : LM WorkClaim :=
  claim_work_inner request work_id claimant_id lease_ms None None.

Definition claim_work_with_lease_secret (request : option WorkRequestBinding)
    (work_id claimant_id : string) (lease_ms : option Z) (lease_secret : string) : LM WorkClaim :=
  _ ← lift (ensure_not (bool_decide (lease_secret = "")) (invalid "lease_secret is required"));
  claim_work_inner request work_id claimant_id lease_ms (Some lease_secret) None.

Definition claim_managed_grok_work_with_lease_secret (request : option WorkRequestBinding)
    (work_id claimant_id : string) (lease_ms : option Z) (lease_secret : string)
    (fence : ManagedGrokClaimFence) : LM WorkClaim :=
  _ ← lift (ensure_not (bool_decide (lease_secret = "")) (invalid "lease_secret is required"));
  claim_work_inner request work_id claimant_id lease_ms (Some lease_secret) (Some fence).

(** ** Work under a lease *)

Definition load_active_attempt_for_token (item : WorkItem) (attempt_id lease_token : string)
    (now : DateTime) : LM WorkAttempt :=
  o ← load_work_attempt attempt_id;
  attempt ← lift (ok_or o (conflict "work attempt not found"));
  _ ← lift (ensure_not (bool_decide (wt_work_id attempt ≠ wi_work_id item))
              (forbidden "work attempt does not belong to the work item"));
  _ ← lift (ensure_not (negb (token_matches attempt lease_token)) (forbidden "invalid work lease token"));
  _ ← lift (ensure_not (negb (attempt_is_active (wt_state attempt))
                        || bool_decide (wt_lease_expires_at attempt ≤ now)%Z)
              (conflict "work lease is no longer active"));
  mret attempt.

Section leased.
Context (request : option WorkRequestBinding) (work_id attempt_id lease_token : string).

(** The common start of the methods below: the item, its attempts, the time
    and the attempt that holds the lease. *)
Definition under_lease : LM (WorkItem * list WorkAttempt * DateTime * WorkAttempt) :=
  item ← require_work_item work_id;
  prior_attempts ← list_work_attempts (Some work_id);
  now ← now_utc;
  attempt ← load_active_attempt_for_token item attempt_id lease_token now;
  mret (item, prior_attempts, now, attempt).

(** Their common end. *)
Definition commit_leased (operation : string) (prior_item item : WorkItem)
    (prior_attempts : list WorkAttempt) (attempt : WorkAttempt) : LM unit :=
  attempts ← lift (replace_attempt_snapshot prior_attempts attempt);
  commit_lifecycle_with_request operation prior_item item prior_attempts attempts request.

Definition renew_work_lease (lease_ms : option Z) : LM WorkAttempt :=
  lease ← lift (lease_duration lease_ms);
  '(item, prior_attempts, now, attempt) ← under_lease;
  let attempt := att_lease now (now + lease)%Z attempt in
  _ ← commit_leased "renew_lease" item item prior_attempts attempt;
  mret attempt.

(** [link_work_run] on the attempt. *)
Definition linked (run_id : string) (now : DateTime) (attempt : WorkAttempt) : ORes WorkAttempt :=
  runs ← (if decide (run_id ∈ wt_linked_run_ids attempt) then mret (wt_linked_run_ids attempt)
          else _ ← refuse_if (bool_decide (16 ≤ Z.of_nat (length (wt_linked_run_ids attempt)))%Z)
                     "work attempt cannot link more than 16 runs";
               mret (wt_linked_run_ids attempt ++ [run_id]));
  mret (att_run runs (if decide (wt_state attempt = ALeased) then ARunning else wt_state attempt)
          now attempt).

Definition link_work_run (run_id : string) : LM WorkAttempt :=
  '(item, prior_attempts, now, attempt) ← under_lease;
  attempt ← lift (linked run_id now attempt);
  _ ← commit_leased "link_run" item item prior_attempts attempt;
  mret attempt.

Definition report_work_progress (progress : WorkProgress) : LM (WorkItem * WorkAttempt) :=
  '(item, prior_attempts, now, attempt) ← under_lease;
  next ← bump (set_state WRunning (set_progress (Some progress) item));
  let attempt := att_progress (Some progress) now attempt in
  _ ← commit_leased "progress" item next prior_attempts attempt;
  mret (next, attempt).

Definition release_work (reason : string) : LM (WorkItem * WorkAttempt) :=
  '(item, prior_attempts, now, attempt) ← under_lease;
  let attempt := att_close AReleased (Some reason) now attempt in
  next ← bump (set_state WQueued item);
  _ ← commit_leased "release" item next prior_attempts attempt;
  mret (next, attempt).

Definition fail_work (result : WorkResult) : LM (WorkItem * WorkAttempt) :=
  _ ← lift (result_validate result);
  '(item, prior_attempts, now, attempt) ← under_lease;
  let attempt := att_close AFailed (wr_failure result) now (att_result (Some result) now attempt) in
  let retry := wp_retry (wi_policy item) in
  next ← bump (set_state (if rt_retry_failed retry
                             && bool_decide (wt_attempt_number attempt < rt_max_attempts retry)%Z
                          then WQueued else WFailed) (set_result (Some result) item));
  _ ← commit_leased "fail" item next prior_attempts attempt;
  mret (next, attempt).

Definition already_completed (item : WorkItem) (attempt : WorkAttempt) : bool :=
  match wt_state attempt with
  | ASucceeded | AReview | AAwaitingApproval =>
      match wi_state item with WSucceeded | WReview | WAwaitingApproval => true | _ => false end
  | _ => false
  end.

Definition complete_work (result : WorkResult) : LM (WorkItem * WorkAttempt) :=
  _ ← lift (result_validate result);
  item ← require_work_item work_id;
  prior_attempts ← list_work_attempts (Some work_id);
  now ← now_utc;
  o ← load_work_attempt attempt_id;
  attempt ← lift (ok_or o (conflict "work attempt not found"));
  _ ← lift (ensure_not (bool_decide (wt_work_id attempt ≠ wi_work_id item))
              (forbidden "work attempt does not belong to the work item"));
  _ ← lift (ensure_not (negb (token_matches attempt lease_token)) (forbidden "invalid work lease token"));
  if already_completed item attempt then
    _ ← lift (ensure_not (negb match wt_result attempt with
                               | Some stored => completion_result_replays stored result
                               | None => false end) (conflict "work attempt already completed"));
    _ ← lift (ensure_not (negb (is_state WSucceeded item)
                          && bool_decide (wt_lease_expires_at attempt ≤ now)%Z)
                (conflict "work lease is no longer active"));
    mret (item, attempt)
  else
    _ ← lift (ensure_not (negb (attempt_is_active (wt_state attempt))
                          || bool_decide (wt_lease_expires_at attempt ≤ now)%Z)
                (conflict "work lease is no longer active"));
    let attempt := att_result (Some result) now attempt in
    let completed := set_result (Some result) item in
    authorized ← success_is_authorized completed (Some attempt) (wi_result completed) None;
    '(completed, attempt) ←
       (if authorized && negb (wp_requires_approval (wi_policy item)) then
          assign_work_succeeded completed attempt None
        else
          let '(attempt_state, work_state) := ordinary_completion_states item in
          mret (set_state work_state completed, att_state attempt_state attempt));
    next ← bump completed;
    _ ← commit_leased "complete" item next prior_attempts attempt;
    mret (next, attempt).
End leased.

(** The one method under a lease that takes no request. *)
Definition park_work_input (work_id attempt_id lease_token reason : string) : LM (WorkItem * WorkAttempt) :=
  '(item, prior_attempts, now, attempt) ← under_lease work_id attempt_id lease_token;
  next ← bump (set_block (wi_block_provenance item) (Some reason) (set_state WAwaitingInput item));
  let attempt := att_park now attempt in
  _ ← commit_leased None "park_input" item next prior_attempts attempt;
  mret (next, attempt).

(** ** Operator control: retry, approval, cancellation *)

Definition retry_work (request : option WorkRequestBinding) (work_id reason : string)
    (expected_revision : option Z) : LM WorkItem :=
  item ← require_work_item work_id;
  prior_attempts ← list_work_attempts (Some work_id);
  _ ← lift (require_work_revision item expected_revision);
  _ ← lift (ensure_not (negb (is_state WFailed item)) (conflict "only failed work items can be retried"));
  _ ← lift (ensure_not (bool_decide (rt_max_attempts (wp_retry (wi_policy item)) ≤ wi_attempt_count item)%Z)
              (conflict "work item retry budget is exhausted"));
  _ ← lift (ensure_not (bool_decide (trim reason = "")) (invalid "retry reason is required"));
  next ← bump (set_approval None (set_result None (set_state WQueued item)));
  _ ← commit_lifecycle_with_request "retry" item next prior_attempts prior_attempts request;
  mret next.

Definition is_att_state (s : AttemptState) (a : WorkAttempt) : bool := bool_decide (wt_state a = s).

(** [iter_mut().rev().find(p)]: the last attempt that satisfies [p], and the
    list with that slot replaced by [f] of it. *)
Fixpoint alter_first (p : WorkAttempt → bool) (f : WorkAttempt → WorkAttempt) (l : list WorkAttempt)
    : list WorkAttempt :=
  match l with
  | [] => []
  | a :: l => if p a then f a :: l else a :: alter_first p f l
  end.
Definition find_last (p : WorkAttempt → bool) (l : list WorkAttempt) : option WorkAttempt :=
  List.find p (reverse l).
Definition alter_last (p : WorkAttempt → bool) (f : WorkAttempt → WorkAttempt) (l : list WorkAttempt)
    : list WorkAttempt :=
  reverse (alter_first p f (reverse l)).

Definition approval_at (reviewer_id : string) (note : option string) (now : DateTime) : WorkApproval := {|
  wa_reviewer_id := reviewer_id; wa_note := note; wa_approved_at := now;
  wa_candidate_digest := None; wa_target_revision := None; wa_apply_bundle_digest := None |}.

(** The checks on a retained candidate: the approval bound to it. *)
Definition bind_candidate (item : WorkItem) (approval : WorkApproval) : LM WorkApproval :=
  v ← lift (ok_or (wi_result item ≫= wr_candidate_verification)
              (conflict "required checks have no candidate verification to approve"));
  _ ← lift (ensure_not (negb (cv_checks_passed v) || cv_invalidated v || cv_applied v)
              (conflict "candidate verification is not eligible for approval"));
  revision ← ask_or conflict (λ t, source_revision t (wi_workspace item));
  _ ← lift (ensure_not (bool_decide (revision ≠ cv_source_revision v))
              (conflict "target revision changed after verification"));
  retained ← lift (candidate_snapshot_dir (wi_work_id item));
  unchanged ← ask_or conflict (λ t, retained_matches t retained (cv_content_digest v) (cv_files v));
  _ ← lift (ensure_not (negb unchanged) (conflict "candidate content changed after verification"));
  bundle ← ask_or conflict (λ t, recompute_candidate_apply_bundle t retained v
                                   (wp_allowed_files (wi_policy item)));
  _ ← lift (ensure_not (bool_decide (cv_apply_bundle_digest v = "")
                        || bool_decide (bundle ≠ cv_apply_bundle_digest v))
              (conflict "the candidate bundle changed after verification"));
  mret {| wa_reviewer_id := wa_reviewer_id approval; wa_note := wa_note approval;
          wa_approved_at := wa_approved_at approval;
          wa_candidate_digest := Some (cv_content_digest v); wa_target_revision := Some revision;
          wa_apply_bundle_digest := Some bundle |}.

Definition approved_by (reviewer_id : string) (item : WorkItem) : bool :=
  match wi_approval item with
  | Some existing => bool_decide (wa_reviewer_id existing = reviewer_id) | None => false end.

Definition approve_work (request : option WorkRequestBinding) (work_id reviewer_id : string)
    (note : option string) (expected_revision : option Z) : LM (WorkItem * WorkAttempt) :=
  approved_at ← now_utc;
  let approval := approval_at reviewer_id note approved_at in
  _ ← lift (approval_validate approval);
  item ← require_work_item work_id;
  if is_state WSucceeded item && approved_by reviewer_id item then
    attempts ← list_work_attempts (Some work_id);
    attempt ← lift (ok_or (find_last (λ a, is_att_state ASucceeded a || is_att_state AAwaitingApproval a)
                             attempts) (conflict "approved work item has no succeeded attempt"));
    mret (item, attempt)
  else
    _ ← lift (ensure_not (bool_decide (is_Some (wi_approval item)) && negb (approved_by reviewer_id item))
                (conflict "work item is already approved by a different actor"));
    _ ← lift (require_work_revision item expected_revision);
    _ ← lift (ensure_not (negb (is_state WAwaitingApproval item))
                (conflict "work item is not awaiting approval"));
    prior_attempts ← list_work_attempts (Some work_id);
    awaiting ← lift (ok_or (find_last (is_att_state AAwaitingApproval) prior_attempts)
                       (conflict "approval-gated work item has no awaiting attempt"));
    let attempt := att_reason (Some ("approved by " +:+ reviewer_id)) approved_at awaiting in
    if decide (wp_required_checks (wi_policy item) ≠ []) then
      if approved_by reviewer_id item && bool_decide (is_Some (wi_approval item ≫= wa_candidate_digest))
      then mret (item, attempt)
      else
        bound ← bind_candidate item approval;
        let attempt := att_reason (Some ("approved candidate " +:+ default "" (wa_candidate_digest bound)
                                         +:+ " by " +:+ reviewer_id)) approved_at awaiting in
        next ← bump (set_approval (Some bound) item);
        _ ← commit_lifecycle_with_request "approve-candidate" item next prior_attempts
              (alter_last (is_att_state AAwaitingApproval) (λ _, attempt) prior_attempts) request;
        mret (next, attempt)
    else
      '(approved, attempt) ← assign_work_succeeded (set_approval (Some approval) item) attempt None;
      next ← bump approved;
      _ ← commit_lifecycle_with_request "approve" item next prior_attempts
            (alter_last (is_att_state AAwaitingApproval) (λ _, attempt) prior_attempts) request;
      mret (next, attempt).

Definition cancel_attempt (reason : string) (now : DateTime) (a : WorkAttempt) : WorkAttempt :=
  if attempt_is_active (wt_state a) then att_close ACancelled (Some reason) now a else a.

Definition cancellation_result (reason : string) (now : DateTime) : WorkResult := {|
  wr_summary := "work item cancelled"; wr_evidence := []; wr_artifacts := []; wr_failure := None;
  wr_cancellation_reason := Some reason; wr_completed_at := now; wr_verification := None;
  wr_candidate_verification := None |}.

Definition cancel_work_checked (request : option WorkRequestBinding) (work_id reason : string)
    (expected_revision : option Z) : LM (WorkItem * list WorkAttempt) :=
  item ← require_work_item work_id;
  _ ← lift (require_work_revision item expected_revision);
  if work_is_terminal (wi_state item) then
    attempts ← list_work_attempts (Some work_id);
    mret (item, attempts)
  else
    now ← now_utc;
    prior_attempts ← list_work_attempts (Some work_id);
    let attempts := cancel_attempt reason now <$> prior_attempts in
    next ← bump (set_result (Some (cancellation_result reason now)) (set_state WCancelled item));
    _ ← commit_lifecycle_with_request "cancel" item next prior_attempts attempts request;
    mret (next, attempts).

Definition cancel_work (request : option WorkRequestBinding) (work_id reason : string)
    : LM (WorkItem * list WorkAttempt) :=
  cancel_work_checked request work_id reason None.
End operations.
