(* ===== verification/LedgerLogic.v ===== *)
(** * A program logic for the work ledger

    [spec m s Q E]: run from [s], the method [m] either returns an [a] in a store
    that satisfies [Q a], or is refused or ends the process in a store that
    satisfies [E]; effects are only counted forward.  One rule per construct of
    the store's monad; a fault of the environment is the only way out of a read
    or a write, so a postcondition [E] that includes [¬ clean] shows both what a
    crash leaves behind and that a run without faults returns. *)

From S2P Require Import Prelude Text Window Ids Workload WorkGraph Ledger LedgerStore.

Section logic.
Context {DG : LedgerDigests} {ENV : LedgerEnv}.

(** No write and no read fails. *)
Definition clean : Prop := (∀ n, write_result n = WDone) ∧ (∀ n, read_ok n = true).

Definition spec {A} (m : LM A) (s : Store) (Q : A → Store → Prop) (E : Store → Prop) : Prop :=
  (st_tick s ≤ st_tick (m s).2)%nat ∧
  match m s with (Returned a, s') => Q a s' | (_, s') => E s' end.

Lemma spec_mono {A} (m : LM A) s (Q Q' : A → Store → Prop) (E E' : Store → Prop) :
  spec m s Q E → (∀ a s', (st_tick s ≤ st_tick s')%nat → Q a s' → Q' a s') → (∀ s', E s' → E' s') →
  spec m s Q' E'.
Proof. intros [Ht H] HQ HE. split; [done|]. destruct (m s) as [[] s']; cbn in *; auto. Qed.

(** The same, with the count of effects at an early end. *)
Lemma spec_mono_tick {A} (m : LM A) s (Q Q' : A → Store → Prop) (E E' : Store → Prop) :
  spec m s Q E → (∀ a s', (st_tick s ≤ st_tick s')%nat → Q a s' → Q' a s') →
  (∀ s', (st_tick s ≤ st_tick s')%nat → E s' → E' s') → spec m s Q' E'.
Proof. intros [Ht H] HQ HE. split; [done|]. destruct (m s) as [[] s']; cbn in *; auto. Qed.

Lemma spec_ret {A} (a : A) s (Q : A → Store → Prop) E : Q a s → spec (mret a) s Q E.
Proof. by intros HQ. Qed.

Lemma spec_bind {A B} (m : LM A) (f : A → LM B) s Q E :
  spec m s (λ a s', (st_tick s ≤ st_tick s')%nat → spec (f a) s' Q E) E → spec (m ≫= f) s Q E.
Proof.
  intros [Ht H]. unfold spec, mbind, LM_bind. destruct (m s) as [[a|e|] s']; cbn in *; [|done..].
  destruct (H Ht) as [Ht' H']. split; [lia|done].
Qed.

(** Sequencing with an intermediate assertion. *)
Lemma spec_seq {A B} (m : LM A) (f : A → LM B) s R Q E E' :
  spec m s R E' → (∀ s', E' s' → E s') →
  (∀ a s', (st_tick s ≤ st_tick s')%nat → R a s' → spec (f a) s' Q E) →
  spec (m ≫= f) s Q E.
Proof. intros Hm HE Hf. apply spec_bind. eapply spec_mono; [done| |done]. naive_solver. Qed.

Lemma spec_seq_tick {A B} (m : LM A) (f : A → LM B) s R Q E E' :
  spec m s R E' → (∀ s', (st_tick s ≤ st_tick s')%nat → E' s' → E s') →
  (∀ a s', (st_tick s ≤ st_tick s')%nat → R a s' → spec (f a) s' Q E) →
  spec (m ≫= f) s Q E.
Proof. intros Hm HE Hf. apply spec_bind. eapply spec_mono_tick; [done| |done]. naive_solver. Qed.

Lemma spec_lift {A} (r : ORes A) s (Q : A → Store → Prop) E a : r = inr a → Q a s → spec (lift r) s Q E.
Proof. by intros -> HQ. Qed.

(** A check that may refuse: the store is as before. *)
Lemma spec_lift_any {A} (r : ORes A) s (Q : A → Store → Prop) (E : Store → Prop) :
  (∀ a, r = inr a → Q a s) → E s → spec (lift r) s Q E.
Proof. intros HQ HE. destruct r; (split; [done|]); cbn; auto. Qed.

Lemma spec_read_file {A} (sel : Disk → option A) s (Q : option A → Store → Prop) (E : Store → Prop) :
  (∀ s', st_disk s' = st_disk s → Q (sel (st_disk s)) s') →
  (∀ s', st_disk s' = st_disk s → ¬ clean → E s') →
  spec (read_file sel) s Q E.
Proof.
  intros HQ HE. unfold spec, read_file. destruct (sel (st_disk s)) as [a|] eqn:Hs; [|by auto].
  destruct (read_ok (st_tick s)) eqn:Hr; cbn; (split; [lia|]); [by apply HQ|].
  apply HE; [done|]. intros [_ Hc]. by rw Hc in Hr.
Qed.

Lemma spec_write_file (change : Disk → Disk) s (Q : unit → Store → Prop) (E : Store → Prop) :
  (∀ s', st_disk s' = change (st_disk s) → Q () s') →
  (∀ s', st_disk s' = st_disk s ∨ st_disk s' = change (st_disk s) → ¬ clean → E s') →
  spec (write_file change) s Q E.
Proof.
  intros HQ HE. unfold spec, write_file.
  destruct (write_result (st_tick s)) eqn:Hw; cbn; (split; [lia|]); [by apply HQ|..];
    (apply HE; [cbn; auto|]; intros [Hc _]; by rw Hc in Hw).
Qed.

Lemma spec_note {A} (m : LM A) s (Q : A → Store → Prop) (E : Store → Prop) :
  spec m s Q E → (∀ c s', E s' → E (with_closed c s')) → spec (note_partial_commit m) s Q E.
Proof.
  intros [Ht H] HE. unfold spec, note_partial_commit.
  destruct (m s) as [[a|e|] s'] eqn:E'; cbn in *; [done| |done].
  case_decide; cbn; auto.
Qed.

Lemma spec_anyhow {A} (m : LM A) s (Q : A → Store → Prop) (E : Store → Prop) :
  spec m s Q E → spec (as_anyhow m) s Q E.
Proof.
  intros [Ht H]. unfold spec, as_anyhow. by destruct (m s) as [[a|e|] s'] eqn:E'.
Qed.

Lemma spec_now s (Q : DateTime → Store → Prop) E :
  (∀ s', st_disk s' = st_disk s → st_tick s' = S (st_tick s) → Q (clock (st_tick s)) s') →
  spec now_utc s Q E.
Proof. intros HQ. split; [cbn; lia|]. by apply HQ. Qed.

Lemma spec_uuid s (Q : string → Store → Prop) E :
  (∀ s', st_disk s' = st_disk s → st_tick s' = S (st_tick s) → Q (fresh_uuid (st_tick s)) s') →
  spec new_uuid s Q E.
Proof. intros HQ. split; [cbn; lia|]. by apply HQ. Qed.

(** A loop with an invariant on the part done so far. *)
Lemma spec_for_each {A} (xs : list A) (f : A → LM unit) s (Inv : list A → Store → Prop) E :
  Inv [] s →
  (∀ done x s', x ∈ xs → Inv done s' → spec (f x) s' (λ _, Inv (done ++ [x])) E) →
  spec (for_each xs f) s (λ _, Inv xs) E.
Proof.
  intros H0 Hstep.
  assert (∀ ys done s', done ++ ys = xs → Inv done s' → spec (for_each ys f) s' (λ _, Inv xs) E) as Hg.
  { induction ys as [|y ys IH]; intros done s' Heq Hi; cbn [for_each].
    - apply spec_ret. by rw app_nil_r in Heq; subst.
    - eapply spec_seq; [apply (Hstep done y s'); [set_solver|done]|done|].
      intros u s1 _ Hi1. apply (IH (done ++ [y])); [by rw -app_assoc|done]. }
  by apply (Hg xs []).
Qed.

(** Reading every entry of a directory. *)
Lemma spec_collect {A B} (xs : list A) (f : A → LM B) (g : A → B) s (E : Store → Prop) :
  (∀ x s', x ∈ xs → st_disk s' = st_disk s →
     spec (f x) s' (λ b s'', b = g x ∧ st_disk s'' = st_disk s) E) →
  spec (collect xs f) s (λ bs s', bs = g <$> xs ∧ st_disk s' = st_disk s) E.
Proof.
  intros Hf.
  assert (∀ s', st_disk s' = st_disk s →
    spec (collect xs f) s' (λ bs s'', bs = g <$> xs ∧ st_disk s'' = st_disk s) E) as Hg; [|by apply Hg].
  induction xs as [|x xs IH]; intros s' Hs'; cbn [collect].
  - by apply spec_ret.
  - eapply spec_seq; [apply Hf; [set_solver|done]|done|]. intros b s1 _ [-> Hs1].
    eapply spec_seq; [apply IH; [|done]; intros y s2 Hy; apply Hf; set_solver|done|].
    intros bs s2 _ [-> Hs2]. by apply spec_ret.
Qed.

(** ** Methods that only read *)

Definition readonly {A} (m : LM A) : Prop :=
  ∀ s, spec m s (λ _ s', st_disk s' = st_disk s) (λ s', st_disk s' = st_disk s).

Lemma ro_ret {A} (a : A) : readonly (mret a).
Proof. intros s. by apply spec_ret. Qed.

Lemma ro_fail {A} e : readonly (A := A) (fail e).
Proof. by split. Qed.

Lemma ro_lift {A} (r : ORes A) : readonly (lift r).
Proof. intros s. by apply spec_lift_any. Qed.

Lemma ro_bind {A B} (m : LM A) (f : A → LM B) :
  readonly m → (∀ a, readonly (f a)) → readonly (m ≫= f).
Proof.
  intros Hm Hf s. eapply spec_seq; [apply Hm|done|]. intros a s' _ E.
  eapply spec_mono; [apply Hf| |]; rw E; auto.
Qed.

Lemma ro_read_file {A} (sel : Disk → option A) : readonly (read_file sel).
Proof. intros s. apply spec_read_file; auto. Qed.

Lemma ro_read_dir {A} (sel : Disk → gmap string A) : readonly (read_dir sel).
Proof. intros s. unfold spec, read_dir. by destruct (read_ok _); cbn; (split; [lia|]). Qed.

(** What a specification says of a run. *)
Lemma spec_elim {A} (m : LM A) s Q E o s' :
  spec m s Q E → m s = (o, s') → match o with Returned a => Q a s' | _ => E s' end.
Proof. intros [_ H] Hm. rw Hm in H. by destruct o. Qed.
End logic.

Create HintDb ledger_ro.
#[export] Hint Resolve ro_ret ro_fail ro_lift ro_bind ro_read_file ro_read_dir : ledger_ro.

(** A method built from reads and checks only reads. *)
Ltac readonly :=
  repeat match goal with
  | |- readonly (_ ≫= _) => apply ro_bind; [|intros ?]
  | |- readonly (match ?x with _ => _ end) => destruct x
  | |- readonly (if ?x then _ else _) => destruct x
  end; auto with ledger_ro.
