(* ===== verification/LedgerCommit.v ===== *)
(** * Atomicity of a ledger commit

    A commit writes its intent, then the attempts, the item, the decision and
    the receipt, then removes the intent.  [midway] describes every disk such a
    commit can leave behind; committing the intent again from any of them ends
    in the same disk, and only a fault of the environment stops it. *)

From S2P Require Import Prelude Text Window Ids Workload WorkGraph GraphFacts Ledger LedgerStore.
From S2P Require Import LedgerLogic.

(** [fs::read_dir] yields every entry once, in any order. *)
Class LedgerEnvLaws {ENV : LedgerEnv} := dir_order_perm : ∀ n l, dir_order n l ≡ₚ l.

(** Distinct records have distinct digests. *)
Class LedgerDigestsLaws {DG : LedgerDigests} := {
  item_digest_inj :: Inj (=) (=) item_digest;
  attempt_digest_inj :: Inj (=) (=) attempt_digest;
  decision_digest_inj :: Inj (=) (=) decision_digest;
}.

(** Each identifier determines the file, and validated identifiers have one. *)
Section named.
Context {SH : Sha256}.

Definition file_of (id : string) : string := hex (sha256 id).
Definition item_name (i : WorkItem) : string := file_of (wi_work_id i).
Definition att_name (a : WorkAttempt) : string := file_of (wt_attempt_id a).

Lemma validate_id_safe v f u : validate_id v f = inr u → safe_id_filename v = inr (file_of v).
Proof.
  unfold validate_id, safe_id_filename. intros H%refuse_if_inr.
  rw !orb_false_iff in H. destruct H as [[[[[H1 H2] H3] H4] H5] H6].
  by rw H1 H2 H3 H4 H5 H6.
Qed.

Lemma item_validate_name i u : item_validate i = inr u → safe_id_filename (wi_work_id i) = inr (item_name i).
Proof.
  unfold item_validate. intros (? & _ & H)%ores_bind_inr.
  apply ores_bind_inr in H as (? & H & _). by eapply validate_id_safe.
Qed.

Lemma attempt_validate_name a u :
  attempt_validate a = inr u → safe_id_filename (wt_attempt_id a) = inr (att_name a).
Proof.
  unfold attempt_validate. intros (? & _ & H)%ores_bind_inr.
  apply ores_bind_inr in H as (? & H & _). by eapply validate_id_safe.
Qed.

Lemma decision_validate_name d u : decision_validate d = inr u →
  work_decision_path (wd_work_id d) (wd_decision_id d)
  = inr (file_of (wd_work_id d), file_of (wd_decision_id d)).
Proof.
  unfold decision_validate. intros (? & _ & H)%ores_bind_inr.
  apply ores_bind_inr in H as (? & H1 & H). apply ores_bind_inr in H as (? & H2 & _).
  unfold work_decision_path. by rw (validate_id_safe _ _ _ H2) (validate_id_safe _ _ _ H1).
Qed.

(** ** Well-formed disks *)

Definition items_wf (m : gmap string WorkItem) : Prop :=
  map_Forall (λ k i, k = item_name i ∧ item_validate i = inr ()) m.
Definition attempts_wf (m : gmap string WorkAttempt) : Prop :=
  map_Forall (λ k a, k = att_name a ∧ attempt_validate a = inr ()) m.

(** The attempts of a work item, in no particular order. *)
Definition attempts_of (w : string) (m : gmap string WorkAttempt) : list WorkAttempt :=
  filter (λ a, wt_work_id a = w) (map_to_list m).*2.

Lemma elem_of_attempts_of w m a :
  a ∈ attempts_of w m ↔ (∃ k, m !! k = Some a) ∧ wt_work_id a = w.
Proof.
  unfold attempts_of. rw list_elem_of_filter list_elem_of_fmap. split.
  - intros (? & [k ?] & -> & H%elem_of_map_to_list). eauto.
  - intros ([k H] & ?). split; [done|]. exists (k, a). by rw elem_of_map_to_list.
Qed.

(** In a well-formed directory an identifier names one attempt. *)
Lemma attempts_wf_elem m w a :
  attempts_wf m → a ∈ attempts_of w m ↔ m !! att_name a = Some a ∧ wt_work_id a = w.
Proof.
  intros Hwf. rw elem_of_attempts_of. split; [|naive_solver].
  intros ([k H] & ?). by destruct (Hwf k a H) as [-> _].
Qed.

Lemma attempts_wf_uniq m w a b :
  attempts_wf m → a ∈ attempts_of w m → b ∈ attempts_of w m → wt_attempt_id a = wt_attempt_id b → a = b.
Proof.
  intros Hwf. rw !attempts_wf_elem //. unfold att_name. intros [Ha _] [Hb _] E.
  rw E Hb in Ha. by injection Ha.
Qed.

(** Every attempt of the list written to its file. *)
Definition write_all (l : list WorkAttempt) (m : gmap string WorkAttempt) : gmap string WorkAttempt :=
  foldr (λ a m, <[att_name a := a]> m) m l.

Lemma write_all_other l m k : k ∉ att_name <$> l → (write_all l m) !! k = m !! k.
Proof.
  induction l as [|a l IH]; intros Hk; [done|]. cbn in *. rw lookup_insert_ne; [|set_solver].
  apply IH. set_solver.
Qed.

Lemma write_all_elem l m a : NoDup (att_name <$> l) → a ∈ l → (write_all l m) !! att_name a = Some a.
Proof.
  induction l as [|b l IH]; intros Hnd Ha; [set_solver|]. cbn in *.
  apply NoDup_cons in Hnd as [Hb Hnd]. apply elem_of_cons in Ha as [->|Ha].
  - by rw lookup_insert_eq.
  - rw lookup_insert_ne; [by apply IH|]. intros E. rw E in Hb. set_solver.
Qed.

Lemma write_all_inv na m k a :
  NoDup (att_name <$> na) → (write_all na m) !! k = Some a →
  (k = att_name a ∧ a ∈ na) ∨ ((k ∉ att_name <$> na) ∧ m !! k = Some a).
Proof.
  intros Hnd Hk. destruct (decide (k ∈ att_name <$> na)) as [Hin|Hin].
  - apply list_elem_of_fmap in Hin as (b & -> & Hb). rw write_all_elem // in Hk.
    injection Hk as ->. by left.
  - rw write_all_other // in Hk. by right.
Qed.
End named.

(** ** Attempts by identifier *)

Definition uniq_ids (l : list WorkAttempt) : Prop :=
  ∀ a b, a ∈ l → b ∈ l → wt_attempt_id a = wt_attempt_id b → a = b.

Lemma by_id_snoc l a : by_id (l ++ [a]) = <[wt_attempt_id a := a]> (by_id l).
Proof. unfold by_id. by rw foldl_app. Qed.

Lemma by_id_lookup l id a : uniq_ids l → by_id l !! id = Some a ↔ a ∈ l ∧ wt_attempt_id a = id.
Proof.
  induction l as [|x l IH] using rev_ind; intros Hu.
  { unfold by_id. cbn. rw lookup_empty. set_solver. }
  rw by_id_snoc lookup_insert_Some IH; [|intros ?????; apply Hu; set_solver].
  split; [set_solver|]. intros [Ha <-]. destruct (decide (wt_attempt_id x = wt_attempt_id a)) as [E|E].
  - left. split; [done|]. apply Hu; set_solver.
  - right. set_solver.
Qed.

Lemma find_attempt_Some id l a : find_attempt id l = Some a → a ∈ l ∧ wt_attempt_id a = id.
Proof.
  unfold find_attempt. intros [H1 H2]%List.find_some. rw bool_decide_eq_true in H2.
  by rw list_elem_of_In.
Qed.

Lemma find_attempt_None id l a : find_attempt id l = None → a ∈ l → wt_attempt_id a ≠ id.
Proof.
  unfold find_attempt. intros H Ha%list_elem_of_In. pose proof (List.find_none _ _ H _ Ha) as Hn.
  by rw bool_decide_eq_false in Hn.
Qed.

Lemma validate_attempts_from_inr ids w l u :
  validate_attempts_from ids w l = inr u →
  Forall (λ a, attempt_validate a = inr () ∧ wt_work_id a = w ∧ wt_attempt_id a ∉ ids) l
  ∧ NoDup (wt_attempt_id <$> l).
Proof.
  revert ids. induction l as [|a l IH]; intros ids H; cbn in *; [split; constructor|].
  apply ores_bind_inr in H as ([] & Ha & H). apply ores_bind_inr in H as (? & Hr%refuse_if_inr & H).
  apply orb_false_iff in Hr as [Hw Hi]. rw !bool_decide_eq_false in Hw, Hi. 
  apply IH in H as [Hl Hnd]. split; [constructor|].
  - split_and!; [done|by apply dec_stable|done].
  - eapply Forall_impl; [exact Hl|]. set_solver.
  - constructor; [|done]. intros (b & Hb & Hin)%list_elem_of_fmap.
    rw Forall_forall in Hl. destruct (Hl b Hin) as (_ & _ & Hnb). rw Hb in Hnb. set_solver.
Qed.

Lemma NoDup_ids_uniq l : NoDup (wt_attempt_id <$> l) → uniq_ids l.
Proof.
  induction l as [|x l IH]; intros Hnd a b Ha Hb E; [set_solver|].
  rw fmap_cons in Hnd. apply NoDup_cons in Hnd as [Hx Hnd].
  apply elem_of_cons in Ha as [->|Ha], Hb as [->|Hb]; [done|..|by apply IH].
  - destruct Hx. apply list_elem_of_fmap. eauto.
  - destruct Hx. apply list_elem_of_fmap. eauto.
Qed.

(** ** Reads *)

Section commit.
Context {SH : Sha256} {DG : LedgerDigests} {FS : FileSystem} {ENV : LedgerEnv}
  {MS : ManagedSettlement} {EL : LedgerEnvLaws} {DL : LedgerDigestsLaws}.

(** The disk is as it was, and a fault of the environment is to blame. *)
Definition faulted (d : Disk) (s : Store) : Prop := st_disk s = d ∧ ¬ clean.

Lemma spec_load_item w k s :
  safe_id_filename w = inr k → items_wf (dk_items (st_disk s)) →
  spec (load_work_item w) s
    (λ o s', o = dk_items (st_disk s) !! k ∧ st_disk s' = st_disk s) (faulted (st_disk s)).
Proof.
  intros Hk Hwf. unfold load_work_item. rw Hk. apply spec_bind, spec_read_file; [|done].
  intros s1 Hs1 _. cbv beta. destruct (dk_items (st_disk s) !! k) as [i|] eqn:Hi; [|by apply spec_ret].
  destruct (Hwf k i Hi) as [_ ->]. by apply spec_ret.
Qed.

Lemma spec_load_attempt id k s :
  safe_id_filename id = inr k → attempts_wf (dk_attempts (st_disk s)) →
  spec (load_work_attempt id) s
    (λ o s', o = dk_attempts (st_disk s) !! k ∧ st_disk s' = st_disk s) (faulted (st_disk s)).
Proof.
  intros Hk Hwf. unfold load_work_attempt. rw Hk. apply spec_bind, spec_read_file; [|done].
  intros s1 Hs1 _. cbv beta. destruct (dk_attempts (st_disk s) !! k) as [i|] eqn:Hi; [|by apply spec_ret].
  destruct (Hwf k i Hi) as [_ ->]. by apply spec_ret.
Qed.

(** A directory is read entry by entry. *)
Lemma spec_read_dir {A} (sel : Disk → gmap string A) s :
  spec (read_dir sel) s
    (λ names s', names ≡ₚ (map_to_list (sel (st_disk s))).*1 ∧ st_disk s' = st_disk s)
    (faulted (st_disk s)).
Proof.
  unfold spec, read_dir. destruct (read_ok (st_tick s)) eqn:Hr; cbn; (split; [lia|]).
  - split; [apply dir_order_perm|done].
  - split; [done|]. intros [_ Hc]. by rw Hc in Hr.
Qed.

Lemma spec_read_entries {A} (sel : Disk → gmap string A) (validate : A → ORes unit) s names
    (dft : A) (m : gmap string A) :
  sel (st_disk s) = m → names ⊆ (map_to_list m).*1 → map_Forall (λ _ a, validate a = inr ()) m →
  spec (collect names (read_entry sel validate)) s
    (λ l s', l = (λ k, default dft (m !! k)) <$> names ∧ st_disk s' = st_disk s)
    (faulted (st_disk s)).
Proof.
  intros Hm Hn Hv. apply spec_collect. intros k s' Hk Hs'. unfold read_entry.
  apply spec_bind, spec_read_file; [|intros s'' Hs'' Hc; split; [congruence|done]].
  intros s1 Hs1 _. cbv beta. rw Hs' Hm.
  apply Hn in Hk. apply list_elem_of_fmap in Hk as ([k' a] & -> & Ha%elem_of_map_to_list). cbn.
  rw Ha. apply spec_bind. eapply spec_lift; [by eapply Hv|]. intros _. apply spec_ret.
  split; [done|congruence].
Qed.

Lemma defaults_of_keys {A} (m : gmap string A) dft names :
  names ≡ₚ (map_to_list m).*1 → (λ k, default dft (m !! k)) <$> names ≡ₚ (map_to_list m).*2.
Proof.
  intros ->. rw -list_fmap_compose. apply reflexive_eq, list_fmap_ext. intros i [k a] Hi. cbn.
  apply list_elem_of_lookup_2, elem_of_map_to_list in Hi. by rw Hi.
Qed.

Lemma spec_list_attempts w s :
  attempts_wf (dk_attempts (st_disk s)) →
  spec (list_work_attempts (Some w)) s
    (λ l s', l ≡ₚ attempts_of w (dk_attempts (st_disk s)) ∧ st_disk s' = st_disk s)
    (faulted (st_disk s)).
Proof.
  intros Hwf. unfold list_work_attempts.
  eapply spec_seq; [apply spec_read_dir|done|]. intros names s1 _ [Hn Hs1].
  destruct names as [|k0 names'] eqn:En.
  { apply spec_bind. cbn [collect]. apply spec_ret. intros _. apply spec_ret. split; [|done].
    unfold attempts_of. apply Permutation_nil_l in Hn. symmetry in Hn. apply fmap_nil_inv in Hn. by rw Hn. }
  rewrite <- En in *. assert (∃ dft : WorkAttempt, True) as [dft _].
  { destruct (map_to_list (dk_attempts (st_disk s))) as [|[k a] l]; [|by exists a].
    cbn in Hn. apply Permutation_nil_r in Hn. congruence. }
  eapply spec_seq; [apply (spec_read_entries dk_attempts _ _ _ dft (dk_attempts (st_disk s)))| |].
  - by rw Hs1.
  - intros k. by rw Hn.
  - intros k a Hk. by destruct (Hwf k a Hk) as [_ ->].
  - by rw Hs1.
  - intros l s2 _ [-> Hs2]. apply spec_ret. split; [|congruence].
    rw sort_by_perm. unfold attempts_of. by rw (defaults_of_keys _ dft names Hn).
Qed.

(** ** Saving an item that keeps its dependencies *)

Lemma spec_save_item j i s :
  item_validate j = inr () → items_wf (dk_items (st_disk s)) →
  dk_items (st_disk s) !! item_name j = Some i → wi_dependencies i = wi_dependencies j →
  spec (save_work_item j) s
    (λ _ s', st_disk s' = put_item (item_name j) j (st_disk s))
    (λ s', ¬ clean ∧ (st_disk s' = st_disk s ∨ st_disk s' = put_item (item_name j) j (st_disk s))).
Proof.
  intros Hj Hwf Hi Hd. pose proof (item_validate_name j _ Hj) as Hn.
  eapply (spec_seq _ _ _ (λ _ s', st_disk s' = st_disk s) _ _ (faulted (st_disk s))).
  - unfold validate_work_item_for_save. apply spec_bind. eapply spec_lift; [by rw Hj|]. intros _.
    eapply spec_seq; [by apply spec_load_item|done|]. intros o s1 _ [-> Hs1]. rw Hi.
    apply spec_bind, spec_ret. intros _. cbn [fmap option_fmap option_map]. rw Hd.
    rw (bool_decide_eq_false_2 (Some (wi_dependencies j) ≠ _)); [|naive_solver].
    rw andb_false_r. by apply spec_ret.
  - by intros s' [-> ?]; auto.
  - intros _ s1 _ Hs1. unfold write_work_item. rw Hn. apply spec_bind. cbn [anyhow_of].
    eapply spec_lift; [done|]. intros _. rw -Hs1. apply spec_write_file; [done|]. naive_solver.
Qed.

(** ** Settling the receipt of a request *)

Definition put_receipts (m : gmap (string * string * string) IdempotencyReceipt) (d : Disk) : Disk := {|
  dk_items := dk_items d; dk_attempts := dk_attempts d; dk_decisions := dk_decisions d;
  dk_mutations := dk_mutations d; dk_lifecycles := dk_lifecycles d; dk_receipts := m |}.

Definition completed_receipt (rq : WorkRequestBinding) (response : Response) (r : IdempotencyReceipt)
    : IdempotencyReceipt :=
  finished_receipt r (scope_of_request rq) (rq_tool rq) (rq_request_id rq) (rq_payload_hash rq) None
    response None "complete".

(** The receipts after a commit: the one of the request is complete. *)
Definition settle_receipt (request : option WorkRequestBinding) (response : Response)
    (m : gmap (string * string * string) IdempotencyReceipt)
    : gmap (string * string * string) IdempotencyReceipt :=
  match request with
  | None => m
  | Some rq =>
      if decide (response = RNull) then m
      else match idemp_path (scope_of_request rq) (rq_request_id rq) with
           | inl _ => m
           | inr path => alter (completed_receipt rq response) path m
           end
  end.

(** The request has a pending receipt that names it. *)
Definition receipt_ready (request : option WorkRequestBinding) (response : Response)
    (m : gmap (string * string * string) IdempotencyReceipt) : Prop :=
  match request with
  | None => True
  | Some rq =>
      response = RNull ∨
      ∃ path r, idemp_path (scope_of_request rq) (rq_request_id rq) = inr path ∧ m !! path = Some r
        ∧ is_in_scope r (scope_of_request rq) = true ∧ ir_request_id r = rq_request_id rq
        ∧ ir_tool r = rq_tool rq ∧ ir_payload_hash r = rq_payload_hash rq ∧ ir_status r = "pending"
  end.

Lemma is_in_scope_refl rq response r : is_in_scope (completed_receipt rq response r) (scope_of_request rq) = true.
Proof. unfold is_in_scope. cbn. by rw !bool_decide_eq_true_2. Qed.

Lemma alter_present `{Countable K} {A} (f : A → A) (k : K) (m : gmap K A) x :
  m !! k = Some x → alter f k m = <[k := f x]> m.
Proof.
  intros Hk. apply map_eq. intros i. destruct (decide (i = k)) as [->|Hi].
  - by rw lookup_alter_eq Hk lookup_insert_eq.
  - by rw lookup_alter_ne // lookup_insert_ne.
Qed.

Lemma put_receipts_same d : put_receipts (dk_receipts d) d = d.
Proof. by destruct d. Qed.

Lemma spec_complete request response s m0 :
  receipt_ready request response m0 →
  dk_receipts (st_disk s) = m0 ∨ dk_receipts (st_disk s) = settle_receipt request response m0 →
  let settled := put_receipts (settle_receipt request response m0) (st_disk s) in
  spec (complete_bound_request request response) s
    (λ _ s', st_disk s' = settled)
    (λ s', ¬ clean ∧ (st_disk s' = st_disk s ∨ st_disk s' = settled)).
Proof.
  intros Hr Hm settled. unfold complete_bound_request. destruct request as [rq|].
  2:{ apply spec_ret. subst settled. cbn in *. destruct Hm as [<-|<-]; by rw put_receipts_same. }
  cbn in Hr. subst settled. cbn [settle_receipt] in *. case_decide as Hnull.
  { apply spec_ret. destruct Hm as [<-|<-]; by rw put_receipts_same. }
  destruct Hr as [|(path & r & Hp & Hl & Hsc & Hid & Ht & Hh & Hst)]; [done|]. rw Hp in Hm *.
  apply spec_note; [|naive_solver]. unfold finish_idempotency. apply spec_bind.
  eapply spec_lift; [done|]. intros _. apply spec_bind, spec_read_file; [|naive_solver].
  intros s1 Hs1 _. cbv beta. destruct Hm as [Hm|Hm].
  - rw Hm Hl. apply spec_bind. eapply spec_lift; [done|]. intros _. cbv beta.
    apply spec_bind. eapply spec_lift; [by rw Hsc !bool_decide_eq_false_2; [done|naive_solver..]|].
    intros _. cbv beta. rw (bool_decide_eq_false_2 (ir_status r = "complete")); [|by rw Hst]. cbn [andb].
    apply spec_bind. eapply spec_lift; [by rw bool_decide_eq_false_2; [done|naive_solver]|].
    intros _. apply spec_write_file; rw Hs1.
    + intros s' ->. unfold put_receipts, put_receipt. by rw Hm (alter_present _ _ _ r).
    + intros s' [->| ->] Hc; (split; [done|]); [by left|right].
      unfold put_receipts, put_receipt. by rw Hm (alter_present _ _ _ r).
  - rw Hm lookup_alter_eq Hl. apply spec_bind. eapply spec_lift; [done|]. intros _. cbv beta.
    apply spec_bind. eapply spec_lift; [by rw is_in_scope_refl !bool_decide_eq_false_2; [done|naive_solver..]|].
    intros _. cbv beta. rw !bool_decide_eq_true_2 //. apply spec_ret.
    by rw Hs1 -{1}Hm put_receipts_same.
Qed.

(** ** The lifecycle commit *)

Definition lifecycle_receipts (I : WorkLifecycleIntent)
    (m : gmap (string * string * string) IdempotencyReceipt)
    : gmap (string * string * string) IdempotencyReceipt :=
  if lifecycle_settles_service_receipt I then
    match lifecycle_response_value I with
    | inr response => settle_receipt (li_request I) response m
    | inl _ => m
    end
  else m.

(** The disk after the commit of [I] on [d]. *)
Definition applied (I : WorkLifecycleIntent) (d : Disk) : Disk := {|
  dk_items := <[item_name (li_item I) := li_item I]> (dk_items d);
  dk_attempts := write_all (li_attempts I) (dk_attempts d);
  dk_decisions := dk_decisions d; dk_mutations := dk_mutations d;
  dk_lifecycles := dk_lifecycles d; dk_receipts := lifecycle_receipts I (dk_receipts d) |}.

(** Every file is in its version before or after the commit, and the intent is
    on disk under the name [n]. *)
Record midway (I : WorkLifecycleIntent) (n : string) (d0 d : Disk) : Prop := {
  mw_items : dk_items d = dk_items d0 ∨ dk_items d = dk_items (applied I d0);
  mw_attempts : ∀ k, dk_attempts d !! k = dk_attempts d0 !! k
                     ∨ dk_attempts d !! k = dk_attempts (applied I d0) !! k;
  mw_decisions : dk_decisions d = dk_decisions d0;
  mw_mutations : dk_mutations d = dk_mutations d0;
  mw_lifecycles : dk_lifecycles d = <[n := I]> (dk_lifecycles d0);
  mw_receipts : dk_receipts d = dk_receipts d0 ∨ dk_receipts d = dk_receipts (applied I d0);
}.

(** An intent that [d0] is ready for: it was made from the files of [d0]. *)
Record ready (I : WorkLifecycleIntent) (n : string) (d0 : Disk) : Prop := {
  rd_valid : lifecycle_validate I = inr ();
  rd_name : safe_id_filename (li_intent_id I) = inr n;
  rd_free : dk_lifecycles d0 !! n = None;
  rd_items_wf : items_wf (dk_items d0);
  rd_attempts_wf : attempts_wf (dk_attempts d0);
  rd_prior : dk_items d0 !! item_name (li_prior_item I) = Some (li_prior_item I);
  rd_deps : wi_dependencies (li_prior_item I) = wi_dependencies (li_item I);
  rd_prior_attempts :
    ∀ a, a ∈ li_prior_attempts I ↔ a ∈ attempts_of (li_work_id I) (dk_attempts d0);
  rd_keep : ∀ a, a ∈ li_prior_attempts I → wt_attempt_id a ∈ wt_attempt_id <$> li_attempts I;
  rd_nodup : NoDup (att_name <$> li_attempts I);
  rd_ordinary : li_operation I ≠ "managed_finalization";
  rd_receipt : lifecycle_settles_service_receipt I = true →
    ∃ response, lifecycle_response_value I = inr response
      ∧ receipt_ready (li_request I) response (dk_receipts d0);
}.

Section lifecycle.
Context (I : WorkLifecycleIntent) (n : string) (d0 : Disk) (R : ready I n d0).

Lemma ready_valid :
  wi_work_id (li_prior_item I) = li_work_id I ∧ wi_work_id (li_item I) = li_work_id I
  ∧ item_validate (li_prior_item I) = inr () ∧ item_validate (li_item I) = inr ()
  ∧ Forall (λ a, attempt_validate a = inr () ∧ wt_work_id a = li_work_id I) (li_attempts I)
  ∧ NoDup (wt_attempt_id <$> li_prior_attempts I) ∧ NoDup (wt_attempt_id <$> li_attempts I).
Proof.
  pose proof (rd_valid _ _ _ R) as H. unfold lifecycle_validate in H.
  apply ores_bind_inr in H as (? & H1%refuse_if_inr & H). rw !orb_false_iff in H1.
  apply ores_bind_inr in H as ([] & H2 & H). apply ores_bind_inr in H as ([] & H3 & H).
  apply ores_bind_inr in H as ([] & H4 & H5).
  apply validate_attempts_from_inr in H4 as [_ H4]. apply validate_attempts_from_inr in H5 as [H5 H6].
  destruct H1 as [[[[[_ Hp] Hi] _] _] _]. rw !bool_decide_eq_false in Hp, Hi.
  split_and!; [by apply dec_stable|by apply dec_stable|done..| |done|done].
  eapply Forall_impl; [exact H5|]. naive_solver.
Qed.

Lemma same_item_name : item_name (li_prior_item I) = item_name (li_item I).
Proof. unfold item_name. by destruct ready_valid as (-> & -> & _). Qed.

Lemma next_uniq a b :
  a ∈ li_attempts I → b ∈ li_attempts I → wt_attempt_id a = wt_attempt_id b → a = b.
Proof. apply NoDup_ids_uniq. by apply ready_valid. Qed.

Lemma next_valid a : a ∈ li_attempts I → attempt_validate a = inr () ∧ wt_work_id a = li_work_id I.
Proof. intros Ha. destruct ready_valid as (_ & _ & _ & _ & H & _). by rw Forall_forall in H; apply H. Qed.

Lemma applied_attempt a : a ∈ li_attempts I → dk_attempts (applied I d0) !! att_name a = Some a.
Proof. apply write_all_elem, (rd_nodup _ _ _ R). Qed.

Lemma applied_attempt_inv k a :
  dk_attempts (applied I d0) !! k = Some a →
  (k = att_name a ∧ a ∈ li_attempts I) ∨ dk_attempts d0 !! k = Some a.
Proof.
  intros Hk. destruct (decide (k ∈ att_name <$> li_attempts I)) as [Hin|Hin].
  - apply list_elem_of_fmap in Hin as (b & -> & Hb). rw applied_attempt // in Hk.
    injection Hk as ->. by left.
  - cbn in Hk. rw write_all_other // in Hk. by right.
Qed.

(** A prior attempt has exactly one next version, in the same file. *)
Lemma prior_next p : p ∈ li_prior_attempts I →
  dk_attempts d0 !! att_name p = Some p ∧ wt_work_id p = li_work_id I
  ∧ ∃ q, q ∈ li_attempts I ∧ wt_attempt_id q = wt_attempt_id p
         ∧ dk_attempts (applied I d0) !! att_name p = Some q.
Proof.
  intros Hp. pose proof (rd_keep _ _ _ R p Hp) as (q & Hq & Hin)%list_elem_of_fmap.
  apply (rd_prior_attempts _ _ _ R), attempts_wf_elem in Hp as [H1 H2]; [|apply R].
  split_and!; [done..|]. exists q. split_and!; [done..|].
  replace (att_name p) with (att_name q) by (unfold att_name; congruence). by apply applied_attempt.
Qed.

Lemma items_named_applied : items_wf (dk_items (applied I d0)).
Proof.
  destruct ready_valid as (_ & _ & _ & Hv & _). apply map_Forall_insert_2; [done|]. apply R.
Qed.

Lemma attempts_named_applied : attempts_wf (dk_attempts (applied I d0)).
Proof.
  intros k a [[-> Ha]|Hk]%applied_attempt_inv; [|by apply (rd_attempts_wf _ _ _ R)].
  split; [done|]. by apply next_valid.
Qed.

Lemma midway_wf d : midway I n d0 d → items_wf (dk_items d) ∧ attempts_wf (dk_attempts d).
Proof.
  intros M. split.
  - destruct (mw_items _ _ _ _ M) as [->| ->]; [apply R|apply items_named_applied].
  - intros k a Hk. destruct (mw_attempts _ _ _ _ M k) as [E|E]; rw E in Hk.
    + by apply (rd_attempts_wf _ _ _ R).
    + by apply attempts_named_applied.
Qed.

(** What the attempts of the item can be, halfway. *)
Lemma midway_attempt d a : midway I n d0 d → a ∈ attempts_of (li_work_id I) (dk_attempts d) →
  a ∈ li_prior_attempts I ∨ a ∈ li_attempts I.
Proof.
  intros M [[k Hk] Hw]%elem_of_attempts_of. rw (rd_prior_attempts _ _ _ R) elem_of_attempts_of.
  destruct (mw_attempts _ _ _ _ M k) as [E|E]; rw E in Hk; [by eauto|].
  apply applied_attempt_inv in Hk as [[_ ?]|?]; eauto.
Qed.

Lemma midway_prior d p : midway I n d0 d → p ∈ li_prior_attempts I →
  ∃ c q, c ∈ attempts_of (li_work_id I) (dk_attempts d) ∧ wt_attempt_id c = wt_attempt_id p
    ∧ q ∈ li_attempts I ∧ wt_attempt_id q = wt_attempt_id p ∧ (c = p ∨ c = q).
Proof.
  intros M Hp. destruct (prior_next p Hp) as (H0 & Hw & q & Hq & Hid & H1).
  destruct (mw_attempts _ _ _ _ M (att_name p)) as [E|E].
  - exists p, q. split_and!; [|done..|by left]. apply elem_of_attempts_of. rw H0 in E. eauto.
  - exists q, q. split_and!; [|done..|by right]. apply elem_of_attempts_of. rw H1 in E.
    split; [by eauto|]. by apply next_valid.
Qed.

Lemma midway_next_only d a c : midway I n d0 d → a ∈ li_attempts I →
  wt_attempt_id a ∉ wt_attempt_id <$> li_prior_attempts I →
  c ∈ attempts_of (li_work_id I) (dk_attempts d) → wt_attempt_id c = wt_attempt_id a → c = a.
Proof.
  intros M Ha Hn Hc Hid. destruct (midway_attempt d c M Hc) as [Hp|Hnx].
  - destruct Hn. apply list_elem_of_fmap. eauto.
  - by apply next_uniq.
Qed.

(** ** The preflight accepts every disk halfway *)

Lemma match_prior_ok next prior cur :
  NoDup (wt_attempt_id <$> prior) →
  (∀ p, p ∈ prior → ∃ c q, cur !! wt_attempt_id p = Some c ∧ next !! wt_attempt_id p = Some q
                           ∧ (c = p ∨ c = q)) →
  ∃ rest, match_prior next prior cur = inr rest ∧ rest ⊆ cur
          ∧ ∀ p, p ∈ prior → rest !! wt_attempt_id p = None.
Proof.
  revert cur. induction prior as [|p prior IH]; intros cur Hnd Hp; [exists cur; set_solver|].
  apply NoDup_cons in Hnd as [Hni Hnd]. cbn [match_prior].
  destruct (Hp p) as (c & q & Hc & Hq & Hcq); [set_solver|]. rw Hc Hq. cbn.
  rw (proj2 (andb_false_iff _ _)); [|rw !bool_decide_eq_false; naive_solver].
  destruct (IH (delete (wt_attempt_id p) cur)) as (rest & -> & Hsub & Hnone); [done| |].
  - intros p' Hp'. destruct (Hp p') as (c' & q' & ? & ? & ?); [set_solver|]. exists c', q'.
    rw lookup_delete_ne; [done|]. intros E. apply Hni. rw E. by apply list_elem_of_fmap_2.
  - exists rest. split_and!; [done| |].
    + etrans; [done|]. apply delete_subseteq.
    + intros p' [->|Hp']%elem_of_cons; [|by apply Hnone].
      apply (lookup_weaken_None _ _ _ (lookup_delete_eq cur _) Hsub).
Qed.

Lemma spec_preflight s :
  midway I n d0 (st_disk s) →
  spec (preflight_work_lifecycle_intent I) s
    (λ '(dg, cur) s', st_disk s' = st_disk s ∧ cur ≡ₚ attempts_of (li_work_id I) (dk_attempts (st_disk s))
       ∧ (dg = item_digest (li_prior_item I) ∧ dk_items (st_disk s) = dk_items d0
          ∨ dg = item_digest (li_item I) ∧ dk_items (st_disk s) = dk_items (applied I d0)))
    (faulted (st_disk s)).
Proof.
  intros M. destruct (midway_wf _ M) as [Wi Wa].
  destruct ready_valid as (Hpw & Hiw & Hpv & Hiv & Hnx & Hndp & Hndn).
  unfold preflight_work_lifecycle_intent. apply spec_bind.
  eapply spec_lift; [apply (rd_valid _ _ _ R)|]. intros _. cbv beta.
  eapply spec_seq; [apply (spec_load_item _ (item_name (li_item I))); [|done]|done|].
  { rw -Hiw. by eapply item_validate_name. }
  intros o s1 _ [-> Hs1].
  assert (∃ c, dk_items (st_disk s) !! item_name (li_item I) = Some c
    ∧ (c = li_prior_item I ∧ dk_items (st_disk s) = dk_items d0
       ∨ c = li_item I ∧ dk_items (st_disk s) = dk_items (applied I d0))) as (c & -> & Hc).
  { destruct (mw_items _ _ _ _ M) as [->| ->].
    - exists (li_prior_item I). rw -same_item_name. split; [apply R|by left].
    - exists (li_item I). cbn. rw lookup_insert_eq. split; [done|by right]. }
  apply spec_bind. eapply spec_lift; [done|]. intros _. cbv beta zeta. apply spec_bind.
  eapply (spec_lift _ _ _ _ ()).
  { unfold ensure_not. rw (proj2 (andb_false_iff _ _)); [done|].
    rw !bool_decide_eq_false. naive_solver. }
  intros _. cbv beta. eapply spec_seq; [apply spec_list_attempts; by rw Hs1|by rw Hs1|].
  intros cur s2 _ [Hcur Hs2]. rw Hs1 in Hcur, Hs2. apply spec_bind.
  assert (uniq_ids cur) as Hu.
  { intros a b. rw Hcur. by apply attempts_wf_uniq. }
  destruct (match_prior_ok (by_id (li_attempts I)) (li_prior_attempts I) (by_id cur)) as (rest & Hm & Hsub & Hno); [done| |].
  { intros p Hp. destruct (midway_prior _ p M Hp) as (c' & q & H1 & H2 & H3 & H4 & H5).
    exists c', q. rw !by_id_lookup //; [|intros ????; by apply next_uniq]. by rw Hcur. }
  eapply spec_lift; [exact Hm|]. intros _. cbv beta. apply spec_bind. eapply (spec_lift _ _ _ _ ()).
  { unfold ensure_not. rw bool_decide_eq_false_2; [done|]. intros Hn. apply Hn. clear Hn.
    intros id [a Ha]%elem_of_dom. pose proof (lookup_weaken _ _ _ _ Ha Hsub) as [Hin <-]%by_id_lookup; [|done].
    rw Hcur in Hin. destruct (midway_attempt _ a M Hin) as [Hp|Hp].
    - by rw Hno in Ha.
    - apply elem_of_dom. exists a. apply by_id_lookup; [|done]. intros ????; by apply next_uniq. }
  intros _. apply spec_ret. split_and!; [done..|]. destruct Hc as [[-> ?]|[-> ?]]; [by left|by right].
Qed.

(** ** The writes *)

Lemma attempt_updates_ok d cur l :
  midway I n d0 d → cur ≡ₚ attempts_of (li_work_id I) (dk_attempts d) → l ⊆ li_attempts I →
  ∃ us, attempt_updates (li_prior_attempts I) cur l = inr us ∧ us ⊆ l
        ∧ ∀ a, a ∈ l → a ∈ us ∨ a ∈ cur.
Proof.
  intros M Hcur. induction l as [|a l IH]; intros Hl; [exists []; set_solver|].
  destruct IH as (us & Hus & Hsub & Hall); [set_solver|]. cbn [attempt_updates].
  destruct (find_attempt (wt_attempt_id a) cur) as [c|] eqn:Hf.
  - apply find_attempt_Some in Hf as [Hc Hid]. destruct (decide (attempt_digest c = attempt_digest a)) as [E|E].
    + apply (inj attempt_digest) in E as ->. exists us. set_solver.
    + destruct (find_attempt (wt_attempt_id a) (li_prior_attempts I)) as [p|] eqn:Hp.
      * exists (a :: us). rw Hus. set_solver.
      * destruct E. f_equal. eapply midway_next_only; [exact M|set_solver| |by rw -Hcur|done].
        intros (b & Hb & Hin)%list_elem_of_fmap. by eapply find_attempt_None.
  - exists (a :: us). rw Hus. set_solver.
Qed.

(** Only a fault ends a commit early, and it leaves the disk halfway or done. *)
Definition crashed (s : Store) : Prop :=
  ¬ clean ∧ (midway I n d0 (st_disk s) ∨ st_disk s = applied I d0).

Lemma faulted_crashed d s : midway I n d0 d → faulted d s → crashed s.
Proof. intros M [E Hc]. split; [done|left]. by rw E. Qed.

Lemma midway_put_attempt d a : midway I n d0 d → a ∈ li_attempts I → midway I n d0 (put_attempt (att_name a) a d).
Proof.
  intros M Ha. split; cbn; try apply M. intros k. destruct (decide (k = att_name a)) as [->|Hk].
  - right. rw lookup_insert_eq. symmetry. by apply applied_attempt.
  - rw lookup_insert_ne //. apply M.
Qed.

Lemma spec_write_attempts s cur :
  midway I n d0 (st_disk s) → cur ≡ₚ attempts_of (li_work_id I) (dk_attempts (st_disk s)) →
  spec (note_partial_commit (write_work_lifecycle_attempt_updates I cur)) s
    (λ _ s', midway I n d0 (st_disk s') ∧ dk_items (st_disk s') = dk_items (st_disk s)
       ∧ dk_attempts (st_disk s') = dk_attempts (applied I d0)) crashed.
Proof.
  intros M Hcur. apply spec_note; [|done].
  unfold write_work_lifecycle_attempt_updates, work_lifecycle_attempt_updates.
  destruct (attempt_updates_ok _ cur (li_attempts I) M Hcur) as (us & Hus & Hsub & Hall); [done|].
  apply spec_bind. eapply spec_lift; [exact Hus|]. intros _. cbv beta.
  eapply spec_mono; [eapply (spec_for_each us _ _ (λ done s',
      midway I n d0 (st_disk s') ∧ dk_items (st_disk s') = dk_items (st_disk s)
      ∧ ∀ a, a ∈ li_attempts I → a ∈ done ∨ a ∈ cur → dk_attempts (st_disk s') !! att_name a = Some a))| |done].
  - split_and!; [done..|]. intros a _ [?|Ha]; [set_solver|]. rw Hcur in Ha.
    apply attempts_wf_elem in Ha as [? _]; [done|]. by destruct (midway_wf _ M).
  - intros dn a s1 Ha (M1 & Hi1 & Hd1). apply Hsub in Ha. destruct (next_valid a Ha) as [Hv _].
    unfold save_work_attempt. rw Hv (attempt_validate_name a _ Hv). apply spec_bind.
    eapply spec_lift; [done|]. intros _. cbv beta. apply spec_bind. eapply spec_lift; [done|]. intros _.
    apply spec_write_file.
    + intros s2 ->. split_and!; [by apply midway_put_attempt|done|]. cbn. intros b Hb Hbd.
      destruct (decide (att_name b = att_name a)) as [E|E].
      * pose proof (applied_attempt b Hb) as H1. rw E (applied_attempt a Ha) in H1.
        injection H1 as ->. by rw lookup_insert_eq.
      * rw lookup_insert_ne //. apply Hd1; [done|]. set_solver.
    + intros s2 Hd Hc. split; [done|left]. destruct Hd as [->| ->]; [done|by apply midway_put_attempt].
  - intros u s1 _ (M1 & Hi1 & Hd1). split_and!; [done..|]. apply map_eq. intros k.
    destruct (decide (k ∈ att_name <$> li_attempts I)) as [Hk|Hk].
    + apply list_elem_of_fmap in Hk as (a & -> & Ha). rw applied_attempt //.
      apply Hd1; [done|]. by apply Hall.
    + destruct (mw_attempts _ _ _ _ M1 k) as [E|E]; [|done]. rw E. cbn. by rw write_all_other.
Qed.

Lemma spec_write_item s dg :
  midway I n d0 (st_disk s) → dk_attempts (st_disk s) = dk_attempts (applied I d0) →
  (dg = item_digest (li_prior_item I) ∧ dk_items (st_disk s) = dk_items d0
   ∨ dg = item_digest (li_item I) ∧ dk_items (st_disk s) = dk_items (applied I d0)) →
  spec (note_partial_commit (write_work_lifecycle_item_update I dg)) s
    (λ _ s', midway I n d0 (st_disk s') ∧ dk_items (st_disk s') = dk_items (applied I d0)
       ∧ dk_attempts (st_disk s') = dk_attempts (applied I d0)) crashed.
Proof.
  intros M Ha Hi. apply spec_note; [|done]. unfold write_work_lifecycle_item_update.
  destruct (decide (dg = item_digest (li_item I))) as [E|E].
  { apply spec_ret. split_and!; [done| |done]. destruct Hi as [[-> Hi]|[_ ->]]; [|done].
    apply (inj item_digest) in E. rw Hi. cbn. rw insert_id; [done|].
    rw -same_item_name -E. apply R. }
  destruct Hi as [[-> Hi]|[-> _]]; [|done]. destruct ready_valid as (_ & _ & _ & Hv & _).
  assert (midway I n d0 (put_item (item_name (li_item I)) (li_item I) (st_disk s))) as M'.
  { split; cbn; try apply M. right. by rw Hi. }
  eapply spec_mono; [apply (spec_save_item _ (li_prior_item I))| |].
  - done.
  - by apply midway_wf.
  - rw Hi -same_item_name. apply R.
  - apply R.
  - intros u s' _ ->. split_and!; [done| |done]. cbn. by rw Hi.
  - intros s' [Hc Hd]. split; [done|left]. by destruct Hd as [->| ->].
Qed.

Lemma spec_write_receipt s :
  midway I n d0 (st_disk s) → dk_items (st_disk s) = dk_items (applied I d0) →
  dk_attempts (st_disk s) = dk_attempts (applied I d0) →
  spec (if lifecycle_settles_service_receipt I then
          response ← lift (lifecycle_response_value I);
          complete_bound_request (li_request I) response
        else mret ()) s
    (λ _ s', st_disk s' = put_lifecycles (<[n := I]> (dk_lifecycles d0)) (applied I d0)) crashed.
Proof.
  intros M Hi Ha.
  assert (∀ d, midway I n d0 d → dk_items d = dk_items (applied I d0) →
    dk_attempts d = dk_attempts (applied I d0) → dk_receipts d = dk_receipts (applied I d0) →
    d = put_lifecycles (<[n := I]> (dk_lifecycles d0)) (applied I d0)) as Hdone.
  { intros d [_ _ H1 H2 H3 _] H4 H5 H6. destruct d; cbn in *; subst; done. }
  destruct (lifecycle_settles_service_receipt I) eqn:Hs.
  - destruct (rd_receipt _ _ _ R Hs) as (response & Hr & Hready). apply spec_bind.
    eapply spec_lift; [exact Hr|]. intros _. cbv beta.
    assert (dk_receipts (applied I d0) = settle_receipt (li_request I) response (dk_receipts d0)) as Hap.
    { cbn. unfold lifecycle_receipts. by rw Hs Hr. }
    assert (midway I n d0 (put_receipts (settle_receipt (li_request I) response (dk_receipts d0)) (st_disk s))) as M'.
    { split; cbn; try apply M. right. unfold lifecycle_receipts. by rw Hs Hr. }
    eapply spec_mono; [apply (spec_complete _ _ _ (dk_receipts d0)); [done|]| |].
    + rw -Hap. apply M.
    + intros u s' _ ->. by apply Hdone.
    + intros s' [Hc Hd]. split; [done|left]. by destruct Hd as [->| ->].
  - apply spec_ret. apply Hdone; [done..|]. cbn. unfold lifecycle_receipts. rw Hs.
    destruct (mw_receipts _ _ _ _ M) as [E|E]; rw E; [done|]. cbn. unfold lifecycle_receipts. by rw Hs.
Qed.

(** From any disk halfway, the commit ends in the applied disk. *)
Lemma spec_commit_lifecycle s :
  midway I n d0 (st_disk s) →
  spec (commit_work_lifecycle_intent I) s (λ _ s', st_disk s' = applied I d0) crashed.
Proof.
  intros M. unfold commit_work_lifecycle_intent.
  eapply spec_seq; [by apply spec_preflight|intros s'; by apply faulted_crashed|].
  intros [dg cur] s1 _ (Hs1 & Hcur & Hdg). rw -Hs1 in M Hcur Hdg.
  eapply spec_seq; [by apply (spec_write_attempts s1 cur)|done|]. intros u2 s2 _ (M2 & Hi2 & Ha2).
  rw -Hi2 in Hdg. eapply spec_seq; [by apply (spec_write_item s2 dg)|done|].
  intros u3 s3 _ (M3 & Hi3 & Ha3). apply spec_bind.
  rw (decide_False (P := li_operation I = _)); [|apply R]. apply spec_ret. intros _. cbv beta.
  eapply spec_seq; [by apply (spec_write_receipt s3)|done|]. intros u4 s4 _ Hs4.
  unfold clear_work_lifecycle_intent. apply spec_bind. eapply spec_lift; [apply (rd_name _ _ _ R)|].
  intros _. cbv beta.
  assert (put_lifecycles (delete n (dk_lifecycles (st_disk s4))) (st_disk s4) = applied I d0) as Hclear.
  { rw Hs4. unfold put_lifecycles, applied. cbn. f_equal. apply delete_insert_id, R. }
  apply spec_write_file.
  - by intros s5 ->.
  - intros s5 Hd Hc. split; [done|]. destruct Hd as [->| ->]; [left|by right]. rw Hs4.
    split; cbn; [by right|intros k; by right|done|done|done|by right].
Qed.

(** Writing the intent starts the commit. *)
Lemma spec_persist_lifecycle s :
  st_disk s = d0 →
  spec (persist_work_lifecycle_intent I) s (λ _ s', midway I n d0 (st_disk s'))
    (λ s', ¬ clean ∧ (st_disk s' = d0 ∨ midway I n d0 (st_disk s'))).
Proof.
  intros Hs. unfold persist_work_lifecycle_intent. apply spec_bind.
  eapply spec_lift; [apply (rd_valid _ _ _ R)|]. intros _. cbv beta. apply spec_bind.
  eapply spec_lift; [apply (rd_name _ _ _ R)|]. intros _. cbv beta.
  assert (midway I n d0 (put_lifecycles (<[n := I]> (dk_lifecycles d0)) d0)) as M.
  { split; cbn; [by left|intros k; by left|done|done|done|by left]. }
  apply spec_write_file; rw Hs.
  - by intros s' ->.
  - intros s' [->| ->] Hc; auto.
Qed.
End lifecycle.

(** ** The mutation commit *)

Definition decision_key (M : WorkMutationIntent) : string * string :=
  (file_of (wd_work_id (mi_decision M)), file_of (wd_decision_id (mi_decision M))).

Definition mutated (M : WorkMutationIntent) (d : Disk) : Disk := {|
  dk_items := <[item_name (mi_item M) := mi_item M]> (dk_items d); dk_attempts := dk_attempts d;
  dk_decisions := <[decision_key M := mi_decision M]> (dk_decisions d);
  dk_mutations := dk_mutations d; dk_lifecycles := dk_lifecycles d;
  dk_receipts := settle_receipt (mi_request M) (mutation_response_value M) (dk_receipts d) |}.

Record mutation_midway (M : WorkMutationIntent) (n : string) (d0 d : Disk) : Prop := {
  mm_items : dk_items d = dk_items d0 ∨ dk_items d = dk_items (mutated M d0);
  mm_attempts : dk_attempts d = dk_attempts d0;
  mm_decisions : dk_decisions d = dk_decisions d0 ∨ dk_decisions d = dk_decisions (mutated M d0);
  mm_mutations : dk_mutations d = <[n := M]> (dk_mutations d0);
  mm_lifecycles : dk_lifecycles d = dk_lifecycles d0;
  mm_receipts : dk_receipts d = dk_receipts d0 ∨ dk_receipts d = dk_receipts (mutated M d0);
}.

Record mutation_ready (M : WorkMutationIntent) (prior : WorkItem) (n : string) (d0 : Disk) : Prop := {
  mr_valid : mutation_validate M = inr ();
  mr_name : safe_id_filename (mi_intent_id M) = inr n;
  mr_free : dk_mutations d0 !! n = None;
  mr_items_wf : items_wf (dk_items d0);
  mr_prior : dk_items d0 !! item_name prior = Some prior;
  mr_work : wi_work_id prior = mi_work_id M;
  mr_digest : mi_prior_item_digest M = item_digest prior;
  mr_revision : mi_expected_revision M = wi_revision prior;
  mr_deps : wi_dependencies prior = wi_dependencies (mi_item M);
  mr_decision : dk_decisions d0 !! decision_key M = None;
  mr_receipt : receipt_ready (mi_request M) (mutation_response_value M) (dk_receipts d0);
}.

Section mutation.
Context (M : WorkMutationIntent) (prior : WorkItem) (n : string) (d0 : Disk)
  (R : mutation_ready M prior n d0).

Lemma mutation_valid :
  item_validate (mi_item M) = inr () ∧ decision_validate (mi_decision M) = inr ()
  ∧ wi_work_id (mi_item M) = mi_work_id M ∧ wd_work_id (mi_decision M) = mi_work_id M
  ∧ mi_next_item_digest M = item_digest (mi_item M)
  ∧ mi_decision_digest M = decision_digest (mi_decision M).
Proof.
  pose proof (mr_valid _ _ _ _ R) as H. unfold mutation_validate in H.
  apply ores_bind_inr in H as (? & _ & H). apply ores_bind_inr in H as ([] & H1 & H).
  apply ores_bind_inr in H as ([] & H2 & H). apply ores_bind_inr in H as (? & H3%refuse_if_inr & H).
  apply refuse_if_inr in H. rw !orb_false_iff !bool_decide_eq_false in H3. rw !orb_false_iff !bool_decide_eq_false in H.
  destruct H3 as [[[[[? ?] _] _] _] _], H as [? ?].
  split_and!; try done; apply dec_stable; naive_solver.
Qed.

Lemma mutation_item_name : item_name prior = item_name (mi_item M).
Proof. unfold item_name. destruct mutation_valid as (_ & _ & -> & _). by rw (mr_work _ _ _ _ R). Qed.

Definition mutation_crashed (s : Store) : Prop :=
  ¬ clean ∧ (mutation_midway M n d0 (st_disk s) ∨ st_disk s = mutated M d0).

Lemma mutation_midway_wf d : mutation_midway M n d0 d → items_wf (dk_items d).
Proof.
  intros H. destruct (mm_items _ _ _ _ H) as [->| ->]; [apply R|].
  apply map_Forall_insert_2; [|apply R]. by destruct mutation_valid as (? & _).
Qed.

Lemma mutation_midway_item d : mutation_midway M n d0 d →
  ∃ c, dk_items d !! item_name (mi_item M) = Some c
    ∧ (c = prior ∧ dk_items d = dk_items d0 ∨ c = mi_item M ∧ dk_items d = dk_items (mutated M d0)).
Proof.
  intros H. destruct (mm_items _ _ _ _ H) as [->| ->].
  - exists prior. rw -mutation_item_name. split; [apply R|by left].
  - exists (mi_item M). cbn. rw lookup_insert_eq. split; [done|by right].
Qed.

(** The decision is stored, or was stored by an earlier try. *)
Lemma spec_store_decision s stored :
  mutation_midway M n d0 (st_disk s) → stored = dk_decisions (st_disk s) !! decision_key M →
  spec (match stored with
        | Some decision =>
            lift (ensure_not (bool_decide (decision_digest decision ≠ mi_decision_digest M)
                              || bool_decide (decision ≠ mi_decision M))
                    (conflict "work mutation recovery found a conflicting decision receipt"))
        | None => note_partial_commit (save_work_decision (mi_decision M))
        end) s
    (λ _ s', mutation_midway M n d0 (st_disk s') ∧ dk_items (st_disk s') = dk_items (st_disk s)
       ∧ dk_decisions (st_disk s') = dk_decisions (mutated M d0)) mutation_crashed.
Proof.
  intros H ->. destruct mutation_valid as (_ & Hdv & _ & _ & _ & Hdd).
  destruct (mm_decisions _ _ _ _ H) as [E|E]; rw E.
  - rw (mr_decision _ _ _ _ R). apply spec_note; [|done]. unfold save_work_decision.
    rw Hdv (decision_validate_name _ _ Hdv). apply spec_bind. eapply spec_lift; [done|]. intros _. cbv beta.
    apply spec_bind. eapply spec_lift; [done|]. intros _. cbv beta.
    assert (mutation_midway M n d0 (put_decision (decision_key M) (mi_decision M) (st_disk s))) as H'.
    { split; cbn; try apply H. right. by rw E. }
    apply spec_write_file.
    + intros s' ->. split_and!; [done..|]. cbn. by rw E.
    + intros s' Hd Hc. split; [done|left]. by destruct Hd as [->| ->].
  - cbn. rw lookup_insert_eq. eapply spec_lift; [|done].
    by rw !bool_decide_eq_false_2; [|naive_solver..].
Qed.

Lemma spec_commit_mutation s :
  mutation_midway M n d0 (st_disk s) →
  spec (commit_work_mutation_intent M) s (λ _ s', st_disk s' = mutated M d0) mutation_crashed.
Proof.
  intros H. destruct mutation_valid as (Hiv & Hdv & Hiw & Hdw & Hnd & Hdd).
  destruct (mutation_midway_item _ H) as (c & Hc & Hcases).
  assert (∀ d s', mutation_midway M n d0 d → faulted d s' → mutation_crashed s') as Hf.
  { intros d s' Hm [E ?]. split; [done|left]. by rw E. }
  unfold commit_work_mutation_intent. apply spec_bind. eapply spec_lift; [apply R|]. intros _. cbv beta.
  eapply spec_seq; [apply (spec_load_item _ (item_name (mi_item M)))|intros s'; by apply Hf|].
  { rw -Hiw. by eapply item_validate_name. } { by apply mutation_midway_wf. }
  intros o s1 _ [-> Hs1]. rw Hc. cbv zeta. cbn [fmap option_fmap option_map].
  rw (mr_digest _ _ _ _ R) Hnd (mr_revision _ _ _ _ R). apply spec_bind. eapply (spec_lift _ _ _ _ ()).
  { unfold ensure_not. rw (proj2 (andb_false_iff _ _)); [done|]. rw !bool_decide_eq_false. naive_solver. }
  intros _. cbv beta. apply spec_bind. eapply (spec_lift _ _ _ _ ()).
  { unfold ensure_not. rw (proj2 (andb_false_iff _ _)); [done|]. rw !bool_decide_eq_false.
    destruct (decide (item_digest c = item_digest prior)) as [->%(inj item_digest)|]; [right|left]; naive_solver. }
  intros _. cbv beta. unfold load_work_decision. rw -Hdw (decision_validate_name _ _ Hdv).
  eapply (spec_seq _ _ _ (λ o s', o = dk_decisions (st_disk s) !! decision_key M
    ∧ st_disk s' = st_disk s) _ _ mutation_crashed).
  { apply spec_bind. eapply spec_lift; [done|]. intros _. cbv beta. apply spec_bind, spec_read_file.
    - intros s2 Hs2 _. cbv beta. rw Hs1. fold (decision_key M).
      destruct (dk_decisions (st_disk s) !! decision_key M) as [d|] eqn:E; [|apply spec_ret; split; [done|congruence]].
      apply spec_bind. eapply spec_lift; [|intros _; apply spec_ret; split; [done|congruence]].
      destruct (mm_decisions _ _ _ _ H) as [E'|E']; rw E' in E; [by rw (mr_decision _ _ _ _ R) in E|].
      cbn in E. rw lookup_insert_eq in E. by injection E as <-.
    - intros s2 Hs2 Hcl. apply (Hf (st_disk s)); [done|]. split; [by rw Hs2|done]. }
  { done. }
  intros stored s2 _ [Hst Hs2]. rw -Hs2 in H Hst Hcases.
  eapply spec_seq; [by apply (spec_store_decision s2 stored)|done|]. intros u3 s3 _ (H3 & Hi3 & Hd3).
  rw -Hi3 in Hcases.
  eapply (spec_seq _ _ _ (λ _ s', mutation_midway M n d0 (st_disk s')
    ∧ dk_items (st_disk s') = dk_items (mutated M d0)
    ∧ dk_decisions (st_disk s') = dk_decisions (mutated M d0))); [|done|].
  { destruct (decide (Some (item_digest c) = Some (item_digest (mi_item M)))) as [E|E].
    - apply spec_ret. split_and!; [done| |done]. injection E as ->%(inj item_digest).
      destruct Hcases as [[E Hi]|[_ Hi]]; [|done]. rw Hi. cbn. rw insert_id; [done|].
      rw -mutation_item_name E. apply R.
    - destruct Hcases as [[-> Hi]|[-> _]]; [|done]. apply spec_note; [|done].
      assert (mutation_midway M n d0 (put_item (item_name (mi_item M)) (mi_item M) (st_disk s3))) as H'.
      { split; cbn; try apply H3. right. by rw Hi. }
      eapply spec_mono; [apply (spec_save_item _ prior)| |].
      + done.
      + by apply mutation_midway_wf.
      + rw Hi -mutation_item_name. apply R.
      + apply R.
      + intros u s' _ ->. split_and!; [done| |done]. cbn. by rw Hi.
      + intros s' [Hcl Hd]. split; [done|left]. by destruct Hd as [->| ->]. }
  intros u4 s4 _ (H4 & Hi4 & Hd4).
  eapply spec_seq; [apply (spec_complete _ _ _ (dk_receipts d0)); [apply R|apply H4]| |].
  { intros s' [Hcl Hd]. split; [done|left]. destruct Hd as [->| ->]; [done|].
    split; cbn; try apply H4. by right. }
  intros u5 s5 _ Hs5. unfold clear_work_mutation_intent. apply spec_bind.
  eapply spec_lift; [apply R|]. intros _. cbv beta.
  assert (st_disk s5 = put_mutations (<[n := M]> (dk_mutations d0)) (mutated M d0)) as E5.
  { rw Hs5. destruct H4 as [_ ? _ ? ? _]. destruct (st_disk s4); cbn in *; subst; done. }
  apply spec_write_file; rw E5.
  - intros s6 ->. unfold put_mutations, mutated. cbn. f_equal. apply delete_insert_id, R.
  - intros s6 Hd Hcl. split; [done|]. destruct Hd as [->| ->]; [left|right].
    + split; cbn; [by right|done|by right|done|done|by right].
    + unfold put_mutations, mutated. cbn. f_equal. apply delete_insert_id, R.
Qed.

Lemma spec_persist_mutation s :
  st_disk s = d0 →
  spec (persist_work_mutation_intent M) s (λ _ s', mutation_midway M n d0 (st_disk s'))
    (λ s', ¬ clean ∧ (st_disk s' = d0 ∨ mutation_midway M n d0 (st_disk s'))).
Proof.
  intros Hs. unfold persist_work_mutation_intent. apply spec_bind.
  eapply spec_lift; [apply (mr_valid _ _ _ _ R)|]. intros _. cbv beta. apply spec_bind.
  eapply spec_lift; [apply (mr_name _ _ _ _ R)|]. intros _. cbv beta.
  assert (mutation_midway M n d0 (put_mutations (<[n := M]> (dk_mutations d0)) d0)) as H.
  { split; cbn; [by left|done|by left|done|done|by left]. }
  apply spec_write_file; rw Hs.
  - by intros s' ->.
  - intros s' [->| ->] Hc; auto.
Qed.
End mutation.
End commit.
