(* ===== verification/LedgerRecovery.v ===== *)
(** * Recovery of the work ledger

    [open] replays the pending intents.  Whatever a commit left behind, and
    however often recovery itself is interrupted, the next replay that meets no
    fault ends in the disk the commit aimed at. *)

From S2P Require Import Prelude Text Window Ids Workload WorkGraph GraphFacts Ledger LedgerStore.
From S2P Require Import LedgerLogic LedgerCommit.

Section recovery.
Context {SH : Sha256} {DG : LedgerDigests} {FS : FileSystem} {ENV : LedgerEnv}
  {MS : ManagedSettlement} {EL : LedgerEnvLaws} {DL : LedgerDigestsLaws}.

(** No intent is pending. *)
Definition settled (d : Disk) : Prop := dk_mutations d = ∅ ∧ dk_lifecycles d = ∅.

(** [d] is halfway between [d0] and [d1]. *)
Inductive pending (d0 d : Disk) : Disk → Prop :=
  | pending_lifecycle I n : ready I n d0 → midway I n d0 d → pending d0 d (applied I d0)
  | pending_mutation M prior n :
      mutation_ready M prior n d0 → mutation_midway M n d0 d → pending d0 d (mutated M d0).

Lemma spec_read_none {A} (sel : Disk → gmap string A) s :
  sel (st_disk s) = ∅ →
  spec (read_dir sel) s (λ names s', names = [] ∧ st_disk s' = st_disk s) (faulted (st_disk s)).
Proof.
  intros Hs. eapply spec_mono; [apply spec_read_dir| |done]. intros names s' _ [Hn ->].
  rw Hs map_to_list_empty in Hn. by apply Permutation_nil_r in Hn as ->.
Qed.

Lemma spec_read_one {A} (sel : Disk → gmap string A) s n x :
  sel (st_disk s) = {[ n := x ]} →
  spec (read_dir sel) s (λ names s', names = [n] ∧ st_disk s' = st_disk s) (faulted (st_disk s)).
Proof.
  intros Hs. eapply spec_mono; [apply spec_read_dir| |done]. intros names s' _ [Hn ->].
  rw Hs map_to_list_singleton in Hn. by apply Permutation_singleton_r in Hn as ->.
Qed.

Lemma spec_read_intent {A} (sel : Disk → gmap string A) s n x :
  sel (st_disk s) !! n = Some x →
  spec (read_entry sel (λ _, inr ()) n) s (λ y s', y = x ∧ st_disk s' = st_disk s) (faulted (st_disk s)).
Proof.
  intros Hs. unfold read_entry. apply spec_bind, spec_read_file; [|done].
  intros s1 Hs1 _. cbv beta. rw Hs. apply spec_bind. eapply spec_lift; [done|]. intros _. by apply spec_ret.
Qed.

Lemma spec_no_mutations s :
  dk_mutations (st_disk s) = ∅ →
  spec recover_work_mutation_intents s (λ _ s', st_disk s' = st_disk s) (faulted (st_disk s)).
Proof.
  intros Hs. unfold recover_work_mutation_intents.
  eapply spec_seq; [by apply spec_read_none|done|]. intros names s1 _ [-> Hs1]. by apply spec_ret.
Qed.

Lemma spec_no_lifecycles s :
  dk_lifecycles (st_disk s) = ∅ →
  spec recover_work_lifecycle_intents s (λ _ s', st_disk s' = st_disk s) (faulted (st_disk s)).
Proof.
  intros Hs. unfold recover_work_lifecycle_intents.
  eapply spec_seq; [by apply spec_read_none|done|]. intros names s1 _ [-> Hs1].
  apply spec_bind. cbn [collect]. apply spec_ret. intros _. by apply spec_ret.
Qed.

(** An interrupted recovery. *)
Definition interrupted (d0 d1 : Disk) (s : Store) : Prop :=
  ¬ clean ∧ (pending d0 (st_disk s) d1 ∨ st_disk s = d1).

Lemma faulted_interrupted d0 d1 d s : pending d0 d d1 → faulted d s → interrupted d0 d1 s.
Proof. intros P [E Hc]. split; [done|left]. by rw E. Qed.

Lemma spec_recover_lifecycle I n d0 s :
  ready I n d0 → midway I n d0 (st_disk s) → settled d0 →
  spec recover_work_lifecycle_intents s (λ _ s', st_disk s' = applied I d0)
    (interrupted d0 (applied I d0)).
Proof.
  intros R M [_ Hl]. assert (dk_lifecycles (st_disk s) = {[ n := I ]}) as Hs.
  { by rw (mw_lifecycles _ _ _ _ M) Hl. }
  assert (∀ s', faulted (st_disk s) s' → interrupted d0 (applied I d0) s') as Hf.
  { intros s'. apply faulted_interrupted. by eapply pending_lifecycle. }
  unfold recover_work_lifecycle_intents.
  eapply spec_seq; [by apply (spec_read_one _ _ n I)|done|]. intros names s1 _ [-> Hs1].
  eapply (spec_seq _ _ _ (λ l s', l = [I] ∧ st_disk s' = st_disk s)); [|done|].
  { cbn [collect]. eapply spec_seq; [apply (spec_read_intent _ _ n I); by rw Hs1 Hs lookup_singleton_eq|by rw Hs1|].
    intros I' s2 _ [-> Hs2]. apply spec_bind, spec_ret. intros _. apply spec_ret. split; [done|congruence]. }
  intros l s2 _ [-> Hs2]. cbn [sort_by foldr insert_by for_each]. rw -Hs2 in M.
  eapply spec_seq; [by apply (spec_commit_lifecycle I n d0 R)| |].
  { intros s' [Hc Hd]. split; [done|]. destruct Hd; [left; by eapply pending_lifecycle|by right]. }
  intros u s3 _ Hs3. by apply spec_ret.
Qed.

Lemma spec_recover_mutation M prior n d0 s :
  mutation_ready M prior n d0 → mutation_midway M n d0 (st_disk s) → settled d0 →
  spec recover_work_mutation_intents s (λ _ s', st_disk s' = mutated M d0)
    (interrupted d0 (mutated M d0)).
Proof.
  intros R Hm [Hl _]. assert (dk_mutations (st_disk s) = {[ n := M ]}) as Hs.
  { by rw (mm_mutations _ _ _ _ Hm) Hl. }
  assert (∀ s', faulted (st_disk s) s' → interrupted d0 (mutated M d0) s') as Hf.
  { intros s'. apply faulted_interrupted. by eapply pending_mutation. }
  unfold recover_work_mutation_intents.
  eapply spec_seq; [by apply (spec_read_one _ _ n M)|done|]. intros names s1 _ [-> Hs1].
  cbn [for_each]. eapply (spec_seq _ _ _ (λ _ s', st_disk s' = mutated M d0) _ _ (interrupted d0 (mutated M d0)));
    [|done|].
  { eapply spec_seq; [apply (spec_read_intent _ _ n M); by rw Hs1 Hs lookup_singleton_eq|by rw Hs1|].
    intros M' s2 _ [-> Hs2]. rw -Hs1 -Hs2 in Hm.
    eapply spec_mono; [by apply (spec_commit_mutation M prior n d0 R)|done|].
    intros s' [Hc Hd]. split; [done|]. destruct Hd; [left; by eapply pending_mutation|by right]. }
  intros u s3 _ Hs3. by apply spec_ret.
Qed.

(** [open] completes a pending change. *)
Lemma spec_reopen d0 d1 s :
  pending d0 (st_disk s) d1 → settled d0 →
  spec reopen s (λ _ s', st_disk s' = d1) (interrupted d0 d1).
Proof.
  intros P Hset. change (spec (_ ← recover_work_mutation_intents; recover_work_lifecycle_intents)
    (with_closed None s) (λ _ s', st_disk s' = d1) (interrupted d0 d1)).
  change (st_disk s) with (st_disk (with_closed None s)) in P. revert P.
  generalize (with_closed None s). clear s. intros s P.
  pose proof P as Hint. destruct P as [I n R M|M prior n R Hm].
  - eapply spec_seq; [apply spec_no_mutations; rw (mw_mutations _ _ _ _ M); apply Hset| |].
    + intros s'. by apply faulted_interrupted.
    + intros u s1 _ Hs1. rw -Hs1 in M. by eapply spec_recover_lifecycle.
  - eapply spec_seq; [by eapply spec_recover_mutation|done|]. intros u s1 _ Hs1.
    eapply spec_mono; [apply spec_no_lifecycles; rw Hs1; apply Hset| |].
    + intros ? s' _ ->. by rw Hs1.
    + intros s' [E Hc]. split; [done|]. right. by rw E Hs1.
Qed.

(** On a settled disk there is nothing to do. *)
Lemma spec_reopen_settled s :
  settled (st_disk s) → spec reopen s (λ _ s', st_disk s' = st_disk s) (faulted (st_disk s)).
Proof.
  intros [H1 H2]. change (spec (_ ← recover_work_mutation_intents; recover_work_lifecycle_intents)
    (with_closed None s) (λ _ s', st_disk s' = st_disk s) (faulted (st_disk s))).
  eapply spec_seq; [by apply spec_no_mutations|done|]. intros u s1 _ Hs1.
  eapply spec_mono; [apply spec_no_lifecycles; by rw Hs1| |].
  - intros ? s' _ ->. by rw Hs1.
  - intros s' [E Hc]. split; [|done]. by rw E Hs1.
Qed.
End recovery.
