(* ===== verification/LedgerSpec.v ===== *)
(** * The life of a work item

    What one committed change of the ledger may do to an item and its attempts:
    a rule per operation of [LedgerOps], without files, faults or intents.  The
    invariants of the ledger are proved here by induction on runs; that the
    operations of the store follow the rules is [LedgerRefine]. *)

From S2P Require Import Prelude Text Window Ids Workload WorkGraph Ledger LedgerStore.
From S2P Require Import LedgerStore LedgerOps LedgerCommit LedgerRecovery.

(** [na] is [pa] with the attempt [a] replaced by its new version. *)
Definition swapped (pa : list WorkAttempt) (a a' : WorkAttempt) (na : list WorkAttempt) : Prop :=
  a ∈ pa ∧ wt_attempt_id a' = wt_attempt_id a
  ∧ ∀ x, x ∈ na ↔ x = a' ∨ (x ∈ pa ∧ wt_attempt_id x ≠ wt_attempt_id a).

(** The evidence behind success: applied and approved checks where the policy
    requires checks, else an approval or verified evidence about this item. *)
Definition success_backed (i : WorkItem) : Prop :=
  if decide (wp_required_checks (wi_policy i) ≠ []) then
    ∃ r v, wi_result i = Some r ∧ wr_candidate_verification r = Some v ∧ cv_applied v = true
      ∧ cv_checks_passed v = true ∧ cv_invalidated v = false
      ∧ (wi_approval i ≫= wa_candidate_digest) = Some (cv_content_digest v)
  else
    is_Some (wi_approval i)
    ∨ ∃ r e, wi_result i = Some r ∧ wr_failure r = None ∧ wr_cancellation_reason r = None
        ∧ wr_verification r = Some e ∧ evidence_authorizes_success e = true
        ∧ ce_work_id e = Some (wi_work_id i) ∧ is_Some (ce_run_id e).

(** The decisions of operators and agents. *)
Inductive decided (i : WorkItem) : WorkItem → Prop :=
  | dec_offer agent j : offer_mutation agent i = inr j → decided i j
  | dec_accept agent j : accept_mutation agent i = inr j → decided i j
  | dec_decline agent j : decline_mutation agent i = inr j → decided i j
  | dec_reassign agent j : reassign_mutation agent i = inr j → decided i j
  | dec_reprioritize p j : reprioritize_mutation p i = inr j → decided i j
  | dec_block reason j : block_mutation reason i = inr j → decided i j
  | dec_unblock j : unblock_mutation i = inr j → decided i j
  | dec_review j : review_mutation i = inr j → decided i j
  | dec_authorize : decided i i.

(** One committed change at the time [t]: the item [i] with the attempts [pa]
    becomes the item and the attempts of the conclusion. *)
Inductive transition (t : DateTime) (i : WorkItem) (pa : list WorkAttempt)
    : WorkItem → list WorkAttempt → Prop :=
  | tr_assign assigned status u :
      work_is_terminal (wi_state i) = false →
      transition t i pa (bump_at (set_assignment assigned status i) u) pa
  | tr_decide j id u : decided i j → transition t i pa (bump_at (set_decision (Some id) j) u) pa
  | tr_wait admission j u :
      work_is_terminal (wi_state i) = false → refresh_wait i admission = Some j →
      transition t i pa (bump_at j u) pa
  | tr_deadline now j u : refresh_deadline i now = Some j → transition t i pa (bump_at j u) pa
  | tr_expire a now u na :
      requires_lease_heartbeat (wt_state a) = true → (wt_lease_expires_at a ≤ now)%Z →
      swapped pa a (expired a now) na → transition t i pa (bump_at (expired_item i a now) u) na
  | tr_expire_terminal a now na :
      work_is_terminal (wi_state i) = true →
      requires_lease_heartbeat (wt_state a) = true → (wt_lease_expires_at a ≤ now)%Z →
      swapped pa a (expired a now) na → transition t i pa i na
  | tr_claim a states u :
      wi_is_container i = false → wi_state i = WQueued →
      evaluate_admission i states t = Admissible →
      is_claimable_by (wi_assignment_status i) (wi_assigned_agent_id i) (wt_claimant_id a) = inr () →
      (∀ b, b ∈ pa → lease_active_at b t = false) →
      wt_attempt_id a ∉ wt_attempt_id <$> pa → wt_work_id a = wi_work_id i →
      wt_attempt_number a = (wi_attempt_count i + 1)%Z → wt_state a = ALeased →
      wt_acquired_at a = t → (t < wt_lease_expires_at a ≤ t + MAX_WORK_LEASE_MS * 10 ^ 6)%Z →
      transition t i pa (bump_at (set_state WLeased (set_attempt_count (wt_attempt_number a) i)) u)
        (pa ++ [a])
  | tr_renew a lease na :
      lease_active_at a t = true → swapped pa a (att_lease t (t + lease)%Z a) na →
      transition t i pa i na
  | tr_link a run a' na :
      lease_active_at a t = true → linked run t a = inr a' → swapped pa a a' na →
      transition t i pa i na
  | tr_progress a progress u na :
      lease_active_at a t = true → swapped pa a (att_progress (Some progress) t a) na →
      transition t i pa (bump_at (set_state WRunning (set_progress (Some progress) i)) u) na
  | tr_park a reason u na :
      lease_active_at a t = true → swapped pa a (att_park t a) na →
      transition t i pa
        (bump_at (set_block (wi_block_provenance i) (Some reason) (set_state WAwaitingInput i)) u) na
  | tr_release a reason u na :
      lease_active_at a t = true → swapped pa a (att_close AReleased (Some reason) t a) na →
      transition t i pa (bump_at (set_state WQueued i) u) na
  | tr_fail a result state u na :
      lease_active_at a t = true → state = WQueued ∨ state = WFailed →
      swapped pa a (att_close AFailed (wr_failure result) t (att_result (Some result) t a)) na →
      transition t i pa (bump_at (set_state state (set_result (Some result) i)) u) na
  | tr_complete a result u na :
      lease_active_at a t = true →
      swapped pa a (att_state (ordinary_completion_states i).1 (att_result (Some result) t a)) na →
      transition t i pa
        (bump_at (set_state (ordinary_completion_states i).2 (set_result (Some result) i)) u) na
  | tr_succeed a result u na :
      lease_active_at a t = true → wp_requires_approval (wi_policy i) = false →
      success_backed (set_state WSucceeded (set_result (Some result) i)) →
      swapped pa a (att_state ASucceeded (att_result (Some result) t a)) na →
      transition t i pa (bump_at (set_state WSucceeded (set_result (Some result) i)) u) na
  | tr_retry u :
      wi_state i = WFailed → (wi_attempt_count i < rt_max_attempts (wp_retry (wi_policy i)))%Z →
      transition t i pa (bump_at (set_approval None (set_result None (set_state WQueued i))) u) pa
  | tr_approve a approval reason now u na :
      wi_state i = WAwaitingApproval → wp_required_checks (wi_policy i) = [] →
      wt_state a = AAwaitingApproval →
      swapped pa a (att_state ASucceeded (att_reason reason now a)) na →
      transition t i pa (bump_at (set_state WSucceeded (set_approval (Some approval) i)) u) na
  | tr_approve_candidate a approval reason now u na :
      wi_state i = WAwaitingApproval → wt_state a = AAwaitingApproval →
      swapped pa a (att_reason reason now a) na →
      transition t i pa (bump_at (set_approval (Some approval) i) u) na
  | tr_cancel reason now u :
      work_is_terminal (wi_state i) = false →
      transition t i pa
        (bump_at (set_result (Some (cancellation_result reason now)) (set_state WCancelled i)) u)
        (cancel_attempt reason now <$> pa).
Create HintDb ledger.
#[export] Hint Constructors transition decided : ledger.

(** ** Attempts under a transition *)

(** At most one lease is live, and attempts are numbered [1 .. c] without
    repetition. *)
Record att_inv (t : DateTime) (c : Z) (l : list WorkAttempt) : Prop := {
  ai_excl a b : a ∈ l → b ∈ l → lease_active_at a t = true → lease_active_at b t = true →
    wt_attempt_id a = wt_attempt_id b;
  ai_numbers a : a ∈ l → (1 ≤ wt_attempt_number a ≤ c)%Z;
  ai_distinct a b : a ∈ l → b ∈ l → wt_attempt_number a = wt_attempt_number b →
    wt_attempt_id a = wt_attempt_id b;
}.

Lemma lease_active_true a t :
  lease_active_at a t = true ↔ attempt_is_active (wt_state a) = true ∧ (t < wt_lease_expires_at a)%Z.
Proof. unfold lease_active_at. by rw andb_true_iff bool_decide_eq_true. Qed.

Lemma lease_active_mono a t t' : (t ≤ t')%Z → lease_active_at a t' = true → lease_active_at a t = true.
Proof. rw !lease_active_true. intros. split; [tauto|lia]. Qed.

Lemma heartbeat_active s : requires_lease_heartbeat s = true → attempt_is_active s = true.
Proof. by destruct s. Qed.

Lemma att_inv_mono t t' c l : (t ≤ t')%Z → att_inv t c l → att_inv t' c l.
Proof. intros Ht [H1 H2 H3]. split; [|done..]. intros. apply H1; eauto using lease_active_mono. Qed.

Lemma att_inv_swapped t c pa a a' na :
  att_inv t c pa → swapped pa a a' na → wt_attempt_number a' = wt_attempt_number a →
  (lease_active_at a' t = true → lease_active_at a t = true) → att_inv t c na.
Proof.
  intros [H1 H2 H3] (Ha & Hid & Hna) Hn Hl.
  assert (∀ x, x ∈ na → ∃ y, y ∈ pa ∧ wt_attempt_id y = wt_attempt_id x
    ∧ wt_attempt_number y = wt_attempt_number x
    ∧ (lease_active_at x t = true → lease_active_at y t = true)) as Hold.
  { intros x [->|[Hx _]]%Hna; [by exists a|by exists x]. }
  split.
  - intros x y (x' & Hx & <- & _ & Hx')%Hold (y' & Hy & <- & _ & Hy')%Hold ??. eauto.
  - intros x (x' & Hx & _ & <- & _)%Hold. auto.
  - intros x y (x' & Hx & <- & <- & _)%Hold (y' & Hy & <- & <- & _)%Hold ?. eauto.
Qed.

Lemma cancel_attempt_id reason now a : wt_attempt_id (cancel_attempt reason now a) = wt_attempt_id a.
Proof. unfold cancel_attempt. by case_match. Qed.
Lemma cancel_attempt_number reason now a :
  wt_attempt_number (cancel_attempt reason now a) = wt_attempt_number a.
Proof. unfold cancel_attempt. by case_match. Qed.
Lemma cancel_attempt_closed reason now a :
  attempt_is_active (wt_state (cancel_attempt reason now a)) = false.
Proof. unfold cancel_attempt. by case_match. Qed.

Lemma att_inv_cancel t c reason now pa : att_inv t c pa → att_inv t c (cancel_attempt reason now <$> pa).
Proof.
  intros [H1 H2 H3]. split.
  - intros a b (x & -> & _)%list_elem_of_fmap _. rw lease_active_true cancel_attempt_closed. naive_solver.
  - intros a (x & -> & ?)%list_elem_of_fmap. rw cancel_attempt_number. auto.
  - intros a b (x & -> & ?)%list_elem_of_fmap (y & -> & ?)%list_elem_of_fmap.
    rw !cancel_attempt_number !cancel_attempt_id. auto.
Qed.

Lemma att_inv_claim t c pa a :
  att_inv t c pa → (∀ b, b ∈ pa → lease_active_at b t = false) → (0 ≤ c)%Z →
  wt_attempt_number a = (c + 1)%Z → att_inv t (c + 1) (pa ++ [a]).
Proof.
  intros [H1 H2 H3] Hb Hc Hn.
  assert (∀ x, x ∈ pa ++ [a] ↔ x ∈ pa ∨ x = a) as Hin by set_solver. split.
  - intros x y [Hx| ->]%Hin [Hy| ->]%Hin; [by rw (Hb x)|by rw (Hb x)|by rw (Hb y)|done].
  - intros x [Hx| ->]%Hin; [apply H2 in Hx|]; lia.
  - intros x y [Hx| ->]%Hin [Hy| ->]%Hin E; [by apply H3|apply H2 in Hx; lia|apply H2 in Hy; lia|done].
Qed.

(** ** The item under a transition *)

(** What never changes after creation. *)
Definition same_core (i j : WorkItem) : Prop :=
  wi_work_id j = wi_work_id i ∧ wi_session_id j = wi_session_id i ∧ wi_workspace j = wi_workspace i
  ∧ wi_created_by j = wi_created_by i ∧ wi_policy j = wi_policy i
  ∧ wi_dependencies j = wi_dependencies i ∧ wi_deadline j = wi_deadline i
  ∧ wi_is_container j = wi_is_container i.

(** The parts success rests on. *)
Definition same_success (i j : WorkItem) : Prop :=
  wi_state j = wi_state i ∧ wi_result j = wi_result i ∧ wi_approval j = wi_approval i.

Lemma ensure_not_inr b e u : ensure_not b e = inr u ↔ b = false.
Proof. unfold ensure_not. destruct u, b; naive_solver. Qed.

(** Take apart a chain of checks that succeeded. *)
Ltac checks H :=
  repeat match type of H with
  | _ ≫= _ = inr _ => apply ores_bind_inr in H as ([] & ?Hc & H)
  end;
  repeat match goal with
  | Hc : ensure_not _ _ = inr _ |- _ => apply ensure_not_inr in Hc
  | Hc : refuse_if _ _ = inr _ |- _ => apply refuse_if_inr in Hc
  end;
  try (apply (inj inr) in H; subst).

Lemma decided_facts i j : decided i j →
  same_core i j ∧ wi_attempt_count j = wi_attempt_count i ∧ wi_revision j = wi_revision i
  ∧ (same_success i j ∨ (wi_state i ≠ WCancelled
       ∧ (wi_state j = WBlocked ∨ wi_state j = WQueued ∨ wi_state j = WReview))).
Proof.
  assert (∀ s, is_state s i = true → wi_state i = s) as Hs.
  { intros s H%bool_decide_eq_true_1. done. }
  intros H. destruct H as [agent j H|agent j H|agent j H|agent j H|p j H|reason j H|j H|j H|];
    try (split; [done|]; split; [done|]; split; [done|]; left; done);
    unfold offer_mutation, accept_mutation, decline_mutation, reassign_mutation,
      reprioritize_mutation, block_mutation, unblock_mutation, review_mutation in H; checks H;
    (split; [done|]); (split; [done|]); (split; [done|]); try (left; done); right; cbn; (split; [|tauto]).
  - destruct (wi_state i); done.
  - apply negb_false_iff, Hs in Hc. congruence.
  - apply negb_false_iff in Hc. rw !orb_true_iff in Hc.
    destruct Hc as [[Hc|Hc]|Hc]; apply Hs in Hc; congruence.
Qed.

Lemma refresh_wait_facts i admission j : refresh_wait i admission = Some j →
  same_core i j ∧ wi_attempt_count j = wi_attempt_count i ∧ wi_revision j = wi_revision i
  ∧ wi_state i ≠ WCancelled ∧ (wi_state j = WBlocked ∨ wi_state j = WQueued).
Proof.
  unfold refresh_wait. intros H.
  assert (∀ b s, b && bool_decide (wi_state i = s) = true → wi_state i = s) as Hs.
  { intros b s [_ ?%bool_decide_eq_true_1]%andb_true_iff. done. }
  case_match eqn:E1; [|case_match eqn:E2; [|case_match eqn:E3; [|done]]];
    [apply Hs in E1|apply Hs in E2|apply Hs in E3; case_match; [|done]];
    injection H as <-; (split; [done|]); (split; [done|]); (split; [done|]); cbn; split; auto;
    congruence.
Qed.

Lemma refresh_deadline_facts i now j : refresh_deadline i now = Some j →
  same_core i j ∧ wi_attempt_count j = wi_attempt_count i ∧ wi_revision j = wi_revision i
  ∧ work_is_terminal (wi_state i) = false ∧ wi_state j = WFailed.
Proof.
  unfold refresh_deadline. destruct (_ && _ && _) eqn:E; [|done]. intros [= <-].
  rw !andb_true_iff !negb_true_iff in E. destruct E as [[_ E] _].
  (split; [done|]). (split; [done|]). (split; [done|]). by split.
Qed.

Lemma expired_item_facts i a now :
  same_core i (expired_item i a now) ∧ wi_attempt_count (expired_item i a now) = wi_attempt_count i
  ∧ wi_revision (expired_item i a now) = wi_revision i
  ∧ (wi_state (expired_item i a now) = WQueued ∨ wi_state (expired_item i a now) = WFailed).
Proof. unfold expired_item. destruct (_ && _); (split; [done|]); cbn; auto. Qed.

Lemma linked_facts run now a a' : linked run now a = inr a' →
  wt_attempt_id a' = wt_attempt_id a ∧ wt_attempt_number a' = wt_attempt_number a
  ∧ wt_work_id a' = wt_work_id a
  ∧ (wt_state a' = wt_state a ∨ wt_state a = ALeased ∧ wt_state a' = ARunning).
Proof.
  unfold linked. intros (runs & _ & [= <-])%ores_bind_inr. cbn. case_decide; naive_solver.
Qed.

(** Identity and policy are fixed, and a change of the item moves its revision
    by one (until the largest [u64]). *)
Lemma transition_core t i pa j na : transition t i pa j na →
  same_core i j ∧ (j = i ∨ wi_revision j = saturating_add (wi_revision i) 1).
Proof.
  intros H. destruct H; try (split; [done|by right]); try (split; [done|by left]).
  - destruct (decided_facts _ _ H) as (? & _ & ? & _). split; [done|right]. cbn. by f_equal.
  - apply refresh_wait_facts in H0 as (? & _ & ? & _). split; [done|right]. cbn. by f_equal.
  - apply refresh_deadline_facts in H as (? & _ & ? & _). split; [done|right]. cbn. by f_equal.
  - destruct (expired_item_facts i a now) as (? & _ & ? & _). split; [done|right]. cbn. by f_equal.
Qed.

Lemma success_backed_ext i j :
  same_core i j → wi_result j = wi_result i → wi_approval j = wi_approval i →
  success_backed i → success_backed j.
Proof.
  intros (Hw & _ & _ & _ & Hp & _) Hr Ha. unfold success_backed. by rw Hw Hp Hr Ha.
Qed.

(** ** The invariant of an item and its attempts *)

Record life_inv (t : DateTime) (i : WorkItem) (l : list WorkAttempt) : Prop := {
  lv_count : (0 ≤ wi_attempt_count i)%Z;
  lv_attempts : att_inv t (wi_attempt_count i) l;
  lv_success : wi_state i = WSucceeded → success_backed i;
  lv_cancelled : wi_state i = WCancelled →
    Forall (λ a, attempt_is_active (wt_state a) = false) l;
}.

(** An attempt of a cancelled item is closed. *)
Lemma cancelled_closed t i l a :
  life_inv t i l → a ∈ l → attempt_is_active (wt_state a) = true → wi_state i ≠ WCancelled.
Proof. intros H Ha Hact Hs. pose proof (lv_cancelled _ _ _ H Hs) as Hf. rw Forall_forall in Hf. by rw Hf in Hact. Qed.

Lemma lease_holder_open t0 t i l a :
  life_inv t0 i l → a ∈ l → lease_active_at a t = true → wi_state i ≠ WCancelled.
Proof. intros H Ha [Hs _]%lease_active_true. by eapply cancelled_closed. Qed.

Lemma att_inv_closed t c pa a a' na :
  att_inv t c pa → swapped pa a a' na → wt_attempt_number a' = wt_attempt_number a →
  attempt_is_active (wt_state a') = false → att_inv t c na.
Proof.
  intros H Hs Hn Hc. eapply att_inv_swapped; [done..|]. rw (lease_active_true a'). intros [? _]. congruence.
Qed.

Lemma transition_attempts t0 t i pa j na :
  life_inv t0 i pa → (t0 ≤ t)%Z → transition t i pa j na →
  (0 ≤ wi_attempt_count j)%Z ∧ att_inv t (wi_attempt_count j) na.
Proof.
  intros [Hc Ha _ _] Ht H. apply (att_inv_mono t0 t) in Ha; [|done].
  destruct H as [?|? ? ? Hd|? ? ? ? Hd|? ? ? Hd|a now u na Hh Hx Hs|? ? ? ? ? ? Hs|? ? ? ? ? ? ? ? ? ? Hn
    |? ? ? Hl Hs|? ? ? ? Hl Hk Hs|? ? ? ? Hl Hs|? ? ? ? Hl Hs|? ? ? ? Hl Hs|? ? ? ? ? Hl ? Hs|? ? ? ? Hl Hs
    |? ? ? ? Hl ? ? Hs|?|? ? ? ? ? ? ? ? ? Hs|? ? ? ? ? ? ? Hst Hs|?];
    try (split; [done|]; by eapply att_inv_swapped);
    try (split; [done|]; by eapply att_inv_closed);
    try (by split).
  - destruct (decided_facts _ _ Hd) as (_ & E & _). cbn. rw E. by split.
  - destruct (refresh_wait_facts _ _ _ Hd) as (_ & E & _). cbn. rw E. by split.
  - destruct (refresh_deadline_facts _ _ _ Hd) as (_ & E & _). cbn. rw E. by split.
  - destruct (expired_item_facts i a now) as (_ & E & _). cbn. rw E. split; [done|]. by eapply att_inv_closed.
  - cbn. rw Hn. split; [lia|]. by apply att_inv_claim.
  - destruct (linked_facts _ _ _ _ Hk) as (_ & ? & _). split; [done|]. by eapply att_inv_swapped.
  - split; [done|]. by apply att_inv_cancel.
Qed.

(** Closing facts of the rules that leave the attempts alone. *)
Lemma transition_state t0 t i pa j na :
  life_inv t0 i pa → transition t i pa j na →
  (wi_state j = WSucceeded → success_backed j) ∧
  (wi_state j = WCancelled → Forall (λ a, attempt_is_active (wt_state a) = false) na).
Proof.
  intros L H. pose proof (lv_success _ _ _ L) as Hs. pose proof (lv_cancelled _ _ _ L) as Hx.
  destruct H; try (cbn; split; [by intros|by intros]).
  - cbn. split; [|done]. intros E. eapply (success_backed_ext i); [done..|]. by apply Hs.
  - destruct (decided_facts _ _ H) as (Hco & _ & _ & [(E1 & E2 & E3)|[Hn Hj]]).
    + split; cbn; rw E1; [|done]. intros E. eapply (success_backed_ext i); [done..|]. by apply Hs.
    + split; cbn; intros E; rw E in Hj; naive_solver.
  - apply refresh_wait_facts in H0 as (_ & _ & _ & _ & Hj). split; cbn; intros E; rw E in Hj; naive_solver.
  - apply refresh_deadline_facts in H as (_ & _ & _ & _ & Hj). split; cbn; intros E; congruence.
  - destruct (expired_item_facts i a now) as (_ & _ & _ & Hj). split; cbn; intros E; rw E in Hj; naive_solver.
  - split; [done|]. intros E. exfalso. eapply (cancelled_closed _ _ _ a L); [apply H2|by apply heartbeat_active|done].
  - split; [done|]. intros E. exfalso. by eapply (lease_holder_open _ _ _ _ a L); [apply H0|..].
  - split; [done|]. intros E. exfalso. by eapply (lease_holder_open _ _ _ _ a L); [apply H1|..].
  - cbn. destruct H0 as [->| ->]; split; by intros.
  - unfold ordinary_completion_states. cbn. destruct (wp_requires_approval _); split; by intros.
  - cbn. split; [|done]. intros _. unfold success_backed. cbn. rw decide_False; [|by intros ?]. left. by eexists.
  - cbn. rw H. split; by intros.
  - cbn. split; [by intros|]. intros _. apply Forall_forall. intros x (y & -> & _)%list_elem_of_fmap.
    apply cancel_attempt_closed.
Qed.

Lemma transition_inv t0 t i pa j na :
  life_inv t0 i pa → (t0 ≤ t)%Z → transition t i pa j na → life_inv t j na.
Proof.
  intros L Ht H. destruct (transition_attempts _ _ _ _ _ _ L Ht H) as [Hc Ha].
  destruct (transition_state _ _ _ _ _ _ L H) as [Hs Hx]. by split.
Qed.

(** Cancellation is final. *)
Lemma transition_cancelled t0 t i pa j na :
  life_inv t0 i pa → transition t i pa j na → wi_state i = WCancelled → wi_state j = WCancelled.
Proof.
  intros L H Hc.
  assert (∀ a, a ∈ pa → lease_active_at a t = true → False) as Hl.
  { intros a Ha Hact. by eapply (lease_holder_open _ _ _ _ a L). }
  destruct H; try done; try (rw Hc in H; done);
    try (match goal with Hs : swapped _ _ _ _ |- _ => exfalso; eapply Hl; [apply Hs|done] end).
  - destruct (decided_facts _ _ H) as (_ & _ & _ & [(E & _)|[? _]]); [|done]. cbn. congruence.
  - apply refresh_deadline_facts in H as (_ & _ & _ & E & _). by rw Hc in E.
  - exfalso. eapply (cancelled_closed _ _ _ a L); [apply H1|by apply heartbeat_active|done].
  - congruence.
Qed.
