(* ===== verification/LedgerRuns.v ===== *)
(** * Runs of the work ledger

    A run is a sequence of committed changes at non-decreasing times, on whole
    ledgers.  The invariant of [LedgerSpec] is lifted to every item of a ledger
    and shown to hold along every run. *)

From S2P Require Import Prelude Text Window Ids Workload WorkGraph Ledger LedgerStore.
From S2P Require Import LedgerStore LedgerOps LedgerCommit LedgerRecovery LedgerSpec.

Section runs.
Context {SH : Sha256} {DG : LedgerDigests}.

(** The attempts of the item [i] on [d], as a list in any order. *)
Definition attempts_are (d : Disk) (i : WorkItem) (pa : list WorkAttempt) : Prop :=
  ∀ a, a ∈ pa ↔ a ∈ attempts_of (wi_work_id i) (dk_attempts d).

(** The versions [na] may replace the attempts [pa] of [i] in the files of [d]. *)
Record writable (d : Disk) (i : WorkItem) (pa na : list WorkAttempt) : Prop := {
  wb_valid : Forall (λ a, attempt_validate a = inr () ∧ wt_work_id a = wi_work_id i) na;
  wb_names : NoDup (att_name <$> na);
  wb_keep : ∀ a, a ∈ pa → wt_attempt_id a ∈ wt_attempt_id <$> na;
  wb_fresh : ∀ a, a ∈ na → wt_attempt_id a ∉ wt_attempt_id <$> pa →
               dk_attempts d !! att_name a = None;
}.

Inductive lstep (t : DateTime) (d : Disk) : Disk → Prop :=
  | lstep_change i pa j na d' :
      dk_items d !! item_name i = Some i → attempts_are d i pa → transition t i pa j na →
      item_validate j = inr () → writable d i pa na →
      dk_items d' = <[item_name j := j]> (dk_items d) →
      dk_attempts d' = write_all na (dk_attempts d) → settled d' → lstep t d d'
  | lstep_create j d' :
      dk_items d !! item_name j = None → item_validate j = inr () →
      wi_state j = WQueued → wi_attempt_count j = 0%Z → attempts_are d j [] →
      dk_items d' = <[item_name j := j]> (dk_items d) → dk_attempts d' = dk_attempts d →
      settled d' → lstep t d d'.

Inductive ledger_run (t : DateTime) (d : Disk) (t' : DateTime) : Disk → Prop :=
  | run_nil : (t ≤ t')%Z → ledger_run t d t' d
  | run_snoc t1 d1 ts d' :
      ledger_run t d t1 d1 → (t1 ≤ ts ≤ t')%Z → lstep ts d1 d' → ledger_run t d t' d'.

(** ** The invariant *)

Record ledger_inv (t : DateTime) (d : Disk) : Prop := {
  iv_items : items_wf (dk_items d);
  iv_attempts : attempts_wf (dk_attempts d);
  iv_settled : settled d;
  iv_life k i : dk_items d !! k = Some i → life_inv t i (attempts_of (wi_work_id i) (dk_attempts d));
}.

Lemma life_inv_ext t i l l' : (∀ a, a ∈ l ↔ a ∈ l') → life_inv t i l → life_inv t i l'.
Proof.
  intros E [H1 [A1 A2 A3] H3 H4]. split; [done|split|done|].
  - intros a b. rw -!E. apply A1.
  - intros a. rw -!E. apply A2.
  - intros a b. rw -!E. apply A3.
  - intros Hs. specialize (H4 Hs). rw !Forall_forall in H4 *. intros a. rw -E. apply H4.
Qed.

Lemma life_inv_mono t t' i l : (t ≤ t')%Z → life_inv t i l → life_inv t' i l.
Proof. intros Ht [H1 H2 H3 H4]. split; [done|by eapply att_inv_mono|done..]. Qed.

Lemma ledger_inv_mono t t' d : (t ≤ t')%Z → ledger_inv t d → ledger_inv t' d.
Proof. intros Ht [H1 H2 H3 H4]. split; [done..|]. eauto using life_inv_mono. Qed.

(** ** The attempts after a change *)

Lemma attempts_of_same d i pa na :
  attempts_wf (dk_attempts d) → attempts_are d i pa → writable d i pa na →
  ∀ a, a ∈ attempts_of (wi_work_id i) (write_all na (dk_attempts d)) ↔ a ∈ na.
Proof.
  intros Hwf Hpa [Hv Hnd Hk Hf] a. rw Forall_forall in Hv. rw elem_of_attempts_of. split.
  - intros [[k Hl] Hw]. apply (write_all_inv _ _ _ _ Hnd) in Hl as [[_ ?]|[Hni Hl]]; [done|]. exfalso.
    assert (a ∈ pa) as Ha%Hk by (apply Hpa, elem_of_attempts_of; eauto).
    apply list_elem_of_fmap in Ha as (b & Hb & Hin). apply Hni. destruct (Hwf _ _ Hl) as [-> _].
    apply list_elem_of_fmap. exists b. unfold att_name. by rw Hb.
  - intros Ha. split; [|by apply Hv]. exists (att_name a). by apply write_all_elem.
Qed.

Lemma attempts_of_other d i pa na w :
  attempts_wf (dk_attempts d) → attempts_are d i pa → writable d i pa na → w ≠ wi_work_id i →
  ∀ a, a ∈ attempts_of w (write_all na (dk_attempts d)) ↔ a ∈ attempts_of w (dk_attempts d).
Proof.
  intros Hwf Hpa [Hv Hnd Hk Hf] Hw a. rw Forall_forall in Hv. rw !elem_of_attempts_of. split.
  - intros [[k Hl] Haw]. apply (write_all_inv _ _ _ _ Hnd) in Hl as [[_ Ha]|[_ Hl]]; [|by eauto].
    apply Hv in Ha as [_ Ha]. congruence.
  - intros [[k Hl] Haw]. split; [|done]. exists k. rw write_all_other; [done|].
    intros (b & -> & Hb)%list_elem_of_fmap.
    destruct (decide (wt_attempt_id b ∈ wt_attempt_id <$> pa)) as [Hin|Hin].
    + apply list_elem_of_fmap in Hin as (p & E & Hp). apply Hpa, attempts_wf_elem in Hp as [Hp1 Hp2]; [|done].
      unfold att_name in Hl, Hp1. rw E Hp1 in Hl. congruence.
    + by rw (Hf b Hb Hin) in Hl.
Qed.

Lemma write_all_wf i na m :
  attempts_wf m → Forall (λ a, attempt_validate a = inr () ∧ wt_work_id a = wi_work_id i) na →
  attempts_wf (write_all na m).
Proof.
  intros Hm. induction 1 as [|a na [Ha _] _ IH]; [done|]. by apply map_Forall_insert_2.
Qed.

(** ** Preservation *)

Lemma lstep_inv t0 t d d' : ledger_inv t0 d → (t0 ≤ t)%Z → lstep t d d' → ledger_inv t d'.
Proof.
  intros [Hi Ha Hs Hl] Ht [i pa j na d1 Hin Hpa Htr Hv Hwb Ei Ea Hset|j d1 Hno Hv Hq Hc Hat Ei Ea Hset].
  - destruct (transition_core _ _ _ _ _ Htr) as [(Hw & _) _].
    assert (item_name j = item_name i) as En by (unfold item_name; congruence).
    split; [|rw Ea; by eapply write_all_wf, wb_valid|done|].
    + rw Ei. by apply map_Forall_insert_2.
    + rw Ei Ea. intros k x [[<- <-]|[Hne Hx]]%lookup_insert_Some.
      * eapply life_inv_ext; [|eapply transition_inv; [|exact Ht|exact Htr]].
        -- intros a. rw Hw. symmetry. by eapply attempts_of_same.
        -- eapply life_inv_ext; [|by eapply Hl]. intros a. symmetry. apply Hpa.
      * destruct (Hi _ _ Hx) as [-> _].
        assert (wi_work_id x ≠ wi_work_id i).
        { intros E. apply Hne. rw En. unfold item_name. by rw E. }
        eapply life_inv_ext; [intros a; symmetry; by eapply attempts_of_other|].
        eapply life_inv_mono; [exact Ht|]. by eapply Hl.
  - split; [|by rw Ea|done|].
    + rw Ei. by apply map_Forall_insert_2.
    + rw Ei Ea. intros k x [[<- <-]|[Hne Hx]]%lookup_insert_Some.
      * eapply life_inv_ext; [exact Hat|]. split; [lia|split; set_solver|congruence|constructor].
      * eapply life_inv_mono; [exact Ht|]. by eapply Hl.
Qed.

Lemma run_le t d t' d' : ledger_run t d t' d' → (t ≤ t')%Z.
Proof. induction 1; lia. Qed.

Lemma run_inv t d t' d' : ledger_inv t d → ledger_run t d t' d' → ledger_inv t' d'.
Proof.
  intros Hinv. induction 1 as [|t' t1 d1 ts d' Hr IH Ht Hs]; [by eapply ledger_inv_mono|].
  apply (ledger_inv_mono ts); [lia|]. eapply lstep_inv; [exact IH|lia|done].
Qed.

Lemma run_weaken t d t1 t2 d' : ledger_run t d t1 d' → (t1 ≤ t2)%Z → ledger_run t d t2 d'.
Proof. intros H Ht. destruct H; [constructor|eapply run_snoc; [done| |done]]; lia. Qed.

Lemma run_trans t d t1 d1 t2 d2 : ledger_run t d t1 d1 → ledger_run t1 d1 t2 d2 → ledger_run t d t2 d2.
Proof.
  intros H1. induction 1 as [|t2 t3 d3 ts d2 Hr IH Ht Hs]; [by eapply run_weaken|].
  by eapply run_snoc.
Qed.
End runs.
