(* ===== verification/LedgerRefine.v ===== *)
(** * The operations of the ledger follow its rules

    Every operation of [LedgerOps], run from a settled ledger in any
    environment with a clock that does not go back, performs a run of
    [LedgerRuns]; when it ends early, the disk is settled or pending between two
    ledgers of such a run. *)

From S2P Require Import Prelude Text Window Ids Workload WorkGraph GraphFacts Ledger LedgerStore.
From S2P Require Import LedgerStore LedgerOps LedgerLogic LedgerCommit LedgerRecovery.
From S2P Require Import LedgerSpec LedgerRuns.

(** ** Identifiers under a transition *)

Lemma swapped_ids pa a a' na : swapped pa a a' na →
  (∀ x, x ∈ pa → wt_attempt_id x ∈ wt_attempt_id <$> na)
  ∧ (∀ x, x ∈ na → wt_attempt_id x ∈ wt_attempt_id <$> pa).
Proof.
  intros (Ha & Hid & Hna). split.
  - intros x Hx. apply list_elem_of_fmap. destruct (decide (wt_attempt_id x = wt_attempt_id a)) as [E|E].
    + exists a'. split; [congruence|]. apply Hna. by left.
    + exists x. split; [done|]. apply Hna. by right.
  - intros x [->|[Hx _]]%Hna; apply list_elem_of_fmap; eauto.
Qed.

(** A transition keeps every attempt and adds at most the claimed one. *)
Lemma transition_ids t i pa j na : transition t i pa j na →
  (∀ x, x ∈ pa → wt_attempt_id x ∈ wt_attempt_id <$> na)
  ∧ ((∀ x, x ∈ na → wt_attempt_id x ∈ wt_attempt_id <$> pa) ∨ ∃ a, na = pa ++ [a]).
Proof.
  intros H.
  assert (∀ l : list WorkAttempt, (∀ x, x ∈ l → wt_attempt_id x ∈ wt_attempt_id <$> l)) as Hrefl.
  { intros l x Hx. apply list_elem_of_fmap. eauto. }
  destruct H; try (split; [|left]; apply Hrefl);
    try (match goal with Hs : swapped _ _ _ _ |- _ => destruct (swapped_ids _ _ _ _ Hs); split; [done|by left] end).
  - split; [|right; by eexists]. intros x Hx. rw fmap_app elem_of_app. left. by apply Hrefl.
  - assert (wt_attempt_id <$> (cancel_attempt reason now <$> pa) = wt_attempt_id <$> pa) as ->.
    { rw -list_fmap_compose. apply list_fmap_ext. intros; apply cancel_attempt_id. }
    split; [by apply Hrefl|left]. intros x (y & -> & Hy)%list_elem_of_fmap. rw cancel_attempt_id. by apply Hrefl.
Qed.

Lemma NoDup_ids_tail x y l :
  NoDup (wt_attempt_id <$> x :: l) → y ∈ l → wt_attempt_id y ≠ wt_attempt_id x.
Proof.
  rw fmap_cons NoDup_cons. intros [Hx _] Hy E. apply Hx. apply list_elem_of_fmap. by exists y.
Qed.

Lemma replace_swapped pa a a' na :
  NoDup (wt_attempt_id <$> pa) → a ∈ pa → wt_attempt_id a' = wt_attempt_id a →
  replace_attempt_snapshot pa a' = inr na → swapped pa a a' na.
Proof.
  intros Hu Ha Hid Hr. split; [done|]. split; [done|]. revert na Hr Hu Ha.
  induction pa as [|b pa IH]; intros na Hr Hu Ha; cbn in Hr; [done|].
  pose proof (NoDup_ids_tail b) as Ht. destruct (decide (wt_attempt_id b = wt_attempt_id a')) as [E|E].
  - injection Hr as <-. intros x. rw !elem_of_cons. split.
    + intros [->|Hx]; [by left|right]. split; [by right|]. rw -Hid -E. by eapply Ht.
    + intros [->|[[->|Hx] Hne]]; [by left|congruence|by right].
  - apply ores_bind_inr in Hr as (rest & Hr & [= <-]). apply NoDup_cons in Hu as [_ Hu].
    apply elem_of_cons in Ha as [->|Ha]; [congruence|]. intros x. rw !elem_of_cons (IH rest Hr Hu Ha x).
    split; [|naive_solver]. intros [->|[->|[? ?]]]; [right|by left|right]; (split; [tauto|congruence]).
Qed.

Lemma alter_first_swapped p f l a :
  NoDup (wt_attempt_id <$> l) → List.find p l = Some a → wt_attempt_id (f a) = wt_attempt_id a →
  ∀ x, x ∈ alter_first p f l ↔ x = f a ∨ (x ∈ l ∧ wt_attempt_id x ≠ wt_attempt_id a).
Proof.
  induction l as [|b l IH]; intros Hu Hf Hid x; cbn in *; [done|].
  pose proof (NoDup_ids_tail b) as Ht. destruct (p b) eqn:Hp.
  - injection Hf as ->. rw !elem_of_cons. split; [|naive_solver].
    intros [->|Hx]; [by left|right]. split; [by right|]. by eapply Ht.
  - pose proof (Ht a l Hu) as Hne. apply NoDup_cons in Hu as [_ Hu]. rw !elem_of_cons IH //.
    apply List.find_some in Hf as [Hin%list_elem_of_In _]. split; [|naive_solver].
    intros [->|[->|[? ?]]]; [right|by left|tauto]. split; [by left|]. intros E. by apply Hne.
Qed.

Lemma alter_last_swapped p f l a :
  NoDup (wt_attempt_id <$> l) → find_last p l = Some a → wt_attempt_id (f a) = wt_attempt_id a →
  swapped l a (f a) (alter_last p f l).
Proof.
  unfold find_last, alter_last. intros Hu Hf Hid. split.
  { apply List.find_some in Hf as [Hin%list_elem_of_In _]. by rw elem_of_reverse in Hin. }
  split; [done|]. intros x. rw elem_of_reverse (alter_first_swapped _ _ _ a) //; [by rw elem_of_reverse|].
  by rw fmap_reverse reverse_Permutation.
Qed.

(** The clock does not go back. *)
Class MonotoneClock {ENV : LedgerEnv} :=
  mono_clock : ∀ m n, (m ≤ n)%nat → (clock m ≤ clock n)%Z.

Section refine.
Context {SH : Sha256} {DG : LedgerDigests} {FS : FileSystem} {ENV : LedgerEnv}
  {MS : ManagedSettlement} {EL : LedgerEnvLaws} {DL : LedgerDigestsLaws}.

Lemma attempts_of_nodup w m : attempts_wf m → NoDup (wt_attempt_id <$> attempts_of w m).
Proof.
  intros Hwf. apply (NoDup_fmap_1 file_of). rw -list_fmap_compose.
  change (file_of ∘ wt_attempt_id) with att_name. unfold attempts_of.
  eapply sublist_NoDup; [|apply fmap_sublist, sublist_filter].
  assert (att_name <$> (map_to_list m).*2 = (map_to_list m).*1) as ->; [|apply NoDup_fst_map_to_list].
  rw -list_fmap_compose. apply list_fmap_ext. intros n [k a] Hk. cbn.
  apply list_elem_of_lookup_2, elem_of_map_to_list in Hk. by destruct (Hwf _ _ Hk).
Qed.

(** ** Ledgers the operations start from *)

Record good (d : Disk) : Prop := {
  gd_items : items_wf (dk_items d);
  gd_attempts : attempts_wf (dk_attempts d);
  gd_settled : settled d;
}.

Lemma ledger_inv_good t d : ledger_inv t d → good d.
Proof. intros [H1 H2 H3 _]. by split. Qed.

Lemma lstep_good t d d' : good d → lstep t d d' → good d'.
Proof.
  intros [Hi Ha _] [i pa j na d1 _ _ _ Hv Hw Ei Ea Hs|j d1 _ Hv _ _ _ Ei Ea Hs].
  - split; [rw Ei; by apply map_Forall_insert_2|rw Ea; by eapply write_all_wf, wb_valid|done].
  - split; [rw Ei; by apply map_Forall_insert_2|by rw Ea|done].
Qed.

Lemma run_good t d t' d' : good d → ledger_run t d t' d' → good d'.
Proof. intros Hg. induction 1 as [|t' t1 d1 ts d' _ IH _ Hs]; [done|]. by eapply lstep_good. Qed.

(** ** Bound requests *)

Lemma spec_load_idempotency scope request_id s :
  spec (load_idempotency scope request_id) s
    (λ o s', st_disk s' = st_disk s ∧ ∀ r, o = Some r → ∃ path,
       idemp_path scope request_id = inr path ∧ dk_receipts (st_disk s) !! path = Some r
       ∧ is_in_scope r scope = true ∧ ir_request_id r = request_id)
    (λ s', st_disk s' = st_disk s).
Proof.
  unfold load_idempotency. destruct (idemp_path scope request_id) as [e|path] eqn:Hp.
  { by apply spec_ret. }
  apply spec_bind, spec_read_file; [|done]. intros s1 Hs1 _. cbv beta.
  destruct (dk_receipts (st_disk s) !! path) as [r|] eqn:Hr; [|by apply spec_ret].
  apply spec_bind, spec_lift_any; [|done]. intros [] Hc%ensure_not_inr _. apply spec_ret.
  apply negb_false_iff, andb_true_iff in Hc as [H1 H2%bool_decide_eq_true]. split; [done|].
  intros r' [= <-]. by exists path.
Qed.

Lemma spec_validate_bound rq i pa na s :
  spec (validate_bound_request rq i pa na) s
    (λ _ s', st_disk s' = st_disk s
       ∧ ∀ response, receipt_ready (Some rq) response (dk_receipts (st_disk s)))
    (λ s', st_disk s' = st_disk s).
Proof.
  unfold validate_bound_request.
  do 6 (apply spec_bind, spec_lift_any; [intros [] _ _; cbv beta|done]).
  eapply spec_seq; [apply spec_load_idempotency|done|]. intros o s1 _ [Hs1 Ho].
  apply spec_bind, spec_lift_any; [|done]. intros r Hr _. destruct o as [r'|]; [|done].
  injection Hr as ->. destruct (Ho r eq_refl) as (path & Hp & Hl & Hsc & Hid).
  apply spec_bind, spec_lift_any; [|done]. intros [] Hc%ensure_not_inr _. cbv beta.
  apply spec_lift_any; [|done]. intros [] Hst%ensure_not_inr.
  rw !orb_false_iff !bool_decide_eq_false in Hc. rw bool_decide_eq_false in Hst. split; [done|].
  intros response. right. exists path, r. destruct Hc as [[[[[_ _] _] Ht] Hh] _].
  split_and!; try done; by apply dec_stable.
Qed.

(** The response of a bound request can be built: it names an attempt only when
    there is one. *)
Definition shape_ok (request : option WorkRequestBinding) (na : list WorkAttempt) : Prop :=
  match request with
  | None => True
  | Some rq => na ≠ [] ∨ rq_shape rq ∉ ["work_attempt"; "claim"; "lease_view"]
  end.

Lemma response_ok I : shape_ok (li_request I) (li_attempts I) →
  ∃ response, lifecycle_response_value I = inr response.
Proof.
  unfold shape_ok, lifecycle_response_value. destruct (li_request I) as [rq|]; [|by eauto].
  assert (li_attempts I ≠ [] → ∃ a, changed_lifecycle_attempt I = inr a) as Hch.
  { intros Hne. unfold changed_lifecycle_attempt. destruct (List.find _ _); [by eauto|].
    destruct (li_attempts I); [done|]. cbn. eauto. }
  intros [Hne|Hsh].
  - destruct (Hch Hne) as [a ->]. cbn. repeat case_decide; eauto.
  - repeat case_decide; try (by eauto); exfalso; apply Hsh; set_solver.
Qed.

(** ** The commit of a transition *)

(** The changed item and attempts are on disk. *)
Definition lands (t : DateTime) (i : WorkItem) (pa : list WorkAttempt) (j : WorkItem)
    (na : list WorkAttempt) (d d' : Disk) : Prop :=
  lstep t d d' ∧ dk_items d' = <[item_name j := j]> (dk_items d) ∧ attempts_are d' j na
  ∧ (∀ k, dk_attempts d !! k = None → k ∉ att_name <$> na → dk_attempts d' !! k = None).

Lemma ready_lands I n d t i pa j na :
  ready I n d → good d → dk_items d !! item_name i = Some i → attempts_are d i pa →
  transition t i pa j na → writable d i pa na →
  li_prior_item I = i → li_item I = j → li_attempts I = na →
  lands t i pa j na d (applied I d).
Proof.
  intros R [Hi Ha Hs] Hin Hpa Htr Hw <- <- <-.
  destruct (ready_valid I n d R) as (Hpw & Hiw & _ & Hv & _).
  split; [eapply (lstep_change t d (li_prior_item I) pa); try done; apply Hs|]. split; [done|].
  split.
  - intros a. cbn. rw Hiw -Hpw. symmetry. by eapply attempts_of_same.
  - intros k Hk Hn. cbn. by rw write_all_other.
Qed.

(** What is left on the way to [d']. *)
Definition on_the_way (t : DateTime) (i : WorkItem) (pa : list WorkAttempt) (j : WorkItem)
    (na : list WorkAttempt) (d : Disk) (s : Store) : Prop :=
  st_disk s = d
  ∨ ∃ d', lands t i pa j na d d' ∧ (pending d (st_disk s) d' ∨ st_disk s = d').

(** A change of [i] leaves free files free and other items alone. *)
Record confined (i j : WorkItem) (d d' : Disk) : Prop := {
  cf_core : same_core i j;
  cf_item : dk_items d' !! item_name j = Some j;
  cf_others k : k ≠ item_name i → dk_items d' !! k = dk_items d !! k;
  cf_free k : dk_attempts d !! k = None → dk_attempts d' !! k = None;
}.

Lemma same_core_name i j : same_core i j → item_name j = item_name i.
Proof. intros [H _]. unfold item_name. by rw H. Qed.

Lemma same_core_trans i j k : same_core i j → same_core j k → same_core i k.
Proof. unfold same_core. intros H1 H2. destruct_and!. split_and!; congruence. Qed.

Lemma confined_refl i d : dk_items d !! item_name i = Some i → confined i i d d.
Proof. intros Hi. by split. Qed.

Lemma confined_trans i j k d1 d2 d3 : confined i j d1 d2 → confined j k d2 d3 → confined i k d1 d3.
Proof.
  intros [A1 A2 A3 A4] [B1 B2 B3 B4]. split; [by eapply same_core_trans|done| |auto].
  intros x Hx. rw B3; [by apply A3|]. by rw (same_core_name i j A1).
Qed.

(** A change that adds no attempt. *)
Lemma lands_confined t i pa j na d d' :
  attempts_wf (dk_attempts d) → attempts_are d i pa → transition t i pa j na →
  (∀ x, x ∈ na → wt_attempt_id x ∈ wt_attempt_id <$> pa) → lands t i pa j na d d' → confined i j d d'.
Proof.
  intros Hwf Hpa Htr Hold (_ & Ei & _ & Hf). destruct (transition_core _ _ _ _ _ Htr) as [Hco _].
  split; [done|by rw Ei lookup_insert_eq| |].
  - intros k Hk. rw Ei lookup_insert_ne //. by rw (same_core_name i j Hco).
  - intros k Hk. apply Hf; [done|]. intros (x & -> & Hx)%list_elem_of_fmap.
    apply Hold in Hx. apply list_elem_of_fmap in Hx as (p & E & Hp).
    apply Hpa, attempts_wf_elem in Hp as [Hp _]; [|done]. unfold att_name in *. rw E in Hk. congruence.
Qed.

Lemma names_nodup d i pa na :
  attempts_wf (dk_attempts d) → attempts_are d i pa → NoDup (wt_attempt_id <$> na) →
  ((∀ x, x ∈ na → wt_attempt_id x ∈ wt_attempt_id <$> pa) ∨ ∃ a, na = pa ++ [a]) →
  (∀ a, a ∈ na → wt_attempt_id a ∉ wt_attempt_id <$> pa → dk_attempts d !! att_name a = None) →
  NoDup (att_name <$> na).
Proof.
  intros Hwf Hpa Hnd Hnew Hf.
  assert (∀ x, x ∈ na → wt_attempt_id x ∈ wt_attempt_id <$> pa →
    ∃ p, dk_attempts d !! att_name x = Some p ∧ wt_attempt_id p = wt_attempt_id x) as Hold.
  { intros x _ (p & E & Hp)%list_elem_of_fmap. exists p. apply Hpa, attempts_wf_elem in Hp as [Hp _]; [|done].
    split; [|done]. unfold att_name in *. by rw E. }
  assert (∀ x y, x ∈ na → y ∈ na → att_name x = att_name y → wt_attempt_id x = wt_attempt_id y) as Hinj.
  { intros x y Hx Hy E.
    destruct (decide (wt_attempt_id x ∈ wt_attempt_id <$> pa)) as [Hxp|Hxp],
      (decide (wt_attempt_id y ∈ wt_attempt_id <$> pa)) as [Hyp|Hyp].
    - destruct (Hold x Hx Hxp) as (p & Hp & <-), (Hold y Hy Hyp) as (q & Hq & <-). congruence.
    - destruct (Hold x Hx Hxp) as (p & Hp & _). rw E Hf // in Hp.
    - destruct (Hold y Hy Hyp) as (p & Hp & _). rw -E Hf // in Hp.
    - destruct Hnew as [Hnew|[a ->]]; [by destruct Hxp; apply Hnew|].
      assert (∀ z, z ∈ pa ++ [a] → (wt_attempt_id z ∉ wt_attempt_id <$> pa) → z = a) as Hz.
      { intros z [Hz|Hz]%elem_of_app Hn; [destruct Hn; apply list_elem_of_fmap; eauto|set_solver]. }
      by rw (Hz x) // (Hz y). }
  clear - Hnd Hinj. induction na as [|x na IH]; [constructor|].
  rw fmap_cons. apply NoDup_cons. split.
  - intros (y & E & Hy)%list_elem_of_fmap. apply (NoDup_ids_tail x y na) in Hnd; [|done].
    apply Hnd. symmetry. apply Hinj; [set_solver..|done].
  - apply IH; [by apply NoDup_cons in Hnd as [_ ?]|]. intros y z Hy Hz. apply Hinj; set_solver.
Qed.

(** The intent of a commit with these arguments. *)
Record intent_of (op : string) (i j : WorkItem) (pa na : list WorkAttempt)
    (request : option WorkRequestBinding) (I : WorkLifecycleIntent) : Prop := {
  io_operation : li_operation I = op;
  io_prior : li_prior_item I = i;
  io_item : li_item I = j;
  io_prior_attempts : li_prior_attempts I = pa;
  io_attempts : li_attempts I = na;
  io_work : li_work_id I = wi_work_id j;
  io_request : li_request I = request;
  io_valid : lifecycle_validate I = inr ();
}.

Section change.
Context (op : string) (i j : WorkItem) (pa na : list WorkAttempt)
  (request : option WorkRequestBinding) (t : DateTime) (d : Disk) (good_d : good d)
  (Hin : dk_items d !! item_name i = Some i) (Hpa : attempts_are d i pa)
  (Htr : transition t i pa j na)
  (Hfresh : ∀ a, a ∈ na → wt_attempt_id a ∉ wt_attempt_id <$> pa →
     dk_attempts d !! att_name a = None).

Lemma intent_writable I : intent_of op i j pa na request I → writable d i pa na.
Proof.
  intros [_ _ Hj _ Hna Hwk _ Hval]. destruct (transition_core _ _ _ _ _ Htr) as [(Hw & _) _].
  destruct (transition_ids _ _ _ _ _ Htr) as [Hkeep Hnew].
  unfold lifecycle_validate in Hval. do 4 (apply ores_bind_inr in Hval as ([] & _ & Hval)).
  apply validate_attempts_from_inr in Hval as [H1 H2]. rw Hna in H1 H2. rw Hwk Hw in H1.
  split; [|eapply names_nodup; by eauto using gd_attempts|done|done].
  eapply Forall_impl; [exact H1|]. naive_solver.
Qed.

Lemma intent_ready I n :
  intent_of op i j pa na request I → safe_id_filename (li_intent_id I) = inr n →
  op ≠ "managed_finalization" → shape_ok request na →
  (∀ response, receipt_ready request response (dk_receipts d)) → ready I n d.
Proof.
  intros HI Hn Hop Hsh Hrc. pose proof (intent_writable I HI) as Hwb.
  destruct (transition_core _ _ _ _ _ Htr) as [(Hw & _ & _ & _ & _ & Hdep & _) _].
  destruct (transition_ids _ _ _ _ _ Htr) as [Hkeep _]. destruct (gd_settled _ good_d) as [_ Hlf].
  destruct HI as [H1 H2 H3 H4 H5 H6 H7 H8].
  split; rw ?H1 ?H2 ?H3 ?H4 ?H5 ?H6 ?H7; try done; [by rw Hlf lookup_empty|apply good_d|apply good_d|..].
  - intros a. rw Hw. apply Hpa.
  - apply Hwb.
  - intros _. destruct (response_ok I) as [response ->]; [by rw H5 H7|]. eauto.
Qed.

Lemma intent_lands I n :
  intent_of op i j pa na request I → ready I n d → lands t i pa j na d (applied I d).
Proof. intros HI R. pose proof (intent_writable I HI). by eapply ready_lands; try apply HI. Qed.

(** What a commit with these arguments leaves when it ends early: nothing, the
    disk it aims at, or a disk between the two. *)
Definition between (s : Store) : Prop :=
  st_disk s = d ∨ ∃ I n, intent_of op i j pa na request I ∧ ready I n d
    ∧ (midway I n d (st_disk s) ∨ st_disk s = applied I d).

Lemma spec_commit_intent s :
  st_disk s = d → op ≠ "managed_finalization" → shape_ok request na →
  spec (commit_lifecycle_with_request op i j pa na request) s
    (λ _ s', ∃ I n, intent_of op i j pa na request I ∧ ready I n d ∧ st_disk s' = applied I d)
    between.
Proof.
  intros Hs Hop Hsh. unfold commit_lifecycle_with_request.
  apply spec_bind, spec_uuid. intros s1 Hs1 _ _. rw Hs in Hs1.
  apply spec_bind, spec_lift_any; [|by left]. intros I0 HI0 _.
  apply ores_bind_inr in HI0 as ([] & Hval & [= <-]).
  eapply (spec_seq _ _ _ (λ I s', st_disk s' = d ∧ intent_of op i j pa na request I
    ∧ ∀ response, receipt_ready request response (dk_receipts d)) _ _ (λ s', st_disk s' = d)); [|by left|].
  { destruct request as [rq|]; [|by apply spec_ret].
    eapply spec_seq; [apply spec_validate_bound|by rw Hs1|]. intros [] s2 _ [Hs2 Hr]. apply spec_ret.
    rw Hs1 in Hs2 Hr. by split_and!. }
  intros I s2 _ (Hs2 & HI & Hrc). destruct (safe_id_filename (li_intent_id I)) as [e|n] eqn:Hn.
  { unfold persist_work_lifecycle_intent. apply spec_bind, spec_bind, spec_lift_any; [|by left].
    intros _ _ _. apply spec_bind. rw Hn. split; [done|by left]. }
  pose proof (intent_ready I n HI Hn Hop Hsh Hrc) as R.
  eapply spec_seq; [by apply (spec_persist_lifecycle I n d R)| |].
  - intros s' [_ [E|M]]; [by left|right]. exists I, n. auto.
  - intros [] s3 _ M. eapply spec_mono; [by apply (spec_commit_lifecycle I n d R)| |].
    + intros u s' _ E. by exists I, n.
    + intros s' [_ HM]. right. by exists I, n.
Qed.
End change.

Lemma spec_commit_change op i j pa na request s t :
  good (st_disk s) → dk_items (st_disk s) !! item_name i = Some i → attempts_are (st_disk s) i pa →
  transition t i pa j na → op ≠ "managed_finalization" → shape_ok request na →
  (∀ a, a ∈ na → wt_attempt_id a ∉ wt_attempt_id <$> pa →
     dk_attempts (st_disk s) !! att_name a = None) →
  spec (commit_lifecycle_with_request op i j pa na request) s
    (λ _ s', lands t i pa j na (st_disk s) (st_disk s')) (on_the_way t i pa j na (st_disk s)).
Proof.
  intros Hg Hin Hpa Htr Hop Hsh Hf. eapply spec_mono; [by eapply spec_commit_intent| |].
  - intros u s' _ (I & n & HI & R & ->). by eapply intent_lands.
  - intros s' [E|(I & n & HI & R & HM)]; [by left|right]. exists (applied I (st_disk s)).
    split; [by eapply intent_lands|]. destruct HM; [left; by eapply pending_lifecycle|by right].
Qed.

(** ** Operations as runs *)

(** No stored item shares the file of [w] without being [w]. *)
Definition clear_name (d : Disk) (w : string) : Prop :=
  map_Forall (λ _ i, no_collision (wi_work_id i) w) (dk_items d).

Section run.
Context {MC : MonotoneClock} (t0 : DateTime) (d0 : Disk) (good0 : good d0).

(** The operation so far is a run from [d0]. *)
Definition reached (s : Store) : Prop := ledger_run t0 d0 (clock (st_tick s)) (st_disk s).

(** It ended early: between two ledgers of a run. *)
Definition broken (s : Store) : Prop :=
  reached s ∨ ∃ dk d1 ts, ledger_run t0 d0 ts dk ∧ lstep ts dk d1 ∧ (ts ≤ clock (st_tick s))%Z
    ∧ settled dk ∧ pending dk (st_disk s) d1.

Lemma reached_same s s' :
  reached s → st_disk s' = st_disk s → (st_tick s ≤ st_tick s')%nat → reached s'.
Proof. unfold reached. intros H -> Ht. eapply run_weaken; [done|]. by apply mono_clock. Qed.

Lemma reached_good s : reached s → good (st_disk s).
Proof. by apply run_good. Qed.

(** A read, in a sequence. *)
Lemma o_read {A B} (m : LM A) (f : A → LM B) s (R : A → Prop) Q :
  reached s → spec m s (λ a s', R a ∧ st_disk s' = st_disk s) (λ s', st_disk s' = st_disk s) →
  (∀ a s', (st_tick s ≤ st_tick s')%nat → R a → st_disk s' = st_disk s → reached s' →
     spec (f a) s' Q broken) →
  spec (m ≫= f) s Q broken.
Proof.
  intros Hr Hm Hf. eapply spec_seq_tick; [exact Hm| |].
  - intros s' Ht E. left. by eapply reached_same.
  - intros a s' Ht [Ra E]. apply Hf; [done..|]. by eapply reached_same.
Qed.

(** A check, in a sequence. *)
Lemma o_check {A B} (r : ORes A) (f : A → LM B) s Q :
  reached s → (∀ a, r = inr a → spec (f a) s Q broken) → spec (lift r ≫= f) s Q broken.
Proof.
  intros Hr Hf. apply spec_bind, spec_lift_any; [|by left]. intros a Ha _. by apply Hf.
Qed.

Lemma o_now {B} (f : DateTime → LM B) s Q :
  reached s →
  (∀ s', st_disk s' = st_disk s → (st_tick s ≤ st_tick s')%nat → reached s' →
     ledger_run t0 d0 (clock (st_tick s)) (st_disk s') → (clock (st_tick s) ≤ clock (st_tick s'))%Z →
     spec (f (clock (st_tick s))) s' Q broken) →
  spec (now_utc ≫= f) s Q broken.
Proof.
  intros Hr Hf. apply spec_bind, spec_now. intros s' E Ht _. apply Hf; [done|lia| | |apply mono_clock; lia].
  - eapply reached_same; [done..|lia].
  - by rw E.
Qed.

(** ** Reads of the ledger *)

Lemma r_item w s :
  good (st_disk s) → clear_name (st_disk s) w →
  spec (require_work_item w) s
    (λ i s', (dk_items (st_disk s) !! item_name i = Some i ∧ wi_work_id i = w) ∧ st_disk s' = st_disk s)
    (λ s', st_disk s' = st_disk s).
Proof.
  intros Hg Hc. unfold require_work_item. destruct (safe_id_filename w) as [e|k] eqn:Hk.
  { unfold load_work_item. rw Hk. apply spec_bind, spec_ret. intros _. by apply spec_lift_any. }
  eapply spec_seq; [by apply (spec_load_item w k), Hg|by intros s' [? _]|].
  intros o s1 _ [-> Hs1]. apply spec_lift_any; [|done]. intros i Hi.
  destruct (dk_items (st_disk s) !! k) as [i'|] eqn:E; [|done]. injection Hi as ->.
  destruct (gd_items _ Hg _ _ E) as [-> _]. split; [|done]. split; [done|].
  apply (Hc _ _ E). unfold safe_id_filename in Hk. do 2 (apply ores_bind_inr in Hk as (? & _ & Hk)).
  injection Hk as Hk. unfold item_name, file_of in Hk. by apply (inj hex) in Hk.
Qed.

Lemma r_attempts w s :
  good (st_disk s) →
  spec (list_work_attempts (Some w)) s
    (λ pa s', ((∀ a, a ∈ pa ↔ a ∈ attempts_of w (dk_attempts (st_disk s)))
               ∧ NoDup (wt_attempt_id <$> pa)) ∧ st_disk s' = st_disk s)
    (λ s', st_disk s' = st_disk s).
Proof.
  intros Hg. eapply spec_mono; [apply spec_list_attempts, Hg| |by intros s' [? _]].
  intros pa s' _ [Hp E]. split; [|done]. split; [intros a; by rw Hp|]. rw Hp.
  apply attempts_of_nodup, Hg.
Qed.

Lemma r_attempt id s :
  good (st_disk s) →
  spec (load_work_attempt id) s
    (λ o s', (∀ a, o = Some a → dk_attempts (st_disk s) !! att_name a = Some a)
             ∧ st_disk s' = st_disk s)
    (λ s', st_disk s' = st_disk s).
Proof.
  intros Hg. destruct (safe_id_filename id) as [e|k] eqn:Hk.
  { unfold load_work_attempt. rw Hk. by apply spec_ret. }
  eapply spec_mono; [by apply (spec_load_attempt id k), Hg| |by intros s' [? _]].
  intros o s' _ [-> E]. split; [|done]. intros a Ha. by destruct (gd_attempts _ Hg _ _ Ha) as [<- _].
Qed.

(** ** The commit, in a run *)

Lemma o_commit op i j pa na request s t :
  ledger_run t0 d0 t (st_disk s) → (t ≤ clock (st_tick s))%Z →
  dk_items (st_disk s) !! item_name i = Some i → attempts_are (st_disk s) i pa →
  transition t i pa j na → op ≠ "managed_finalization" → shape_ok request na →
  (∀ a, a ∈ na → wt_attempt_id a ∉ wt_attempt_id <$> pa →
     dk_attempts (st_disk s) !! att_name a = None) →
  spec (commit_lifecycle_with_request op i j pa na request) s
    (λ _ s', reached s' ∧ lands t i pa j na (st_disk s) (st_disk s')) broken.
Proof.
  intros Hr Ht Hin Hpa Htr Hop Hsh Hf. pose proof (run_good _ _ _ _ good0 Hr) as Hg.
  eapply spec_mono_tick; [by apply spec_commit_change| |].
  - intros u s' Hts Hl. split; [|done]. unfold reached. eapply run_snoc; [exact Hr| |apply Hl].
    split; [lia|]. etrans; [done|]. by apply mono_clock.
  - intros s' Hts. assert (clock (st_tick s) ≤ clock (st_tick s'))%Z by (by apply mono_clock).
    intros [E|(d' & Hl & [P|E])].
    + left. unfold reached. rw E. eapply run_weaken; [exact Hr|]. lia.
    + right. exists (st_disk s), d', t. split_and!; [done|apply Hl|lia|apply Hg|done].
    + left. unfold reached. rw E. eapply run_snoc; [exact Hr| |apply Hl]. lia.
Qed.

(** Nothing new is written. *)
Lemma no_new_self d (pa : list WorkAttempt) :
  ∀ a, a ∈ pa → wt_attempt_id a ∉ wt_attempt_id <$> pa → dk_attempts d !! att_name a = None.
Proof. intros a Ha []. apply list_elem_of_fmap. eauto. Qed.

Lemma no_new_swapped d pa a a' na : swapped pa a a' na →
  ∀ x, x ∈ na → wt_attempt_id x ∉ wt_attempt_id <$> pa → dk_attempts d !! att_name x = None.
Proof. intros [_ H]%swapped_ids x Hx []. by apply H. Qed.
End run.
End refine.
