(* ===== verification/LedgerOpsRefine.v ===== *)
(** * Each operation of the ledger is a run

    One lemma per operation of [LedgerOps]: from a settled ledger it performs a
    run of [LedgerRuns], whatever the environment does. *)

From S2P Require Import Prelude Text Window Ids Workload WorkGraph GraphFacts Ledger LedgerStore.
From S2P Require Import LedgerStore LedgerOps LedgerLogic LedgerCommit LedgerRecovery.
From S2P Require Import LedgerSpec LedgerRuns LedgerRefine.

Section ops.
Context {SH : Sha256} {DG : LedgerDigests} {FS : FileSystem} {ENV : LedgerEnv}
  {MS : ManagedSettlement} {LH : LeaseHash} {LP : LedgerPeers} {EL : LedgerEnvLaws}
  {DL : LedgerDigestsLaws} {MC : MonotoneClock}.
Context (t0 : DateTime) (d0 : Disk) (good0 : good d0).

#[local] Abbreviation reached := (LedgerRefine.reached t0 d0).
#[local] Abbreviation broken := (LedgerRefine.broken t0 d0).

(** ** Steps every operation takes *)

Lemma o_item {B} w (f : WorkItem → LM B) s Q :
  reached s → clear_name (st_disk s) w →
  (∀ i s', (st_tick s ≤ st_tick s')%nat → dk_items (st_disk s) !! item_name i = Some i →
     wi_work_id i = w → st_disk s' = st_disk s → reached s' → spec (f i) s' Q broken) →
  spec (require_work_item w ≫= f) s Q broken.
Proof.
  intros Hr Hc Hf. pose proof (reached_good _ _ good0 _ Hr) as Hg.
  eapply o_read; [done|by apply r_item|]. intros i s' Ht [Hi Hw] E Hr'. by apply Hf.
Qed.

Lemma o_atts {B} w (f : list WorkAttempt → LM B) s Q :
  reached s →
  (∀ pa s', (st_tick s ≤ st_tick s')%nat →
     (∀ a, a ∈ pa ↔ a ∈ attempts_of w (dk_attempts (st_disk s))) → NoDup (wt_attempt_id <$> pa) →
     st_disk s' = st_disk s → reached s' → spec (f pa) s' Q broken) →
  spec (list_work_attempts (Some w) ≫= f) s Q broken.
Proof.
  intros Hr Hf. pose proof (reached_good _ _ good0 _ Hr) as Hg.
  eapply o_read; [done|by apply r_attempts|]. intros pa s' Ht [Hp Hn] E Hr'. by apply Hf.
Qed.

Lemma o_bump {B} i (f : WorkItem → LM B) s Q :
  reached s →
  (∀ u s', st_disk s' = st_disk s → (st_tick s ≤ st_tick s')%nat → reached s' →
     spec (f (bump_at i u)) s' Q broken) →
  spec (bump i ≫= f) s Q broken.
Proof.
  intros Hr Hf. apply spec_bind, spec_bind, spec_now. intros s' E Ht _. apply spec_ret. intros _.
  apply Hf; [done|lia|]. eapply reached_same; [done..|lia].
Qed.

(** A method that only reads. *)
Lemma o_ro {A B} (m : LM A) (f : A → LM B) s Q :
  reached s → readonly m →
  (∀ a s', (st_tick s ≤ st_tick s')%nat → st_disk s' = st_disk s → reached s' → spec (f a) s' Q broken) →
  spec (m ≫= f) s Q broken.
Proof.
  intros Hr Hm Hf. eapply (o_read _ _ _ _ _ (λ _, True)); [done| |by intros; apply Hf].
  eapply spec_mono; [apply Hm|by split|done].
Qed.

(** A lemma on a method is used in a sequence. *)
Lemma o_seq {A B} (m : LM A) (f : A → LM B) s (R : A → Store → Prop) Q :
  spec m s R broken →
  (∀ a s', (st_tick s ≤ st_tick s')%nat → R a s' → spec (f a) s' Q broken) →
  spec (m ≫= f) s Q broken.
Proof. intros Hm Hf. by eapply spec_seq. Qed.

(** The commit of a change whose time does not matter. *)
Lemma o_commit_now op i j pa na request s :
  reached s → dk_items (st_disk s) !! item_name i = Some i → attempts_are (st_disk s) i pa →
  (∀ t, transition t i pa j na) → op ≠ "managed_finalization" → shape_ok request na →
  (∀ a, a ∈ na → wt_attempt_id a ∉ wt_attempt_id <$> pa →
     dk_attempts (st_disk s) !! att_name a = None) →
  spec (commit_lifecycle_with_request op i j pa na request) s
    (λ _ s', reached s' ∧ lands (clock (st_tick s)) i pa j na (st_disk s) (st_disk s')) broken.
Proof. intros. apply o_commit; done. Qed.

(** A request that names no attempt. *)
Definition plain (request : option WorkRequestBinding) : Prop := shape_ok request [].

Lemma plain_shape request na : plain request → shape_ok request na.
Proof. unfold plain, shape_ok. destruct request; [|done]. naive_solver. Qed.

(** The commit of a change that leaves the attempts alone. *)
Lemma o_commit_self {B} op i j pa request (f : unit → LM B) s Q :
  reached s → dk_items (st_disk s) !! item_name i = Some i → attempts_are (st_disk s) i pa →
  (∀ t, transition t i pa j pa) → op ≠ "managed_finalization" → plain request →
  (∀ s', reached s' → lands (clock (st_tick s)) i pa j pa (st_disk s) (st_disk s') →
     spec (f ()) s' Q broken) →
  spec (commit_lifecycle_with_request op i j pa pa request ≫= f) s Q broken.
Proof.
  intros Hr Hi Hpa Ht Hop Hp Hf.
  eapply o_seq; [apply o_commit_now; eauto using plain_shape, no_new_self|].
  intros [] s' _ [Hr' Hl]. by apply Hf.
Qed.

Lemma attempts_are_of d i pa w :
  wi_work_id i = w → (∀ a, a ∈ pa ↔ a ∈ attempts_of w (dk_attempts d)) → attempts_are d i pa.
Proof. by intros <- H. Qed.

(** ** Assignment and retry *)

Lemma o_assign request w assigned rev s :
  reached s → clear_name (st_disk s) w → plain request →
  spec (assign_work request w assigned rev) s (λ _, reached) broken.
Proof.
  intros Hr Hc Hp. unfold assign_work.
  apply o_item; [done..|]. intros i s1 _ Hi Hw E1 Hr1.
  apply o_atts; [done|]. intros pa s2 _ Hpa _ E2 Hr2. rw E1 in Hpa E2.
  apply o_check; [done|]. intros [] _. apply o_check; [done|]. intros [] Hterm%ensure_not_inr.
  apply o_check; [done|]. intros [] _. apply o_bump; [done|]. intros u s3 E3 _ Hr3. rw E2 in E3.
  apply (o_commit_self _ i _ pa); rw ?E3; [done..|by eapply attempts_are_of| |done|done|by intros; apply spec_ret].
  intros t. by constructor.
Qed.

Lemma o_retry request w reason rev s :
  reached s → clear_name (st_disk s) w → plain request →
  spec (retry_work request w reason rev) s (λ _, reached) broken.
Proof.
  intros Hr Hc Hp. unfold retry_work.
  apply o_item; [done..|]. intros i s1 _ Hi Hw E1 Hr1.
  apply o_atts; [done|]. intros pa s2 _ Hpa _ E2 Hr2. rw E1 in Hpa E2.
  apply o_check; [done|]. intros [] _. apply o_check; [done|]. intros [] Hf%ensure_not_inr.
  apply o_check; [done|]. intros [] Hb%ensure_not_inr. apply o_check; [done|]. intros [] _.
  apply o_bump; [done|]. intros u s3 E3 _ Hr3. rw E2 in E3.
  apply negb_false_iff, bool_decide_eq_true in Hf. apply bool_decide_eq_false in Hb.
  apply (o_commit_self _ i _ pa); rw ?E3; [done..|by eapply attempts_are_of| |done|done|by intros; apply spec_ret].
  intros t. apply tr_retry; [done|lia].
Qed.

(** ** Work under a lease *)

(** The holder of a live lease on the item [w], and the state it acts on. *)
Record holds (w : string) (d : Disk) (i : WorkItem) (pa : list WorkAttempt) (now : DateTime)
    (a : WorkAttempt) (s : Store) : Prop := {
  hl_disk : st_disk s = d;
  hl_item : dk_items (st_disk s) !! item_name i = Some i;
  hl_work : wi_work_id i = w;
  hl_attempts : attempts_are (st_disk s) i pa;
  hl_nodup : NoDup (wt_attempt_id <$> pa);
  hl_attempt : a ∈ pa;
  hl_reached : reached s;
  hl_run : ledger_run t0 d0 now (st_disk s);
  hl_now : (now ≤ clock (st_tick s))%Z;
}.

Lemma holds_later w d i pa now a s s' :
  holds w d i pa now a s → st_disk s' = st_disk s → (st_tick s ≤ st_tick s')%nat → reached s' →
  holds w d i pa now a s'.
Proof.
  intros [H1 H2 H3 H4 H5 H6 H7 H8 H9] E Ht Hr. split; rw ?E; try done.
  etrans; [done|]. by apply mono_clock.
Qed.

(** The start of [complete_work] and of [under_lease]. *)
Lemma o_holder {B} w id (f : WorkItem → list WorkAttempt → DateTime → option WorkAttempt → LM B) s Q :
  reached s → clear_name (st_disk s) w →
  (∀ i pa now o s',
     (∀ a, o = Some a → wt_work_id a = wi_work_id i → holds w (st_disk s) i pa now a s') →
     reached s' → spec (f i pa now o) s' Q broken) →
  spec (item ← require_work_item w;
        prior_attempts ← list_work_attempts (Some w);
        now ← now_utc;
        o ← load_work_attempt id;
        f item prior_attempts now o) s Q broken.
Proof.
  intros Hr Hc Hf. apply o_item; [done..|]. intros i s1 _ Hi Hw E1 Hr1.
  apply o_atts; [done|]. intros pa s2 _ Hpa Hnd E2 Hr2. rw E1 in Hpa E2.
  apply o_now; [done|]. intros s3 E3 _ Hr3 Hrun Hle. rw E2 in E3.
  pose proof (reached_good _ _ good0 _ Hr3) as Hg3.
  eapply o_read; [done|by apply r_attempt|]. intros o s4 Ht4 Ho E4 Hr4. rw E3 in Ho E4.
  apply Hf; [|done]. intros a Ha Haw. specialize (Ho a Ha). split; rw ?E4; try done.
  - by eapply attempts_are_of.
  - apply Hpa, elem_of_attempts_of. split; [by eauto|]. congruence.
  - by rw -E3.
  - etrans; [done|]. by apply mono_clock.
Qed.

Lemma o_under_lease w id token s :
  reached s → clear_name (st_disk s) w →
  spec (under_lease w id token) s
    (λ '(i, pa, now, a) s', holds w (st_disk s) i pa now a s' ∧ lease_active_at a now = true) broken.
Proof.
  intros Hr Hc. unfold under_lease. apply o_item; [done..|]. intros i s1 _ Hi Hw E1 Hr1.
  apply o_atts; [done|]. intros pa s2 _ Hpa Hnd E2 Hr2. rw E1 in Hpa E2.
  apply o_now; [done|]. intros s3 E3 _ Hr3 Hrun Hle. rw E2 in E3.
  eapply (o_seq _ _ _ (λ a s', holds w (st_disk s) i pa (clock (st_tick s2)) a s'
    ∧ lease_active_at a (clock (st_tick s2)) = true)); [|intros a s' _ [??]; by apply spec_ret].
  pose proof (reached_good _ _ good0 _ Hr3) as Hg3. unfold load_active_attempt_for_token.
  eapply o_read; [done|by apply r_attempt|]. intros o s4 Ht4 Ho E4 Hr4. rw E3 in Ho E4.
  apply o_check; [done|]. intros a Ha. apply o_check; [done|]. intros [] Haw%ensure_not_inr.
  apply o_check; [done|]. intros [] _. apply o_check; [done|].
  intros [] Hact%ensure_not_inr. destruct o as [a'|]; [|done]. injection Ha as ->. specialize (Ho a eq_refl).
  apply bool_decide_eq_false, dec_stable in Haw. apply orb_false_iff in Hact as [Ha1 Ha2].
  apply negb_false_iff in Ha1. apply bool_decide_eq_false in Ha2. apply spec_ret.
  split; [|apply lease_active_true; split; [done|lia]]. split; rw ?E4; try done.
  - by eapply attempts_are_of.
  - apply Hpa, elem_of_attempts_of. split; [by eauto|]. congruence.
  - by rw -E3.
  - etrans; [done|]. by apply mono_clock.
Qed.

Lemma o_commit_leased {B} request op w d i j pa a a' now (f : unit → LM B) s Q :
  holds w d i pa now a s → wt_attempt_id a' = wt_attempt_id a →
  (∀ na, swapped pa a a' na → transition now i pa j na) → op ≠ "managed_finalization" →
  (∀ s', reached s' → spec (f ()) s' Q broken) →
  spec (commit_leased request op i j pa a' ≫= f) s Q broken.
Proof.
  intros H Hid Ht Hop Hf. eapply (o_seq _ _ _ (λ _, reached)); [|by intros [] ? _ ?; apply Hf].
  unfold commit_leased. apply o_check; [by apply H|]. intros na Hna.
  apply (replace_swapped _ a) in Hna; [|by eapply hl_nodup|by eapply hl_attempt|done].
  eapply spec_mono; [eapply (o_commit t0 d0 good0 op i j pa na request s now)| |done].
  - apply H.
  - apply H.
  - apply H.
  - apply H.
  - by apply Ht.
  - done.
  - destruct request; [left|done]. destruct Hna as (_ & _ & Hna). intros ->.
    by apply (not_elem_of_nil a'), Hna; left.
  - by eapply no_new_swapped.
  - by intros [] s' _ [? _].
Qed.

Section leased.
Context (request : option WorkRequestBinding) (w id token : string) (s : Store)
  (Hr : reached s) (Hc : clear_name (st_disk s) w).

Lemma o_renew lease_ms : spec (renew_work_lease request w id token lease_ms) s (λ _, reached) broken.
Proof.
  apply o_check; [done|]. intros lease _.
  eapply o_seq; [by apply o_under_lease|]. intros [[[i pa] now] a] s1 _ [H Ha].
  eapply o_commit_leased; [done..| |done|by intros; apply spec_ret]. intros na Hs. by eapply tr_renew.
Qed.

Lemma o_link run : spec (link_work_run request w id token run) s (λ _, reached) broken.
Proof.
  eapply o_seq; [by apply o_under_lease|]. intros [[[i pa] now] a] s1 _ [H Ha].
  apply o_check; [by apply H|]. intros a' Hl.
  eapply o_commit_leased; [done|by apply linked_facts in Hl as (? & _)| |done|by intros; apply spec_ret].
  intros na Hs. by eapply tr_link.
Qed.

Lemma o_progress progress : spec (report_work_progress request w id token progress) s (λ _, reached) broken.
Proof.
  eapply o_seq; [by apply o_under_lease|]. intros [[[i pa] now] a] s1 _ [H Ha].
  apply o_bump; [by apply H|]. intros u s2 E2 Ht Hr2.
  eapply o_commit_leased; [by eapply holds_later|done| |done|by intros; apply spec_ret].
  intros na Hs. by eapply tr_progress.
Qed.

Lemma o_park reason : spec (park_work_input w id token reason) s (λ _, reached) broken.
Proof.
  eapply o_seq; [by apply o_under_lease|]. intros [[[i pa] now] a] s1 _ [H Ha].
  apply o_bump; [by apply H|]. intros u s2 E2 Ht Hr2.
  eapply o_commit_leased; [by eapply holds_later|done| |done|by intros; apply spec_ret].
  intros na Hs. by eapply tr_park.
Qed.

Lemma o_release reason : spec (release_work request w id token reason) s (λ _, reached) broken.
Proof.
  eapply o_seq; [by apply o_under_lease|]. intros [[[i pa] now] a] s1 _ [H Ha].
  apply o_bump; [by apply H|]. intros u s2 E2 Ht Hr2.
  eapply o_commit_leased; [by eapply holds_later|done| |done|by intros; apply spec_ret].
  intros na Hs. by eapply tr_release.
Qed.

Lemma o_fail result : spec (fail_work request w id token result) s (λ _, reached) broken.
Proof.
  apply o_check; [done|]. intros [] _.
  eapply o_seq; [by apply o_under_lease|]. intros [[[i pa] now] a] s1 _ [H Ha].
  apply o_bump; [by apply H|]. intros u s2 E2 Ht Hr2.
  eapply o_commit_leased; [by eapply holds_later|done| |done|by intros; apply spec_ret].
  intros na Hs. eapply tr_fail; [done| |done]. destruct (_ && _); auto.
Qed.
End leased.

(** ** Success *)

Lemma bound_evidence_Some evidence w id runs extra e :
  bound_completion_evidence evidence w id runs extra = inr (Some e) →
  evidence = Some e ∧ ce_work_id e = Some w ∧ is_Some (ce_run_id e).
Proof.
  unfold bound_completion_evidence. destruct evidence as [e'|]; [|done].
  destruct ((_ || _ || _) && _); [done|].
  destruct (negb _) eqn:Hall; [done|]. destruct (_ || _ || _) eqn:Hb; [done|]. intros [= ->].
  apply negb_false_iff in Hall. rw !andb_true_iff !bool_decide_eq_true in Hall.
  rw !orb_false_iff !bool_decide_eq_false in Hb. destruct Hb as [[Hw _] _]. apply dec_stable in Hw. tauto.
Qed.

(** Authority found: the item is backed. *)
Lemma s_authorized item attempt s :
  spec (success_is_authorized item (Some attempt) (wi_result item) None) s
    (λ b s', (b = true → success_backed item) ∧ st_disk s' = st_disk s) (λ s', st_disk s' = st_disk s).
Proof.
  unfold success_is_authorized, success_backed.
  destruct (decide (wp_required_checks (wi_policy item) ≠ [])) as [Hq|Hq].
  { apply spec_bind. split; [cbn; lia|]. cbn. intros _. apply spec_ret. split; [|done].
    destruct (wi_result item) as [r|]; [|done]. cbn. destruct (wr_candidate_verification r) as [v|] eqn:Hv; [|done].
    intros Ha. unfold authorizes_applied_success in Ha. rw !andb_true_iff in Ha. rw !bool_decide_eq_true !negb_true_iff in Ha.
    exists r, v. by split_and!; try apply Ha. }
  destruct (decide (is_Some (wi_approval item))) as [Hap|Hap]; [by apply spec_ret; split; [left|]|].
  assert (union (wi_result item) (wi_result item) = wi_result item) as -> by by destruct (wi_result item).
  destruct (wi_result item) as [r|] eqn:Hres; [|by apply spec_ret].
  destruct (decide (is_Some (wr_failure r) ∨ is_Some (wr_cancellation_reason r))) as [Hf|Hf]; [by apply spec_ret|].
  apply spec_bind, spec_lift_any; [|done]. intros [] _ _. apply spec_bind, spec_lift_any; [|done].
  intros [e|] He _; [|by apply spec_ret]. destruct (evidence_authorizes_success e) eqn:Hau; [|by apply spec_ret].
  apply bound_evidence_Some in He as (Hev & Hw & Hrun).
  assert (success_backed item) as Hb.
  { unfold success_backed. rw decide_False //. right. exists r, e. rw Hres.
    destruct (wr_failure r) eqn:E1; [destruct Hf; by left; eauto|].
    destruct (wr_cancellation_reason r) eqn:E2; [destruct Hf; by right; eauto|]. done. }
  unfold success_backed in Hb. rw decide_False // Hres in Hb. cbn [negb].
  apply spec_bind. unfold ask_or. apply spec_bind. split; [cbn; lia|]. cbn. intros _.
  apply spec_lift_any; [|done]. intros [run|] _ _; [|by split].
  apply spec_bind, spec_lift_any; [|done]. intros [] _ _. destruct (rn_verification run) as [re|]; [|by apply spec_ret].
  destruct (evidence_authorizes_success re); [|by apply spec_ret]. apply spec_bind, spec_lift_any; [|done].
  intros [] _ _. by apply spec_ret.
Qed.

Lemma s_succeeded item attempt s :
  spec (assign_work_succeeded item attempt None) s
    (λ p s', (p = (set_state WSucceeded item, att_state ASucceeded attempt) ∧ success_backed item)
             ∧ st_disk s' = st_disk s) (λ s', st_disk s' = st_disk s).
Proof.
  unfold assign_work_succeeded. eapply spec_seq; [apply s_authorized|done|].
  intros b s1 _ [Hb E]. apply spec_bind, spec_lift_any; [|done].
  intros [] Hc%ensure_not_inr _. apply negb_false_iff in Hc. apply spec_ret. auto.
Qed.

Lemma o_complete request w id token result s :
  reached s → clear_name (st_disk s) w →
  spec (complete_work request w id token result) s (λ _, reached) broken.
Proof.
  intros Hr Hc. apply o_check; [done|]. intros [] _. apply o_holder; [done..|].
  intros i pa now o s1 Hh Hr1. apply o_check; [done|]. intros a Ha. destruct o as [a'|]; [|done].
  injection Ha as ->. apply o_check; [done|]. intros [] Haw%ensure_not_inr.
  apply bool_decide_eq_false, dec_stable in Haw. specialize (Hh a eq_refl Haw).
  apply o_check; [done|]. intros [] _. destruct (already_completed i a).
  { do 2 (apply o_check; [done|]; intros [] _). by apply spec_ret. }
  apply o_check; [done|]. intros [] Hact%ensure_not_inr. apply orb_false_iff in Hact as [Ha1 Ha2].
  apply negb_false_iff in Ha1. apply bool_decide_eq_false in Ha2.
  assert (lease_active_at a now = true) as Hact by (apply lease_active_true; split; [done|lia]).
  cbv zeta. eapply o_read; [done|apply s_authorized|]. intros au s2 Ht2 _ E2 Hr2.
  pose proof (holds_later _ _ _ _ _ _ _ _ Hh E2 Ht2 Hr2) as Hh2.
  destruct (au && negb (wp_requires_approval (wi_policy i))) eqn:Hau.
  - apply andb_true_iff in Hau as [_ Hna%negb_true_iff].
    eapply o_read; [done|apply s_succeeded|]. intros [j b] s3 Ht3 [[= -> ->] Hb] E3 Hr3.
    pose proof (holds_later _ _ _ _ _ _ _ _ Hh2 E3 Ht3 Hr3) as Hh3.
    apply o_bump; [done|]. intros u s4 E4 Ht4 Hr4.
    eapply o_commit_leased; [by eapply holds_later|done| |done|by intros; apply spec_ret].
    intros na Hs. by eapply tr_succeed.
  - apply spec_bind. destruct (ordinary_completion_states i) as [ast wst] eqn:Eo. apply spec_ret. intros _.
    apply o_bump; [done|]. intros u s4 E4 Ht4 Hr4.
    eapply o_commit_leased; [by eapply holds_later|done| |done|by intros; apply spec_ret].
    intros na Hs. pose proof (tr_complete now i pa a result u na Hact) as H. rw Eo in H. by apply H.
Qed.

(** ** Reconciliation *)

Lemma ro_load_item w : readonly (load_work_item w).
Proof. unfold load_work_item. readonly. Qed.

Lemma ro_resolve_each scope ds states : readonly (resolve_each scope ds states).
Proof.
  revert states. induction ds as [|dep ds IH]; intros states; cbn [resolve_each]; [apply ro_ret|].
  apply ro_bind; [|done]. intros s. unfold resolve_dependency, spec.
  destruct (ro_load_item (dep_work_id dep) s) as [Ht Hl].
  by destruct (load_work_item (dep_work_id dep) s) as [[]?].
Qed.

Lemma o_commit_refresh i next s :
  reached s → dk_items (st_disk s) !! item_name i = Some i →
  (∀ j, next = Some j → ∀ t pa u, transition t i pa (bump_at j u) pa) →
  spec (commit_refresh i next) s
    (λ j s', reached s' ∧ confined i j (st_disk s) (st_disk s')) broken.
Proof.
  intros Hr Hi Hn. unfold commit_refresh. destruct next as [j|]; [|apply spec_ret; eauto using confined_refl].
  specialize (Hn j eq_refl). apply o_bump; [done|]. intros u s1 E1 _ Hr1.
  eapply (o_seq _ _ _ (λ _ s', reached s' ∧ confined i (bump_at j u) (st_disk s) (st_disk s')));
    [|intros [] s' _ [??]; by apply spec_ret].
  unfold commit_refreshed_work_item. apply o_atts; [done|]. intros pa s2 _ Hpa Hnd E2 Hr2. rw E1 in Hpa E2.
  destruct (transition_core _ _ _ _ _ (Hn 0%Z pa u)) as [(Hw & _) _].
  assert (attempts_are (st_disk s) i pa) as Hpa' by by (intros a; rw -Hw; apply Hpa).
  apply spec_anyhow. unfold commit_work_lifecycle_snapshots.
  eapply spec_mono; [apply (o_commit_now "refresh" i _ pa); rw ?E2|..]; [done..|apply no_new_self| |done].
  intros [] s3 _ [Hr3 Hl]. rw E2 in Hl. split; [done|]. pose proof (reached_good _ _ good0 _ Hr) as Hg.
  eapply lands_confined; [apply Hg|done|by eapply Hn| |exact Hl].
  intros x Hx. apply list_elem_of_fmap. eauto.
Qed.

Lemma o_refresh i now s :
  reached s → dk_items (st_disk s) !! item_name i = Some i →
  spec (refresh_work_item_at i now) s
    (λ j s', reached s' ∧ confined i j (st_disk s) (st_disk s')) broken.
Proof.
  intros Hr Hi. unfold refresh_work_item_at. destruct (work_is_terminal (wi_state i)) eqn:Ht.
  { apply spec_ret. eauto using confined_refl. }
  apply o_ro; [done|apply ro_resolve_each|]. intros states s1 _ E1 Hr1. cbv zeta. rw -E1 in Hi.
  eapply o_seq; [apply o_commit_refresh; [done..|]|].
  { intros j Hj t pa u. by eapply tr_wait. }
  intros j s2 _ [Hr2 Hc2]. rw E1 in Hc2. destruct (_ || _); [by apply spec_ret|].
  eapply spec_mono; [apply o_commit_refresh; [done|apply Hc2|]| |done].
  - intros j' Hj' t pa u. by eapply tr_deadline.
  - intros j' s3 _ [Hr3 Hc3]. split; [done|]. by eapply confined_trans.
Qed.

(** The attempts still to look at are on disk as they were read. *)
Definition unread (i : WorkItem) (l : list WorkAttempt) (d : Disk) : Prop :=
  NoDup (wt_attempt_id <$> l) ∧
  Forall (λ b, dk_attempts d !! att_name b = Some b ∧ wt_work_id b = wi_work_id i) l.

Lemma unread_tail i a l d : unread i (a :: l) d → unread i l d.
Proof. intros [[_ ?]%NoDup_cons [_ ?]%Forall_cons]. by split. Qed.

(** Closing one attempt leaves the others. *)
Lemma unread_swapped t i j pa na a a' l d d' :
  good d → good d' → attempts_are d i pa → unread i (a :: l) d → swapped pa a a' na →
  lands t i pa j na d d' → same_core i j → unread j l d'.
Proof.
  intros Hg Hg' Hpa [Hnd Hall] (Ha & Hid & Hna) (_ & _ & Hna' & _) [Hw _].
  pose proof (NoDup_ids_tail a) as Ht. apply Forall_cons in Hall as [_ Hall].
  split; [by apply NoDup_cons in Hnd as [_ ?]|]. rw !Forall_forall in Hall *. intros b Hb.
  destruct (Hall b Hb) as [H1 H2]. rw Hw. apply (attempts_wf_elem (dk_attempts d') (wi_work_id i)); [apply Hg'|].
  rw -Hw. apply Hna', Hna. right. split; [|by eapply Ht].
  apply Hpa, attempts_wf_elem; [apply Hg|done].
Qed.

(** No lease on the item is live at [now]. *)
Definition idle (w : string) (now : DateTime) (d : Disk) : Prop :=
  ∀ b, b ∈ attempts_of w (dk_attempts d) → lease_active_at b now = false.

(** One attempt of [i] was closed at the time [t], the attempts [l] remain. *)
Record closed_one (t : DateTime) (i j : WorkItem) (l : list WorkAttempt) (d d' : Disk) : Prop := {
  co_run : ledger_run t0 d0 t d';
  co_unread : unread j l d';
  co_confined : confined i j d d';
  co_idle now : idle (wi_work_id i) now d → idle (wi_work_id i) now d';
}.

Lemma o_commit_expired op t i j a a' l s :
  ledger_run t0 d0 t (st_disk s) → (t ≤ clock (st_tick s))%Z →
  dk_items (st_disk s) !! item_name i = Some i → unread i (a :: l) (st_disk s) →
  wt_attempt_id a' = wt_attempt_id a → attempt_is_active (wt_state a') = false → same_core i j →
  (∀ t pa na, swapped pa a a' na → transition t i pa j na) → op ≠ "managed_finalization" →
  spec (commit_expired_attempt_lifecycle op i j a') s
    (λ _ s', closed_one t i j l (st_disk s) (st_disk s')) broken.
Proof.
  intros Hrun Ht Hi Hu Hid Hact Hco Htr Hop. pose proof (run_good _ _ _ _ good0 Hrun) as Hg.
  assert (reached s) as Hr by by eapply run_weaken.
  unfold commit_expired_attempt_lifecycle. apply o_atts; [done|]. intros pa s1 Ht1 Hpa Hnd E1 Hr1.
  pose proof Hco as [Hw _].
  assert (attempts_are (st_disk s) i pa) as Hpa' by (intros x; rw -Hw; apply Hpa).
  apply o_check; [done|]. intros na Hna.
  destruct (replace_attempt_snapshot pa a') as [e|na'] eqn:Er; [done|]. injection Hna as ->.
  assert (a ∈ pa) as Ha.
  { destruct Hu as [_ [[H1 H2] _]%Forall_cons]. apply Hpa', elem_of_attempts_of. eauto. }
  pose proof (replace_swapped _ a _ _ Hnd Ha Hid Er) as Hs.
  apply spec_anyhow. unfold commit_work_lifecycle_snapshots.
  eapply spec_mono; [apply (o_commit t0 d0 good0 op i j pa na None s1 t); rw ?E1|..];
    [done|by etrans; [|apply mono_clock]|done..|by apply Htr|done|done|by eapply no_new_swapped| |done].
  intros [] s2 _ [Hr2 Hl]. rw E1 in Hl.
  assert (ledger_run t0 d0 t (st_disk s2)) as Hrun2 by (eapply run_snoc; [exact Hrun| |apply Hl]; lia).
  split; [done|..].
  - eapply unread_swapped; [done|by apply (run_good _ _ _ _ good0 Hrun2)|done..].
  - eapply lands_confined; [apply Hg|done|by apply Htr| |exact Hl]. by apply swapped_ids in Hs as [_ ?].
  - intros now Hidle b Hb. destruct Hl as (_ & _ & Hna & _). rw -Hw in Hb.
    apply Hna, Hs in Hb as [->|[Hb _]]; [|by apply Hidle, Hpa'].
    unfold lease_active_at. by rw Hact.
Qed.

Lemma o_expire t i a l now s :
  ledger_run t0 d0 t (st_disk s) → (t ≤ clock (st_tick s))%Z →
  dk_items (st_disk s) !! item_name i = Some i → unread i (a :: l) (st_disk s) →
  requires_lease_heartbeat (wt_state a) = true → (wt_lease_expires_at a ≤ now)%Z →
  spec (expire_attempt i a now) s (λ j s', closed_one t i j l (st_disk s) (st_disk s')) broken.
Proof.
  intros Hrun Ht Hi Hu Hh Hx. unfold expire_attempt. apply o_bump; [by eapply run_weaken|].
  intros u s1 E1 Ht1 Hr1. eapply o_seq; [eapply (o_commit_expired _ t _ _ a _ l); rw ?E1|].
  - done.
  - etrans; [done|]. by apply mono_clock.
  - done.
  - done.
  - done.
  - done.
  - by destruct (expired_item_facts i a now) as [? _].
  - intros t' pa na Hs. by eapply tr_expire.
  - done.
  - intros [] s2 _ H. apply spec_ret. by rw E1 in H.
Qed.

Lemma o_expire_terminal t i a l now s :
  ledger_run t0 d0 t (st_disk s) → (t ≤ clock (st_tick s))%Z →
  dk_items (st_disk s) !! item_name i = Some i → unread i (a :: l) (st_disk s) →
  work_is_terminal (wi_state i) = true →
  requires_lease_heartbeat (wt_state a) = true → (wt_lease_expires_at a ≤ now)%Z →
  spec (expire_terminal_attempt i a now) s
    (λ _ s', closed_one t i i l (st_disk s) (st_disk s')) broken.
Proof.
  intros Hrun Ht Hi Hu Hterm Hh Hx. eapply (o_commit_expired _ _ _ _ a _ l); [done..| |done].
  intros t' pa na Hs. by eapply tr_expire_terminal.
Qed.

(** A later moment of the same run. *)
Lemma run_now t s s' :
  ledger_run t0 d0 t (st_disk s') → (t ≤ clock (st_tick s))%Z → (st_tick s ≤ st_tick s')%nat → reached s'.
Proof. intros H H1 H2. eapply run_weaken; [done|]. etrans; [done|]. by apply mono_clock. Qed.

Lemma o_reconcile_attempts i l now report s :
  reached s → dk_items (st_disk s) !! item_name i = Some i → unread i l (st_disk s) →
  spec (reconcile_attempts i l now report) s
    (λ _ s', reached s' ∧ ∃ j, confined i j (st_disk s) (st_disk s')) broken.
Proof.
  revert i report s. induction l as [|a l IH]; intros i report s Hr Hi Hu; cbn [reconcile_attempts].
  { apply spec_ret. eauto using confined_refl. }
  destruct (_ || _) eqn:Hskip.
  { apply IH; [done..|]. by eapply unread_tail. }
  apply orb_false_iff in Hskip as [Hh%negb_false_iff Hx%bool_decide_eq_false].
  destruct (work_is_terminal (wi_state i)) eqn:Hterm.
  - eapply o_seq; [apply (o_expire_terminal (clock (st_tick s)) i a l); [exact Hr|done..|lia]|].
    intros [] s1 Ht1 [Hrun1 Hu1 Hc1 _]. eapply spec_mono; [apply IH; [by eapply run_now|apply Hc1|done]| |done].
    intros r s2 _ [Hr2 [j Hc2]]. split; [done|]. exists j. by eapply confined_trans.
  - eapply o_seq; [apply (o_expire (clock (st_tick s)) i a l); [exact Hr|done..|lia]|].
    intros k s1 Ht1 [Hrun1 Hu1 Hc1 _]. eapply spec_mono; [apply IH; [by eapply run_now|apply Hc1|done]| |done].
    intros r s2 _ [Hr2 [j Hc2]]. split; [done|]. exists j. by eapply confined_trans.
Qed.

Lemma o_reconcile_items l now report s :
  reached s → NoDup (item_name <$> l) →
  Forall (λ i, dk_items (st_disk s) !! item_name i = Some i) l →
  spec (reconcile_items l now report) s (λ _, reached) broken.
Proof.
  revert report s. induction l as [|i l IH]; intros report s Hr Hnd Hall; cbn [reconcile_items].
  { by apply spec_ret. }
  apply NoDup_cons in Hnd as [Hni Hnd]. apply Forall_cons in Hall as [Hi Hall].
  eapply o_seq; [by apply o_refresh|]. intros j s1 _ [Hr1 Hc1]. cbv zeta.
  apply o_atts; [done|]. intros pa s2 _ Hpa Hnda E2 Hr2.
  eapply o_seq; [apply (o_reconcile_attempts j); rw ?E2|].
  - done.
  - apply Hc1.
  - split; [done|]. apply Forall_forall. intros a Ha%Hpa.
    apply attempts_wf_elem in Ha; [done|]. by apply (reached_good _ _ good0 _ Hr1).
  - intros r s3 _ [Hr3 [k Hc3]]. rw E2 in Hc3. apply IH; [done..|].
    pose proof (confined_trans _ _ _ _ _ _ Hc1 Hc3) as Hc.
    rw !Forall_forall in Hall *. intros x Hx. rw (cf_others _ _ _ _ Hc); [by apply Hall|].
    intros E. apply Hni. rw -E. apply list_elem_of_fmap. eauto.
Qed.

Lemma r_items s :
  good (st_disk s) →
  spec list_work_items s
    (λ l s', (NoDup (item_name <$> l) ∧ Forall (λ i, dk_items (st_disk s) !! item_name i = Some i) l)
             ∧ st_disk s' = st_disk s) (λ s', st_disk s' = st_disk s).
Proof.
  intros Hg. unfold list_work_items. set (m := dk_items (st_disk s)).
  eapply spec_seq; [apply spec_read_dir|by intros s' [? _]|]. intros names s1 _ [Hn Hs1].
  fold m in Hn. destruct (map_to_list m) as [|[k0 dft] rest] eqn:Em.
  { assert (names = []) as -> by (by apply Permutation_nil_r).
    apply spec_bind. cbn [collect]. apply spec_ret. intros _. apply spec_ret. split; [split; constructor|done]. }
  rw -Em in Hn. eapply spec_seq; [apply (spec_read_entries dk_items _ _ _ dft m)| |].
  - by rw Hs1.
  - intros k. by rw Hn.
  - intros k i Hk. by destruct (gd_items _ Hg _ _ Hk) as [_ ->].
  - rw Hs1. by intros s' [? _].
  - intros l s2 _ [-> Hs2]. apply spec_ret. split; [|congruence].
    unfold order_work. rw sort_by_perm (defaults_of_keys m dft names Hn). split.
    + assert (item_name <$> (map_to_list m).*2 = (map_to_list m).*1) as ->; [|apply NoDup_fst_map_to_list].
      rw -list_fmap_compose. apply list_fmap_ext. intros n [k i] Hk. cbn.
      apply list_elem_of_lookup_2, elem_of_map_to_list in Hk. by destruct (gd_items _ Hg _ _ Hk).
    + apply Forall_forall. intros i ([k i'] & -> & Hk%elem_of_map_to_list)%list_elem_of_fmap. cbn.
      by destruct (gd_items _ Hg _ _ Hk) as [<- _].
Qed.

Lemma o_reconcile_at now s : reached s → spec (reconcile_workloads_at now) s (λ _, reached) broken.
Proof.
  intros Hr. eapply o_read; [done|by apply r_items, (reached_good _ _ good0 _ Hr)|].
  intros l s1 _ [Hnd Hall] E Hr1. apply o_reconcile_items; [done..|]. by rw E.
Qed.

Lemma o_reconcile s : reached s → spec reconcile_workloads s (λ _, reached) broken.
Proof. intros Hr. apply o_now; [done|]. intros s1 _ _ Hr1 _ _. by apply o_reconcile_at. Qed.

(** ** Claims *)

Lemma o_expire_lapsed t i l now s :
  ledger_run t0 d0 t (st_disk s) → (t ≤ clock (st_tick s))%Z →
  dk_items (st_disk s) !! item_name i = Some i → unread i l (st_disk s) →
  spec (expire_lapsed i l now) s
    (λ j s', ledger_run t0 d0 t (st_disk s') ∧ confined i j (st_disk s) (st_disk s')
       ∧ ∀ now', idle (wi_work_id i) now' (st_disk s) → idle (wi_work_id i) now' (st_disk s')) broken.
Proof.
  revert i s. induction l as [|a l IH]; intros i s Hrun Ht Hi Hu; cbn [expire_lapsed].
  { apply spec_ret. eauto using confined_refl. }
  destruct (_ && _) eqn:Hx; [|by apply IH; eauto using unread_tail].
  apply andb_true_iff in Hx as [Hh Hx%negb_true_iff]. unfold lease_active_at in Hx.
  rw heartbeat_active // in Hx. apply bool_decide_eq_false in Hx.
  eapply o_seq; [apply (o_expire t i a l); [done..|lia]|]. intros j s1 Ht1 [Hrun1 Hu1 Hc1 Hid1].
  eapply spec_mono; [apply IH; [done|by etrans; [|apply mono_clock]|apply Hc1|done]| |done].
  intros k s2 _ (Hrun2 & Hc2 & Hid2). split; [done|]. split; [by eapply confined_trans|].
  destruct (cf_core _ _ _ _ Hc1) as [Hw _]. rw Hw in Hid2. auto.
Qed.

Lemma ro_ask {A} (f : nat → A) : readonly (ask f).
Proof. intros s. split; [cbn; lia|done]. Qed.

Lemma ro_agent id session workspace : readonly (require_agent_in_scope id session workspace).
Proof. unfold require_agent_in_scope, ask_or. readonly. apply ro_ask. Qed.

Lemma ro_fence i claimant fence : readonly (require_managed_grok_claim_fence i claimant fence).
Proof. unfold require_managed_grok_claim_fence. readonly. apply ro_agent. Qed.

(** The identifiers of the environment name no file yet. *)
Definition fresh_names (s : Store) : Prop :=
  ∀ n, (st_tick s ≤ n)%nat → dk_attempts (st_disk s) !! file_of (fresh_uuid n) = None
    ∧ ∀ w, dk_decisions (st_disk s) !! (w, file_of (fresh_uuid n)) = None.

Lemma o_mint i claimant secret s :
  reached s →
  spec (mint_attempt i claimant secret) s
    (λ p s', reached s' ∧ st_disk s' = st_disk s ∧ wt_work_id p.1 = wi_work_id i
       ∧ wt_attempt_number p.1 = (wi_attempt_count i + 1)%Z ∧ wt_state p.1 = ALeased
       ∧ wt_claimant_id p.1 = claimant ∧ token_matches p.1 p.2 = true
       ∧ ∃ n, (st_tick s ≤ n)%nat ∧ wt_attempt_id p.1 = fresh_uuid n) broken.
Proof.
  intros Hr. unfold mint_attempt. destruct secret as [secret|].
  - apply spec_bind, spec_now. intros s1 E1 T1 _. apply spec_bind, spec_uuid. intros s2 E2 T2 _.
    apply spec_ret. split; [eapply reached_same; [done|congruence|lia]|]. split; [congruence|].
    split_and!; [done|done|done|done|by apply bool_decide_eq_true_2|]. exists (st_tick s1). split; [lia|done].
  - apply spec_bind, spec_uuid. intros s1 E1 T1 _. apply spec_bind, spec_now. intros s2 E2 T2 _.
    apply spec_bind, spec_uuid. intros s3 E3 T3 _.
    apply spec_ret. split; [eapply reached_same; [done|congruence|lia]|]. split; [congruence|].
    split_and!; [done|done|done|done|by apply bool_decide_eq_true_2|]. exists (st_tick s2). split; [lia|done].
Qed.

Lemma lease_duration_bound lease_ms lease :
  match lease_ms with Some ms => (0 ≤ ms)%Z | None => True end → lease_duration lease_ms = inr lease →
  (0 < lease ≤ MAX_WORK_LEASE_MS * 10 ^ 6)%Z.
Proof.
  unfold lease_duration. intros Hms (? & H%refuse_if_inr & [= <-])%ores_bind_inr.
  apply bool_decide_eq_false in H. destruct lease_ms as [ms|]; cbn in *; [lia|]. unfold DEFAULT_WORK_LEASE_MS, MAX_WORK_LEASE_MS in *. lia.
Qed.

(** The last part of a claim: the item is queued, admissible and idle. *)
Lemma o_claim_commit request i pa a lease now states s :
  ledger_run t0 d0 now (st_disk s) → (now ≤ clock (st_tick s))%Z →
  dk_items (st_disk s) !! item_name i = Some i → attempts_are (st_disk s) i pa →
  wi_is_container i = false → wi_state i = WQueued → evaluate_admission i states now = Admissible →
  is_claimable_by (wi_assignment_status i) (wi_assigned_agent_id i) (wt_claimant_id a) = inr () →
  idle (wi_work_id i) now (st_disk s) → dk_attempts (st_disk s) !! att_name a = None →
  wt_work_id a = wi_work_id i → wt_attempt_number a = (wi_attempt_count i + 1)%Z →
  wt_state a = ALeased → (0 < lease ≤ MAX_WORK_LEASE_MS * 10 ^ 6)%Z → ∀ u,
  spec (commit_lifecycle_with_request "claim" i
          (bump_at (set_state WLeased (set_attempt_count (wt_attempt_number a) i)) u) pa
          (pa ++ [att_acquire now (now + lease)%Z a]) request) s
    (λ _ s', reached s' ∧ lands now i pa
       (bump_at (set_state WLeased (set_attempt_count (wt_attempt_number a) i)) u)
       (pa ++ [att_acquire now (now + lease)%Z a]) (st_disk s) (st_disk s')) broken.
Proof.
  intros Hrun Hle Hi Hpa Hcon Hq Hadm Hcl Hidle Hfree Haw Hnum Hst Hl u.
  pose proof (run_good _ _ _ _ good0 Hrun) as Hg.
  assert (wt_attempt_id a ∉ wt_attempt_id <$> pa) as Hid.
  { intros (p & E & Hp)%list_elem_of_fmap. apply Hpa, attempts_wf_elem in Hp as [Hp _]; [|apply Hg].
    unfold att_name in *. congruence. }
  set (a' := att_acquire now (now + lease)%Z a).
  apply (o_commit t0 d0 good0 "claim" i _ pa (pa ++ [a']) request s now); [done..| | | |].
  - apply (tr_claim now i pa a' states u); try done; [|cbn; lia].
    intros b Hb. by apply Hidle, Hpa.
  - done.
  - destruct request; [|done]. left. by destruct pa.
  - intros x [Hx|Hx]%elem_of_app Hn; [destruct Hn; apply list_elem_of_fmap; eauto|].
    apply list_elem_of_singleton in Hx as ->. done.
Qed.

(** What a claim that returned has put on the disk: the item leased to the
    claimant under a live lease of the requested length, which the token of the
    claim opens and which is the only one. *)
Record granted (w claimant : string) (lease_ms : option Z) (c : WorkClaim) (d : Disk) : Prop := {
  gr_item : dk_items d !! item_name (wc_work c) = Some (wc_work c);
  gr_work : wi_work_id (wc_work c) = w;
  gr_state : wi_state (wc_work c) = WLeased;
  gr_attempt : dk_attempts d !! att_name (wc_attempt c) = Some (wc_attempt c);
  gr_attempt_work : wt_work_id (wc_attempt c) = w;
  gr_claimant : wt_claimant_id (wc_attempt c) = claimant;
  gr_number : wt_attempt_number (wc_attempt c) = wi_attempt_count (wc_work c);
  gr_token : token_matches (wc_attempt c) (wc_lease_token c) = true;
  gr_lease : lease_duration lease_ms
    = inr (wt_lease_expires_at (wc_attempt c) - wt_acquired_at (wc_attempt c))%Z;
  gr_live : lease_active_at (wc_attempt c) (wt_acquired_at (wc_attempt c)) = true;
  gr_alone b : b ∈ attempts_of w (dk_attempts d) → b ≠ wc_attempt c →
    lease_active_at b (wt_acquired_at (wc_attempt c)) = false;
}.

(** What the first half of a claim establishes. *)
Record claim_ready (w : string) (d : Disk) (i : WorkItem) (now : DateTime) (s : Store) : Prop := {
  cr_run : ledger_run t0 d0 now (st_disk s);
  cr_now : (now ≤ clock (st_tick s))%Z;
  cr_item : dk_items (st_disk s) !! item_name i = Some i;
  cr_work : wi_work_id i = w;
  cr_container : wi_is_container i = false;
  cr_queued : wi_state i = WQueued;
  cr_idle : idle w now (st_disk s);
  cr_free k : dk_attempts d !! k = None → dk_attempts (st_disk s) !! k = None;
}.

Lemma o_active w now s :
  reached s →
  spec (active_attempt w now) s
    (λ o s', (reached s' ∧ st_disk s' = st_disk s) ∧ (o = None → idle w now (st_disk s))) broken.
Proof.
  intros Hr. unfold active_attempt. apply o_atts; [done|]. intros pa s6 T6 Hpa _ E6 Hr6. apply spec_ret.
  split; [done|]. intros Hnone b Hb. apply Hpa, list_elem_of_In in Hb. by apply (List.find_none _ _ Hnone).
Qed.

Lemma o_claimable w claimant fence s :
  reached s → clear_name (st_disk s) w →
  spec (claimable_item w claimant fence) s (λ '(i, now), claim_ready w (st_disk s) i now) broken.
Proof.
  intros Hr Hc. apply o_item; [done..|]. intros i s1 T1 Hi Hw E1 Hr1.
  apply o_check; [done|]. intros [] Hcon%ensure_not_inr.
  apply o_now; [done|]. intros s2 E2 T2 Hr2 _ _. rw E1 in E2. rw -E2 in Hi.
  eapply o_seq; [by apply o_refresh|]. intros i2 s3 T3 [Hr3 Hc3].
  eapply (o_seq _ _ _ (λ _ s', reached s' ∧ st_disk s' = st_disk s3)).
  { destruct fence as [fence|]; [|by apply spec_ret]. eapply spec_mono_tick; [apply ro_fence|..].
    - intros u s' Ht E. split; [|done]. by eapply reached_same.
    - intros s' Ht E. left. by eapply reached_same. }
  intros [] s4 T4 [Hr4 E4]. apply o_now; [done|]. intros s5 E5 T5 Hr5 Hrun5 Hle5. set (now := clock (st_tick s4)) in *.
  eapply o_seq; [by apply (o_active w now)|]. intros active s6 T6 [[Hr6 E6] Hidle].
  apply o_check; [done|]. intros [] Hact%ensure_not_inr.
  destruct active; [by rw bool_decide_eq_true_2 in Hact|]. specialize (Hidle eq_refl).
  apply o_atts; [done|]. intros pa7 s7 T7 Hpa7 Hnd7 E7 Hr7.
  assert (wi_work_id i2 = w) as Hw2 by (destruct (cf_core _ _ _ _ Hc3) as [-> _]; done).
  assert (st_disk s7 = st_disk s3) as E73 by congruence.
  eapply o_seq; [apply (o_expire_lapsed now i2 pa7)|].
  - by rw E7 E6.
  - apply mono_clock. lia.
  - rw E73. apply Hc3.
  - split; [done|]. apply Forall_forall. intros a Ha%Hpa7. rw -E7 in Ha.
    apply attempts_wf_elem in Ha; [by rw Hw2|]. by apply (reached_good _ _ good0 _ Hr7).
  - intros i3 s8 T8 (Hrun8 & Hc8 & Hid8). rw Hw2 in Hid8. rw E73 in Hc8.
    pose proof (confined_trans _ _ _ _ _ _ Hc3 Hc8) as Hc9.
    assert (now ≤ clock (st_tick s8))%Z as Hle8 by (apply mono_clock; lia).
    apply o_check; [by eapply run_weaken|]. intros [] Hq%ensure_not_inr.
    apply negb_false_iff, bool_decide_eq_true in Hq. apply spec_ret.
    destruct (cf_core _ _ _ _ Hc9) as (Hw9 & _ & _ & _ & _ & _ & _ & Hcon9).
    split; [done..|apply Hc9|congruence|congruence|done|apply Hid8; by rw E7 E6|].
    intros k Hk. apply (cf_free _ _ _ _ Hc9). by rw E2.
Qed.

Lemma claim_granted w claimant lease_ms lease i pa a token now u d d' :
  wi_work_id i = w → attempts_are d i pa → idle w now d → wt_work_id a = wi_work_id i →
  wt_attempt_number a = (wi_attempt_count i + 1)%Z → wt_state a = ALeased →
  wt_claimant_id a = claimant → token_matches a token = true →
  lease_duration lease_ms = inr lease → (0 < lease)%Z → good d' →
  lands now i pa (bump_at (set_state WLeased (set_attempt_count (wt_attempt_number a) i)) u)
    (pa ++ [att_acquire now (now + lease)%Z a]) d d' →
  granted w claimant lease_ms
    {| wc_work := bump_at (set_state WLeased (set_attempt_count (wt_attempt_number a) i)) u;
       wc_attempt := att_acquire now (now + lease)%Z a; wc_lease_token := token |} d'.
Proof.
  intros Hw Hpa Hidle Haw Hnum Hst Hcl Htok Hms Hl Hg (_ & Ei & Hat & _).
  set (a' := att_acquire now (now + lease)%Z a) in *.
  assert (a' ∈ attempts_of w (dk_attempts d')) as Ha'.
  { rw -Hw. apply Hat, elem_of_app. right. by apply list_elem_of_singleton. }
  split; cbn [wc_work wc_attempt wc_lease_token]; try done.
  - by rw Ei lookup_insert_eq.
  - apply attempts_wf_elem in Ha'; [by destruct Ha'|apply Hg].
  - by rw -Hw.
  - rw Hms. f_equal. cbn. lia.
  - apply lease_active_true. cbn. rw Hst. split; [done|lia].
  - intros b Hb Hne. rw -Hw in Hb. apply Hat, elem_of_app in Hb as [Hb|Hb].
    + apply Hidle. rw -Hw. by apply Hpa.
    + by apply list_elem_of_singleton in Hb.
Qed.

Lemma o_claim_item request w claimant lease_ms lease secret i now d s :
  claim_ready w d i now s → lease_duration lease_ms = inr lease →
  (0 < lease ≤ MAX_WORK_LEASE_MS * 10 ^ 6)%Z →
  (∀ n, (st_tick s ≤ n)%nat → dk_attempts d !! file_of (fresh_uuid n) = None) →
  spec (claim_item request w claimant lease secret i now) s
    (λ c s', reached s' ∧ granted w claimant lease_ms c (st_disk s')) broken.
Proof.
  intros [Hrun Hle Hi Hw Hcon Hq Hidle Hfree] Hms Hl Hfr.
  assert (reached s) as Hr by by eapply run_weaken. unfold claim_item.
  apply o_ro; [done|apply ro_resolve_each|]. intros states s1 T1 E1 Hr1.
  apply o_check; [done|]. intros [] Hadm%ensure_not_inr.
  assert (evaluate_admission i states now = Admissible) as Hadm'.
  { apply negb_false_iff in Hadm. by destruct (evaluate_admission i states now). }
  apply o_check; [done|]. intros [] Hcl. eapply o_seq; [by apply o_mint|].
  intros [a token] s2 T2 (Hr2 & E2 & Haw & Hnum & Hst & Hcn & Htok & n & Hn & Hid). cbn [fst snd] in *.
  apply o_atts; [done|]. intros pa s3 T3 Hpa _ E3 Hr3. apply o_bump; [done|]. intros u s4 E4 T4 Hr4.
  assert (st_disk s4 = st_disk s) as E40 by congruence.
  assert (attempts_are (st_disk s4) i pa) as Hpa'.
  { rw E40. eapply attempts_are_of; [done|]. intros x. rw Hpa. by rw E2 E1. }
  eapply o_seq; [apply (o_claim_commit request i pa a lease now states); rw ?E40; try done|].
  - etrans; [done|]. apply mono_clock. lia.
  - by rw E40 in Hpa'.
  - by rw Hcn.
  - by rw Hw.
  - apply Hfree. unfold att_name. rw Hid. apply Hfr. lia.
  - intros [] s5 _ [Hr5 Hlands]. apply spec_ret. split; [done|].
    pose proof (reached_good _ _ good0 _ Hr5) as Hg. rw E40 in Hlands Hpa'.
    apply (claim_granted w claimant lease_ms lease i pa a token now u (st_disk s)); [done..|lia|done|done].
Qed.

Lemma o_claim request w claimant lease_ms secret fence s :
  reached s → clear_name (st_disk s) w → fresh_names s →
  match lease_ms with Some ms => (0 ≤ ms)%Z | None => True end →
  spec (claim_work_inner request w claimant lease_ms secret fence) s
    (λ c s', reached s' ∧ granted w claimant lease_ms c (st_disk s')) broken.
Proof.
  intros Hr Hc Hfr Hms. unfold claim_work_inner.
  eapply (o_seq _ _ _ (λ _ s', s' = s)).
  { unfold admission_open, spec. destruct (st_closed s); cbn; (split; [lia|]); [by left|done]. }
  intros [] s' _ ->. apply o_check; [done|]. intros lease Hlease.
  pose proof (lease_duration_bound _ _ Hms Hlease) as Hl.
  apply o_check; [done|]. intros [] _. eapply o_seq; [by apply o_claimable|].
  intros [i now] s1 T1 Hcr. eapply o_claim_item; [done..|]. intros n Hn. apply Hfr. lia.
Qed.

(** ** Cancellation and approval *)

Lemma o_cancel request w reason rev s :
  reached s → clear_name (st_disk s) w → plain request →
  spec (cancel_work_checked request w reason rev) s (λ _, reached) broken.
Proof.
  intros Hr Hc Hp. apply o_item; [done..|]. intros i s1 _ Hi Hw E1 Hr1.
  apply o_check; [done|]. intros [] _. destruct (work_is_terminal (wi_state i)) eqn:Hterm.
  { apply o_atts; [done|]. intros pa s2 _ _ _ _ Hr2. by apply spec_ret. }
  apply o_now; [done|]. intros s2 E2 _ Hr2 _ _. rw E1 in E2. set (now := clock _).
  apply o_atts; [done|]. intros pa s3 _ Hpa _ E3 Hr3. rw E2 in E3 Hpa.
  apply o_bump; [done|]. intros u s4 E4 _ Hr4. rw E3 in E4.
  eapply o_seq; [apply o_commit_now; rw ?E4; [done|exact Hi|by eapply attempts_are_of|..]|].
  - intros t. by apply tr_cancel.
  - done.
  - by apply plain_shape.
  - intros a (b & -> & Hb)%list_elem_of_fmap []. rw cancel_attempt_id. apply list_elem_of_fmap. eauto.
  - intros [] s5 _ [Hr5 _]. by apply spec_ret.
Qed.

Lemma ro_bind_candidate i approval : readonly (bind_candidate i approval).
Proof. unfold bind_candidate, ask_or. readonly; apply ro_ask. Qed.

Lemma find_last_state st l a : find_last (is_att_state st) l = Some a → a ∈ l ∧ wt_state a = st.
Proof.
  unfold find_last. intros [H1%list_elem_of_In H2%bool_decide_eq_true]%List.find_some.
  by rw elem_of_reverse in H1.
Qed.

(** The commit of an approval: the awaiting attempt is replaced in its slot. *)
Lemma o_commit_approved {B} op request i j pa a a' (f : unit → LM B) s Q :
  reached s → dk_items (st_disk s) !! item_name i = Some i → attempts_are (st_disk s) i pa →
  NoDup (wt_attempt_id <$> pa) → find_last (is_att_state AAwaitingApproval) pa = Some a →
  wt_attempt_id a' = wt_attempt_id a →
  (∀ t na, swapped pa a a' na → transition t i pa j na) → op ≠ "managed_finalization" →
  (∀ s', reached s' → spec (f ()) s' Q broken) →
  spec (commit_lifecycle_with_request op i j pa
          (alter_last (is_att_state AAwaitingApproval) (λ _, a') pa) request ≫= f) s Q broken.
Proof.
  intros Hr Hi Hpa Hnd Hf Hid Htr Hop Hk.
  pose proof (alter_last_swapped _ (λ _, a') _ _ Hnd Hf Hid) as Hs.
  eapply o_seq; [apply o_commit_now; [done..|by intros; apply Htr|done| |by eapply no_new_swapped]|].
  - destruct request; [left|done]. intros E. destruct Hs as (_ & _ & Hs).
    apply (not_elem_of_nil a'). rw -E. apply Hs. by left.
  - intros [] s' _ [Hr' _]. by apply Hk.
Qed.

Lemma o_approve request w reviewer note rev s :
  reached s → clear_name (st_disk s) w →
  spec (approve_work request w reviewer note rev) s (λ _, reached) broken.
Proof.
  intros Hr Hc. apply o_now; [done|]. intros s1 E1 _ Hr1 _ _. set (at_ := clock _). rw -E1 in Hc.
  cbv zeta. apply o_check; [done|]. intros [] _. apply o_item; [done..|]. intros i s2 _ Hi Hw E2 Hr2.
  destruct (is_state WSucceeded i && approved_by reviewer i).
  { apply o_atts; [done|]. intros pa s3 _ _ _ _ Hr3. apply o_check; [done|]. intros a _. by apply spec_ret. }
  do 2 (apply o_check; [done|]; intros [] _). apply o_check; [done|]. intros [] Hst%ensure_not_inr.
  apply negb_false_iff, bool_decide_eq_true in Hst.
  apply o_atts; [done|]. intros pa s3 _ Hpa Hnd E3 Hr3. rw E2 in Hpa E3. rw -E3 in Hi Hpa.
  pose proof (attempts_are_of _ _ _ _ Hw Hpa) as Hpa'.
  apply o_check; [done|]. intros a Ha. destruct (find_last _ pa) as [a'|] eqn:Hfind; [|done].
  injection Ha as ->. destruct (find_last_state _ _ _ Hfind) as [_ Hast].
  destruct (decide (wp_required_checks (wi_policy i) ≠ [])) as [Hq|Hq%dec_stable].
  - destruct (_ && _); [by apply spec_ret|].
    apply o_ro; [done|apply ro_bind_candidate|]. intros bound s4 _ E4 Hr4. apply o_bump; [done|]. intros u s5 E5 _ Hr5. rw E4 in E5.
    eapply o_commit_approved; rw ?E5; [done..| |done|by intros; apply spec_ret].
    intros t na Hs. by eapply tr_approve_candidate.
  - eapply o_read; [done|apply s_succeeded|]. intros [j b] s4 _ [[= -> ->] _] E4 Hr4.
    apply o_bump; [done|]. intros u s5 E5 _ Hr5. rw E4 in E5.
    eapply o_commit_approved; rw ?E5; [done..| |done|by intros; apply spec_ret].
    intros t na Hs. by eapply tr_approve.
Qed.

(** ** Decisions *)

Lemma write_all_id pa m : (∀ a, a ∈ pa → m !! att_name a = Some a) → write_all pa m = m.
Proof.
  induction pa as [|a pa IH]; intros H; [done|]. change (<[att_name a := a]> (write_all pa m) = m).
  rw IH; [|intros; apply H; by right].
  apply insert_id, H. by left.
Qed.

Lemma writable_self d i :
  good d → writable d i (attempts_of (wi_work_id i) (dk_attempts d)) (attempts_of (wi_work_id i) (dk_attempts d)).
Proof.
  intros Hg. set (pa := attempts_of _ _). split.
  - apply Forall_forall. intros a [[k Hk] Hw]%elem_of_attempts_of. by destruct (gd_attempts _ Hg _ _ Hk).
  - eapply (names_nodup d i pa pa); [apply Hg|done|apply attempts_of_nodup, Hg|left|apply no_new_self].
    intros x Hx. apply list_elem_of_fmap. eauto.
  - intros a Ha. apply list_elem_of_fmap. eauto.
  - apply no_new_self.
Qed.

(** A decision is a step of the ledger. *)
Lemma mutated_step t M prior n d :
  good d → mutation_ready M prior n d →
  (∀ pa, transition t prior pa (mi_item M) pa) → lstep t d (mutated M d).
Proof.
  intros Hg R Htr. destruct (mutation_valid M prior n d R) as (Hv & _).
  eapply (lstep_change t d prior (attempts_of (wi_work_id prior) (dk_attempts d))); [apply R|done|apply Htr|done| |done| |].
  - by apply writable_self.
  - cbn. symmetry. apply write_all_id. intros a Ha. apply attempts_wf_elem in Ha as [? _]; [done|apply Hg].
  - apply Hg.
Qed.

Lemma ro_agents i actor assigned : readonly (resolve_assignment_agents i actor assigned).
Proof. unfold resolve_assignment_agents, traverse. readonly; apply ro_agent. Qed.

(** The tail of [mutate_assignment] for an intent that is ready. *)
Lemma o_commit_decision {B} M prior n (f : LM B) s Q :
  reached s → mutation_ready M prior n (st_disk s) →
  (∀ t pa, transition t prior pa (mi_item M) pa) →
  (∀ s', reached s' → spec f s' Q broken) →
  spec (_ ← persist_work_mutation_intent M; _ ← commit_work_mutation_intent M; f) s Q broken.
Proof.
  intros Hr R Htr Hf. pose proof (reached_good _ _ good0 _ Hr) as Hg.
  pose proof (mutated_step (clock (st_tick s)) M prior n _ Hg R (Htr _)) as Hstep.
  assert (∀ s', (st_tick s ≤ st_tick s')%nat → st_disk s' = mutated M (st_disk s) → reached s') as Hdone.
  { intros s' Ht E. unfold LedgerRefine.reached. rw E. eapply run_snoc; [exact Hr| |exact Hstep].
    split; [lia|by apply mono_clock]. }
  assert (∀ s', (st_tick s ≤ st_tick s')%nat → mutation_midway M n (st_disk s) (st_disk s') → broken s') as Hmid.
  { intros s' Ht Hm. right. exists (st_disk s), (mutated M (st_disk s)), (clock (st_tick s)).
    split_and!; [done..|by apply mono_clock|apply Hg|]. by eapply pending_mutation. }
  eapply spec_seq_tick; [by apply (spec_persist_mutation M prior n _ R)| |].
  { intros s' Ht [_ [E|Hm]]; [left; by eapply reached_same|by apply Hmid]. }
  intros [] s1 T1 Hm1. eapply spec_seq_tick; [by apply (spec_commit_mutation M prior n _ R)| |].
  { intros s' Ht [_ [Hm|E]]; [apply Hmid; [lia|done]|left; apply Hdone; [lia|done]]. }
  intros [] s2 T2 E2. apply Hf, Hdone; [lia|done].
Qed.

Lemma o_mutate request m (mutate : WorkItem → ORes WorkItem) s :
  (∀ i j, mutate i = inr j → decided i j) →
  reached s → clear_name (st_disk s) (am_work_id m) → fresh_names s →
  spec (mutate_assignment request m mutate) s (λ _, reached) broken.
Proof.
  intros Hmut Hr Hc Hfr. apply o_check; [done|]. intros [] _. apply o_item; [done..|].
  intros i s1 T1 Hi Hw E1 Hr1. apply o_check; [done|]. intros [] _.
  apply o_ro; [done|apply ro_agents|]. intros [actor policy] s2 T2 E2 Hr2. apply o_check; [done|]. intros j Hj%Hmut.
  apply spec_bind, spec_uuid. intros s3 E3 T3 _. set (id := fresh_uuid (st_tick s2)).
  assert (reached s3) as Hr3 by (eapply reached_same; [exact Hr2|done|lia]). cbv zeta.
  apply o_check; [done|]. intros [] Hval. apply o_check; [done|]. intros M0 HM.
  apply ores_bind_inr in HM as ([] & HMv & [= <-]). set (M0 := Build_WorkMutationIntent _ _ _ _ _ _ _ _ _ _) in *.
  assert (st_disk s3 = st_disk s) as E30 by congruence.
  eapply (o_read _ _ _ _ _ (λ M, (M = M0 ∨ ∃ rq, M = mutation_with_request M0 rq)
    ∧ ∀ response, receipt_ready (mi_request M) response (dk_receipts (st_disk s3)))); [done| |].
  { destruct request as [rq|]; [|by apply spec_ret; split; [split; [by left|]|]].
    eapply spec_seq; [apply spec_validate_bound|done|]. intros [] s4 _ [E4 Hrec]. apply spec_ret.
    split; [|done]. split; [right; by exists rq|done]. }
  intros M s4 T4 [HM Hrec] E4 Hr4. pose proof (reached_good _ _ good0 _ Hr4) as Hg4.
  destruct (decided_facts _ _ Hj) as ((Hjw & _ & _ & _ & _ & Hjd & _) & _ & Hjr & _).
  assert (mutation_ready M i (file_of id) (st_disk s4)) as R.
  { assert (mutation_validate M = inr ()) as Hv by (by destruct HM as [->|[rq ->]]).
    assert (mi_work_id M = wi_work_id i ∧ mi_prior_item_digest M = item_digest i
      ∧ mi_expected_revision M = wi_revision i ∧ wi_dependencies (mi_item M) = wi_dependencies i
      ∧ mi_intent_id M = id ∧ wd_decision_id (mi_decision M) = id) as (H1 & H2 & H3 & H4 & H5 & H6).
    { destruct HM as [->|[rq ->]]; cbn; by rw Hjw Hjd. }
    split; try done.
    - rw H5 -H6. pose proof Hv as H. unfold mutation_validate in H. do 2 (apply ores_bind_inr in H as (? & _ & H)).
      apply ores_bind_inr in H as (? & H & _). unfold decision_validate in H.
      apply ores_bind_inr in H as (? & _ & H). apply ores_bind_inr in H as (? & H & _). by eapply validate_id_safe.
    - destruct (gd_settled _ Hg4) as [-> _]. apply lookup_empty.
    - apply Hg4.
    - rw E4 E30. done.
    - unfold decision_key. rw H6 E4 E30. apply Hfr. lia.
    - rw E4. apply Hrec. }
  eapply o_commit_decision; [done|exact R| |by intros; apply spec_ret].
  intros t pa. destruct HM as [->|[rq ->]]; by apply tr_decide.
Qed.

Lemma o_claim_secret request w claimant lease_ms secret fence s :
  reached s → clear_name (st_disk s) w → fresh_names s →
  match lease_ms with Some ms => (0 ≤ ms)%Z | None => True end →
  spec (_ ← lift (ensure_not (bool_decide (secret = "")) (invalid "lease_secret is required"));
        claim_work_inner request w claimant lease_ms (Some secret) fence) s
    (λ c s', reached s' ∧ granted w claimant lease_ms c (st_disk s')) broken.
Proof. intros. apply o_check; [done|]. intros [] _. by apply o_claim. Qed.

(** ** Creation *)

Lemma ro_scoped_entries scope names items : readonly (scoped_entries scope names items).
Proof.
  revert items. induction names as [|n names IH]; intros items; cbn [scoped_entries]; [apply ro_ret|].
  unfold read_entry. readonly.
Qed.

Lemma ro_validate_for_save i : readonly (validate_work_item_for_save i).
Proof.
  unfold validate_work_item_for_save, scoped_work_items.
  readonly; auto using ro_load_item, ro_scoped_entries.
Qed.

Lemma o_save_new i s :
  reached s → dk_items (st_disk s) !! item_name i = None →
  wi_state i = WQueued → wi_attempt_count i = 0%Z → attempts_are (st_disk s) i [] →
  spec (save_work_item i) s (λ _, reached) broken.
Proof.
  intros Hr Hi Hq Hc Ha.
  assert (item_validate i = inr () ∨ spec (save_work_item i) s (λ _, reached) broken) as [Hv|H]; [| |done].
  { destruct (item_validate i) as [e|[]] eqn:E; [right|by left].
    unfold save_work_item, validate_work_item_for_save. rw E. apply spec_bind, spec_bind. split; [done|by left]. }
  apply o_ro; [done|apply ro_validate_for_save|]. intros [] s1 T1 E1 Hr1. unfold write_work_item.
  rw (item_validate_name i _ Hv). apply o_check; [done|]. intros n [= <-].
  pose proof (reached_good _ _ good0 _ Hr) as Hg.
  assert (∀ s', (st_tick s1 ≤ st_tick s')%nat → st_disk s' = put_item (item_name i) i (st_disk s1) → reached s') as Hw.
  { intros s' T' E'. eapply run_snoc; [exact Hr1| |].
    - split; [done|]. by apply mono_clock.
    - rw E' E1. by eapply lstep_create; try apply Hg. }
  eapply spec_mono_tick; [apply (spec_write_file _ _ (λ _ s', st_disk s' = put_item (item_name i) i (st_disk s1))
    (λ s', st_disk s' = st_disk s1 ∨ st_disk s' = put_item (item_name i) i (st_disk s1)))|..].
  - done.
  - tauto.
  - intros [] s' T' E'. by apply Hw.
  - intros s' T' [E'|E']; left; [by eapply reached_same|by apply Hw].
Qed.
End ops.
