(* ===== verification/LedgerProtocol.v ===== *)
(** * The work ledger as a whole

    The operations of the store as one type, and what a caller and a restarted
    process see of them: the refinement of runs, and the invariants it carries
    to every outcome. *)

From S2P Require Import Prelude Text Window Ids Workload WorkGraph GraphFacts Ledger LedgerStore.
From S2P Require Import LedgerStore LedgerOps LedgerLogic LedgerCommit LedgerRecovery.
From S2P Require Import LedgerSpec LedgerRuns LedgerRefine LedgerOpsRefine.

(** A public method of the store with its arguments; [w] is the work item. *)
Inductive LedgerOp :=
  | OpSave (item : WorkItem)
  | OpAssign (request : option WorkRequestBinding) (w : string) (agent : option string) (rev : option Z)
  | OpOffer (request : option WorkRequestBinding) (w agent actor : string) (actor_agent : option string)
      (reason : string) (rev : option Z) (now : DateTime)
  | OpAccept (request : option WorkRequestBinding) (w agent actor reason : string) (rev : option Z)
      (now : DateTime)
  | OpDecline (request : option WorkRequestBinding) (w agent actor reason : string) (rev : option Z)
      (now : DateTime)
  | OpReassign (request : option WorkRequestBinding) (w agent actor : string)
      (actor_agent : option string) (reason : string) (rev : option Z) (now : DateTime)
  | OpReprioritize (request : option WorkRequestBinding) (w : string) (priority : Z)
      (actor reason : string) (rev : option Z) (now : DateTime)
  | OpBlock (request : option WorkRequestBinding) (w actor reason : string) (rev : option Z) (now : DateTime)
  | OpUnblock (request : option WorkRequestBinding) (w actor reason : string) (rev : option Z) (now : DateTime)
  | OpReview (request : option WorkRequestBinding) (w actor reason : string) (rev : option Z) (now : DateTime)
  | OpAuthorize (request : option WorkRequestBinding) (w actor : string) (actor_agent : option string)
      (reason : string) (rev : option Z) (now : DateTime)
  | OpReconcile (now : option DateTime)
  | OpClaim (request : option WorkRequestBinding) (w claimant : string) (lease_ms : option Z)
  | OpClaimSecret (request : option WorkRequestBinding) (w claimant : string) (lease_ms : option Z)
      (secret : string)
  | OpClaimManaged (request : option WorkRequestBinding) (w claimant : string) (lease_ms : option Z)
      (secret : string) (fence : ManagedGrokClaimFence)
  | OpRenew (request : option WorkRequestBinding) (w attempt token : string) (lease_ms : option Z)
  | OpLink (request : option WorkRequestBinding) (w attempt token run : string)
  | OpProgress (request : option WorkRequestBinding) (w attempt token : string) (progress : WorkProgress)
  | OpPark (w attempt token reason : string)
  | OpRelease (request : option WorkRequestBinding) (w attempt token reason : string)
  | OpComplete (request : option WorkRequestBinding) (w attempt token : string) (result : WorkResult)
  | OpFail (request : option WorkRequestBinding) (w attempt token : string) (result : WorkResult)
  | OpRetry (request : option WorkRequestBinding) (w reason : string) (rev : option Z)
  | OpApprove (request : option WorkRequestBinding) (w reviewer : string) (note : option string) (rev : option Z)
  | OpCancel (request : option WorkRequestBinding) (w reason : string) (rev : option Z).

Section protocol.
Context {SH : Sha256} {DG : LedgerDigests} {FS : FileSystem} {MS : ManagedSettlement}
  {LH : LeaseHash} {LP : LedgerPeers}.

Definition discard `{LedgerEnv} {A} (m : LM A) : LM unit := _ ← m; mret ().

Definition run_op {ENV : LedgerEnv} (op : LedgerOp) : LM unit :=
  match op with
  | OpSave item => save_work_item item
  | OpAssign rq w agent rev => discard (assign_work rq w agent rev)
  | OpOffer rq w agent actor aa reason rev now => discard (offer_work rq w agent actor aa reason rev now)
  | OpAccept rq w agent actor reason rev now => discard (accept_work rq w agent actor reason rev now)
  | OpDecline rq w agent actor reason rev now => discard (decline_work rq w agent actor reason rev now)
  | OpReassign rq w agent actor aa reason rev now =>
      discard (reassign_work rq w agent actor aa reason rev now)
  | OpReprioritize rq w p actor reason rev now => discard (reprioritize_work rq w p actor reason rev now)
  | OpBlock rq w actor reason rev now => discard (block_work rq w actor reason rev now)
  | OpUnblock rq w actor reason rev now => discard (unblock_work rq w actor reason rev now)
  | OpReview rq w actor reason rev now => discard (request_work_review rq w actor reason rev now)
  | OpAuthorize rq w actor aa reason rev now => discard (authorize_work_execution rq w actor aa reason rev now)
  | OpReconcile (Some now) => discard (reconcile_workloads_at now)
  | OpReconcile None => discard reconcile_workloads
  | OpClaim rq w claimant ms => discard (claim_work rq w claimant ms)
  | OpClaimSecret rq w claimant ms secret =>
      discard (claim_work_with_lease_secret rq w claimant ms secret)
  | OpClaimManaged rq w claimant ms secret fence =>
      discard (claim_managed_grok_work_with_lease_secret rq w claimant ms secret fence)
  | OpRenew rq w a token ms => discard (renew_work_lease rq w a token ms)
  | OpLink rq w a token run => discard (link_work_run rq w a token run)
  | OpProgress rq w a token p => discard (report_work_progress rq w a token p)
  | OpPark w a token reason => discard (park_work_input w a token reason)
  | OpRelease rq w a token reason => discard (release_work rq w a token reason)
  | OpComplete rq w a token result => discard (complete_work rq w a token result)
  | OpFail rq w a token result => discard (fail_work rq w a token result)
  | OpRetry rq w reason rev => discard (retry_work rq w reason rev)
  | OpApprove rq w reviewer note rev => discard (approve_work rq w reviewer note rev)
  | OpCancel rq w reason rev => discard (cancel_work_checked rq w reason rev)
  end.

(** What the ledger relies on: the file of the named item is no other item's,
    fresh identifiers name no file, a request that names an attempt in its
    response is bound to a method that has one, and a saved item is new. *)
Definition op_ready {ENV : LedgerEnv} (s : Store) (op : LedgerOp) : Prop :=
  let d := st_disk s in
  match op with
  | OpSave item =>
      dk_items d !! item_name item = None ∧ wi_state item = WQueued
      ∧ wi_attempt_count item = 0%Z ∧ attempts_are d item []
  | OpAssign rq w _ _ | OpRetry rq w _ _ | OpCancel rq w _ _ => clear_name d w ∧ plain rq
  | OpOffer _ w _ _ _ _ _ _ | OpAccept _ w _ _ _ _ _ | OpDecline _ w _ _ _ _ _
  | OpReassign _ w _ _ _ _ _ _ | OpReprioritize _ w _ _ _ _ _ | OpBlock _ w _ _ _ _
  | OpUnblock _ w _ _ _ _ | OpReview _ w _ _ _ _
  | OpAuthorize _ w _ _ _ _ _ => clear_name d w ∧ fresh_names s
  | OpReconcile _ => True
  | OpClaim _ w _ ms | OpClaimSecret _ w _ ms _ | OpClaimManaged _ w _ ms _ _ =>
      clear_name d w ∧ fresh_names s ∧ match ms with Some ms => (0 ≤ ms)%Z | None => True end
  | OpRenew _ w _ _ _ | OpLink _ w _ _ _ | OpProgress _ w _ _ _ | OpPark w _ _ _ | OpRelease _ w _ _ _
  | OpComplete _ w _ _ _ | OpFail _ w _ _ _ | OpApprove _ w _ _ _ => clear_name d w
  end.

(** ** Every operation is a run *)

Section refinement.
Context {ENV : LedgerEnv} {EL : LedgerEnvLaws} {DL : LedgerDigestsLaws} {MC : MonotoneClock}.

Lemma spec_discard {A} (m : LM A) s (Q : Store → Prop) E :
  spec m s (λ _, Q) E → spec (discard m) s (λ _, Q) E.
Proof. intros Hm. eapply spec_seq; [exact Hm|done|]. intros a s' _ HQ. by apply spec_ret. Qed.

Lemma spec_run_op t0 d0 op s :
  good d0 → reached t0 d0 s → op_ready s op →
  spec (run_op op) s (λ _, reached t0 d0) (broken t0 d0).
Proof.
  intros Hg Hr Ho.
  destruct op as [| | | | | | | | | | |[now|]| | | | | | | | | | | | |]; cbn [run_op op_ready] in *;
    try apply spec_discard; try (by apply o_reconcile_at); try (by apply o_reconcile);
    try (destruct Ho as [Hc Hf]);
    try (apply o_mutate; [done| |done..]; intros ???; by econstructor).
  - by apply o_save_new; destruct_and!.
  - by apply o_assign.
  - apply o_mutate; [done| |done..]. intros i j [= <-]. apply dec_authorize.
  - destruct Hf. eapply spec_mono; [by apply o_claim|by intros c s' _ []|done].
  - destruct Hf. eapply spec_mono; [by apply o_claim_secret|by intros c s' _ []|done].
  - destruct Hf. eapply spec_mono; [by apply o_claim_secret|by intros c s' _ []|done].
  - by apply o_renew.
  - by apply o_link.
  - by apply o_progress.
  - by apply o_park.
  - by apply o_release.
  - by apply o_complete.
  - by apply o_fail.
  - by apply o_retry.
  - by apply o_approve.
  - by apply o_cancel.
Qed.
End refinement.

(** ** Restarts *)

(** A disk after any number of restarts, each in its own environment and each
    free to fail. *)
Inductive replays (d : Disk) : Disk → Prop :=
  | replays_nil : replays d d
  | replays_snoc (E : LedgerEnv) (L : LedgerEnvLaws) d1 s o s' :
      replays d d1 → st_disk s = d1 → reopen s = (o, s') → replays d (st_disk s').

(** The same, and the last restart succeeded. *)
Definition restarted (d d' : Disk) : Prop :=
  ∃ (E : LedgerEnv) (L : LedgerEnvLaws) s s',
    replays d (st_disk s) ∧ reopen s = (Returned (), s') ∧ st_disk s' = d'.

(** What the ledger holds when the next operation starts: the disk as it is
    after a success, and after a refusal that left no intent behind; in every
    other case the disk of a restarted process. *)
Definition settles_to (o : outcome unit) (s : Store) (d' : Disk) : Prop :=
  match o with
  | Returned _ => d' = st_disk s
  | Refused _ => (settled (st_disk s) ∧ d' = st_disk s) ∨ restarted (st_disk s) d'
  | Died => restarted (st_disk s) d'
  end.

Lemma pending_settled d0 d d1 : settled d0 → pending d0 d d1 → settled d1.
Proof. intros H [I n _ _|M prior n _ _]; apply H. Qed.

Lemma pending_unsettled d0 d d1 : pending d0 d d1 → ¬ settled d.
Proof.
  intros [I n _ M|M prior n _ Hm] [H1 H2].
  - rw (mw_lifecycles _ _ _ _ M) in H2. by apply insert_non_empty in H2.
  - rw (mm_mutations _ _ _ _ Hm) in H1. by apply insert_non_empty in H1.
Qed.

Section restarts.
Context {DL : LedgerDigestsLaws}.

Lemma replays_pending d0 d d1 d' :
  settled d0 → pending d0 d d1 ∨ d = d1 ∧ settled d1 → replays d d' →
  pending d0 d' d1 ∨ d' = d1 ∧ settled d1.
Proof.
  intros Hs Hd. induction 1 as [|E L d2 s o s' _ IH Es Er]; [done|].
  destruct IH as [P|[Ed Hs1]].
  - rw -Es in P. pose proof (spec_elim _ _ _ _ _ _ (spec_reopen d0 d1 s P Hs) Er) as H.
    assert (settled d1) as Hs1 by by eapply pending_settled.
    destruct o; [by right|destruct H as [_ [?|?]]; tauto..].
  - rw Ed in Es. rw -Es in Hs1. pose proof (spec_elim _ _ _ _ _ _ (spec_reopen_settled s Hs1) Er) as H.
    rw Es in H Hs1. right. split; [|done]. destruct o; [done|apply H..].
Qed.

Lemma restarted_pending d0 d d1 d' :
  settled d0 → pending d0 d d1 ∨ d = d1 ∧ settled d1 → restarted d d' → d' = d1.
Proof.
  intros Hs Hd (E & L & s & s' & Hr & Hre & <-).
  destruct (replays_pending _ _ _ _ Hs Hd Hr) as [P|[Ed Hs1]].
  - apply (spec_elim _ _ _ _ _ _ (spec_reopen d0 d1 s P Hs) Hre).
  - rw -Ed in Hs1. rw -Ed. apply (spec_elim _ _ _ _ _ _ (spec_reopen_settled s Hs1) Hre).
Qed.

(** What is halfway between two well-formed disks is well formed. *)
Definition typed (d : Disk) : Prop := items_wf (dk_items d) ∧ attempts_wf (dk_attempts d).

Lemma good_typed d : good d → typed d.
Proof. intros Hg. split; apply Hg. Qed.

Lemma pending_typed dk d d1 : typed dk → typed d1 → pending dk d d1 → typed d.
Proof.
  intros [Hi Ha] H1 P. destruct P as [I n _ M|M prior n _ Hm]; destruct H1 as [Hi1 Ha1]; split.
  - by destruct (mw_items _ _ _ _ M) as [->| ->].
  - intros k a Hk. destruct (mw_attempts _ _ _ _ M k) as [E|E]; rw E in Hk; [by apply Ha|by apply Ha1].
  - by destruct (mm_items _ _ _ _ Hm) as [->| ->].
  - by rw (mm_attempts _ _ _ _ Hm).
Qed.

(** Where an operation that left a pending change settles. *)
Lemma settles_pending dk o s d1 d' :
  settled dk → (pending dk (st_disk s) d1 ∧ (∀ u, o ≠ Returned u) ∨ st_disk s = d1 ∧ settled d1) →
  settles_to o s d' → d' = d1.
Proof.
  intros Hk Hd Hs. assert (restarted (st_disk s) d' → d' = d1) as Hre.
  { apply (restarted_pending dk); [done|]. tauto. }
  destruct Hd as [[P Hne]|[E1 Hs1]].
  - destruct o; [by destruct (Hne a)| |by apply Hre]. destruct Hs as [[Hq _]|Hs]; [|by apply Hre].
    by apply pending_unsettled in P.
  - destruct o; [by rw Hs|destruct Hs as [[_ ->]|Hs]; [done|by apply Hre]|by apply Hre].
Qed.

(** ** Histories *)

(** Operations of any number of processes, one after the other: each in an
    environment of its own, with the restarts it needs. *)
Inductive history (t : DateTime) (d : Disk) : DateTime → Disk → Prop :=
  | history_nil : history t d t d
  | history_op (E : LedgerEnv) (L : LedgerEnvLaws) (C : MonotoneClock) t1 s op o s' d' :
      history t d t1 (st_disk s) → (t1 ≤ clock (st_tick s))%Z → op_ready s op →
      run_op op s = (o, s') → settles_to o s' d' → history t d (clock (st_tick s')) d'.

(** However the operation ended, the disk holds a ledger of a run, or is on its
    way to one. *)
Lemma op_pending (E : LedgerEnv) (L : LedgerEnvLaws) (C : MonotoneClock) op s o s' :
  good (st_disk s) → op_ready s op → run_op op s = (o, s') →
  ∃ dk d1, good dk ∧ ledger_run (clock (st_tick s)) (st_disk s) (clock (st_tick s')) d1
    ∧ (pending dk (st_disk s') d1 ∧ (∀ u, o ≠ Returned u) ∨ st_disk s' = d1 ∧ settled d1).
Proof.
  intros Hg Ho Hrun.
  assert (reached (clock (st_tick s)) (st_disk s) s) as Hr by by constructor.
  pose proof (spec_elim _ _ _ _ _ _ (spec_run_op _ _ op s Hg Hr Ho) Hrun) as H.
  assert (reached (clock (st_tick s)) (st_disk s) s' ∨
    (∀ u, o ≠ Returned u) ∧ broken (clock (st_tick s)) (st_disk s) s') as Hcase.
  { destruct o; [by left|right; split; [done|apply H]..]. }
  assert (∀ s1, reached (clock (st_tick s)) (st_disk s) s1 → good (st_disk s1)) as Hset.
  { intros s1 Hr1. by apply (reached_good _ _ Hg _ Hr1). }
  destruct Hcase as [Hr'|[Hne [Hr'|(dk & d1 & ts & Hk & Hst & Ht & Hsk & P)]]].
  - exists (st_disk s'), (st_disk s'). split_and!; [by apply Hset|done|right; split; [done|by apply Hset]].
  - exists (st_disk s'), (st_disk s'). split_and!; [by apply Hset|done|right; split; [done|by apply Hset]].
  - exists dk, d1. split; [by eapply run_good|]. split; [|by left]. eapply run_snoc; [exact Hk| |exact Hst]. lia.
Qed.

Lemma op_run (E : LedgerEnv) (L : LedgerEnvLaws) (C : MonotoneClock) op s o s' d' :
  good (st_disk s) → op_ready s op → run_op op s = (o, s') → settles_to o s' d' →
  ledger_run (clock (st_tick s)) (st_disk s) (clock (st_tick s')) d'.
Proof.
  intros Hg Ho Hrun Hs. destruct (op_pending E L C op s o s' Hg Ho Hrun) as (dk & d1 & Hk & Hr & Hd).
  by rw (settles_pending dk o s' d1 d' (gd_settled _ Hk) Hd Hs).
Qed.

Lemma history_run t d t' d' : good d → history t d t' d' → ledger_run t d t' d'.
Proof.
  intros Hg. induction 1 as [|E L C t1 s op o s' d' _ IH Ht Ho Hrun Hs]; [by constructor|].
  eapply run_trans; [eapply run_weaken; [exact IH|done]|].
  eapply (op_run E L C); [by eapply run_good|done..].
Qed.
End restarts.
End protocol.
