(* ===== verification/LedgerTheorems.v ===== *)
(** * What the work ledger guarantees

    The properties of [LedgerOps] along every history: operations of any number
    of processes, one after the other under the store's lock, each with its own
    faults, refusals and crashes, and with restarts that may themselves fail. *)

From S2P Require Import Prelude Text Window Ids Workload WorkGraph GraphFacts Ledger LedgerStore.
From S2P Require Import LedgerStore LedgerOps LedgerLogic LedgerCommit LedgerRecovery.
From S2P Require Import LedgerSpec LedgerRuns LedgerRefine LedgerOpsRefine LedgerProtocol.

(** ** Counting *)

Lemma NoDup_bounded (l : list Z) c :
  NoDup l → (∀ x, x ∈ l → (1 ≤ x ≤ c)%Z) → (Z.of_nat (length l) ≤ Z.max 0 c)%Z.
Proof.
  intros Hnd Hb. assert (length l ≤ length (seqZ 1 c))%nat as H.
  { apply submseteq_length, NoDup_submseteq; [done|]. intros x Hx. apply elem_of_seqZ.
    specialize (Hb x Hx). lia. }
  rw length_seqZ in H. lia.
Qed.

Lemma item_validate_budget i : item_validate i = inr () →
  (wi_attempt_count i ≤ rt_max_attempts (wp_retry (wi_policy i)) ≤ 100)%Z.
Proof.
  unfold item_validate. intros H. do 10 (apply ores_bind_inr in H as ([] & _ & H)).
  apply ores_bind_inr in H as ([] & Hp & H). apply ores_bind_inr in H as ([] & Hc & _).
  apply refuse_if_inr, bool_decide_eq_false in Hc. unfold policy_validate in Hp.
  apply ores_bind_inr in Hp as ([] & _ & Hp). apply ores_bind_inr in Hp as ([] & Hr & _).
  unfold retry_validate in Hr. apply ores_bind_inr in Hr as ([] & _ & Hr).
  apply ores_bind_inr in Hr as ([] & Hr & _). apply refuse_if_inr, bool_decide_eq_false in Hr. lia.
Qed.

(** ** One item along a run *)

Section items.
Context {SH : Sha256} {DG : LedgerDigests}.

Lemma live_unique t d k i a b :
  ledger_inv t d → dk_items d !! k = Some i →
  a ∈ attempts_of (wi_work_id i) (dk_attempts d) → b ∈ attempts_of (wi_work_id i) (dk_attempts d) →
  lease_active_at a t = true → lease_active_at b t = true → a = b.
Proof.
  intros Hinv Hi Ha Hb Hla Hlb. eapply attempts_wf_uniq; [by eapply iv_attempts|done..|].
  by eapply ai_excl; [by eapply lv_attempts, iv_life|..].
Qed.

Lemma attempts_count t d k i :
  ledger_inv t d → dk_items d !! k = Some i →
  (Z.of_nat (length (attempts_of (wi_work_id i) (dk_attempts d))) ≤ wi_attempt_count i)%Z.
Proof.
  intros Hinv Hi. pose proof (iv_attempts _ _ Hinv) as Hwf. destruct (iv_life _ _ Hinv k i Hi) as [Hc Ha _ _].
  rw -(Z.max_r 0 (wi_attempt_count i) Hc) -(length_fmap wt_attempt_number). apply NoDup_bounded.
  - pose proof (NoDup_fmap_1 wt_attempt_id _ (attempts_of_nodup (wi_work_id i) _ Hwf)) as Hnd.
    apply NoDup_fmap_2_strong; [|done]. intros x y Hx Hy E.
    eapply attempts_wf_uniq; [done..|]. by eapply ai_distinct.
  - intros x (a & -> & Hin)%list_elem_of_fmap. by eapply ai_numbers.
Qed.

(** [j] is a later version of [i]: identity and policy are the same, a
    cancellation stays, and unless the revision has reached the largest [u64],
    an equal revision means an equal item. *)
Record later (i j : WorkItem) : Prop := {
  lt_core : same_core i j;
  lt_revision : j = i ∨ (wi_revision i < wi_revision j)%Z ∨ wi_revision j = U64_MAX;
  lt_bound : (wi_revision i ≤ wi_revision j ≤ U64_MAX)%Z;
  lt_cancelled : wi_state i = WCancelled → wi_state j = WCancelled;
}.

Lemma later_refl i : (wi_revision i ≤ U64_MAX)%Z → later i i.
Proof. intros Hr. split; [done|by left|lia|done]. Qed.

Lemma later_trans i j k : later i j → later j k → later i k.
Proof.
  intros [A1 A2 A3 A4] [B1 B2 B3 B4].
  split; [by eapply same_core_trans| |lia|auto].
  destruct B2 as [->|B2]; [done|]. right. destruct A2 as [->|A2]; [done|]. lia.
Qed.

Lemma transition_later t0 t i pa j na :
  (wi_revision i ≤ U64_MAX)%Z → life_inv t0 i pa → transition t i pa j na → later i j.
Proof.
  intros Hr L H. destruct (transition_core _ _ _ _ _ H) as [Hco Hrev].
  split; [done| | |intros Hc; by eapply transition_cancelled].
  - destruct Hrev as [->|E]; [by left|right]. unfold saturating_add in E. lia.
  - destruct Hrev as [->|E]; [done|]. unfold saturating_add in E. lia.
Qed.

Lemma lstep_later t0 t d d' k i :
  ledger_inv t0 d → lstep t d d' → dk_items d !! k = Some i → (wi_revision i ≤ U64_MAX)%Z →
  ∃ j, dk_items d' !! k = Some j ∧ later i j.
Proof.
  intros Hinv [x pa j na d1 Hin Hpa Htr _ _ Ei _ _|j d1 Hno _ _ _ _ Ei _ _] Hk Hr; rw Ei.
  - destruct (transition_core _ _ _ _ _ Htr) as [Hco _]. pose proof (same_core_name _ _ Hco) as En.
    destruct (decide (k = item_name x)) as [->|Hne].
    + rw Hin in Hk. injection Hk as ->. exists j. rw En lookup_insert_eq. split; [done|].
      eapply transition_later; [done| |exact Htr]. eapply life_inv_ext; [|by eapply iv_life].
      intros a. symmetry. apply Hpa.
    + exists i. rw En lookup_insert_ne //. split; [done|by apply later_refl].
  - exists i. rw lookup_insert_ne; [split; [done|by apply later_refl]|]. congruence.
Qed.

Lemma run_later t d t' d' k i :
  ledger_inv t d → ledger_run t d t' d' → dk_items d !! k = Some i → (wi_revision i ≤ U64_MAX)%Z →
  ∃ j, dk_items d' !! k = Some j ∧ later i j.
Proof.
  intros Hinv Hrun Hk Hr. induction Hrun as [|t' t1 d1 ts d' Hrun IH Ht Hs].
  { exists i. split; [done|by apply later_refl]. }
  destruct IH as (j & Hj & Hl). pose proof (run_inv _ _ _ _ Hinv Hrun) as Hinv1.
  destruct (lstep_later _ _ _ _ _ _ Hinv1 Hs Hj) as (j' & Hj' & Hl'); [by apply Hl|].
  exists j'. split; [done|by eapply later_trans].
Qed.
End items.

(** ** Histories *)

Section guarantees.
Context {SH : Sha256} {DG : LedgerDigests} {FS : FileSystem} {MS : ManagedSettlement}
  {LH : LeaseHash} {LP : LedgerPeers} {DL : LedgerDigestsLaws}.

Lemma history_inv t d t' d' : ledger_inv t d → history t d t' d' → ledger_inv t' d'.
Proof.
  intros Hinv H. eapply run_inv; [exact Hinv|]. apply history_run; [by eapply ledger_inv_good|done].
Qed.

(** C2: the store implements its transition rules.  Take one of the methods of
    [LedgerOp] (saving a new item; assignment, offer, acceptance, refusal,
    reassignment, priority, block, unblock, review and authorization; the
    reconciliation of leases, deadlines and waits; the three claims; renewal,
    linking a run, progress, parking, release, completion and failure under a
    lease; retry, approval and cancellation) on a settled ledger, under a clock
    that does not go back, when it is ready as [op_ready] says: the file name of
    its item is no other item's, the identifiers it draws are new, a saved item
    is new, queued and without attempts, and a request bound to an assignment, a
    retry or a cancellation does not ask for an attempt.  Let every write and
    read fail, or the process end, at any point.  Then what the ledger holds when
    the method returned, when it was refused and left no intent, or else after
    the first restart that succeeds, however many were interrupted before, is the
    result of a sequence of committed transitions, each one whole, at times that
    do not go back. *)
Theorem ledger_refines (E : LedgerEnv) (L : LedgerEnvLaws) (C : MonotoneClock) op s o s' d' :
  good (st_disk s) → op_ready s op → run_op op s = (o, s') → settles_to o s' d' →
  ledger_run (clock (st_tick s)) (st_disk s) (clock (st_tick s')) d'.
Proof. intros. by eapply (op_run E L C op s o). Qed.

(** C10: after an interrupted operation the store opens again.  Take one operation
    of [LedgerOp], ready as in [op_ready] (so that a bound request fits the
    method), on a settled ledger.  However it ended, and however many restarts
    were interrupted since, opening the store in an environment without faults
    returns, replays the pending intent and leaves a settled ledger that is the
    result of whole transitions.  Two situations are outside the theorem, and can
    leave a store that does not open: a second operation served after a commit
    that failed and before a restart, and a request bound to a method it does not
    fit. *)
Theorem restart_completes (E : LedgerEnv) (L : LedgerEnvLaws) (C : MonotoneClock) op s o s' :
  good (st_disk s) → op_ready s op → run_op op s = (o, s') →
  ∀ (E2 : LedgerEnv) (L2 : LedgerEnvLaws) s2,
  replays (st_disk s') (st_disk s2) → clean (ENV := E2) →
  ∃ s3, reopen (ENV := E2) s2 = (Returned (), s3) ∧ settled (st_disk s3)
    ∧ ledger_run (@clock E (st_tick s)) (st_disk s) (@clock E (st_tick s')) (st_disk s3).
Proof.
  intros Hg Ho Hrun E2 L2 s2 Hre Hc.
  destruct (op_pending E L C op s o s' Hg Ho Hrun) as (dk & d1 & Hk & Hr & Hd).
  apply gd_settled in Hk.
  assert (settled d1) as Hs1 by (destruct Hd as [[P _]|[_ ?]]; [by eapply pending_settled|done]).
  assert (pending dk (st_disk s') d1 ∨ st_disk s' = d1 ∧ settled d1) as Hd' by tauto.
  destruct (replays_pending dk _ d1 _ Hk Hd' Hre) as [P|[E1 _]].
  - pose proof (spec_reopen (ENV := E2) dk d1 s2 P Hk) as [_ H].
    destruct (reopen s2) as [[[]|e|] s3]; [|by destruct H..]. exists s3. by rw H.
  - rw -E1 in Hs1. pose proof (spec_reopen_settled (ENV := E2) s2 Hs1) as [_ H].
    destruct (reopen s2) as [[[]|e|] s3]; [|by destruct H..]. exists s3. rw H E1. by rw E1 in Hs1.
Qed.

(** C36: the files stay well formed.  Along a history of operations, each ready
    and from a settled ledger, and with a restart after one that left an intent:
    before an operation, after it, however it ended, and after any number of
    restarts, interrupted or not, each item and attempt file is named after the
    hash of its own identifier and holds a record that passes validation.  An
    operation that returned leaves no intent. *)
Theorem ledger_typed t d t1 (E : LedgerEnv) (L : LedgerEnvLaws) (C : MonotoneClock) op s o s' d2 :
  ledger_inv t d → history t d t1 (st_disk s) → op_ready s op → run_op op s = (o, s') →
  replays (st_disk s') d2 →
  typed (st_disk s) ∧ typed (st_disk s') ∧ typed d2 ∧ (o = Returned () → settled (st_disk s')).
Proof.
  intros Hinv H Ho Hrun Hre. pose proof (ledger_inv_good _ _ (history_inv _ _ _ _ Hinv H)) as Hg.
  destruct (op_pending E L C op s o s' Hg Ho Hrun) as (dk & d1 & Hk & Hr & Hd).
  pose proof (run_good _ _ _ _ Hg Hr) as Hg1. pose proof (gd_settled _ Hk) as Hks.
  assert (∀ d3, pending dk d3 d1 ∨ d3 = d1 ∧ settled d1 → typed d3) as Ht.
  { intros d3 [P|[-> _]]; [|by apply good_typed]. apply (pending_typed dk _ d1); [by apply good_typed..|done]. }
  assert (pending dk (st_disk s') d1 ∨ st_disk s' = d1 ∧ settled d1) as Hd' by tauto.
  split_and!; [by apply good_typed|by apply Ht|apply Ht; by eapply replays_pending|].
  intros ->. destruct Hd as [[_ Hne]|[-> ?]]; [by destruct (Hne ())|done].
Qed.

(** C5: one lease at a time: along every history, at any moment no two attempts
    of a work item hold an unexpired lease. *)
Theorem lease_exclusive t d t' d' now k i a b :
  ledger_inv t d → history t d t' d' → (t' ≤ now)%Z → dk_items d' !! k = Some i →
  a ∈ attempts_of (wi_work_id i) (dk_attempts d') →
  b ∈ attempts_of (wi_work_id i) (dk_attempts d') →
  lease_active_at a now = true → lease_active_at b now = true → a = b.
Proof.
  intros Hinv H Ht Hi Ha Hb ??. eapply live_unique; [|done..].
  eapply ledger_inv_mono; [done|]. by eapply history_inv.
Qed.

(** C35: the retry budget bounds the work: along every history a work item has
    no more attempts on disk than its counter says, the counter never passes
    [retry.max_attempts], and that is at most [100]. *)
Theorem attempt_budget t d t' d' k i :
  ledger_inv t d → history t d t' d' → dk_items d' !! k = Some i →
  (Z.of_nat (length (attempts_of (wi_work_id i) (dk_attempts d'))) ≤ wi_attempt_count i
   ≤ rt_max_attempts (wp_retry (wi_policy i)) ≤ 100)%Z.
Proof.
  intros Hinv H Hi. pose proof (history_inv _ _ _ _ Hinv H) as Hinv'.
  destruct (iv_items _ _ Hinv' k i Hi) as [_ Hv%item_validate_budget].
  pose proof (attempts_count _ _ _ _ Hinv' Hi). lia.
Qed.

(** Evidence of a run that was completed, with tests that passed and none that
    failed or were left open. *)
Record verified (e : CompletionEvidence) : Prop := {
  vf_status : ce_status e = "verified";
  vf_stop : ce_stop_reason e = "completed";
  vf_interrupted : ce_interrupted e = false;
  vf_failed : (co_tests_failed (ce_observations e) ≤ 0)%Z;
  vf_passed : co_tests_passed (ce_observations e) ≠ 0%Z;
  vf_incomplete : (co_tests_incomplete (ce_observations e) ≤ 0)%Z;
  vf_permissions : (co_permissions_unresolved (ce_observations e) ≤ 0)%Z;
}.

Lemma evidence_verified e : evidence_authorizes_success e = true → verified e.
Proof.
  unfold evidence_authorizes_success. cbv zeta. destruct (_ || _ || _) eqn:E1; [done|].
  destruct (bool_decide (0 < co_tests_failed _)%Z) eqn:Hf; [done|]. destruct (negb (cc_present _)); [done|].
  rw negb_true_iff !orb_false_iff !bool_decide_eq_false. rw !orb_false_iff !bool_decide_eq_false in E1.
  apply bool_decide_eq_false in Hf. intros [[[[[H1 H2] H3] H4] _] _].
  destruct E1 as [[E1%dec_stable E2%dec_stable] E3]. split; [done..|lia|done|lia|lia].
Qed.

(** C23: success needs evidence.  Along every history an item in state [Succeeded]
    whose policy requires no checks carries an approval, or a result without
    failure or cancellation whose evidence names this item and a run of it and
    says that the run was completed and verified, with tests that passed and none
    that failed, was left open or waits for a permission.  (Items with required
    checks succeed through the candidate and managed paths, which are not among
    the operations of [LedgerOp].) *)
Theorem success_evidenced t d t' d' k i :
  ledger_inv t d → history t d t' d' → dk_items d' !! k = Some i → wi_state i = WSucceeded →
  wp_required_checks (wi_policy i) = [] →
  is_Some (wi_approval i) ∨
  ∃ r e, wi_result i = Some r ∧ wr_failure r = None ∧ wr_cancellation_reason r = None ∧
    wr_verification r = Some e ∧ ce_work_id e = Some (wi_work_id i) ∧ is_Some (ce_run_id e) ∧ verified e.
Proof.
  intros Hinv H Hi Hst Hc.
  assert (success_backed i) as Hs by (eapply lv_success, Hst; eapply iv_life; [by eapply history_inv|done]).
  unfold success_backed in Hs. rw decide_False in Hs; [|by intros []].
  destruct Hs as [?|(r & e & ? & ? & ? & ? & He & ? & ?)]; [by left|right].
  exists r, e. split_and!; try done. by apply evidence_verified.
Qed.

(** Cancellation is final: once an item is cancelled, along every history it
    stays cancelled and none of its attempts is active again. *)
Theorem cancellation_final t d t' d' k i :
  ledger_inv t d → history t d t' d' → dk_items d !! k = Some i → (wi_revision i ≤ U64_MAX)%Z →
  wi_state i = WCancelled →
  ∃ j, dk_items d' !! k = Some j ∧ wi_state j = WCancelled
    ∧ Forall (λ a, attempt_is_active (wt_state a) = false) (attempts_of (wi_work_id j) (dk_attempts d')).
Proof.
  intros Hinv H Hi Hr Hc. pose proof (history_inv _ _ _ _ Hinv H) as Hinv'.
  apply history_run in H; [|by eapply ledger_inv_good].
  destruct (run_later _ _ _ _ _ _ Hinv H Hi Hr) as (j & Hj & Hl). exists j.
  pose proof (lt_cancelled _ _ Hl Hc) as Hcj. split_and!; [done..|].
  eapply lv_cancelled; [|done]. by eapply iv_life.
Qed.

(** A revision identifies a version: along every history an item is never
    lost, keeps its identity, lane, policy and dependencies, and its revision
    never decreases; while it is below the largest [u64], an item seen again
    with the same revision is the same item. *)
Theorem revision_identifies t d t' d' k i :
  ledger_inv t d → history t d t' d' → dk_items d !! k = Some i → (wi_revision i ≤ U64_MAX)%Z →
  ∃ j, dk_items d' !! k = Some j ∧ same_core i j ∧ (wi_revision i ≤ wi_revision j)%Z
    ∧ (wi_revision j = wi_revision i → (wi_revision i < U64_MAX)%Z → j = i).
Proof.
  intros Hinv H Hi Hr. apply history_run in H; [|by eapply ledger_inv_good].
  destruct (run_later _ _ _ _ _ _ Hinv H Hi Hr) as (j & Hj & [H1 H2 H3 _]). exists j.
  split_and!; [done|done|lia|]. intros E Hlt. destruct H2 as [?|H2]; [done|lia].
Qed.

(** C40: a claim that returns has leased the item.  On a settled, well-formed ledger,
    with identifiers that name no file yet and a clock that does not go back: the
    item is on disk in state [Leased], with the attempt of the answer as its
    newest, held by the claimant for the requested time (within its limits); the
    token of the answer is the one the attempt accepts, and no other attempt of
    the item holds a live lease. *)
Theorem claim_grants {E : LedgerEnv} {L : LedgerEnvLaws} {C : MonotoneClock}
    request w claimant lease_ms secret fence s c s' :
  good (st_disk s) → clear_name (st_disk s) w → fresh_names s →
  match lease_ms with Some ms => (0 ≤ ms)%Z | None => True end →
  claim_work_inner request w claimant lease_ms secret fence s = (Returned c, s') →
  granted w claimant lease_ms c (st_disk s').
Proof.
  intros Hg Hc Hf Hms Hrun. assert (reached (clock (st_tick s)) (st_disk s) s) as Hr by by constructor.
  apply (spec_elim _ _ _ _ _ _ (o_claim _ _ Hg request w claimant lease_ms secret fence s Hr Hc Hf Hms) Hrun).
Qed.

(** Where a commit settles: nothing happened, or the intent is applied. *)
Lemma commit_settles {E : LedgerEnv} {L : LedgerEnvLaws} op i j pa na request s t o s' d' :
  good (st_disk s) → dk_items (st_disk s) !! item_name i = Some i → attempts_are (st_disk s) i pa →
  transition t i pa j na → op ≠ "managed_finalization" → shape_ok request na →
  (∀ a, a ∈ na → wt_attempt_id a ∉ wt_attempt_id <$> pa →
     dk_attempts (st_disk s) !! att_name a = None) →
  commit_lifecycle_with_request op i j pa na request s = (o, s') → settles_to o s' d' →
  (d' = st_disk s ∧ o ≠ Returned ())
  ∨ ∃ I n, intent_of op i j pa na request I ∧ ready I n (st_disk s) ∧ d' = applied I (st_disk s).
Proof.
  intros Hg Hin Hpa Htr Hop Hsh Hf Hrun Hset. pose proof (gd_settled _ Hg) as Hs.
  pose proof (spec_elim _ _ _ _ _ _ (spec_commit_intent op i j pa na request t _ Hg Hin Hpa Htr Hf
    s eq_refl Hop Hsh) Hrun) as H.
  assert (between op i j pa na request (st_disk s) s' → (∀ u, o ≠ Returned u) →
    (d' = st_disk s ∧ o ≠ Returned ()) ∨ ∃ I n, intent_of op i j pa na request I
      ∧ ready I n (st_disk s) ∧ d' = applied I (st_disk s)) as Hb.
  { intros [E1|(I & n & HI & R & HM)] Hne.
    - left. split; [|done]. apply (settles_pending (st_disk s) o s'); [done| |done]. by right.
    - right. exists I, n. split_and!; [done..|].
      apply (settles_pending (st_disk s) o s'); [done| |done].
      destruct HM as [M|M]; [left|right]; [split; [by eapply pending_lifecycle|done]|by split]. }
  destruct o as [[]|e|]; [right|by apply Hb..].
  destruct H as (I & n & HI & R & E1). exists I, n. rw Hset. auto.
Qed.

(** The answers a lifecycle commit has. *)
Definition answerable (rq : WorkRequestBinding) : Prop :=
  rq_shape rq ∈ ["work_attempt"; "work_attempts"; "work_scope"; "claim"; "lease_view"].

Lemma answer_not_null I rq response :
  li_request I = Some rq → answerable rq → lifecycle_response_value I = inr response → response ≠ RNull.
Proof.
  unfold lifecycle_response_value, answerable. intros -> Hs Hr.
  repeat (case_decide; [repeat (apply ores_bind_inr in Hr as (? & _ & Hr)); by injection Hr as <-|]).
  rw !elem_of_cons elem_of_nil in Hs. tauto.
Qed.

(** The receipt of a request after its change. *)
Lemma applied_receipt I n d rq :
  ready I n d → li_request I = Some rq → answerable rq →
  rq_tool rq ∉ ["ptah_apply_verified_change"; "ptah_discard_verified_change"] →
  ∃ response path r, lifecycle_response_value I = inr response ∧ response ≠ RNull
    ∧ idemp_path (scope_of_request rq) (rq_request_id rq) = inr path
    ∧ dk_receipts d !! path = Some r ∧ ir_status r = "pending"
    ∧ dk_receipts (applied I d) = <[path := completed_receipt rq response r]> (dk_receipts d).
Proof.
  intros R Hrq Hans Htool. assert (lifecycle_settles_service_receipt I = true) as Hst.
  { unfold lifecycle_settles_service_receipt. rw Hrq. cbn. rw !decide_False; [done|set_solver..]. }
  destruct (rd_receipt _ _ _ R Hst) as (response & Hre & Hrc).
  pose proof (answer_not_null _ _ _ Hrq Hans Hre) as Hnn. rw Hrq in Hrc.
  destruct Hrc as [?|(path & r & Hp & Hl & _ & _ & _ & _ & Hpen)]; [done|]. exists response, path, r.
  split_and!; [done..|]. cbn. unfold lifecycle_receipts. rw Hst Hre Hrq. cbn. rw decide_False // Hp.
  by apply alter_present.
Qed.

(** C25: the change and the answer are one.  Take the commit of a transition of an
    item (other than a managed finalization) with a bound request that asks for
    an answer such a commit has (an attempt, the attempts, the item in its scope,
    a claim or a lease; an attempt only if there is one) and is not the request
    of the candidate tools, which settle their receipt themselves.  When it
    returned, failed or died and the ledger has settled, either nothing happened,
    or the item, the attempts and the receipt all did: the receipt of the
    request, pending before, is complete with the response of this change. *)
Theorem commit_exactly_once {E : LedgerEnv} {L : LedgerEnvLaws} op i j pa na rq s t o s' d' :
  good (st_disk s) → dk_items (st_disk s) !! item_name i = Some i → attempts_are (st_disk s) i pa →
  transition t i pa j na → op ≠ "managed_finalization" → answerable rq → shape_ok (Some rq) na →
  (∀ a, a ∈ na → wt_attempt_id a ∉ wt_attempt_id <$> pa →
     dk_attempts (st_disk s) !! att_name a = None) →
  rq_tool rq ∉ ["ptah_apply_verified_change"; "ptah_discard_verified_change"] →
  commit_lifecycle_with_request op i j pa na (Some rq) s = (o, s') → settles_to o s' d' →
  (d' = st_disk s ∧ o ≠ Returned ()) ∨
  (dk_items d' = <[item_name j := j]> (dk_items (st_disk s))
   ∧ dk_attempts d' = write_all na (dk_attempts (st_disk s))
   ∧ ∃ I response path r, intent_of op i j pa na (Some rq) I ∧ lifecycle_response_value I = inr response
     ∧ response ≠ RNull ∧ idemp_path (scope_of_request rq) (rq_request_id rq) = inr path
     ∧ dk_receipts (st_disk s) !! path = Some r ∧ ir_status r = "pending"
     ∧ dk_receipts d' = <[path := completed_receipt rq response r]> (dk_receipts (st_disk s))).
Proof.
  intros Hg Hin Hpa Htr Hop Hans Hsh Hf Htool Hrun Hset.
  destruct (commit_settles _ _ _ _ _ _ _ _ _ _ _ Hg Hin Hpa Htr Hop Hsh Hf Hrun Hset)
    as [?|(I & n & HI & R & ->)]; [by left|right].
  destruct (applied_receipt I n _ rq R (io_request _ _ _ _ _ _ _ HI) Hans Htool) as (response & path & r & Hre & Hrc).
  cbn [dk_items dk_attempts applied]. rw (io_item _ _ _ _ _ _ _ HI) (io_attempts _ _ _ _ _ _ _ HI).
  split_and!; [done..|]. by exists I, response, path, r.
Qed.
End guarantees.
