(* ===== verification/LedgerFences.v ===== *)
(** * What the ledger refuses

    Operations that carry a stale revision, and operations under a lease that
    is not theirs or no longer live, change nothing. *)

From S2P Require Import Prelude Text Window Ids Workload WorkGraph GraphFacts Ledger LedgerStore.
From S2P Require Import LedgerStore LedgerOps LedgerLogic LedgerCommit LedgerRecovery.
From S2P Require Import LedgerSpec LedgerRuns LedgerRefine LedgerOpsRefine LedgerProtocol.

(** The item and the revision an operation is bound to.  An approval is not in
    the list: repeating one that is done answers with the item, whatever the
    revision. *)
Definition op_revision (op : LedgerOp) : option (string * Z) :=
  match op with
  | OpAssign _ w _ (Some r) | OpOffer _ w _ _ _ _ (Some r) _ | OpAccept _ w _ _ _ (Some r) _
  | OpDecline _ w _ _ _ (Some r) _ | OpReassign _ w _ _ _ _ (Some r) _
  | OpReprioritize _ w _ _ _ (Some r) _ | OpBlock _ w _ _ (Some r) _ | OpUnblock _ w _ _ (Some r) _
  | OpReview _ w _ _ (Some r) _ | OpAuthorize _ w _ _ _ (Some r) _ | OpRetry _ w _ (Some r) | OpCancel _ w _ (Some r) => Some (w, r)
  | _ => None
  end.

(** The item, the attempt and the token of an operation under a lease. *)
Definition op_lease (op : LedgerOp) : option (string * string * string) :=
  match op with
  | OpRenew _ w a token _ | OpLink _ w a token _ | OpProgress _ w a token _ | OpPark w a token _ | OpRelease _ w a token _
  | OpComplete _ w a token _ | OpFail _ w a token _ => Some (w, a, token)
  | _ => None
  end.

(** Two reports that say the same. *)
Definition same_report (r r' : WorkResult) : Prop :=
  wr_summary r = wr_summary r' ∧ wr_evidence r = wr_evidence r' ∧ wr_artifacts r = wr_artifacts r' ∧
  wr_failure r = wr_failure r' ∧ wr_cancellation_reason r = wr_cancellation_reason r' ∧
  wr_verification r = wr_verification r' ∧ wr_candidate_verification r = wr_candidate_verification r'.

Lemma replays_same_report r r' : completion_result_replays r r' = true → same_report r r'.
Proof.
  unfold completion_result_replays. rw !andb_true_iff !bool_decide_eq_true. unfold same_report. tauto.
Qed.

Section fences.
Context {SH : Sha256} {DG : LedgerDigests} {FS : FileSystem} {MS : ManagedSettlement}
  {LH : LeaseHash} {LP : LedgerPeers} {ENV : LedgerEnv}.
Context (d : Disk) (good_d : good d).

(** Nothing has been written. *)
#[local] Abbreviation untouched := (λ s : Store, st_disk s = d).
#[local] Abbreviation refused m s := (spec m s (λ _ _, False) untouched).

Lemma f_item {B} w i (f : WorkItem → LM B) s Q :
  st_disk s = d → clear_name d w → dk_items d !! file_of w = Some i →
  (∀ s', st_disk s' = d → (st_tick s ≤ st_tick s')%nat → spec (f i) s' Q untouched) →
  spec (require_work_item w ≫= f) s Q untouched.
Proof.
  intros Hs Hc Hi Hf. eapply spec_seq; [apply r_item; by rw Hs|by rw Hs|].
  intros i' s' Ht [[Hi' Hw] E]. rw Hs in Hi' E. assert (i' = i) as ->; [|by apply Hf].
  unfold item_name in Hi'. rw Hw Hi in Hi'. by injection Hi'.
Qed.

(** A read whose result does not matter. *)
Lemma f_ro {A B} (m : LM A) (f : A → LM B) s Q :
  st_disk s = d → readonly m →
  (∀ a s', st_disk s' = d → (st_tick s ≤ st_tick s')%nat → spec (f a) s' Q untouched) →
  spec (m ≫= f) s Q untouched.
Proof.
  intros Hs Hm Hf. eapply spec_seq; [apply Hm|by rw Hs|]. intros a s' Ht E. apply Hf; [congruence|done].
Qed.

Lemma f_check {A B} (r : ORes A) (f : A → LM B) s Q :
  st_disk s = d → (∀ a, r = inr a → spec (f a) s Q untouched) → spec (lift r ≫= f) s Q untouched.
Proof. intros Hs Hf. apply spec_bind, spec_lift_any; [|done]. intros a Ha _. by apply Hf. Qed.

Lemma ro_attempts w : readonly (list_work_attempts w).
Proof.
  unfold list_work_attempts. readonly. generalize a. intros names.
  induction names as [|n names IH]; cbn [collect]; unfold read_entry; readonly.
Qed.

Lemma ro_now : readonly now_utc.
Proof. intros s. split; [cbn; lia|done]. Qed.

Lemma f_stale {B} i r (f : unit → LM B) s :
  st_disk s = d → wi_revision i ≠ r → refused (lift (require_work_revision i (Some r)) ≫= f) s.
Proof.
  intros Hs Hr. apply f_check; [done|]. intros [] H%ensure_not_inr.
  apply bool_decide_eq_false, dec_stable in H. congruence.
Qed.

Lemma f_mutate request m mutate i r s :
  st_disk s = d → clear_name d (am_work_id m) → dk_items d !! file_of (am_work_id m) = Some i →
  am_expected_revision m = Some r → wi_revision i ≠ r → refused (mutate_assignment request m mutate) s.
Proof.
  intros Hs Hc Hi Hrev Hr. apply f_check; [done|]. intros [] _. eapply f_item; [done..|].
  intros s' Hs' _. rw Hrev. by apply f_stale.
Qed.

Lemma f_never {A B} (m : LM A) (f : A → LM B) s Q : refused m s → spec (m ≫= f) s Q untouched.
Proof. intros Hm. by eapply spec_seq; [exact Hm|done|]. Qed.

Lemma f_discard {A} (m : LM A) s : refused m s → refused (discard m) s.
Proof. apply f_never. Qed.

Lemma f_revision op w r i s :
  st_disk s = d → clear_name d w → dk_items d !! file_of w = Some i → wi_revision i ≠ r →
  op_revision op = Some (w, r) → refused (run_op op) s.
Proof.
  intros Hs Hc Hi Hr Hop.
  destruct op as [|? ? ? [rv|]|? ? ? ? ? ? [rv|] ?|? ? ? ? ? [rv|] ?|? ? ? ? ? [rv|] ?
    |? ? ? ? ? ? [rv|] ?|? ? ? ? ? [rv|] ?|? ? ? ? [rv|] ?|? ? ? ? [rv|] ?|? ? ? ? [rv|] ?|? ? ? ? ? [rv|] ?| | | |
    | | | | | | | |? ? ? [rv|]| |? ? ? [rv|]]; try done; injection Hop as -> ->; cbn [run_op];
    apply f_discard; try (by eapply f_mutate).
  - eapply f_item; [done..|]. intros s1 Hs1 _. apply f_ro; [done|apply ro_attempts|].
    intros pa s2 Hs2 _. by apply f_stale.
  - eapply f_item; [done..|]. intros s1 Hs1 _. apply f_ro; [done|apply ro_attempts|].
    intros pa s2 Hs2 _. by apply f_stale.
  - eapply f_item; [done..|]. intros s1 Hs1 _. by apply f_stale.
Qed.

(** ** Leases *)

Lemma named_item w i : clear_name d w → dk_items d !! file_of w = Some i → wi_work_id i = w.
Proof.
  intros Hc Hi. destruct (gd_items _ good_d _ _ Hi) as [E _]. apply (Hc _ _ Hi).
  unfold item_name, file_of in E. by apply (inj hex) in E.
Qed.

Section lease.
Context {MC : MonotoneClock} (s0 : Store) (w id token : string).

(** The attempt, if there is one, is not of the item, not opened by the token,
    or not under a live lease. *)
Definition fenced : Prop :=
  ∀ a, dk_attempts d !! file_of id = Some a →
    wt_work_id a ≠ w ∨ token_matches a token = false ∨ lease_active_at a (clock (st_tick s0)) = false.

Lemma f_attempt {B} (f : option WorkAttempt → LM B) s Q :
  st_disk s = d →
  (∀ s', st_disk s' = d → (st_tick s ≤ st_tick s')%nat →
     spec (f None) s' Q untouched) →
  (∀ a s', st_disk s' = d → (st_tick s ≤ st_tick s')%nat → dk_attempts d !! file_of id = Some a →
     spec (f (Some a)) s' Q untouched) →
  spec (load_work_attempt id ≫= f) s Q untouched.
Proof.
  intros Hs Hn Hf. destruct (safe_id_filename id) as [e|k] eqn:Hk.
  { unfold load_work_attempt. rw Hk. apply spec_bind, spec_ret. intros _. by apply Hn. }
  eapply spec_seq; [apply (spec_load_attempt id k s Hk); rw Hs; apply good_d| |].
  - intros s' [E _]. by rw E.
  - intros o s' Ht [-> E]. rw Hs. rw Hs in E. unfold safe_id_filename in Hk.
    do 2 (apply ores_bind_inr in Hk as (? & _ & Hk)). injection Hk as <-.
    destruct (dk_attempts d !! hex (sha256 id)) as [a|] eqn:Ha; [by apply Hf|by apply Hn].
Qed.

Lemma f_inactive a now :
  lease_active_at a (clock (st_tick s0)) = false → (clock (st_tick s0) ≤ now)%Z →
  negb (attempt_is_active (wt_state a)) || bool_decide (wt_lease_expires_at a ≤ now)%Z = true.
Proof.
  intros Hl Ht. destruct (attempt_is_active (wt_state a)) eqn:Ha; [|done]. apply bool_decide_eq_true_2.
  unfold lease_active_at in Hl. rw Ha in Hl. cbn in Hl. apply bool_decide_eq_false in Hl. lia.
Qed.

Lemma f_under_lease {B} i (f : WorkItem * list WorkAttempt * DateTime * WorkAttempt → LM B) s :
  st_disk s = d → (st_tick s0 ≤ st_tick s)%nat → clear_name d w → dk_items d !! file_of w = Some i →
  fenced → refused (under_lease w id token ≫= f) s.
Proof.
  intros Hs Ht Hc Hi Hf. apply f_never.
  eapply f_item; [done..|]. intros s1 Hs1 T1. apply f_ro; [done|apply ro_attempts|].
  intros pa s2 Hs2 T2. apply spec_bind, spec_now. intros s3 Hs3 T3 _. rw Hs2 in Hs3.
  apply f_never. unfold load_active_attempt_for_token.
  apply f_attempt; [done|by intros; apply f_check|]. intros a s4 Hs4 _ Ha. apply f_check; [done|].
  intros ? [= <-]. apply f_check; [done|]. intros [] Hw%ensure_not_inr. apply f_check; [done|].
  intros [] Htok%ensure_not_inr. apply f_check; [done|]. intros [] Hact%ensure_not_inr. exfalso.
  apply bool_decide_eq_false, dec_stable in Hw. apply negb_false_iff in Htok.
  pose proof (named_item w i Hc Hi) as Hiw. destruct (Hf a Ha) as [?|[?|Hl]]; [congruence..|]. rw (f_inactive a) // in Hact.
  apply mono_clock. lia.
Qed.

(** The attempt is on disk, opened by the token, in a completed state and with
    the report [result]: the call repeats a completion. *)
Definition completed_before (i : WorkItem) (result : WorkResult) : Prop :=
  (wi_state i = WSucceeded ∨ wi_state i = WReview ∨ wi_state i = WAwaitingApproval) ∧
  ∃ a stored, dk_attempts d !! file_of id = Some a ∧ wt_work_id a = w ∧ token_matches a token = true ∧
    (wt_state a = ASucceeded ∨ wt_state a = AReview ∨ wt_state a = AAwaitingApproval) ∧
    wt_result a = Some stored ∧ same_report stored result.

Lemma already_completed_states i a :
  already_completed i a = true →
  (wi_state i = WSucceeded ∨ wi_state i = WReview ∨ wi_state i = WAwaitingApproval) ∧
  (wt_state a = ASucceeded ∨ wt_state a = AReview ∨ wt_state a = AAwaitingApproval).
Proof. unfold already_completed. destruct (wt_state a), (wi_state i); try done; auto. Qed.

Lemma f_complete i request result s :
  st_disk s = d → (st_tick s0 ≤ st_tick s)%nat → clear_name d w → dk_items d !! file_of w = Some i →
  fenced → spec (complete_work request w id token result) s
    (λ _ s', st_disk s' = d ∧ completed_before i result) untouched.
Proof.
  intros Hs Ht Hc Hi Hf. apply f_check; [done|]. intros [] _.
  eapply f_item; [done..|]. intros s1 Hs1 T1. apply f_ro; [done|apply ro_attempts|].
  intros pa s2 Hs2 T2. apply spec_bind, spec_now. intros s3 Hs3 T3 _. rw Hs2 in Hs3.
  apply f_attempt; [done|by intros; apply f_check|]. intros a s4 Hs4 _ Ha. apply f_check; [done|].
  intros ? [= <-]. apply f_check; [done|]. intros [] Hw%ensure_not_inr. apply f_check; [done|].
  intros [] Htok%ensure_not_inr. apply bool_decide_eq_false, dec_stable in Hw. apply negb_false_iff in Htok.
  pose proof (named_item w i Hc Hi) as Hiw. destruct (already_completed i a) eqn:Hdone.
  { apply already_completed_states in Hdone as [Hsi Hsa]. apply f_check; [done|]. intros [] Hrep%ensure_not_inr.
    apply negb_false_iff in Hrep. destruct (wt_result a) as [stored|] eqn:Hst; [|done].
    apply f_check; [done|]. intros [] _. apply spec_ret. split; [done|]. split; [done|].
    exists a, stored. split_and!; try done; [congruence|]. by apply replays_same_report. }
  apply f_check; [done|]. intros [] Hact%ensure_not_inr. exfalso.
  destruct (Hf a Ha) as [?|[?|Hl]]; [congruence..|]. rw (f_inactive a) // in Hact. apply mono_clock. lia.
Qed.
End lease.
End fences.

Section refusals.
Context {SH : Sha256} {DG : LedgerDigests} {FS : FileSystem} {MS : ManagedSettlement}
  {LH : LeaseHash} {LP : LedgerPeers} {ENV : LedgerEnv}.

(** Optimistic concurrency: an assignment, a decision, a retry or a
    cancellation that expects a revision other than the stored one does not
    return and writes nothing, whatever else it asks for. *)
Theorem stale_revision_refused op w r i s o s' :
  good (st_disk s) → clear_name (st_disk s) w → dk_items (st_disk s) !! file_of w = Some i →
  op_revision op = Some (w, r) → wi_revision i ≠ r → run_op op s = (o, s') →
  o ≠ Returned () ∧ st_disk s' = st_disk s.
Proof.
  intros Hg Hc Hi Hop Hr Hrun.
  pose proof (spec_elim _ _ _ _ _ _ (f_revision _ Hg op w r i s eq_refl Hc Hi Hr Hop) Hrun) as H.
  by destruct o.
Qed.

(** C37: a lease is a fence.  A renewal, a link, a report, a parking, a release, a
    completion or a failure that names an attempt of another item, presents a
    token the attempt does not accept, or comes after the lease has ended or
    lapsed, writes nothing, and it is refused.  The one exception is a completion
    that repeats a completion on disk, of the same attempt with its token and the
    same report: it may be answered again. *)
Theorem lease_fences {MC : MonotoneClock} op w id token i s o s' :
  good (st_disk s) → clear_name (st_disk s) w → dk_items (st_disk s) !! file_of w = Some i →
  op_lease op = Some (w, id, token) → fenced (st_disk s) s w id token → run_op op s = (o, s') →
  st_disk s' = st_disk s
  ∧ (o = Returned () →
     ∃ rq result, op = OpComplete rq w id token result ∧ completed_before (st_disk s) w id token i result).
Proof.
  intros Hg Hc Hi Hop Hf Hrun.
  assert (spec (run_op op) s (λ _ s', st_disk s' = st_disk s ∧ ∃ rq result,
    op = OpComplete rq w id token result ∧ completed_before (st_disk s) w id token i result)
    (λ s', st_disk s' = st_disk s)) as Hs.
  { destruct op; try done; injection Hop as -> -> ->; cbn [run_op].
    6: { eapply spec_seq; [by eapply (f_complete _ Hg s)|done|]. intros a s1 _ [E H]. apply spec_ret. eauto. }
    all: apply f_never; try (apply f_check; [done|]; intros ? _); by eapply (f_under_lease _ Hg s). }
  pose proof (spec_elim _ _ _ _ _ _ Hs Hrun) as H. destruct o; [by destruct H|done..].
Qed.
End refusals.
