(* ===== verification/LedgerWitness.v ===== *)
(** * The work ledger on concrete runs

    An item that is created, claimed, completed and approved, one that is
    created, claimed and cancelled, and a claim whose process dies between two
    writes; each theorem of [LedgerTheorems] and [LedgerFences] applied to
    them.  Digests are the records themselves and the hash is the identity. *)

From S2P Require Import Prelude Text Window Ids Workload WorkGraph GraphFacts Ledger LedgerStore.
From S2P Require Import LedgerStore LedgerOps LedgerLogic LedgerCommit LedgerRecovery.
From S2P Require Import LedgerSpec LedgerRuns LedgerRefine LedgerOpsRefine LedgerProtocol.
From S2P Require Import LedgerTheorems LedgerFences.
From stdpp Require Import pretty.


#[local] Instance plain_sha : Sha256 := { sha256 s := s }.
#[local] Instance record_digests : LedgerDigests := {|
  digest := WorkItem + WorkAttempt + WorkDecision;
  item_digest i := inl (inl i); attempt_digest a := inl (inr a); decision_digest x := inr x |}.
#[local] Instance record_digests_laws : LedgerDigestsLaws.
Proof. split; intros x y E; by inversion E. Qed.
#[local] Instance flat : FileSystem := λ p, Some p.
#[local] Instance no_settlement : ManagedSettlement := λ _ _, mret ().
#[local] Instance tagged : LeaseHash := {|
  hash_lease_token t := "h:" +:+ t;
  hash_lease_secret secret w a n := secret +:+ w +:+ a +:+ pretty n |}.
(** What the run "run" observed, of the first attempt of the item. *)
Definition observed : CompletionEvidence := {|
  ce_status := "verified"; ce_stop_reason := "completed"; ce_interrupted := false;
  ce_claims := {| cc_present := true; cc_mentions_changes := true; cc_mentions_tests := true;
                  cc_mentions_verification := true |};
  ce_observations := {| co_changed_files := 1; co_tests_observed := 2; co_tests_passed := 2;
                        co_tests_failed := 0; co_tests_incomplete := 0; co_permissions_requested := 0;
                        co_permissions_granted := 0; co_permissions_denied := 0;
                        co_permissions_unresolved := 0 |};
  ce_usage := {| cu_prompt_tokens := 0; cu_completion_tokens := 0; cu_total_tokens := 0; cu_requests := 0 |};
  ce_work_id := Some "w"; ce_run_id := Some "run"; ce_attempt_id := Some "u9" |}.
Definition the_run : RunRecord := {|
  rn_session_id := 7%Z; rn_workspace := "/ws"; rn_verification := Some observed |}.
#[local] Instance alone : LedgerPeers := {|
  load_agent _ _ := inr None; load_run _ id := inr (if decide (id = "run") then Some the_run else None); verified_check_authority _ _ := None;
  candidate_snapshot_dir w := inr w; source_revision _ _ := inr "r1";
  retained_matches _ _ _ _ := inr false; recompute_candidate_apply_bundle _ _ _ _ := inr "" |}.

(** Writes end as [faults] says; a microsecond passes with every effect. *)
Definition world (faults : nat → WriteOutcome) : LedgerEnv := {|
  write_result := faults; read_ok _ := true; io_message _ := "i/o error";
  clock n := (Z.of_nat n * 1000)%Z; fresh_uuid n := "u" +:+ pretty n; dir_order _ l := l |}.
Definition calm : LedgerEnv := world (λ _, WDone).
(** The process dies right after the write of the effect [k]. *)
Definition dying (k : nat) : LedgerEnv := world (λ n, if decide (n = k) then WDiesAfter else WDone).

Lemma world_laws faults : @LedgerEnvLaws (world faults).
Proof. intros n l. done. Qed.
Lemma world_clock faults : @MonotoneClock (world faults).
Proof. intros m n Hmn. cbn. lia. Qed.
Lemma calm_clean : clean (ENV := calm).
Proof. done. Qed.

Definition approved_policy : WorkPolicy := {|
  wp_bounds := wp_bounds policy_default; wp_retry := wp_retry policy_default;
  wp_requires_approval := true; wp_managed_execution := Inherit;
  wp_max_concurrent_attempts := 1; wp_allowed_files := []; wp_required_checks := [] |}.

Definition ticket_with (policy : WorkPolicy) : WorkItem := {|
  wi_schema_version := 1; wi_work_id := "w"; wi_kind := "code"; wi_objective := "do";
  wi_session_id := 7%Z; wi_workspace := "/ws"; wi_created_by := "p";
  wi_assigned_agent_id := None; wi_priority := 0; wi_deadline := None;
  wi_parent_work_id := None; wi_dependencies := [];
  wi_policy := policy; wi_state := WQueued; wi_revision := 1; wi_attempt_count := 0;
  wi_progress := None; wi_result := None; wi_is_container := false; wi_approval := None;
  wi_source_routine_id := None; wi_source_activation_id := None;
  wi_source_manager_plan_id := None; wi_source_manager_step_id := None;
  wi_assignment_status := Unassigned; wi_blocked_reason := None; wi_block_provenance := None;
  wi_last_decision_id := None; wi_created_at := 0; wi_updated_at := 0 |}.
Definition ticket : WorkItem := ticket_with approved_policy.

Definition blank : Disk := {|
  dk_items := ∅; dk_attempts := ∅; dk_decisions := ∅; dk_mutations := ∅; dk_lifecycles := ∅;
  dk_receipts := ∅ |}.
Definition boot : Store := {| st_disk := blank; st_closed := None; st_tick := 0 |}.
Definition next (op : LedgerOp) (s : Store) : Store := (run_op (ENV := calm) op s).2.

Definition saved : Store := next (OpSave ticket) boot.
Definition claimed : Store := next (OpClaim None "w" "agent" None) saved.
Definition outcome_report : WorkResult := {|
  wr_summary := "done"; wr_evidence := []; wr_artifacts := []; wr_failure := None;
  wr_cancellation_reason := None; wr_completed_at := 0; wr_verification := None;
  wr_candidate_verification := None |}.
Definition completed : Store := next (OpComplete None "w" "u9" "u7" outcome_report) claimed.
Definition approved : Store := next (OpApprove None "w" "boss" None None) completed.
Definition cancelled : Store := next (OpCancel None "w" "stop" None) claimed.
Definition progress : WorkProgress := {| pg_summary := "half"; pg_percent := Some 50%Z; pg_updated_at := 0 |}.
(** A worker that goes on after the cancellation. *)
Definition ignored : Store := next (OpProgress None "w" "u9" "u7" progress) cancelled.
(** The process dies inside the claim, with the attempt written and the item not. *)
Definition halted : Store := (run_op (ENV := dying 16) (OpClaim None "w" "agent" None) saved).2.

(** ** The histories *)

Lemma ends {A B} (p : A * B) a : p.1 = a → p = (a, p.2).
Proof. by destruct p as [x y]; intros <-. Qed.

Lemma blank_inv : ledger_inv 0 blank.
Proof. split; [apply map_Forall_empty..|done|]. intros k i. by rw lookup_empty. Qed.

Lemma named d w : clear_name d w.
Proof. intros k i _ E. exact E. Qed.

Lemma extend t d t1 s op :
  history t d t1 (st_disk s) → (t1 ≤ @clock calm (st_tick s))%Z → op_ready (ENV := calm) s op →
  (run_op (ENV := calm) op s).1 = Returned () →
  history t d (@clock calm (st_tick (next op s))) (st_disk (next op s)).
Proof.
  intros H Ht Ho Hr. unfold next. destruct (run_op op s) as [o s'] eqn:E. cbn in Hr. subst o.
  eapply (history_op _ _ calm (world_laws _) (world_clock _)); [done..|exact E|done].
Qed.

Lemma ready_save : op_ready (ENV := calm) boot (OpSave ticket).
Proof. split_and!; [vm_compute; reflexivity..|]. intros a. vm_compute. done. Qed.

Lemma fresh_saved faults : fresh_names (ENV := world faults) saved.
Proof. assert (dk_attempts (st_disk saved) = ∅) as E1 by (vm_compute; reflexivity).
  assert (dk_decisions (st_disk saved) = ∅) as E2 by (vm_compute; reflexivity).
  intros n _. rw E1. split; [apply lookup_empty|]. intros w. rw E2. apply lookup_empty.
Qed.

Lemma ready_claim faults : op_ready (ENV := world faults) saved (OpClaim None "w" "agent" None).
Proof. split_and!; [apply named|apply fresh_saved|done]. Qed.

Lemma to_saved : history 0 blank 2000 (st_disk saved).
Proof.
  change 2000%Z with (@clock calm (st_tick saved)). apply (extend 0 blank 0 boot).
  - apply history_nil.
  - done.
  - apply ready_save.
  - vm_compute. reflexivity.
Qed.

Lemma to_claimed : history 0 blank 20000 (st_disk claimed).
Proof.
  apply (extend 0 blank 2000 saved (OpClaim None "w" "agent" None)).
  - apply to_saved.
  - done.
  - apply ready_claim.
  - vm_compute. reflexivity.
Qed.

Lemma to_approved : history 0 blank 49000 (st_disk approved).
Proof.
  apply (extend 0 blank 35000 completed (OpApprove None "w" "boss" None None)).
  - apply (extend 0 blank 20000 claimed (OpComplete None "w" "u9" "u7" outcome_report)).
    + apply to_claimed.
    + done.
    + apply named.
    + vm_compute. reflexivity.
  - done.
  - apply named.
  - vm_compute. reflexivity.
Qed.

Lemma good_after t s : history 0 blank t (st_disk s) → good (st_disk s).
Proof. intros H. eapply ledger_inv_good. eapply history_inv; [apply blank_inv|exact H]. Qed.

(** ** The theorems on these histories *)

Definition item_at (s : Store) : WorkItem := default ticket (dk_items (st_disk s) !! file_of "w").

Lemma crash_settles :
  settles_to Died halted (st_disk (reopen (ENV := calm) halted).2).
Proof.
  exists calm, (world_laws _), halted, (reopen (ENV := calm) halted).2.
  split_and!; [apply replays_nil| |done]. apply (ends (reopen (ENV := calm) halted)).
  vm_compute. reflexivity.
Qed.

(** The claim died with its attempt on disk and its item not; the restart
    finishes it. *)
Lemma ledger_refines_witness :
  wi_state (item_at halted) = WQueued ∧
  wi_state (item_at (reopen (ENV := calm) halted).2) = WLeased ∧
  ledger_run 2000 (st_disk saved) 17000 (st_disk (reopen (ENV := calm) halted).2).
Proof.
  split; [vm_compute; reflexivity|]. split; [vm_compute; reflexivity|].
  apply (ledger_refines (dying 16) (world_laws _) (world_clock _)
    (OpClaim None "w" "agent" None) saved Died halted).
  - apply (good_after 2000), to_saved.
  - apply ready_claim.
  - apply (ends (run_op (ENV := dying 16) _ saved)). vm_compute. reflexivity.
  - apply crash_settles.
Defined.

Lemma restart_completes_witness :
  ∃ s3, reopen (ENV := calm) halted = (Returned (), s3) ∧ settled (st_disk s3)
    ∧ ledger_run 2000 (st_disk saved) 17000 (st_disk s3).
Proof.
  apply (restart_completes (dying 16) (world_laws _) (world_clock _)
    (OpClaim None "w" "agent" None) saved Died halted).
  - apply (good_after 2000), to_saved.
  - apply ready_claim.
  - apply (ends (run_op (ENV := dying 16) _ saved)). vm_compute. reflexivity.
  - apply world_laws.
  - apply replays_nil.
  - apply calm_clean.
Defined.

Lemma ledger_typed_witness :
  dk_lifecycles (st_disk halted) ≠ ∅ ∧ typed (st_disk halted) ∧ typed (st_disk (reopen (ENV := calm) halted).2).
Proof.
  split; [vm_compute; discriminate|].
  destruct (ledger_typed 0 blank 2000 (dying 16) (world_laws _) (world_clock _)
    (OpClaim None "w" "agent" None) saved Died halted (st_disk (reopen (ENV := calm) halted).2))
    as (_ & H1 & H2 & _).
  - apply blank_inv.
  - apply to_saved.
  - apply ready_claim.
  - apply (ends (run_op (ENV := dying 16) _ saved)). vm_compute. reflexivity.
  - eapply (replays_snoc _ calm (world_laws _) _ halted); [apply replays_nil|reflexivity|apply surjective_pairing].
  - split; assumption.
Defined.

Definition held : WorkAttempt := {|
  wt_schema_version := 1; wt_attempt_id := "u9"; wt_work_id := "w"; wt_attempt_number := 1;
  wt_claimant_id := "agent"; wt_lease_token_hash := "h:u7"; wt_acquired_at := 4000;
  wt_lease_expires_at := 300000004000; wt_last_heartbeat_at := 4000; wt_state := ALeased;
  wt_linked_run_ids := []; wt_progress := None; wt_result := None; wt_terminal_reason := None;
  wt_created_at := 8000; wt_updated_at := 4000 |}.

Lemma lease_exclusive_witness :
  lease_active_at held 30000 = true ∧
  ∀ b, b ∈ attempts_of "w" (dk_attempts (st_disk claimed)) → lease_active_at b 30000 = true → b = held.
Proof.
  split; [vm_compute; reflexivity|]. intros b Hb Hl.
  apply (lease_exclusive 0 blank 20000 (st_disk claimed) 30000 (file_of "w") (item_at claimed) b held).
  - apply blank_inv.
  - apply to_claimed.
  - done.
  - vm_compute. reflexivity.
  - exact Hb.
  - apply (bool_decide_unpack _). vm_compute. done.
  - exact Hl.
  - vm_compute. reflexivity.
Defined.

Lemma attempt_budget_witness :
  (Z.of_nat (length (attempts_of (wi_work_id (item_at claimed)) (dk_attempts (st_disk claimed))))
   ≤ wi_attempt_count (item_at claimed)
   ≤ rt_max_attempts (wp_retry (wi_policy (item_at claimed))) ≤ 100)%Z.
Proof.
  apply (attempt_budget 0 blank 20000 (st_disk claimed) (file_of "w")).
  - apply blank_inv.
  - apply to_claimed.
  - vm_compute. reflexivity.
Defined.

(** An item that succeeds on the evidence of its run. *)
Definition plain_ticket : WorkItem := ticket_with policy_default.
Definition report : WorkResult := {|
  wr_summary := "done"; wr_evidence := []; wr_artifacts := []; wr_failure := None;
  wr_cancellation_reason := None; wr_completed_at := 0; wr_verification := Some observed;
  wr_candidate_verification := None |}.
Definition saved2 : Store := next (OpSave plain_ticket) boot.
Definition claimed2 : Store := next (OpClaim None "w" "agent" None) saved2.
Definition linked2 : Store := next (OpLink None "w" "u9" "u7" "run") claimed2.
Definition succeeded2 : Store := next (OpComplete None "w" "u9" "u7" report) linked2.

Lemma to_succeeded2 :
  history 0 blank (@clock calm (st_tick succeeded2)) (st_disk succeeded2).
Proof.
  assert (op_ready (ENV := calm) saved2 (OpClaim None "w" "agent" None)) as Hc.
  { assert (dk_attempts (st_disk saved2) = ∅) as E1 by (vm_compute; reflexivity).
    assert (dk_decisions (st_disk saved2) = ∅) as E2 by (vm_compute; reflexivity).
    split_and!; [apply named| |done]. intros n _. rw E1 E2. split; [apply lookup_empty|].
    intros w. apply lookup_empty. }
  apply (extend 0 blank (@clock calm (st_tick linked2)) linked2); [|done|apply named|vm_compute; reflexivity].
  apply (extend 0 blank (@clock calm (st_tick claimed2)) claimed2); [|done|apply named|vm_compute; reflexivity].
  apply (extend 0 blank (@clock calm (st_tick saved2)) saved2); [|done|exact Hc|vm_compute; reflexivity].
  apply (extend 0 blank 0 boot); [apply history_nil|done| |vm_compute; reflexivity].
  split_and!; [vm_compute; reflexivity..|]. intros a. vm_compute. done.
Qed.

(** One item with an approval, one with evidence. *)
Lemma success_evidenced_witness :
  is_Some (wi_approval (item_at approved)) ∧
  ∃ r e, wi_result (item_at succeeded2) = Some r ∧ wr_verification r = Some e ∧ verified e.
Proof.
  split.
  - destruct (success_evidenced 0 blank 49000 (st_disk approved) (file_of "w") (item_at approved))
      as [H|(r & e & H & _ & _ & He & _)]; [apply blank_inv|apply to_approved|vm_compute; reflexivity..|exact H|].
    exfalso. vm_compute in H. injection H as <-. discriminate.
  - destruct (success_evidenced 0 blank (@clock calm (st_tick succeeded2)) (st_disk succeeded2) (file_of "w")
      (item_at succeeded2)) as [[x H]|(r & e & H & _ & _ & He & _ & _ & Hv)];
      [apply blank_inv|apply to_succeeded2|vm_compute; reflexivity..| |].
    + vm_compute in H. discriminate.
    + exists r, e. split; [exact H|]. split; [exact He|exact Hv].
Defined.

Lemma to_cancelled : history 0 blank 34000 (st_disk cancelled).
Proof.
  apply (extend 0 blank 20000 claimed (OpCancel None "w" "stop" None)).
  - apply to_claimed.
  - done.
  - split; [apply named|done].
  - vm_compute. reflexivity.
Qed.

(** The worker's report after the cancellation is refused. *)
Lemma to_ignored : history 34000 (st_disk cancelled) 39000 (st_disk ignored).
Proof.
  apply (history_op _ _ calm (world_laws _) (world_clock _) 34000 cancelled
    (OpProgress None "w" "u9" "u7" progress) (Refused (conflict "work lease is no longer active")) ignored).
  - apply history_nil.
  - done.
  - apply named.
  - apply (ends (run_op (ENV := calm) _ cancelled)). vm_compute. reflexivity.
  - left. split; [split; vm_compute; reflexivity|reflexivity].
Qed.

Lemma cancellation_final_witness :
  ∃ j, dk_items (st_disk ignored) !! file_of "w" = Some j ∧ wi_state j = WCancelled
    ∧ Forall (λ a, attempt_is_active (wt_state a) = false)
        (attempts_of (wi_work_id j) (dk_attempts (st_disk ignored))).
Proof.
  apply (cancellation_final 34000 (st_disk cancelled) 39000 (st_disk ignored) (file_of "w") (item_at cancelled)).
  - eapply history_inv; [apply blank_inv|apply to_cancelled].
  - apply to_ignored.
  - vm_compute. reflexivity.
  - vm_compute. done.
  - vm_compute. reflexivity.
Defined.

Lemma revision_identifies_witness :
  ∃ j, dk_items (st_disk ignored) !! file_of "w" = Some j ∧ same_core (item_at cancelled) j
    ∧ (wi_revision (item_at cancelled) ≤ wi_revision j)%Z
    ∧ (wi_revision j = wi_revision (item_at cancelled) →
       (wi_revision (item_at cancelled) < U64_MAX)%Z → j = item_at cancelled).
Proof.
  apply (revision_identifies 34000 (st_disk cancelled) 39000 (st_disk ignored)).
  - eapply history_inv; [apply blank_inv|apply to_cancelled].
  - apply to_ignored.
  - vm_compute. reflexivity.
  - vm_compute. done.
Defined.

Lemma claim_grants_witness :
  match claim_work_inner (ENV := calm) None "w" "agent" None None None saved with
  | (Returned c, s') => granted "w" "agent" None c (st_disk s')
  | _ => False
  end.
Proof.
  assert (∃ c, (claim_work_inner (ENV := calm) None "w" "agent" None None None saved).1 = Returned c) as [c Hc].
  { eexists. vm_compute. reflexivity. }
  destruct (claim_work_inner _ _ _ _ _ _ saved) as [o s'] eqn:E. cbn in Hc. subst o.
  apply (claim_grants (E := calm) (L := world_laws _) (C := world_clock _) None "w" "agent" None None None saved).
  - apply (good_after 2000), to_saved.
  - apply named.
  - apply fresh_saved.
  - done.
  - exact E.
Defined.

Lemma stale_revision_refused_witness :
  (run_op (ENV := calm) (OpCancel None "w" "stop" (Some 1%Z)) claimed).1 ≠ Returned ()
  ∧ st_disk (next (OpCancel None "w" "stop" (Some 1%Z)) claimed) = st_disk claimed.
Proof.
  apply (stale_revision_refused (ENV := calm)
    (OpCancel None "w" "stop" (Some 1%Z)) "w" 1 (item_at claimed) claimed).
  - apply (good_after 20000), to_claimed.
  - apply named.
  - vm_compute. reflexivity.
  - done.
  - vm_compute. done.
  - apply surjective_pairing.
Defined.

Lemma lease_fences_witness :
  st_disk (next (OpRelease None "w" "u9" "stolen" "no reason") claimed) = st_disk claimed
  ∧ (run_op (ENV := calm) (OpRelease None "w" "u9" "stolen" "no reason") claimed).1 ≠ Returned ().
Proof.
  destruct (lease_fences (ENV := calm) (MC := world_clock _)
    (OpRelease None "w" "u9" "stolen" "no reason") "w" "u9" "stolen" (item_at claimed) claimed
    (run_op (ENV := calm) (OpRelease None "w" "u9" "stolen" "no reason") claimed).1
    (next (OpRelease None "w" "u9" "stolen" "no reason") claimed)) as [H1 H2].
  - apply (good_after 20000), to_claimed.
  - apply named.
  - vm_compute. reflexivity.
  - done.
  - intros a Ha. right. left.
    assert (dk_attempts (st_disk claimed) !! file_of "u9" = Some held) as Hh by (vm_compute; reflexivity).
    rw Hh in Ha. injection Ha as <-. vm_compute. reflexivity.
  - apply surjective_pairing.
  - split; [exact H1|]. intros E. destruct (H2 E) as (rq & result & Hop & _). discriminate.
Defined.

(** ** A bound request whose process dies after the item is written *)

Definition zeros : string :=
  "0000000000000000000000000000000000000000000000000000000000000000".
Definition binding : WorkRequestBinding := {|
  rq_request_id := "r"; rq_owner_id := "p"; rq_tool := "ptah_assign_work"; rq_session_id := 7%Z;
  rq_workspace_digest := zeros; rq_workspace_display := "/ws"; rq_payload_hash := "ph";
  rq_shape := "work_scope"; rq_target_work_id := Some "w"; rq_target_attempt_id := None;
  rq_expected_revision := Some 1%Z |}.
Definition open_receipt : IdempotencyReceipt := {|
  ir_schema_version := 2; ir_owner_id := "p"; ir_session_id := 7%Z; ir_workspace_digest := zeros;
  ir_request_id := "r"; ir_payload_hash := "ph"; ir_run_id := None; ir_tool := "ptah_assign_work";
  ir_response := RNull; ir_error := None; ir_created_at := 0; ir_status := "pending";
  ir_cleanup_plan_digest := "" |}.
Definition receipt_path : string * string * string :=
  (owner_path_digest (scope_of_request binding), zeros, hex "r").
Definition asked : Store := {|
  st_disk := put_receipts {[ receipt_path := open_receipt ]} (st_disk saved);
  st_closed := None; st_tick := st_tick saved |}.
Definition given : WorkItem := bump_at (set_assignment (Some "agent") Accepted ticket) 5000.
Definition assign_run : outcome unit * Store :=
  commit_lifecycle_with_request (ENV := dying 8) "assign" ticket given [] [] (Some binding) asked.
Definition restart : Store := (reopen (ENV := calm) assign_run.2).2.

Lemma good_asked : good (st_disk asked).
Proof.
  destruct (good_after 2000 saved to_saved) as [H1 H2 H3]. by split.
Qed.

(** The item is written and the receipt still pending; the restart completes
    it with the answer of the assignment. *)
Lemma commit_exactly_once_witness :
  wi_revision (item_at assign_run.2) = 2%Z ∧
  ir_status <$> (dk_receipts (st_disk assign_run.2) !! receipt_path) = Some "pending" ∧
  ir_status <$> (dk_receipts (st_disk restart) !! receipt_path) = Some "complete" ∧
  ((st_disk restart = st_disk asked ∧ Died ≠ Returned ()) ∨
   (dk_items (st_disk restart) = <[item_name given := given]> (dk_items (st_disk asked))
    ∧ dk_attempts (st_disk restart) = write_all [] (dk_attempts (st_disk asked))
    ∧ ∃ I response path r, intent_of "assign" ticket given [] [] (Some binding) I
      ∧ lifecycle_response_value I = inr response ∧ response ≠ RNull
      ∧ idemp_path (scope_of_request binding) (rq_request_id binding) = inr path
      ∧ dk_receipts (st_disk asked) !! path = Some r ∧ ir_status r = "pending"
      ∧ dk_receipts (st_disk restart)
        = <[path := completed_receipt binding response r]> (dk_receipts (st_disk asked)))).
Proof.
  do 3 (split; [vm_compute; reflexivity|]).
  apply (commit_exactly_once (E := dying 8) (L := world_laws _) "assign" ticket given [] [] binding
    asked 0 Died assign_run.2 (st_disk restart)).
  - apply good_asked.
  - vm_compute. reflexivity.
  - intros a. vm_compute. done.
  - by apply tr_assign.
  - done.
  - apply (bool_decide_unpack _). vm_compute. done.
  - right. apply (bool_decide_unpack _). vm_compute. done.
  - intros a []%not_elem_of_nil.
  - apply (bool_decide_unpack _). vm_compute. done.
  - apply (ends assign_run). vm_compute. reflexivity.
  - exists calm, (world_laws _), assign_run.2, restart. split_and!; [apply replays_nil| |reflexivity].
    apply (ends (reopen (ENV := calm) assign_run.2)). vm_compute. reflexivity.
Defined.
