(* ===== verification/LedgerFaults.v ===== *)
(** * The work ledger against its comments

    Four short runs of the store, evaluated: a failed write after which the
    store does not open again, a request that fails after its change is written,
    a worker that lifts a human gate, and a report that revives a failed item. *)

From S2P Require Import Prelude Text Window Ids Workload WorkGraph Ledger LedgerStore.
From S2P Require Import LedgerStore LedgerOps LedgerCommit LedgerProtocol LedgerWitness.

#[local] Existing Instances plain_sha record_digests flat no_settlement tagged alone.

(** One write fails, before or after its rename. *)
Definition failing (k : nat) (o : WriteOutcome) : LedgerEnv :=
  world (λ n, if decide (n = k) then o else WDone).

Definition state_at (s : Store) : option WorkState :=
  wi_state <$> dk_items (st_disk s) !! file_of "w".

Definition claim_failed : outcome unit * Store :=
  run_op (ENV := failing 16 WErrBefore) (OpClaim None "w" "agent" None) saved.
Definition assigned : outcome unit * Store :=
  run_op (ENV := calm) (OpAssign None "w" (Some "other") None) claim_failed.2.
Definition refused_open : outcome unit * Store := reopen (ENV := calm) assigned.2.

(** One failed write can make the ledger impossible to open. A claim whose
    attempt cannot be written is refused and leaves its intent; the same process
    then accepts an assignment of the item, which moves its revision; from then
    on opening the store is refused, without any further fault, and changes
    nothing, so that every later start is refused as well. *)
Theorem failed_commit_strands_store :
  claim_failed.1 = Refused (internal "i/o error") ∧
  assigned.1 = Returned () ∧
  refused_open.1 = Refused (conflict
    "work lifecycle recovery found an unexpected prior revision for claim") ∧
  st_disk refused_open.2 = st_disk assigned.2.
Proof. split_and!; vm_compute; reflexivity. Qed.

(** The same after an error that the intent's own write reports once the file
    is in place: admission is not even closed, and a second claim returns. *)
Definition intent_failed : outcome unit * Store :=
  run_op (ENV := failing 13 WErrAfter) (OpClaim None "w" "agent" None) saved.
Definition claimed_again : outcome unit * Store :=
  run_op (ENV := calm) (OpClaim None "w" "agent" None) intent_failed.2.
Example intent_error_not_noted :
  st_closed intent_failed.2 = None ∧ claimed_again.1 = Returned () ∧
  (reopen (ENV := calm) claimed_again.2).1 = Refused (conflict
    "work lifecycle recovery found an unexpected prior revision for claim").
Proof. split_and!; vm_compute; reflexivity. Qed.

(** A request that asks for an attempt of an item that has none. *)
Definition attempt_binding : WorkRequestBinding := {|
  rq_request_id := "r"; rq_owner_id := "p"; rq_tool := "ptah_assign_work"; rq_session_id := 7%Z;
  rq_workspace_digest := zeros; rq_workspace_display := "/ws"; rq_payload_hash := "ph";
  rq_shape := "work_attempt"; rq_target_work_id := Some "w"; rq_target_attempt_id := None;
  rq_expected_revision := Some 1%Z |}.
Definition misbound : outcome unit * Store :=
  run_op (ENV := calm) (OpAssign (Some attempt_binding) "w" (Some "agent") None) asked.
Example misbound_request_strands_store :
  misbound.1 = Refused (internal "work attempt response has no attempt") ∧
  wi_revision (item_at misbound.2) = 2%Z ∧ st_closed misbound.2 = None ∧
  (reopen (ENV := calm) misbound.2).1 = Refused (internal "work attempt response has no attempt").
Proof. split_and!; vm_compute; reflexivity. Qed.

(** An item awaiting approval, and one under an operator's hold: the worker
    that completed it releases it, and it can be claimed. *)
Definition gate_lifted : Store := next (OpRelease None "w" "u9" "u7" "again") completed.
Definition on_hold : Store := next (OpBlock None "w" "boss" "hold" None 40000) completed.
Definition hold_lifted : Store := next (OpRelease None "w" "u9" "u7" "again") on_hold.
Example worker_lifts_gate :
  state_at completed = Some WAwaitingApproval ∧ state_at gate_lifted = Some WQueued ∧
  state_at on_hold = Some WBlocked ∧ state_at hold_lifted = Some WQueued ∧
  (run_op (ENV := calm) (OpClaim None "w" "other" None) hold_lifted).1 = Returned ().
Proof. split_and!; vm_compute; reflexivity. Qed.

(** An item that reconciliation failed at its deadline keeps its attempt, whose
    report takes it back to running. *)
Definition timed : WorkItem := {|
  wi_schema_version := 1; wi_work_id := "w"; wi_kind := "code"; wi_objective := "do";
  wi_session_id := 7%Z; wi_workspace := "/ws"; wi_created_by := "p";
  wi_assigned_agent_id := None; wi_priority := 0; wi_deadline := Some 25000%Z;
  wi_parent_work_id := None; wi_dependencies := [];
  wi_policy := approved_policy; wi_state := WQueued; wi_revision := 1; wi_attempt_count := 0;
  wi_progress := None; wi_result := None; wi_is_container := false; wi_approval := None;
  wi_source_routine_id := None; wi_source_activation_id := None;
  wi_source_manager_plan_id := None; wi_source_manager_step_id := None;
  wi_assignment_status := Unassigned; wi_blocked_reason := None; wi_block_provenance := None;
  wi_last_decision_id := None; wi_created_at := 0; wi_updated_at := 0 |}.
Definition overdue : Store :=
  next (OpReconcile (Some 26000%Z)) (next (OpClaim None "w" "agent" None) (next (OpSave timed) boot)).
Definition revived : Store := next (OpProgress None "w" "u9" "u7" progress) overdue.
Example failed_item_revived :
  state_at overdue = Some WFailed ∧ state_at revived = Some WRunning.
Proof. split_and!; vm_compute; reflexivity. Qed.
