(* ===== verification/Chars.v ===== *)
(** * Characters of a string

    A Rust [str] is a byte string that is valid UTF-8.  A [char] is modelled by
    its encoding, so that [chars] cuts a string at the widths the leading bytes
    announce and [concat_str] puts it back.  Byte offsets, as [char_indices] and
    [str::get] use them, are counted in bytes of the encoding. *)

From Stdlib Require Import Ascii.
From S2P Require Import Prelude Text.

(** The number of bytes of the character that starts with byte [c]. *)
Definition char_width (c : ascii) : nat :=
  if decide (byte_val c < 192)%Z then 1
  else if decide (byte_val c < 224)%Z then 2
  else if decide (byte_val c < 240)%Z then 3
  else 4.

Fixpoint chars_fuel (fuel : nat) (s : string) : list string :=
  match fuel, s with
  | S fuel, String c _ =>
      string_take (char_width c) s :: chars_fuel fuel (string_drop (char_width c) s)
  | _, _ => []
  end.

(** [str::chars]. *)
Definition chars (s : string) : list string := chars_fuel (String.length s) s.

(** Pushing the characters of a list one after the other. *)
Definition concat_str (l : list string) : string := foldr String.append "" l.

Definition bytes_len (l : list string) : nat := sum_list_with String.length l.

(** [str::len] in bytes is [String.length]; [chars().count()] is this. *)
Definition char_count (s : string) : nat := length (chars s).

(** The scalar value of a character. *)
Definition code_point (ch : string) : Z :=
  let low c := (byte_val c - 128)%Z in
  match ch with
  | String a "" => byte_val a
  | String a (String b "") => (byte_val a - 192) * 64 + low b
  | String a (String b (String c "")) => (byte_val a - 224) * 4096 + low b * 64 + low c
  | String a (String b (String c (String d _))) =>
      (byte_val a - 240) * 262144 + low b * 4096 + low c * 64 + low d
  | "" => 0
  end%Z.

(** [char::is_whitespace], [char::is_control] and the ASCII classes. *)
Definition is_whitespace (ch : string) : bool := bool_decide (ch ∈ white_space).

Definition is_control (ch : string) : bool :=
  bool_decide (code_point ch < 32 ∨ 127 ≤ code_point ch < 160)%Z.

Definition is_ascii_uppercase (ch : string) : bool := bool_decide (65 ≤ code_point ch ≤ 90)%Z.
Definition is_ascii_lowercase (ch : string) : bool := bool_decide (97 ≤ code_point ch ≤ 122)%Z.
Definition is_ascii_digit (ch : string) : bool := bool_decide (48 ≤ code_point ch ≤ 57)%Z.
Definition is_ascii_alphabetic (ch : string) : bool :=
  is_ascii_uppercase ch || is_ascii_lowercase ch.
Definition is_ascii_alphanumeric (ch : string) : bool :=
  is_ascii_alphabetic ch || is_ascii_digit ch.

(** [str::is_char_boundary]: an end of the string, or a byte that does not
    continue a character. *)
Definition is_char_boundary (s : string) (i : nat) : bool :=
  match i with
  | O => true
  | _ =>
      match string_drop i s with
      | "" => bool_decide (i = String.length s)
      | String c _ => bool_decide (¬ (128 ≤ byte_val c < 192)%Z)
      end
  end.

(** [str::get] of a range. *)
Definition str_get (s : string) (start stop : nat) : option string :=
  if decide ((start ≤ stop)%nat ∧ (stop ≤ String.length s)%nat
             ∧ is_char_boundary s start = true ∧ is_char_boundary s stop = true)
  then Some (string_take (stop - start) (string_drop start s)) else None.

(** [str::find] of a string: the byte offset of its first occurrence. *)
Fixpoint str_find (p s : string) : option nat :=
  if starts_with p s then Some 0%nat
  else match s with "" => None | String _ s' => S <$> str_find p s' end.

(** [str::split_inclusive] at whitespace. *)
Fixpoint split_inclusive_from (cur : list string) (l : list string) : list string :=
  match l with
  | [] => match cur with [] => [] | _ => [concat_str cur] end
  | c :: l =>
      if is_whitespace c then concat_str (cur ++ [c]) :: split_inclusive_from [] l
      else split_inclusive_from (cur ++ [c]) l
  end.

Definition split_inclusive_whitespace (s : string) : list string :=
  split_inclusive_from [] (chars s).

(** [str::split_whitespace]. *)
Fixpoint split_whitespace_from (cur : list string) (l : list string) : list string :=
  match l with
  | [] => match cur with [] => [] | _ => [concat_str cur] end
  | c :: l =>
      if is_whitespace c
      then match cur with [] => [] | _ => [concat_str cur] end ++ split_whitespace_from [] l
      else split_whitespace_from (cur ++ [c]) l
  end.

Definition split_whitespace (s : string) : list string := split_whitespace_from [] (chars s).

(** [slice::join]. *)
Definition join (sep : string) (l : list string) : string := String.concat sep l.

(** ** Facts *)

Lemma char_width_pos c : (1 ≤ char_width c)%nat.
Proof. unfold char_width. repeat case_decide; lia. Qed.

Lemma string_drop_length n s : String.length (string_drop n s) = (String.length s - n)%nat.
Proof. revert s. induction n as [|n IH]; intros [|c s]; simpl; rw ?IH; done || lia. Qed.

Lemma chars_fuel_concat fuel s :
  (String.length s ≤ fuel)%nat → concat_str (chars_fuel fuel s) = s.
Proof.
  revert s. induction fuel as [|fuel IH]; intros [|c s] Hf; try done; [simpl in Hf; lia|].
  cbn [chars_fuel]. unfold concat_str. cbn [foldr]. fold (concat_str (chars_fuel fuel (string_drop (char_width c) (String c s)))).
  rw IH; [apply string_take_drop|]. rw string_drop_length. pose proof (char_width_pos c).
  simpl in Hf |- *. lia.
Qed.

Lemma concat_chars s : concat_str (chars s) = s.
Proof. by apply chars_fuel_concat. Qed.

Lemma chars_fuel_enough fuel s :
  (String.length s ≤ fuel)%nat → chars_fuel fuel s = chars s.
Proof.
  unfold chars. remember (String.length s) as n eqn:Hn. assert (String.length s ≤ n)%nat as Hs by lia.
  clear Hn. revert n s Hs. induction fuel as [|fuel IH]; intros n [|c s] Hs Hf; try done;
    [destruct n; done|simpl in Hs; lia|by destruct n|].
  destruct n as [|n]; [simpl in Hs; lia|]. cbn [chars_fuel]. f_equal.
  pose proof (char_width_pos c). pose proof (string_drop_length (char_width c) (String c s)) as Hd.
  simpl in Hd, Hs.
  apply IH; lia.
Qed.

Lemma concat_str_app a b : concat_str (a ++ b) = concat_str a +:+ concat_str b.
Proof.
  unfold concat_str. induction a as [|x a IH]; [done|]. simpl. by rw IH string_app_assoc.
Qed.

Lemma concat_str_one x : concat_str [x] = x.
Proof. apply string_app_nil_r. Qed.

(** ** Characters of a valid string

    In a valid UTF-8 string the leading byte announces the width of each
    character, so that [chars] cuts it into whole characters, the offsets of
    [char_indices] are character boundaries, and cutting at an ASCII delimiter
    leaves valid strings. *)

(** ** Offsets *)

Lemma string_take_app a b : string_take (String.length a) (a +:+ b) = a.
Proof. induction a as [|c a IH]; [by destruct b|]. simpl. by rw IH. Qed.

Lemma string_drop_app a b : string_drop (String.length a) (a +:+ b) = b.
Proof. induction a as [|c a IH]; [by destruct b|]. apply IH. Qed.

Lemma string_drop_drop n m s : string_drop m (string_drop n s) = string_drop (n + m) s.
Proof. revert s. induction n as [|n IH]; intros [|c s]; simpl; try done. by destruct m. Qed.

Lemma bytes_len_length l : bytes_len l = String.length (concat_str l).
Proof. unfold bytes_len, concat_str. induction l as [|x l IH]; [done|]. simpl. by rw string_length_app IH. Qed.

Lemma bytes_len_app a b : bytes_len (a ++ b) = (bytes_len a + bytes_len b)%nat.
Proof. unfold bytes_len. induction a as [|x a IH]; [done|]. simpl. rw IH. lia. Qed.

Lemma take_concat n l : string_take (bytes_len (take n l)) (concat_str l) = concat_str (take n l).
Proof. rw -{2}(take_drop n l) concat_str_app bytes_len_length. apply string_take_app. Qed.

Lemma drop_concat n l : string_drop (bytes_len (take n l)) (concat_str l) = concat_str (drop n l).
Proof. rw -{2}(take_drop n l) concat_str_app bytes_len_length. apply string_drop_app. Qed.

(** ** Whole characters *)

Definition whole (ch : string) : Prop := ∃ c r, ch = String c r ∧ String.length ch = char_width c.

Lemma whole_pos ch : whole ch → (1 ≤ String.length ch)%nat.
Proof. intros (c & r & -> & _). simpl. lia. Qed.

Lemma chars_whole ch s : whole ch → chars (ch +:+ s) = ch :: chars s.
Proof.
  intros (c & r & -> & E). rw -(chars_fuel_enough (S (String.length (String c r +:+ s)))) //; [|lia].
  change (String c r +:+ s) with (String c (r +:+ s)). cbn [chars_fuel]. change (String c (r +:+ s)) with (String c r +:+ s).
  rw -E string_take_app string_drop_app.
  f_equal. apply chars_fuel_enough. rw string_length_app. lia.
Qed.

Lemma chars_concat l : Forall whole l → chars (concat_str l) = l.
Proof.
  induction 1 as [|ch l Hch _ IH]; [done|].
  change (concat_str (ch :: l)) with (ch +:+ concat_str l). by rw chars_whole // IH.
Qed.

Lemma chars_nil s : chars s = [] → s = "".
Proof. intros E. by rw -(concat_chars s) E. Qed.

(** ** Validity *)

(** The bytes a state still waits for. *)
Definition utf8_left (q : utf8_state) : nat :=
  match q with
  | U_start | U_bad => 0
  | U_tail1 => 1
  | U_tail2 | U_E0 | U_ED => 2
  | U_tail3 | U_F0 | U_F4 => 3
  end.

Lemma utf8_run_bad s : utf8_run U_bad s = U_bad.
Proof. by induction s. Qed.

Lemma utf8_left_step q c :
  q ≠ U_start → utf8_step q c ≠ U_bad → utf8_left q = S (utf8_left (utf8_step q c)).
Proof. intros Hq. destruct q; try done; simpl; case_decide; done. Qed.

Lemma utf8_rest q s :
  utf8_run q s = U_start →
  (utf8_left q ≤ String.length s)%nat ∧ utf8_run q (string_take (utf8_left q) s) = U_start ∧
  utf8_run U_start (string_drop (utf8_left q) s) = U_start.
Proof.
  remember (utf8_left q) as n eqn:Hn. revert q s Hn. induction n as [|n IH]; intros q s Hn Hrun.
  - assert (q = U_start) as ->.
    { destruct q; try done. by rw utf8_run_bad in Hrun. }
    split_and!; [lia|by destruct s|by destruct s].
  - destruct s as [|c s]; [simpl in Hrun; by subst q|].
    assert (q ≠ U_start) by (by intros ->). cbn [utf8_run] in Hrun.
    assert (utf8_step q c ≠ U_bad) as Hb by (intros E; by rw E utf8_run_bad in Hrun).
    pose proof (utf8_left_step q c ltac:(done) Hb).
    destruct (IH (utf8_step q c) s ltac:(lia) Hrun) as (H1 & H2 & H3).
    split_and!; [simpl; lia|exact H2|exact H3].
Qed.

Lemma utf8_left_width c :
  utf8_step U_start c ≠ U_bad →
  char_width c = S (utf8_left (utf8_step U_start c)) ∧ ¬ (128 ≤ byte_val c < 192)%Z.
Proof.
  unfold char_width. cbn [utf8_step]. repeat case_decide; intros ?; try done; split; try done; lia.
Qed.

(** The first character of a valid string and what follows it. *)
Lemma utf8_first c s :
  utf8_valid (String c s) = true →
  let ch := string_take (char_width c) (String c s) in
  whole ch ∧ utf8_valid ch = true ∧ utf8_valid (string_drop (char_width c) (String c s)) = true ∧
  ¬ (128 ≤ byte_val c < 192)%Z.
Proof.
  unfold utf8_valid. rw !bool_decide_eq_true. cbn [utf8_run]. intros Hrun.
  assert (utf8_step U_start c ≠ U_bad) as Hb by (intros E; by rw E utf8_run_bad in Hrun).
  destruct (utf8_left_width c Hb) as [Hw Hc]. destruct (utf8_rest _ _ Hrun) as (H1 & H2 & H3).
  rw Hw. cbn [string_take string_drop]. split_and!; [|exact H2|exact H3|exact Hc].
  eexists c, _. split; [done|]. rw Hw. cbn [String.length]. rw string_take_length. lia.
Qed.

Lemma utf8_chars_ind (P : string → Prop) :
  P "" →
  (∀ ch s, whole ch → utf8_valid ch = true → utf8_valid s = true → P s → P (ch +:+ s)) →
  ∀ s, utf8_valid s = true → P s.
Proof.
  intros H0 HS s. remember (String.length s) as n eqn:Hn. revert s Hn.
  induction (lt_wf n) as [n _ IH]. intros [|c s] -> Hs; [done|].
  destruct (utf8_first c s Hs) as (H1 & H2 & H3 & _). rw -(string_take_drop (char_width c) (String c s)).
  apply HS; [done..|]. eapply IH; [|done|done]. rw string_drop_length. pose proof (char_width_pos c). simpl. lia.
Qed.

Lemma utf8_chars s : utf8_valid s = true → Forall (λ ch, whole ch ∧ utf8_valid ch = true) (chars s).
Proof.
  revert s. apply utf8_chars_ind; [by constructor|]. intros ch s Hw Hv _ IH. rw chars_whole //. by constructor.
Qed.

Lemma utf8_whole s : utf8_valid s = true → Forall whole (chars s).
Proof. intros Hs. apply utf8_chars in Hs. eapply Forall_impl; [done|]. by intros ? []. Qed.

Lemma utf8_concat l : Forall (λ ch, utf8_valid ch = true) l → utf8_valid (concat_str l) = true.
Proof. induction 1; [done|]. by apply utf8_valid_app. Qed.

Lemma chars_app a b : utf8_valid a = true → chars (a +:+ b) = chars a ++ chars b.
Proof.
  revert a. apply (utf8_chars_ind (λ a, chars (a +:+ b) = chars a ++ chars b)); [done|].
  intros ch s Hw _ _ IH. rw string_app_assoc (chars_whole ch (s +:+ b)) // (chars_whole ch s) //. by rw IH.
Qed.

(** The offset of a character is a boundary. *)
Lemma chars_boundary s n : utf8_valid s = true → is_char_boundary s (bytes_len (take n (chars s))) = true.
Proof.
  intros Hs. assert (utf8_valid (concat_str (drop n (chars s))) = true) as Hd.
  { apply utf8_concat, Forall_drop. eapply Forall_impl; [by apply utf8_chars|]. by intros ? []. }
  unfold is_char_boundary. assert (string_drop (bytes_len (take n (chars s))) s = concat_str (drop n (chars s))) as E
    by (rw -drop_concat concat_chars //).
  destruct (bytes_len (take n (chars s))) as [|m] eqn:Hm; [done|]. rw E -Hm.
  destruct (concat_str (drop n (chars s))) as [|c r] eqn:Hr.
  - apply bool_decide_eq_true. rw bytes_len_length -{2}(concat_chars s) -{2}(take_drop n (chars s)).
    by rw concat_str_app Hr string_app_nil_r.
  - apply bool_decide_eq_true. by destruct (utf8_first c r Hd) as (_ & _ & _ & ?).
Qed.

(** ** Cutting at ASCII *)

Definition ascii_only (p : string) : bool := string_forall (λ c, bool_decide (byte_val c ≤ 127)%Z) p.

Lemma utf8_run_ascii p : ascii_only p = true → utf8_run U_start p = U_start.
Proof.
  unfold ascii_only. induction p as [|c p IH]; [done|]. simpl. rw andb_true_iff bool_decide_eq_true. intros [Hc Hp].
  rw decide_True //. by apply IH.
Qed.

(** A byte that does not continue a character starts one. *)
Lemma utf8_step_lead q c : ¬ (128 ≤ byte_val c < 192)%Z → utf8_step q c ≠ U_bad → q = U_start.
Proof. intros Hc. destruct q; try done; simpl; case_decide; try done; lia. Qed.

Lemma utf8_cut_lead a c b :
  ¬ (128 ≤ byte_val c < 192)%Z → utf8_valid (a +:+ String c b) = true →
  utf8_valid a = true ∧ utf8_valid (String c b) = true.
Proof.
  intros Hc. unfold utf8_valid. rw !bool_decide_eq_true utf8_run_app. intros Hrun.
  assert (utf8_run U_start a = U_start) as Ha; [|by rw Ha in Hrun].
  eapply utf8_step_lead; [done|]. intros E. cbn [utf8_run] in Hrun. by rw E utf8_run_bad in Hrun.
Qed.

Lemma utf8_cut_ascii a p b :
  p ≠ "" → ascii_only p = true → utf8_valid (a +:+ p +:+ b) = true →
  utf8_valid a = true ∧ utf8_valid b = true.
Proof.
  intros Hne Hp Hv. destruct p as [|c p]; [done|].
  destruct (utf8_cut_lead a c (p +:+ b)) as [Ha Hb]; [|done|].
  - unfold ascii_only in Hp. simpl in Hp. apply andb_true_iff in Hp as [Hc _]. apply bool_decide_eq_true in Hc. lia.
  - split; [done|]. change (String c (p +:+ b)) with (String c p +:+ b) in Hb. unfold utf8_valid in Hb |- *.
    rw !bool_decide_eq_true utf8_run_app (utf8_run_ascii _ Hp) in Hb |- *. done.
Qed.

(** A valid string that ends in the bytes of a character ends in that character. *)
Lemma chars_snoc s r ch :
  utf8_valid s = true → s = r +:+ ch → whole ch → utf8_valid ch = true →
  utf8_valid r = true ∧ chars s = chars r ++ [ch].
Proof.
  intros Hs -> Hw Hv. destruct Hw as (c & t & -> & Hlen).
  destruct (utf8_first c t Hv) as (_ & _ & _ & Hc). destruct (utf8_cut_lead r c t Hc Hs) as [Hr _].
  split; [done|]. rw chars_app //. f_equal. rw -{1}(string_app_nil_r (String c t)). apply chars_whole. by exists c, t.
Qed.
