(* ===== verification/Result.v ===== *)
(** * Results with an error type of any kind

    [Result<T, E>] as [E + T], with the [?] operator as bind, the early return
    of a guard, and the loops that stop at the first error. *)

From S2P Require Import Prelude.

#[export] Instance result_ret {E} : MRet (sum E) := λ A a, inr a.
#[export] Instance result_bind {E} : MBind (sum E) := λ A B f m,
  match m with inl e => inl e | inr a => f a end.

(** [if !b { return Err(e) }]. *)
Definition ensure {E} (b : bool) (e : E) : E + unit := if b then inr () else inl e.

(** [o.ok_or(e)?]. *)
Definition ok_or {E A} (o : option A) (e : E) : E + A :=
  match o with Some a => inr a | None => inl e end.

(** [for x in xs { f(x)?; }]. *)
Fixpoint each {E A} (f : A → E + unit) (xs : list A) : E + unit :=
  match xs with
  | [] => inr ()
  | x :: xs => _ ← f x; each f xs
  end.

(** [for x in xs { out.push(f(x)?); }]. *)
Fixpoint collect {E A B} (f : A → E + B) (xs : list A) : E + list B :=
  match xs with
  | [] => inr []
  | x :: xs => y ← f x; ys ← collect f xs; mret (y :: ys)
  end.

Definition map_err {E F A} (f : E → F) (m : E + A) : F + A :=
  match m with inl e => inl (f e) | inr a => inr a end.

Lemma result_bind_inr {E A B} (m : E + A) (f : A → E + B) b :
  m ≫= f = inr b ↔ ∃ a, m = inr a ∧ f a = inr b.
Proof. unfold mbind, result_bind. destruct m; naive_solver. Qed.

Lemma result_ensure_inr {E} b (e : E) u : ensure b e = inr u ↔ b = true.
Proof. destruct u, b; naive_solver. Qed.

Lemma result_ok_or_inr {E A} o (e : E) (a : A) : ok_or o e = inr a ↔ o = Some a.
Proof. destruct o; naive_solver. Qed.

Lemma map_err_inr {E F A} (f : E → F) (m : E + A) a : map_err f m = inr a ↔ m = inr a.
Proof. destruct m; naive_solver. Qed.

Lemma result_each_inr {E A} (f : A → E + unit) xs u :
  each f xs = inr u ↔ ∀ x, x ∈ xs → f x = inr ().
Proof.
  destruct u. induction xs as [|x xs IH]; cbn [each].
  - split; [|done]. intros _ x Hx. by apply elem_of_nil in Hx.
  - rw result_bind_inr. setoid_rewrite elem_of_cons. split.
    + intros ([] & Hx & Hxs) y [->|Hy]; [done|]. by apply IH.
    + intros H. exists (). split; [auto|]. apply IH. auto.
Qed.

Lemma collect_inr {E A B} (f : A → E + B) xs ys :
  collect f xs = inr ys ↔ Forall2 (λ x y, f x = inr y) xs ys.
Proof.
  revert ys. induction xs as [|x xs IH]; intros ys; cbn [collect].
  - split; [intros [= <-]; constructor|]. by intros ->%Forall2_nil_inv_l.
  - rw result_bind_inr. setoid_rewrite result_bind_inr. split.
    + intros (y & Hy & l & Hl%IH & [= <-]). by constructor.
    + intros (y & l & Hy & Hl & ->)%Forall2_cons_inv_l. exists y. split; [done|]. exists l.
      by rw IH.
Qed.

(** A chain of binds that returns, as nested existentials. *)
Ltac result_binds := repeat setoid_rewrite result_bind_inr.
