(* ===== verification/HelpDigest.v ===== *)
(** * Digests of Semantic Help

    [grokptah-help-contract/src/digest.rs]: the length-prefixed encoding of a
    list of fields and the domain-separated digest over it.  SHA-256 is the
    class [Sha256] of [Ids]; the theorems that need it to be collision free
    say between which messages ([no_collision]). *)

From S2P Require Import Prelude Text Ids.
From stdpp Require Import pretty.
From Stdlib Require Import Ascii.

Module domain.

Definition SOURCE : string := "grokptah.help.source.v1".
Definition ARTICLE : string := "grokptah.help.article.v1".
Definition CHUNK : string := "grokptah.help.chunk.v1".
Definition SOURCE_SET : string := "grokptah.help.source-set.v1".
Definition CORPUS : string := "grokptah.help.corpus.v1".
Definition MANIFEST : string := "grokptah.help.manifest.v1".
Definition GRANT : string := "grokptah.help.grant.v1".
Definition ADMISSION : string := "grokptah.help.admission.v1".
Definition REQUEST : string := "grokptah.help.request.v1".
Definition RECEIPT : string := "grokptah.help.receipt.v1".

End domain.

(** Each field becomes [<byte length>:<field>]. *)
Definition length_prefixed (fields : list string) : string :=
  foldr (λ field rest, pretty (String.length field) +:+ ":" +:+ field +:+ rest) "" fields.

Definition sha256_hex `{Sha256} (value : string) : string := hex (sha256 value).

Definition domain_digest `{Sha256} (domain : string) (fields : list string) : string :=
  "sha256:" +:+ sha256_hex (length_prefixed (domain :: fields)).

(** [format!("{id:08}")]. *)
Definition pad8 (id : Z) : string :=
  let digits := pretty id in
  string_rev (string_take (8 - String.length digits) "00000000") +:+ digits.

(** [x += 1] on a [u64] in a build without overflow checks. *)
Definition u64_succ (n : Z) : Z := if decide (n = U64_MAX) then 0%Z else (n + 1)%Z.

(** ** Decimal numbers *)

Definition is_digit (c : ascii) : bool := bool_decide (48 ≤ byte_val c ≤ 57)%Z.

Lemma pretty_N_go_digits x s :
  string_forall is_digit s = true → string_forall is_digit (pretty_N_go x s) = true.
Proof.
  revert s. induction (N.lt_wf_0 x) as [x _ IH]; intros s Hs.
  assert (x = 0 ∨ 0 < x)%N as [->|Hx] by lia; [done|].
  rw pretty_N_go_step //. apply IH; [by apply N.div_lt|]. simpl. rw Hs andb_true_r.
  unfold pretty_N_char. by repeat case_match.
Qed.

Lemma pretty_nat_digits (n : nat) : string_forall is_digit (pretty n) = true.
Proof.
  unfold pretty, pretty_nat, pretty, pretty_N. case_decide; [done|]. by apply pretty_N_go_digits.
Qed.

(** The value of a string of digits read after the number [a]. *)
Fixpoint dec_value (a : N) (s : string) : N :=
  match s with
  | "" => a
  | String c s => dec_value (a * 10 + (N_of_ascii c - 48))%N s
  end.

Lemma pretty_N_go_value x s : dec_value 0 (pretty_N_go x s) = dec_value x s.
Proof.
  revert s. induction (N.lt_wf_0 x) as [x _ IH]; intros s.
  assert (x = 0 ∨ 0 < x)%N as [->|Hx] by lia; [done|].
  rw pretty_N_go_step // IH; [|by apply N.div_lt]. simpl. f_equal.
  assert (N_of_ascii (pretty_N_char (x `mod` 10)) - 48 = x `mod` 10)%N as ->.
  { pose proof (N.mod_lt x 10 ltac:(done)). unfold pretty_N_char.
    repeat case_match; try done; simpl; lia. }
  pose proof (N.div_mod x 10 ltac:(done)). lia.
Qed.

Lemma pretty_Z_value (z : Z) : (0 ≤ z)%Z → dec_value 0 (pretty z) = Z.to_N z.
Proof.
  intros Hz. destruct z as [|p|p]; [done| |lia].
  change (dec_value 0 (pretty_N_go (Npos p) "") = Npos p). by rw pretty_N_go_value.
Qed.

Lemma dec_value_zeros n s :
  dec_value 0 (string_take n "00000000" +:+ s) = dec_value 0 s.
Proof. do 9 (destruct n as [|n]; [done|]). done. Qed.

Lemma zeros_rev n : string_rev (string_take n "00000000") = string_take n "00000000".
Proof. by do 9 (destruct n as [|n]; [done|]). Qed.

Lemma pad8_inj a b : (0 ≤ a)%Z → (0 ≤ b)%Z → pad8 a = pad8 b → a = b.
Proof.
  intros Ha Hb. unfold pad8. rw !zeros_rev. intros E%(f_equal (dec_value 0)).
  rw !dec_value_zeros !pretty_Z_value // in E. lia.
Qed.

(** ** The encoding is injective *)

Lemma digits_colon_inj a b x y :
  string_forall is_digit a = true → string_forall is_digit b = true →
  a +:+ String ":" x = b +:+ String ":" y → a = b ∧ x = y.
Proof.
  revert b. induction a as [|c a IH]; intros [|d b] Ha Hb H; rw ?string_app_cons in H.
  - naive_solver.
  - injection H as <- _. by simpl in Hb.
  - injection H as -> _. by simpl in Ha.
  - injection H as -> H. simpl in Ha, Hb. apply andb_prop in Ha as [_ Ha], Hb as [_ Hb].
    destruct (IH b Ha Hb H) as [-> ->]. done.
Qed.

Lemma length_prefixed_cons field rest :
  length_prefixed (field :: rest)
  = pretty (String.length field) +:+ String ":" (field +:+ length_prefixed rest).
Proof. reflexivity. Qed.

Lemma length_prefixed_empty fields : length_prefixed fields = "" → fields = [].
Proof.
  destruct fields as [|f fields]; [done|]. rw length_prefixed_cons. intros H%(f_equal String.length).
  rw string_length_app /= in H. lia.
Qed.

(** No two lists of fields share an encoding. *)
Lemma length_prefixed_inj a b : length_prefixed a = length_prefixed b → a = b.
Proof.
  revert b. induction a as [|f a IH]; intros [|g b] H; [done|..].
  - symmetry in H. by apply length_prefixed_empty in H.
  - by apply length_prefixed_empty in H.
  - rw !length_prefixed_cons in H.
    apply digits_colon_inj in H as [Hn H]; [|apply pretty_nat_digits..].
    apply (inj pretty) in Hn. apply string_app_inj_len in H as [-> H]; [|done].
    f_equal. by apply IH.
Qed.

Section digests.
Context {SH : Sha256}.

(** The message under a digest. *)
Definition digest_message (domain : string) (fields : list string) : string :=
  length_prefixed (domain :: fields).

Lemma domain_digest_inj d d' f f' :
  no_collision (digest_message d f) (digest_message d' f') →
  domain_digest d f = domain_digest d' f' → d = d' ∧ f = f'.
Proof.
  intros Hnc H. unfold domain_digest, sha256_hex in H. apply string_app_inj_l in H.
  apply (f_equal unhex) in H. rw !unhex_hex in H. injection H as H.
  apply Hnc, length_prefixed_inj in H. by injection H as -> ->.
Qed.

End digests.
