(* ===== verification/HelpCorpus.v ===== *)
(** * The Help corpus

    [grokptah-help-contract/src/corpus.rs]: the records of the corpus, their
    digests, the builder, the verifier and the filters. *)

From S2P Require Import Prelude Text Chars Ids Result HelpDigest.
From stdpp Require Import pretty.
From Stdlib Require Import Ascii.

Definition SCHEMA_VERSION : string := "grokptah.help-canonical.v1".
Definition CONTENT_VERSION : string := "help-canonical-2026.08.1".
Definition CHUNK_MAX_CHARS : nat := 480.

(** ** Records *)

Inductive Visibility := Public | Gated | Operator.

Definition rank (v : Visibility) : nat :=
  match v with Public => 0 | Gated => 1 | Operator => 2 end.

Definition visibility_as_str (v : Visibility) : string :=
  match v with Public => "public" | Gated => "gated" | Operator => "operator" end.

Record SourceAnchor := MkSourceAnchor {
  sa_id : string;
  sa_path : string;
  sa_heading : string;
  sa_visibility : Visibility;
  sa_digest : string
}.

Inductive ChunkKind := Title | Summary | Body.

Definition chunk_kind_as_str (k : ChunkKind) : string :=
  match k with Title => "title" | Summary => "summary" | Body => "body" end.

Record Chunk := MkChunk {
  ck_id : string;
  ck_article_id : string;
  ck_kind : ChunkKind;
  ck_ordinal : nat;
  ck_text : string;
  ck_locale : string;
  ck_source_ids : list string;
  ck_visibility : Visibility;
  ck_digest : string
}.

Inductive Topic := GettingStarted | Providers | ComputerUse | Operations.

Definition topic_as_str (t : Topic) : string :=
  match t with
  | GettingStarted => "getting-started"
  | Providers => "providers"
  | ComputerUse => "computer-use"
  | Operations => "operations"
  end.

Record Article := MkArticle {
  art_id : string;
  art_title : string;
  art_topic : Topic;
  art_summary : string;
  art_body : string;
  art_aliases : list string;
  art_keywords : list string;
  art_source_ids : list string;
  art_visibility : Visibility;
  art_capability_ids : list string;
  art_digest : string
}.

Record Corpus := MkCorpus {
  co_schema_version : string;
  co_content_version : string;
  co_sources : list SourceAnchor;
  co_articles : list Article;
  co_chunks : list Chunk;
  co_digest : string;
  co_source_digest : string
}.

Record SourceSeed := MkSourceSeed {
  ss_id : string;
  ss_path : string;
  ss_heading : string;
  ss_visibility : Visibility
}.

Record ArticleSeed := MkArticleSeed {
  as_id : string;
  as_title : string;
  as_topic : Topic;
  as_summary : string;
  as_body : string;
  as_aliases : list string;
  as_keywords : list string;
  as_source_ids : list string;
  as_visibility : Visibility;
  as_capability_ids : list string
}.

Inductive CorpusError :=
  | UnknownSource (article source : string)
  | EmptySources (article : string)
  | EmptyChunkSources (chunk : string)
  | UnknownChunkSource (chunk source : string)
  | ChunkSourceVisibilityMismatch (chunk source : string)
  | ChunkSourcesMismatch (chunk article : string)
  | DuplicateId (id : string)
  | DigestMismatch (record expected actual : string)
  | VisibilityInversion (article source : string)
  | UnknownArticle (chunk article : string)
  | ChunkVisibilityMismatch (chunk article : string) (chunk_visibility article_visibility : Visibility)
  | SchemaVersion (found : string).

Inductive SourceAnchorError :=
  | UnsafePath (source path : string)
  | Unreadable (source path error : string)
  | MissingHeading (source path heading : string).

#[export] Instance Visibility_eq_dec : EqDecision Visibility.
Proof. solve_decision. Defined.
#[export] Instance ChunkKind_eq_dec : EqDecision ChunkKind.
Proof. solve_decision. Defined.
#[export] Instance Topic_eq_dec : EqDecision Topic.
Proof. solve_decision. Defined.
#[export] Instance SourceAnchor_eq_dec : EqDecision SourceAnchor.
Proof. solve_decision. Defined.
#[export] Instance Chunk_eq_dec : EqDecision Chunk.
Proof. solve_decision. Defined.
#[export] Instance Article_eq_dec : EqDecision Article.
Proof. solve_decision. Defined.
#[export] Instance Corpus_eq_dec : EqDecision Corpus.
Proof. solve_decision. Defined.

(** [Display] of the errors. *)
Definition corpus_error_display (e : CorpusError) : string :=
  match e with
  | UnknownSource article source =>
      "article `" +:+ article +:+ "` cites unknown source `" +:+ source +:+ "`"
  | EmptySources article => "article `" +:+ article +:+ "` cites no source"
  | EmptyChunkSources chunk => "chunk `" +:+ chunk +:+ "` cites no source"
  | UnknownChunkSource chunk source =>
      "chunk `" +:+ chunk +:+ "` cites unknown source `" +:+ source +:+ "`"
  | ChunkSourceVisibilityMismatch chunk source =>
      "chunk `" +:+ chunk +:+ "` is less restricted than source `" +:+ source +:+ "`"
  | ChunkSourcesMismatch chunk article =>
      "chunk `" +:+ chunk +:+ "` does not preserve article `" +:+ article +:+ "`'s source set"
  | DuplicateId id => "duplicate id `" +:+ id +:+ "`"
  | DigestMismatch record expected actual =>
      "digest mismatch for `" +:+ record +:+ "`: expected " +:+ expected +:+ ", recomputed " +:+ actual
  | VisibilityInversion article source =>
      "article `" +:+ article +:+ "` is less restricted than the source `" +:+ source +:+ "` it cites"
  | UnknownArticle chunk article =>
      "chunk `" +:+ chunk +:+ "` names unknown article `" +:+ article +:+ "`"
  | ChunkVisibilityMismatch chunk article chunk_visibility article_visibility =>
      "chunk `" +:+ chunk +:+ "` is " +:+ visibility_as_str chunk_visibility +:+ " but its article `"
      +:+ article +:+ "` is " +:+ visibility_as_str article_visibility
  | SchemaVersion found => "unsupported corpus schema version `" +:+ found +:+ "`"
  end.

Definition source_anchor_error_display (e : SourceAnchorError) : string :=
  match e with
  | UnsafePath source path =>
      "source `" +:+ source +:+ "` has unsafe repository path `" +:+ path +:+ "`"
  | Unreadable source path error =>
      "source `" +:+ source +:+ "` cannot read `" +:+ path +:+ "`: " +:+ error
  | MissingHeading source path heading =>
      "source `" +:+ source +:+ "` cannot find heading `" +:+ heading +:+ "` in `" +:+ path +:+ "`"
  end.

(** ** Digests *)

Definition push_region (fields : list string) (label count : string) (items : list string) : list string :=
  fields ++ [label; count] ++ items.

(** [len().to_string()]. *)
Definition count_of {A} (l : list A) : string := pretty (length l).

Section digests.
Context {SH : Sha256}.

Definition article_digest_of (id title topic summary body visibility : string)
    (aliases keywords capability_ids source_digests : list string) : string :=
  let fields := [id; title; topic; summary; body; visibility] in
  let fields := push_region fields "aliases" (count_of aliases) aliases in
  let fields := push_region fields "keywords" (count_of keywords) keywords in
  let fields := push_region fields "capabilities" (count_of capability_ids) capability_ids in
  let fields := push_region fields "sources" (count_of source_digests) source_digests in
  domain_digest domain.ARTICLE fields.

Definition corpus_digest_of (schema_version content_version : string)
    (article_digests chunk_digests : list string) (source_digest : string) : string :=
  let fields := [schema_version; content_version] in
  let fields := push_region fields "articles" (count_of article_digests) article_digests in
  let fields := push_region fields "chunks" (count_of chunk_digests) chunk_digests in
  domain_digest domain.CORPUS (fields ++ ["sources"; source_digest]).

Definition source_set_digest_of (sources : list SourceAnchor) : string :=
  domain_digest domain.SOURCE_SET (["sources"; count_of sources] ++ (sa_digest <$> sources)).

Definition source_digest_of (seed_id path heading : string) (visibility : Visibility) : string :=
  domain_digest domain.SOURCE [seed_id; path; heading; visibility_as_str visibility].

(** The field list of a chunk, as [build] and [verify] both assemble it. *)
Definition chunk_digest_of (id article_id : string) (kind : ChunkKind) (ordinal : nat)
    (locale text : string) (visibility : Visibility) (source_ids : list string) : string :=
  domain_digest domain.CHUNK
    ([id; article_id; chunk_kind_as_str kind; pretty ordinal; locale; text;
      visibility_as_str visibility] ++ source_ids).

(** ** Splitting a body *)

Definition is_terminator (ch : string) : bool :=
  bool_decide (ch = ".") || bool_decide (ch = "!") || bool_decide (ch = "?").

(** [ending]: the current sentence has its terminator, and only the spaces that
    follow still belong to it. *)
Fixpoint split_sentences_from (ending : bool) (current : list string) (l : list string)
    : list string :=
  match l with
  | [] => match current with [] => [] | _ => [concat_str current] end
  | ch :: l =>
      if ending then
        if decide (ch = " ") then split_sentences_from true (current ++ [ch]) l
        else concat_str current :: split_sentences_from (is_terminator ch) [ch] l
      else split_sentences_from (is_terminator ch) (current ++ [ch]) l
  end.

Definition split_sentences (text : string) : list string :=
  split_sentences_from false [] (chars text).

Fixpoint split_body_from (current : string) (sentences : list string) : list string :=
  match sentences with
  | [] => if decide (trim current = "") then [] else [trim current]
  | sentence :: sentences =>
      if decide (current ≠ "" ∧ (CHUNK_MAX_CHARS < char_count current + char_count sentence)%nat)
      then trim current :: split_body_from sentence sentences
      else split_body_from (current +:+ sentence) sentences
  end.

Definition split_body (text : string) : list string :=
  match split_body_from "" (split_sentences text) with
  | [] => [trim text]
  | chunks => chunks
  end.

(** ** Building *)

Definition by_id {A} (id : A → string) (left right : A) : comparison :=
  string_cmp (id left) (id right).

(** [if !seen.insert(id) { return Err(DuplicateId) }] over the ids in turn. *)
Fixpoint insert_ids (seen : gset string) (ids : list string) : CorpusError + gset string :=
  match ids with
  | [] => mret seen
  | id :: ids =>
      _ ← ensure (bool_decide (id ∉ seen)) (DuplicateId id);
      insert_ids ({[ id ]} ∪ seen) ids
  end.

Definition find_source (sources : list SourceAnchor) (id : string) : option SourceAnchor :=
  snd <$> list_find (λ s, sa_id s = id) sources.

Definition source_of_seed (seed : SourceSeed) : SourceAnchor :=
  {| sa_id := ss_id seed; sa_path := ss_path seed; sa_heading := ss_heading seed;
     sa_visibility := ss_visibility seed;
     sa_digest := source_digest_of (ss_id seed) (ss_path seed) (ss_heading seed) (ss_visibility seed) |}.

Definition cite (sources : list SourceAnchor) (article : string) (visibility : Visibility)
    (source_id : string) : CorpusError + SourceAnchor :=
  anchor ← ok_or (find_source sources source_id) (UnknownSource article source_id);
  _ ← ensure (bool_decide (rank (sa_visibility anchor) ≤ rank visibility)%nat)
        (VisibilityInversion article source_id);
  mret anchor.

Definition push_chunk (seed : ArticleSeed) (kind : ChunkKind) (ordinal : nat) (text : string) : Chunk :=
  let id := as_id seed +:+ "#" +:+ chunk_kind_as_str kind +:+ "." +:+ pretty ordinal in
  {| ck_id := id; ck_article_id := as_id seed; ck_kind := kind; ck_ordinal := ordinal;
     ck_text := text; ck_locale := "en"; ck_source_ids := as_source_ids seed;
     ck_visibility := as_visibility seed;
     ck_digest := chunk_digest_of id (as_id seed) kind ordinal "en" text (as_visibility seed)
                    (as_source_ids seed) |}.

Definition chunks_of_seed (seed : ArticleSeed) : list Chunk :=
  push_chunk seed Title 0 (as_title seed) :: push_chunk seed Summary 0 (as_summary seed)
  :: imap (push_chunk seed Body) (split_body (as_body seed)).

Definition article_of_seed (seed : ArticleSeed) (cited : list SourceAnchor) : Article :=
  {| art_id := as_id seed; art_title := as_title seed; art_topic := as_topic seed;
     art_summary := as_summary seed; art_body := as_body seed; art_aliases := as_aliases seed;
     art_keywords := as_keywords seed; art_source_ids := as_source_ids seed;
     art_visibility := as_visibility seed; art_capability_ids := as_capability_ids seed;
     art_digest := article_digest_of (as_id seed) (as_title seed) (topic_as_str (as_topic seed))
                     (as_summary seed) (as_body seed) (visibility_as_str (as_visibility seed))
                     (as_aliases seed) (as_keywords seed) (as_capability_ids seed)
                     (sa_digest <$> cited) |}.

(** The loop over the article seeds. *)
Fixpoint build_articles (sources : list SourceAnchor) (seen : gset string) (seeds : list ArticleSeed)
    : CorpusError + (gset string * list Article * list Chunk) :=
  match seeds with
  | [] => mret (seen, [], [])
  | seed :: seeds =>
      _ ← ensure (bool_decide (as_id seed ∉ seen)) (DuplicateId (as_id seed));
      _ ← ensure (bool_decide (as_source_ids seed ≠ [])) (EmptySources (as_id seed));
      cited ← collect (cite sources (as_id seed) (as_visibility seed)) (as_source_ids seed);
      '(seen, articles, chunks) ← build_articles sources ({[ as_id seed ]} ∪ seen) seeds;
      mret (seen, article_of_seed seed cited :: articles, chunks_of_seed seed ++ chunks)
  end.

Definition build (source_seeds : list SourceSeed) (article_seeds : list ArticleSeed)
    : CorpusError + Corpus :=
  let sources := sort_by (by_id sa_id) (source_of_seed <$> source_seeds) in
  seen ← insert_ids ∅ (sa_id <$> sources);
  '(seen, articles, chunks) ← build_articles sources seen article_seeds;
  let articles := sort_by (by_id art_id) articles in
  let chunks := sort_by (by_id ck_id) chunks in
  _ ← insert_ids seen (ck_id <$> chunks);
  let source_digest := source_set_digest_of sources in
  mret {| co_schema_version := SCHEMA_VERSION; co_content_version := CONTENT_VERSION;
          co_sources := sources; co_articles := articles; co_chunks := chunks;
          co_digest := corpus_digest_of SCHEMA_VERSION CONTENT_VERSION (art_digest <$> articles)
                         (ck_digest <$> chunks) source_digest;
          co_source_digest := source_digest |}.

(** ** Lookups *)

Definition chunk (c : Corpus) (id : string) : option Chunk :=
  snd <$> list_find (λ k, ck_id k = id) (co_chunks c).

Definition source (c : Corpus) (id : string) : option SourceAnchor :=
  find_source (co_sources c) id.

Definition article (c : Corpus) (id : string) : option Article :=
  snd <$> list_find (λ a, art_id a = id) (co_articles c).

(** ** Verification *)

Definition digests_agree (record expected actual : string) : CorpusError + unit :=
  ensure (bool_decide (actual = expected)) (DigestMismatch record expected actual).

Definition verify_source (s : SourceAnchor) : CorpusError + unit :=
  digests_agree ("source:" +:+ sa_id s) (sa_digest s)
    (source_digest_of (sa_id s) (sa_path s) (sa_heading s) (sa_visibility s)).

Definition verify_article (c : Corpus) (a : Article) : CorpusError + unit :=
  cited ← collect (cite (co_sources c) (art_id a) (art_visibility a)) (art_source_ids a);
  _ ← ensure (bool_decide (cited ≠ [])) (EmptySources (art_id a));
  digests_agree ("article:" +:+ art_id a) (art_digest a)
    (article_digest_of (art_id a) (art_title a) (topic_as_str (art_topic a)) (art_summary a)
       (art_body a) (visibility_as_str (art_visibility a)) (art_aliases a) (art_keywords a)
       (art_capability_ids a) (sa_digest <$> cited)).

Definition verify_chunk_source (c : Corpus) (k : Chunk) (source_id : string) : CorpusError + unit :=
  s ← ok_or (source c source_id) (UnknownChunkSource (ck_id k) source_id);
  ensure (bool_decide (rank (sa_visibility s) ≤ rank (ck_visibility k))%nat)
    (ChunkSourceVisibilityMismatch (ck_id k) source_id).

Definition verify_chunk (c : Corpus) (k : Chunk) : CorpusError + unit :=
  a ← ok_or (article c (ck_article_id k)) (UnknownArticle (ck_id k) (ck_article_id k));
  _ ← ensure (bool_decide (ck_visibility k = art_visibility a))
        (ChunkVisibilityMismatch (ck_id k) (art_id a) (ck_visibility k) (art_visibility a));
  _ ← ensure (bool_decide (ck_source_ids k ≠ [])) (EmptyChunkSources (ck_id k));
  _ ← each (verify_chunk_source c k) (ck_source_ids k);
  _ ← ensure (bool_decide (ck_source_ids k = art_source_ids a)) (ChunkSourcesMismatch (ck_id k) (art_id a));
  digests_agree ("chunk:" +:+ ck_id k) (ck_digest k)
    (chunk_digest_of (ck_id k) (ck_article_id k) (ck_kind k) (ck_ordinal k) (ck_locale k)
       (ck_text k) (ck_visibility k) (ck_source_ids k)).

Definition record_ids (c : Corpus) : list string :=
  (sa_id <$> co_sources c) ++ (art_id <$> co_articles c) ++ (ck_id <$> co_chunks c).

Definition set_digest (c : Corpus) : string :=
  corpus_digest_of (co_schema_version c) (co_content_version c) (art_digest <$> co_articles c)
    (ck_digest <$> co_chunks c) (co_source_digest c).

Definition verify (c : Corpus) : CorpusError + unit :=
  _ ← ensure (bool_decide (co_schema_version c = SCHEMA_VERSION)) (SchemaVersion (co_schema_version c));
  _ ← insert_ids ∅ (record_ids c);
  _ ← each verify_source (co_sources c);
  _ ← digests_agree "source-set" (co_source_digest c) (source_set_digest_of (co_sources c));
  _ ← each (verify_article c) (co_articles c);
  _ ← each (verify_chunk c) (co_chunks c);
  digests_agree "corpus" (co_digest c) (set_digest c).

(** ** Filtering *)

Definition rebind_set_digests (c : Corpus) : Corpus :=
  let source_digest := source_set_digest_of (co_sources c) in
  {| co_schema_version := co_schema_version c; co_content_version := co_content_version c;
     co_sources := co_sources c; co_articles := co_articles c; co_chunks := co_chunks c;
     co_digest := corpus_digest_of (co_schema_version c) (co_content_version c)
                    (art_digest <$> co_articles c) (ck_digest <$> co_chunks c) source_digest;
     co_source_digest := source_digest |}.

(** A [BTreeMap] collected from pairs: the last binding of a key is kept. *)
Definition btree_collect {V} (l : list (string * V)) : gmap string V := list_to_map (reverse l).

Definition bundle_at (c : Corpus) (visibility : Visibility) : Corpus :=
  let keep candidate := bool_decide (rank candidate ≤ rank visibility)%nat in
  let sources := filter (λ s, keep (sa_visibility s) = true) (co_sources c) in
  let retained_sources : gset string := list_to_set (sa_id <$> sources) in
  let articles := filter (λ a,
    keep (art_visibility a) && bool_decide (art_source_ids a ≠ [])
    && forallb (λ id, bool_decide (id ∈ retained_sources)) (art_source_ids a) = true) (co_articles c) in
  let retained := btree_collect ((λ a, (art_id a, art_source_ids a)) <$> articles) in
  let chunks := filter (λ k,
    keep (ck_visibility k) && bool_decide (ck_source_ids k ≠ [])
    && bool_decide (retained !! ck_article_id k = Some (ck_source_ids k))
    && forallb (λ id, bool_decide (id ∈ retained_sources)) (ck_source_ids k) = true) (co_chunks c) in
  rebind_set_digests
    {| co_schema_version := co_schema_version c; co_content_version := co_content_version c;
       co_sources := sources; co_articles := articles; co_chunks := chunks;
       co_digest := ""; co_source_digest := "" |}.

(** ** Source anchors *)

Fixpoint count_hashes (s : string) : nat :=
  match s with String "#" s => S (count_hashes s) | _ => 0 end.

(** [trim_end_matches('#')]. *)
Definition trim_end_hashes (s : string) : string :=
  string_rev (strip_all (String.length s) ["#"] (string_rev s)).

Definition markdown_heading (line : string) : option string :=
  let trimmed := trim line in
  let hashes := count_hashes trimmed in
  if decide (1 ≤ hashes ≤ 6)%nat then
    match string_drop hashes trimmed with
    | String " " rest => Some (trim_end (trim_end_hashes (trim rest)))
    | _ => None
    end
  else None.

Fixpoint split_slash (s : string) : list string :=
  match s with
  | "" => [""]
  | String "/" s => "" :: split_slash s
  | String c s =>
      match split_slash s with
      | [] => [String c ""]
      | w :: ws => String c w :: ws
      end
  end.

(** [Path::components] of a relative path: a first [.] is a component, later
    ones and empty pieces are not.  All components are [Normal] when none is
    [.] or [..]. *)
Definition components (path : string) : list string :=
  let pieces := split_slash path in
  match pieces with
  | "." :: rest => "." :: filter (λ w, w ≠ "" ∧ w ≠ ".") rest
  | _ => filter (λ w, w ≠ "" ∧ w ≠ ".") pieces
  end.

Definition is_unsafe_path (path : string) : bool :=
  starts_with "/" path || bool_decide ("." ∈ components path ∨ ".." ∈ components path).

(** [read] is [std::fs::read_to_string] under the repository root. *)
Definition verify_source_anchors (read : string → string + string) (c : Corpus)
    : SourceAnchorError + unit :=
  each (λ s,
    _ ← ensure (negb (is_unsafe_path (sa_path s))) (UnsafePath (sa_id s) (sa_path s));
    text ← map_err (Unreadable (sa_id s) (sa_path s)) (read (sa_path s));
    ensure (bool_decide (sa_heading s ∈ omap markdown_heading (lines text)))
      (MissingHeading (sa_id s) (sa_path s) (sa_heading s)))
    (co_sources c).

End digests.
