(* ===== verification/HelpCorpusFacts.v ===== *)
(** * Facts on the Help corpus

    The verifier as a predicate, corpora cut out of a verified one, and what the
    builder produces. *)

From S2P Require Import Prelude Text Chars Ids Result HelpDigest HelpCorpus.
From stdpp Require Import pretty.

(** ** Lookups by id *)

Lemma find_by_Some {A} (f : A → string) l id x :
  NoDup (f <$> l) → snd <$> list_find (λ y, f y = id) l = Some x ↔ x ∈ l ∧ f x = id.
Proof.
  intros Hnd. split.
  - intros ([i y] & Hf & ->)%fmap_Some. apply list_find_Some in Hf as (Hi & Hy & _).
    split; [by eapply list_elem_of_lookup_2|done].
  - intros [Hx Hid]. destruct (list_find (λ y, f y = id) l) as [[i y]|] eqn:Hf.
    + apply list_find_Some in Hf as (Hi & Hy & _). simpl. f_equal.
      apply list_elem_of_lookup in Hx as [j Hj].
      assert (i = j) as ->; [|congruence].
      apply (NoDup_lookup (f <$> l) i j id); [done|..]; rw list_lookup_fmap; [rw Hi /= Hy|rw Hj /= Hid]; done.
    + apply list_find_None in Hf. rw Forall_forall in Hf. by destruct (Hf x Hx).
Qed.

Lemma find_by_None {A} (f : A → string) l id :
  snd <$> list_find (λ y, f y = id) l = None ↔ id ∉ (f <$> l).
Proof.
  rw fmap_None list_find_None Forall_forall list_elem_of_fmap. naive_solver.
Qed.

Lemma collect_ext {E A B} (f g : A → E + B) l :
  (∀ x, x ∈ l → f x = g x) → collect f l = collect g l.
Proof.
  induction l as [|x l IH]; intros H; [done|]. cbn [collect].
  rw (H x); [|by left]. rw IH; [done|]. intros y Hy. apply H. by right.
Qed.

Lemma each_ext {E A} (f g : A → E + unit) l :
  (∀ x, x ∈ l → f x = g x) → each f l = each g l.
Proof.
  induction l as [|x l IH]; intros H; [done|]. cbn [each].
  rw (H x); [|by left]. rw IH; [done|]. intros y Hy. apply H. by right.
Qed.

Lemma insert_ids_inr seen ids seen' :
  insert_ids seen ids = inr seen' ↔
  NoDup ids ∧ (∀ id, id ∈ ids → id ∉ seen) ∧ seen' = list_to_set ids ∪ seen.
Proof.
  revert seen. induction ids as [|id ids IH]; intros seen; cbn [insert_ids].
  - split.
    + intros [= <-]. split_and!; [constructor|set_solver|set_solver].
    + intros (_ & _ & ->). unfold mret, result_ret. f_equal. set_solver.
  - rw result_bind_inr. setoid_rewrite result_ensure_inr. setoid_rewrite bool_decide_eq_true. split.
    + intros (_ & Hid & (Hnd & Hd & ->)%IH). split_and!; [|set_solver..].
      constructor; [|done]. intros Hin. specialize (Hd id Hin). set_solver.
    + intros ((Hn & Hnd)%NoDup_cons & Hd & ->). exists (). split; [set_solver|].
      apply IH. split_and!; [done| |set_solver].
      intros y Hy. assert (y ≠ id) by set_solver. assert (y ∉ seen) by set_solver. set_solver.
Qed.

Lemma filter_iff_in {A} (P Q : A → Prop) `{∀ x, Decision (P x), ∀ x, Decision (Q x)} (l : list A) :
  (∀ x, x ∈ l → P x ↔ Q x) → filter P l = filter Q l.
Proof.
  induction l as [|x l IH]; intros Hl; [done|].
  rw !filter_cons IH; [|intros y Hy; apply Hl; by right].
  pose proof (Hl x ltac:(by left)). repeat case_decide; tauto.
Qed.

Section corpus.
Context {SH : Sha256}.

(** ** The verifier *)

Definition source_ok (s : SourceAnchor) : Prop :=
  sa_digest s = source_digest_of (sa_id s) (sa_path s) (sa_heading s) (sa_visibility s).

Definition cites (sources : list SourceAnchor) (v : Visibility) (id : string) (s : SourceAnchor) : Prop :=
  find_source sources id = Some s ∧ (rank (sa_visibility s) ≤ rank v)%nat.

Definition article_ok (sources : list SourceAnchor) (a : Article) : Prop :=
  art_source_ids a ≠ [] ∧ ∃ cited,
    Forall2 (cites sources (art_visibility a)) (art_source_ids a) cited ∧
    art_digest a =
      article_digest_of (art_id a) (art_title a) (topic_as_str (art_topic a)) (art_summary a)
        (art_body a) (visibility_as_str (art_visibility a)) (art_aliases a) (art_keywords a)
        (art_capability_ids a) (sa_digest <$> cited).

Definition chunk_ok (c : Corpus) (k : Chunk) : Prop :=
  ∃ a, article c (ck_article_id k) = Some a ∧ ck_visibility k = art_visibility a ∧
    ck_source_ids k ≠ [] ∧ ck_source_ids k = art_source_ids a ∧
    (∀ id, id ∈ ck_source_ids k → ∃ s, cites (co_sources c) (ck_visibility k) id s) ∧
    ck_digest k = chunk_digest_of (ck_id k) (ck_article_id k) (ck_kind k) (ck_ordinal k)
                    (ck_locale k) (ck_text k) (ck_visibility k) (ck_source_ids k).

(** What [verify] accepts. *)
Record corpus_ok (c : Corpus) : Prop := {
  ok_schema : co_schema_version c = SCHEMA_VERSION;
  ok_ids : NoDup (record_ids c);
  ok_sources : ∀ s, s ∈ co_sources c → source_ok s;
  ok_source_set : co_source_digest c = source_set_digest_of (co_sources c);
  ok_articles : ∀ a, a ∈ co_articles c → article_ok (co_sources c) a;
  ok_chunks : ∀ k, k ∈ co_chunks c → chunk_ok c k;
  ok_digest : co_digest c = set_digest c
}.

Lemma digests_agree_inr record expected actual u :
  digests_agree record expected actual = inr u ↔ expected = actual.
Proof. unfold digests_agree. rw result_ensure_inr bool_decide_eq_true. naive_solver. Qed.

Lemma cite_inr sources article v id s :
  cite sources article v id = inr s ↔ cites sources v id s.
Proof.
  unfold cite, cites. result_binds. setoid_rewrite result_ok_or_inr.
  setoid_rewrite result_ensure_inr. setoid_rewrite bool_decide_eq_true. unfold mret, result_ret. split.
  - intros (a & Ha & _ & Hr & [= ->]). done.
  - intros [Ha Hr]. exists s. split; [done|]. by exists ().
Qed.

Lemma verify_article_inr c a u : verify_article c a = inr u ↔ article_ok (co_sources c) a.
Proof.
  unfold verify_article, article_ok. result_binds.
  setoid_rewrite collect_inr. setoid_rewrite digests_agree_inr. setoid_rewrite result_ensure_inr.
  setoid_rewrite bool_decide_eq_true. split.
  - intros (cited & Hc & _ & Hn & Hd). split.
    + intros Hnil. rw Hnil in Hc. by apply Forall2_nil_inv_l in Hc.
    + exists cited. split; [|done]. eapply Forall2_impl; [done|]. intros x y H. by apply cite_inr in H.
  - intros (Hn & cited & Hc & Hd). exists cited. split_and!.
    + eapply Forall2_impl; [done|]. intros x y H. by apply cite_inr.
    + exists (). split; [|done]. intros ->. by apply Forall2_nil_inv_r in Hc.
Qed.

Lemma verify_chunk_inr c k u : verify_chunk c k = inr u ↔ chunk_ok c k.
Proof.
  unfold verify_chunk, chunk_ok. result_binds.
  setoid_rewrite digests_agree_inr. setoid_rewrite result_ok_or_inr. setoid_rewrite result_ensure_inr.
  setoid_rewrite bool_decide_eq_true. setoid_rewrite result_each_inr.
  assert (∀ id, verify_chunk_source c k id = inr () ↔ ∃ s, cites (co_sources c) (ck_visibility k) id s)
    as Hs.
  { intros id. unfold verify_chunk_source, cites, source. rw result_bind_inr.
    setoid_rewrite result_ok_or_inr. setoid_rewrite result_ensure_inr. by setoid_rewrite bool_decide_eq_true. }
  setoid_rewrite Hs. split.
  - intros (a & Ha & [] & Hv & [] & Hne & [] & Hc & [] & Hi & Hd). exists a. split_and!; try done.
  - intros (a & Ha & Hv & Hne & Hi & Hc & Hd). exists a. split; [done|].
    exists (). split; [done|]. exists (). split; [done|]. exists (). split; [done|]. by exists ().
Qed.

Lemma verify_inr c u : verify c = inr u ↔ corpus_ok c.
Proof.
  unfold verify. result_binds.
  setoid_rewrite digests_agree_inr. setoid_rewrite result_ensure_inr. setoid_rewrite bool_decide_eq_true.
  setoid_rewrite insert_ids_inr. setoid_rewrite result_each_inr. setoid_rewrite verify_article_inr.
  setoid_rewrite verify_chunk_inr. split.
  - intros ([] & H1 & seen & (H2 & _ & _) & [] & H3 & [] & H4 & [] & H5 & [] & H6 & H7). split; try done.
    intros s Hs. specialize (H3 s Hs). by apply digests_agree_inr in H3.
  - intros [H1 H2 H3 H4 H5 H6 H7]. exists (). split; [done|]. eexists. split; [split_and!; [done|set_solver|done]|].
    exists (). split. { intros s Hs. by apply digests_agree_inr, H3. }
    exists (). split; [done|]. exists (). split; [done|]. by exists ().
Qed.

(** ** Lookups in a corpus with distinct ids *)

Lemma record_ids_nodup c :
  NoDup (record_ids c) →
  NoDup (sa_id <$> co_sources c) ∧ NoDup (art_id <$> co_articles c) ∧ NoDup (ck_id <$> co_chunks c).
Proof. unfold record_ids. rw !NoDup_app. naive_solver. Qed.

Lemma source_Some c id s :
  NoDup (record_ids c) → source c id = Some s ↔ s ∈ co_sources c ∧ sa_id s = id.
Proof. intros (H & _ & _)%record_ids_nodup. unfold source, find_source. by apply find_by_Some. Qed.

Lemma article_Some c id a :
  NoDup (record_ids c) → article c id = Some a ↔ a ∈ co_articles c ∧ art_id a = id.
Proof. intros (_ & H & _)%record_ids_nodup. by apply find_by_Some. Qed.

Lemma chunk_Some c id k :
  NoDup (record_ids c) → chunk c id = Some k ↔ k ∈ co_chunks c ∧ ck_id k = id.
Proof. intros (_ & _ & H)%record_ids_nodup. by apply find_by_Some. Qed.

Lemma cites_spec c v id s :
  NoDup (record_ids c) →
  cites (co_sources c) v id s ↔
  s ∈ co_sources c ∧ sa_id s = id ∧ (rank (sa_visibility s) ≤ rank v)%nat.
Proof.
  intros Hnd. unfold cites. change (find_source (co_sources c) id) with (source c id).
  rw (source_Some c id s Hnd). naive_solver.
Qed.

(** A verified article's sources are in the corpus and no more restricted. *)
Lemma article_source c a id :
  corpus_ok c → a ∈ co_articles c → id ∈ art_source_ids a →
  ∃ s, s ∈ co_sources c ∧ sa_id s = id ∧ (rank (sa_visibility s) ≤ rank (art_visibility a))%nat.
Proof.
  intros Hc Ha Hid. destruct (ok_articles c Hc a Ha) as (_ & cited & Hf & _).
  apply list_elem_of_lookup in Hid as [i Hi].
  destruct (Forall2_lookup_l _ _ _ _ _ Hf Hi) as (s & _ & Hs). exists s.
  by apply cites_spec in Hs; [|apply ok_ids].
Qed.

Lemma article_by_id c a b :
  corpus_ok c → a ∈ co_articles c → b ∈ co_articles c → art_id a = art_id b → a = b.
Proof.
  intros Hc Ha Hb E. assert (article c (art_id a) = Some a) as H1 by (apply article_Some; [apply Hc|done]).
  assert (article c (art_id a) = Some b) as H2 by (apply article_Some; [apply Hc|by rw E]). congruence.
Qed.

Lemma source_by_id c s t :
  corpus_ok c → s ∈ co_sources c → t ∈ co_sources c → sa_id s = sa_id t → s = t.
Proof.
  intros Hc Ha Hb E. assert (source c (sa_id s) = Some s) as H1 by (apply source_Some; [apply Hc|done]).
  assert (source c (sa_id s) = Some t) as H2 by (apply source_Some; [apply Hc|by rw E]). congruence.
Qed.

Lemma chunk_by_id c k l :
  corpus_ok c → k ∈ co_chunks c → l ∈ co_chunks c → ck_id k = ck_id l → k = l.
Proof.
  intros Hc Ha Hb E. assert (chunk c (ck_id k) = Some k) as H1 by (apply chunk_Some; [apply Hc|done]).
  assert (chunk c (ck_id k) = Some l) as H2 by (apply chunk_Some; [apply Hc|by rw E]). congruence.
Qed.

(** A verified chunk has an article, with its visibility and its sources. *)
Lemma chunk_article c k :
  corpus_ok c → k ∈ co_chunks c →
  ∃ a, a ∈ co_articles c ∧ art_id a = ck_article_id k ∧ ck_visibility k = art_visibility a ∧
    ck_source_ids k = art_source_ids a.
Proof.
  intros Hc Hk. destruct (ok_chunks c Hc k Hk) as (a & Ha & Hv & _ & Hs & _).
  apply article_Some in Ha as [Ha Hid]; [|apply Hc]. by exists a.
Qed.

(** ** Cutting a verified corpus down *)

Definition cut (c : Corpus) (S : list SourceAnchor) (A : list Article) (K : list Chunk) : Corpus :=
  rebind_set_digests
    {| co_schema_version := co_schema_version c; co_content_version := co_content_version c;
       co_sources := S; co_articles := A; co_chunks := K; co_digest := ""; co_source_digest := "" |}.

Lemma cut_ok c S A K :
  corpus_ok c → sublist S (co_sources c) → sublist A (co_articles c) → sublist K (co_chunks c) →
  (∀ a s, a ∈ A → s ∈ co_sources c → sa_id s ∈ art_source_ids a → s ∈ S) →
  (∀ k a, k ∈ K → a ∈ co_articles c → art_id a = ck_article_id k → a ∈ A) →
  corpus_ok (cut c S A K).
Proof.
  intros Hc HS HA HK Hsrc Hart.
  assert (NoDup (record_ids (cut c S A K))) as Hnd.
  { eapply sublist_NoDup; [apply (ok_ids _ Hc)|]. unfold record_ids.
    repeat apply sublist_app; by apply fmap_sublist. }
  assert (∀ a id s, a ∈ A → id ∈ art_source_ids a →
            cites (co_sources c) (art_visibility a) id s → cites S (art_visibility a) id s) as Hcite.
  { intros a id s Ha Hid Hs. apply cites_spec in Hs as (Hs & Hsid & Hr); [|apply Hc].
    apply (cites_spec (cut c S A K)); [done|]. split; [|done]. apply (Hsrc a); [done..|by rw Hsid]. }
  split; [apply Hc|done| |done| | |done].
  - intros s Hs. apply (ok_sources _ Hc). by eapply elem_of_sublist.
  - intros a Ha. destruct (ok_articles _ Hc a) as (Hne & cited & Hf & Hd); [by eapply elem_of_sublist|].
    split; [done|]. exists cited. split; [|done]. apply Forall2_same_length_lookup in Hf as [Hl Hf].
    apply Forall2_same_length_lookup. split; [done|]. intros i id s Hi Hs.
    apply Hcite; [done|by eapply list_elem_of_lookup_2|by eapply Hf].
  - intros k Hk. assert (k ∈ co_chunks c) as Hkc by (by eapply elem_of_sublist).
    destruct (ok_chunks _ Hc k Hkc) as (a & Ha & Hv & Hne & Hsids & Hcs & Hd).
    apply article_Some in Ha as [Ha Hid]; [|apply Hc].
    assert (a ∈ A) as HaA by (by eapply Hart). exists a. split_and!; try done.
    + by apply article_Some.
    + intros id Hin. destruct (Hcs id Hin) as [s Hs]. exists s. rw Hv in Hs |- *.
      apply (Hcite a); [done|by rw -Hsids|done].
Qed.

(** ** The published bundle *)

Lemma btree_collect_Some {V} (l : list (string * V)) k v :
  NoDup l.*1 → btree_collect l !! k = Some v ↔ (k, v) ∈ l.
Proof.
  intros Hnd. unfold btree_collect. rw -elem_of_list_to_map.
  - by rw elem_of_reverse.
  - rw fmap_reverse. by rw reverse_Permutation.
Qed.

Definition within (v w : Visibility) : Prop := (rank w ≤ rank v)%nat.

#[export] Instance within_dec v w : Decision (within v w).
Proof. unfold within. apply _. Defined.

Lemma forallb_in {A} (l : list A) (P : A → Prop) `{∀ x, Decision (P x)} :
  forallb (λ x, bool_decide (P x)) l = true ↔ ∀ x, x ∈ l → P x.
Proof.
  rw forallb_forall. setoid_rewrite bool_decide_eq_true. setoid_rewrite list_elem_of_In. done.
Qed.

(** On a verified corpus the bundle is exactly the records within [v]. *)
Lemma bundle_at_cut c v :
  corpus_ok c →
  bundle_at c v =
    cut c (filter (λ s, within v (sa_visibility s)) (co_sources c))
          (filter (λ a, within v (art_visibility a)) (co_articles c))
          (filter (λ k, within v (ck_visibility k)) (co_chunks c)).
Proof.
  intros Hc. unfold bundle_at, cut. f_equal.
  assert (∀ w, bool_decide (rank w ≤ rank v)%nat = true ↔ within v w) as Hw
    by (intros w; by rw bool_decide_eq_true).
  match goal with |- {| co_sources := ?S |} = _ =>
    assert (S = filter (λ s, within v (sa_visibility s)) (co_sources c)) as -> end.
  { apply list_filter_iff. intros s. apply Hw. }
  set (S := filter _ (co_sources c)).
  assert (∀ a, a ∈ co_articles c → within v (art_visibility a) →
            ∀ id, id ∈ art_source_ids a → id ∈ (list_to_set (sa_id <$> S) : gset string)) as Hret.
  { intros a Ha Hwa id Hid. destruct (article_source c a id Hc Ha Hid) as (s & Hs & <- & Hr).
    apply elem_of_list_to_set, list_elem_of_fmap. exists s. split; [done|].
    apply list_elem_of_filter. split; [unfold within in *; lia|done]. }
  match goal with |- {| co_articles := ?A |} = _ =>
    assert (A = filter (λ a, within v (art_visibility a)) (co_articles c)) as -> end.
  { apply filter_iff_in. intros a Ha. rw !andb_true_iff forallb_in Hw bool_decide_eq_true.
    split; [naive_solver|]. intros H. split; [split; [done|apply (ok_articles _ Hc a Ha)]|]. by apply Hret. }
  f_equal. apply filter_iff_in. intros k Hk.
  rw !andb_true_iff forallb_in Hw !bool_decide_eq_true. split; [naive_solver|]. intros Hwk.
  destruct (chunk_article c k Hc Hk) as (a & Ha & Hid & Hv & Hs). rw Hs.
  split; [split; [split; [done|apply (ok_articles _ Hc a Ha)]|]|by apply (Hret a); [|rw -Hv]].
  apply btree_collect_Some.
  - rw -list_fmap_compose. destruct (record_ids_nodup c (ok_ids c Hc)) as (_ & Hnd & _).
    eapply sublist_NoDup; [exact Hnd|]. apply (fmap_sublist art_id), sublist_filter.
  - apply list_elem_of_fmap. exists a. rw Hid. split; [done|].
    apply list_elem_of_filter. by rw -Hv.
Qed.

Lemma bundle_at_ok c v : corpus_ok c → corpus_ok (bundle_at c v).
Proof.
  intros Hc. rw bundle_at_cut //. apply cut_ok; [done|apply sublist_filter..| |].
  - intros a s (Hw & Ha)%list_elem_of_filter Hs Hin. apply list_elem_of_filter. split; [|done].
    destruct (article_source c a _ Hc Ha Hin) as (t & Ht & E & Hr).
    rw (source_by_id c s t) //. unfold within in *. lia.
  - intros k a (Hw & Hk)%list_elem_of_filter Ha E. apply list_elem_of_filter. split; [|done].
    destruct (chunk_article c k Hc Hk) as (b & Hb & Hid & Hv & _).
    rw (article_by_id c a b) //; [by rw -Hv|congruence].
Qed.

(** ** The builder *)

Definition chunk_of (a : Article) (k : Chunk) : Prop :=
  ck_article_id k = art_id a ∧ ck_visibility k = art_visibility a ∧
  ck_source_ids k = art_source_ids a ∧
  ck_digest k = chunk_digest_of (ck_id k) (ck_article_id k) (ck_kind k) (ck_ordinal k)
                  (ck_locale k) (ck_text k) (ck_visibility k) (ck_source_ids k).

Lemma chunks_of_seed_of seed cited k :
  k ∈ chunks_of_seed seed → chunk_of (article_of_seed seed cited) k.
Proof.
  unfold chunks_of_seed. rw !elem_of_cons. intros [->|[->|Hk]]; [done..|].
  apply elem_of_lookup_imap in Hk as (i & text & -> & _). done.
Qed.

Lemma build_articles_spec sources seen seeds seen' A K :
  build_articles sources seen seeds = inr (seen', A, K) →
  NoDup (art_id <$> A) ∧ (∀ a, a ∈ A → art_id a ∉ seen) ∧
  seen' = list_to_set (art_id <$> A) ∪ seen ∧
  (∀ a, a ∈ A → article_ok sources a) ∧ (∀ k, k ∈ K → ∃ a, a ∈ A ∧ chunk_of a k).
Proof.
  revert seen seen' A K. induction seeds as [|seed seeds IH]; intros seen seen' A K; cbn [build_articles].
  { intros [= <- <- <-]. split_and!; [constructor|set_solver..]. }
  result_binds. setoid_rewrite result_ensure_inr. setoid_rewrite bool_decide_eq_true. setoid_rewrite collect_inr.
  intros (_ & Hid & _ & Hne & cited & Hc & [[seen1 A1] K1] & Hrec & [= -> <- <-]).
  apply IH in Hrec as (Hnd & Hfresh & -> & Hok & Hk).
  assert (article_ok sources (article_of_seed seed cited)) as Hs.
  { split; [done|]. exists cited. split; [|done]. eapply Forall2_impl; [exact Hc|].
    intros x y H. by apply cite_inr in H. }
  split_and!.
  - apply NoDup_cons. split; [|done]. rw list_elem_of_fmap. intros (a & E & Ha).
    specialize (Hfresh a Ha). rw -E in Hfresh. set_solver.
  - intros a [->|Ha]%elem_of_cons; [done|]. specialize (Hfresh a Ha). set_solver.
  - rw fmap_cons list_to_set_cons. simpl. set_solver.
  - intros a [->|Ha]%elem_of_cons; auto.
  - intros k Hin. change (k ∈ chunks_of_seed seed ++ K1) in Hin. apply elem_of_app in Hin as [Hin|Hin].
    + exists (article_of_seed seed cited). split; [by left|]. by apply chunks_of_seed_of.
    + destruct (Hk k Hin) as (a & Ha & Hka). exists a. split; [by right|done].
Qed.

Lemma build_ok source_seeds article_seeds c :
  build source_seeds article_seeds = inr c → corpus_ok c.
Proof.
  unfold build. result_binds. intros (seen1 & Hseen & [[seen2 A] K] & Hb & H).
  apply result_bind_inr in H as (seen3 & Hs3 & [= <-]).
  set (S := sort_by (by_id sa_id) _) in *.
  apply insert_ids_inr in Hseen as (HndS & _ & ->). apply build_articles_spec in Hb as (HndA & Hfr & -> & HA & HK).
  apply insert_ids_inr in Hs3 as (HndK & HfrK & _).
  set (A' := sort_by _ A). set (K' := sort_by _ K) in *.
  assert (∀ a, a ∈ A' ↔ a ∈ A) as HAA by (intros a; unfold A'; by rw sort_by_perm).
  assert (∀ k, k ∈ K' ↔ k ∈ K) as HKK by (intros k; unfold K'; by rw sort_by_perm).
  assert (art_id <$> A' ≡ₚ art_id <$> A) as Hp by (unfold A'; by rw sort_by_perm).
  assert (NoDup (art_id <$> A')) as HndA' by (by rw Hp).
  match goal with |- corpus_ok ?c => assert (NoDup (record_ids c)) as Hnd end.
  { unfold record_ids. cbn [co_sources co_articles co_chunks]. rw !NoDup_app. split_and!; try done.
    - intros id Hid. rw elem_of_app. intros [Ha|Hk].
      + apply list_elem_of_fmap in Ha as (a & -> & Ha%HAA). apply (Hfr a Ha). set_solver.
      + apply (HfrK id Hk). set_solver.
    - intros id Hid Hk. apply (HfrK id Hk). rw Hp in Hid. set_solver. }
  split; cbn [co_sources co_articles co_chunks]; [done|done| |done| | |done].
  - intros s Hs. unfold S in Hs. rw sort_by_perm list_elem_of_fmap in Hs. by destruct Hs as (seed & -> & _).
  - intros a Ha. apply HA. by apply HAA.
  - intros k Hk. apply HKK in Hk. destruct (HK k Hk) as (a & Ha & Hid & Hv & Hs & Hd).
    assert (article_ok S a) as (Hne & cited & Hf & _) by (by apply HA).
    exists a. split_and!; [|done|by rw Hs|done| |done].
    + apply article_Some; [done|]. cbn [co_articles]. by rw HAA.
    + intros id Hin. rw Hs in Hin. apply list_elem_of_lookup in Hin as [i Hi].
      destruct (Forall2_lookup_l _ _ _ _ _ Hf Hi) as (s & _ & Hc). exists s. by rw Hv.
Qed.

(** ** Sentences *)

Lemma split_sentences_from_concat ending current l :
  concat_str (split_sentences_from ending current l) = concat_str current +:+ concat_str l.
Proof.
  revert ending current. induction l as [|ch l IH]; intros ending current; cbn [split_sentences_from].
  - destruct current; [done|]. by rw concat_str_one string_app_nil_r.
  - assert (concat_str (current ++ [ch]) +:+ concat_str l = concat_str current +:+ concat_str (ch :: l)) as Hpush.
    { rw concat_str_app concat_str_one string_app_assoc. done. }
    destruct ending; [case_decide|]; [by rw IH| |by rw IH].
    change (concat_str current +:+ concat_str (split_sentences_from (is_terminator ch) [ch] l) =
            concat_str current +:+ concat_str (ch :: l)).
    by rw IH concat_str_one.
Qed.

(** Concatenating the sentences reproduces the text. *)
Lemma split_sentences_concat text : concat_str (split_sentences text) = text.
Proof. unfold split_sentences. by rw split_sentences_from_concat concat_chars. Qed.

End corpus.
