(* ===== verification/HelpDto.v ===== *)
(** * The Help contract

    [grokptah-help-contract/src/dto.rs]: identities, manifests, grants,
    admissions, requests, validated answers, denials, receipts and the views a
    renderer is handed, each with its digest. *)

From S2P Require Import Prelude Text Ids Result HelpDigest HelpCorpus.
From stdpp Require Import pretty.

(** ** Inbound vocabulary and identity *)

Record HelpAsk := MkHelpAsk {
  ask_session : string;
  ask_question : string;
  ask_locale : option string
}.

(** [HelpFollow] and [HelpCancelRequest] have the same fields. *)
Record HelpHandle := MkHelpHandle {
  hh_session : string;
  hh_handle : string
}.

Inductive PrincipalKind := KAnonymous | KMember | KOperator.

Record Principal := MkPrincipal {
  pr_principal_id : string;
  pr_tenant_id : string;
  pr_session_id : string;
  pr_kind : PrincipalKind;
  pr_capabilities : list string;
  pr_visibility_ceiling : Visibility
}.

(** ** Manifest *)

Record ManifestEntry := MkManifestEntry {
  me_article_id : string;
  me_article_digest : string;
  me_chunk_ids : list string;
  me_source_ids : list string;
  me_visibility : Visibility
}.

Record Manifest := MkManifest {
  mf_revision : Z;
  mf_corpus_digest : string;
  mf_source_digest : string;
  mf_entries : list ManifestEntry;
  mf_digest : string
}.

(** One entry as the digest flattens it. *)
Definition flatten_entry (entry : ManifestEntry) : string :=
  me_article_id entry +:+ NUL +:+ me_article_digest entry +:+ NUL
  +:+ String.concat "," (me_chunk_ids entry) +:+ NUL
  +:+ String.concat "," (me_source_ids entry) +:+ NUL
  +:+ visibility_as_str (me_visibility entry).

Definition allows_chunk (m : Manifest) (chunk_id : string) : bool :=
  existsb (λ entry, existsb (λ id, bool_decide (id = chunk_id)) (me_chunk_ids entry)) (mf_entries m).

Definition allows_source (m : Manifest) (source_id : string) : bool :=
  existsb (λ entry, existsb (λ id, bool_decide (id = source_id)) (me_source_ids entry)) (mf_entries m).

(** ** Grant, admission, request *)

Record Grant := MkGrant {
  gr_grant_id : string;
  gr_principal_id : string;
  gr_tenant_id : string;
  gr_session_id : string;
  gr_corpus_digest : string;
  gr_manifest_digest : string;
  gr_manifest_revision : Z;
  gr_visibility_ceiling : Visibility;
  gr_capabilities : list string;
  gr_issued_at_ms : Z;
  gr_expires_at_ms : Z;
  gr_digest : string
}.

Record Admission := MkAdmission {
  ad_admission_id : string;
  ad_grant_id : string;
  ad_grant_digest : string;
  ad_request_digest : string;
  ad_admitted_at_ms : Z;
  ad_deadline_ms : Z;
  ad_digest : string
}.

Record ContextChunk := MkContextChunk {
  cc_chunk_id : string;
  cc_chunk_digest : string;
  cc_source_ids : list string;
  cc_text : string
}.

Record HelpRequest := MkHelpRequest {
  rq_request_id : string;
  rq_corpus_digest : string;
  rq_manifest_revision : Z;
  rq_question : string;
  rq_locale : string;
  rq_context : list ContextChunk;
  rq_instruction : string;
  rq_digest : string
}.

#[export] Instance PrincipalKind_eq_dec : EqDecision PrincipalKind.
Proof. solve_decision. Defined.
#[export] Instance ManifestEntry_eq_dec : EqDecision ManifestEntry.
Proof. solve_decision. Defined.
#[export] Instance ContextChunk_eq_dec : EqDecision ContextChunk.
Proof. solve_decision. Defined.
#[export] Instance HelpRequest_eq_dec : EqDecision HelpRequest.
Proof. solve_decision. Defined.

Section digests.
Context {SH : Sha256}.

Definition manifest_digest (revision : Z) (corpus_digest source_digest : string)
    (entries : list ManifestEntry) : string :=
  domain_digest domain.MANIFEST
    ([pretty revision; corpus_digest; source_digest] ++ (flatten_entry <$> entries)).

Definition grant_digest (grant_id principal_id tenant_id session_id corpus_digest manifest_digest : string)
    (manifest_revision : Z) (visibility_ceiling : Visibility) (capabilities : list string)
    (issued_at_ms expires_at_ms : Z) : string :=
  domain_digest domain.GRANT
    ([grant_id; principal_id; tenant_id; session_id; corpus_digest; manifest_digest;
      pretty manifest_revision; visibility_as_str visibility_ceiling;
      pretty issued_at_ms; pretty expires_at_ms] ++ capabilities).

Definition admission_digest (admission_id grant_id grant_digest request_digest : string)
    (admitted_at_ms deadline_ms : Z) : string :=
  domain_digest domain.ADMISSION
    [admission_id; grant_id; grant_digest; request_digest; pretty admitted_at_ms; pretty deadline_ms].

Definition context_fields (k : ContextChunk) : list string :=
  [cc_chunk_id k; cc_chunk_digest k; cc_text k; "sources"; count_of (cc_source_ids k)]
  ++ cc_source_ids k.

Definition request_fields (request_id corpus_digest : string) (manifest_revision : Z)
    (question locale : string) (context : list ContextChunk) (instruction : string) : list string :=
  [request_id; corpus_digest; pretty manifest_revision; question; locale; instruction;
   "context"; count_of context] ++ (context ≫= context_fields).

Definition request_digest (request_id corpus_digest : string) (manifest_revision : Z)
    (question locale : string) (context : list ContextChunk) (instruction : string) : string :=
  domain_digest domain.REQUEST
    (request_fields request_id corpus_digest manifest_revision question locale context instruction).

End digests.

(** ** Validated answers *)

Record CitationSpan := MkCitationSpan {
  sp_chunk_id : string;
  sp_chunk_digest : string;
  sp_source_id : string;
  sp_source_digest : string;
  sp_start : nat;
  sp_end : nat
}.

Record Claim := MkClaim {
  cl_ordinal : nat;
  cl_text : string;
  cl_spans : list CitationSpan
}.

Inductive RedactionKind := Secret | Path | Control | Bidi | Markup.

Definition redaction_kind_as_str (k : RedactionKind) : string :=
  match k with
  | Secret => "secret" | Path => "path" | Control => "control" | Bidi => "bidi" | Markup => "markup"
  end.

Record ValidatedAnswer := MkValidatedAnswer {
  va_request_id : string;
  va_corpus_digest : string;
  va_claims : list Claim;
  va_redactions : list RedactionKind;
  va_abstained : bool
}.

(** ** Denial *)

Inductive DenyReason :=
  | StaleRevision | Expired | Revoked | SourceDrift | CrossTenantReplay | SubstitutedRequest
  | UnknownSession | MissingCapability | VisibilityCeiling | Saturated | DeadlineExceeded
  | UnknownHandle.

Definition deny_reason_as_str (r : DenyReason) : string :=
  match r with
  | StaleRevision => "stale_revision"
  | Expired => "expired"
  | Revoked => "revoked"
  | SourceDrift => "source_drift"
  | CrossTenantReplay => "cross_tenant_replay"
  | SubstitutedRequest => "substituted_request"
  | UnknownSession => "unknown_session"
  | MissingCapability => "missing_capability"
  | VisibilityCeiling => "visibility_ceiling"
  | Saturated => "saturated"
  | DeadlineExceeded => "deadline_exceeded"
  | UnknownHandle => "unknown_handle"
  end.

Inductive PublicErrorCode := NotAvailable | Busy | Timeout.

Definition public_error_as_str (c : PublicErrorCode) : string :=
  match c with NotAvailable => "not_available" | Busy => "busy" | Timeout => "timeout" end.

Definition public_error_message (c : PublicErrorCode) : string :=
  match c with
  | NotAvailable => "Help cannot answer that right now."
  | Busy => "Help is busy. Try again shortly."
  | Timeout => "Help took too long and stopped."
  end.

Definition deny_public_code (r : DenyReason) : PublicErrorCode :=
  match r with
  | StaleRevision | Expired | Revoked | SourceDrift | CrossTenantReplay | SubstitutedRequest
  | UnknownSession | MissingCapability | VisibilityCeiling | UnknownHandle => NotAvailable
  | Saturated => Busy
  | DeadlineExceeded => Timeout
  end.

(** ** Receipts *)

Inductive Outcome := OAnswered | OAbstained | ODenied | OCancelled | OAbandoned | OTimedOut.

Definition outcome_as_str (o : Outcome) : string :=
  match o with
  | OAnswered => "answered" | OAbstained => "abstained" | ODenied => "denied"
  | OCancelled => "cancelled" | OAbandoned => "abandoned" | OTimedOut => "timed_out"
  end.

Inductive SendCertainty := NotSent | Sent | Unknown.

Definition send_certainty_as_str (c : SendCertainty) : string :=
  match c with NotSent => "not_sent" | Sent => "sent" | Unknown => "unknown" end.

Record RedactionCount := MkRedactionCount {
  rc_kind : RedactionKind;
  rc_count : nat
}.

Record Receipt := MkReceipt {
  re_receipt_id : string;
  re_run_id : string;
  re_request_id : string;
  re_principal_id : string;
  re_tenant_id : string;
  re_session_id : string;
  re_corpus_digest : string;
  re_manifest_revision : Z;
  re_request_digest : string;
  re_outcome : Outcome;
  re_send_certainty : SendCertainty;
  re_deny_reason : option DenyReason;
  re_public_code : option PublicErrorCode;
  re_claim_count : nat;
  re_span_count : nat;
  re_redactions : list RedactionCount;
  re_started_at_ms : Z;
  re_finished_at_ms : Z;
  re_digest : string
}.

Definition receipt_digest `{Sha256} (receipt_id run_id request_id request_digest : string)
    (outcome : Outcome) (send_certainty : SendCertainty) (claim_count span_count : nat)
    (finished_at_ms : Z) : string :=
  domain_digest domain.RECEIPT
    [receipt_id; run_id; request_id; request_digest; outcome_as_str outcome;
     send_certainty_as_str send_certainty; pretty claim_count; pretty span_count; pretty finished_at_ms].

(** ** Projections *)

Record CitationProjection := MkCitationProjection {
  cp_source_id : string;
  cp_path : string;
  cp_heading : string;
  cp_quote : string
}.

Record ClaimProjection := MkClaimProjection {
  cj_ordinal : nat;
  cj_text : string;
  cj_citations : list CitationProjection
}.

Inductive ProjectionStatus := PQueued | PRunning | PAnswered | PAbstained | PUnavailable.

Definition projection_status_as_str (s : ProjectionStatus) : string :=
  match s with
  | PQueued => "queued" | PRunning => "running" | PAnswered => "answered"
  | PAbstained => "abstained" | PUnavailable => "unavailable"
  end.

Record HelpProjection := MkHelpProjection {
  hp_handle : string;
  hp_status : ProjectionStatus;
  hp_claims : list ClaimProjection;
  hp_error : option PublicErrorCode;
  hp_message : option string
}.

Record ReceiptProjection := MkReceiptProjection {
  rp_receipt_id : string;
  rp_run_id : string;
  rp_outcome : string;
  rp_send_certainty : string;
  rp_claim_count : nat;
  rp_span_count : nat;
  rp_redactions : list RedactionCount;
  rp_corpus_digest : string;
  rp_manifest_revision : Z;
  rp_started_at_ms : Z;
  rp_finished_at_ms : Z;
  rp_digest : string
}.

Definition receipt_projection (r : Receipt) : ReceiptProjection :=
  {| rp_receipt_id := re_receipt_id r; rp_run_id := re_run_id r;
     rp_outcome := outcome_as_str (re_outcome r);
     rp_send_certainty := send_certainty_as_str (re_send_certainty r);
     rp_claim_count := re_claim_count r; rp_span_count := re_span_count r;
     rp_redactions := re_redactions r; rp_corpus_digest := re_corpus_digest r;
     rp_manifest_revision := re_manifest_revision r; rp_started_at_ms := re_started_at_ms r;
     rp_finished_at_ms := re_finished_at_ms r; rp_digest := re_digest r |}.

Record BoundsProjection := MkBoundsProjection {
  bp_max_concurrency : nat;
  bp_max_queued : nat;
  bp_deadline_ms : Z;
  bp_single_request : bool;
  bp_tools_enabled : bool;
  bp_history_enabled : bool;
  bp_workspace_enabled : bool;
  bp_fallback_enabled : bool
}.

#[export] Instance CitationSpan_eq_dec : EqDecision CitationSpan.
Proof. solve_decision. Defined.
#[export] Instance RedactionKind_eq_dec : EqDecision RedactionKind.
Proof. solve_decision. Defined.
#[export] Instance DenyReason_eq_dec : EqDecision DenyReason.
Proof. solve_decision. Defined.
#[export] Instance SendCertainty_eq_dec : EqDecision SendCertainty.
Proof. solve_decision. Defined.
#[export] Instance ProjectionStatus_eq_dec : EqDecision ProjectionStatus.
Proof. solve_decision. Defined.
