(* ===== verification/HelpAuthorityFacts.v ===== *)
(** * Facts on the Help authority

    The part of the corpus a principal sees, stated without the manifest; the
    checks as predicates; the digests as bindings; and the authority as a
    transition system over its public methods. *)

From stdpp Require Import pretty.
From S2P Require Import Prelude Text Ids Chars Result HelpDigest HelpCorpus HelpCorpusFacts HelpDto HelpAuthority.

Section facts.
Context {SH : Sha256}.

(** ** What a principal sees *)

Definition visible_articles (h : Authority) (p : Principal) : list Article :=
  if decide (pr_principal_id p ∈ ha_revoked_principals h) then []
  else filter (entitled p) (co_articles (ha_corpus h)).

Definition visible_sources (h : Authority) (p : Principal) : list SourceAnchor :=
  filter (λ s, Exists (λ a, sa_id s ∈ art_source_ids a) (visible_articles h p))
    (co_sources (ha_corpus h)).

Definition visible_chunks (h : Authority) (p : Principal) : list Chunk :=
  filter (λ k, Exists (λ a, art_id a = ck_article_id k) (visible_articles h p))
    (co_chunks (ha_corpus h)).

Lemma elem_of_visible_articles h p a :
  a ∈ visible_articles h p ↔
  (pr_principal_id p ∉ ha_revoked_principals h) ∧ entitled p a ∧ a ∈ co_articles (ha_corpus h).
Proof.
  unfold visible_articles. case_decide; [|rw list_elem_of_filter; tauto].
  split; [by intros ?%elem_of_nil|tauto].
Qed.

Lemma elem_of_visible_sources h p s :
  s ∈ visible_sources h p ↔
  s ∈ co_sources (ha_corpus h) ∧ ∃ a, a ∈ visible_articles h p ∧ sa_id s ∈ art_source_ids a.
Proof. unfold visible_sources. rw list_elem_of_filter Exists_exists. tauto. Qed.

Lemma elem_of_visible_chunks h p k :
  k ∈ visible_chunks h p ↔
  k ∈ co_chunks (ha_corpus h) ∧ ∃ a, a ∈ visible_articles h p ∧ art_id a = ck_article_id k.
Proof. unfold visible_chunks. rw list_elem_of_filter Exists_exists. tauto. Qed.

Lemma manifest_entries h p :
  mf_entries (manifest_for h p) = manifest_entry (ha_corpus h) <$> visible_articles h p.
Proof. unfold manifest_for, visible_articles. cbn [mf_entries]. by repeat case_decide; case_bool_decide. Qed.

Lemma existsb_in {A} (f : A → bool) l : existsb f l = true ↔ ∃ x, x ∈ l ∧ f x = true.
Proof. rw existsb_exists. by setoid_rewrite list_elem_of_In. Qed.

Lemma allows_chunk_spec h p id :
  allows_chunk (manifest_for h p) id = true ↔ ∃ k, k ∈ visible_chunks h p ∧ ck_id k = id.
Proof.
  unfold allows_chunk. rw manifest_entries existsb_in. setoid_rewrite list_elem_of_fmap.
  setoid_rewrite existsb_in. setoid_rewrite bool_decide_eq_true. setoid_rewrite elem_of_visible_chunks. split.
  - intros (e & (a & -> & Ha) & x & Hx & ->). cbn [me_chunk_ids manifest_entry] in Hx.
    apply list_elem_of_fmap in Hx as (k & -> & (Hk & Hin)%list_elem_of_filter). exists k. naive_solver.
  - intros (k & (Hk & a & Ha & E) & <-). eexists. split; [by exists a|]. exists (ck_id k). split; [|done].
    apply list_elem_of_fmap. exists k. split; [done|]. by apply list_elem_of_filter.
Qed.

Lemma allows_source_spec h p id :
  allows_source (manifest_for h p) id = true ↔ ∃ a, a ∈ visible_articles h p ∧ id ∈ art_source_ids a.
Proof.
  unfold allows_source. rw manifest_entries existsb_in. setoid_rewrite list_elem_of_fmap.
  setoid_rewrite existsb_in. setoid_rewrite bool_decide_eq_true. split.
  - intros (e & (a & -> & Ha) & x & Hx & ->). by exists a.
  - intros (a & Ha & Hx). eexists. split; [by exists a|]. by exists id.
Qed.

(** Records a principal sees are within its ceiling. *)
Lemma visible_source_within h p s :
  corpus_ok (ha_corpus h) → s ∈ visible_sources h p → within (pr_visibility_ceiling p) (sa_visibility s).
Proof.
  intros Hc (Hs & a & (_ & [Hr _] & Ha)%elem_of_visible_articles & Hin)%elem_of_visible_sources.
  destruct (article_source _ a _ Hc Ha Hin) as (t & Ht & E & Hrt).
  rw (source_by_id _ s t Hc Hs Ht (eq_sym E)). unfold within. lia.
Qed.

Lemma visible_chunk_article h p k :
  corpus_ok (ha_corpus h) → k ∈ visible_chunks h p →
  ∃ a, a ∈ visible_articles h p ∧ art_id a = ck_article_id k ∧ ck_visibility k = art_visibility a ∧
    ck_source_ids k = art_source_ids a.
Proof.
  intros Hc (Hk & a & Ha & E)%elem_of_visible_chunks. exists a. split; [done|].
  pose proof Ha as (_ & _ & Hac)%elem_of_visible_articles.
  destruct (chunk_article _ k Hc Hk) as (b & Hb & Hid & Hv & Hs).
  assert (a = b) as -> by (apply (article_by_id (ha_corpus h)); try done; congruence). done.
Qed.

Lemma visible_chunk_within h p k :
  corpus_ok (ha_corpus h) → k ∈ visible_chunks h p → within (pr_visibility_ceiling p) (ck_visibility k).
Proof.
  intros Hc Hk. destruct (visible_chunk_article h p k Hc Hk) as (a & Ha & _ & -> & _).
  by apply elem_of_visible_articles in Ha as (_ & [? _] & _).
Qed.

(** On a verified corpus the filtered document is exactly the visible part. *)
Lemma visible_corpus_cut h p :
  corpus_ok (ha_corpus h) →
  visible_corpus h p = cut (ha_corpus h) (visible_sources h p) (visible_articles h p) (visible_chunks h p).
Proof.
  intros Hc. unfold visible_corpus, cut. rw manifest_entries.
  set (E := manifest_entry (ha_corpus h) <$> visible_articles h p).
  assert (∀ id, id ∈ (list_to_set (me_article_id <$> E) : gset string)
            ↔ ∃ a, a ∈ visible_articles h p ∧ art_id a = id) as Hal.
  { intros id. rw elem_of_list_to_set -list_fmap_compose list_elem_of_fmap. naive_solver. }
  assert (∀ id, id ∈ (list_to_set (E ≫= me_source_ids) : gset string)
            ↔ ∃ a, a ∈ visible_articles h p ∧ id ∈ art_source_ids a) as Hsrc.
  { intros id. rw elem_of_list_to_set list_elem_of_bind. unfold E. setoid_rewrite list_elem_of_fmap.
    split; [intros (e & Hin & a & -> & Ha)|intros (a & Ha & Hin); eexists; split; [|by exists a]]; eauto. }
  assert (∀ l, rebind_set_digests l = rebind_set_digests
            {| co_schema_version := co_schema_version l; co_content_version := co_content_version l;
               co_sources := co_sources l; co_articles := co_articles l; co_chunks := co_chunks l;
               co_digest := ""; co_source_digest := "" |}) as Hreb by done.
  rw Hreb. cbn [co_schema_version co_content_version co_sources co_articles co_chunks]. f_equal. f_equal.
  - unfold visible_sources. apply filter_iff_in. intros s Hs. rw andb_true_iff !bool_decide_eq_true Hsrc Exists_exists.
    split; [tauto|]. intros Hex. split; [done|]. apply (visible_source_within h p s Hc).
    by apply elem_of_visible_sources.
  - unfold visible_articles. case_decide as Hr.
    { apply elem_of_nil_inv. intros a ((b & Hb & _)%bool_decide_eq_true%Hal & _)%list_elem_of_filter.
      by apply elem_of_visible_articles in Hb as (? & _). }
    apply filter_iff_in. intros a Ha. rw bool_decide_eq_true Hal. split.
    + intros (b & Hb & Hid). pose proof Hb as (_ & Hent & Hbc)%elem_of_visible_articles.
      by rw -(article_by_id (ha_corpus h) b a Hc Hbc Ha Hid).
    + intros Hent. exists a. split; [|done]. by apply elem_of_visible_articles.
  - unfold visible_chunks. apply filter_iff_in. intros k Hk. rw !andb_true_iff forallb_in !bool_decide_eq_true Hal Exists_exists.
    split; [tauto|]. intros Hex.
    assert (k ∈ visible_chunks h p) as Hv by (by apply elem_of_visible_chunks).
    destruct (visible_chunk_article h p k Hc Hv) as (a & Ha & Hid & Hvis & Hs).
    pose proof Ha as (_ & _ & Hac)%elem_of_visible_articles.
    split_and!; [done|by apply (visible_chunk_within h p k)|rw Hs; apply (ok_articles _ Hc a Hac)| |].
    + apply btree_collect_Some.
      * rw -list_fmap_compose. unfold E. rw -list_fmap_compose.
        destruct (record_ids_nodup _ (ok_ids _ Hc)) as (_ & Hnd & _).
        eapply sublist_NoDup; [exact Hnd|]. apply (fmap_sublist art_id).
        unfold visible_articles. case_decide; [apply sublist_nil_l|apply sublist_filter].
      * unfold E. rw -list_fmap_compose list_elem_of_fmap. exists a. split; [|done]. simpl. by rw Hid Hs.
    + intros id Hin. apply Hsrc. exists a. by rw -Hs.
Qed.

Lemma visible_cut_ok h p :
  corpus_ok (ha_corpus h) →
  corpus_ok (cut (ha_corpus h) (visible_sources h p) (visible_articles h p) (visible_chunks h p)).
Proof.
  intros Hc. apply cut_ok; [done|apply sublist_filter| |apply sublist_filter|..].
  - unfold visible_articles. case_decide; [apply sublist_nil_l|apply sublist_filter].
  - intros a s Ha Hs Hin. apply elem_of_visible_sources. eauto.
  - intros k a Hk Ha E. destruct (visible_chunk_article h p k Hc Hk) as (b & Hb & Hid & _).
    pose proof Hb as (_ & _ & Hbc)%elem_of_visible_articles.
    by rw (article_by_id (ha_corpus h) a b Hc Ha Hbc (eq_trans E (eq_sym Hid))).
Qed.

(** ** The checks *)

Record grant_ok (h : Authority) (token : string) (g : Grant) (now : Z) (p : Principal) : Prop := {
  go_session : principal_for h token = Some p;
  go_tenant : pr_tenant_id p = gr_tenant_id g;
  go_session_id : pr_session_id p = gr_session_id g;
  go_principal : pr_principal_id p = gr_principal_id g;
  go_grant_live : gr_grant_id g ∉ ha_revoked_grants h;
  go_principal_live : gr_principal_id g ∉ ha_revoked_principals h;
  go_unexpired : (now < gr_expires_at_ms g)%Z;
  go_corpus : gr_corpus_digest g = co_digest (ha_corpus h);
  go_revision : gr_manifest_revision g = ha_revision h;
  go_manifest : gr_manifest_digest g = mf_digest (manifest_for h p);
  go_digest : gr_digest g = grant_digest_of g
}.

(** The request is intact, current, and carries visible chunks as they are. *)
Record request_ok (h : Authority) (p : Principal) (r : HelpRequest) : Prop := {
  ro_digest : rq_digest r = request_digest_of r;
  ro_corpus : rq_corpus_digest r = co_digest (ha_corpus h);
  ro_revision : rq_manifest_revision r = ha_revision h;
  ro_context : ∀ k, k ∈ rq_context r → ∃ ck, ck ∈ visible_chunks h p ∧ k = context_chunk ck
}.

Record admission_ok (g : Grant) (request : option HelpRequest) (now : Z) (a : Admission) : Prop := {
  ao_grant_id : ad_grant_id a = gr_grant_id g;
  ao_grant_digest : ad_grant_digest a = gr_digest g;
  ao_digest : ad_digest a = admission_digest_of a;
  ao_deadline : (now < ad_deadline_ms a)%Z;
  ao_request : ∀ r, request = Some r → ad_request_digest a = rq_digest r
}.

Lemma check_grant_inr h token g now m :
  check_grant h token g now = inr m ↔ ∃ p, m = manifest_for h p ∧ grant_ok h token g now p.
Proof.
  unfold check_grant. result_binds. setoid_rewrite result_ok_or_inr. setoid_rewrite result_ensure_inr.
  setoid_rewrite bool_decide_eq_true. split.
  - intros (p & H1 & _ & H2 & _ & [H3 H4] & _ & [H5 H6] & _ & H7 & _ & H8 & _ & H9 & _ & H10 & _ & H11 & [= <-]).
    exists p. by split.
  - intros (p & -> & [H1 H2 H3 H4 H5 H6 H7 H8 H9 H10 H11]). exists p. split; [done|].
    by repeat (exists (); split; [done|]).
Qed.

Lemma context_chunk_ok_iff h p k :
  corpus_ok (ha_corpus h) →
  check_context_chunk h (manifest_for h p) k = inr () ↔
  ∃ ck, ck ∈ visible_chunks h p ∧ k = context_chunk ck.
Proof.
  intros Hc. unfold check_context_chunk. result_binds. setoid_rewrite result_ok_or_inr.
  setoid_rewrite result_ensure_inr. setoid_rewrite result_each_inr. setoid_rewrite result_ensure_inr.
  setoid_rewrite bool_decide_eq_true. setoid_rewrite allows_source_spec. split.
  - intros (_ & (v & Hv & Hid)%allows_chunk_spec & ck & Hck & _ & (Hd & Ht & Hs) & _).
    exists v. split; [done|]. pose proof Hv as [Hvc _]%elem_of_visible_chunks.
    apply chunk_Some in Hck as [Hin Hcid]; [|apply Hc].
    assert (v = ck) as -> by (apply (chunk_by_id (ha_corpus h)); try done; congruence).
    destruct k. unfold context_chunk. simpl in *. congruence.
  - intros (ck & Hv & ->). pose proof Hv as [Hvc _]%elem_of_visible_chunks.
    exists (). split; [apply allows_chunk_spec; by exists ck|]. exists ck.
    split; [apply chunk_Some; [apply Hc|done]|]. exists (). split; [done|]. intros id Hin.
    destruct (visible_chunk_article h p ck Hc Hv) as (a & Ha & _ & _ & Hs). exists a. split; [done|].
    simpl in Hin. by rw -Hs.
Qed.

Lemma check_request_inr h p r u :
  corpus_ok (ha_corpus h) → check_request h (manifest_for h p) r = inr u ↔ request_ok h p r.
Proof.
  intros Hc. unfold check_request. result_binds. setoid_rewrite result_ensure_inr.
  setoid_rewrite bool_decide_eq_true. setoid_rewrite result_each_inr.
  setoid_rewrite (λ k, context_chunk_ok_iff h p k Hc). split.
  - intros (_ & H1 & _ & H2 & _ & H3 & H4). by split.
  - intros [H1 H2 H3 H4]. by repeat (exists (); split; [done|]).
Qed.

Lemma check_admission_inr g request now a u :
  check_admission g request now a = inr u ↔ admission_ok g request now a.
Proof.
  unfold check_admission. result_binds. setoid_rewrite result_ensure_inr. setoid_rewrite bool_decide_eq_true.
  assert (∀ v, match request with
               | Some r => ensure (bool_decide (ad_request_digest a = rq_digest r)) SubstitutedRequest
               | None => mret () end = inr v ↔ ∀ r, request = Some r → ad_request_digest a = rq_digest r) as Hr.
  { intros []. destruct request as [r|]; [|naive_solver]. rw result_ensure_inr bool_decide_eq_true. naive_solver. }
  setoid_rewrite Hr. split.
  - intros (_ & [H1 H2] & _ & H3 & _ & H4 & H5). by split.
  - intros [H1 H2 H3 H4 H5]. by repeat (exists (); split; [done|]).
Qed.

(** The check succeeds exactly when every condition holds of the current state;
    the checkpoint plays no part. *)
Lemma reauthorize_inr h cp token g admission request now u :
  corpus_ok (ha_corpus h) →
  reauthorize h cp token g admission request now = inr u ↔
  ∃ p, grant_ok h token g now p ∧ (∀ r, request = Some r → request_ok h p r) ∧
    (∀ a, admission = Some a → admission_ok g request now a).
Proof.
  intros Hc. destruct u. unfold reauthorize. split.
  - intros H. apply result_bind_inr in H as (m & (p & -> & Hg)%check_grant_inr & H).
    apply result_bind_inr in H as ([] & Hr & Ha). exists p. split_and!; [done|..].
    + intros r ->. by apply check_request_inr in Hr.
    + intros a ->. by apply check_admission_inr in Ha.
  - intros (p & Hg & Hr & Ha). apply result_bind_inr. exists (manifest_for h p).
    split; [apply check_grant_inr; by exists p|]. apply result_bind_inr. exists (). split.
    + destruct request; [|done]. apply check_request_inr; auto.
    + destruct admission; [|done]. apply check_admission_inr; auto.
Qed.

End facts.

(** * What the digests of the Help contract bind, and histories of an authority *)

(** ** Fields and counts *)

Lemma visibility_as_str_inj v w : visibility_as_str v = visibility_as_str w → v = w.
Proof. by destruct v, w. Qed.

Lemma count_of_inj {A B} (l : list A) (k : list B) : count_of l = count_of k → length l = length k.
Proof. apply (inj pretty). Qed.

(** A counted region can be read back: the count says where it ends. *)
Lemma counted_inj (l k : list string) x y :
  count_of l :: l ++ x = count_of k :: k ++ y → l = k ∧ x = y.
Proof. intros [= Hn H]. apply app_inj_1 in H; [done|by apply count_of_inj]. Qed.

Lemma context_fields_inj (c c' : list ContextChunk) :
  length c = length c' → c ≫= context_fields = c' ≫= context_fields → c = c'.
Proof.
  revert c'. induction c as [|k c IH]; intros [|k' c'] Hl H; try done.
  rw !bind_cons in H. unfold context_fields in H. destruct k as [i d ss t], k' as [i' d' ss' t'].
  cbn [cc_chunk_id cc_chunk_digest cc_text cc_source_ids] in H. rw /= in H.
  injection H as -> -> -> H1 H2.
  destruct (counted_inj ss ss' (c ≫= context_fields) (c' ≫= context_fields)) as [-> Hr]; [by f_equal|].
  f_equal. apply IH; [by injection Hl|done].
Qed.

Section bindings.
Context {SH : Sha256}.

Definition request_message (r : HelpRequest) : string :=
  digest_message domain.REQUEST
    (request_fields (rq_request_id r) (rq_corpus_digest r) (rq_manifest_revision r) (rq_question r)
       (rq_locale r) (rq_context r) (rq_instruction r)).

Definition grant_fields (g : Grant) : list string :=
  [gr_grant_id g; gr_principal_id g; gr_tenant_id g; gr_session_id g; gr_corpus_digest g;
   gr_manifest_digest g; pretty (gr_manifest_revision g); visibility_as_str (gr_visibility_ceiling g);
   pretty (gr_issued_at_ms g); pretty (gr_expires_at_ms g)] ++ gr_capabilities g.

Definition grant_message (g : Grant) : string := digest_message domain.GRANT (grant_fields g).

Lemma help_request_digest_binds r r' :
  no_collision (request_message r) (request_message r') →
  rq_digest r = request_digest_of r → rq_digest r' = request_digest_of r' →
  rq_digest r = rq_digest r' → r = r'.
Proof.
  intros Hnc Hd Hd' E. rw Hd Hd' in E. unfold request_digest_of in *. unfold request_digest in E.
  apply domain_digest_inj in E as [_ E]; [|done]. unfold request_fields in E.
  destruct r as [i cd rev q l cx ins d], r' as [i' cd' rev' q' l' cx' ins' d'].
  cbn [rq_request_id rq_corpus_digest rq_manifest_revision rq_question rq_locale rq_context
       rq_instruction rq_digest] in *. cbn [app] in E.
  injection E as -> -> Hrev -> -> -> Hn Hcx. apply (inj pretty) in Hrev as ->.
  apply count_of_inj in Hn. apply context_fields_inj in Hcx as ->; [|done]. f_equal. congruence.
Qed.

Lemma grant_digest_binds g g' :
  no_collision (grant_message g) (grant_message g') →
  gr_digest g = grant_digest_of g → gr_digest g' = grant_digest_of g' →
  gr_digest g = gr_digest g' → g = g'.
Proof.
  intros Hnc Hd Hd' E. rw Hd Hd' in E. unfold grant_digest_of in *. unfold grant_digest in E.
  apply domain_digest_inj in E as [_ E]; [|done].
  destruct g, g'. cbn in *. injection E as -> -> -> -> -> -> Hrev Hv Hi He ->.
  apply (inj pretty) in Hrev as ->, Hi as ->, He as ->. apply visibility_as_str_inj in Hv as ->.
  f_equal. congruence.
Qed.

(** ** Histories *)

(** One public method; [n] counts the changes of the revision. *)
Inductive hstep : nat → Authority → Authority → Prop :=
  | hs_register record h : hstep 0 h (register_session record h)
  | hs_replace c h h' : replace_corpus c h = inr h' → hstep 1 h h'
  | hs_revoke_grant id h : hstep 0 h (revoke_grant id h)
  | hs_revoke_principal id h : hstep 1 h (revoke_principal id h)
  | hs_issue p now ttl g h h' : issue_grant p now ttl h = (g, h') → hstep 0 h h'
  | hs_build p q l ids r h h' : build_request p q l ids h = inr (r, h') → hstep 0 h h'
  | hs_admit token g r now d a h h' : admit_request token g r now d h = inr (a, h') → hstep 0 h h'.

Inductive hsteps : nat → Authority → Authority → Prop :=
  | hss_refl h : hsteps 0 h h
  | hss_step n m h h' h'' : hsteps n h h' → hstep m h' h'' → hsteps (n + m) h h''.

Lemma replace_corpus_inr c h h' :
  replace_corpus c h = inr h' →
  corpus_ok c ∧
  h' = MkAuthority c (u64_succ (ha_revision h)) (ha_sessions h) (ha_revoked_grants h)
         (ha_revoked_principals h) (ha_next_id h).
Proof.
  intros H. apply result_bind_inr in H as (u & Hv & [= <-]).
  by apply map_err_inr, verify_inr in Hv.
Qed.

Lemma build_request_inr p q l ids h r h' :
  build_request p q l ids h = inr (r, h') →
  h' = set_next_id (u64_succ (ha_next_id h)) h ∧ rq_context r = request_context h p ids ∧
  rq_context r ≠ [] ∧ rq_corpus_digest r = co_digest (ha_corpus h) ∧
  rq_manifest_revision r = ha_revision h ∧ rq_digest r = request_digest_of r.
Proof.
  unfold build_request. intros H. apply result_bind_inr in H as (u & Hv & H).
  apply result_ensure_inr, bool_decide_eq_true in Hv. unfold mint_id in H. by injection H as <- <-.
Qed.

Lemma admit_request_inr token g r now d h a h' :
  admit_request token g r now d h = inr (a, h') →
  reauthorize h CAdmission token g None (Some r) now = inr () ∧
  h' = set_next_id (u64_succ (ha_next_id h)) h ∧ ad_grant_id a = gr_grant_id g ∧
  ad_grant_digest a = gr_digest g ∧ ad_request_digest a = rq_digest r ∧
  ad_deadline_ms a = d ∧ ad_digest a = admission_digest_of a.
Proof.
  unfold admit_request. intros H. apply result_bind_inr in H as ([] & Hv & H).
  unfold mint_id in H. by injection H as <- <-.
Qed.

(** What a step keeps. *)
Lemma hstep_frame n h h' :
  hstep n h h' →
  ha_revoked_grants h ⊆ ha_revoked_grants h' ∧ ha_revoked_principals h ⊆ ha_revoked_principals h' ∧
  ha_revision h' = Nat.iter n u64_succ (ha_revision h) ∧
  (corpus_ok (ha_corpus h) → corpus_ok (ha_corpus h')).
Proof.
  destruct 1 as [| c h h' H | | | p now ttl g h h' H | p q l ids r h h' H | token g r now d a h h' H].
  - done.
  - apply replace_corpus_inr in H as [Hc ->]. done.
  - simpl. split_and!; [set_solver|done..].
  - simpl. split_and!; [done|set_solver|done..].
  - unfold issue_grant, mint_id in H. by injection H as <- <-.
  - apply build_request_inr in H as (-> & _). done.
  - apply admit_request_inr in H as (_ & -> & _). done.
Qed.

Lemma hsteps_frame n h h' :
  hsteps n h h' →
  ha_revoked_grants h ⊆ ha_revoked_grants h' ∧ ha_revoked_principals h ⊆ ha_revoked_principals h' ∧
  ha_revision h' = Nat.iter n u64_succ (ha_revision h) ∧
  (corpus_ok (ha_corpus h) → corpus_ok (ha_corpus h')).
Proof.
  induction 1 as [h|n m h h' h'' _ (H1 & H2 & H3 & H4) Hs]; [done|].
  apply hstep_frame in Hs as (K1 & K2 & K3 & K4). split_and!; [set_solver..| |auto].
  rw K3 H3 Nat.add_comm. by rw Nat.iter_add.
Qed.

(** Fewer than [2^64] increments never return to the start. *)
Lemma u64_succ_iter n r :
  is_u64 r → Nat.iter n u64_succ r = ((r + Z.of_nat n) mod (U64_MAX + 1))%Z.
Proof.
  unfold is_u64. intros Hr. induction n as [|n IH].
  - simpl. rw Z.mod_small; lia.
  - change (Nat.iter (S n) u64_succ r) with (u64_succ (Nat.iter n u64_succ r)). rw IH. unfold u64_succ.
    pose proof (Z.mod_pos_bound (r + Z.of_nat n) (U64_MAX + 1) ltac:(done)) as Hb.
    replace (r + Z.of_nat (S n))%Z with (r + Z.of_nat n + 1)%Z by lia.
    rw -(Z.add_mod_idemp_l (r + Z.of_nat n) 1); [|done].
    case_decide as Hm.
    + rw Hm. by rw Z.mod_same.
    + symmetry. apply Z.mod_small. lia.
Qed.

Lemma u64_succ_iter_ne n r :
  is_u64 r → (0 < n)%nat → (Z.of_nat n ≤ U64_MAX)%Z → Nat.iter n u64_succ r ≠ r.
Proof.
  intros Hr Hn Hb E. rw u64_succ_iter // in E. unfold is_u64 in Hr.
  assert ((r + Z.of_nat n) mod (U64_MAX + 1) = r mod (U64_MAX + 1))%Z as Em by (rw E Z.mod_small; lia).
  destruct (decide (r + Z.of_nat n ≤ U64_MAX)%Z).
  - rw Z.mod_small in E; lia.
  - assert (r + Z.of_nat n = (r + Z.of_nat n - (U64_MAX + 1)) + 1 * (U64_MAX + 1))%Z as Hs by lia.
    rw Hs Z.mod_add // Z.mod_small in E; lia.
Qed.

End bindings.
