(* ===== verification/HelpAuthorityProps.v ===== *)
(** * What the Help authority guarantees

    Over every history of one authority: adopted with a corpus that verifies,
    then any sequence of its public methods. *)

From S2P Require Import Prelude Text Chars Ids Result HelpDigest HelpCorpus HelpCorpusFacts HelpDto.
From S2P Require Import HelpAuthority HelpAuthorityFacts.
From stdpp Require Import pretty.

Section props.
Context {SH : Sha256}.

(** [h] is an authority after some history, with [n] changes of revision. *)
Definition serves (h : Authority) : Prop :=
  ∃ c h0 n, authority_new c = inr h0 ∧ hsteps n h0 h.

Lemma authority_new_inr c h :
  authority_new c = inr h → corpus_ok c ∧ h = MkAuthority c 1 ∅ ∅ ∅ 1.
Proof.
  intros H. apply result_bind_inr in H as (u & Hv & [= <-]). by apply map_err_inr, verify_inr in Hv.
Qed.

Lemma serves_corpus h : serves h → corpus_ok (ha_corpus h).
Proof.
  intros (c & h0 & n & [Hc ->]%authority_new_inr & Hs). apply hsteps_frame in Hs as (_ & _ & _ & H). auto.
Qed.

Lemma serves_step n h h' : serves h → hstep n h h' → serves h'.
Proof. intros (c & h0 & m & H0 & Hs) Hst. exists c, h0, (m + n)%nat. split; [done|]. by eapply hss_step. Qed.

(** The corpus the builder returns passes the verifier: its ids are
    distinct, every digest is the digest of the record, no article cites a
    source more restricted than itself, and every chunk repeats the visibility
    and the sources of its article. *)
Theorem build_verifies source_seeds article_seeds c :
  build source_seeds article_seeds = inr c → verify c = inr ().
Proof. intros H%build_ok. by apply verify_inr. Qed.

(** C9: what crosses to a renderer is exactly what its principal is entitled
    to.  In every reachable authority the filtered document consists of the
    articles within the ceiling whose capabilities the principal holds (none if
    the principal is revoked), the chunks of those articles and the sources
    they cite, in order; everything in it is within the ceiling; and it passes
    the verifier under its own, recomputed digest. *)
Theorem visible_corpus_exact h p :
  serves h →
  let c := ha_corpus h in
  let v := visible_corpus h p in
  verify v = inr () ∧
  co_articles v = visible_articles h p ∧ co_chunks v = visible_chunks h p ∧
  co_sources v = visible_sources h p ∧
  (∀ a, a ∈ co_articles v ↔
     a ∈ co_articles c ∧ (pr_principal_id p ∉ ha_revoked_principals h) ∧
     within (pr_visibility_ceiling p) (art_visibility a) ∧
     (∀ id, id ∈ art_capability_ids a → id ∈ pr_capabilities p)) ∧
  (∀ k, k ∈ co_chunks v → within (pr_visibility_ceiling p) (ck_visibility k)) ∧
  (∀ s, s ∈ co_sources v → within (pr_visibility_ceiling p) (sa_visibility s)).
Proof.
  intros Hc%serves_corpus. cbv zeta. rw (visible_corpus_cut h p Hc).
  cbn [cut rebind_set_digests co_articles co_chunks co_sources]. split_and!; try done.
  - by apply verify_inr, visible_cut_ok.
  - intros a. rw elem_of_visible_articles. unfold entitled, within. rw Forall_forall.
    setoid_rewrite elem_of_list_to_set. tauto.
  - intros k. by apply visible_chunk_within.
  - intros s. by apply visible_source_within.
Qed.

(** The check at a checkpoint accepts exactly when, in the current state,
    the token names a session of the grant's tenant, session and principal, the
    grant and the principal are not revoked, the grant has not expired, it was
    issued for this corpus, this revision and this principal's present manifest,
    its digest is intact, the request (if any) is intact, current and carries
    only chunks the principal sees with their exact text and sources, and the
    admission (if any) is intact, in time, and names this grant and this
    request.  The checkpoint makes no difference. *)
Theorem reauthorize_exact h checkpoint token g admission request now :
  serves h →
  reauthorize h checkpoint token g admission request now = inr () ↔
  ∃ p, grant_ok h token g now p ∧ (∀ r, request = Some r → request_ok h p r) ∧
    (∀ a, admission = Some a → admission_ok g request now a).
Proof. intros Hc%serves_corpus. by apply reauthorize_inr. Qed.

Lemma request_context_visible h p ids k :
  corpus_ok (ha_corpus h) → k ∈ request_context h p ids →
  ∃ ck, ck ∈ visible_chunks h p ∧ k = context_chunk ck.
Proof.
  intros Hc (id & _ & H)%list_elem_of_omap. destruct (allows_chunk _ _) eqn:Ha; [|done].
  apply fmap_Some in H as (ck & [Hin Hid]%(chunk_Some _ _ _ (ok_ids _ Hc)) & ->).
  apply allows_chunk_spec in Ha as (v & Hv & Hvid). exists v. split; [done|].
  pose proof Hv as [Hvc _]%elem_of_visible_chunks.
  rw (chunk_by_id (ha_corpus h) ck v) //. congruence.
Qed.

(** An ask made the way the host makes it is admitted.  A request built
    for the principal of a session, with a grant issued to it next and not
    expired or revoked, passes the admission check, and the admission it gets
    names that grant and that request until its deadline. *)
Theorem ask_admitted h token p question locale ids r h1 now ttl g h2 deadline :
  serves h → principal_for h token = Some p →
  build_request p question locale ids h = inr (r, h1) →
  issue_grant p now ttl h1 = (g, h2) →
  (now < saturating_add now ttl)%Z → gr_grant_id g ∉ ha_revoked_grants h →
  ∃ a h3, admit_request token g r now deadline h2 = inr (a, h3) ∧
    (∀ t, (t < deadline)%Z → admission_ok g (Some r) t a) ∧ serves h3.
Proof.
  intros Hs Hp Hb Hi Hnow Hlive. pose proof (serves_corpus h Hs) as Hc.
  pose proof (serves_step _ _ _ Hs (hs_build _ _ _ _ _ _ _ Hb)) as Hs1.
  pose proof (serves_step _ _ _ Hs1 (hs_issue _ _ _ _ _ _ Hi)) as Hs2.
  apply build_request_inr in Hb as (-> & Hctx & Hne & Hcd & Hrev & Hd).
  unfold issue_grant, mint_id in Hi. injection Hi as Hg <-.
  assert (∀ k, k ∈ rq_context r → ∃ ck, ck ∈ visible_chunks h p ∧ k = context_chunk ck) as Hvis
    by (rw Hctx; intros k; by apply request_context_visible).
  assert (pr_principal_id p ∉ ha_revoked_principals h) as Hpl.
  { destruct (rq_context r) as [|k ks] eqn:E; [done|].
    destruct (Hvis k) as (ck & (_ & a & Ha & _)%elem_of_visible_chunks & _); [by left|].
    by apply elem_of_visible_articles in Ha as (? & _). }
  match type of Hs2 with serves ?h' => set (h2 := h') in * end.
  assert (reauthorize h2 CAdmission token g None (Some r) now = inr ()) as Hok.
  { apply reauthorize_inr; [by apply serves_corpus|]. exists p. split_and!; [|by intros r' [= <-]|done].
    subst g. by split. }
  assert (∃ a h3, admit_request token g r now deadline h2 = inr (a, h3)) as (a & h3 & Ea).
  { unfold admit_request. rw Hok. by eexists _, _. }
  exists a, h3. split; [done|]. split; [|by eapply serves_step, hs_admit].
  apply admit_request_inr in Ea as (_ & _ & H1 & H2 & H3 & H4 & H5). intros t Ht. split; try done.
  - lia.
  - by intros r' [= <-].
Qed.

(** C11: an admission carries one question.  Whatever happens to the authority
    after an admission, a later check that accepts this admission with a grant
    and a request accepts only the grant and the request it was given for,
    unless the hash collides on them. *)
Theorem admission_binds h token g r now deadline a h1 h2 checkpoint token' g' r' now' :
  serves h → serves h2 → admit_request token g r now deadline h = inr (a, h1) →
  reauthorize h2 checkpoint token' g' (Some a) (Some r') now' = inr () →
  no_collision (grant_message g) (grant_message g') →
  no_collision (request_message r) (request_message r') →
  g' = g ∧ r' = r ∧ (now' < deadline)%Z.
Proof.
  intros Hc%serves_corpus Hc2%serves_corpus Hadm Hre Hng Hnr.
  apply admit_request_inr in Hadm as (Hok & _ & _ & Hgd & Hrd & Hdl & _).
  apply reauthorize_inr in Hok as (p & Hg & Hr & _); [|done].
  apply reauthorize_inr in Hre as (p' & Hg' & Hr' & Ha'); [|done].
  specialize (Hr r eq_refl). specialize (Hr' r' eq_refl). specialize (Ha' a eq_refl). split_and!.
  - symmetry. apply grant_digest_binds; [done|apply Hg|apply Hg'|]. rw -Hgd. apply Ha'.
  - symmetry. apply help_request_digest_binds; [done|apply Hr|apply Hr'|]. rw -Hrd. by apply Ha'.
  - rw -Hdl. apply Ha'.
Qed.

(** No check of [h] accepts the grant: not at any checkpoint, nor for any token,
    admission, request or time. *)
Definition dead (h : Authority) (g : Grant) : Prop :=
  ∀ checkpoint token admission request now,
    ∃ reason, reauthorize h checkpoint token g admission request now = inl reason.

Lemma dead_intro h g : corpus_ok (ha_corpus h) → (∀ token now p, ¬ grant_ok h token g now p) → dead h g.
Proof.
  intros Hc Hg checkpoint token admission request now.
  destruct (reauthorize _ _ _ _ _ _ _) as [reason|[]] eqn:E; [by exists reason|].
  apply reauthorize_inr in E as (p & Hok & _); [|done]. by destruct (Hg token now p).
Qed.

Lemma u64_succ_ok a : is_u64 a → is_u64 (u64_succ a).
Proof. unfold is_u64, u64_succ. case_decide; lia. Qed.

Lemma serves_revision h : serves h → is_u64 (ha_revision h).
Proof.
  intros (c & h0 & n & [_ ->]%authority_new_inr & (_ & _ & -> & _)%hsteps_frame). simpl.
  induction n as [|n IH]; [by split|]. by apply u64_succ_ok.
Qed.

Lemma stale_dies n h h1 h' g :
  serves h → hstep 1 h h1 → gr_manifest_revision g = ha_revision h → hsteps n h1 h' →
  (Z.of_nat n < U64_MAX)%Z → dead h' g.
Proof.
  intros Hv Hs Hd Hss Hn. pose proof (serves_revision h Hv) as Hu. pose proof (serves_corpus h Hv) as Hc.
  apply hstep_frame in Hs as (_ & _ & Hr1 & Hc1). apply hsteps_frame in Hss as (_ & _ & Hr & Hc').
  apply dead_intro; [auto|]. intros token now p Hg.
  pose proof (go_revision _ _ _ _ _ Hg) as E. rw Hr Hr1 -Nat.iter_succ_r Hd in E.
  symmetry in E. apply u64_succ_iter_ne in E; [done|done|lia|lia].
Qed.

(** C24: a grant dies and stays dead.  After a call of [revoke_grant] with its
    id, or of [revoke_principal] with its principal, no check at any checkpoint
    accepts the grant again, for any token, request or time, whatever other
    methods of the authority are called later.  The same holds of every grant
    of the current revision after any call of [revoke_principal] and after a
    [replace_corpus] that succeeded, for the next [2^64 - 2] changes of the
    revision. *)
Theorem grant_dies h g :
  serves h →
  (∀ n h', hsteps n (revoke_grant (gr_grant_id g) h) h' → dead h' g) ∧
  (∀ n h', hsteps n (revoke_principal (gr_principal_id g) h) h' → dead h' g) ∧
  (gr_manifest_revision g = ha_revision h → ∀ h1,
    (∃ id, h1 = revoke_principal id h) ∨ (∃ c, replace_corpus c h = inr h1) →
    ∀ n h', hsteps n h1 h' → (Z.of_nat n < U64_MAX)%Z → dead h' g).
Proof.
  intros Hv. pose proof (serves_corpus h Hv) as Hc. split_and!.
  - intros n h' (Hrg & _ & _ & Hcok)%hsteps_frame. apply dead_intro; [auto|]. intros token now p Hg.
    destruct (go_grant_live _ _ _ _ _ Hg). apply Hrg. simpl. set_solver.
  - intros n h' (_ & Hrp & _ & Hcok)%hsteps_frame. apply dead_intro; [auto|]. intros token now p Hg.
    destruct (go_principal_live _ _ _ _ _ Hg). apply Hrp. simpl. set_solver.
  - intros Hd h1 Hch n h' Hs Hn. eapply stale_dies; [done| |done..].
    destruct Hch as [[id ->]|[c E]]; [apply hs_revoke_principal|by eapply hs_replace].
Qed.

(** The manifest digest joins the ids of an entry with commas: two different
    manifests have the same digest, under every hash. *)
Lemma manifest_digest_ambiguous revision corpus_digest source_digest a d v :
  let entry ids := MkManifestEntry a d ids [] v in
  entry ["x,y"] ≠ entry ["x"; "y"] ∧
  manifest_digest revision corpus_digest source_digest [entry ["x,y"]] =
  manifest_digest revision corpus_digest source_digest [entry ["x"; "y"]].
Proof. by split. Qed.

End props.
