(* ===== verification/HelpExecutor.v ===== *)
(** * The Help executor

    [grokptah-help-runtime/src/executor.rs]: the bounded executor.  The provider
    is a parameter, a state with the three methods of the trait; the executor's
    methods thread it.  A loop over the indices of [runs] whose body touches one
    run and the provider is [thread]. *)

From S2P Require Import Prelude Text Ids Result HelpDigest HelpCorpus HelpDto HelpAuthority.
From stdpp Require Import pretty.

(** ** Bounds, provider, runs *)

Record Bounds := MkBounds {
  bd_max_concurrency : nat;
  bd_max_queued : nat;
  bd_deadline_ms : Z;
  bd_abandon_after_ms : Z
}.

Definition bounds_default : Bounds :=
  {| bd_max_concurrency := 2; bd_max_queued := 8; bd_deadline_ms := 30000; bd_abandon_after_ms := 10000 |}.

Definition bounds_projection (b : Bounds) : BoundsProjection :=
  {| bp_max_concurrency := bd_max_concurrency b; bp_max_queued := bd_max_queued b;
     bp_deadline_ms := bd_deadline_ms b; bp_single_request := true; bp_tools_enabled := false;
     bp_history_enabled := false; bp_workspace_enabled := false; bp_fallback_enabled := false |}.

Definition Ticket : Type := Z.

Inductive Begin := Accepted (ticket : Ticket) | Uncertain (ticket : Ticket) | Rejected.

Inductive Poll := Pending | Replied (reply : string) | Failed | Quiesced.

Class Provider (P : Type) := {
  pv_begin : HelpRequest → P → Begin * P;
  pv_poll : Ticket → Z → P → Poll * P;
  pv_cancel : Ticket → P → P
}.

Inductive RunState :=
  | RQueued | RRunning | RDraining | RAnswered | RAbstained | RDenied | RCancelled | RAbandoned | RTimedOut.

#[export] Instance RunState_eq_dec : EqDecision RunState.
Proof. solve_decision. Defined.

Definition holds_capacity (s : RunState) : bool :=
  match s with RRunning | RDraining | RAbandoned => true | _ => false end.

Definition is_terminal (s : RunState) : bool :=
  match s with
  | RAnswered | RAbstained | RDenied | RCancelled | RAbandoned | RTimedOut => true
  | _ => false
  end.

Record RunIdentity := MkRunIdentity {
  ri_run_id : string;
  ri_handle : string;
  ri_session_token : string;
  ri_epoch : Z
}.

Record Run := MkRun {
  rn_identity : RunIdentity;
  rn_state : RunState;
  rn_grant : Grant;
  rn_admission : Admission;
  rn_request : HelpRequest;
  rn_ticket : option Ticket;
  rn_send_certainty : SendCertainty;
  rn_reply : option string;
  rn_deny_reason : option DenyReason;
  rn_started_at_ms : Z;
  rn_deadline_at_ms : Z;
  rn_draining_since_ms : option Z;
  rn_finished_at_ms : option Z;
  rn_cancel_requested : bool
}.

Definition rn_handle (r : Run) : string := ri_handle (rn_identity r).

(** Assignments to fields of a run. *)
Definition set_state (st : RunState) (r : Run) : Run :=
  {| rn_identity := rn_identity r; rn_state := st; rn_grant := rn_grant r;
     rn_admission := rn_admission r; rn_request := rn_request r; rn_ticket := rn_ticket r;
     rn_send_certainty := rn_send_certainty r; rn_reply := rn_reply r;
     rn_deny_reason := rn_deny_reason r; rn_started_at_ms := rn_started_at_ms r;
     rn_deadline_at_ms := rn_deadline_at_ms r; rn_draining_since_ms := rn_draining_since_ms r;
     rn_finished_at_ms := rn_finished_at_ms r; rn_cancel_requested := rn_cancel_requested r |}.

Definition set_finished (now : Z) (r : Run) : Run :=
  {| rn_identity := rn_identity r; rn_state := rn_state r; rn_grant := rn_grant r;
     rn_admission := rn_admission r; rn_request := rn_request r; rn_ticket := rn_ticket r;
     rn_send_certainty := rn_send_certainty r; rn_reply := rn_reply r;
     rn_deny_reason := rn_deny_reason r; rn_started_at_ms := rn_started_at_ms r;
     rn_deadline_at_ms := rn_deadline_at_ms r; rn_draining_since_ms := rn_draining_since_ms r;
     rn_finished_at_ms := Some now; rn_cancel_requested := rn_cancel_requested r |}.

(** [state = Draining; draining_since_ms.get_or_insert(now)]. *)
Definition start_draining (now : Z) (r : Run) : Run :=
  {| rn_identity := rn_identity r; rn_state := RDraining; rn_grant := rn_grant r;
     rn_admission := rn_admission r; rn_request := rn_request r; rn_ticket := rn_ticket r;
     rn_send_certainty := rn_send_certainty r; rn_reply := rn_reply r;
     rn_deny_reason := rn_deny_reason r; rn_started_at_ms := rn_started_at_ms r;
     rn_deadline_at_ms := rn_deadline_at_ms r;
     rn_draining_since_ms := Some (default now (rn_draining_since_ms r));
     rn_finished_at_ms := rn_finished_at_ms r; rn_cancel_requested := rn_cancel_requested r |}.

Definition set_cancel_requested (r : Run) : Run :=
  {| rn_identity := rn_identity r; rn_state := rn_state r; rn_grant := rn_grant r;
     rn_admission := rn_admission r; rn_request := rn_request r; rn_ticket := rn_ticket r;
     rn_send_certainty := rn_send_certainty r; rn_reply := rn_reply r;
     rn_deny_reason := rn_deny_reason r; rn_started_at_ms := rn_started_at_ms r;
     rn_deadline_at_ms := rn_deadline_at_ms r; rn_draining_since_ms := rn_draining_since_ms r;
     rn_finished_at_ms := rn_finished_at_ms r; rn_cancel_requested := true |}.

Definition set_reply (reply : string) (r : Run) : Run :=
  {| rn_identity := rn_identity r; rn_state := rn_state r; rn_grant := rn_grant r;
     rn_admission := rn_admission r; rn_request := rn_request r; rn_ticket := rn_ticket r;
     rn_send_certainty := rn_send_certainty r; rn_reply := Some reply;
     rn_deny_reason := rn_deny_reason r; rn_started_at_ms := rn_started_at_ms r;
     rn_deadline_at_ms := rn_deadline_at_ms r; rn_draining_since_ms := rn_draining_since_ms r;
     rn_finished_at_ms := rn_finished_at_ms r; rn_cancel_requested := rn_cancel_requested r |}.

Definition set_deny_reason (reason : DenyReason) (r : Run) : Run :=
  {| rn_identity := rn_identity r; rn_state := rn_state r; rn_grant := rn_grant r;
     rn_admission := rn_admission r; rn_request := rn_request r; rn_ticket := rn_ticket r;
     rn_send_certainty := rn_send_certainty r; rn_reply := rn_reply r;
     rn_deny_reason := Some reason; rn_started_at_ms := rn_started_at_ms r;
     rn_deadline_at_ms := rn_deadline_at_ms r; rn_draining_since_ms := rn_draining_since_ms r;
     rn_finished_at_ms := rn_finished_at_ms r; rn_cancel_requested := rn_cancel_requested r |}.

(** [ticket = Some(ticket); send_certainty = c; state = Running]. *)
Definition set_sent (ticket : Ticket) (c : SendCertainty) (r : Run) : Run :=
  {| rn_identity := rn_identity r; rn_state := RRunning; rn_grant := rn_grant r;
     rn_admission := rn_admission r; rn_request := rn_request r; rn_ticket := Some ticket;
     rn_send_certainty := c; rn_reply := rn_reply r;
     rn_deny_reason := rn_deny_reason r; rn_started_at_ms := rn_started_at_ms r;
     rn_deadline_at_ms := rn_deadline_at_ms r; rn_draining_since_ms := rn_draining_since_ms r;
     rn_finished_at_ms := rn_finished_at_ms r; rn_cancel_requested := rn_cancel_requested r |}.

Definition run_public_code (r : Run) : option PublicErrorCode :=
  match rn_state r with
  | RDenied => Some (match rn_deny_reason r with Some reason => deny_public_code reason | None => NotAvailable end)
  | RTimedOut | RAbandoned => Some Timeout
  | RCancelled => Some NotAvailable
  | _ => None
  end.

Inductive SubmitError := SubmitDenied (reason : DenyReason) | SubmitSaturated.

(** [for index in 0..xs.len()] with a body that changes [xs[index]] and [s]. *)
Fixpoint thread {A S} (f : A → S → A * S) (xs : list A) (s : S) : list A * S :=
  match xs with
  | [] => ([], s)
  | x :: xs =>
      let '(x, s) := f x s in
      let '(xs, s) := thread f xs s in
      (x :: xs, s)
  end.

(** ** The executor *)

Record Executor (P : Type) := MkExecutor {
  ex_bounds : Bounds;
  ex_provider : P;
  ex_runs : list Run;
  ex_queue : list string;
  ex_next_id : Z;
  ex_epoch : Z;
  ex_provider_calls : nat
}.
Arguments MkExecutor {P}.
Arguments ex_bounds {P}.
Arguments ex_provider {P}.
Arguments ex_runs {P}.
Arguments ex_queue {P}.
Arguments ex_next_id {P}.
Arguments ex_epoch {P}.
Arguments ex_provider_calls {P}.

Section executor.
Context {SH : Sha256} {P : Type} {PV : Provider P}.

Implicit Types (e : Executor P) (h : Authority).

Definition executor_new (bounds : Bounds) (provider : P) : Executor P :=
  MkExecutor bounds provider [] [] 1 1 0.

Definition set_runs (runs : list Run) e : Executor P :=
  MkExecutor (ex_bounds e) (ex_provider e) runs (ex_queue e) (ex_next_id e) (ex_epoch e) (ex_provider_calls e).

Definition set_queue (queue : list string) e : Executor P :=
  MkExecutor (ex_bounds e) (ex_provider e) (ex_runs e) queue (ex_next_id e) (ex_epoch e) (ex_provider_calls e).

Definition set_provider (provider : P) e : Executor P :=
  MkExecutor (ex_bounds e) provider (ex_runs e) (ex_queue e) (ex_next_id e) (ex_epoch e) (ex_provider_calls e).

Definition capacity_of (runs : list Run) : nat :=
  length (filter (λ r, holds_capacity (rn_state r) = true) runs).

Definition capacity_in_use e : nat := capacity_of (ex_runs e).

Definition queued e : nat := length (ex_queue e).

(** [position(|run| run.identity.handle == handle)]. *)
Definition position (handle : string) (runs : list Run) : option (nat * Run) :=
  list_find (λ r, rn_handle r = handle) runs.

Definition run e (handle : string) : option Run := snd <$> position handle (ex_runs e).

Definition executor_mint (prefix : string) e : string * Executor P :=
  (prefix +:+ "-" +:+ pad8 (ex_next_id e),
   MkExecutor (ex_bounds e) (ex_provider e) (ex_runs e) (ex_queue e) (u64_succ (ex_next_id e))
     (ex_epoch e) (ex_provider_calls e)).

Definition submit (session_token : string) (grant : Grant) (request : HelpRequest) (now_ms : Z)
    (h : Authority) e : SubmitError + (RunIdentity * Authority * Executor P) :=
  _ ← ensure (bool_decide (length (ex_queue e) < bd_max_queued (ex_bounds e))%nat) SubmitSaturated;
  let deadline := saturating_add now_ms (bd_deadline_ms (ex_bounds e)) in
  '(admission, h) ← map_err SubmitDenied (admit_request session_token grant request now_ms deadline h);
  let '(run_id, e) := executor_mint "run" e in
  let '(handle, e) := executor_mint "help" e in
  let identity := {| ri_run_id := run_id; ri_handle := handle; ri_session_token := session_token;
                     ri_epoch := ex_epoch e |} in
  let new_run :=
    {| rn_identity := identity; rn_state := RQueued; rn_grant := grant; rn_admission := admission;
       rn_request := request; rn_ticket := None; rn_send_certainty := NotSent; rn_reply := None;
       rn_deny_reason := None; rn_started_at_ms := now_ms; rn_deadline_at_ms := deadline;
       rn_draining_since_ms := None; rn_finished_at_ms := None; rn_cancel_requested := false |} in
  mret (identity, h, set_runs (ex_runs e ++ [new_run]) (set_queue (ex_queue e ++ [handle]) e)).

Definition cancel (handle : string) (now_ms : Z) e : Executor P :=
  match position handle (ex_runs e) with
  | None => e
  | Some (index, r) =>
      if is_terminal (rn_state r) then e else
      let r := set_cancel_requested r in
      let '(r, ticket) :=
        match rn_state r with
        | RQueued => (set_finished now_ms (set_state RCancelled r), None)
        | _ => (start_draining now_ms r, rn_ticket r)
        end in
      let e := set_queue (filter (λ q, q ≠ handle) (ex_queue e)) (set_runs (<[index := r]> (ex_runs e)) e) in
      match ticket with
      | Some ticket => set_provider (pv_cancel ticket (ex_provider e)) e
      | None => e
      end
  end.

Definition restart (now_ms : Z) e : Executor P :=
  let e := MkExecutor (ex_bounds e) (ex_provider e) (ex_runs e) (ex_queue e) (ex_next_id e)
             (u64_succ (ex_epoch e)) (ex_provider_calls e) in
  let handles := rn_handle <$> filter (λ r, is_terminal (rn_state r) = false) (ex_runs e) in
  foldl (λ e handle, cancel handle now_ms e) e handles.

(** The body of [settle_draining]. *)
Definition settle_run (abandon_after_ms now_ms : Z) (r : Run) (p : P) : Run * P :=
  if decide (rn_state r = RDraining) then
    let '(quiesced, p) :=
      match rn_ticket r with
      | None => (true, p)
      | Some ticket =>
          let '(answer, p) := pv_poll ticket now_ms p in
          (match answer with Quiesced | Failed => true | _ => false end, p)
      end in
    if (quiesced : bool) then
      (set_finished now_ms (set_state (if rn_cancel_requested r then RCancelled else RTimedOut) r), p)
    else
      let since := default now_ms (rn_draining_since_ms r) in
      if decide (abandon_after_ms ≤ saturating_sub now_ms since)%Z
      then (set_finished now_ms (set_state RAbandoned r), p)
      else (r, p)
  else (r, p).

Definition settle_draining (now_ms : Z) e : Executor P :=
  let '(runs, p) :=
    thread (settle_run (bd_abandon_after_ms (ex_bounds e)) now_ms) (ex_runs e) (ex_provider e) in
  set_runs runs (set_provider p e).

(** The body of [poll_running]. *)
Definition poll_run (h : Authority) (now_ms : Z) (r : Run) (p : P) : Run * P :=
  if decide (rn_state r = RRunning) then
    if decide (rn_deadline_at_ms r ≤ now_ms)%Z then
      (start_draining now_ms r,
       match rn_ticket r with Some ticket => pv_cancel ticket p | None => p end)
    else
      match rn_ticket r with
      | None => (r, p)
      | Some ticket =>
          let '(answer, p) := pv_poll ticket now_ms p in
          match answer with
          | Pending => (r, p)
          | Replied reply =>
              match reauthorize h CBeforeServe (ri_session_token (rn_identity r)) (rn_grant r)
                      (Some (rn_admission r)) (Some (rn_request r)) now_ms with
              | inr _ => (start_draining now_ms (set_reply reply r), p)
              | inl reason => (start_draining now_ms (set_deny_reason reason r), p)
              end
          | Failed => (start_draining now_ms r, p)
          | Quiesced => (start_draining now_ms r, p)
          end
      end
  else (r, p).

Definition poll_running (h : Authority) (now_ms : Z) e : Executor P :=
  let '(runs, p) := thread (poll_run h now_ms) (ex_runs e) (ex_provider e) in
  set_runs runs (set_provider p e).

(** One queued run that [promote] has taken off the queue. *)
Definition start_run (h : Authority) (now_ms : Z) (index : nat) (r : Run) e : Executor P :=
  let check checkpoint :=
    reauthorize h checkpoint (ri_session_token (rn_identity r)) (rn_grant r)
      (Some (rn_admission r)) (Some (rn_request r)) now_ms in
  let deny reason :=
    set_runs (<[index := set_finished now_ms (set_state RDenied (set_deny_reason reason r))]> (ex_runs e)) e in
  match check CQueuePromotion with
  | inl reason => deny reason
  | inr _ =>
      match check CBeforeSend with
      | inl reason => deny reason
      | inr _ =>
          let '(begun, p) := pv_begin (rn_request r) (ex_provider e) in
          let r := match begun with
                   | Accepted ticket => set_sent ticket Sent r
                   | Uncertain ticket => set_sent ticket Unknown r
                   | Rejected => start_draining now_ms r
                   end in
          MkExecutor (ex_bounds e) p (<[index := r]> (ex_runs e)) (ex_queue e) (ex_next_id e)
            (ex_epoch e) (S (ex_provider_calls e))
      end
  end.

(** The [while] loop; each round takes one handle off the queue, so as many
    rounds as the queue is long are enough. *)
Fixpoint promote_loop (fuel : nat) (h : Authority) (now_ms : Z) e : Executor P :=
  match fuel with
  | O => e
  | S fuel =>
      if decide (capacity_in_use e < bd_max_concurrency (ex_bounds e))%nat then
        match ex_queue e with
        | [] => e
        | handle :: queue =>
            let e := set_queue queue e in
            match position handle (ex_runs e) with
            | None => promote_loop fuel h now_ms e
            | Some (index, r) =>
                if decide (rn_state r = RQueued)
                then promote_loop fuel h now_ms (start_run h now_ms index r e)
                else promote_loop fuel h now_ms e
            end
        end
      else e
  end.

Definition promote (h : Authority) (now_ms : Z) e : Executor P :=
  promote_loop (length (ex_queue e)) h now_ms e.

Definition tick (h : Authority) (now_ms : Z) e : Executor P :=
  promote h now_ms (poll_running h now_ms (settle_draining now_ms e)).

Definition settle_outcome (handle : string) (answered : bool) (now_ms : Z) e : Executor P :=
  match position handle (ex_runs e) with
  | None => e
  | Some (index, r) =>
      let r := set_finished (default now_ms (rn_finished_at_ms r))
                 (set_state (if answered then RAnswered else RAbstained) r) in
      set_runs (<[index := r]> (ex_runs e)) e
  end.

Definition outcome_of (st : RunState) : option Outcome :=
  match st with
  | RAnswered => Some OAnswered
  | RAbstained => Some OAbstained
  | RDenied => Some ODenied
  | RCancelled => Some OCancelled
  | RAbandoned => Some OAbandoned
  | RTimedOut => Some OTimedOut
  | RQueued | RRunning | RDraining => None
  end.

Definition receipt e (handle principal_id tenant_id session_id : string) (claim_count span_count : nat)
    (redactions : list RedactionCount) (now_ms : Z) : option Receipt :=
  r ← run e handle;
  outcome ← outcome_of (rn_state r);
  let finished := default now_ms (rn_finished_at_ms r) in
  let receipt_id := "receipt-" +:+ ri_run_id (rn_identity r) in
  let request := rn_request r in
  mret
    {| re_receipt_id := receipt_id; re_run_id := ri_run_id (rn_identity r);
       re_request_id := rq_request_id request; re_principal_id := principal_id;
       re_tenant_id := tenant_id; re_session_id := session_id;
       re_corpus_digest := rq_corpus_digest request;
       re_manifest_revision := rq_manifest_revision request;
       re_request_digest := rq_digest request; re_outcome := outcome;
       re_send_certainty := rn_send_certainty r; re_deny_reason := rn_deny_reason r;
       re_public_code := run_public_code r; re_claim_count := claim_count;
       re_span_count := span_count; re_redactions := redactions;
       re_started_at_ms := rn_started_at_ms r; re_finished_at_ms := finished;
       re_digest := receipt_digest receipt_id (ri_run_id (rn_identity r)) (rq_request_id request)
                      (rq_digest request) outcome (rn_send_certainty r) claim_count span_count finished |}.

End executor.
