(* ===== verification/HelpExecInv.v ===== *)
(** * Invariant of the Help executor

    A provider that logs its calls stands for any provider; [exec_inv] relates
    the log to the runs, and every method of the executor keeps it. *)

From S2P Require Import Prelude Text Ids Result HelpDigest HelpCorpus HelpCorpusFacts HelpDto HelpAuthority HelpAuthorityFacts HelpAuthorityProps HelpExecutor.

(** ** A provider with a log *)

Inductive Call :=
  | CallBegin (request : HelpRequest) (answer : Begin)
  | CallPoll (ticket : Ticket) (now_ms : Z) (answer : Poll)
  | CallCancel (ticket : Ticket).

Record Logged (P : Type) := MkLogged { lg_inner : P; lg_calls : list Call }.
Arguments MkLogged {P}.
Arguments lg_inner {P}.
Arguments lg_calls {P}.

#[export] Instance logged_provider {P} `{Provider P} : Provider (Logged P) := {
  pv_begin q p := let '(b, i) := pv_begin q (lg_inner p) in (b, MkLogged i (lg_calls p ++ [CallBegin q b]));
  pv_poll t now p :=
    let '(a, i) := pv_poll t now (lg_inner p) in (a, MkLogged i (lg_calls p ++ [CallPoll t now a]));
  pv_cancel t p := MkLogged (pv_cancel t (lg_inner p)) (lg_calls p ++ [CallCancel t])
}.

(** The requests handed to the provider, with its answers. *)
Definition begins (log : list Call) : list (HelpRequest * Begin) :=
  omap (λ c, match c with CallBegin q b => Some (q, b) | _ => None end) log.

(** The provider was seen to have let go of [t]. *)
Definition stopped (log : list Call) (t : Ticket) : Prop :=
  ∃ now a, CallPoll t now a ∈ log ∧ (a = Quiesced ∨ a = Failed).

(** [log'] extends [log] by calls that are not sends. *)
Definition quiet (log log' : list Call) : Prop := ∃ new, log' = log ++ new ∧ begins new = [].

Lemma begins_app a b : begins (a ++ b) = begins a ++ begins b.
Proof. apply omap_app. Qed.

#[export] Instance quiet_refl : Reflexive quiet.
Proof. intros l. exists []. by rw app_nil_r. Qed.

#[export] Instance quiet_trans : Transitive quiet.
Proof.
  intros a b c (x & -> & Hx) (y & -> & Hy). exists (x ++ y). by rw begins_app Hx Hy assoc.
Qed.

Lemma quiet_begins l l' : quiet l l' → begins l' = begins l.
Proof. intros (x & -> & Hx). by rw begins_app Hx app_nil_r. Qed.

Lemma quiet_stopped l l' t : quiet l l' → stopped l t → stopped l' t.
Proof. intros (x & -> & _) (now & a & Hin & Ha). exists now, a. split; [|done]. by apply elem_of_app; left. Qed.

Lemma quiet_poll l t now a : quiet l (l ++ [CallPoll t now a]).
Proof. by exists [CallPoll t now a]. Qed.

Lemma quiet_cancel l t : quiet l (l ++ [CallCancel t]).
Proof. by exists [CallCancel t]. Qed.

(** ** One run *)

(** What a run looks like that has not been handed to the provider, and one
    that has, with the provider's answer. *)
Definition run_ok (log : list Call) (begun : option Begin) (r : Run) : Prop :=
  match begun with
  | None =>
      rn_ticket r = None ∧ rn_send_certainty r = NotSent ∧ rn_reply r = None ∧
      (rn_state r = RQueued ∨ rn_state r = RDenied ∨ rn_state r = RCancelled ∨
       rn_state r = RAnswered ∨ rn_state r = RAbstained)
  | Some b =>
      (rn_state r ≠ RQueued ∧ rn_state r ≠ RDenied) ∧
      match b with
      | Accepted t => rn_ticket r = Some t ∧ rn_send_certainty r = Sent
      | Uncertain t => rn_ticket r = Some t ∧ rn_send_certainty r = Unknown
      | Rejected => rn_ticket r = None ∧ rn_send_certainty r = NotSent ∧ rn_state r ≠ RRunning
      end ∧
      (∀ t, rn_ticket r = Some t → rn_state r = RCancelled ∨ rn_state r = RTimedOut → stopped log t)
  end.

(** [r'] is [r] after a method that does not hand anything to the provider. *)
Record evolves (log log' : list Call) (r r' : Run) : Prop := {
  ev_identity : rn_identity r' = rn_identity r;
  ev_grant : rn_grant r' = rn_grant r;
  ev_admission : rn_admission r' = rn_admission r;
  ev_request : rn_request r' = rn_request r;
  ev_ticket : rn_ticket r' = rn_ticket r;
  ev_certainty : rn_send_certainty r' = rn_send_certainty r;
  ev_queued : rn_state r' = RQueued → rn_state r = RQueued;
  ev_capacity : holds_capacity (rn_state r') = true → holds_capacity (rn_state r) = true;
  ev_ok : ∀ begun, run_ok log begun r → run_ok log' begun r'
}.

Lemma run_ok_mono log log' begun r : quiet log log' → run_ok log begun r → run_ok log' begun r.
Proof.
  intros Hq. destruct begun as [b|]; simpl; [|done]. intros (H1 & H2 & H3). split; [done|]. split; [done|].
  intros t Ht Hs. eapply quiet_stopped; [done|]. by apply H3.
Qed.

Lemma run_evolves_refl log log' r : quiet log log' → evolves log log' r r.
Proof. intros Hq. split; try done. intros begun. by apply run_ok_mono. Qed.

Lemma evolves_mono l1 l2 l3 r r' : quiet l2 l3 → evolves l1 l2 r r' → evolves l1 l3 r r'.
Proof.
  intros Hq [H1 H2 H3 H4 H5 H6 H7 H8 H9]. split; try done. intros b Hb.
  eapply run_ok_mono; [done|]. by apply H9.
Qed.

Lemma evolves_mono_l l1 l2 l3 r r' : quiet l1 l2 → evolves l2 l3 r r' → evolves l1 l3 r r'.
Proof.
  intros Hq [H1 H2 H3 H4 H5 H6 H7 H8 H9]. split; try done. intros b Hb.
  apply H9. by eapply run_ok_mono.
Qed.

Lemma run_evolves_trans l1 l2 l3 r1 r2 r3 :
  evolves l1 l2 r1 r2 → evolves l2 l3 r2 r3 → evolves l1 l3 r1 r3.
Proof.
  intros [H1 H2 H3 H4 H5 H6 H7 H8 H9] [K1 K2 K3 K4 K5 K6 K7 K8 K9]. split; try congruence; auto.
Qed.

(** ** Threading the provider *)

Lemma thread_evolves {P} (f : Run → Logged P → Run * Logged P) :
  (∀ r p, quiet (lg_calls p) (lg_calls (f r p).2) ∧
          evolves (lg_calls p) (lg_calls (f r p).2) r (f r p).1) →
  ∀ rs p, quiet (lg_calls p) (lg_calls (thread f rs p).2) ∧
          Forall2 (evolves (lg_calls p) (lg_calls (thread f rs p).2)) rs (thread f rs p).1.
Proof.
  intros Hf rs. induction rs as [|r rs IH]; intros p; simpl; [by split|].
  destruct (Hf r p) as [Hq He]. destruct (f r p) as [r' p'] eqn:E1. simpl in *.
  destruct (IH p') as [Hq' He']. destruct (thread f rs p') as [rs' p''] eqn:E2. simpl in *.
  split; [by etrans|]. constructor; [by eapply evolves_mono|].
  eapply Forall2_impl; [exact He'|]. intros x y. by apply evolves_mono_l.
Qed.

Section runs.
Context {SH : Sha256} {P : Type} {PV : Provider P}.

Lemma settle_run_evolves abandon now r (p : Logged P) :
  quiet (lg_calls p) (lg_calls (settle_run abandon now r p).2) ∧
  evolves (lg_calls p) (lg_calls (settle_run abandon now r p).2) r (settle_run abandon now r p).1.
Proof.
  unfold settle_run. case_decide as Hd; [|by split; [|apply run_evolves_refl]].
  assert (∀ log log', quiet log log' → (∀ t, rn_ticket r = Some t → stopped log' t) →
            evolves log log' r
              (set_finished now (set_state (if rn_cancel_requested r then RCancelled else RTimedOut) r))) as Hstop.
  { intros log log' Hq Hs. split; try done; simpl; try (by rw Hd); [by destruct (rn_cancel_requested r)..|].
    intros [b|]; simpl; rw Hd.
    - intros (_ & Hb & _). split; [by destruct (rn_cancel_requested r)|].
      split; [|intros t Ht _; by apply Hs]. destruct b; [done..|].
      destruct (rn_cancel_requested r); naive_solver.
    - intros (_ & _ & _ & H). naive_solver. }
  assert (∀ log log', quiet log log' → evolves log log' r (set_finished now (set_state RAbandoned r))) as Hab.
  { intros log log' Hq. split; try done; simpl; try (by rw Hd). intros [b|]; simpl; rw Hd.
    - intros (_ & Hb & _). split; [done|]. split; [|naive_solver]. destruct b; naive_solver.
    - intros (_ & _ & _ & H). naive_solver. }
  destruct (rn_ticket r) as [t|] eqn:Ht; [|by split; [|apply Hstop]].
  cbn [pv_poll logged_provider]. destruct (pv_poll t now (lg_inner p)) as [a i]. cbn [snd fst].
  destruct a; simpl;
    try (case_decide; (split; [apply quiet_poll|]);
         [apply Hab, quiet_poll|apply run_evolves_refl, quiet_poll]);
    (split; [apply quiet_poll|]); apply Hstop; [apply quiet_poll| |apply quiet_poll|];
    intros t' [= <-]; eexists _, _; (split; [apply elem_of_app; right; by left|]); auto.
Qed.

(** Starting to drain keeps the ticket and the slot. *)
Lemma draining_evolves log log' now r r' :
  quiet log log' → rn_state r = RRunning →
  rn_identity r' = rn_identity r → rn_grant r' = rn_grant r → rn_admission r' = rn_admission r →
  rn_request r' = rn_request r → rn_ticket r' = rn_ticket r →
  rn_send_certainty r' = rn_send_certainty r →
  evolves log log' r (start_draining now r').
Proof.
  intros Hq Hs H1 H2 H3 H4 H5 H6. split; try done; simpl; [by rw Hs|]. intros [b|]; simpl; rw Hs.
  - intros (_ & Hb & _). split; [done|]. split; [|naive_solver].
    rw H5 H6. destruct b; naive_solver.
  - intros (_ & _ & _ & H). naive_solver.
Qed.

Lemma poll_run_evolves h now r (p : Logged P) :
  quiet (lg_calls p) (lg_calls (poll_run h now r p).2) ∧
  evolves (lg_calls p) (lg_calls (poll_run h now r p).2) r (poll_run h now r p).1.
Proof.
  unfold poll_run. case_decide as Hs; [|by split; [|apply run_evolves_refl]].
  case_decide; [|destruct (rn_ticket r) as [t|]; [|by split; [|apply run_evolves_refl]]].
  - destruct (rn_ticket r); simpl; (split; [apply quiet_cancel || done|]).
    + by apply draining_evolves; [apply quiet_cancel|..].
    + by apply draining_evolves.
  - cbn [pv_poll logged_provider]. destruct (pv_poll t now (lg_inner p)) as [a i]. cbn [snd fst].
    destruct a as [|reply| |]; simpl; [split; [|apply run_evolves_refl]; apply quiet_poll| | |].
    + destruct (reauthorize _ _ _ _ _ _ _); simpl; (split; [apply quiet_poll|]);
        by apply draining_evolves; [apply quiet_poll|..].
    + split; [apply quiet_poll|]. by apply draining_evolves; [apply quiet_poll|..].
    + split; [apply quiet_poll|]. by apply draining_evolves; [apply quiet_poll|..].
Qed.

End runs.

(** * The executor's invariant, method by method *)

(** The handle of the run at index [i]: two ids are minted per run. *)
Definition handle_at (i : nat) : string := "help-" +:+ pad8 (2 + 2 * Z.of_nat i).

Lemma handle_at_inj i j : handle_at i = handle_at j → i = j.
Proof. unfold handle_at. intros H%string_app_inj_l. apply pad8_inj in H; lia. Qed.

(** A [Vec] holds fewer than [2^62] runs: each takes more than two bytes. *)
Definition MAX_RUNS : Z := 2 ^ 62.

(** [begun]: the runs handed to the provider, in order, with its answers. *)
Record begun_ok (log : list Call) (runs : list Run) (calls : nat) (begun : list (nat * Begin)) : Prop := {
  bo_distinct : NoDup begun.*1;
  bo_calls : calls = length begun;
  bo_log : Forall2 (λ ib qb, qb.2 = ib.2 ∧ ∃ r, runs !! ib.1 = Some r ∧ rn_request r = qb.1)
             begun (begins log);
  bo_runs : ∀ i r, runs !! i = Some r →
              run_ok log ((list_to_map begun : gmap nat Begin) !! i) r
}.

Section inv.
Context {SH : Sha256} {P : Type} {PV : Provider P}.

Implicit Types (e : Executor (Logged P)).

Definition ex_log e : list Call := lg_calls (ex_provider e).

Record exec_inv e : Prop := {
  xi_room : (Z.of_nat (length (ex_runs e)) ≤ MAX_RUNS)%Z;
  xi_next : ex_next_id e = (1 + 2 * Z.of_nat (length (ex_runs e)))%Z;
  xi_handles : ∀ i r, ex_runs e !! i = Some r → rn_handle r = handle_at i;
  xi_queue : NoDup (ex_queue e);
  xi_known : ∀ q, q ∈ ex_queue e → ∃ i, (i < length (ex_runs e))%nat ∧ q = handle_at i;
  xi_queued : ∀ i r, ex_runs e !! i = Some r → rn_state r = RQueued → handle_at i ∈ ex_queue e;
  xi_queue_bound : (length (ex_queue e) ≤ bd_max_queued (ex_bounds e))%nat;
  xi_capacity : (capacity_of (ex_runs e) ≤ bd_max_concurrency (ex_bounds e))%nat;
  xi_log : ∃ begun, begun_ok (ex_log e) (ex_runs e) (ex_provider_calls e) begun
}.

Lemma run_position_Some handle runs i r :
  position handle runs = Some (i, r) → runs !! i = Some r ∧ rn_handle r = handle.
Proof. intros (H1 & H2 & _)%list_find_Some. done. Qed.

(** ** Capacity *)

Lemma capacity_evolves l l' rs rs' : Forall2 (evolves l l') rs rs' → (capacity_of rs' ≤ capacity_of rs)%nat.
Proof.
  unfold capacity_of. induction 1 as [|r r' rs rs' He _ IH]; [done|]. rw !filter_cons.
  pose proof (ev_capacity _ _ _ _ He). repeat case_decide; simpl; lia || tauto.
Qed.

Lemma capacity_insert i r r' rs :
  rs !! i = Some r → holds_capacity (rn_state r) = false →
  (capacity_of (<[i := r']> rs) ≤ S (capacity_of rs))%nat.
Proof.
  unfold capacity_of. revert i. induction rs as [|x rs IH]; intros [|i] Hi Hr; try done; simpl in *.
  - injection Hi as ->. rw !filter_cons. rw (decide_False (P := holds_capacity (rn_state r) = true)); [|by rw Hr].
    case_decide; simpl; lia.
  - specialize (IH i Hi Hr). rw !filter_cons. case_decide; simpl; lia.
Qed.

(** ** Methods that send nothing *)

Lemma begun_evolves l l' rs rs' n begun :
  quiet l l' → Forall2 (evolves l l') rs rs' → begun_ok l rs n begun → begun_ok l' rs' n begun.
Proof.
  intros Hq Hf [H1 H2 H3 H4]. split; [done|done| |].
  - rw (quiet_begins _ _ Hq). eapply Forall2_impl; [exact H3|].
    intros ib qb (E & r & Hr & Hreq). split; [done|].
    destruct (Forall2_lookup_l _ _ _ _ _ Hf Hr) as (r' & Hr' & He). exists r'. split; [done|].
    by rw (ev_request _ _ _ _ He).
  - intros i r' Hr'. destruct (Forall2_lookup_r _ _ _ _ _ Hf Hr') as (r & Hr & He).
    apply (ev_ok _ _ _ _ He). by apply H4.
Qed.

Lemma inv_evolves e e' :
  exec_inv e → ex_bounds e' = ex_bounds e → ex_next_id e' = ex_next_id e →
  ex_provider_calls e' = ex_provider_calls e → quiet (ex_log e) (ex_log e') →
  Forall2 (evolves (ex_log e) (ex_log e')) (ex_runs e) (ex_runs e') →
  sublist (ex_queue e') (ex_queue e) →
  (∀ i r', ex_runs e' !! i = Some r' → rn_state r' = RQueued → handle_at i ∈ ex_queue e →
     handle_at i ∈ ex_queue e') →
  exec_inv e'.
Proof.
  intros [H1 H2 H3 H4 H5 H6 H7 H8 [begun H9]] Eb En Ec Hq Hf Hsub Hkeep.
  pose proof (Forall2_length _ _ _ Hf) as Hlen. split; rw ?Eb ?En ?Ec -?Hlen; try done.
  - intros i r' Hr'. destruct (Forall2_lookup_r _ _ _ _ _ Hf Hr') as (r & Hr & He).
    unfold rn_handle. rw (ev_identity _ _ _ _ He). by apply H3.
  - by eapply sublist_NoDup.
  - intros q Hin. apply H5. by eapply elem_of_sublist.
  - intros i r' Hr' Hst. destruct (Forall2_lookup_r _ _ _ _ _ Hf Hr') as (r & Hr & He).
    eapply Hkeep; [done..|]. eapply H6; [done|]. by apply (ev_queued _ _ _ _ He).
  - apply sublist_length in Hsub. lia.
  - apply capacity_evolves in Hf. lia.
  - exists begun. by eapply begun_evolves.
Qed.

Lemma run_evolves_insert l l' rs i r r' :
  quiet l l' → rs !! i = Some r → evolves l l' r r' → Forall2 (evolves l l') rs (<[i := r']> rs).
Proof.
  intros Hq Hi He. apply Forall2_same_length_lookup. split; [by rw length_insert|].
  intros j x y Hx Hy. destruct (decide (i = j)) as [->|Hne].
  - rw list_lookup_insert_eq in Hy; [|by eapply lookup_lt_Some]. by simplify_eq.
  - rw list_lookup_insert_ne // in Hy. simplify_eq. by apply run_evolves_refl.
Qed.

Lemma settle_draining_inv now e : exec_inv e → exec_inv (settle_draining now e).
Proof.
  intros Hi. unfold settle_draining.
  destruct (thread_evolves (settle_run (bd_abandon_after_ms (ex_bounds e)) now)
              (settle_run_evolves _ now) (ex_runs e) (ex_provider e)) as [Hq Hf].
  destruct (thread _ _ _) as [rs p]. by apply (inv_evolves e).
Qed.

Lemma poll_running_inv h now e : exec_inv e → exec_inv (poll_running h now e).
Proof.
  intros Hi. unfold poll_running.
  destruct (thread_evolves (poll_run h now) (poll_run_evolves h now) (ex_runs e) (ex_provider e)) as [Hq Hf].
  destruct (thread _ _ _) as [rs p]. by apply (inv_evolves e).
Qed.

Lemma settle_outcome_inv handle answered now e :
  exec_inv e → exec_inv (settle_outcome handle answered now e).
Proof.
  intros Hi. unfold settle_outcome. destruct (position handle (ex_runs e)) as [[i r]|] eqn:Hp; [|done].
  apply run_position_Some in Hp as [Hr _]. apply (inv_evolves e); try done. apply (run_evolves_insert _ _ _ i r); try done.
  split; try done; simpl; [by destruct answered..|]. intros [b|]; simpl.
  - intros (_ & Hb & _). split; [by destruct answered|]. split; [|by destruct answered; naive_solver].
    destruct b; destruct answered; naive_solver.
  - intros (H1 & H2 & H3 & _). destruct answered; naive_solver.
Qed.

(** A cancelled run: gone from the queue, or draining. *)
Lemma cancel_inv handle now e : exec_inv e → exec_inv (cancel handle now e).
Proof.
  intros Hi. unfold cancel. destruct (position handle (ex_runs e)) as [[i r]|] eqn:Hp; [|done].
  apply run_position_Some in Hp as [Hr Hh]. destruct (is_terminal (rn_state r)) eqn:Hterm; [done|].
  assert (∀ (e' : Executor (Logged P)) r', ex_bounds e' = ex_bounds e → ex_next_id e' = ex_next_id e →
    ex_provider_calls e' = ex_provider_calls e → quiet (ex_log e) (ex_log e') →
    ex_runs e' = <[i := r']> (ex_runs e) → ex_queue e' = filter (λ q, q ≠ handle) (ex_queue e) →
    rn_state r' ≠ RQueued → evolves (ex_log e) (ex_log e') r r' → exec_inv e') as Hgen.
  { intros e' r' E1 E2 E3 Hq E4 E5 Hnq He. apply (inv_evolves e); try done.
    - rw E4. by apply (run_evolves_insert _ _ _ i r).
    - rw E5. apply sublist_filter.
    - intros j x Hx Hst Hin. rw E5 list_elem_of_filter. split; [|done].
      rw E4 in Hx. rw -Hh (xi_handles e Hi i r Hr). intros <-%handle_at_inj.
      rw list_lookup_insert_eq in Hx; [|by eapply lookup_lt_Some]. naive_solver. }
  cbn [set_cancel_requested rn_state rn_ticket].
  assert (∀ log', quiet (ex_log e) log' → rn_state r ≠ RQueued →
    evolves (ex_log e) log' r (start_draining now (set_cancel_requested r))) as Hdr.
  { intros log' Hq Hnq. destruct (decide (rn_state r = RRunning)) as [Hs|Hs]; [by apply draining_evolves|].
    assert (rn_state r = RDraining) as Hd by (destruct (rn_state r); done).
    split; try done; simpl; [by rw Hd|]. intros [b|]; simpl; rw Hd.
    - intros (_ & Hb & _). split; [done|]. split; [|naive_solver]. destruct b; naive_solver.
    - naive_solver. }
  destruct (rn_state r) eqn:Hs; try done.
  - apply (Hgen _ (set_finished now (set_state RCancelled (set_cancel_requested r)))); try done.
    split; try done; simpl. intros [b|]; simpl; rw Hs; [naive_solver|].
    intros (H1 & H2 & H3 & _). naive_solver.
  - destruct (rn_ticket r) as [t|]; apply (Hgen _ (start_draining now (set_cancel_requested r))); try done;
      [apply quiet_cancel|by apply Hdr; [apply quiet_cancel|]|by apply Hdr].
  - destruct (rn_ticket r) as [t|]; apply (Hgen _ (start_draining now (set_cancel_requested r))); try done;
      [apply quiet_cancel|by apply Hdr; [apply quiet_cancel|]|by apply Hdr].
Qed.

Lemma restart_inv now e : exec_inv e → exec_inv (restart now e).
Proof.
  intros Hi. unfold restart.
  match goal with |- exec_inv (foldl _ ?e0 (rn_handle <$> ?l)) =>
    assert (exec_inv e0) as H0; [|revert H0; generalize (rn_handle <$> l); generalize e0] end.
  { apply (inv_evolves e); try done. apply Forall2_same_length_lookup.
    split; [done|]. intros j x y Hx Hy. simplify_eq/=. by apply run_evolves_refl. }
  intros e0 hs H0. revert e0 H0. induction hs as [|x hs IH]; intros e0 H0; [done|].
  simpl. by apply IH, cancel_inv.
Qed.

(** ** Handing a run to the provider *)

Lemma begin_begun log rs n begun i r r' q b :
  begun_ok log rs n begun → rs !! i = Some r → rn_state r = RQueued → q = rn_request r →
  rn_request r' = rn_request r → (∀ log', run_ok log' (Some b) r') →
  begun_ok (log ++ [CallBegin q b]) (<[i := r']> rs) (S n) (begun ++ [(i, b)]).
Proof.
  intros [H1 H2 H3 H4] Hr Hs -> Hq Hok.
  assert (i < length rs)%nat as Hlt by (by eapply lookup_lt_Some).
  assert (i ∉ begun.*1) as Hfresh.
  { specialize (H4 i r Hr). destruct ((list_to_map begun : gmap nat Begin) !! i) eqn:E.
    - simpl in H4. naive_solver.
    - by apply not_elem_of_list_to_map in E. }
  split.
  - rw fmap_app. apply NoDup_app. split_and!; [done| |apply NoDup_singleton].
    intros x Hx. rw list_elem_of_singleton. by intros ->.
  - rw length_app H2 /=. lia.
  - rw begins_app. apply Forall2_app.
    + eapply Forall2_impl; [exact H3|]. intros ib qb (E & x & Hx & Hreq). split; [done|].
      destruct (decide (ib.1 = i)) as [Ei|Hne].
      * exists r'. rw Ei list_lookup_insert_eq //. split; [done|]. rw Ei in Hx. congruence.
      * exists x. by rw list_lookup_insert_ne.
    + constructor; [|constructor]. simpl. split; [done|]. exists r'. by rw list_lookup_insert_eq.
  - intros j x Hx. destruct (decide (i = j)) as [<-|Hne].
    + rw list_lookup_insert_eq // in Hx. injection Hx as <-.
      by rw list_to_map_snoc // lookup_insert_eq.
    + rw list_lookup_insert_ne // in Hx. specialize (H4 j x Hx).
      assert ((list_to_map (begun ++ [(i, b)]) : gmap nat Begin) !! j = (list_to_map begun : gmap nat Begin) !! j) as ->.
      { by rw list_to_map_snoc // lookup_insert_ne. }
      destruct ((list_to_map begun : gmap nat Begin) !! j) as [b'|]; [|done]. simpl in *.
      destruct H4 as (K1 & K2 & K3). split; [done|]. split; [done|]. intros t Ht Hst.
      destruct (K3 t Ht Hst) as (now & a & Hin & Ha). exists now, a. split; [|done]. apply elem_of_app. by left.
Qed.

(** The log after one run was taken off the queue. *)
Lemma start_run_inv h now handle queue i r e :
  exec_inv e → ex_queue e = handle :: queue → position handle (ex_runs e) = Some (i, r) →
  rn_state r = RQueued → (capacity_in_use e < bd_max_concurrency (ex_bounds e))%nat →
  exec_inv (start_run h now i r (set_queue queue e)).
Proof.
  intros Hi Hqu [Hr Hh]%run_position_Some Hs Hcap. pose proof (xi_handles e Hi i r Hr) as Hhi.
  assert (∀ j, j ≠ i → handle_at j ∈ ex_queue e → handle_at j ∈ queue) as Hkeep.
  { intros j Hne. rw Hqu elem_of_cons -Hh Hhi. intros [E|]; [|done]. by apply handle_at_inj in E. }
  assert (sublist queue (ex_queue e)) as Hsub by (rw Hqu; by constructor).
  assert (∀ r' j x, rn_state r' ≠ RQueued → <[i := r']> (ex_runs e) !! j = Some x → rn_state x = RQueued →
            j ≠ i ∧ ex_runs e !! j = Some x) as Hother.
  { intros r' j x Hr' Hx Hst. destruct (decide (i = j)) as [<-|Hne]; [|by rw list_lookup_insert_ne // in Hx].
    rw list_lookup_insert_eq in Hx; [|by eapply lookup_lt_Some]. by simplify_eq. }
  unfold start_run.
  assert (∀ reason, exec_inv (set_runs (<[i := set_finished now (set_state RDenied (set_deny_reason reason r))]>
            (ex_runs (set_queue queue e))) (set_queue queue e))) as Hdeny.
  { intros reason. apply (inv_evolves e); try done.
    - apply (run_evolves_insert _ _ _ i r); try done. split; try done; simpl.
      intros [b|]; simpl; rw Hs; [naive_solver|]. intros (H1 & H2 & H3 & _). naive_solver.
    - intros j x Hx Hst Hin. apply Hother in Hx as [Hne _]; [|done..]. by apply Hkeep. }
  destruct (reauthorize _ CQueuePromotion _ _ _ _ _); [apply Hdeny|].
  destruct (reauthorize _ CBeforeSend _ _ _ _ _); [apply Hdeny|].
  cbn [pv_begin logged_provider set_queue ex_provider].
  destruct (pv_begin (rn_request r) (lg_inner (ex_provider e))) as [b p].
  set (r' := match b with Accepted _ => _ | Uncertain _ => _ | Rejected => _ end).
  assert (rn_request r' = rn_request r ∧ rn_identity r' = rn_identity r ∧ rn_state r' ≠ RQueued) as (Hq' & Hid' & Hs')
    by (unfold r'; by destruct b).
  destruct Hi as [H1 H2 H3 H4 H5 H6 H7 H8 [begun H9]].
  split; cbn [ex_runs ex_queue ex_bounds ex_next_id ex_provider_calls set_queue]; rw ?length_insert; try done.
  - intros j x Hx. destruct (decide (i = j)) as [<-|Hne].
    + rw list_lookup_insert_eq in Hx; [|by eapply lookup_lt_Some]. simplify_eq. unfold rn_handle. by rw Hid'.
    + rw list_lookup_insert_ne // in Hx. by apply H3.
  - by eapply sublist_NoDup.
  - intros q Hin. apply H5. by eapply elem_of_sublist.
  - intros j x Hx Hst. apply Hother in Hx as [Hne Hx]; [|done..]. by apply Hkeep, H6 with x.
  - rw Hqu /= in H7. lia.
  - pose proof (capacity_insert i r r' (ex_runs e) Hr) as Hc. rw Hs in Hc. specialize (Hc eq_refl).
    unfold capacity_in_use in Hcap. lia.
  - exists (begun ++ [(i, b)]). apply (begin_begun _ _ _ _ i r); try done.
    pose proof (bo_runs _ _ _ _ H9 i r Hr) as Hok. destruct ((list_to_map begun : gmap nat Begin) !! i);
      simpl in Hok; [naive_solver|]. intros log'. unfold r'. destruct b; simpl; naive_solver.
Qed.

End inv.

(** ** Histories of the Help host

    The authority and the executor together, as a transition system over their
    public methods, with the provider free to change its state between calls. *)

Section runs.
Context {SH : Sha256} {P : Type} {PV : Provider P}.

Implicit Types (e : Executor (Logged P)) (h : Authority).

(** The check of a run at a checkpoint. *)
Definition check_run h (checkpoint : Checkpoint) (now : Z) (r : Run) : DenyReason + unit :=
  reauthorize h checkpoint (ri_session_token (rn_identity r)) (rn_grant r)
    (Some (rn_admission r)) (Some (rn_request r)) now.

(** ** Promotion *)

(** [start_run] touches one run, which leaves the queue. *)
Lemma start_run_runs h now i r e :
  ∃ r', ex_runs (start_run h now i r e) = <[i := r']> (ex_runs e) ∧ rn_state r' ≠ RQueued ∧
    rn_identity r' = rn_identity r ∧ rn_grant r' = rn_grant r ∧ rn_admission r' = rn_admission r ∧
    rn_request r' = rn_request r ∧ rn_reply r' = rn_reply r.
Proof.
  unfold start_run. destruct (reauthorize _ CQueuePromotion _ _ _ _ _); [by eexists|].
  destruct (reauthorize _ CBeforeSend _ _ _ _ _); [by eexists|].
  destruct (pv_begin _ _) as [b p]. eexists. split; [reflexivity|]. by destruct b.
Qed.

Lemma start_run_log h now i r e :
  ∃ new, ex_log (start_run h now i r e) = ex_log e ++ new ∧
    ∀ q b, CallBegin q b ∈ new → q = rn_request r ∧ check_run h CBeforeSend now r = inr ().
Proof.
  unfold start_run. destruct (reauthorize _ CQueuePromotion _ _ _ _ _);
    [exists []; split; [by rw app_nil_r|by intros q b ?%elem_of_nil]|].
  destruct (reauthorize _ CBeforeSend _ _ _ _ _) as [|[]] eqn:E;
    [exists []; split; [by rw app_nil_r|by intros q b ?%elem_of_nil]|].
  cbn [pv_begin logged_provider]. destruct (pv_begin _ _) as [b p]. eexists. split; [reflexivity|].
  intros q b' [= -> ->]%list_elem_of_singleton. done.
Qed.

Lemma start_run_frame h now i r e :
  ex_bounds (start_run h now i r e) = ex_bounds e ∧ ex_queue (start_run h now i r e) = ex_queue e.
Proof.
  unfold start_run. destruct (reauthorize _ CQueuePromotion _ _ _ _ _); [done|].
  destruct (reauthorize _ CBeforeSend _ _ _ _ _); [done|]. by destruct (pv_begin _ _).
Qed.

Lemma skip_inv handle queue e :
  exec_inv e → ex_queue e = handle :: queue →
  (∀ i r, ex_runs e !! i = Some r → rn_handle r = handle → rn_state r ≠ RQueued) →
  exec_inv (set_queue queue e).
Proof.
  intros Hi Hqu Hn. apply (inv_evolves e); try done.
  - apply Forall2_same_length_lookup. split; [done|]. intros j x y Hx Hy. simplify_eq/=. by apply run_evolves_refl.
  - cbn [set_queue ex_queue]. rw Hqu. by constructor.
  - intros j x Hx Hst. cbn [set_queue ex_queue ex_runs] in *. rw Hqu elem_of_cons. intros [E|]; [|done].
    destruct (Hn j x); [done| |done]. by rw (xi_handles e Hi j x Hx).
Qed.

(** What the loop does: it keeps the invariant, sends only what is authorized,
    and with enough rounds stops with the queue empty or the slots taken. *)
Definition promoted h now e e' : Prop :=
  exec_inv e' ∧ ex_bounds e' = ex_bounds e ∧
  (∃ new, ex_log e' = ex_log e ++ new ∧ ∀ q b, CallBegin q b ∈ new →
     ∃ i r, ex_runs e !! i = Some r ∧ rn_state r = RQueued ∧ rn_request r = q ∧
       check_run h CBeforeSend now r = inr ()) ∧
  (∀ i r', ex_runs e' !! i = Some r' → ∃ r, ex_runs e !! i = Some r ∧ rn_identity r' = rn_identity r ∧
     rn_grant r' = rn_grant r ∧ rn_admission r' = rn_admission r ∧ rn_request r' = rn_request r ∧
     rn_reply r' = rn_reply r ∧ (rn_state r' = RQueued → r' = r)).

Lemma promoted_refl h now e : exec_inv e → promoted h now e e.
Proof.
  intros Hi. split_and!; [done|done| |].
  - exists []. split; [by rw app_nil_r|by intros q b ?%elem_of_nil].
  - intros i r Hr. exists r. done.
Qed.

Lemma promoted_skip h now queue e e' :
  promoted h now (set_queue queue e) e' → promoted h now e e'.
Proof. done. Qed.

Lemma promoted_start h now queue i r e e' :
  ex_runs e !! i = Some r → rn_state r = RQueued →
  promoted h now (start_run h now i r (set_queue queue e)) e' → promoted h now e e'.
Proof.
  intros Hr Hs (Hi & Hb & (new & Hlog & Hsend) & Hruns).
  destruct (start_run_runs h now i r (set_queue queue e)) as (r1 & E1 & Hq1 & K1 & K2 & K3 & K4 & K5).
  cbn [set_queue ex_runs] in E1.
  destruct (start_run_log h now i r (set_queue queue e)) as (new1 & El & Hs1).
  destruct (start_run_frame h now i r (set_queue queue e)) as [Eb _].
  assert (i < length (ex_runs e))%nat as Hlt by (by eapply lookup_lt_Some).
  split_and!; [done|by rw Hb Eb| |].
  - exists (new1 ++ new). split; [rw Hlog El -assoc //|]. intros q b [Hin|Hin]%elem_of_app.
    + destruct (Hs1 q b Hin) as [-> Hc]. by exists i, r.
    + destruct (Hsend q b Hin) as (j & x & Hx & Hst & Hreq & Hc). rw E1 in Hx. exists j, x.
      destruct (decide (i = j)) as [<-|Hne]; [|by rw list_lookup_insert_ne // in Hx].
      rw list_lookup_insert_eq // in Hx. by simplify_eq.
  - intros j x Hx. destruct (Hruns j x Hx) as (y & Hy & Hrest). rw E1 in Hy.
    destruct (decide (i = j)) as [<-|Hne]; [|rw list_lookup_insert_ne // in Hy; by exists y].
    rw list_lookup_insert_eq // in Hy. injection Hy as <-. exists r.
    destruct Hrest as (L1 & L2 & L3 & L4 & L5 & L6). split_and!; try congruence.
    intros Hst. pose proof (L6 Hst) as ->. done.
Qed.

Lemma promote_loop_promoted fuel h now e :
  exec_inv e → promoted h now e (promote_loop fuel h now e) ∧
  ((length (ex_queue e) ≤ fuel)%nat →
   ex_queue (promote_loop fuel h now e) = [] ∨
   (bd_max_concurrency (ex_bounds e) ≤ capacity_in_use (promote_loop fuel h now e))%nat).
Proof.
  revert e. induction fuel as [|fuel IH]; intros e Hi; cbn [promote_loop].
  { split; [by apply promoted_refl|]. intros Hf. left. destruct (ex_queue e); [done|simpl in Hf; lia]. }
  case_decide as Hcap; [|by split; [apply promoted_refl|right; lia]].
  destruct (ex_queue e) as [|handle queue] eqn:Hqu; [by split; [apply promoted_refl|left]|].
  cbn [set_queue ex_runs]. destruct (position handle (ex_runs e)) as [[i r]|] eqn:Hp.
  - case_decide as Hs.
    + pose proof (start_run_inv h now handle queue i r e Hi Hqu Hp Hs Hcap) as Hi'.
      destruct (IH _ Hi') as [Hpr Hend]. destruct (start_run_frame h now i r (set_queue queue e)) as [Eb Eq].
      apply run_position_Some in Hp as [Hr _]. split; [by eapply promoted_start|].
      rw Eb Eq /= in Hend. simpl. intros Hf. apply Hend. lia.
    + assert (exec_inv (set_queue queue e)) as Hi'.
      { eapply skip_inv; [done..|]. intros j x Hx Hh. apply run_position_Some in Hp as [Hr Hh'].
        assert (i = j) as ->; [|congruence]. apply handle_at_inj.
        by rw -(xi_handles e Hi i r Hr) -(xi_handles e Hi j x Hx) Hh. }
      destruct (IH _ Hi') as [Hpr Hend]. split; [by apply promoted_skip in Hpr|].
      simpl in Hend |- *. intros Hf. apply Hend. lia.
  - assert (exec_inv (set_queue queue e)) as Hi'.
    { eapply skip_inv; [done..|]. intros j x Hx Hh. unfold position in Hp. apply list_find_None in Hp.
      rw Forall_lookup in Hp. by destruct (Hp j x Hx). }
    destruct (IH _ Hi') as [Hpr Hend]. split; [by apply promoted_skip in Hpr|].
    simpl in Hend |- *. intros Hf. apply Hend. lia.
Qed.

(** ** A tick *)

Lemma thread_Forall2 {A S} (f : A → S → A * S) (Q : S → A → A → Prop) (le : S → S → Prop) :
  Reflexive le → Transitive le → (∀ s s' x y, le s s' → Q s x y → Q s' x y) →
  (∀ x s, le s (f x s).2 ∧ Q (f x s).2 x (f x s).1) →
  ∀ xs s, le s (thread f xs s).2 ∧ Forall2 (Q (thread f xs s).2) xs (thread f xs s).1.
Proof.
  intros Hr Ht Hm Hf xs. induction xs as [|x xs IH]; intros s; simpl; [by split|].
  destruct (Hf x s) as [Hl Hq]. destruct (f x s) as [x' s']. simpl in *.
  destruct (IH s') as [Hl' Hq']. destruct (thread f xs s') as [xs' s'']. simpl in *.
  split; [by etrans|]. constructor; [by eapply Hm|done].
Qed.

(** Everything that identifies the run and what it was asked stays; the reply
    is the old one, or the provider's answer to this poll, served after the
    check. *)
Definition same_ask (r r' : Run) : Prop :=
  rn_identity r' = rn_identity r ∧ rn_grant r' = rn_grant r ∧ rn_admission r' = rn_admission r ∧
  rn_request r' = rn_request r ∧ rn_ticket r' = rn_ticket r.

Definition served h now (log : list Call) (r r' : Run) : Prop :=
  rn_reply r' = rn_reply r ∨
  ∃ t x, rn_ticket r = Some t ∧ rn_reply r' = Some x ∧ CallPoll t now (Replied x) ∈ log ∧
    check_run h CBeforeServe now r = inr ().

Definition extends (p p' : Logged P) : Prop := ∃ new, lg_calls p' = lg_calls p ++ new.

#[local] Instance extends_refl : Reflexive extends.
Proof. intros p. exists []. by rw app_nil_r. Qed.

#[local] Instance extends_trans : Transitive extends.
Proof. intros a b c [x Hx] [y Hy]. exists (x ++ y). by rw Hy Hx assoc. Qed.

Lemma quiet_extends (p p' : Logged P) : quiet (lg_calls p) (lg_calls p') → extends p p'.
Proof. intros (x & Hx & _). by exists x. Qed.

Lemma settle_run_reply abandon now r (p : Logged P) :
  rn_reply (settle_run abandon now r p).1 = rn_reply r.
Proof.
  unfold settle_run. case_decide; [|done]. destruct (rn_ticket r) as [t|]; [|done].
  destruct (pv_poll _ _ _) as [a q]. destruct a; simpl; try case_decide; done.
Qed.

Lemma poll_run_served h now r (p : Logged P) :
  served h now (lg_calls (poll_run h now r p).2) r (poll_run h now r p).1.
Proof.
  unfold poll_run, served. case_decide; [|by left]. case_decide; [by left|].
  destruct (rn_ticket r) as [t|] eqn:Ht; [|by left]. cbn [pv_poll logged_provider].
  destruct (pv_poll t now (lg_inner p)) as [a i]. destruct a as [|x| |]; try by left.
  destruct (reauthorize h CBeforeServe _ _ _ _ _) as [|[]] eqn:E; [by left|]. right. exists t, x. simpl.
  split_and!; try done. apply elem_of_app. right. by left.
Qed.

Lemma served_mono h now (p p' : Logged P) r r' :
  extends p p' → served h now (lg_calls p) r r' → served h now (lg_calls p') r r'.
Proof.
  intros [new E] [H|(t & x & H1 & H2 & H3 & H4)]; [by left|]. right. exists t, x.
  split_and!; try done. rw E. apply elem_of_app. by left.
Qed.

Lemma evolves_same_ask l l' r r' : evolves l l' r r' → same_ask r r'.
Proof. intros []. done. Qed.

Lemma check_run_same h cp now r r' : same_ask r r' → check_run h cp now r' = check_run h cp now r.
Proof. intros (E1 & E2 & E3 & E4 & _). unfold check_run. by rw E1 E2 E3 E4. Qed.

(** The two sweeps before promotion. *)
Definition swept h now e : Executor (Logged P) := poll_running h now (settle_draining now e).

Lemma swept_spec h now e :
  exec_inv e →
  exec_inv (swept h now e) ∧ quiet (ex_log e) (ex_log (swept h now e)) ∧
  ex_bounds (swept h now e) = ex_bounds e ∧
  Forall2 (λ r r', same_ask r r' ∧ (rn_state r' = RQueued → rn_state r = RQueued) ∧
             served h now (ex_log (swept h now e)) r r') (ex_runs e) (ex_runs (swept h now e)).
Proof.
  intros Hi. split; [by apply poll_running_inv, settle_draining_inv|].
  unfold swept, settle_draining, poll_running.
  destruct (thread_evolves (settle_run (bd_abandon_after_ms (ex_bounds e)) now)
              (settle_run_evolves _ now) (ex_runs e) (ex_provider e)) as [Hq1 Hf1].
  destruct (thread_Forall2 (settle_run (bd_abandon_after_ms (ex_bounds e)) now)
              (λ _ r r', rn_reply r' = rn_reply r) extends extends_refl extends_trans ltac:(done)
              (λ r p, conj (quiet_extends _ _ (proj1 (settle_run_evolves _ now r p)))
                           (settle_run_reply _ now r p)) (ex_runs e) (ex_provider e)) as [_ Hr1].
  destruct (thread (settle_run _ _) _ _) as [rs1 p1]. cbn [fst snd] in *.
  cbn [ex_runs ex_provider ex_bounds set_runs set_provider].
  destruct (thread_evolves (poll_run h now) (poll_run_evolves h now) rs1 p1) as [Hq2 Hf2].
  destruct (thread_Forall2 (poll_run h now) (λ p, served h now (lg_calls p)) extends extends_refl
              extends_trans (served_mono h now)
              (λ r p, conj (quiet_extends _ _ (proj1 (poll_run_evolves h now r p)))
                           (poll_run_served h now r p)) rs1 p1) as [_ Hr2].
  destruct (thread (poll_run _ _) _ _) as [rs2 p2]. cbn [fst snd] in *.
  cbn [ex_log ex_runs ex_provider ex_bounds set_runs set_provider]. split; [by etrans|]. split; [done|].
  apply Forall2_same_length_lookup. split.
  { rw (Forall2_length _ _ _ Hf1) (Forall2_length _ _ _ Hf2) //. }
  intros i r r2 Hr Hr2'. destruct (Forall2_lookup_l _ _ _ _ _ Hf1 Hr) as (r1 & Hr1' & He1).
  pose proof (Forall2_lookup_lr _ _ _ _ _ _ Hf2 Hr1' Hr2') as He2.
  pose proof (Forall2_lookup_lr _ _ _ _ _ _ Hr1 Hr Hr1') as Hk1. simpl in Hk1.
  pose proof (Forall2_lookup_lr _ _ _ _ _ _ Hr2 Hr1' Hr2') as Hk2. simpl in Hk2.
  pose proof (evolves_same_ask _ _ _ _ He1) as Ha1. pose proof (evolves_same_ask _ _ _ _ He2) as Ha2.
  split; [unfold same_ask in *; naive_solver congruence|].
  split; [intros Hst; by apply (ev_queued _ _ _ _ He1), (ev_queued _ _ _ _ He2)|].
  destruct Hk2 as [Hk2|(t & x & Ht & Hx & Hin & Hc)]; [left; congruence|]. right. exists t, x.
  split_and!; [|done|done|by rw -(check_run_same h _ now r r1)]. by destruct Ha1 as (_ & _ & _ & _ & <-).
Qed.

End runs.
