(* ===== verification/HelpExecProps.v ===== *)
(** * What the Help executor guarantees

    Over every history of the host: any interleaving of the authority's methods
    with the executor's, for any provider and any change of its state between
    calls. *)

From S2P Require Import Prelude Text Ids Result HelpDigest HelpCorpus HelpCorpusFacts HelpDto.
From S2P Require Import HelpAuthority HelpAuthorityFacts HelpAuthorityProps.
From S2P Require Import HelpExecutor HelpExecInv.

Section props.
Context {SH : Sha256} {P : Type} {PV : Provider P}.

Implicit Types (e : Executor (Logged P)) (h : Authority).

Definition Host : Type := Authority * Executor (Logged P).

Inductive xstep : Host → Host → Prop :=
  | xs_authority n h h' e : hstep n h h' → xstep (h, e) (h', e)
  | xs_submit token g r now h e identity h' e' :
      (Z.of_nat (length (ex_runs e)) < MAX_RUNS)%Z →
      submit token g r now h e = inr (identity, h', e') → xstep (h, e) (h', e')
  | xs_cancel handle now h e : xstep (h, e) (h, cancel handle now e)
  | xs_restart now h e : xstep (h, e) (h, restart now e)
  | xs_tick now h e : xstep (h, e) (h, tick h now e)
  | xs_settle_outcome handle answered now h e : xstep (h, e) (h, settle_outcome handle answered now e)
  | xs_provider p h e : xstep (h, e) (h, set_provider (MkLogged p (ex_log e)) e).

(** A host over an authority in service, with a fresh executor, and what it
    reaches. *)
Definition reaches (b : Bounds) (s : Host) : Prop :=
  ∃ h p, serves h ∧ rtc xstep (h, executor_new b (MkLogged p [])) s.

(** ** Methods that send nothing *)

Definition kept e e' : Prop :=
  quiet (ex_log e) (ex_log e') ∧ ex_bounds e' = ex_bounds e ∧
  length (ex_runs e') = length (ex_runs e) ∧
  ∀ i r', ex_runs e' !! i = Some r' → ∃ r, ex_runs e !! i = Some r ∧ same_ask r r' ∧
    rn_reply r' = rn_reply r ∧ rn_send_certainty r' = rn_send_certainty r.

#[local] Instance kept_refl : Reflexive kept.
Proof. intros e. split_and!; try done. intros i r Hr. by exists r. Qed.

#[local] Instance kept_trans : Transitive kept.
Proof.
  intros a b c (H1 & H2 & H3 & H4) (K1 & K2 & K3 & K4). split_and!; [by etrans|congruence|congruence|].
  intros i r'' Hr''. destruct (K4 i r'' Hr'') as (r' & Hr' & Ha' & Hy' & Hc').
  destruct (H4 i r' Hr') as (r & Hr & Ha & Hy & Hc). exists r. unfold same_ask in *. naive_solver congruence.
Qed.

Lemma kept_insert e e' i r r' :
  quiet (ex_log e) (ex_log e') → ex_bounds e' = ex_bounds e → ex_runs e !! i = Some r →
  ex_runs e' = <[i := r']> (ex_runs e) → same_ask r r' → rn_reply r' = rn_reply r →
  rn_send_certainty r' = rn_send_certainty r → kept e e'.
Proof.
  intros Hq Hb Hr E Ha Hy Hc. split_and!; [done|done|by rw E length_insert|].
  intros j x Hx. rw E in Hx. destruct (decide (i = j)) as [<-|Hne].
  - rw list_lookup_insert_eq in Hx; [|by eapply lookup_lt_Some]. simplify_eq. by exists r.
  - rw list_lookup_insert_ne // in Hx. by exists x.
Qed.

Lemma cancel_kept handle now e : kept e (cancel handle now e).
Proof.
  unfold cancel. destruct (position handle (ex_runs e)) as [[i r]|] eqn:Hp; [|done].
  apply run_position_Some in Hp as [Hr _]. destruct (is_terminal (rn_state r)); [done|].
  cbn [set_cancel_requested rn_state rn_ticket].
  assert (∀ t, quiet (ex_log e) (ex_log e ++ [CallCancel t])) as Hq by (intros t; apply quiet_cancel).
  destruct (rn_state r); [by eapply (kept_insert _ _ i r)|..];
    (destruct (rn_ticket r) as [t|];
      [apply (kept_insert _ _ i r (start_draining now (set_cancel_requested r))); try done; apply Hq
      |by eapply (kept_insert _ _ i r)]).
Qed.

Lemma restart_kept now e : kept e (restart now e).
Proof.
  unfold restart. match goal with |- kept _ (foldl _ ?e0 ?hs) => assert (kept e e0) as H0; [|revert H0; generalize e0, hs] end.
  { split_and!; try done. intros i r Hr. by exists r. }
  intros e0 hs. revert e0. induction hs as [|x hs IH]; intros e0 H0; [done|]. simpl. apply IH.
  etrans; [done|]. apply cancel_kept.
Qed.

Lemma settle_outcome_kept handle answered now e : kept e (settle_outcome handle answered now e).
Proof.
  unfold settle_outcome. destruct (position handle (ex_runs e)) as [[i r]|] eqn:Hp; [|done].
  apply run_position_Some in Hp as [Hr _]. by eapply (kept_insert _ _ i r).
Qed.

(** ** Submission *)

Lemma submit_inr token g r now h e identity h' e' :
  submit token g r now h e = inr (identity, h', e') →
  (length (ex_queue e) < bd_max_queued (ex_bounds e))%nat ∧
  ∃ a x, admit_request token g r now (saturating_add now (bd_deadline_ms (ex_bounds e))) h = inr (a, h') ∧
    x = MkRun identity RQueued g a r None NotSent None None now
          (saturating_add now (bd_deadline_ms (ex_bounds e))) None None false ∧
    identity = MkRunIdentity ("run-" +:+ pad8 (ex_next_id e))
                 ("help-" +:+ pad8 (u64_succ (ex_next_id e))) token (ex_epoch e) ∧
    e' = MkExecutor (ex_bounds e) (ex_provider e) (ex_runs e ++ [x])
           (ex_queue e ++ [ri_handle identity]) (u64_succ (u64_succ (ex_next_id e))) (ex_epoch e)
           (ex_provider_calls e).
Proof.
  unfold submit. intros H. apply result_bind_inr in H as ([] & Hq & H). apply result_ensure_inr, bool_decide_eq_true in Hq.
  split; [done|]. apply result_bind_inr in H as ([a h1] & Ha & H). apply map_err_inr in Ha.
  unfold executor_mint in H. injection H as <- <- <-. eexists a, _. split; [done|]. done.
Qed.

Lemma u64_succ_small n : (n < U64_MAX)%Z → u64_succ n = (n + 1)%Z.
Proof. intros H. unfold u64_succ. rw decide_False //. lia. Qed.

Lemma submit_exec_inv token g r now h e identity h' e' :
  exec_inv e → (Z.of_nat (length (ex_runs e)) < MAX_RUNS)%Z →
  submit token g r now h e = inr (identity, h', e') → exec_inv e'.
Proof.
  intros [H1 H2 H3 H4 H5 H6 H7 H8 [begun H9]] Hroom
    (Hlen & a & x & _ & Hx & Hid & ->)%submit_inr.
  assert (u64_succ (ex_next_id e) = 2 + 2 * Z.of_nat (length (ex_runs e)))%Z as En.
  { rw u64_succ_small H2; unfold MAX_RUNS, U64_MAX in *; lia. }
  assert (ri_handle identity = handle_at (length (ex_runs e))) as Hh by (by rw Hid /= En).
  assert (handle_at (length (ex_runs e)) ∉ ex_queue e) as Hfresh.
  { intros (i & Hi & E%handle_at_inj)%H5. lia. }
  split; cbn [ex_runs ex_queue ex_bounds ex_next_id ex_provider_calls ex_provider].
  - rw length_app /=. lia.
  - rw length_app En u64_succ_small /=; unfold MAX_RUNS, U64_MAX in *; lia.
  - intros i y [Hy|[Hge Hy]]%lookup_app_Some; [by apply H3|].
    apply list_lookup_singleton_Some in Hy as [Hi ->]. replace i with (length (ex_runs e)) by lia.
    by rw Hx -Hh.
  - apply NoDup_app. rw Hh. split_and!; [done| |apply NoDup_singleton].
    intros q Hin Hq%list_elem_of_singleton. by rw Hq in Hin.
  - intros q [Hin|Hin]%elem_of_app; rw length_app /=.
    + destruct (H5 q Hin) as (i & Hi & ->). exists i. split; [lia|done].
    + apply list_elem_of_singleton in Hin as ->. exists (length (ex_runs e)). split; [lia|done].
  - intros i y [Hy|[Hge Hy]]%lookup_app_Some Hst; apply elem_of_app; [left; by eapply H6|right].
    apply list_lookup_singleton_Some in Hy as [Hi ->]. replace i with (length (ex_runs e)) by lia.
    rw Hh. by left.
  - rw length_app /=. lia.
  - unfold capacity_of in *. rw filter_app length_app. subst x. simpl. lia.
  - exists begun. destruct H9 as [K1 K2 K3 K4]. split; [done|done| |].
    + eapply Forall2_impl; [exact K3|]. intros ib qb (E & y & Hy & Hr). split; [done|]. exists y.
      split; [|done]. by apply lookup_app_l_Some.
    + intros i y [Hy|[Hge Hy]]%lookup_app_Some; [by apply K4|].
      apply list_lookup_singleton_Some in Hy as [Hi ->].
      assert ((list_to_map begun : gmap nat Begin) !! i = None) as ->.
      { apply not_elem_of_list_to_map. rw list_elem_of_fmap. intros ([j b] & -> & Hin).
        apply list_elem_of_lookup in Hin as [k Hk].
        destruct (Forall2_lookup_l _ _ _ _ _ K3 Hk) as (qb & _ & _ & z & Hz & _).
        apply lookup_lt_Some in Hz. simpl in *. lia. }
      rw Hx. simpl. tauto.
Qed.

(** ** The host's invariant *)

Lemma tick_promoted h now e :
  exec_inv e → promoted h now (swept h now e) (tick h now e) ∧
  (ex_queue (tick h now e) = [] ∨
   (bd_max_concurrency (ex_bounds e) ≤ capacity_in_use (tick h now e))%nat).
Proof.
  intros Hi. destruct (swept_spec h now e Hi) as (Hi' & _ & Hb & _).
  destruct (promote_loop_promoted (length (ex_queue (swept h now e))) h now _ Hi') as [Hp Hend].
  split; [done|]. rw -Hb. by apply Hend.
Qed.

Lemma xstep_inv s s' : xstep s s' → serves s.1 ∧ exec_inv s.2 → serves s'.1 ∧ exec_inv s'.2.
Proof.
  destruct 1 as [n h h' e Hs|token g r now h e identity h' e' Hroom Hsub|handle now h e|now h e
                |now h e|handle answered now h e|p h e]; simpl; intros [Hv Hi].
  - split; [by eapply serves_step|done].
  - split; [|by eapply submit_exec_inv]. apply submit_inr in Hsub as (_ & a & x & Ha & _).
    by eapply serves_step, hs_admit.
  - split; [done|]. by apply cancel_inv.
  - split; [done|]. by apply restart_inv.
  - split; [done|]. apply (tick_promoted h now e Hi).
  - split; [done|]. by apply settle_outcome_inv.
  - split; [done|]. apply (inv_evolves e); try done. apply Forall2_same_length_lookup. split; [done|].
    intros j x y Hx Hy. simplify_eq/=. by apply run_evolves_refl.
Qed.

Lemma new_inv b (p : P) : exec_inv (executor_new b (MkLogged p [])).
Proof.
  split; simpl; try done; [constructor|by intros q ?%elem_of_nil|lia|apply Nat.le_0_l|].
  exists []. split; simpl; try done. constructor.
Qed.

Lemma rtc_xstep_inv s s' : rtc xstep s s' → serves s.1 ∧ exec_inv s.2 → serves s'.1 ∧ exec_inv s'.2.
Proof. induction 1 as [|x y z Hxy _ IH]; [done|]. intros Hx. apply IH. by eapply xstep_inv. Qed.

Lemma reaches_inv b s : reaches b s → serves s.1 ∧ exec_inv s.2.
Proof. intros (h & p & Hv & Hr). apply (rtc_xstep_inv _ _ Hr). split; [done|apply new_inv]. Qed.

Lemma xstep_bounds s s' : xstep s s' → serves s.1 ∧ exec_inv s.2 → ex_bounds s'.2 = ex_bounds s.2.
Proof.
  destruct 1 as [n h h' e Hs|token g r now h e identity h' e' Hroom Hsub|handle now h e|now h e
                |now h e|handle answered now h e|p h e]; simpl; intros [Hv Hi]; try done.
  - by apply submit_inr in Hsub as (_ & a & x & _ & _ & _ & ->).
  - apply (cancel_kept handle now e).
  - apply (restart_kept now e).
  - destruct (tick_promoted h now e Hi) as [(_ & Eb & _) _]. rw Eb. apply (swept_spec h now e Hi).
  - apply (settle_outcome_kept handle answered now e).
Qed.

Lemma reaches_bounds b s : reaches b s → ex_bounds s.2 = b.
Proof.
  intros (h & p & Hv & Hr).
  assert (∀ s0 s1, rtc xstep s0 s1 → serves s0.1 ∧ exec_inv s0.2 → ex_bounds s1.2 = ex_bounds s0.2) as Hb.
  { induction 1 as [|x y z Hxy _ IH]; [done|]. intros Hx. rw IH; [by eapply xstep_bounds|by eapply xstep_inv]. }
  rw (Hb _ _ Hr); [done|]. split; [done|apply new_inv].
Qed.

(** ** What a step can send and serve *)

(** The ask of run [r], as the authority sees it now. *)
Definition authorized h now (r : Run) : Prop :=
  ∃ p, grant_ok h (ri_session_token (rn_identity r)) (rn_grant r) now p ∧
    request_ok h p (rn_request r) ∧ admission_ok (rn_grant r) (Some (rn_request r)) now (rn_admission r).

Lemma check_run_authorized h cp now r : serves h → check_run h cp now r = inr () → authorized h now r.
Proof.
  intros Hv%serves_corpus H. unfold check_run in H. apply reauthorize_inr in H as (p & Hg & Hr & Ha); [|done].
  exists p. auto.
Qed.

Lemma authorized_same h now r r' : same_ask r r' → authorized h now r' → authorized h now r.
Proof. intros (E1 & E2 & E3 & E4 & _). unfold authorized. by rw E1 E2 E3 E4. Qed.

Lemma quiet_new l l' :
  quiet l l' → ∃ new, l' = l ++ new ∧ ∀ q a, CallBegin q a ∉ new.
Proof.
  intros (new & E & Hn). exists new. split; [done|]. intros q a Hin.
  apply (elem_of_nil (q, a)). rw -Hn. apply list_elem_of_omap. by exists (CallBegin q a).
Qed.

(** Only a tick talks to the provider about a new request. *)
Lemma step_tick_or_quiet s s' :
  xstep s s' → (∃ now, s' = (s.1, tick s.1 now s.2)) ∨ quiet (ex_log s.2) (ex_log s'.2).
Proof.
  intros [n h h' e Hs|token g r now h e identity h' e' Hroom Hsub|handle now h e|now h e
         |now h e|handle answered now h e|p h e]; simpl.
  - by right.
  - apply submit_inr in Hsub as (_ & a & x & _ & _ & _ & ->). by right.
  - right. apply cancel_kept.
  - right. apply restart_kept.
  - left. by exists now.
  - right. apply settle_outcome_kept.
  - by right.
Qed.

(** C4: nothing leaves the host without a check made on the spot.  A request is
    handed to the provider only by a tick, and every one that a tick at time
    [now] hands over belongs to a run that was waiting in the queue and whose
    session, grant, admission and request pass every check at that same [now]
    against the authority of that moment: in particular nothing has expired by
    then, and each passage in it is one the principal may see, with the text
    the corpus has. *)
Theorem sends_authorized b s :
  reaches b s →
  (∀ now, ∃ new, ex_log (tick s.1 now s.2) = ex_log s.2 ++ new ∧ ∀ q a, CallBegin q a ∈ new →
    ∃ i r, ex_runs s.2 !! i = Some r ∧ rn_state r = RQueued ∧ rn_request r = q ∧
      authorized s.1 now r) ∧
  (∀ s', xstep s s' → (∃ now, s' = (s.1, tick s.1 now s.2)) ∨
    ∃ new, ex_log s'.2 = ex_log s.2 ++ new ∧ ∀ q a, CallBegin q a ∉ new).
Proof.
  intros [Hv Hi]%reaches_inv. split.
  - intros now. destruct s as [h e]. simpl in *. destruct (swept_spec h now e Hi) as (_ & Hq & _ & Hf).
    destruct (tick_promoted h now e Hi) as [(_ & _ & (new & El & Hsend) & _) _].
    destruct (quiet_new _ _ Hq) as (new1 & E1 & Hn1). exists (new1 ++ new). split; [rw El E1 assoc //|].
    intros q a [Hin|Hin]%elem_of_app; [by destruct (Hn1 q a)|].
    destruct (Hsend q a Hin) as (i & r' & Hr' & Hst & Hreq & Hc).
    destruct (Forall2_lookup_r _ _ _ _ _ Hf Hr') as (r & Hr & Ha & Hq' & _). exists i, r.
    split_and!; [done|auto|destruct Ha as (_ & _ & _ & Eq & _); congruence|].
    eapply authorized_same; [done|]. by eapply check_run_authorized.
  - intros s' [?|Hq]%step_tick_or_quiet; [by left|right]. by apply quiet_new.
Qed.

(** A reply reaches a run only through the check before serving.  When a
    step of a reachable host changes the reply of a run, the provider answered
    a poll of that run's ticket with exactly that reply in that step, and the
    run passed every check at that moment. *)
Theorem replies_authorized b s s' i r r' :
  reaches b s → xstep s s' → ex_runs s.2 !! i = Some r → ex_runs s'.2 !! i = Some r' →
  rn_reply r' = rn_reply r ∨
  ∃ now t x, rn_ticket r = Some t ∧ rn_reply r' = Some x ∧ CallPoll t now (Replied x) ∈ ex_log s'.2 ∧
    authorized s.1 now r.
Proof.
  intros [Hv Hi]%reaches_inv Hs. revert Hv Hi.
  assert (∀ e e', kept e e' → ex_runs e !! i = Some r → ex_runs e' !! i = Some r' →
            rn_reply r' = rn_reply r) as Hkept.
  { intros e e' (_ & _ & _ & H) Hr Hr'. destruct (H i r' Hr') as (r0 & Hr0 & _ & Hy & _). congruence. }
  destruct Hs as [n h h' e Hs|token g q now h e identity h' e' Hroom Hsub|handle now h e|now h e
                |now h e|handle answered now h e|p h e]; simpl; intros Hv Hi Hr Hr'.
  - left. congruence.
  - apply submit_inr in Hsub as (_ & a & x & _ & _ & _ & ->). left. simpl in Hr'.
    rw lookup_app_l in Hr'; [congruence|by eapply lookup_lt_Some].
  - left. eapply Hkept; [apply cancel_kept|done..].
  - left. eapply Hkept; [apply restart_kept|done..].
  - destruct (swept_spec h now e Hi) as (_ & _ & _ & Hf).
    destruct (tick_promoted h now e Hi) as [(_ & _ & (new & El & _) & Hruns) _].
    destruct (Hruns i r' Hr') as (r1 & Hr1 & _ & _ & _ & _ & Hy & _).
    destruct (Forall2_lookup_lr _ _ _ _ _ _ Hf Hr Hr1) as (Ha & _ & [Hk|(t & x & Ht & Hx & Hin & Hc)]);
      [left; congruence|]. right. exists now, t, x. split_and!; [done|congruence| |].
    + rw El. apply elem_of_app. by left.
    + by eapply check_run_authorized.
  - left. eapply Hkept; [apply settle_outcome_kept|done..].
  - left. simpl in Hr'. congruence.
Qed.

(** C17: at most one send per run, reported as it happened.  In every reachable
    host the requests handed to the provider so far are, in order, those of
    distinct runs; the counter of provider calls is their number; a run that
    was handed over and accepted says [Sent], one whose delivery is unknown
    says [Unknown], and every other run, including one the provider rejected,
    says [NotSent] and has no ticket. *)
Theorem one_send_per_run b s :
  reaches b s →
  ∃ begun : list (nat * Begin),
    NoDup begun.*1 ∧ ex_provider_calls s.2 = length begun ∧
    Forall2 (λ ib qa, qa.2 = ib.2 ∧ ∃ r, ex_runs s.2 !! ib.1 = Some r ∧ rn_request r = qa.1)
      begun (begins (ex_log s.2)) ∧
    ∀ i r, ex_runs s.2 !! i = Some r →
      match (list_to_map begun : gmap nat Begin) !! i with
      | Some (Accepted t) => rn_send_certainty r = Sent ∧ rn_ticket r = Some t
      | Some (Uncertain t) => rn_send_certainty r = Unknown ∧ rn_ticket r = Some t
      | Some Rejected | None => rn_send_certainty r = NotSent ∧ rn_ticket r = None
      end.
Proof.
  intros [_ Hi]%reaches_inv. destruct (xi_log _ Hi) as [begun [H1 H2 H3 H4]]. exists begun.
  split_and!; try done. intros i r Hr. specialize (H4 i r Hr).
  destruct ((list_to_map begun : gmap nat Begin) !! i) as [[]|]; simpl in H4; tauto.
Qed.

(** The executor stays within its bounds.  In every reachable host at most
    [max_concurrency] runs hold a slot, counting the draining and the abandoned
    ones, at most [max_queued] handles wait, no handle waits twice, every
    waiting handle names a run, and handles are distinct. *)
Theorem executor_bounded b s :
  reaches b s →
  (capacity_in_use s.2 ≤ bd_max_concurrency b)%nat ∧ (queued s.2 ≤ bd_max_queued b)%nat ∧
  NoDup (ex_queue s.2) ∧ (∀ q, q ∈ ex_queue s.2 → ∃ r, run s.2 q = Some r) ∧
  NoDup (rn_handle <$> ex_runs s.2).
Proof.
  intros Hr. pose proof (reaches_bounds b s Hr) as <-. apply reaches_inv in Hr as [_ Hi].
  split_and!; [apply Hi|apply Hi|apply Hi| |].
  - intros q (i & Hlt & ->)%(xi_known _ Hi). apply lookup_lt_is_Some in Hlt as [r Hr].
    unfold run, position. destruct (list_find _ _) as [[j x]|] eqn:E; [by exists x|].
    apply list_find_None in E. rw Forall_lookup in E. destruct (E i r Hr). by apply (xi_handles _ Hi).
  - apply NoDup_alt. intros i j q. rw !list_lookup_fmap. intros (x & Hx & ->)%fmap_Some (y & Hy & E)%fmap_Some.
    rw (xi_handles _ Hi i x Hx) (xi_handles _ Hi j y Hy) in E. by apply handle_at_inj.
Qed.

(** C30: a run that was sent is called cancelled or timed out only once the
    provider was seen to have stopped: the log has a poll of its ticket that was
    answered with quiescence or failure. *)
Theorem stops_observed b s i r t :
  reaches b s → ex_runs s.2 !! i = Some r → rn_ticket r = Some t →
  rn_state r = RCancelled ∨ rn_state r = RTimedOut → stopped (ex_log s.2) t.
Proof.
  intros [_ Hi]%reaches_inv Hr Ht Hst. destruct (xi_log _ Hi) as [begun Hb].
  pose proof (bo_runs _ _ _ _ Hb i r Hr) as Hok.
  destruct ((list_to_map begun : gmap nat Begin) !! i) as [b'|]; simpl in Hok; [|destruct Hok; congruence].
  by apply Hok.
Qed.

(** A tick leaves no slot idle while an ask waits: after it the queue is
    empty or every slot is taken.  The loop that promotes needs no more rounds
    than the queue is long. *)
Theorem tick_work_conserving b s now :
  reaches b s →
  ex_queue (tick s.1 now s.2) = [] ∨ capacity_in_use (tick s.1 now s.2) = bd_max_concurrency b.
Proof.
  intros Hr. pose proof (reaches_bounds b s Hr) as Hb. pose proof (reaches_inv b s Hr) as [Hv Hi].
  destruct (tick_promoted s.1 now s.2 Hi) as [(Hi' & Eb & _) [Hq|Hc]]; [by left|]. right.
  pose proof (xi_capacity _ Hi') as Hle. destruct (swept_spec s.1 now s.2 Hi) as (_ & _ & Es & _).
  rw Eb Es Hb in Hle. rw Hb in Hc. unfold capacity_in_use in *. lia.
Qed.

End props.
