(* ===== verification/HelpHost.v ===== *)
(** * The Help commands of the desktop host

    [desktop/src-tauri/src/help.rs]: the commands a renderer may call, over the
    authority and the executor with the provider that refuses everything.  The
    clock is an argument of each command; [poisoned] is the poison flag of the
    mutex, which a panic inside a command would set. *)

From stdpp Require Import pretty.
From S2P Require Import Prelude Text Ids Result HelpDigest HelpCorpus HelpDto HelpAuthority HelpExecutor.

(** ** Projections ([grokptah-help-runtime/src/lib.rs]) *)

Definition project_unavailable (handle : string) (code : PublicErrorCode) : HelpProjection :=
  {| hp_handle := handle; hp_status := PUnavailable; hp_claims := []; hp_error := Some code;
     hp_message := Some (public_error_message code) |}.

Definition status_for (st : RunState) : ProjectionStatus :=
  match st with
  | RQueued => PQueued
  | RRunning | RDraining => PRunning
  | RAnswered => PAnswered
  | RAbstained => PAbstained
  | RDenied | RCancelled | RAbandoned | RTimedOut => PUnavailable
  end.

(** ** The provider seam, wired shut *)

Record DisabledProvider := MkDisabledProvider {}.

#[export] Instance disabled_provider : Provider DisabledProvider := {
  pv_begin _ p := (Rejected, p);
  pv_poll _ _ p := (Quiesced, p);
  pv_cancel _ p := p
}.

Record HelpInner := MkHelpInner {
  hi_authority : Authority;
  hi_executor : Executor DisabledProvider;
  hi_session_token : string
}.

Record HelpState := MkHelpState {
  hs_inner : HelpInner;
  hs_poisoned : bool
}.

Inductive HelpError := MkHelpError (message : string).

Definition UNAVAILABLE : HelpError := MkHelpError "Help is unavailable.".

Definition MAX_CONTEXT_CHUNKS : nat := 16.

Definition HELP_GRANT_TTL_MS : Z := 60000.

Section host.
Context {SH : Sha256}.

(** [with_corpus]; [None] is the panic of [expect]. *)
Definition with_corpus (c : Corpus) (now_ms : Z) : option HelpState :=
  match authority_new c with
  | inl _ => None
  | inr h =>
      let session_token := "help-session-" +:+ pretty now_ms in
      let h := register_session
        {| se_token := session_token; se_session_id := "desktop-window";
           se_principal_id := "desktop-local-user"; se_tenant_id := "local"; se_kind := KMember;
           se_capabilities := ∅; se_visibility_ceiling := Public |} h in
      Some {| hs_inner := {| hi_authority := h;
                             hi_executor := executor_new bounds_default (MkDisabledProvider);
                             hi_session_token := session_token |};
              hs_poisoned := false |}
  end.

(** [embedded_corpus]: [parsed] is the embedded document as serde parses it. *)
Definition embedded_corpus (parsed : Corpus) : CorpusError + Corpus :=
  _ ← verify parsed;
  mret parsed.

Definition help_state_new (parsed : Corpus) (now_ms : Z) : option HelpState :=
  match embedded_corpus parsed with
  | inl _ => None
  | inr c => with_corpus c now_ms
  end.

Definition lock (st : HelpState) : HelpError + HelpInner :=
  if hs_poisoned st then inl UNAVAILABLE else inr (hs_inner st).

Definition projection_for (i : HelpInner) (session handle : string) : HelpError + HelpProjection :=
  match run (hi_executor i) handle with
  | None => inl UNAVAILABLE
  | Some r =>
      _ ← ensure (bool_decide (ri_session_token (rn_identity r) = session)) UNAVAILABLE;
      let status := status_for (rn_state r) in
      if decide (status = PUnavailable)
      then mret (project_unavailable handle (default NotAvailable (run_public_code r)))
      else mret {| hp_handle := handle; hp_status := status; hp_claims := []; hp_error := None;
                   hp_message := None |}
  end.

(** ** Commands: the answer and the state afterwards *)

Definition put (st : HelpState) (h : Authority) (e : Executor DisabledProvider) : HelpState :=
  {| hs_inner := {| hi_authority := h; hi_executor := e;
                    hi_session_token := hi_session_token (hs_inner st) |};
     hs_poisoned := hs_poisoned st |}.

Definition help_ask (ask : HelpAsk) (now : Z) (st : HelpState)
    : (HelpError + HelpProjection) * HelpState :=
  match lock st with
  | inl error => (inl error, st)
  | inr inner =>
      let h := hi_authority inner in
      let e := hi_executor inner in
      match principal_for h (ask_session ask) with
      | None => (inl UNAVAILABLE, st)
      | Some p =>
          let locale := default "en" (ask_locale ask) in
          let chunk_ids := take MAX_CONTEXT_CHUNKS (mf_entries (manifest_for h p) ≫= me_chunk_ids) in
          match build_request p (ask_question ask) locale chunk_ids h with
          | inl _ => (inl UNAVAILABLE, st)
          | inr (request, h) =>
              let '(grant, h) := issue_grant p now HELP_GRANT_TTL_MS h in
              match submit (ask_session ask) grant request now h e with
              | inl _ => (inl UNAVAILABLE, put st h e)
              | inr (ident, h, e) =>
                  let st := put st h (tick h now e) in
                  (projection_for (hs_inner st) (ask_session ask) (ri_handle ident), st)
              end
          end
      end
  end.

Definition help_follow (follow : HelpHandle) (now : Z) (st : HelpState)
    : (HelpError + HelpProjection) * HelpState :=
  match lock st with
  | inl error => (inl error, st)
  | inr inner =>
      let st := put st (hi_authority inner) (tick (hi_authority inner) now (hi_executor inner)) in
      (projection_for (hs_inner st) (hh_session follow) (hh_handle follow), st)
  end.

Definition help_cancel (request : HelpHandle) (now : Z) (st : HelpState)
    : (HelpError + HelpProjection) * HelpState :=
  match lock st with
  | inl error => (inl error, st)
  | inr inner =>
      match run (hi_executor inner) (hh_handle request) with
      | Some r =>
          if decide (ri_session_token (rn_identity r) = hh_session request) then
            let e := cancel (hh_handle request) now (hi_executor inner) in
            let st := put st (hi_authority inner) (tick (hi_authority inner) now e) in
            (projection_for (hs_inner st) (hh_session request) (hh_handle request), st)
          else (inl UNAVAILABLE, st)
      | None => (inl UNAVAILABLE, st)
      end
  end.

Definition help_bounds (st : HelpState) : HelpError + BoundsProjection :=
  inner ← lock st;
  mret (bounds_projection (ex_bounds (hi_executor inner))).

Definition help_visible_corpus (session : string) (st : HelpState) : HelpError + Corpus :=
  inner ← lock st;
  p ← ok_or (principal_for (hi_authority inner) session) UNAVAILABLE;
  mret (visible_corpus (hi_authority inner) p).

Definition help_session (st : HelpState) : HelpError + string :=
  inner ← lock st;
  mret (hi_session_token inner).

End host.
