(* ===== verification/HelpHostProps.v ===== *)
(** * Logging changes nothing

    An executor over a provider does what the executor over the same provider
    with a log does: every method commutes with erasing the log.  So what the
    invariant says of logged executors holds of all. *)

From S2P Require Import Prelude Text Ids Result HelpDigest HelpCorpus HelpCorpusFacts HelpDto HelpAuthority HelpAuthorityFacts HelpAuthorityProps HelpExecutor HelpExecInv HelpExecProps HelpHost.

Section erase.
Context {SH : Sha256} {P : Type} {PV : Provider P}.

Implicit Types (e : Executor (Logged P)).

Definition erase e : Executor P :=
  MkExecutor (ex_bounds e) (lg_inner (ex_provider e)) (ex_runs e) (ex_queue e) (ex_next_id e)
    (ex_epoch e) (ex_provider_calls e).

Definition erase2 {A} (x : A * Logged P) : A * P := (x.1, lg_inner x.2).

Lemma settle_run_erase abandon now r (p : Logged P) :
  settle_run abandon now r (lg_inner p) = erase2 (settle_run abandon now r p).
Proof.
  unfold settle_run. case_decide; [|done]. destruct (rn_ticket r) as [t|]; [|done].
  cbn [pv_poll logged_provider]. destruct (pv_poll t now (lg_inner p)) as [a q].
  destruct a; try done; by case_decide.
Qed.

Lemma poll_run_erase h now r (p : Logged P) :
  poll_run h now r (lg_inner p) = erase2 (poll_run h now r p).
Proof.
  unfold poll_run. case_decide; [|done]. case_decide; [by destruct (rn_ticket r)|].
  destruct (rn_ticket r) as [t|]; [|done]. cbn [pv_poll logged_provider].
  destruct (pv_poll t now (lg_inner p)) as [a q]. destruct a; try done.
  by destruct (reauthorize _ _ _ _ _ _ _).
Qed.

Lemma thread_erase (f : Run → P → Run * P) (g : Run → Logged P → Run * Logged P) rs (p : Logged P) :
  (∀ r p, f r (lg_inner p) = erase2 (g r p)) → thread f rs (lg_inner p) = erase2 (thread g rs p).
Proof.
  intros Hfg. revert p. induction rs as [|r rs IH]; intros p; simpl; [done|]. rw Hfg.
  destruct (g r p) as [r' p']. simpl. rw IH. by destruct (thread g rs p').
Qed.

Lemma settle_draining_erase now e : settle_draining now (erase e) = erase (settle_draining now e).
Proof.
  unfold settle_draining. cbn [erase ex_bounds ex_runs ex_provider].
  rw (thread_erase _ (settle_run (bd_abandon_after_ms (ex_bounds e)) now));
    [by destruct (thread _ _ _)|intros; apply settle_run_erase].
Qed.

Lemma poll_running_erase h now e : poll_running h now (erase e) = erase (poll_running h now e).
Proof.
  unfold poll_running. cbn [erase ex_runs ex_provider].
  rw (thread_erase _ (poll_run h now)); [by destruct (thread _ _ _)|intros; apply poll_run_erase].
Qed.

Lemma start_run_erase h now i r e : start_run h now i r (erase e) = erase (start_run h now i r e).
Proof.
  unfold start_run. destruct (reauthorize _ CQueuePromotion _ _ _ _ _); [done|].
  destruct (reauthorize _ CBeforeSend _ _ _ _ _); [done|].
  cbn [erase ex_provider pv_begin logged_provider]. by destruct (pv_begin _ _).
Qed.

Lemma promote_loop_erase fuel h now e :
  promote_loop fuel h now (erase e) = erase (promote_loop fuel h now e).
Proof.
  revert e. induction fuel as [|fuel IH]; intros e; [done|]. cbn [promote_loop].
  change (capacity_in_use (erase e)) with (capacity_in_use e). cbn [erase ex_bounds ex_queue].
  case_decide; [|done]. destruct (ex_queue e) as [|handle queue]; [done|].
  change (set_queue queue (erase e)) with (erase (set_queue queue e)). cbn [erase ex_runs].
  destruct (position handle _) as [[i r]|]; [|apply IH]. case_decide; [|apply IH].
  change (MkExecutor (ex_bounds (set_queue queue e)) _ _ _ _ _ _) with (erase (set_queue queue e)).
  rw start_run_erase. apply IH.
Qed.

Lemma tick_erase h now e : tick h now (erase e) = erase (tick h now e).
Proof.
  unfold tick, promote. rw settle_draining_erase poll_running_erase. apply promote_loop_erase.
Qed.

Lemma cancel_erase handle now e : cancel handle now (erase e) = erase (cancel handle now e).
Proof.
  unfold cancel. cbn [erase ex_runs]. destruct (position handle (ex_runs e)) as [[i r]|]; [|done].
  destruct (is_terminal (rn_state r)); [done|]. cbn [set_cancel_requested rn_state rn_ticket].
  destruct (rn_state r); try done; by destruct (rn_ticket r).
Qed.

Lemma restart_erase now e : restart now (erase e) = erase (restart now e).
Proof.
  unfold restart. cbn [erase ex_runs ex_bounds ex_provider ex_queue ex_next_id ex_epoch ex_provider_calls].
  generalize (rn_handle <$> filter (λ r, is_terminal (rn_state r) = false) (ex_runs e)) as hs.
  match goal with |- ∀ hs, foldl _ ?e1 hs = erase (foldl _ ?e2 hs) =>
    change e1 with (erase e2); generalize e2 end.
  intros e0 hs. revert e0. induction hs as [|x hs IH]; intros e0; [done|]. simpl.
  rw cancel_erase. apply IH.
Qed.

Lemma settle_outcome_erase handle answered now e :
  settle_outcome handle answered now (erase e) = erase (settle_outcome handle answered now e).
Proof.
  unfold settle_outcome. cbn [erase ex_runs]. by destruct (position handle (ex_runs e)) as [[i r]|].
Qed.

Lemma submit_erase token g r now h e :
  submit token g r now h (erase e) =
  match submit token g r now h e with
  | inl error => inl error
  | inr (ident, h', e') => inr (ident, h', erase e')
  end.
Proof.
  unfold submit. cbn [erase ex_queue ex_bounds]. unfold ensure. case_bool_decide; [|done].
  unfold mbind, result_bind. by destruct (admit_request _ _ _ _ _ _) as [|[a h']].
Qed.

End erase.

(** ** What the desktop host guarantees

    Over every history of commands of a renderer, which may send any session
    token, question and handle at any time. *)

Section props.
Context {SH : Sha256}.

Definition hs_runs (st : HelpState) : list Run := ex_runs (hi_executor (hs_inner st)).

(** The host after some commands. *)
Inductive hosts : HelpState → Prop :=
  | ho_new parsed now st : help_state_new parsed now = Some st → hosts st
  | ho_ask ask now st :
      hosts st → (Z.of_nat (length (hs_runs st)) < MAX_RUNS)%Z → hosts (help_ask ask now st).2
  | ho_follow follow now st : hosts st → hosts (help_follow follow now st).2
  | ho_cancel request now st : hosts st → hosts (help_cancel request now st).2.

(** ** Runs under a provider that refuses everything *)

Definition idle (r : Run) : Prop :=
  rn_ticket r = None ∧
  (rn_state r = RQueued ∨ rn_state r = RDraining ∨ rn_state r = RDenied ∨ rn_state r = RCancelled ∨
   rn_state r = RTimedOut).

(** The run after the provider refused it is settled by the next tick. *)
Definition settled_of (now : Z) (r : Run) : Run :=
  if decide (rn_state r = RDraining)
  then set_finished now (set_state (if rn_cancel_requested r then RCancelled else RTimedOut) r)
  else r.

Lemma settle_idle abandon now r (p : DisabledProvider) :
  idle r → settle_run abandon now r p = (settled_of now r, p).
Proof. intros [Ht _]. unfold settle_run, settled_of. rw Ht. by destruct (decide _). Qed.

Lemma poll_idle h now r (p : DisabledProvider) : idle r → poll_run h now r p = (r, p).
Proof. intros [_ Hs]. unfold poll_run. rw decide_False //. intuition congruence. Qed.

Lemma thread_idle (f : Run → DisabledProvider → Run * DisabledProvider) (g : Run → Run) rs p :
  (∀ r q, idle r → f r q = (g r, q)) → Forall idle rs → thread f rs p = (g <$> rs, p).
Proof.
  intros Hf. induction 1 as [|r rs Hr _ IH]; [done|]. simpl. by rw Hf // IH.
Qed.

Lemma settled_idle now r : idle r → idle (settled_of now r) ∧ rn_state (settled_of now r) ≠ RDraining.
Proof.
  intros [Ht Hs]. unfold settled_of, idle. case_decide as Hd; [|by split].
  simpl. destruct (rn_cancel_requested r); intuition congruence.
Qed.

Lemma capacity_settled rs :
  Forall (λ r, idle r ∧ rn_state r ≠ RDraining) rs → capacity_of rs = 0%nat.
Proof.
  unfold capacity_of. induction 1 as [|r rs [[_ Hs] Hd] _ IH]; [done|]. rw filter_cons.
  rw decide_False; [done|]. destruct (rn_state r); simpl; intuition congruence.
Qed.

(** The executor between two commands: every run idle, at most one queued. *)
Lemma tick_idle h now (e : Executor DisabledProvider) :
  Forall idle (ex_runs e) → (length (ex_queue e) ≤ 1)%nat →
  (0 < bd_max_concurrency (ex_bounds e))%nat →
  tick h now e =
    let e1 := set_runs (settled_of now <$> ex_runs e) e in
    match ex_queue e with
    | [] => e1
    | handle :: queue =>
        match position handle (ex_runs e1) with
        | Some (i, r) =>
            if decide (rn_state r = RQueued) then start_run h now i r (set_queue queue e1)
            else set_queue queue e1
        | None => set_queue queue e1
        end
    end.
Proof.
  intros Hidle Hq Hb. unfold tick.
  assert (Forall idle (settled_of now <$> ex_runs e)) as Hidle'.
  { apply Forall_fmap. eapply Forall_impl; [exact Hidle|]. intros r Hr. apply (settled_idle now r Hr). }
  assert (settle_draining now e = set_runs (settled_of now <$> ex_runs e) e) as ->.
  { unfold settle_draining. rw (thread_idle _ (settled_of now));
      [by destruct e|intros r q; apply settle_idle|done]. }
  unfold poll_running. cbn [set_runs ex_runs ex_provider].
  rw (thread_idle _ id); [|intros r q; apply poll_idle|done]. rw list_fmap_id.
  assert (capacity_of (settled_of now <$> ex_runs e) = 0%nat) as Hcap.
  { apply capacity_settled, Forall_fmap. eapply Forall_impl; [exact Hidle|]. intros r. apply settled_idle. }
  unfold promote. cbn [set_runs set_provider ex_queue]. destruct (ex_queue e) as [|handle queue] eqn:Eq.
  { simpl. destruct e. simpl in *. by subst. }
  destruct queue as [|? ?]; [|simpl in Hq; lia]. cbn [length promote_loop].
  unfold capacity_in_use. cbn [set_runs set_provider ex_runs ex_bounds ex_queue].
  rw Hcap decide_True // Eq. cbn [set_queue set_runs set_provider ex_runs].
  destruct (position handle (settled_of now <$> ex_runs e)) as [[i r]|]; [|done]. by case_decide.
Qed.

Lemma start_run_idle h now i r (e : Executor DisabledProvider) :
  idle r → ∃ r', ex_runs (start_run h now i r e) = <[i := r']> (ex_runs e) ∧ idle r' ∧
    ex_queue (start_run h now i r e) = ex_queue e.
Proof.
  intros [Ht Hs]. unfold start_run.
  destruct (reauthorize _ CQueuePromotion _ _ _ _ _); [eexists; split; [done|]; by split; [split; auto|]|].
  destruct (reauthorize _ CBeforeSend _ _ _ _ _); [eexists; split; [done|]; by split; [split; auto|]|].
  eexists. split; [done|]. split; [|done]. split; auto.
Qed.

Lemma tick_keeps_idle h now (e : Executor DisabledProvider) :
  Forall idle (ex_runs e) → (length (ex_queue e) ≤ 1)%nat →
  (0 < bd_max_concurrency (ex_bounds e))%nat →
  Forall idle (ex_runs (tick h now e)) ∧ ex_queue (tick h now e) = [].
Proof.
  intros Hidle Hq Hb. rw tick_idle //.
  assert (Forall idle (settled_of now <$> ex_runs e)) as Hidle'.
  { apply Forall_fmap. eapply Forall_impl; [exact Hidle|]. intros r Hr. apply (settled_idle now r Hr). }
  cbv zeta. destruct (ex_queue e) as [|handle queue] eqn:Eq; [done|].
  destruct queue; [|simpl in Hq; lia]. cbn [set_runs ex_runs].
  destruct (position handle (settled_of now <$> ex_runs e)) as [[i r]|] eqn:Hp; [|done].
  apply run_position_Some in Hp as [Hr _]. case_decide; [|done].
  destruct (start_run_idle h now i r (set_queue [] (set_runs (settled_of now <$> ex_runs e) e)))
    as (r' & E & Hr' & E'); [by eapply Forall_lookup_1|].
  rw E E'. split; [|done]. by apply Forall_insert.
Qed.

Lemma cancel_keeps_idle handle now (e : Executor DisabledProvider) :
  Forall idle (ex_runs e) → Forall idle (ex_runs (cancel handle now e)).
Proof.
  intros Hidle. unfold cancel. destruct (position handle (ex_runs e)) as [[i r]|] eqn:Hp; [|done].
  apply run_position_Some in Hp as [Hr _]. destruct (is_terminal (rn_state r)); [done|].
  destruct (Forall_lookup_1 _ _ _ _ Hidle Hr) as [Ht Hs]. cbn [set_cancel_requested rn_state rn_ticket]. rw Ht.
  destruct (rn_state r); cbn [set_queue set_runs ex_runs]; apply Forall_insert; try done; split; auto.
Qed.

(** ** The host's invariant *)

Record host_inv (st : HelpState) : Prop := {
  hv_live : hs_poisoned st = false;
  hv_serves : serves (hi_authority (hs_inner st));
  hv_public : ∀ token s, ha_sessions (hi_authority (hs_inner st)) !! token = Some s →
                se_visibility_ceiling s = Public ∧ se_capabilities s = ∅;
  hv_exec : ∃ e, hi_executor (hs_inner st) = erase e ∧ exec_inv e;
  hv_bounds : ex_bounds (hi_executor (hs_inner st)) = bounds_default;
  hv_idle : Forall idle (hs_runs st);
  hv_queue : ex_queue (hi_executor (hs_inner st)) = []
}.

(** A tick, from a state that satisfies the invariant but for one queued run. *)
Lemma tick_host_inv st h (e0 : Executor DisabledProvider) e now :
  hs_poisoned st = false → serves h →
  (∀ token s, ha_sessions h !! token = Some s → se_visibility_ceiling s = Public ∧ se_capabilities s = ∅) →
  e0 = erase e → exec_inv e → ex_bounds e0 = bounds_default → Forall idle (ex_runs e0) →
  (length (ex_queue e0) ≤ 1)%nat → host_inv (put st h (tick h now e0)).
Proof.
  intros Hp Hv Hpub -> Hi Hb Hidle Hq.
  destruct (tick_keeps_idle h now (erase e) Hidle Hq) as [H1 H2]; [rw Hb; simpl; lia|].
  destruct (tick_promoted h now e Hi) as [(Hi' & Eb & _) _].
  split; try done; cbn [put hs_inner hi_executor].
  - exists (tick h now e). by rw tick_erase.
  - rw tick_erase. cbn [erase ex_bounds]. rw Eb. by destruct (swept_spec h now e Hi) as (_ & _ & -> & _).
Qed.

Lemma host_inv_new parsed now st : help_state_new parsed now = Some st → host_inv st.
Proof.
  unfold help_state_new, embedded_corpus, with_corpus. destruct (verify parsed) eqn:Hv; [done|].
  unfold mbind, result_bind, mret, result_ret. destruct (authority_new parsed) as [|h] eqn:Ha; [done|].
  intros [= <-]. split; try done; cbn [hs_inner hi_authority hi_executor].
  - exists parsed, h, (0 + 0)%nat. split; [done|]. eapply hss_step; [apply hss_refl|apply hs_register].
  - intros token s. apply authority_new_inr in Ha as [_ ->]. cbn [register_session ha_sessions].
    intros [[_ <-]|[_ H]]%lookup_insert_Some; [done|]. by rw lookup_empty in H.
  - exists (executor_new bounds_default (MkLogged MkDisabledProvider [])). split; [done|]. apply new_inv.
Qed.

(** ** Commands *)

(** The accepted path of an ask. *)
Definition asked (ask : HelpAsk) (now : Z) (st : HelpState) (ident : RunIdentity) (h : Authority)
    (e : Executor DisabledProvider) : Prop :=
  ∃ p r h1 g h2,
    principal_for (hi_authority (hs_inner st)) (ask_session ask) = Some p ∧
    build_request p (ask_question ask) (default "en" (ask_locale ask))
      (take MAX_CONTEXT_CHUNKS (mf_entries (manifest_for (hi_authority (hs_inner st)) p) ≫= me_chunk_ids))
      (hi_authority (hs_inner st)) = inr (r, h1) ∧
    issue_grant p now HELP_GRANT_TTL_MS h1 = (g, h2) ∧
    submit (ask_session ask) g r now h2 (hi_executor (hs_inner st)) = inr (ident, h, e).

Lemma help_ask_cases ask now st :
  hs_poisoned st = false →
  (help_ask ask now st = (inl UNAVAILABLE, st)) ∨
  (∃ p r h1 g h2,
     principal_for (hi_authority (hs_inner st)) (ask_session ask) = Some p ∧
     build_request p (ask_question ask) (default "en" (ask_locale ask))
       (take MAX_CONTEXT_CHUNKS (mf_entries (manifest_for (hi_authority (hs_inner st)) p) ≫= me_chunk_ids))
       (hi_authority (hs_inner st)) = inr (r, h1) ∧
     issue_grant p now HELP_GRANT_TTL_MS h1 = (g, h2) ∧
     help_ask ask now st = (inl UNAVAILABLE, put st h2 (hi_executor (hs_inner st)))) ∨
  ∃ ident h e, asked ask now st ident h e ∧
    help_ask ask now st =
      (projection_for (hs_inner (put st h (tick h now e))) (ask_session ask) (ri_handle ident),
       put st h (tick h now e)).
Proof.
  intros Hp. unfold help_ask, lock. rw Hp. destruct (principal_for _ _) as [p|] eqn:E1; [|by left].
  destruct (build_request _ _ _ _ _) as [|[r h1]] eqn:E2; [by left|].
  destruct (issue_grant _ _ _ _) as [g h2] eqn:E3. right.
  destruct (submit _ _ _ _ _ _) as [|[[ident h] e]] eqn:E4.
  - left. by exists p, r, h1, g, h2.
  - right. exists ident, h, e. split; [|done]. by exists p, r, h1, g, h2.
Qed.

Lemma asked_frame st p q l ids r h1 now ttl g h2 :
  host_inv st → build_request p q l ids (hi_authority (hs_inner st)) = inr (r, h1) →
  issue_grant p now ttl h1 = (g, h2) →
  serves h2 ∧ ha_sessions h2 = ha_sessions (hi_authority (hs_inner st)).
Proof.
  intros Hi Hb Hg. split.
  - eapply serves_step; [|by eapply hs_issue]. eapply serves_step; [apply Hi|by eapply hs_build].
  - apply build_request_inr in Hb as (-> & _). unfold issue_grant, mint_id in Hg. by injection Hg as <- <-.
Qed.

(** The executor an accepted ask ticks: one more run, queued. *)
Lemma asked_exec ask now st ident h e0 :
  host_inv st → (Z.of_nat (length (hs_runs st)) < MAX_RUNS)%Z → asked ask now st ident h e0 →
  ∃ e x, e0 = erase e ∧ exec_inv e ∧ ex_bounds e0 = bounds_default ∧ Forall idle (ex_runs e0) ∧
    ex_queue e0 = [ri_handle ident] ∧ ex_runs e0 = hs_runs st ++ [x] ∧ rn_identity x = ident ∧
    rn_state x = RQueued ∧ ri_session_token ident = ask_session ask ∧
    ri_handle ident = handle_at (length (hs_runs st)) ∧ rn_cancel_requested x = false ∧ serves h ∧
    ha_sessions h = ha_sessions (hi_authority (hs_inner st)) ∧
    ((now < U64_MAX)%Z → ∀ cp, check_run h cp now x = inr ()).
Proof.
  intros Hi Hroom (p & r & h1 & g & h2 & Hp & Hb & Hg & Hs).
  destruct (asked_frame _ _ _ _ _ _ _ _ _ _ _ Hi Hb Hg) as [Hv Hse].
  destruct (hv_exec _ Hi) as (e & Ee & Hei). unfold hs_runs in *. rw Ee in Hs |- *. rw submit_erase in Hs.
  destruct (submit (ask_session ask) g r now h2 e) as [|[[ident' h'] e']] eqn:Hsub; [done|].
  injection Hs as -> -> <-. pose proof Hsub as (_ & a & x & Ha & Hx & Hid & He')%submit_inr.
  rw Ee in Hroom. cbn [erase ex_runs] in Hroom.
  pose proof (submit_exec_inv _ _ _ _ _ _ _ _ _ Hei Hroom Hsub) as Hsi. exists e', x. subst e'.
  pose proof (hv_queue _ Hi) as Hq. rw Ee in Hq. cbn [erase ex_queue] in Hq.
  pose proof (hv_bounds _ Hi) as Hbd. rw Ee in Hbd. cbn [erase ex_bounds] in Hbd.
  pose proof (hv_idle _ Hi) as Hid'. unfold hs_runs in Hid'. rw Ee in Hid'. cbn [erase ex_runs] in Hid'.
  assert (serves h) as Hvh by (by eapply serves_step, hs_admit).
  apply admit_request_inr in Ha as (Hre & Eh & Had1 & Had2 & Had3 & Hdl & Had4).
  split_and!; try done; cbn [erase ex_runs ex_queue ex_bounds].
  - apply Forall_app. split; [done|]. apply Forall_singleton. subst x. split; auto.
  - by rw Hq.
  - by subst x.
  - by subst x.
  - by subst ident.
  - rw Hid /= (xi_next _ Hei) u64_succ_small; unfold handle_at, MAX_RUNS, U64_MAX in *; [do 2 f_equal; lia|lia].
  - by subst x.
  - by rw Eh.
  - intros Hnow cp. unfold check_run. apply reauthorize_inr; [by apply serves_corpus|].
    apply reauthorize_inr in Hre as (p' & Hg' & Hr' & _); [|by apply serves_corpus]. exists p'.
    subst x h. cbn [rn_identity rn_grant rn_admission rn_request ri_session_token]. rw Hid. split_and!.
    + destruct Hg'. by split.
    + intros r0 [= <-]. destruct (Hr' r eq_refl). by split.
    + intros a0 [= <-]. split; try done; [|by intros r0 [= <-]]. rw Hdl Hbd.
      unfold saturating_add. simpl. lia.
Qed.

Lemma help_ask_inv ask now st :
  host_inv st → (Z.of_nat (length (hs_runs st)) < MAX_RUNS)%Z → host_inv (help_ask ask now st).2.
Proof.
  intros Hi Hroom. destruct (help_ask_cases ask now st (hv_live _ Hi))
    as [->|[(p & r & h1 & g & h2 & _ & Hb & Hg & ->)|(ident & h & e0 & Ha & ->)]]; [done|..]; simpl.
  - destruct (asked_frame _ _ _ _ _ _ _ _ _ _ _ Hi Hb Hg) as [Hv Hse]. destruct Hi. split; try done.
    by cbn; rw Hse.
  - destruct (asked_exec _ _ _ _ _ _ Hi Hroom Ha) as
      (e & x & He & Hei & Hbd & Hid & Hq & _ & _ & _ & _ & _ & _ & Hv & Hse & _).
    eapply (tick_host_inv st h e0 e); try done; [apply Hi|by rw Hse; apply Hi|by rw Hq].
Qed.

Lemma help_follow_inv follow now st : host_inv st → host_inv (help_follow follow now st).2.
Proof.
  intros Hi. unfold help_follow, lock. rw (hv_live _ Hi). simpl.
  destruct (hv_exec _ Hi) as (e & Ee & Hei).
  apply (tick_host_inv st _ _ e); try done; [apply (hv_live _ Hi)|apply (hv_serves _ Hi)|apply (hv_public _ Hi)
    |apply (hv_bounds _ Hi)|apply (hv_idle _ Hi)|rw (hv_queue _ Hi); simpl; lia].
Qed.

Lemma help_cancel_inv request now st : host_inv st → host_inv (help_cancel request now st).2.
Proof.
  intros Hi. unfold help_cancel, lock. rw (hv_live _ Hi). destruct (run _ _) as [r|]; [|done].
  case_decide; [|done]. simpl. destruct (hv_exec _ Hi) as (e & Ee & Hei).
  apply (tick_host_inv st _ _ (cancel (hh_handle request) now e));
    [apply (hv_live _ Hi)|apply (hv_serves _ Hi)|apply (hv_public _ Hi)|..].
  - by rw Ee cancel_erase.
  - by apply cancel_inv.
  - rw Ee cancel_erase. cbn [erase ex_bounds]. destruct (cancel_kept (hh_handle request) now e) as (_ & -> & _).
    rw -(hv_bounds _ Hi) Ee //.
  - apply cancel_keeps_idle, (hv_idle _ Hi).
  - pose proof (hv_queue _ Hi) as Hq. unfold cancel. destruct (position _ _) as [[i x]|]; [|rw Hq; simpl; lia].
    destruct (is_terminal _); [rw Hq; simpl; lia|]. cbn [set_cancel_requested rn_state rn_ticket].
    destruct (rn_state x); try destruct (rn_ticket x); simpl; rw Hq; simpl; lia.
Qed.

Lemma hosts_inv st : hosts st → host_inv st.
Proof.
  induction 1; [by eapply host_inv_new|by apply help_ask_inv|by apply help_follow_inv|by apply help_cancel_inv].
Qed.

(** ** Looking runs up *)

Lemma position_at runs i r :
  (∀ j y, runs !! j = Some y → rn_handle y = handle_at j) → runs !! i = Some r →
  position (handle_at i) runs = Some (i, r).
Proof.
  intros Hh Hr. apply list_find_Some. split_and!; [done|by apply Hh|].
  intros j y Hy Hlt E. rw (Hh j y Hy) in E. apply handle_at_inj in E. lia.
Qed.

Lemma host_run st i r :
  host_inv st → hs_runs st !! i = Some r → run (hi_executor (hs_inner st)) (handle_at i) = Some r.
Proof.
  intros Hi Hr. destruct (hv_exec _ Hi) as (e & Ee & Hei). unfold run. unfold hs_runs in Hr. rw Ee in Hr |- *.
  rw (position_at _ i r); [done|apply (xi_handles _ Hei)|done].
Qed.

(** After an accepted ask the new run is draining, and nothing else waits. *)
Lemma ask_drains ask now st ident h e0 :
  host_inv st → (Z.of_nat (length (hs_runs st)) < MAX_RUNS)%Z → asked ask now st ident h e0 →
  (now < U64_MAX)%Z →
  ∃ x, ex_runs (tick h now e0) !! length (hs_runs st) = Some x ∧ rn_state x = RDraining ∧
    rn_identity x = ident ∧ rn_cancel_requested x = false ∧
    ri_handle ident = handle_at (length (hs_runs st)) ∧ ri_session_token ident = ask_session ask.
Proof.
  intros Hi Hroom Ha Hnow. destruct (asked_exec _ _ _ _ _ _ Hi Hroom Ha) as
    (e & x & He & Hei & Hbd & Hid & Hq & Hruns & Hxi & Hxs & Htok & Hh & Hcr & Hv & _ & Hchk).
  specialize (Hchk Hnow). rw tick_idle; [|done|by rw Hq|rw Hbd; simpl; lia]. cbv zeta. rw Hq Hruns fmap_app.
  assert (settled_of now <$> [x] = [x]) as -> by (unfold settled_of; simpl; rw decide_False //; by rw Hxs).
  cbn [set_runs ex_runs]. set (rs := (settled_of now <$> hs_runs st) ++ [x]).
  assert (rs !! length (hs_runs st) = Some x) as Hx.
  { unfold rs. rw lookup_app_r length_fmap // Nat.sub_diag //. }
  rw Hh (position_at rs _ x); [| |done].
  - rw decide_True //. unfold start_run. unfold check_run in Hchk. rw !Hchk.
    cbn [pv_begin disabled_provider set_queue set_runs ex_provider ex_runs].
    exists (start_draining now x). rw list_lookup_insert_eq; [done|]. by eapply lookup_lt_Some.
  - intros j y. unfold rs. intros [Hy|[Hge Hy]]%lookup_app_Some.
    + rw list_lookup_fmap in Hy. apply fmap_Some in Hy as (z & Hz & ->).
      assert (ex_runs e !! j = Some z) as Hz'.
      { assert (ex_runs e = ex_runs e0) as -> by (by rw He). rw Hruns. by apply lookup_app_l_Some. }
      rw -(xi_handles _ Hei j z Hz'). unfold settled_of, rn_handle. by case_decide.
    + apply list_lookup_singleton_Some in Hy as [Hj <-]. rw length_fmap in Hge, Hj.
      replace j with (length (hs_runs st)) by lia. unfold rn_handle. by rw Hxi.
Qed.

(** With the provider disabled an ask resolves, and never to an answer.  An
    accepted ask reports that it is running, and the next poll by its session,
    at any time, reports that help is unavailable (with the timeout code). *)
Lemma ask_settles ask now st proj st1 now2 :
  hosts st → (Z.of_nat (length (hs_runs st)) < MAX_RUNS)%Z → (now < U64_MAX)%Z →
  help_ask ask now st = (inr proj, st1) →
  hp_status proj = PRunning ∧ hp_claims proj = [] ∧
  (help_follow (MkHelpHandle (ask_session ask) (hp_handle proj)) now2 st1).1
    = inr (project_unavailable (hp_handle proj) Timeout).
Proof.
  intros Hi%hosts_inv Hroom Hnow Hask. pose proof (help_ask_inv ask now st Hi Hroom) as Hi1.
  destruct (help_ask_cases ask now st (hv_live _ Hi)) as [E|[(p & r & h1 & g & h2 & _ & _ & _ & E)|
    (ident & h & e0 & Ha & E)]]; rw E in Hask; [done|done|]. rw E in Hi1. cbn [snd] in Hi1.
  injection Hask as Hproj <-.
  destruct (ask_drains ask now st ident h e0 Hi Hroom Ha Hnow) as (x & Hx & Hst & Hxi & Hcr & Hh & Htok).
  assert (projection_for (hs_inner (put st h (tick h now e0))) (ask_session ask) (ri_handle ident)
          = inr (MkHelpProjection (ri_handle ident) PRunning [] None None)) as Hp.
  { unfold projection_for. rw Hh (host_run _ (length (hs_runs st)) x Hi1); [|done].
    rw Hxi Htok /ensure bool_decide_true // Hst. done. }
  rw Hp in Hproj. injection Hproj as <-. cbn [hp_status hp_claims hp_handle]. split; [done|]. split; [done|].
  set (st1 := put st h (tick h now e0)) in *.
  pose proof (help_follow_inv (MkHelpHandle (ask_session ask) (ri_handle ident)) now2 st1 Hi1) as Hi2.
  unfold help_follow, lock in Hi2 |- *. rw (hv_live _ Hi1) in Hi2 |- *. cbn [snd fst hh_session hh_handle] in *.
  set (st2 := put st1 _ _) in *.
  assert (hs_runs st2 !! length (hs_runs st) = Some (settled_of now2 x)) as Hx2.
  { unfold st2, hs_runs. cbn [put hs_inner hi_executor].
    rw tick_idle; [|apply (hv_idle _ Hi1)|rw (hv_queue _ Hi1); simpl; lia|rw (hv_bounds _ Hi1); simpl; lia].
    cbv zeta. rw (hv_queue _ Hi1). cbn [set_runs ex_runs]. rw list_lookup_fmap. unfold st1. cbn [put hs_inner hi_executor].
    by rw Hx. }
  assert (settled_of now2 x = set_finished now2 (set_state RTimedOut x)) as Es
    by (unfold settled_of; by rw Hst Hcr).
  rw Es in Hx2. unfold projection_for. rw Hh (host_run st2 _ _ Hi2 Hx2).
  cbn [set_finished set_state rn_identity rn_state]. rw Hxi Htok /ensure bool_decide_true //.
Qed.

Lemma host_unsent st r : host_inv st → r ∈ hs_runs st → rn_ticket r = None ∧ rn_send_certainty r = NotSent.
Proof.
  intros Hi Hr. destruct (proj1 (Forall_forall _ _) (hv_idle _ Hi) r Hr) as [Ht _]. split; [done|].
  destruct (hv_exec _ Hi) as (e & Ee & Hei). unfold hs_runs in Hr. rw Ee in Hr.
  apply list_elem_of_lookup in Hr as [i Hr]. destruct (xi_log _ Hei) as [begun Hb].
  pose proof (bo_runs _ _ _ _ Hb i r Hr) as Hok.
  destruct ((list_to_map begun : gmap nat Begin) !! i) as [[]|]; simpl in Hok; rw Ht in Hok; naive_solver.
Qed.

Lemma host_projections st session handle proj :
  host_inv st → projection_for (hs_inner st) session handle = inr proj →
  (∃ r, r ∈ hs_runs st ∧ rn_handle r = handle ∧ ri_session_token (rn_identity r) = session) ∧
  hp_handle proj = handle ∧ hp_claims proj = [] ∧
  (hp_status proj = PRunning ∨ hp_status proj = PUnavailable).
Proof.
  intros Hi. unfold projection_for, run.
  destruct (position _ _) as [[i r]|] eqn:Hp; [|done]. simpl. apply run_position_Some in Hp as [Hr Hh].
  unfold ensure. case_bool_decide; [|done]. unfold mbind, result_bind, mret, result_ret. intros Hpr.
  assert (r ∈ hs_runs st) as Hin by (by eapply list_elem_of_lookup_2).
  split; [by exists r|]. case_decide as Hd; injection Hpr as <-; cbn; [auto|]. split_and!; [done|done|].
  destruct (proj1 (Forall_forall _ _) (hv_idle _ Hi) r Hin) as [_ Hs]. unfold idle in Hs.
  destruct Hs as [Hs|[Hs|Hs]].
  + destruct (hv_exec _ Hi) as (e & Ee & Hei). rw Ee in Hr.
    pose proof (xi_queued _ Hei i r Hr Hs) as Hq. pose proof (hv_queue _ Hi) as Hq0. rw Ee in Hq0.
    cbn [erase ex_queue] in Hq0. rw Hq0 in Hq. by apply elem_of_nil in Hq.
  + left. by rw Hs.
  + destruct Hd. by destruct Hs as [->|[->| ->]].
Qed.



(** What the renderer gets of the corpus is public.  After any commands the
    corpus a session receives passes the verifier, all its articles, chunks and
    sources are public, and none of its articles requires a capability. *)
Theorem host_public_only st session c :
  hosts st → help_visible_corpus session st = inr c →
  verify c = inr () ∧
  (∀ a, a ∈ co_articles c → art_visibility a = Public ∧ art_capability_ids a = []) ∧
  (∀ k, k ∈ co_chunks c → ck_visibility k = Public) ∧
  (∀ s, s ∈ co_sources c → sa_visibility s = Public).
Proof.
  intros Hi%hosts_inv H. unfold help_visible_corpus in H.
  apply result_bind_inr in H as (inner & Hl & H). unfold lock in Hl. rw (hv_live _ Hi) in Hl. injection Hl as <-.
  apply result_bind_inr in H as (p & Hp & [= <-]). apply result_ok_or_inr, fmap_Some in Hp as (s & Hs & ->).
  destruct (hv_public _ Hi _ _ Hs) as [Hceil Hcaps].
  pose proof (serves_corpus _ (hv_serves _ Hi)) as Hc.
  set (h := hi_authority (hs_inner st)) in *. set (p := principal_of s).
  assert (pr_visibility_ceiling p = Public) as Hpc by done.
  assert (∀ v, within (pr_visibility_ceiling p) v → v = Public) as Hw.
  { intros v. rw Hpc. unfold within. destruct v; simpl; [done|lia..]. }
  assert (pr_capabilities p = []) as Hcap.
  { unfold p, principal_of, btree_elements. cbn [pr_capabilities]. by rw Hcaps elements_empty. }
  split_and!; rw (visible_corpus_cut h p Hc).
  - apply verify_inr. apply visible_cut_ok. done.
  - cbn [cut rebind_set_digests co_articles]. intros a (_ & [Hr Hf] & _)%elem_of_visible_articles.
    split; [by apply Hw|]. rw Hcap in Hf. destruct (art_capability_ids a) as [|id ids]; [done|].
    apply Forall_cons in Hf as [Hid _]. set_solver.
  - intros k Hk. by apply Hw, (visible_chunk_within h p k).
  - intros t Ht. by apply Hw, (visible_source_within h p t).
Qed.

(** A handle is of use to its own session only.  A poll or a cancellation
    of another session's run is answered exactly as one of a handle that does
    not exist, and the cancellation changes nothing. *)
Theorem foreign_handle_refused st session handle r now :
  hosts st → r ∈ hs_runs st → rn_handle r = handle → ri_session_token (rn_identity r) ≠ session →
  help_cancel (MkHelpHandle session handle) now st = (inl UNAVAILABLE, st) ∧
  (help_follow (MkHelpHandle session handle) now st).1 = inl UNAVAILABLE ∧
  ∀ unknown, run (hi_executor (hs_inner st)) unknown = None →
    help_cancel (MkHelpHandle session unknown) now st = (inl UNAVAILABLE, st).
Proof.
  intros Hi%hosts_inv Hr Hh Hne. destruct (hv_exec _ Hi) as (e & Ee & Hei).
  apply list_elem_of_lookup in Hr as [i Hr]. pose proof Hr as Hr'. unfold hs_runs in Hr'. rw Ee in Hr'.
  rw -Hh (xi_handles _ Hei i r Hr'). split_and!.
  - unfold help_cancel, lock. rw (hv_live _ Hi). cbn [hh_handle hh_session]. rw (host_run st i r Hi Hr).
    by rw decide_False.
  - pose proof (help_follow_inv (MkHelpHandle session (handle_at i)) now st Hi) as Hi2.
    unfold help_follow, lock in Hi2 |- *. rw (hv_live _ Hi) in Hi2 |- *. cbn [fst snd hh_session hh_handle] in *.
    set (st2 := put st _ _) in *.
    assert (hs_runs st2 !! i = Some (settled_of now r)) as Hr2.
    { unfold st2, hs_runs. cbn [put hs_inner hi_executor].
      rw tick_idle; [|apply (hv_idle _ Hi)|rw (hv_queue _ Hi); simpl; lia|rw (hv_bounds _ Hi); simpl; lia].
      cbv zeta. rw (hv_queue _ Hi). cbn [set_runs ex_runs]. rw list_lookup_fmap. by rw Hr. }
    unfold projection_for. rw (host_run st2 i _ Hi2 Hr2) /ensure bool_decide_false //.
    unfold settled_of. by case_decide.
  - intros unknown Hu. unfold help_cancel, lock. rw (hv_live _ Hi). cbn [hh_handle]. by rw Hu.
Qed.

End props.
