(* ===== verification/HelpRedact.v ===== *)
(** * Redaction of a provider reply

    [grokptah-help-runtime/src/redact.rs].  Strings are byte strings and a
    character is its encoding (see [Chars]). *)

From Stdlib Require Import Ascii.
From S2P Require Import Prelude Text Chars HelpCorpus HelpDto.

Definition PLACEHOLDER : string := "[redacted]".

Record Redacted := MkRedacted {
  rd_text : string;
  rd_counts : list (RedactionKind * nat)
}.

Definition kind_index (k : RedactionKind) : nat :=
  match k with Secret => 0 | Path => 1 | Control => 2 | Bidi => 3 | Markup => 4 end.

(** [Vec::dedup]: drops an element equal to the one before it. *)
Fixpoint dedup {A} `{EqDecision A} (l : list A) : list A :=
  match l with
  | x :: ((y :: _) as l') => if decide (x = y) then dedup l' else x :: dedup l'
  | _ => l
  end.

Definition kinds (r : Redacted) : list RedactionKind :=
  dedup (sort_by (λ a b, Nat.compare (kind_index a) (kind_index b))
           (fst <$> filter (λ kc, 0 < kc.2)%nat (rd_counts r))).

Definition redacted_total (r : Redacted) : nat := sum_list_with snd (rd_counts r).

Definition is_bidi (ch : string) : bool :=
  let c := code_point ch in
  bool_decide (c = 0x200E ∨ c = 0x200F ∨ (0x202A ≤ c ≤ 0x202E) ∨ (0x2066 ≤ c ≤ 0x2069) ∨ c = 0x061C)%Z.

Definition is_disallowed_control (ch : string) : bool :=
  if decide (ch = String "010" "" ∨ ch = String "009" "") then false
  else is_control ch || bool_decide (0x80 ≤ code_point ch ≤ 0x9F)%Z.

Definition SECRET_PREFIXES : list string :=
  ["sk-"; "ghp_"; "gho_"; "github_pat_"; "xoxb-"; "xoxp-"; "AKIA"; "ASIA"].

Definition looks_like_secret (token : string) : bool :=
  existsb (λ prefix, starts_with prefix token) SECRET_PREFIXES ||
  (let body := filter (λ ch, is_ascii_alphanumeric ch = true) (chars token) in
   let has_upper := existsb is_ascii_uppercase body in
   let has_lower := existsb is_ascii_lowercase body in
   let has_digit := existsb is_ascii_digit body in
   let non_alnum := length (filter (λ ch, is_ascii_alphanumeric ch = false) (chars token)) in
   bool_decide (24 ≤ bytes_len body)%nat && has_upper && has_lower && has_digit
   && bool_decide (non_alnum ≤ 2)%nat).

(** [trim_matches] of the four characters. *)
Definition trim_marks (s : string) : string :=
  let marks := ["."; ","; ")"; "("] in
  let s := strip_all (String.length s) marks s in
  string_rev (strip_all (String.length s) marks (string_rev s)).

Definition looks_like_path (token : string) : bool :=
  let trimmed := trim_marks token in
  if decide (String.length trimmed < 4)%nat then false
  else if starts_with "~/" trimmed then true
  else if starts_with "/" trimmed && str_contains "/" (string_drop 1 trimmed) then true
  else match trimmed with
       | String a (String b (String c _)) =>
           bool_decide (3 < String.length trimmed)%nat && is_ascii_alphabetic (String a "")
           && bool_decide (b = ":"%char) && (bool_decide (c = "\"%char) || bool_decide (c = "/"%char))
       | _ => false
       end.

(** ** Markup *)

(** Fenced blocks: what is outside them, and how many opened. *)
Fixpoint strip_fences (fuel : nat) (rest : string) : string * nat :=
  match fuel with
  | O => (rest, 0%nat)
  | S fuel =>
      match str_find "```" rest with
      | None => (rest, 0%nat)
      | Some start =>
          let after := string_drop (start + 3) rest in
          let '(out, count) :=
            match str_find "```" after with
            | Some stop => strip_fences fuel (string_drop (stop + 3) after)
            | None => ("", 0%nat)
            end in
          (string_take start rest +:+ out, S count)
      end
  end.

(** Links: the label is kept, the target dropped. *)
Fixpoint strip_links (fuel : nat) (rest : string) : string * nat :=
  match fuel, rest with
  | S fuel, String c _ =>
      let push :=
        let '(out, count) := strip_links fuel (string_drop (char_width c) rest) in
        (string_take (char_width c) rest +:+ out, count) in
      if decide (c = "["%char) then
        match str_find "](" rest with
        | Some close =>
            match str_find ")" (string_drop close rest) with
            | Some stop =>
                let '(out, count) := strip_links fuel (string_drop (close + stop + 1) rest) in
                (string_take (close - 1) (string_drop 1 rest) +:+ out, S count)
            | None => push
            end
        | None => push
        end
      else push
  | _, _ => ("", 0%nat)
  end.

(** Tags and the remaining markers. *)
Fixpoint strip_tags (in_tag : bool) (l : list string) : list string * nat :=
  match l with
  | [] => ([], 0%nat)
  | ch :: l =>
      if decide (ch = "<") then
        let '(out, count) := strip_tags true l in (out, S count)
      else if in_tag then
        if decide (ch = ">") then strip_tags false l else strip_tags true l
      else if decide (ch = "`" ∨ ch = "*" ∨ ch = "_" ∨ ch = "#") then
        let '(out, count) := strip_tags false l in (out, S count)
      else
        let '(out, count) := strip_tags false l in (ch :: out, count)
  end.

Definition strip_markup (input : string) : string * nat :=
  let '(out, fences) := strip_fences (String.length input) input in
  let '(linked, links) := strip_links (String.length out) out in
  let '(result, tags) := strip_tags false (chars linked) in
  (concat_str result, (fences + links + tags)%nat).

(** ** Tokens *)

(** One token of [split_inclusive], and what it counts as. *)
Definition redact_token (token : string) : string * nat * nat :=
  let trimmed := trim_end token in
  let trailing := string_drop (String.length trimmed) token in
  if decide (trimmed ≠ "" ∧ looks_like_secret trimmed = true) then (PLACEHOLDER +:+ trailing, 1%nat, 0%nat)
  else if decide (trimmed ≠ "" ∧ looks_like_path trimmed = true) then (PLACEHOLDER +:+ trailing, 0%nat, 1%nat)
  else (token, 0%nat, 0%nat).

Definition redact (input : string) : Redacted :=
  let '(markup_stripped, markup_count) := strip_markup input in
  let characters := chars markup_stripped in
  let bidi := length (filter (λ ch, is_bidi ch = true) characters) in
  let control :=
    length (filter (λ ch, is_bidi ch = false ∧ is_disallowed_control ch = true) characters) in
  let cleaned := concat_str (filter (λ ch, is_bidi ch = false ∧ is_disallowed_control ch = false) characters) in
  let tokens := redact_token <$> split_inclusive_whitespace cleaned in
  let out := concat_str ((λ t, t.1.1) <$> tokens) in
  let collapsed := join " " (split_whitespace out) in
  {| rd_text := collapsed;
     rd_counts := [(Secret, sum_list_with (λ t, t.1.2) tokens); (Path, sum_list_with (λ t, t.2) tokens);
                   (Control, control); (Bidi, bidi); (Markup, markup_count)] |}.

(** ** What redaction leaves

    A redacted reply has no control, bidirectional or markup character and no
    word that looks like a secret or a path. *)

(** ** Markup *)

Lemma str_find_Some p s i : str_find p s = Some i → ∃ a b, s = a +:+ p +:+ b ∧ String.length a = i.
Proof.
  revert i. induction s as [|c s IH]; intros i; cbn [str_find]; destruct (starts_with p _) eqn:E; try done.
  - intros [= <-]. apply starts_with_true in E as [b E]. by exists "", b.
  - intros [= <-]. apply starts_with_true in E as [b E]. by exists "", b.
  - intros H. apply fmap_Some in H as (j & Hj & ->). destruct (IH j Hj) as (a & b & -> & <-). by exists (String c a), b.
Qed.

(** The text before an ASCII delimiter and the text after it. *)
Lemma str_find_cut p s i :
  p ≠ "" → ascii_only p = true → utf8_valid s = true → str_find p s = Some i →
  utf8_valid (string_take i s) = true ∧ utf8_valid (string_drop (i + String.length p) s) = true.
Proof.
  intros Hne Hp Hs (a & b & -> & <-)%str_find_Some. destruct (utf8_cut_ascii a p b Hne Hp Hs) as [Ha Hb].
  by rw string_take_app -string_drop_drop !string_drop_app.
Qed.

Lemma strip_fences_valid fuel s : utf8_valid s = true → utf8_valid (strip_fences fuel s).1 = true.
Proof.
  revert s. induction fuel as [|fuel IH]; intros s Hs; cbn [strip_fences]; [done|].
  destruct (str_find "```" s) as [i|] eqn:Hi; [|done].
  destruct (str_find_cut "```" s i ltac:(done) ltac:(done) Hs Hi) as [H1 H2].
  destruct (str_find "```" (string_drop (i + 3) s)) as [j|] eqn:Hj; cbn; [|by rw string_app_nil_r].
  destruct (str_find_cut "```" _ j ltac:(done) ltac:(done) H2 Hj) as [_ H3].
  specialize (IH _ H3). destruct (strip_fences fuel _) as [out n]. by apply utf8_valid_app.
Qed.

Lemma strip_links_valid fuel s : utf8_valid s = true → utf8_valid (strip_links fuel s).1 = true.
Proof.
  revert s. induction fuel as [|fuel IH]; intros [|c s] Hs; try done. cbn [strip_links].
  destruct (utf8_first c s Hs) as (_ & H1 & H2 & _).
  assert (utf8_valid (let '(out, count) := strip_links fuel (string_drop (char_width c) (String c s)) in
    (string_take (char_width c) (String c s) +:+ out, count)).1 = true) as Hpush.
  { specialize (IH _ H2). destruct (strip_links fuel _) as [out n]. by apply utf8_valid_app. }
  case_decide as Hc; [|done]. subst c. destruct (str_find "](" (String "[" s)) as [i|] eqn:Hi; [|done].
  destruct (str_find ")" (string_drop i (String "[" s))) as [j|] eqn:Hj; [|done].
  apply str_find_Some in Hi as (a & b & E & <-). rw E string_drop_app in Hj. rw E in Hs |- *.
  destruct (utf8_cut_ascii a "](" b ltac:(done) ltac:(done) Hs) as [Ha Hb].
  assert (utf8_valid ("](" +:+ b) = true) as Hb' by by apply utf8_valid_app.
  destruct (str_find_cut ")" _ j ltac:(done) ltac:(done) Hb' Hj) as [_ H3].
  rw -Nat.add_assoc -string_drop_drop string_drop_app. specialize (IH _ H3). cbn [String.length] in IH.
  destruct (strip_links fuel _) as [out n]. cbn. apply utf8_valid_app; [|done].
  destruct a as [|c a]; [done|]. cbn in E. injection E as <- _.
  cbn. rw Nat.sub_0_r string_take_app.
  by destruct (utf8_cut_ascii "" "[" a ltac:(done) ltac:(done) Ha).
Qed.

(** The markers of the last pass. *)
Definition markers : list string := ["<"; "`"; "*"; "_"; "#"].

Lemma strip_tags_clean in_tag l ch : ch ∈ (strip_tags in_tag l).1 → ch ∈ l ∧ ch ∉ markers.
Proof.
  revert in_tag. induction l as [|x l IH]; intros in_tag; cbn [strip_tags]; [by intros ?%elem_of_nil|].
  assert (∀ t, ch ∈ (strip_tags t l).1 → ch ∈ x :: l ∧ ch ∉ markers) as IH' by (intros t [H1 H2]%IH; by split; [right|]).
  case_decide as H1; [by specialize (IH' true); destruct (strip_tags true l)|].
  destruct in_tag; [by case_decide; apply IH'|]. specialize (IH' false). destruct (strip_tags false l) as [out n].
  case_decide as H2; [done|]. cbn in *. intros [->|Hin]%elem_of_cons; [|by apply IH']. split; [by left|].
  unfold markers. set_unfold. tauto.
Qed.

(** The characters [strip_markup] leaves, before they are put together. *)
Lemma strip_markup_clean input :
  utf8_valid input = true →
  ∃ l, (strip_markup input).1 = concat_str l ∧ Forall (λ ch, whole ch ∧ utf8_valid ch = true ∧ ch ∉ markers) l.
Proof.
  intros Hv. unfold strip_markup. pose proof (strip_fences_valid (String.length input) input Hv) as H1.
  destruct (strip_fences _ _) as [out n1]. pose proof (strip_links_valid (String.length out) out H1) as H2.
  destruct (strip_links _ _) as [linked n2]. pose proof (strip_tags_clean false (chars linked)) as H3.
  destruct (strip_tags _ _) as [result n3]. exists result. split; [done|]. apply Forall_forall. intros ch Hch.
  destruct (H3 ch Hch) as [Hin Hm]. apply utf8_chars in H2. rw Forall_forall in H2. destruct (H2 ch Hin). done.
Qed.

(** ** Tokens and words *)

Definition scalar (ch : string) : Prop := whole ch ∧ utf8_valid ch = true.

(** A character of a word. *)
Definition inner (ch : string) : Prop := scalar ch ∧ is_whitespace ch = false.

Lemma white_space_scalar ch : is_whitespace ch = true → scalar ch.
Proof.
  unfold is_whitespace. rw bool_decide_eq_true. revert ch. apply Forall_forall.
  apply (Forall_impl (λ p, match p with "" => false | String c _ => bool_decide (String.length p = char_width c) end
                           && utf8_valid p = true)).
  - apply Forall_forall. intros p Hp. apply list_elem_of_In in Hp. revert p Hp. apply forallb_forall. by vm_compute.
  - intros p [H1 H2]%andb_true_iff. split; [|done]. destruct p as [|c r]; [done|]. exists c, r.
    by apply bool_decide_eq_true in H1.
Qed.

Lemma scalar_concat l : Forall scalar l → chars (concat_str l) = l ∧ utf8_valid (concat_str l) = true.
Proof.
  intros Hl. split; [apply chars_concat|apply utf8_concat]; (eapply Forall_impl; [done|]); by intros ? [].
Qed.

Lemma inner_scalar l : Forall inner l → Forall scalar l.
Proof. intros Hl. eapply Forall_impl; [done|]. by intros ? []. Qed.

(** Nothing of a word is white space at its end. *)
Lemma word_no_trim w : Forall inner w → strip_any (string_rev <$> white_space) (string_rev (concat_str w)) = None.
Proof.
  intros Hw. destruct (scalar_concat w (inner_scalar w Hw)) as [Hc Hv]. apply strip_any_None.
  intros p r (ws & -> & Hws)%list_elem_of_fmap E. apply (f_equal string_rev) in E.
  rw string_rev_concat !string_rev_involutive in E.
  assert (is_whitespace ws = true) as Hb by by apply bool_decide_eq_true.
  destruct (white_space_scalar ws Hb) as [H1 H2]. destruct (chars_snoc _ _ _ Hv E H1 H2) as [_ Es].
  rw Hc in Es. rw Es in Hw. apply Forall_app in Hw as [_ Hw]. apply Forall_singleton in Hw as [_ Hw]. congruence.
Qed.

Lemma trim_end_word w : Forall inner w → trim_end (concat_str w) = concat_str w.
Proof.
  intros Hw. unfold trim_end. rw strip_all_stop; [by rw string_rev_involutive|]. by apply word_no_trim.
Qed.

Lemma trim_end_token w t : Forall inner w → is_whitespace t = true → trim_end (concat_str w +:+ t) = concat_str w.
Proof.
  intros Hw Ht. destruct (white_space_scalar t Ht) as [Ht1 Ht2].
  destruct (scalar_concat w (inner_scalar w Hw)) as [Hc Hv]. pose proof (whole_pos t Ht1) as Hpos.
  pose proof (string_length_app (concat_str w) t) as Hl.
  unfold trim_end. destruct (String.length (concat_str w +:+ t)) as [|n]; [lia|]. cbn [strip_all].
  destruct (strip_any _ _) as [r|] eqn:E.
  - apply strip_any_Some in E as (p & (ws & -> & Hws)%list_elem_of_fmap & E). apply (f_equal string_rev) in E.
    rw string_rev_involutive string_rev_concat string_rev_involutive in E.
    assert (is_whitespace ws = true) as Hb by by apply bool_decide_eq_true.
    destruct (white_space_scalar ws Hb) as [H1 H2].
    assert (utf8_valid (concat_str w +:+ t) = true) as Hv' by by apply utf8_valid_app.
    destruct (chars_snoc _ _ _ Hv' E H1 H2) as [_ E1]. destruct (chars_snoc _ _ _ Hv' eq_refl Ht1 Ht2) as [_ E2].
    rw E1 in E2. apply app_inj_tail in E2 as [E2 _]. apply (f_equal concat_str) in E2. rw !concat_chars in E2.
    rw -(string_rev_involutive r) E2. rw strip_all_stop; [by rw string_rev_involutive|]. by apply word_no_trim.
  - exfalso. apply (proj1 (strip_any_None _ _) E (string_rev t) (string_rev (concat_str w))).
    + apply list_elem_of_fmap. exists t. split; [done|]. by apply bool_decide_eq_true in Ht.
    + by rw string_rev_concat.
Qed.

(** What becomes of a word. *)
Definition redact_word (w : string) : string :=
  if decide (w ≠ "" ∧ (looks_like_secret w = true ∨ looks_like_path w = true)) then PLACEHOLDER else w.

(** The word a run of characters makes. *)
Definition word_of (l : list string) : list string := match l with [] => [] | _ => [concat_str l] end.

Lemma split_whitespace_word cur l c rest :
  Forall inner l → is_whitespace c = true →
  split_whitespace_from cur (l ++ c :: rest) = word_of (cur ++ l) ++ split_whitespace_from [] rest.
Proof.
  intros Hl Hc. revert cur. induction Hl as [|x l [_ Hx] _ IH]; intros cur; cbn [app split_whitespace_from].
  - by rw Hc app_nil_r.
  - by rw Hx IH -assoc.
Qed.

Lemma split_whitespace_end cur l : Forall inner l → split_whitespace_from cur l = word_of (cur ++ l).
Proof.
  intros Hl. revert cur. induction Hl as [|x l [_ Hx] _ IH]; intros cur; cbn [split_whitespace_from].
  - by rw app_nil_r.
  - by rw Hx IH -assoc.
Qed.

(** The characters of what becomes of a word. *)
Lemma redact_word_inner cur :
  Forall inner cur → ∃ l, Forall inner l ∧ redact_word (concat_str cur) = concat_str l ∧ word_of l = redact_word <$> word_of cur.
Proof.
  intros Hcur. unfold redact_word. case_decide as Hw.
  - assert (Forall inner (chars PLACEHOLDER)) as Hp.
    { apply Forall_forall. intros ch Hch. split; [split|].
      - pose proof (utf8_whole PLACEHOLDER ltac:(done)) as H. rw Forall_forall in H. by apply H.
      - pose proof (utf8_chars PLACEHOLDER ltac:(done)) as H. rw Forall_forall in H. by apply H.
      - revert ch Hch. apply Forall_forall. repeat constructor. }
    exists (chars PLACEHOLDER). split_and!; [done|by rw concat_chars|].
    destruct cur as [|x cur]; [by destruct Hw|]. cbn [word_of fmap list_fmap]. unfold redact_word. by rw decide_True.
  - exists cur. split_and!; [done..|]. destruct cur as [|x cur]; [done|]. cbn [word_of fmap list_fmap].
    unfold redact_word. by rw decide_False.
Qed.

Lemma redact_token_word w t :
  trim_end (w +:+ t) = w → (redact_token (w +:+ t)).1.1 = redact_word w +:+ t.
Proof.
  intros E. unfold redact_token, redact_word. rw E string_drop_app.
  destruct (looks_like_secret w), (looks_like_path w); repeat case_decide; cbn; try done; naive_solver.
Qed.

(** The words of the redacted tokens are the redacted words. *)
Lemma redact_words cur l :
  Forall inner cur → Forall scalar l →
  let out := concat_str ((λ t, (redact_token t).1.1) <$> split_inclusive_from cur l) in
  utf8_valid out = true ∧ split_whitespace out = redact_word <$> split_whitespace_from cur l.
Proof.
  intros Hcur Hl. revert cur Hcur. induction Hl as [|c l Hc Hl IH]; intros cur Hcur; cbn [split_inclusive_from split_whitespace_from].
  - destruct (redact_word_inner cur Hcur) as (w & Hw & Ew & Eo).
    destruct (scalar_concat w (inner_scalar w Hw)) as [Hwc Hwv]. fold (word_of cur).
    assert (∀ P : string → Prop, (cur = [] → P "") → P (concat_str w) →
      P (concat_str ((λ t, (redact_token t).1.1) <$> word_of cur))) as HP.
    { intros P H0 H1. destruct cur as [|x cur]; [by apply H0|]. cbn [word_of fmap list_fmap]. rw concat_str_one.
      rw -{1}(string_app_nil_r (concat_str (x :: cur))) redact_token_word; [|by rw string_app_nil_r trim_end_word].
      by rw string_app_nil_r Ew. }
    apply HP; [by intros ->|]. split; [done|]. unfold split_whitespace. rw Hwc split_whitespace_end // app_nil_l.
  - destruct (is_whitespace c) eqn:Hcw; [|apply IH, Forall_app; by rw Forall_singleton].
    destruct (redact_word_inner cur Hcur) as (w & Hw & Ew & Eo).
    destruct (scalar_concat w (inner_scalar w Hw)) as [Hwc Hwv]. destruct (IH [] ltac:(constructor)) as [IH1 IH2].
    rw fmap_cons concat_str_app concat_str_one redact_token_word; [|by apply trim_end_token].
    change (concat_str (?x :: ?y)) with (x +:+ concat_str y). rw Ew. split.
    + apply utf8_valid_app; [apply utf8_valid_app; [done|by apply Hc]|done].
    + unfold split_whitespace in *. rw string_app_assoc chars_app // Hwc chars_whole; [|by apply Hc].
      rw split_whitespace_word // app_nil_l IH2 fmap_app Eo. done.
Qed.

(** A word, of characters among [l]. *)
Definition word_in (l : list string) (w : string) : Prop :=
  ∃ wl, wl ≠ [] ∧ Forall inner wl ∧ w = concat_str wl ∧ wl ⊆ l.

Lemma split_words cur l :
  Forall inner cur → Forall scalar l → Forall (word_in (cur ++ l)) (split_whitespace_from cur l).
Proof.
  assert (∀ cur l, Forall inner cur → cur ⊆ l → Forall (word_in l) (word_of cur)) as Hword.
  { intros [|x w] l' Hw Hin; constructor; [|constructor]. by exists (x :: w). }
  intros Hcur Hl. revert cur Hcur. induction Hl as [|c l Hc Hl IH]; intros cur Hcur; cbn [split_whitespace_from].
  - apply Hword; [done|set_solver].
  - destruct (is_whitespace c) eqn:Hcw.
    + apply Forall_app. split; [apply Hword; [done|set_solver]|].
      eapply Forall_impl; [apply (IH []); constructor|]. intros w (wl & H1 & H2 & H3 & H4). exists wl.
      split_and!; [done..|]. set_solver.
    + rw cons_middle assoc. apply IH, Forall_app. by rw Forall_singleton.
Qed.

Lemma word_chars l w : word_in l w → utf8_valid w = true ∧ Forall inner (chars w) ∧ chars w ⊆ l ∧ chars w ≠ [].
Proof.
  intros (wl & Hne & Hi & -> & Hin). destruct (scalar_concat wl (inner_scalar wl Hi)) as [E Hv]. by rw E.
Qed.

Lemma join_words l ws :
  Forall (word_in l) ws →
  utf8_valid (join " " ws) = true ∧ split_whitespace (join " " ws) = ws ∧ chars (join " " ws) ⊆ " " :: l.
Proof.
  unfold split_whitespace. induction 1 as [|w ws Hw Hws IH]; [split_and!; [done|done|set_solver]|].
  destruct (word_chars l w Hw) as (Hv & Hi & Hin & Hne).
  assert (word_of (chars w) = [w]) as Ew by (destruct (chars w) eqn:E; [done|]; cbn [word_of]; by rw -E concat_chars).
  destruct ws as [|w' ws].
  - unfold join. cbn [String.concat]. split_and!; [done| |set_solver]. by rw split_whitespace_end // app_nil_l.
  - change (join " " (w :: w' :: ws)) with (w +:+ " " +:+ join " " (w' :: ws)).
    destruct IH as (H1 & H2 & H3). split_and!.
    + apply utf8_valid_app; [done|]. by apply utf8_valid_app.
    + rw chars_app // chars_whole; [|by exists " "%char, ""]. by rw split_whitespace_word // app_nil_l Ew H2.
    + rw chars_app // chars_whole; [|by exists " "%char, ""]. set_solver.
Qed.

(** The characters a redacted reply is made of. *)
Definition clean_char (ch : string) : bool :=
  negb (is_bidi ch) && negb (is_disallowed_control ch) && bool_decide (ch ∉ markers).

Definition clean_word (w : string) : bool := negb (looks_like_secret w) && negb (looks_like_path w).

Lemma clean_placeholder : clean_word PLACEHOLDER = true ∧ Forall (λ ch, clean_char ch = true) (" " :: chars PLACEHOLDER).
Proof. split; [by vm_compute|]. repeat constructor; by vm_compute. Qed.

Lemma redact_word_clean l w :
  word_in l w → word_in (l ++ chars PLACEHOLDER) (redact_word w) ∧ clean_word (redact_word w) = true.
Proof.
  intros (wl & Hne & Hi & -> & Hin). destruct (redact_word_inner wl Hi) as (wl' & H1 & H2 & H3). split.
  - exists wl'. split_and!; [by destruct wl, wl'|done..|]. unfold redact_word in H2. case_decide.
    + apply (f_equal chars) in H2. rw (proj1 (scalar_concat _ (inner_scalar _ H1))) in H2. set_solver.
    + apply (f_equal chars) in H2. rw !(proj1 (scalar_concat _ (inner_scalar _ _))) // in H2. set_solver.
  - unfold redact_word. case_decide as Hd; [by apply clean_placeholder|]. unfold clean_word.
    assert (concat_str wl ≠ "") as Hw.
    { intros E. apply (f_equal chars) in E. by rw (proj1 (scalar_concat _ (inner_scalar _ Hi))) in E. }
    destruct (looks_like_secret _), (looks_like_path _); cbn; tauto.
Qed.

(** ** Secrets and paths, without the code

    A word carries a credential when it starts with the prefix of one, or when
    it is long and mixes capital letters, small letters and digits with at most
    two other characters.  It carries a path when, apart from full stops, commas
    and parentheses at its ends, it starts with the home directory, the root and
    a directory, or a drive. *)
Definition credential_prefixes : list string := ["sk-"; "xoxb-"; "xoxp-"; "AKIA"; "ASIA"].

Definition upper (ch : string) : Prop := (65 ≤ code_point ch ≤ 90)%Z.
Definition lower (ch : string) : Prop := (97 ≤ code_point ch ≤ 122)%Z.
Definition digit (ch : string) : Prop := (48 ≤ code_point ch ≤ 57)%Z.
Definition alnum (ch : string) : Prop := upper ch ∨ lower ch ∨ digit ch.

#[global] Instance alnum_dec ch : Decision (alnum ch).
Proof. unfold alnum, upper, lower, digit. apply _. Defined.

Definition credential (w : string) : Prop :=
  (∃ p r, p ∈ credential_prefixes ∧ w = p +:+ r) ∨
  (24 ≤ length (filter alnum (chars w)))%nat ∧ (length (filter (λ ch, ¬ alnum ch) (chars w)) ≤ 2)%nat ∧
  Exists upper (chars w) ∧ Exists lower (chars w) ∧ Exists digit (chars w).

Definition mark_chars : list ascii := ["."; ","; ")"; "("]%char.

Definition marks_only (s : string) : Prop := string_forall (λ c, bool_decide (c ∈ mark_chars)) s = true.

Definition located (body : string) : Prop :=
  (∃ r, body = "~/" +:+ r ∧ (2 ≤ String.length r)%nat) ∨
  (∃ dir r, body = "/" +:+ dir +:+ "/" +:+ r ∧ (4 ≤ String.length body)%nat) ∨
  (∃ drive slash r, body = String drive (String ":" (String slash r)) ∧ (upper (String drive "") ∨ lower (String drive ""))
     ∧ (slash = "/"%char ∨ slash = "\"%char) ∧ r ≠ "").

Definition file_path (w : string) : Prop :=
  ∃ lead body last trail, w = lead +:+ (body +:+ String last "") +:+ trail ∧
    marks_only lead ∧ marks_only trail ∧ (last ∉ mark_chars) ∧ located (body +:+ String last "").

Lemma alnum_spec ch : is_ascii_alphanumeric ch = true ↔ alnum ch.
Proof.
  unfold is_ascii_alphanumeric, is_ascii_alphabetic, is_ascii_uppercase, is_ascii_lowercase, is_ascii_digit.
  rw !orb_true_iff !bool_decide_eq_true. unfold alnum, upper, lower, digit. tauto.
Qed.

Lemma existsb_alnum (f : string → bool) (P : string → Prop) l :
  (∀ ch, P ch → f ch = true ∧ alnum ch) → Exists P l →
  existsb f (filter (λ ch, is_ascii_alphanumeric ch = true) l) = true.
Proof.
  intros Hf (ch & Hin & Hch)%Exists_exists. destruct (Hf ch Hch) as [H1 H2]. apply existsb_exists.
  exists ch. split; [|done]. apply list_elem_of_In, list_elem_of_filter. by rw alnum_spec.
Qed.

Lemma whole_bytes l : Forall whole l → (length l ≤ bytes_len l)%nat.
Proof. induction 1 as [|ch l Hch _ IH]; [done|]. apply whole_pos in Hch. unfold bytes_len in *. cbn. lia. Qed.

Lemma credential_seen w : utf8_valid w = true → credential w → looks_like_secret w = true.
Proof.
  intros Hv [(p & r & Hp & ->)|(Hn & Ho & Hu & Hl & Hd)]; unfold looks_like_secret; apply orb_true_iff.
  - left. apply existsb_exists. exists p. split; [apply list_elem_of_In; unfold SECRET_PREFIXES, credential_prefixes in *; set_solver|].
    apply starts_with_true. by exists r.
  - right. rw !andb_true_iff !bool_decide_eq_true. split_and!.
    + etrans; [exact Hn|]. etrans; [|apply whole_bytes, Forall_forall; intros ch [_ Hch]%list_elem_of_filter;
        by eapply Forall_forall; [apply utf8_whole|]].
      apply Nat.eq_le_incl. f_equal. apply list_filter_iff. intros ch. by rw alnum_spec.
    + eapply existsb_alnum; [|exact Hu]. intros ch Hc. unfold is_ascii_uppercase. rw bool_decide_eq_true. unfold alnum. auto.
    + eapply existsb_alnum; [|exact Hl]. intros ch Hc. unfold is_ascii_lowercase. rw bool_decide_eq_true. unfold alnum. auto.
    + eapply existsb_alnum; [|exact Hd]. intros ch Hc. unfold is_ascii_digit. rw bool_decide_eq_true. unfold alnum. auto.
    + etrans; [|exact Ho]. apply Nat.eq_le_incl. f_equal. apply list_filter_iff. intros ch.
      by rw -alnum_spec not_true_iff_false.
Qed.

Definition MARKS : list string := ["."; ","; ")"; "("].

Lemma strip_mark c s : c ∈ mark_chars → strip_any MARKS (String c s) = Some s.
Proof.
  unfold mark_chars. rw !elem_of_cons elem_of_nil. intros [->|[->|[->|[->|[]]]]]; reflexivity.
Qed.

Lemma strip_no_mark c s : c ∉ mark_chars → strip_any MARKS (String c s) = None.
Proof.
  intros Hc. apply strip_any_None. intros p r Hp E. apply Hc. unfold MARKS in Hp.
  rw !elem_of_cons elem_of_nil in Hp. destruct Hp as [->|[->|[->|[->|[]]]]]; injection E as -> _; set_solver.
Qed.

Lemma strip_marks fuel lead c s :
  marks_only lead → c ∉ mark_chars → (String.length lead ≤ fuel)%nat →
  strip_all fuel MARKS (lead +:+ String c s) = String c s.
Proof.
  intros Hl Hc. revert lead Hl. induction fuel as [|fuel IH]; intros [|x lead] Hl Hf; cbn in Hf; try done; try lia.
  - by apply strip_all_stop, strip_no_mark.
  - unfold marks_only in Hl. cbn in Hl. apply andb_true_iff in Hl as [Hx%bool_decide_eq_true Hl].
    rw string_app_cons. cbn [strip_all]. rw strip_mark //. apply IH; [done|lia].
Qed.

Lemma trim_marks_body lead body last trail first rest :
  marks_only lead → marks_only trail → first ∉ mark_chars → last ∉ mark_chars →
  body +:+ String last "" = String first rest →
  trim_marks (lead +:+ (body +:+ String last "") +:+ trail) = body +:+ String last "".
Proof.
  intros Hl Ht Hf Hz E. unfold trim_marks. fold MARKS.
  assert (strip_all (String.length (lead +:+ (body +:+ String last "") +:+ trail)) MARKS
            (lead +:+ (body +:+ String last "") +:+ trail) = (body +:+ String last "") +:+ trail) as ->.
  { rw E string_app_cons strip_marks //. rw !string_length_app. lia. }
  rw string_rev_concat string_rev_snoc strip_marks //.
  - by rw -string_rev_snoc string_rev_involutive.
  - unfold marks_only. by rw string_forall_rev.
  - rw string_rev_length !string_length_app. lia.
Qed.

Lemma located_first body : located body → ∃ first rest, body = String first rest ∧ first ∉ mark_chars.
Proof.
  unfold mark_chars. intros [(r & -> & _)|[(dir & r & -> & _)|(drive & slash & r & -> & Hd & _)]].
  - eexists _, _. split; [done|]. set_solver.
  - eexists _, _. split; [done|]. set_solver.
  - eexists _, _. split; [done|]. unfold upper, lower, code_point in Hd.
    rw !elem_of_cons elem_of_nil. intros [->|[->|[->|[->|[]]]]]; vm_compute in Hd; naive_solver.
Qed.

Lemma contains_slash a b : str_contains "/" (a +:+ "/" +:+ b) = true.
Proof. induction a as [|c a IH]; [done|]. rw string_app_cons. cbn [str_contains]. rw IH orb_true_r //. Qed.

Lemma located_path token body : trim_marks token = body → located body → looks_like_path token = true.
Proof.
  intros Hb Hl. unfold looks_like_path. cbv zeta. rw Hb. clear Hb.
  destruct Hl as [(r & -> & Hr)|[(dir & r & -> & Hr)|(drive & slash & r & -> & Hd & Hs & Hr)]].
  - rw decide_False; [done|]. rw string_length_app. cbn. lia.
  - rw decide_False; [|lia]. assert (starts_with "/" ("/" +:+ dir +:+ "/" +:+ r) = true) as -> by done.
    change (string_drop 1 ("/" +:+ dir +:+ "/" +:+ r)) with (dir +:+ "/" +:+ r). rw contains_slash.
    by destruct (starts_with "~/" ("/" +:+ dir +:+ "/" +:+ r)).
  - rw decide_False; [|destruct r; cbn; [done|lia]]. do 2 (case_match; [done|]).
    rw bool_decide_eq_true_2; [|destruct r; cbn; [done|lia]]. unfold is_ascii_alphabetic.
    assert (is_ascii_uppercase (String drive "") || is_ascii_lowercase (String drive "") = true) as ->.
    { unfold is_ascii_uppercase, is_ascii_lowercase. rw orb_true_iff !bool_decide_eq_true. done. }
    by destruct Hs as [->| ->].
Qed.

Lemma file_path_seen w : file_path w → looks_like_path w = true.
Proof.
  intros (lead & body & last & trail & -> & Hl & Ht & Hz & Hloc).
  destruct (located_first _ Hloc) as (first & rest & E & Hf).
  eapply located_path; [|exact Hloc]. by eapply trim_marks_body.
Qed.

(** ** Characters *)

(** A character that only shows: no control character, no bidirectional mark or
    override, no marker of markup. *)
Definition shows (ch : string) : Prop :=
  let c := code_point ch in
  (32 ≤ c)%Z ∧ ¬ (127 ≤ c ≤ 159)%Z ∧
  (c ∉ [0x61C; 0x200E; 0x200F; 0x202A; 0x202B; 0x202C; 0x202D; 0x202E; 0x2066; 0x2067; 0x2068; 0x2069]%Z) ∧
  ch ∉ ["<"; "`"; "*"; "_"; "#"].

Lemma clean_shows ch : clean_char ch = true → is_whitespace ch = false → shows ch.
Proof.
  unfold clean_char, is_bidi, is_disallowed_control, shows. rw !andb_true_iff !negb_true_iff !bool_decide_eq_false.
  intros [[Hb Hc] Hm%bool_decide_eq_true] Hw. cbv zeta. case_decide as Hn.
  { destruct Hw, Hn as [->| ->]; apply (bool_decide_unpack _); by vm_compute. }
  apply orb_false_iff in Hc as [Hc _]. unfold is_control in Hc. apply bool_decide_eq_false in Hc.
  split_and!; [lia|lia| |done]. rw !elem_of_cons elem_of_nil. lia.
Qed.

Lemma word_in_inner l w : word_in l w → word_in (filter (λ ch, is_whitespace ch = false) l) w.
Proof.
  intros (wl & H1 & H2 & H3 & H4). exists wl. split_and!; try done. intros ch Hch.
  apply list_elem_of_filter. split; [|by apply H4]. by eapply Forall_forall in H2 as [_ ?].
Qed.

(** ** A reply that has nothing to redact *)

Lemma find_char p s i :
  utf8_valid s = true → str_find p s = Some i → ∀ c q, p = String c q → ascii_only p = true → String c "" ∈ chars s.
Proof.
  intros Hs (a & b & -> & _)%str_find_Some c q -> Hp. destruct (utf8_cut_ascii a (String c q) b) as [Ha _]; [done..|].
  rw chars_app // string_app_cons. apply elem_of_app. right.
  change (String c (q +:+ b)) with (String c "" +:+ (q +:+ b)). rw chars_whole; [by left|].
  exists c, "". split; [done|]. unfold ascii_only in Hp. cbn in Hp. apply andb_true_iff in Hp as [Hc%bool_decide_eq_true _].
  unfold char_width. rw decide_True //. lia.
Qed.

Lemma strip_links_none fuel s :
  utf8_valid s = true → (String.length s ≤ fuel)%nat → "[" ∉ chars s → strip_links fuel s = (s, 0%nat).
Proof.
  revert s. induction fuel as [|fuel IH]; intros [|c s] Hs Hf Hn; try done; [cbn in Hf; lia|].
  destruct (utf8_first c s Hs) as (H1 & H2 & H3 & _).
  pose proof (string_take_drop (char_width c) (String c s)) as E.
  set (a := string_take _ _) in *. set (b := string_drop _ _) in *.
  assert (chars (String c s) = a :: chars b) as Ec by (rw -{1}E chars_whole //).
  cbn [strip_links]. fold a b. rw IH //.
  - rw E. case_decide as Hc; [|done]. subst c. destruct Hn. rw Ec. by left.
  - pose proof (char_width_pos c). unfold b. rw string_drop_length. cbn in Hf |- *. lia.
  - rw Ec in Hn. set_solver.
Qed.

Lemma strip_tags_none l : (∀ ch, ch ∈ l → ch ∉ markers) → strip_tags false l = (l, 0%nat).
Proof.
  unfold markers. induction l as [|ch l IH]; intros Hl; [done|]. cbn [strip_tags].
  pose proof (Hl ch ltac:(by left)) as Hch. rw IH; [|intros; apply Hl; by right].
  rw decide_False; [|set_solver]. rw decide_False //. set_solver.
Qed.

Lemma strip_markup_none s :
  utf8_valid s = true → (∀ ch, ch ∈ chars s → ch ≠ "[" ∧ ch ∉ markers) → strip_markup s = (s, 0%nat).
Proof.
  intros Hs Hl. unfold strip_markup.
  assert (strip_fences (String.length s) s = (s, 0%nat)) as ->.
  { destruct s as [|c s]; [done|]. cbn [String.length strip_fences].
    destruct (str_find "```" (String c s)) as [i|] eqn:E; [|done].
    destruct (Hl "`") as [_ []]; [by eapply (find_char _ _ _ Hs E)|unfold markers; set_solver]. }
  rw strip_links_none //; [|intros H; by destruct (Hl _ H)].
  rw strip_tags_none; [|intros ch Hch; by apply Hl]. by rw concat_chars.
Qed.

(** What redaction does, pass by pass. *)
Lemma redact_text reply :
  utf8_valid reply = true →
  ∃ l, chars (strip_markup reply).1 = l ∧ Forall (λ ch, scalar ch ∧ ch ∉ markers) l ∧
    rd_text (redact reply) = join " " (redact_word <$>
      split_whitespace_from [] (filter (λ ch, is_bidi ch = false ∧ is_disallowed_control ch = false) l)).
Proof.
  intros Hv. unfold redact. destruct (strip_markup_clean reply Hv) as (l & El & Hl).
  destruct (strip_markup reply) as [stripped n]. cbn in El. subst stripped. cbn [rd_text fst].
  assert (chars (concat_str l) = l) as ->.
  { apply chars_concat. eapply Forall_impl; [done|]. by intros ? (? & _). }
  exists l. split; [done|]. split; [eapply Forall_impl; [done|]; intros ? (? & ? & ?); by repeat split|].
  set (kept := filter _ _). assert (Forall scalar kept) as Hs.
  { apply Forall_forall. intros ch [_ Hch]%list_elem_of_filter. by eapply Forall_forall in Hl as (? & ? & _). }
  destruct (scalar_concat kept Hs) as [Ek _]. unfold split_inclusive_whitespace. rw Ek -list_fmap_compose.
  change ((λ t, t.1.1) ∘ redact_token) with (λ t, (redact_token t).1.1).
  by rw (proj2 (redact_words [] kept ltac:(constructor) Hs)).
Qed.

(** The text of a redacted reply, in the terms of the code. *)
Lemma redact_clean_code reply :
  utf8_valid reply = true →
  let text := rd_text (redact reply) in
  utf8_valid text = true ∧ (∀ ch, ch ∈ chars text → shows ch) ∧
  (∀ w, w ∈ split_whitespace text → clean_word w = true ∧ utf8_valid w = true) ∧
  join " " (split_whitespace text) = text.
Proof.
  intros Hv. destruct (redact_text reply Hv) as (l & _ & Hl & ->). cbv zeta. set (kept := filter _ _).
  assert (Forall (λ ch, scalar ch ∧ clean_char ch = true) kept) as Hk.
  { apply Forall_forall. intros ch [[H1 H2] H3]%list_elem_of_filter. rw Forall_forall in Hl. destruct (Hl ch H3) as [H4 H5].
    split; [done|]. unfold clean_char. rw H1 H2. by rw bool_decide_eq_true_2. }
  assert (Forall scalar kept) as Hs by (eapply Forall_impl; [done|]; by intros ? []).
  pose proof (split_words [] kept ltac:(constructor) Hs) as Hw. set (ws := split_whitespace_from [] kept) in *.
  rw Forall_forall in Hw.
  assert (Forall (word_in (filter (λ ch, is_whitespace ch = false) (kept ++ chars PLACEHOLDER))) (redact_word <$> ws)) as Hr.
  { apply Forall_fmap, Forall_forall. intros w Hw'. apply word_in_inner. by apply (redact_word_clean kept), Hw. }
  destruct (join_words _ _ Hr) as (H1 & H2 & H3). rw H2. split_and!; [done| | |done].
  - intros ch Hch%H3. rw elem_of_cons list_elem_of_filter elem_of_app in Hch.
    destruct clean_placeholder as [_ Hp]. rw Forall_forall in Hp. rw Forall_forall in Hk.
    destruct Hch as [->|[Hi [Hch|Hch]]]; [|by apply clean_shows; [apply Hk|]|apply clean_shows; [apply Hp; by right|done]].
    unfold shows. cbn. split_and!; [done|by intros []|set_solver by lia|set_solver].
  - intros w Hin. split; [|by eapply word_chars, (proj1 (Forall_forall _ _) Hr)].
    apply list_elem_of_fmap in Hin as (w0 & -> & Hw0). eapply redact_word_clean, Hw, Hw0.
Qed.

Lemma filter_shows (l : list string) :
  (∀ ch, ch ∈ l → shows ch ∨ ch = String "010" "" ∨ ch = String "009" "") →
  filter (λ ch, is_bidi ch = false ∧ is_disallowed_control ch = false) l = l.
Proof.
  induction l as [|ch l IH]; intros Hl; [done|]. rw filter_cons_True; [by rw IH; [|intros; apply Hl; by right]|].
  destruct (Hl ch ltac:(by left)) as [Hs|[->| ->]]; [|by vm_compute..].
  unfold is_bidi, is_disallowed_control. destruct Hs as (H1 & H2 & H3 & _). rw bool_decide_eq_false. split.
  - intros Hb. apply H3. rw !elem_of_cons elem_of_nil. lia.
  - case_decide; [done|]. unfold is_control. rw orb_false_iff !bool_decide_eq_false. lia.
Qed.

Lemma redact_words_kept (ws : list string) :
  (∀ w, w ∈ ws → looks_like_secret w = false ∧ looks_like_path w = false) → redact_word <$> ws = ws.
Proof.
  induction ws as [|w ws IH]; intros Hw; [done|]. rw fmap_cons IH; [|intros; apply Hw; by right].
  destruct (Hw w ltac:(by left)). unfold redact_word. rw decide_False //. naive_solver congruence.
Qed.

Lemma split_join s : utf8_valid s = true → split_whitespace (join " " (split_whitespace s)) = split_whitespace s.
Proof.
  intros Hs. apply (join_words ([] ++ chars s)). apply split_words; [constructor|]. by apply utf8_chars.
Qed.


(** The prefixes with an underscore are looked for after the underscores are
    gone: a GitHub token is kept, without its underscore. *)
Example github_prefix_lost :
  looks_like_secret "ghp_abcdef" = true ∧ rd_text (redact "use ghp_abcdef") = "use ghpabcdef" ∧
  redacted_total (redact "use ghp_abcdef") = 1%nat.
Proof. vm_compute. repeat split. Qed.
