(* ===== verification/HelpValidate.v ===== *)
(** * Validation of a provider reply

    [grokptah-help-runtime/src/validate.rs] and the projection of a validated
    answer in [lib.rs]. *)

From S2P Require Import Prelude Text Chars Ids Result HelpDigest HelpCorpus HelpDto HelpRedact.

Definition MIN_QUOTE_CHARS : nat := 24.
Definition MAX_REPLY_BYTES : Z := 32768.
Definition MAX_CLAIMS : nat := 32.

Record Validation := MkValidation {
  vd_answer : ValidatedAnswer;
  vd_redactions : list RedactionCount;
  vd_dropped_claims : nat
}.

Definition span_count (v : Validation) : nat :=
  sum_list_with (λ c, length (cl_spans c)) (va_claims (vd_answer v)).

(** [trim], pushed unless empty. *)
Definition push_trimmed (s : string) : list string := if decide (trim s = "") then [] else [trim s].

Fixpoint split_claims_from (current : list string) (l : list string) : list string :=
  match l with
  | [] => push_trimmed (concat_str current)
  | ch :: l =>
      if is_terminator ch then push_trimmed (concat_str (current ++ [ch])) ++ split_claims_from [] l
      else split_claims_from (current ++ [ch]) l
  end.

Definition split_claims (text : string) : list string := split_claims_from [] (chars text).

(** ** The longest common run *)

(** The inner loop: [previous] from index [j - 1] on, the haystack from [j - 1]
    on; the rest of the new row and the best run so far with its end. *)
Fixpoint run_row (ch : string) (previous : list nat) (hay : list string) (j : nat) (best : nat * nat)
    : list nat * (nat * nat) :=
  match previous, hay with
  | p :: previous, x :: hay =>
      let cur := if decide (ch = x) then S p else 0%nat in
      let best := if decide (best.1 < cur)%nat then (cur, j) else best in
      let '(row, best) := run_row ch previous hay (S j) best in
      (cur :: row, best)
  | _, _ => ([], best)
  end.

(** The outer loop over the needle. *)
Fixpoint run_rows (needle : list string) (previous : list nat) (hay : list string) (best : nat * nat)
    : nat * nat :=
  match needle with
  | [] => best
  | ch :: needle =>
      let '(row, best) := run_row ch previous hay 1 best in
      run_rows needle (0%nat :: row) hay best
  end.

Definition longest_common_run (needle haystack : string) : option (nat * nat * nat) :=
  let needle_chars := chars needle in
  let hay_chars := chars haystack in
  match needle_chars, hay_chars with
  | [], _ | _, [] => None
  | _, _ =>
      let '(best_len, best_hay_end) :=
        run_rows needle_chars (replicate (S (length hay_chars)) 0%nat) hay_chars (0%nat, 0%nat) in
      if decide (best_len = 0%nat) then None
      else
        let start_char := (best_hay_end - best_len)%nat in
        let start_byte := bytes_len (take start_char hay_chars) in
        let end_byte := match hay_chars !! best_hay_end with
                        | Some _ => bytes_len (take best_hay_end hay_chars)
                        | None => String.length haystack
                        end in
        Some (start_byte, end_byte, best_len)
  end.

Inductive RejectReason := ReplyEmpty | ReplyTooLarge.

(** ** Claims *)

(** The span one chunk of the request gives a claim. *)
Definition span_of (c : Corpus) (claim_text : string) (k : ContextChunk) : option CitationSpan :=
  known ← chunk c (cc_chunk_id k);
  if decide (ck_digest known ≠ cc_chunk_digest k ∨ ck_text known ≠ cc_text k) then None else
  '(start, stop, length) ← longest_common_run claim_text (ck_text known);
  if decide (length < MIN_QUOTE_CHARS)%nat then None else
  if negb (is_char_boundary (ck_text known) start) || negb (is_char_boundary (ck_text known) stop) then None else
  source_id ← head (ck_source_ids known);
  s ← source c source_id;
  mret {| sp_chunk_id := ck_id known; sp_chunk_digest := ck_digest known; sp_source_id := sa_id s;
          sp_source_digest := sa_digest s; sp_start := start; sp_end := stop |}.

Definition longest_first (left right : CitationSpan) : comparison :=
  then_with (Nat.compare (sp_end right - sp_start right) (sp_end left - sp_start left))
    (string_cmp (sp_chunk_id left) (sp_chunk_id right)).

Definition by_place (left right : CitationSpan) : comparison :=
  then_with (string_cmp (sp_chunk_id left) (sp_chunk_id right))
    (Nat.compare (sp_start left) (sp_start right)).

Definition overlap (a b : CitationSpan) : bool :=
  bool_decide (sp_chunk_id a = sp_chunk_id b) && bool_decide (sp_start b < sp_end a)%nat
  && bool_decide (sp_start a < sp_end b)%nat.

Definition keep_disjoint (spans : list CitationSpan) : list CitationSpan :=
  foldl (λ kept span, if existsb (λ existing, overlap existing span) kept then kept else kept ++ [span])
    [] spans.

Definition spans_for (c : Corpus) (request : HelpRequest) (claim_text : string) : list CitationSpan :=
  sort_by by_place
    (keep_disjoint (sort_by longest_first (omap (span_of c claim_text) (rq_context request)))).

(** The loop over the claims of the reply: the ones kept and the number dropped. *)
Fixpoint keep_claims (c : Corpus) (request : HelpRequest) (ordinal : nat) (texts : list string)
    (claims : list Claim) (dropped : nat) : list Claim * nat :=
  match texts with
  | [] => (claims, dropped)
  | text :: texts =>
      if decide (MAX_CLAIMS ≤ length claims)%nat then keep_claims c request (S ordinal) texts claims (S dropped)
      else
        match spans_for c request text with
        | [] => keep_claims c request (S ordinal) texts claims (S dropped)
        | kept => keep_claims c request (S ordinal) texts
                    (claims ++ [MkClaim ordinal text kept]) dropped
        end
  end.

Definition renumber (claims : list Claim) : list Claim :=
  imap (λ position claim, MkClaim position (cl_text claim) (cl_spans claim)) claims.

Definition validate (reply : string) (request : HelpRequest) (c : Corpus) : RejectReason + Validation :=
  _ ← ensure (bool_decide (trim reply ≠ "")) ReplyEmpty;
  _ ← ensure (bool_decide (Z.of_nat (String.length reply) ≤ MAX_REPLY_BYTES)%Z) ReplyTooLarge;
  let redacted := redact reply in
  let '(claims, dropped) := keep_claims c request 0 (split_claims (rd_text redacted)) [] 0 in
  let claims := renumber claims in
  mret {| vd_answer := {| va_request_id := rq_request_id request;
                          va_corpus_digest := rq_corpus_digest request; va_claims := claims;
                          va_redactions := kinds redacted; va_abstained := bool_decide (claims = []) |};
          vd_redactions := (λ kc, MkRedactionCount kc.1 kc.2) <$> filter (λ kc, 0 < kc.2)%nat (rd_counts redacted);
          vd_dropped_claims := dropped |}.

(** ** Checking an answer again, and showing it *)

Definition span_resolves (c : Corpus) (span : CitationSpan) : bool :=
  match chunk c (sp_chunk_id span) with
  | None => false
  | Some k =>
      bool_decide (ck_digest k = sp_chunk_digest span)
      && bool_decide (sp_end span ≤ String.length (ck_text k))%nat
      && bool_decide (sp_start span < sp_end span)%nat
      && is_char_boundary (ck_text k) (sp_start span) && is_char_boundary (ck_text k) (sp_end span)
      && match source c (sp_source_id span) with
         | None => false
         | Some s => bool_decide (sa_digest s = sp_source_digest span)
         end
  end.

Fixpoint disjoint_spans (spans : list CitationSpan) : bool :=
  match spans with
  | [] => true
  | span :: spans => forallb (λ other, negb (overlap span other)) spans && disjoint_spans spans
  end.

Definition spans_resolve (answer : ValidatedAnswer) (c : Corpus) : bool :=
  bool_decide (va_corpus_digest answer = co_digest c)
  && forallb (λ claim, bool_decide (cl_spans claim ≠ [])
                       && forallb (span_resolves c) (cl_spans claim)
                       && disjoint_spans (cl_spans claim)) (va_claims answer).

Definition quote_for (span : CitationSpan) (c : Corpus) : option string :=
  k ← chunk c (sp_chunk_id span);
  if decide (ck_digest k ≠ sp_chunk_digest span) then None
  else str_get (ck_text k) (sp_start span) (sp_end span).

Definition project_span (c : Corpus) (span : CitationSpan) : option CitationProjection :=
  quote ← quote_for span c;
  s ← source c (sp_source_id span);
  mret {| cp_source_id := sa_id s; cp_path := sa_path s; cp_heading := sa_heading s; cp_quote := quote |}.

Definition project_claims (c : Corpus) (claims : list Claim) : list ClaimProjection :=
  foldl (λ out claim,
    match omap (project_span c) (cl_spans claim) with
    | [] => out
    | citations => out ++ [MkClaimProjection (length out) (cl_text claim) citations]
    end) [] claims.

Definition project (handle : string) (answer : ValidatedAnswer) (c : Corpus) (status : ProjectionStatus)
    : HelpProjection :=
  let claims := project_claims c (va_claims answer) in
  let status := if decide (claims = [] ∧ status = PAnswered) then PAbstained else status in
  {| hp_handle := handle; hp_status := status; hp_claims := claims; hp_error := None; hp_message := None |}.
