(* ===== verification/HelpValidateProps.v ===== *)
(** * The longest common run is the longest

    The two-row loop of [longest_common_run] against a definition of common
    runs, and the bytes a run stands for. *)

From S2P Require Import Prelude Text Ids Chars Result HelpDigest HelpCorpus HelpCorpusFacts HelpDto HelpRedact HelpValidate.

(** [n] characters from [i] on in [ns] are those from [j] on in [hs]. *)
Definition common_run (ns hs : list string) (i j n : nat) : Prop :=
  (i + n ≤ length ns)%nat ∧ (j + n ≤ length hs)%nat ∧
  ∀ k, (k < n)%nat → ns !! (i + k)%nat = hs !! (j + k)%nat.

(** The length of the longest common run that ends before [i] and [j]. *)
Fixpoint suffix_run (ns hs : list string) (i j : nat) : nat :=
  match i, j with
  | S i, S j =>
      match ns !! i, hs !! j with
      | Some x, Some y => if decide (x = y) then S (suffix_run ns hs i j) else 0
      | _, _ => 0
      end
  | _, _ => 0
  end.

Lemma suffix_run_le ns hs i j : (suffix_run ns hs i j ≤ i)%nat ∧ (suffix_run ns hs i j ≤ j)%nat.
Proof.
  revert j. induction i as [|i IH]; intros [|j]; simpl; try lia.
  destruct (ns !! i); [|lia]. destruct (hs !! j); [|lia]. case_decide; [|lia]. specialize (IH j). lia.
Qed.

Lemma suffix_run_common ns hs i j :
  let n := suffix_run ns hs i j in
  (i ≤ length ns)%nat → (j ≤ length hs)%nat → common_run ns hs (i - n) (j - n) n.
Proof.
  revert j. induction i as [|i IH]; intros [|j]; cbn [suffix_run]; try (intros; split_and!; lia).
  destruct (ns !! i) as [x|] eqn:Hx; [|intros; split_and!; lia].
  destruct (hs !! j) as [y|] eqn:Hy; [|intros; split_and!; lia].
  case_decide as Heq; [|intros; split_and!; lia]. subst y. cbv zeta. intros Hi Hj.
  destruct (IH j ltac:(lia) ltac:(lia)) as (H1 & H2 & H3). pose proof (suffix_run_le ns hs i j).
  split_and!; [lia..|]. intros k Hk.
  destruct (decide (k = suffix_run ns hs i j)) as [->|].
  - replace (S i - S (suffix_run ns hs i j) + suffix_run ns hs i j)%nat with i by lia.
    replace (S j - S (suffix_run ns hs i j) + suffix_run ns hs i j)%nat with j by lia. congruence.
  - replace (S i - S (suffix_run ns hs i j) + k)%nat with (i - suffix_run ns hs i j + k)%nat by lia.
    replace (S j - S (suffix_run ns hs i j) + k)%nat with (j - suffix_run ns hs i j + k)%nat by lia.
    apply H3. lia.
Qed.

Lemma suffix_run_longest ns hs i j n :
  common_run ns hs i j n → (n ≤ suffix_run ns hs (i + n) (j + n))%nat.
Proof.
  induction n as [|n IH]; intros (H1 & H2 & H3); [lia|].
  replace (i + S n)%nat with (S (i + n)) by lia. replace (j + S n)%nat with (S (j + n)) by lia. cbn [suffix_run].
  destruct (lookup_lt_is_Some_2 ns (i + n)) as [x Hx]; [lia|].
  pose proof (H3 n ltac:(lia)) as E. rw Hx in E. rw Hx -E decide_True //.
  apply le_n_S, IH. split_and!; [lia..|]. intros k Hk. apply H3. lia.
Qed.

(** ** The loops *)

(** [best] is the longest run found among the ends seen so far. *)
Definition best_ok (ns hs : list string) (seen : nat → nat → Prop) (best : nat * nat) : Prop :=
  (∀ i j, seen i j → (suffix_run ns hs i j ≤ best.1)%nat) ∧
  (best.1 ≠ 0%nat → ∃ i, seen i best.2 ∧ suffix_run ns hs i best.2 = best.1).

Lemma run_row_cons ch p previous x hay j best :
  run_row ch (p :: previous) (x :: hay) j best =
    let cur := if decide (ch = x) then S p else 0%nat in
    let '(row, best) := run_row ch previous hay (S j) (if decide (best.1 < cur)%nat then (cur, j) else best) in
    (cur :: row, best).
Proof. done. Qed.

Lemma fmap_seq_S {A} (f : nat → A) n m : f <$> seq n (S m) = f n :: (f <$> seq (S n) m).
Proof. done. Qed.

Lemma run_row_spec ns hs i ch done_ rest prev best :
  ns !! i = Some ch → hs = done_ ++ rest →
  prev = suffix_run ns hs i <$> seq (length done_) (S (length rest)) →
  best_ok ns hs (λ a b, (a ≤ i ∧ 1 ≤ b ≤ length hs) ∨ (a = S i ∧ 1 ≤ b ≤ length done_))%nat best →
  let '(row, best') := run_row ch prev rest (S (length done_)) best in
  row = suffix_run ns hs (S i) <$> seq (S (length done_)) (length rest) ∧
  best_ok ns hs (λ a b, a ≤ S i ∧ 1 ≤ b ≤ length hs)%nat best'.
Proof.
  intros Hch. revert done_ prev best. induction rest as [|x rest IH]; intros done_ prev best Hhs -> Hbest.
  - cbn. split; [done|]. rw app_nil_r in Hhs. subst done_. destruct Hbest as [Hb1 Hb2]. split.
    + intros a b Hab. apply Hb1. lia.
    + intros Hn. destruct (Hb2 Hn) as (a & Hab & E). exists a. split; [lia|done].
  - cbn [length]. rw fmap_seq_S run_row_cons [_ <$> seq _ (S (length rest))]fmap_seq_S. cbv zeta.
    assert (suffix_run ns hs (S i) (S (length done_))
            = if decide (ch = x) then S (suffix_run ns hs i (length done_)) else 0) as Ecur.
    { cbn [suffix_run]. rw Hch. assert (hs !! length done_ = Some x) as ->; [|done].
      rw Hhs lookup_app_r // Nat.sub_diag //. }
    rw -Ecur. set (cur := suffix_run ns hs (S i) (S (length done_))) in *.
    set (best1 := if decide (best.1 < cur)%nat then (cur, S (length done_)) else best).
    assert (length hs = length done_ + S (length rest))%nat as Hlen by (rw Hhs length_app; simpl; lia).
    specialize (IH (done_ ++ [x]) (suffix_run ns hs i <$> seq (S (length done_)) (S (length rest))) best1).
    rw length_app Nat.add_1_r in IH. cbn [length] in IH.
    assert (best_ok ns hs (λ a b, (a ≤ i ∧ 1 ≤ b ≤ length hs) ∨
              (a = S i ∧ 1 ≤ b ≤ S (length done_)))%nat best1) as Hb1'.
    { destruct Hbest as [Hb1 Hb2]. unfold best1. assert (suffix_run ns hs (S i) (S (length done_)) = cur) as Hcur by done.
      clearbody cur. clear Ecur. split.
      - intros a b Hab. assert (((a ≤ i ∧ 1 ≤ b ≤ length hs) ∨ (a = S i ∧ 1 ≤ b ≤ length done_)) ∨
          (a = S i ∧ b = S (length done_)))%nat as [Hold|[-> ->]] by lia.
        + specialize (Hb1 a b Hold). case_decide; cbn [fst]; lia.
        + rw Hcur. case_decide; cbn [fst]; lia.
      - case_decide as Hlt; cbn [fst snd].
        + intros _. exists (S i). split; [right; lia|done].
        + intros Hn. destruct (Hb2 Hn) as (a & Hab & E). exists a. split; [lia|done]. }
    specialize (IH ltac:(by rw -assoc) eq_refl Hb1').
    destruct (run_row ch _ rest (S (S (length done_))) best1) as [row best'].
    destruct IH as [-> Hb']. split; [done|]. done.
Qed.

Lemma run_rows_spec ns hs done_ rest best :
  ns = done_ ++ rest →
  best_ok ns hs (λ a b, a ≤ length done_ ∧ 1 ≤ b ≤ length hs)%nat best →
  best_ok ns hs (λ a b, a ≤ length ns ∧ 1 ≤ b ≤ length hs)%nat
    (run_rows rest (suffix_run ns hs (length done_) <$> seq 0 (S (length hs))) hs best).
Proof.
  revert done_ best. induction rest as [|ch rest IH]; intros done_ best Hns Hbest.
  - simpl. rw app_nil_r in Hns. by subst done_.
  - cbn [run_rows]. assert (ns !! length done_ = Some ch) as Hch by (rw Hns lookup_app_r // Nat.sub_diag //).
    pose proof (run_row_spec ns hs (length done_) ch [] hs
      (suffix_run ns hs (length done_) <$> seq 0 (S (length hs))) best Hch eq_refl eq_refl) as Hrow.
    assert (best_ok ns hs (λ a b, (a ≤ length done_ ∧ 1 ≤ b ≤ length hs) ∨
              (a = S (length done_) ∧ 1 ≤ b ≤ length (@nil string)))%nat best) as Hb0.
    { destruct Hbest as [Hb1 Hb2]. split; [intros a b [H|H]; [by apply Hb1|simpl in H; lia]|].
      intros Hn. destruct (Hb2 Hn) as (a & Hab & E). exists a. by split; [left|]. }
    specialize (Hrow Hb0). cbn [length] in Hrow. destruct (run_row ch _ hs 1 best) as [row best']. destruct Hrow as [-> Hb'].
    specialize (IH (done_ ++ [ch]) best'). rw length_app Nat.add_1_r in IH. cbn [length] in IH.
    apply IH; [by rw Hns -assoc|done].
Qed.

Lemma run_rows_best ns hs :
  best_ok ns hs (λ a b, a ≤ length ns ∧ 1 ≤ b ≤ length hs)%nat
    (run_rows ns (replicate (S (length hs)) 0%nat) hs (0%nat, 0%nat)).
Proof.
  assert (∀ n k, replicate n 0%nat = suffix_run ns hs (length (@nil string)) <$> seq k n) as E.
  { induction n as [|n IH]; intros k; [done|]. rw fmap_seq_S. simpl. by rw (IH (S k)). }
  rw (E (S (length hs)) 0%nat).
  apply (run_rows_spec ns hs [] ns); [done|]. split; [|done]. intros i j [Hi _]. simpl in Hi.
  destruct i; [done|lia].
Qed.

(** ** The run and its bytes *)

(** What [longest_common_run] promises of the run it returns. *)
Definition longest_run (needle haystack : string) (r : nat * nat * nat) : Prop :=
  let '(start, stop, n) := r in
  (0 < n)%nat ∧
  (∃ i j, common_run (chars needle) (chars haystack) i j n ∧
    start = bytes_len (take j (chars haystack)) ∧ stop = bytes_len (take (j + n) (chars haystack))) ∧
  ∀ i j m, common_run (chars needle) (chars haystack) i j m → (m ≤ n)%nat.

Lemma common_run_bound ns hs best i j n :
  best_ok ns hs (λ a b, a ≤ length ns ∧ 1 ≤ b ≤ length hs)%nat best → common_run ns hs i j n → (n ≤ best.1)%nat.
Proof.
  intros [Hb _] Hr. destruct n as [|n]; [lia|]. etrans; [by apply suffix_run_longest|].
  destruct Hr as (H1 & H2 & _). apply Hb. lia.
Qed.

Lemma longest_common_run_spec needle haystack :
  match longest_common_run needle haystack with
  | Some r => longest_run needle haystack r
  | None => ∀ i j n, common_run (chars needle) (chars haystack) i j n → n = 0%nat
  end.
Proof.
  unfold longest_common_run. pose proof (run_rows_best (chars needle) (chars haystack)) as Hb.
  destruct (chars needle) as [|x ns] eqn:Hns. { intros i j n (H & _). simpl in H. lia. }
  destruct (chars haystack) as [|y hs] eqn:Hhs. { intros i j n (_ & H & _). simpl in H. lia. }
  rw -Hns -Hhs in Hb |- *. destruct (run_rows _ _ _ _) as [best_len best_end].
  assert (∀ i j n, common_run (chars needle) (chars haystack) i j n → (n ≤ best_len)%nat) as Hmax
    by (intros i j n; exact (common_run_bound _ _ _ i j n Hb)).
  case_decide as H0. { intros i j n Hr. pose proof (Hmax _ _ _ Hr). lia. }
  destruct Hb as [Hb1 Hb2]. destruct (Hb2 H0) as (i & (Hi & Hj) & E). cbn [fst snd] in *.
  pose proof (suffix_run_common (chars needle) (chars haystack) i best_end Hi ltac:(lia)) as Hc.
  cbv zeta in Hc. rw E in Hc. pose proof (suffix_run_le (chars needle) (chars haystack) i best_end).
  split_and!; [lia| |done].
  exists (i - best_len)%nat, (best_end - best_len)%nat. split; [done|]. split; [done|].
  replace (best_end - best_len + best_len)%nat with best_end by lia.
  destruct (chars haystack !! best_end) eqn:Hl; [done|]. apply lookup_ge_None in Hl.
  by rw take_ge // bytes_len_length concat_chars.
Qed.

Lemma common_run_take ns hs i j n : common_run ns hs i j n → take n (drop i ns) = take n (drop j hs).
Proof.
  intros (H1 & H2 & H3). apply list_eq. intros k. destruct (decide (k < n)%nat).
  - rw !lookup_take_lt // !lookup_drop. by apply H3.
  - rw !lookup_take_ge //; lia.
Qed.

Lemma bytes_len_pos l : Forall whole l → l ≠ [] → (0 < bytes_len l)%nat.
Proof. destruct 1 as [|ch l Hch]; [done|]. intros _. apply whole_pos in Hch. unfold bytes_len. simpl. lia. Qed.

(** The bytes of a run: a quotation of the haystack, on its boundaries, found
    verbatim in the needle. *)
Record quotes (needle haystack : string) (start stop : nat) (q : string) : Prop := {
  qt_bytes : str_get haystack start stop = Some q;
  qt_proper : (start < stop ≤ String.length haystack)%nat;
  qt_verbatim : ∃ before after, needle = before +:+ q +:+ after
}.

Lemma common_run_quotes needle haystack i j n :
  utf8_valid haystack = true → (0 < n)%nat → common_run (chars needle) (chars haystack) i j n →
  let start := bytes_len (take j (chars haystack)) in
  let stop := bytes_len (take (j + n) (chars haystack)) in
  ∃ q, quotes needle haystack start stop q ∧ char_count q = n.
Proof.
  intros Hv Hn Hr start stop. pose proof (utf8_whole _ Hv) as Hw. pose proof Hr as (H1 & H2 & _).
  set (run := take n (drop j (chars haystack))). assert (Forall whole run) as Hwr by by apply Forall_take, Forall_drop.
  assert (length run = n) as Hlen by (unfold run; rw length_take length_drop; lia).
  assert (stop = start + bytes_len run)%nat as Es.
  { unfold stop, start, run. by rw -take_take_drop bytes_len_app. }
  assert (stop ≤ String.length haystack)%nat as Hs.
  { unfold stop. rw bytes_len_length -{2}(concat_chars haystack) -{2}(take_drop (j + n) (chars haystack)).
    rw concat_str_app string_length_app. lia. }
  assert (0 < bytes_len run)%nat by (apply bytes_len_pos; [done|]; intros E; rw E in Hlen; simpl in Hlen; lia).
  exists (concat_str run). split; [|unfold char_count; by rw chars_concat]. split; [|lia|].
  - unfold str_get. rw decide_True; [|split_and!; [lia|done|by apply chars_boundary..]]. f_equal.
    assert (string_drop start haystack = concat_str (drop j (chars haystack))) as ->
      by (rw -drop_concat concat_chars //).
    replace (stop - start)%nat with (bytes_len run) by lia. apply take_concat.
  - exists (concat_str (take i (chars needle))), (concat_str (drop n (drop i (chars needle)))).
    unfold run. by rw -(common_run_take _ _ _ _ _ Hr) -!concat_str_app take_drop take_drop concat_chars.
Qed.

(** ** A validated answer says only what its request carried

    What [validate] keeps, what its citations quote, and that the second pass
    and the projection lose nothing. *)

(** ** Support *)

(** The two texts share a run of [n] characters. *)
Definition shares (n : nat) (needle haystack : string) : Prop :=
  ∃ i j, common_run (chars needle) (chars haystack) i j n.

Lemma common_run_shorter ns hs i j n m : (m ≤ n)%nat → common_run ns hs i j n → common_run ns hs i j m.
Proof. intros Hm (H1 & H2 & H3). split_and!; [lia..|]. intros k Hk. apply H3. lia. Qed.

Lemma shares_longest n needle haystack :
  shares n needle haystack ↔
  match longest_common_run needle haystack with Some (_, m) => (n ≤ m)%nat | None => n = 0%nat end.
Proof.
  pose proof (longest_common_run_spec needle haystack) as Hl.
  destruct (longest_common_run needle haystack) as [[[start stop] m]|].
  - destruct Hl as (Hm & (i & j & Hr & _) & Hmax). split.
    + intros (i' & j' & Hr'). by eapply Hmax.
    + intros Hn. exists i, j. by eapply common_run_shorter.
  - split; [intros (i & j & Hr); by eapply Hl|]. intros ->. exists 0%nat, 0%nat. split_and!; lia.
Qed.

#[global] Instance shares_dec n needle haystack : Decision (shares n needle haystack).
Proof.
  destruct (longest_common_run needle haystack) as [[x m]|] eqn:E.
  - destruct (decide (n ≤ m)%nat) as [H|H]; [left|right]; rw shares_longest E //.
  - destruct (decide (n = 0)%nat) as [H|H]; [left|right]; rw shares_longest E //.
Defined.

(** A chunk of the request supports a text when the corpus still has it, byte
    for byte and with a source, and the text repeats enough of it. *)
Definition supports (c : Corpus) (text : string) (k : ContextChunk) : Prop :=
  match chunk c (cc_chunk_id k) with
  | None => False
  | Some known =>
      ck_digest known = cc_chunk_digest k ∧ ck_text known = cc_text k ∧
      shares MIN_QUOTE_CHARS text (ck_text known) ∧ is_Some (head (ck_source_ids known) ≫= source c)
  end.

#[global] Instance supports_dec c text k : Decision (supports c text k).
Proof. unfold supports. destruct (chunk c (cc_chunk_id k)); apply _. Defined.

Definition supported (c : Corpus) (request : HelpRequest) (text : string) : Prop :=
  Exists (supports c text) (rq_context request).

#[global] Instance supported_dec c request text : Decision (supported c request text).
Proof. unfold supported. apply _. Defined.

(** Strings of a corpus are strings. *)
Definition corpus_utf8 (c : Corpus) : Prop := ∀ k, k ∈ co_chunks c → utf8_valid (ck_text k) = true.

(** What a kept span is: a chunk of the request, unchanged in the corpus, and a
    quotation of it that the claim repeats, none longer. *)
Record span_ok (c : Corpus) (request : HelpRequest) (text : string) (sp : CitationSpan) (q : string) : Prop := {
  so_context : ∃ k, k ∈ rq_context request ∧ cc_chunk_id k = sp_chunk_id sp ∧
                 cc_chunk_digest k = sp_chunk_digest sp ∧
                 quotes text (cc_text k) (sp_start sp) (sp_end sp) q ∧
                 ∀ n, shares n text (cc_text k) → (n ≤ char_count q)%nat;
  so_quote : quote_for sp c = Some q;
  so_long : (MIN_QUOTE_CHARS ≤ char_count q)%nat;
  so_resolves : span_resolves c sp = true
}.

Lemma chunk_found c id k : chunk c id = Some k → k ∈ co_chunks c ∧ ck_id k = id.
Proof.
  unfold chunk. destruct (list_find _ _) as [[i x]|] eqn:E; simpl; [|done]. intros [= ->].
  apply list_find_Some in E as (H1 & H2 & _). split; [by eapply list_elem_of_lookup_2|done].
Qed.

Lemma source_found c id s : source c id = Some s → sa_id s = id.
Proof.
  unfold source, find_source. destruct (list_find _ _) as [[i x]|] eqn:E; simpl; [|done]. intros [= ->].
  by apply list_find_Some in E as (H1 & H2 & _).
Qed.

Lemma span_of_ok c request text k sp :
  corpus_utf8 c → k ∈ rq_context request → span_of c text k = Some sp → ∃ q, span_ok c request text sp q.
Proof.
  intros Hc Hk. unfold span_of. intros H. apply bind_Some in H as (known & Hknown & H).
  apply chunk_found in Hknown as Hf. destruct Hf as [Hin Hid].
  case_decide as Hd; [done|]. apply Decidable.not_or in Hd as [Hd Ht].
  apply dec_stable in Hd, Ht.
  apply bind_Some in H as ([[start stop] n] & Hrun & H). case_decide as Hn; [done|].
  pose proof (longest_common_run_spec text (ck_text known)) as Hl. rw Hrun in Hl.
  destruct Hl as (Hpos & (i & j & Hr & Es & Ee) & Hmax).
  destruct (common_run_quotes _ _ _ _ _ (Hc known Hin) Hpos Hr) as (q & Hq & Hcount). rw -Es -Ee in Hq.
  destruct (negb _ || negb _) eqn:Hb; [done|]. apply orb_false_iff in Hb as [Hb1 Hb2].
  apply negb_false_iff in Hb1, Hb2. apply bind_Some in H as (sid & _ & H).
  apply bind_Some in H as (s & Hs & [= <-]). pose proof (source_found _ _ _ Hs) as Hsid.
  exists q. split; cbn.
  - exists k. rw -Hid -Hd -Ht Hcount. split_and!; try done. intros m (i' & j' & Hm). by eapply Hmax.
  - unfold quote_for. cbn. rw Hid Hknown. cbn. rw decide_False; [apply Hq|by intros []].
  - lia.
  - destruct Hq as [_ Hp _]. unfold span_resolves. cbn. rw Hid Hknown Hsid Hs.
    rw Hb1 Hb2 !bool_decide_eq_true_2 //; lia.
Qed.

Lemma span_of_is_Some c text k : corpus_utf8 c → is_Some (span_of c text k) ↔ supports c text k.
Proof.
  intros Hc. unfold span_of, supports. destruct (chunk c (cc_chunk_id k)) as [known|] eqn:Hknown; cbn;
    [|split; [by intros []|done]].
  rw shares_longest. case_decide as Hd; [split; [by intros []|tauto]|].
  pose proof (longest_common_run_spec text (ck_text known)) as Hl.
  destruct (longest_common_run _ _) as [[[start stop] n]|]; cbn; [|split; [by intros []|by intros (_ & _ & ? & _)]].
  destruct Hl as (_ & (i & j & _ & -> & ->) & _). apply chunk_found in Hknown as [Hin _].
  case_decide; [split; [by intros []|intros (_ & _ & ? & _); lia]|]. rw !chars_boundary; [|by apply Hc..]. cbn.
  destruct (head (ck_source_ids known)) as [id|]; cbn; [|split; [by intros []|by intros (_ & _ & _ & [])]].
  destruct (source c id) as [s|]; cbn; [|split; [by intros []|by intros (_ & _ & _ & [])]].
  split; [|by eexists]. intros _. split_and!; [apply dec_stable; tauto..|lia|done].
Qed.

(** ** Disjoint spans *)

Lemma overlap_sym a b : overlap a b = overlap b a.
Proof. unfold overlap. rw (bool_decide_ext (sp_chunk_id a = sp_chunk_id b) (sp_chunk_id b = sp_chunk_id a)); [|done]. destruct (bool_decide _), (bool_decide _), (bool_decide _); done. Qed.

Fixpoint pairwise (l : list CitationSpan) : Prop :=
  match l with [] => True | x :: l => Forall (λ y, overlap x y = false) l ∧ pairwise l end.

Lemma disjoint_spans_pairwise l : disjoint_spans l = true ↔ pairwise l.
Proof.
  induction l as [|x l IH]; [done|]. simpl. rw andb_true_iff IH forallb_forall Forall_forall.
  split; intros [H1 H2]; (split; [|done]); intros y Hy; apply negb_true_iff || apply negb_true_iff; apply H1;
    by apply list_elem_of_In.
Qed.

#[global] Instance pairwise_proper : Proper ((≡ₚ) ==> iff) pairwise.
Proof.
  assert (∀ l1 l2, l1 ≡ₚ l2 → pairwise l1 → pairwise l2) as H.
  { induction 1 as [|x l1 l2 Hp IH|x y l|]; simpl; [done|..|by auto].
    - intros [H1 H2]. split; [|by apply IH]. rw Forall_forall in H1. apply Forall_forall. intros y Hy.
      apply H1. by rw Hp.
    - intros ([H1 H2]%Forall_cons & H3 & H4). split_and!; [|done..]. apply Forall_cons. by rw overlap_sym. }
  intros l1 l2 Hp. split; by apply H.
Qed.

Lemma pairwise_snoc l x : pairwise l → Forall (λ y, overlap y x = false) l → pairwise (l ++ [x]).
Proof.
  induction l as [|y l IH]; simpl; [done|]. intros [H1 H2] [H3 H4]%Forall_cons.
  split; [|by apply IH]. apply Forall_app. by rw Forall_singleton.
Qed.

Lemma keep_disjoint_ok spans :
  pairwise (keep_disjoint spans) ∧ keep_disjoint spans ⊆ spans ∧ (keep_disjoint spans = [] → spans = []).
Proof.
  unfold keep_disjoint. induction spans as [|x spans IH] using rev_ind; [done|]. rw foldl_snoc.
  set (kept := foldl _ [] spans) in *. destruct IH as (H1 & H2 & H3).
  destruct (existsb _ kept) eqn:E.
  - split_and!; [done|set_solver|]. intros Hk. by rw Hk in E.
  - split_and!; [|set_solver|by destruct kept]. apply pairwise_snoc; [done|]. apply Forall_forall. intros y Hy.
    destruct (overlap y x) eqn:Ho; [|done]. exfalso. eapply eq_true_false_abs, E. apply existsb_exists.
    exists y. by rw -list_elem_of_In.
Qed.

Lemma sort_by_nil {A} cmp (l : list A) : sort_by cmp l = [] → l = [].
Proof. intros E. pose proof (sort_by_perm cmp l) as H. rw E in H. by apply Permutation_nil_l in H. Qed.

Lemma spans_for_ok c request text :
  pairwise (spans_for c request text) ∧
  (∀ sp, sp ∈ spans_for c request text → ∃ k, k ∈ rq_context request ∧ span_of c text k = Some sp) ∧
  (corpus_utf8 c → spans_for c request text ≠ [] ↔ supported c request text).
Proof.
  unfold spans_for. destruct (keep_disjoint_ok (sort_by longest_first (omap (span_of c text) (rq_context request))))
    as (H1 & H2 & H3). split_and!.
  - by rw sort_by_perm.
  - intros sp. rw sort_by_perm. intros Hsp%H2. rw sort_by_perm in Hsp. apply list_elem_of_omap in Hsp as (k & ? & ?).
    by exists k.
  - intros Hc. unfold supported. rw Exists_exists. split.
    + intros Hne. destruct (sort_by by_place _) as [|sp l] eqn:E; [done|].
      assert (sp ∈ sp :: l) as Hsp by left. rw -E sort_by_perm in Hsp. apply H2 in Hsp.
      rw sort_by_perm in Hsp. apply list_elem_of_omap in Hsp as (k & ? & ?). exists k. split; [done|].
      by apply span_of_is_Some.
    + intros (k & Hk & [sp Hsp]%span_of_is_Some) E; [|done].
      assert (sp ∈ omap (span_of c text) (rq_context request)) as Hin by (apply list_elem_of_omap; by exists k).
      apply sort_by_nil, H3, sort_by_nil in E. rw E in Hin. by apply elem_of_nil in Hin.
Qed.

(** ** The claims kept *)

Lemma keep_claims_ok c request ordinal texts claims dropped :
  corpus_utf8 c → (length claims ≤ MAX_CLAIMS)%nat →
  let '(claims', dropped') := keep_claims c request ordinal texts claims dropped in
  ∃ new, claims' = claims ++ new ∧
    cl_text <$> new = take (MAX_CLAIMS - length claims) (filter (supported c request) texts) ∧
    Forall (λ cl, cl_spans cl = spans_for c request (cl_text cl) ∧ cl_spans cl ≠ []) new ∧
    (length new + dropped' = length texts + dropped)%nat.
Proof.
  intros Hc. revert ordinal claims dropped. induction texts as [|t texts IH]; intros ordinal claims dropped Hlen; cbn [keep_claims].
  { exists []. by rw app_nil_r filter_nil take_nil. }
  destruct (spans_for_ok c request t) as (_ & _ & Hs). specialize (Hs Hc).
  case_decide as Hfull.
  - specialize (IH (S ordinal) claims (S dropped) Hlen). destruct (keep_claims _ _ _ _ _ _) as [claims' dropped'].
    destruct IH as (new & H1 & H2 & H3 & H4). exists new. replace (MAX_CLAIMS - length claims)%nat with 0%nat in * by lia.
    split_and!; [done|by rw H2|done|simpl; lia].
  - rw filter_cons. destruct (spans_for c request t) as [|sp sps] eqn:E.
    + rw decide_False; [|by intros ?%Hs]. specialize (IH (S ordinal) claims (S dropped) Hlen).
      destruct (keep_claims _ _ _ _ _ _) as [claims' dropped']. destruct IH as (new & H1 & H2 & H3 & H4).
      exists new. split_and!; [done..|simpl; lia].
    + rw decide_True; [|by apply Hs]. specialize (IH (S ordinal) (claims ++ [MkClaim ordinal t (sp :: sps)]) dropped).
      rw length_app in IH. cbn [length] in IH. specialize (IH ltac:(lia)).
      destruct (keep_claims _ _ _ _ _ _) as [claims' dropped']. destruct IH as (new & H1 & H2 & H3 & H4).
      exists (MkClaim ordinal t (sp :: sps) :: new). rw -assoc in H1.
      replace (MAX_CLAIMS - length claims)%nat with (S (MAX_CLAIMS - (length claims + 1))) by lia.
      split_and!; [done|cbn; by rw -H2| |simpl; lia]. constructor; [|done]. by rw E.
Qed.

Lemma renumber_lookup claims i cl :
  renumber claims !! i = Some cl ↔ ∃ old, claims !! i = Some old ∧ cl = MkClaim i (cl_text old) (cl_spans old).
Proof. unfold renumber. rw list_lookup_imap. destruct (claims !! i); simpl; naive_solver. Qed.

Lemma renumber_texts claims : cl_text <$> renumber claims = cl_text <$> claims.
Proof. unfold renumber. rw fmap_imap. by apply imap_const. Qed.

(** What [validate] returns, with the loop's invariant. *)
Lemma validate_inr reply request c v :
  corpus_utf8 c → validate reply request c = inr v →
  let texts := split_claims (rd_text (redact reply)) in
  trim reply ≠ "" ∧ (Z.of_nat (String.length reply) ≤ MAX_REPLY_BYTES)%Z ∧
  va_request_id (vd_answer v) = rq_request_id request ∧
  va_corpus_digest (vd_answer v) = rq_corpus_digest request ∧
  cl_text <$> va_claims (vd_answer v) = take MAX_CLAIMS (filter (supported c request) texts) ∧
  (length (va_claims (vd_answer v)) + vd_dropped_claims v = length texts)%nat ∧
  va_abstained (vd_answer v) = bool_decide (va_claims (vd_answer v) = []) ∧
  ∀ i cl, va_claims (vd_answer v) !! i = Some cl →
    cl_ordinal cl = i ∧ cl_spans cl = spans_for c request (cl_text cl) ∧ cl_spans cl ≠ [].
Proof.
  intros Hc. unfold validate. intros H. apply result_bind_inr in H as ([] & H1 & H).
  apply result_bind_inr in H as ([] & H2 & H). apply result_ensure_inr, bool_decide_eq_true in H1, H2.
  pose proof (keep_claims_ok c request 0 (split_claims (rd_text (redact reply))) [] 0 Hc ltac:(cbn; lia)) as Hk.
  destruct (keep_claims _ _ _ _ _ _) as [claims dropped]. destruct Hk as (new & -> & Ht & Hn & Hl).
  injection H as <-. cbn. split_and!; try done.
  - by rw renumber_texts.
  - unfold renumber. rw length_imap. lia.
  - intros i cl (old & Hold & ->)%renumber_lookup. split; [done|].
    by destruct (Forall_lookup_1 _ _ _ _ Hn Hold).
Qed.

(** The sentences of a text, from the text alone: cut after every full stop,
    exclamation mark and question mark, trimmed, and the blank ones left out. *)
Definition terminators : list string := ["."; "!"; "?"].

Definition ends_once (l : list string) : Prop :=
  ∃ body t, l = body ++ [t] ∧ t ∈ terminators ∧ Forall (.∉ terminators) body.

Definition sentences_of (text : string) (sentences : list string) : Prop :=
  ∃ closed last,
    chars text = mjoin closed ++ last ∧ Forall ends_once closed ∧ Forall (.∉ terminators) last ∧
    sentences = filter (λ s, s ≠ "") ((λ l, trim (concat_str l)) <$> closed ++ [last]).

Lemma is_terminator_spec ch : is_terminator ch = true ↔ ch ∈ terminators.
Proof. unfold is_terminator, terminators. rw !elem_of_cons elem_of_nil !orb_true_iff !bool_decide_eq_true. tauto. Qed.

Lemma split_claims_from_spec current l :
  Forall (.∉ terminators) current →
  ∃ closed last,
    current ++ l = mjoin closed ++ last ∧ Forall ends_once closed ∧ Forall (.∉ terminators) last ∧
    split_claims_from current l
      = filter (λ s, s ≠ "") ((λ l, trim (concat_str l)) <$> closed ++ [last]).
Proof.
  revert current. induction l as [|ch l IH]; intros current Hc; cbn [split_claims_from].
  { exists [], current. rw app_nil_r. split_and!; try done. cbn. unfold push_trimmed. by repeat case_decide. }
  destruct (is_terminator ch) eqn:Ht.
  - destruct (IH [] (Forall_nil_2 _)) as (closed & last & E & H1 & H2 & ->). cbn in E.
    exists ((current ++ [ch]) :: closed), last. cbn. rw E. split_and!; [by rw -!assoc| |done|].
    + constructor; [|done]. exists current, ch. split_and!; [done|by apply is_terminator_spec|done].
    + cbn. unfold push_trimmed. by repeat case_decide.
  - destruct (IH (current ++ [ch])) as (closed & last & E & H).
    { apply Forall_app. split; [done|]. constructor; [|done]. by rw -is_terminator_spec Ht. }
    exists closed, last. by rw -assoc in E.
Qed.

Lemma split_claims_spec text : sentences_of text (split_claims text).
Proof. apply (split_claims_from_spec []). constructor. Qed.

Lemma filter_complement {A} (P : A → Prop) `{!∀ x, Decision (P x)} (l : list A) :
  (length (filter P l) + length (filter (λ x, ¬ P x) l) = length l)%nat.
Proof. induction l as [|x l IH]; [done|]. rw !filter_cons. repeat case_decide; cbn; try done; lia. Qed.

(** C28: a validated answer is made of the supported sentences of the
    redacted reply: the reply cut after every full stop, exclamation mark and
    question mark, with no text lost, trimmed, blank sentences left out.  The
    claims are the first 32 of the sentences that a chunk of the request
    supports, in their order and numbered from 0, and the answer abstains exactly
    when none is supported.  As long as no more than 32 are supported, every
    supported sentence is a claim and the unsupported ones are counted as
    dropped; nothing is claimed of the count beyond that.  A reply is rejected
    exactly when it is blank or longer than 32 KiB. *)
Theorem help_validate_exact reply request c :
  corpus_utf8 c →
  match validate reply request c with
  | inl ReplyEmpty => trim reply = ""
  | inl ReplyTooLarge => trim reply ≠ "" ∧ (MAX_REPLY_BYTES < Z.of_nat (String.length reply))%Z
  | inr v =>
      trim reply ≠ "" ∧ (Z.of_nat (String.length reply) ≤ MAX_REPLY_BYTES)%Z ∧
      cl_ordinal <$> va_claims (vd_answer v) = seq 0 (length (va_claims (vd_answer v))) ∧
      ∃ sentences, sentences_of (rd_text (redact reply)) sentences ∧
        cl_text <$> va_claims (vd_answer v) = take 32 (filter (supported c request) sentences) ∧
        (va_abstained (vd_answer v) = true ↔ filter (supported c request) sentences = []) ∧
        (length (filter (supported c request) sentences) ≤ 32 →
         cl_text <$> va_claims (vd_answer v) = filter (supported c request) sentences ∧
         vd_dropped_claims v = length (filter (λ s, ¬ supported c request s) sentences))%nat
  end.
Proof.
  intros Hc. destruct (validate reply request c) as [r|v] eqn:E.
  - unfold validate, ensure in E.
    destruct (decide (trim reply = "")) as [H1|H1];
      [rw (bool_decide_eq_false_2 (trim reply ≠ "")) in E; [by injection E as <-|by intros []]|rw (bool_decide_eq_true_2 (trim reply ≠ "")) // in E].
    case_bool_decide as H2; cbn in E; [|injection E as <-; split; [done|lia]].
    by destruct (keep_claims _ _ _ _ _ _).
  - apply validate_inr in E as (H1 & H2 & _ & _ & H3 & H4 & H5 & H6); [|done]. split_and!; try done.
    + apply list_eq. intros i. rw list_lookup_fmap. destruct (va_claims (vd_answer v) !! i) as [cl|] eqn:Hi; cbn.
      * rw lookup_seq_lt; [|by eapply lookup_lt_Some]. by rw (proj1 (H6 i cl Hi)).
      * by rw lookup_seq_ge; [|by apply lookup_ge_None].
    + exists (split_claims (rd_text (redact reply))). split; [apply split_claims_spec|]. split; [done|]. split.
      * rw H5 bool_decide_eq_true. split; intros E; rw E in H3; [by destruct (filter _ _)|by apply fmap_nil_inv in H3].
      * intros Hle. rw take_ge // in H3. split; [done|].
        pose proof (filter_complement (supported c request) (split_claims (rd_text (redact reply)))) as Hf.
        rw -H3 length_fmap in Hf. lia.
Qed.

(** C7: Every claim of a validated answer is cited, and every citation quotes:
    the bytes at its offsets, in the chunk the request carried and the corpus
    still has under that digest, are at least 24 characters that the claim
    repeats verbatim, no shorter than any run the two texts share. Two citations
    of one claim do not overlap. *)
Theorem validate_quotes reply request c v cl :
  corpus_utf8 c → validate reply request c = inr v → cl ∈ va_claims (vd_answer v) →
  cl_spans cl ≠ [] ∧ disjoint_spans (cl_spans cl) = true ∧
  ∀ sp, sp ∈ cl_spans cl → ∃ q, span_ok c request (cl_text cl) sp q.
Proof.
  intros Hc Hv [i Hi]%list_elem_of_lookup. apply validate_inr in Hv as (_ & _ & _ & _ & _ & _ & _ & Hcl); [|done].
  destruct (Hcl i cl Hi) as (_ & Hs & Hne). destruct (spans_for_ok c request (cl_text cl)) as (H1 & H2 & _).
  split_and!; [done|by rw Hs disjoint_spans_pairwise|]. intros sp. rw Hs. intros (k & Hk & Hsp)%H2.
  by eapply span_of_ok.
Qed.

(** ** The second pass and the projection *)

(** A citation shows the quoted bytes and the source they come from. *)
Definition cites_span (c : Corpus) (sp : CitationSpan) (ct : CitationProjection) : Prop :=
  quote_for sp c = Some (cp_quote ct) ∧
  ∃ s, source c (sp_source_id sp) = Some s ∧ cp_source_id ct = sp_source_id sp ∧
    cp_path ct = sa_path s ∧ cp_heading ct = sa_heading s.

(** A projected claim: the same number and text, a citation for every span. *)
Definition shows_claim (c : Corpus) (cl : Claim) (pc : ClaimProjection) : Prop :=
  cj_ordinal pc = cl_ordinal cl ∧ cj_text pc = cl_text cl ∧
  Forall2 (cites_span c) (cl_spans cl) (cj_citations pc).

Lemma project_spans_ok c request text spans :
  (∀ sp, sp ∈ spans → ∃ q, span_ok c request text sp q) →
  Forall2 (cites_span c) spans (omap (project_span c) spans).
Proof.
  induction spans as [|sp spans IH]; intros Hok; [constructor|].
  destruct (Hok sp ltac:(left)) as (q & Hq). pose proof (so_resolves _ _ _ _ _ Hq) as Hr. unfold span_resolves in Hr.
  destruct (chunk c (sp_chunk_id sp)) as [k|] eqn:Hk; [|done]. apply andb_true_iff in Hr as [_ Hr].
  destruct (source c (sp_source_id sp)) as [s|] eqn:Hs; [|done]. cbn [omap list_omap].
  assert (project_span c sp = Some (MkCitationProjection (sa_id s) (sa_path s) (sa_heading s) q)) as ->.
  { unfold project_span. rw (so_quote _ _ _ _ _ Hq). cbn. by rw Hs. }
  constructor; [|apply IH; intros; apply Hok; by right]. split; [apply Hq|]. exists s. cbn.
  by rw (source_found _ _ _ Hs).
Qed.

(** Nothing is left out of the projection when every claim has a citation. *)
Lemma project_claims_ok c claims :
  (∀ i cl, claims !! i = Some cl →
     cl_ordinal cl = i ∧ cl_spans cl ≠ [] ∧ Forall2 (cites_span c) (cl_spans cl) (omap (project_span c) (cl_spans cl))) →
  Forall2 (shows_claim c) claims (project_claims c claims).
Proof.
  unfold project_claims. induction claims as [|cl claims IH] using rev_ind; intros Hok; [constructor|].
  rw foldl_snoc. assert (Forall2 (shows_claim c) claims (project_claims c claims)) as Hp.
  { apply IH. intros i cl' Hi. apply Hok. by apply lookup_app_l_Some. }
  clear IH. fold (project_claims c claims). pose proof (Forall2_length _ _ _ Hp) as Hlen.
  destruct (Hok (length claims) cl) as (Ho & Hne & Hc); [by rw lookup_app_r // Nat.sub_diag|].
  destruct (omap (project_span c) (cl_spans cl)) as [|ct cts] eqn:E; [by inversion Hc|].
  apply Forall2_app; [done|]. constructor; [|constructor]. cbn. split_and!; [by rw Ho Hlen|done|done].
Qed.

(** What [validate] returns survives the independent second pass over the
    same corpus, and its projection shows every claim, numbered alike, and for
    every span the quoted bytes with the path and heading of their source; the
    projection is answered unless the answer abstains. *)
Theorem validated_projects reply request c v handle :
  corpus_utf8 c → validate reply request c = inr v → rq_corpus_digest request = co_digest c →
  let p := project handle (vd_answer v) c PAnswered in
  spans_resolve (vd_answer v) c = true ∧
  hp_status p = (if va_abstained (vd_answer v) then PAbstained else PAnswered) ∧
  Forall2 (shows_claim c) (va_claims (vd_answer v)) (hp_claims p).
Proof.
  intros Hc Hv Hd. apply validate_inr in Hv as (_ & _ & _ & Hcd & _ & _ & Hab & Hcl); [|done].
  assert (∀ i cl, va_claims (vd_answer v) !! i = Some cl →
    cl_ordinal cl = i ∧ cl_spans cl ≠ [] ∧ pairwise (cl_spans cl) ∧
    ∀ sp, sp ∈ cl_spans cl → ∃ q, span_ok c request (cl_text cl) sp q) as Hall.
  { intros i cl Hi. destruct (Hcl i cl Hi) as (H1 & H2 & H3).
    destruct (spans_for_ok c request (cl_text cl)) as (H4 & H5 & _). rw -H2 in H4, H5.
    split_and!; [done..|]. intros sp (k & Hk & Hsp)%H5. by eapply span_of_ok. }
  clear Hcl. assert (Forall2 (shows_claim c) (va_claims (vd_answer v)) (project_claims c (va_claims (vd_answer v)))) as Hp.
  { apply project_claims_ok. intros i cl Hi. destruct (Hall i cl Hi) as (H1 & H2 & _ & H3).
    split_and!; [done..|]. by eapply project_spans_ok. }
  split_and!; [| |done].
  - unfold spans_resolve. rw bool_decide_eq_true_2; [|congruence]. apply forallb_forall. intros cl Hin.
    apply list_elem_of_In, list_elem_of_lookup in Hin as [i Hi]. destruct (Hall i cl Hi) as (_ & Hne & Hpw & Hs).
    rw bool_decide_eq_true_2 //. rw (proj2 (disjoint_spans_pairwise _) Hpw) andb_true_r. apply forallb_forall.
    intros sp Hsp. apply list_elem_of_In, Hs in Hsp as [q Hq]. apply Hq.
  - cbn. rw Hab. case_bool_decide as E.
    + rw E in Hp |- *. done.
    + rw decide_False //. intros [E' _]. rw E' in Hp. by inversion Hp.
Qed.
