(* ===== verification/HelpWitness.v ===== *)
(** * One run of the Help components

    A corpus of two articles, a session, an ask that is sent and cancelled, and
    the desktop host over the same corpus: the states at which the theorems of
    the Help files are applied. *)

From stdpp Require Import pretty.
From S2P Require Import Prelude Text Chars Ids State World Concrete Result HelpDigest HelpCorpus HelpCorpusFacts HelpDto.
From S2P Require Import HelpAuthority HelpAuthorityFacts HelpAuthorityProps.
From S2P Require Import HelpExecutor HelpExecInv HelpExecProps HelpHost HelpHostProps.
From S2P Require Import Chars HelpRedact HelpValidate HelpValidateProps.

#[local] Instance help_sha : Sha256 := { sha256 s := le_bytes 32 (poly_hash s 7) }.

Definition from_inr {E A} (d : A) (r : E + A) : A := match r with inr a => a | inl _ => d end.

(** ** A corpus *)

Definition w_sources : list SourceSeed :=
  [MkSourceSeed "src.runs" "docs/runs.md" "Runs" Public; MkSourceSeed "src.ops" "docs/ops.md" "Operators" Operator].

Definition w_articles : list ArticleSeed :=
  [MkArticleSeed "runs" "Runs" Operations "How runs are kept." "A run is kept until its owner removes it. Nothing else ends it."
     [] ["run"] ["src.runs"] Public [];
   MkArticleSeed "ops" "Operators" Operations "For operators." "An operator may drain the queue at any time."
     [] [] ["src.ops"] Operator ["operate"]].

Definition w_corpus : Corpus := from_inr (MkCorpus "" "" [] [] [] "" "") (build w_sources w_articles).

Lemma w_build : build w_sources w_articles = inr w_corpus.
Proof. vm_compute. reflexivity. Qed.

Lemma w_utf8 : corpus_utf8 w_corpus.
Proof.
  intros k Hk. apply list_elem_of_In in Hk. revert k Hk.
  apply (proj1 (forallb_forall (λ k, utf8_valid (ck_text k)) (co_chunks w_corpus))). vm_compute. reflexivity.
Qed.

(** ** An authority and an ask *)

Definition w_session : SessionRecord := MkSessionRecord "token" "s1" "alice" "local" KMember ∅ Public.
Definition w_principal : Principal := principal_of w_session.

Definition w_h0 : Authority := MkAuthority w_corpus 1 ∅ ∅ ∅ 1.
Definition w_h1 : Authority := register_session w_session w_h0.

Lemma w_serves : serves w_h1.
Proof.
  exists w_corpus, w_h0, (0 + 0)%nat. split; [vm_compute; reflexivity|].
  eapply hss_step; [apply hss_refl|apply hs_register].
Qed.

Definition w_no_request : HelpRequest := MkHelpRequest "" "" 0 "" "" [] "" "".

Definition w_built : HelpRequest * Authority :=
  from_inr (w_no_request, w_h1) (build_request w_principal "How long?" "en" ["runs#body.0"; "ops#body.0"] w_h1).
Definition w_request : HelpRequest := w_built.1.

Definition w_issued : Grant * Authority := issue_grant w_principal 0 60000 w_built.2.
Definition w_grant : Grant := w_issued.1.
Definition w_h3 : Authority := w_issued.2.

Lemma w_built_step : hstep 0 w_h1 w_built.2.
Proof. eapply (hs_build w_principal "How long?" "en" ["runs#body.0"; "ops#body.0"] w_request). vm_compute. reflexivity. Qed.

Lemma w_issued_step : hstep 0 w_built.2 w_h3.
Proof. eapply (hs_issue w_principal 0 60000 w_grant). reflexivity. Qed.

Lemma w_serves3 : serves w_h3.
Proof. eapply serves_step, w_issued_step. eapply serves_step, w_built_step. apply w_serves. Qed.

(** The operator's passage is not in the request. *)
Example w_request_context : cc_chunk_id <$> rq_context w_request = ["runs#body.0"].
Proof. vm_compute. reflexivity. Qed.

Lemma visible_corpus_exact_witness :
  co_articles (visible_corpus w_h1 w_principal) = visible_articles w_h1 w_principal ∧
  verify (visible_corpus w_h1 w_principal) = inr ().
Proof.
  destruct (visible_corpus_exact w_h1 w_principal w_serves) as (H1 & H2 & _). split; assumption.
Defined.

Lemma reauthorize_exact_witness :
  ∃ p, grant_ok w_h3 "token" w_grant 5 p ∧ (∀ r, Some w_request = Some r → request_ok w_h3 p r) ∧
    (∀ a, None = Some a → admission_ok w_grant (Some w_request) 5 a).
Proof.
  apply (proj1 (reauthorize_exact w_h3 CAdmission "token" w_grant None (Some w_request) 5 w_serves3)).
  vm_compute. reflexivity.
Defined.

Definition w_no_admission : Admission := MkAdmission "" "" "" "" 0 0 "".
Definition w_admitted : Admission * Authority :=
  from_inr (w_no_admission, w_h3) (admit_request "token" w_grant w_request 0 30000 w_h3).

Lemma admission_binds_witness : w_grant = w_grant ∧ w_request = w_request ∧ (7 < 30000)%Z.
Proof.
  apply (admission_binds w_h3 "token" w_grant w_request 0 30000 w_admitted.1 w_admitted.2 w_admitted.2
           CBeforeSend "token" w_grant w_request 7).
  - exact w_serves3.
  - eapply serves_step; [exact w_serves3|]. eapply (hs_admit "token" w_grant w_request 0 30000 w_admitted.1).
    vm_compute. reflexivity.
  - vm_compute. reflexivity.
  - vm_compute. reflexivity.
  - intros _. reflexivity.
  - intros _. reflexivity.
Defined.

Lemma grant_dies_witness :
  dead (revoke_grant (gr_grant_id w_grant) w_h3) w_grant ∧
  dead (revoke_principal "alice" (revoke_principal "bob" w_h3)) w_grant.
Proof.
  destruct (grant_dies w_h3 w_grant w_serves3) as (H1 & _ & H3). split.
  - apply (H1 0%nat). apply hss_refl.
  - apply (H3 (eq_refl : gr_manifest_revision w_grant = ha_revision w_h3) (revoke_principal "bob" w_h3)
             (or_introl (ex_intro _ "bob" eq_refl)) (0 + 1)%nat).
    + eapply hss_step; [apply hss_refl|apply hs_revoke_principal].
    + reflexivity.
Defined.

(** ** A host that sends, then cancels

    The provider's state says whether it was told to stop. *)

#[local] Instance w_provider : Provider bool := {
  pv_begin _ p := (Accepted 1%Z, p);
  pv_poll _ _ p := (if p then Quiesced else Pending, p);
  pv_cancel _ _ := true
}.

Definition w_e0 : Executor (Logged bool) := executor_new bounds_default (MkLogged false []).

Definition w_submitted : RunIdentity * Authority * Executor (Logged bool) :=
  from_inr (MkRunIdentity "" "" "" 0, w_h3, w_e0) (submit "token" w_grant w_request 0 w_h3 w_e0).
Definition w_handle : string := ri_handle w_submitted.1.1.

Definition w_h4 : Authority := w_submitted.1.2.
Definition w_e4 : Executor (Logged bool) := w_submitted.2.
Definition w_e5 : Executor (Logged bool) := tick w_h4 10 w_e4.
Definition w_e6 : Executor (Logged bool) := cancel w_handle 20 w_e5.
Definition w_e7 : Executor (Logged bool) := tick w_h4 30 w_e6.

Definition w_queued : Authority * Executor (Logged bool) := (w_h4, w_e4).
Definition w_sent : Authority * Executor (Logged bool) := (w_h4, w_e5).
Definition w_cancelling : Authority * Executor (Logged bool) := (w_h4, w_e6).
Definition w_cancelled : Authority * Executor (Logged bool) := (w_h4, w_e7).

Lemma w_queued_reached : reaches bounds_default w_queued.
Proof.
  exists w_h3, false. split; [exact w_serves3|]. apply rtc_once.
  apply (xs_submit "token" w_grant w_request 0 w_h3 w_e0 w_submitted.1.1); vm_compute; reflexivity.
Qed.

Lemma w_send_step : xstep w_queued w_sent.
Proof. exact (xs_tick 10 w_h4 w_e4). Qed.

Lemma w_cancel_step : xstep w_sent w_cancelling.
Proof. exact (xs_cancel w_handle 20 w_h4 w_e5). Qed.

Lemma w_quiesce_step : xstep w_cancelling w_cancelled.
Proof. exact (xs_tick 30 w_h4 w_e6). Qed.

Lemma reaches_step b (s s' : Authority * Executor (Logged bool)) : reaches b s → xstep s s' → reaches b s'.
Proof. intros (h & p & Hv & Hr) Hs. exists h, p. split; [done|]. by eapply rtc_r. Qed.

Lemma w_sent_reached : reaches bounds_default w_sent.
Proof. exact (reaches_step _ _ _ w_queued_reached w_send_step). Qed.

Lemma w_cancelled_reached : reaches bounds_default w_cancelled.
Proof.
  apply (reaches_step _ w_cancelling); [|exact w_quiesce_step].
  apply (reaches_step _ w_sent); [exact w_sent_reached|exact w_cancel_step].
Qed.

Lemma sends_authorized_witness :
  begins (ex_log w_sent.2) = [(w_request, Accepted 1%Z)] ∧
  ∃ new, ex_log w_sent.2 = ex_log w_queued.2 ++ new ∧ ∀ q a, CallBegin q a ∈ new →
    ∃ i r, ex_runs w_queued.2 !! i = Some r ∧ rn_state r = RQueued ∧ rn_request r = q ∧
      authorized w_queued.1 10 r.
Proof.
  split; [vm_compute; reflexivity|].
  exact (proj1 (sends_authorized bounds_default w_queued w_queued_reached) 10%Z).
Defined.

Lemma one_send_per_run_witness :
  ex_provider_calls w_cancelled.2 = 1%nat ∧
  ∃ begun : list (nat * Begin), NoDup begun.*1 ∧ ex_provider_calls w_cancelled.2 = length begun.
Proof.
  split; [vm_compute; reflexivity|].
  destruct (one_send_per_run bounds_default w_cancelled w_cancelled_reached) as (begun & H1 & H2 & _).
  exists begun. split; assumption.
Defined.

Lemma executor_bounded_witness :
  (capacity_in_use w_sent.2 ≤ 2)%nat ∧ (queued w_sent.2 ≤ 8)%nat ∧ capacity_in_use w_sent.2 = 1%nat.
Proof.
  destruct (executor_bounded bounds_default w_sent w_sent_reached) as (H1 & H2 & _).
  split; [exact H1|]. split; [exact H2|]. vm_compute. reflexivity.
Defined.

Definition w_run : Run :=
  default (MkRun w_submitted.1.1 RQueued w_grant w_no_admission w_request None NotSent None None 0 0 None None false)
    (ex_runs w_e7 !! 0%nat).

Lemma stops_observed_witness : stopped (ex_log w_cancelled.2) 1%Z.
Proof.
  apply (stops_observed bounds_default w_cancelled 0 w_run 1%Z w_cancelled_reached).
  - vm_compute. reflexivity.
  - vm_compute. reflexivity.
  - left. vm_compute. reflexivity.
Defined.

(** ** The desktop host over the same corpus *)

Definition w_state : HelpState :=
  default (MkHelpState (MkHelpInner w_h0 (executor_new bounds_default MkDisabledProvider) "") false)
    (help_state_new w_corpus 0).

Lemma w_hosts : hosts w_state.
Proof. apply (ho_new w_corpus 0). vm_compute. reflexivity. Qed.

Definition w_ask : HelpAsk := MkHelpAsk "help-session-0" "How long is a run kept?" None.
Definition w_asked : HelpProjection := from_inr (MkHelpProjection "" PQueued [] None None) (help_ask w_ask 5 w_state).1.


(** ** A reply that quotes, and one that does not *)

Definition w_reply : string :=
  "**A run is kept until its owner removes it.** Runs are deleted at midnight! See /etc/passwd.".

Definition w_validation : Validation :=
  from_inr (MkValidation (MkValidatedAnswer "" "" [] [] true) [] 0) (validate w_reply w_request w_corpus).

Example w_claims : cl_text <$> va_claims (vd_answer w_validation) = ["A run is kept until its owner removes it."].
Proof. vm_compute. reflexivity. Qed.

Lemma w_validated : validate w_reply w_request w_corpus = inr w_validation.
Proof. vm_compute. reflexivity. Qed.

Lemma help_validate_exact_witness :
  ∃ sentences, sentences_of (rd_text (redact w_reply)) sentences ∧
    cl_text <$> va_claims (vd_answer w_validation)
      = take 32 (filter (supported w_corpus w_request) sentences) ∧
    va_claims (vd_answer w_validation) ≠ [].
Proof.
  pose proof (help_validate_exact w_reply w_request w_corpus w_utf8) as H. rw w_validated in H.
  destruct H as (_ & _ & _ & sentences & H1 & H2 & _). exists sentences. split; [exact H1|].
  split; [exact H2|]. vm_compute. discriminate.
Defined.

Lemma validate_quotes_witness :
  Forall (λ cl, cl_spans cl ≠ [] ∧ ∀ sp, sp ∈ cl_spans cl → ∃ q, span_ok w_corpus w_request (cl_text cl) sp q)
    (va_claims (vd_answer w_validation)).
Proof.
  apply Forall_forall. intros cl Hcl.
  destruct (validate_quotes w_reply w_request w_corpus w_validation cl w_utf8 w_validated Hcl) as (H1 & _ & H2).
  split; assumption.
Defined.

Lemma validated_projects_witness :
  spans_resolve (vd_answer w_validation) w_corpus = true ∧
  hp_status (project "help-2" (vd_answer w_validation) w_corpus PAnswered) = PAnswered.
Proof.
  destruct (validated_projects w_reply w_request w_corpus w_validation "help-2" w_utf8 w_validated) as (H1 & H2 & _).
  - vm_compute. reflexivity.
  - split; [exact H1|]. transitivity (if va_abstained (vd_answer w_validation) then PAbstained else PAnswered);
      [exact H2|]. vm_compute. reflexivity.
Defined.

