(* ===== verification/Patch.v ===== *)
(** * The patch tool

    [xai-grok-tools/src/implementations/codex/apply_patch]: the parser of the
    patch format, the fuzzy search for lines, the application of a patch to the
    text of a file, and the tool that reads and writes the files.  A panic is
    [None]; line numbers and indices are [usize] values that count lines. *)

From Stdlib Require Import Ascii.
From stdpp Require Import pretty.
From S2P Require Import Prelude Text Chars Result.

(** ** Errors ([errors.rs]) *)

Inductive ParseError :=
  | InvalidPatchError (message : string)
  | InvalidHunkError (message : string) (line_number : nat).

Inductive ApplyPatchError :=
  | ApplyParse (error : ParseError)
  | ComputeReplacements (message : string)
  | ApplyIo (context message : string) (path : option string).

Definition parse_error_display (e : ParseError) : string :=
  match e with
  | InvalidPatchError m => "invalid patch: " +:+ m
  | InvalidHunkError m n => "invalid hunk at line " +:+ pretty n +:+ ", " +:+ m
  end.

Definition apply_error_display (e : ApplyPatchError) : string :=
  match e with
  | ApplyParse e => parse_error_display e
  | ComputeReplacements m => m
  | ApplyIo context m _ => context +:+ ": " +:+ m
  end.

(** ** The parser ([parser.rs]) *)

Definition BEGIN_PATCH_MARKER : string := "*** Begin Patch".
Definition END_PATCH_MARKER : string := "*** End Patch".
Definition ADD_FILE_MARKER : string := "*** Add File: ".
Definition DELETE_FILE_MARKER : string := "*** Delete File: ".
Definition UPDATE_FILE_MARKER : string := "*** Update File: ".
Definition MOVE_TO_MARKER : string := "*** Move to: ".
Definition EOF_MARKER : string := "*** End of File".
Definition CHANGE_CONTEXT_MARKER : string := "@@ ".
Definition EMPTY_CHANGE_CONTEXT_MARKER : string := "@@".

Definition PARSE_IN_STRICT_MODE : bool := false.

Record UpdateFileChunk := MkUpdateFileChunk {
  uc_change_context : option string;
  uc_old_lines : list string;
  uc_new_lines : list string;
  uc_is_end_of_file : bool
}.

Inductive Hunk :=
  | AddFile (path contents : string)
  | DeleteFile (path : string)
  | UpdateFile (path : string) (move_path : option string) (chunks : list UpdateFileChunk).

Record ParsedPatch := MkParsedPatch {
  pp_hunks : list Hunk;
  pp_patch : string
}.

Inductive ParseMode := Strict | Lenient.

Definition no_lines : string := "Update hunk does not contain any lines".

(** The loop over the lines of a chunk, and how many it took. *)
Fixpoint chunk_lines (line_number parsed : nat) (chunk : UpdateFileChunk) (lines : list string)
    : ParseError + (UpdateFileChunk * nat) :=
  let push old new :=
    MkUpdateFileChunk (uc_change_context chunk) (uc_old_lines chunk ++ old) (uc_new_lines chunk ++ new)
      (uc_is_end_of_file chunk) in
  match lines with
  | [] => inr (chunk, parsed)
  | line :: lines =>
      if decide (line = EOF_MARKER) then
        if decide (parsed = 0%nat) then inl (InvalidHunkError no_lines (line_number + 1))
        else inr (MkUpdateFileChunk (uc_change_context chunk) (uc_old_lines chunk) (uc_new_lines chunk) true, S parsed)
      else
        match line with
        | "" => chunk_lines line_number (S parsed) (push [""] [""]) lines
        | String c text =>
            if decide (c = " "%char) then chunk_lines line_number (S parsed) (push [text] [text]) lines
            else if decide (c = "+"%char) then chunk_lines line_number (S parsed) (push [] [text]) lines
            else if decide (c = "-"%char) then chunk_lines line_number (S parsed) (push [text] []) lines
            else if decide (parsed = 0%nat) then
              inl (InvalidHunkError ("Unexpected line found in update hunk: '" +:+ line +:+
                "'. Every line should start with ' ' (context line), '+' (added line), or '-' (removed line)")
                (line_number + 1))
            else inr (chunk, parsed)
        end
  end.

(** The explicit context marker, and the index of the line after it. *)
Definition chunk_start (first : string) (line_number : nat) (allow_missing_context : bool)
    : ParseError + (option string * nat) :=
  if decide (first = EMPTY_CHANGE_CONTEXT_MARKER) then mret (None, 1%nat)
  else match strip_prefix CHANGE_CONTEXT_MARKER first with
       | Some context => mret (Some context, 1%nat)
       | None =>
           _ ← ensure allow_missing_context (InvalidHunkError
                 ("Expected update hunk to start with a @@ context marker, got: '" +:+ first +:+ "'")
                 line_number);
           mret (None, 0%nat)
       end.

Definition parse_update_file_chunk (lines : list string) (line_number : nat) (allow_missing_context : bool)
    : ParseError + (UpdateFileChunk * nat) :=
  match lines with
  | [] => inl (InvalidHunkError no_lines line_number)
  | first :: rest =>
      '(change_context, start_index) ← chunk_start first line_number allow_missing_context;
      _ ← ensure (bool_decide (start_index < length lines)%nat) (InvalidHunkError no_lines (line_number + 1));
      '(chunk, parsed) ←
        chunk_lines line_number 0 (MkUpdateFileChunk change_context [] [] false) (drop start_index lines);
      mret (chunk, (parsed + start_index)%nat)
  end.

(** The lines of an added file: its contents, and how many lines it took. *)
Fixpoint add_lines (lines : list string) : string * nat :=
  match lines with
  | String "+" line :: lines =>
      let '(contents, n) := add_lines lines in (line +:+ String LF contents, S n)
  | _ => ("", 0%nat)
  end.

(** The loop over the chunks of an updated file; [fuel] bounds its rounds. *)
Fixpoint update_chunks (fuel line_number parsed : nat) (chunks : list UpdateFileChunk) (remaining : list string)
    : ParseError + (list UpdateFileChunk * nat) :=
  match fuel, remaining with
  | S fuel, line :: rest =>
      if decide (trim line = "") then update_chunks fuel line_number (S parsed) chunks rest
      else if starts_with "***" line then mret (chunks, parsed)
      else
        '(chunk, n) ← parse_update_file_chunk remaining (line_number + parsed) (bool_decide (chunks = []));
        update_chunks fuel line_number (parsed + n) (chunks ++ [chunk]) (drop n remaining)
  | _, _ => mret (chunks, parsed)
  end.

(** [lines] is [first :: rest]; the code indexes its first line. *)
Definition parse_one_hunk (first : string) (rest : list string) (line_number : nat)
    : ParseError + (Hunk * nat) :=
  let first_line := trim first in
  match strip_prefix ADD_FILE_MARKER first_line with
  | Some path => let '(contents, n) := add_lines rest in mret (AddFile path contents, S n)
  | None =>
  match strip_prefix DELETE_FILE_MARKER first_line with
  | Some path => mret (DeleteFile path, 1%nat)
  | None =>
  match strip_prefix UPDATE_FILE_MARKER first_line with
  | Some path =>
      let move_path := head rest ≫= strip_prefix MOVE_TO_MARKER in
      let '(remaining, parsed) :=
        match move_path with Some _ => (tail rest, 2%nat) | None => (rest, 1%nat) end in
      '(chunks, parsed) ← update_chunks (length remaining) line_number parsed [] remaining;
      _ ← ensure (bool_decide (chunks ≠ []))
            (InvalidHunkError ("Update file hunk for path '" +:+ path +:+ "' is empty") line_number);
      mret (UpdateFile path move_path chunks, parsed)
  | None =>
      inl (InvalidHunkError ("'" +:+ first_line +:+ "' is not a valid hunk header. Valid hunk headers: " +:+
        "'*** Add File: {path}', '*** Delete File: {path}', '*** Update File: {path}'") line_number)
  end end end.

(** The loop over the hunks. *)
Fixpoint parse_hunks (fuel line_number : nat) (remaining : list string) : ParseError + list Hunk :=
  match fuel, remaining with
  | S fuel, first :: rest =>
      '(hunk, n) ← parse_one_hunk first rest line_number;
      hunks ← parse_hunks fuel (line_number + n) (drop n remaining);
      mret (hunk :: hunks)
  | _, _ => mret []
  end.

Definition check_start_and_end_lines_strict (first_line last_line : option string) : ParseError + unit :=
  match trim <$> first_line, trim <$> last_line with
  | Some first, Some last =>
      if decide (first = BEGIN_PATCH_MARKER ∧ last = END_PATCH_MARKER) then mret ()
      else if decide (first ≠ BEGIN_PATCH_MARKER)
      then inl (InvalidPatchError "The first line of the patch must be '*** Begin Patch'")
      else inl (InvalidPatchError "The last line of the patch must be '*** End Patch'")
  | Some first, None =>
      if decide (first ≠ BEGIN_PATCH_MARKER)
      then inl (InvalidPatchError "The first line of the patch must be '*** Begin Patch'")
      else inl (InvalidPatchError "The last line of the patch must be '*** End Patch'")
  | None, _ => inl (InvalidPatchError "The last line of the patch must be '*** End Patch'")
  end.

Definition check_patch_boundaries_strict (lines : list string) : ParseError + unit :=
  check_start_and_end_lines_strict (head lines) (last lines).

Definition heredoc_openings : list string :=
  ["<<EOF"; "<<'EOF'"; "<<" +:+ String "034" "" +:+ "EOF" +:+ String "034" ""].

Definition check_patch_boundaries_lenient (lines : list string) (error : ParseError) : ParseError + list string :=
  match lines, last lines with
  | first :: _ :: _, Some last =>
      if decide (first ∈ heredoc_openings ∧ ends_with "EOF" last = true ∧ (4 ≤ length lines)%nat) then
        let inner_lines := take (length lines - 2) (drop 1 lines) in
        _ ← check_patch_boundaries_strict inner_lines;
        mret inner_lines
      else inl error
  | _, _ => inl error
  end.

Definition parse_patch_text (patch : string) (mode : ParseMode) : ParseError + ParsedPatch :=
  let lines := Text.lines (trim patch) in
  lines ← (match check_patch_boundaries_strict lines with
           | inr _ => mret lines
           | inl e => match mode with Strict => inl e | Lenient => check_patch_boundaries_lenient lines e end
           end);
  let remaining := take (length lines - 2) (drop 1 lines) in
  hunks ← parse_hunks (length remaining) 2 remaining;
  mret (MkParsedPatch hunks (join (String LF "") lines)).

Definition parse_patch (patch : string) : ParseError + ParsedPatch :=
  parse_patch_text patch (if PARSE_IN_STRICT_MODE then Strict else Lenient).

(** ** The search for lines ([seek_sequence.rs]) *)

Definition normalise_char (ch : string) : string :=
  let c := code_point ch in
  if decide ((0x2010 ≤ c ≤ 0x2015)%Z ∨ c = 0x2212%Z) then "-"
  else if decide (0x2018 ≤ c ≤ 0x201B)%Z then "'"
  else if decide (0x201C ≤ c ≤ 0x201F)%Z then String "034" ""
  else if decide (c = 0x00A0%Z ∨ (0x2002 ≤ c ≤ 0x200A)%Z ∨ c = 0x202F%Z ∨ c = 0x205F%Z ∨ c = 0x3000%Z) then " "
  else ch.

Definition normalise (s : string) : string := concat_str (normalise_char <$> chars (trim s)).

(** The four passes, each the form of a line it compares. *)
Definition passes : list (string → string) := [id; trim_end; trim; normalise].

(** Whether the lines from [i] on are the pattern, up to [form]. *)
Definition matches_at (form : string → string) (lines pattern : list string) (i : nat) : bool :=
  bool_decide (form <$> take (length pattern) (drop i lines) = form <$> pattern).

(** One pass: the first index from [search_start] on. *)
Definition find_pass (lines pattern : list string) (search_start : nat) (form : string → string) : option nat :=
  snd <$> list_find (λ i, matches_at form lines pattern i = true)
            (seq search_start (S (length lines - length pattern) - search_start)).

Definition seek_sequence (lines pattern : list string) (start : nat) (eof : bool) : option nat :=
  if decide (pattern = []) then Some start
  else if decide (length lines < length pattern)%nat then None
  else
    let search_start := if eof then (length lines - length pattern)%nat else start in
    head (omap (find_pass lines pattern search_start) passes).

(** ** Application ([apply.rs]) *)

Definition Replacement : Type := nat * nat * list string.

(** Lines without a final empty one. *)
Definition drop_final_empty (l : list string) : list string :=
  if decide (last l = Some "") then take (length l - 1) l else l.

Definition locate_chunk (lines : list string) (line_index : nat) (chunk : UpdateFileChunk)
    : option (nat * list string * list string) :=
  let old := uc_old_lines chunk in
  let new := uc_new_lines chunk in
  match seek_sequence lines old line_index (uc_is_end_of_file chunk) with
  | Some i => Some (i, old, new)
  | None =>
      if decide (last old = Some "") then
        let pattern := drop_final_empty old in
        (λ i, (i, pattern, drop_final_empty new)) <$>
          seek_sequence lines pattern line_index (uc_is_end_of_file chunk)
      else None
  end.

(** The line index after the context of a chunk. *)
Definition context_index (lines : list string) (path : string) (line_index : nat) (chunk : UpdateFileChunk)
    : ApplyPatchError + nat :=
  match uc_change_context chunk with
  | None => mret line_index
  | Some ctx_line =>
      match seek_sequence lines [ctx_line] line_index false with
      | Some idx => mret (S idx)
      | None => inl (ComputeReplacements ("Failed to find context '" +:+ ctx_line +:+ "' in " +:+ path))
      end
  end.

Fixpoint replacements_from (lines : list string) (path : string) (line_index : nat)
    (chunks : list UpdateFileChunk) : ApplyPatchError + list Replacement :=
  match chunks with
  | [] => mret []
  | chunk :: chunks =>
      line_index ← context_index lines path line_index chunk;
      if decide (uc_old_lines chunk = []) then
        let insertion_idx := if decide (last lines = Some "") then (length lines - 1)%nat else length lines in
        replacements ← replacements_from lines path line_index chunks;
        mret ((insertion_idx, 0%nat, uc_new_lines chunk) :: replacements)
      else
        match locate_chunk lines line_index chunk with
        | Some (start_idx, pattern, new_slice) =>
            replacements ← replacements_from lines path (start_idx + length pattern) chunks;
            mret ((start_idx, length pattern, new_slice) :: replacements)
        | None =>
            inl (ComputeReplacements ("Failed to find expected lines in " +:+ path +:+ ":" +:+ String LF "" +:+
              join (String LF "") (uc_old_lines chunk)))
        end
  end.

Definition by_start (a b : Replacement) : comparison := Nat.compare a.1.1 b.1.1.

Definition compute_replacements (lines : list string) (path : string) (chunks : list UpdateFileChunk)
    : ApplyPatchError + list Replacement :=
  replacements ← replacements_from lines path 0 chunks;
  mret (sort_by by_start replacements).

(** [Vec::remove] at an index that is in range, and nothing otherwise. *)
Definition remove_at (i : nat) (lines : list string) : list string :=
  if decide (i < length lines)%nat then take i lines ++ drop (S i) lines else lines.

(** [Vec::insert]; an index past the end panics. *)
Definition insert_at (i : nat) (x : string) (lines : list string) : option (list string) :=
  if decide (i ≤ length lines)%nat then Some (take i lines ++ x :: drop i lines) else None.

Fixpoint insert_all (i : nat) (new : list string) (lines : list string) : option (list string) :=
  match new with
  | [] => Some lines
  | x :: new => lines ← insert_at i x lines; insert_all (S i) new lines
  end.

Definition apply_one (r : Replacement) (lines : list string) : option (list string) :=
  let '(start_idx, old_len, new_segment) := r in
  insert_all start_idx new_segment (Nat.iter old_len (remove_at start_idx) lines).

(** In reverse order. *)
Definition apply_replacements (lines : list string) (replacements : list Replacement) : option (list string) :=
  foldr (λ r lines, lines ← lines; apply_one r lines) (Some lines) replacements.

Definition derive_new_contents (original_content path : string) (chunks : list UpdateFileChunk)
    : option (ApplyPatchError + string) :=
  let original_lines := drop_final_empty (split_lf original_content) in
  match compute_replacements original_lines path chunks with
  | inl e => Some (inl e)
  | inr replacements =>
      new_lines ← apply_replacements original_lines replacements;
      let new_lines := if decide (last new_lines = Some "") then new_lines else new_lines ++ [""] in
      Some (inr (join (String LF "") new_lines))
  end.

(** ** The tool ([tool.rs]) *)

(** The file system the tool is given ([AsyncFileSystem], and the runtime's
    [create_dir_all]), over a state of files.  Errors are their messages. *)
Class AsyncFileSystem (F : Type) := {
  read_file : string → F → string + string;
  write_file : string → string → F → (string + unit) * F;
  delete_file : string → F → (string + unit) * F;
  create_dir_all : string → F → (string + unit) * F
}.

(** [String::from_utf8_lossy]: every maximal part that is not UTF-8 becomes
    U+FFFD.  [part] holds the bytes of the character under way. *)
Definition replacement_char : string := String "239" (String "191" (String "189" "")).

Fixpoint lossy_from (q : utf8_state) (part : string) (s : string) : string :=
  match s with
  | "" => if decide (q = U_start) then "" else replacement_char
  | String c s =>
      match utf8_step q c with
      | U_bad =>
          if decide (q = U_start) then replacement_char +:+ lossy_from U_start "" s
          else
            replacement_char +:+
            match utf8_step U_start c with
            | U_bad => replacement_char +:+ lossy_from U_start "" s
            | U_start => String c (lossy_from U_start "" s)
            | q => lossy_from q (String c "") s
            end
      | U_start => part +:+ String c (lossy_from U_start "" s)
      | q => lossy_from q (part +:+ String c "") s
      end
  end.

Definition from_utf8_lossy (bytes : string) : string := lossy_from U_start "" bytes.

(** [Path::join] on a Unix path. *)
Definition path_join (base path : string) : string :=
  if starts_with "/" path then path
  else if decide (base = "") then path
  else if ends_with "/" base then base +:+ path
  else base +:+ "/" +:+ path.

(** [Path::parent] on a Unix path, read from its end: the separators and [.]
    components there do not count, and the root has no parent. *)
Fixpoint back_trim (r : string) : string :=
  match r with
  | String "/" "" => r
  | String "/" r' => back_trim r'
  | String "." (String "/" _ as r') => back_trim r'
  | _ => r
  end.

Fixpoint drop_component (r : string) : string :=
  match r with
  | "" => ""
  | String c r' => if decide (c = "/"%char) then r else drop_component r'
  end.

Definition path_parent (path : string) : option string :=
  let r := back_trim (string_rev path) in
  if decide (r = "" ∨ r = "/") then None
  else Some (string_rev (back_trim (drop_component r))).

Inductive FileChange :=
  | ChangeAdd (path content : string)
  | ChangeDelete (path original_content : string)
  | ChangeUpdate (path original_content new_content : string)
  | ChangeMove (source_path dest_path original_content new_content : string).

Record FileWritten := MkFileWritten {
  fw_tool_call_id : string;
  fw_absolute_path : string;
  fw_content : string;
  fw_previous_content : option string;
  fw_is_new_file : bool
}.

Record ApplyPatchFileResult := MkApplyPatchFileResult {
  fr_path : string;
  fr_action : string;
  fr_old_text : option string;
  fr_new_text : string;
  fr_move_to : option string
}.

Inductive ApplyPatchOutput :=
  | Success (files : list ApplyPatchFileResult) (tool_output_for_prompt : string)
  | OutputParseError (message : string)
  | ApplicationError (message : string)
  | EmptyPatch (message : string).

(** [ToolError::execution] of the tool. *)
Inductive ToolError := Execution (tool message : string).

Definition tool_error (message : string) : ToolError := Execution "apply_patch" message.

Definition build_summary (results : list ApplyPatchFileResult) : string :=
  foldl (λ out r,
    let prefix := if decide (fr_action r = "added") then "A"
                  else if decide (fr_action r = "deleted") then "D" else "M" in
    out +:+ prefix +:+ " " +:+ fr_path r +:+ String LF "")
    ("Success. Updated the following files:" +:+ String LF "") results.

Section tool.
Context {F : Type} `{AsyncFileSystem F}.

Definition ensure_parent_dirs (path : string) (files : F) : (string + unit) * F :=
  match path_parent path with
  | Some parent => if decide (parent = "") then (inr (), files) else create_dir_all parent files
  | None => (inr (), files)
  end.

Definition read_file_as_string (files : F) (path : string) : string + string :=
  bytes ← read_file path files;
  mret (from_utf8_lossy bytes).

(** The change of one hunk; the outer option is the panic of [apply]. *)
Definition compute_change (cwd : string) (files : F) (hunk : Hunk) : option (string + FileChange) :=
  match hunk with
  | AddFile path contents => Some (inr (ChangeAdd (path_join cwd path) contents))
  | DeleteFile path =>
      let resolved := path_join cwd path in
      Some (match read_file_as_string files resolved with
            | inl e => inl ("Failed to read file: " +:+ resolved +:+ ", " +:+ e)
            | inr original => inr (ChangeDelete resolved original)
            end)
  | UpdateFile path move_path chunks =>
      let resolved := path_join cwd path in
      match read_file_as_string files resolved with
      | inl e => Some (inl ("Failed to read file to update: " +:+ resolved +:+ ", " +:+ e))
      | inr original =>
          derived ← derive_new_contents original resolved chunks;
          Some (match derived with
                | inl (ComputeReplacements m) => inl m
                | inl other => inl (apply_error_display other)
                | inr new_content =>
                    inr (match move_path with
                         | Some dest => ChangeMove resolved (path_join cwd dest) original new_content
                         | None => ChangeUpdate resolved original new_content
                         end)
                end)
      end
  end.

Fixpoint compute_all_changes (cwd : string) (files : F) (hunks : list Hunk) : option (string + list FileChange) :=
  match hunks with
  | [] => Some (inr [])
  | hunk :: hunks =>
      change ← compute_change cwd files hunk;
      match change with
      | inl e => Some (inl e)
      | inr change =>
          rest ← compute_all_changes cwd files hunks;
          Some (match rest with inl e => inl e | inr changes => inr (change :: changes) end)
      end
  end.

(** The state of the third phase: the files, and the notifications sent. *)
Definition ToolState : Type := F * list FileWritten.

(** A call of the file system, whose error ends the run. *)
Definition call (f : F → (string + unit) * F) (k : ToolState → (ToolError + list ApplyPatchFileResult) * ToolState)
    (st : ToolState) : (ToolError + list ApplyPatchFileResult) * ToolState :=
  match f st.1 with
  | (inl e, files) => (inl (tool_error e), (files, st.2))
  | (inr _, files) => k (files, st.2)
  end.

Definition notify (ns : list FileWritten) (st : ToolState) : ToolState := (st.1, st.2 ++ ns).

Fixpoint write_changes (call_id : string) (changes : list FileChange) (results : list ApplyPatchFileResult)
    (st : ToolState) : (ToolError + list ApplyPatchFileResult) * ToolState :=
  match changes with
  | [] => (inr results, st)
  | ChangeAdd path content :: changes =>
      call (ensure_parent_dirs path) (call (write_file path content) (λ st,
        write_changes call_id changes (results ++ [MkApplyPatchFileResult path "added" None content None])
          (notify [MkFileWritten call_id path content None true] st))) st
  | ChangeDelete path original :: changes =>
      call (delete_file path) (λ st,
        write_changes call_id changes (results ++ [MkApplyPatchFileResult path "deleted" (Some original) "" None])
          (notify [MkFileWritten call_id path "" (Some original) false] st)) st
  | ChangeUpdate path original new :: changes =>
      call (write_file path new) (λ st,
        write_changes call_id changes (results ++ [MkApplyPatchFileResult path "modified" (Some original) new None])
          (notify [MkFileWritten call_id path new (Some original) false] st)) st
  | ChangeMove source dest original new :: changes =>
      call (ensure_parent_dirs dest) (call (write_file dest new) (call (delete_file source) (λ st,
        write_changes call_id changes
          (results ++ [MkApplyPatchFileResult source "moved" (Some original) new (Some dest)])
          (notify [MkFileWritten call_id dest new None true; MkFileWritten call_id source "" (Some original) false]
             st)))) st
  end.

Definition run (cwd call_id patch : string) (st : ToolState) : option ((ToolError + ApplyPatchOutput) * ToolState) :=
  match parse_patch patch with
  | inl (InvalidPatchError m) => Some (inr (OutputParseError ("Invalid patch: " +:+ m)), st)
  | inl (InvalidHunkError m n) =>
      Some (inr (OutputParseError ("Invalid patch hunk on line " +:+ pretty n +:+ ": " +:+ m)), st)
  | inr parsed =>
      if decide (pp_hunks parsed = []) then Some (inr (EmptyPatch "No files were modified."), st)
      else
        changes ← compute_all_changes cwd st.1 (pp_hunks parsed);
        Some (match changes with
              | inl m => (inr (ApplicationError m), st)
              | inr changes =>
                  let '(result, st) := write_changes call_id changes [] st in
                  (match result with
                   | inl e => inl e
                   | inr files => inr (Success files (build_summary files))
                   end, st)
              end)
  end.

End tool.
