(* ===== verification/PatchFacts.v ===== *)
(** * Facts on the patch tool: search and application

    What [seek_sequence] returns, the replacements as one pass from left to
    right over the lines, and what a list of chunks does to a file. *)

From stdpp Require Import pretty.
From S2P Require Import Prelude Text Chars Result Patch.

(** ** The search *)

(** The pattern occurs at [i], line by line, up to [form]. *)
Definition occurs (form : string → string) (lines pattern : list string) (i : nat) : Prop :=
  ∀ j p, pattern !! j = Some p → ∃ l, lines !! (i + j)%nat = Some l ∧ form l = form p.

Lemma matches_at_occurs form lines pattern i :
  matches_at form lines pattern i = true ↔ occurs form lines pattern i.
Proof.
  unfold matches_at, occurs. rw bool_decide_eq_true. split.
  - intros H j p Hp. assert ((form <$> pattern) !! j = Some (form p)) as Hj by rw list_lookup_fmap Hp //.
    rw -H list_lookup_fmap in Hj. apply fmap_Some in Hj as (l & Hl & ->).
    rw lookup_take_Some lookup_drop in Hl. exists l. naive_solver.
  - intros H. apply list_eq. intros j. rw !list_lookup_fmap.
    destruct (pattern !! j) as [p|] eqn:Hp.
    + destruct (H j p Hp) as (l & Hl & Hf). apply lookup_lt_Some in Hp.
      rw lookup_take_lt // lookup_drop Hl /= Hf //.
    + apply lookup_ge_None in Hp. rw lookup_take_ge //.
Qed.

(** An occurrence lies inside the lines. *)
Lemma occurs_fits form lines pattern i :
  pattern ≠ [] → occurs form lines pattern i → (i + length pattern ≤ length lines)%nat.
Proof.
  intros Hne H. destruct (last pattern) as [p|] eqn:Hl; [|by apply last_None in Hl].
  rw last_lookup in Hl. destruct (H _ _ Hl) as (l & Hi%lookup_lt_Some & _).
  destruct pattern; [done|]. simpl in *. lia.
Qed.

(** The least position from [lo] on where the pattern occurs. *)
Definition first_from (form : string → string) (lines pattern : list string) (lo i : nat) : Prop :=
  (lo ≤ i)%nat ∧ occurs form lines pattern i ∧ ∀ j, (lo ≤ j < i)%nat → ¬ occurs form lines pattern j.

Lemma find_pass_Some lines pattern lo form i :
  pattern ≠ [] → (length pattern ≤ length lines)%nat →
  find_pass lines pattern lo form = Some i ↔ first_from form lines pattern lo i.
Proof.
  intros Hne Hlen. unfold find_pass, first_from. rw fmap_Some. split.
  - intros ([k x] & Hf & ->). apply list_find_Some in Hf as (Hk & Hm & Hlt).
    apply lookup_seq in Hk as [-> Hk]. simpl. split; [lia|]. split; [by apply matches_at_occurs|].
    intros j Hj Ho%matches_at_occurs. apply (Hlt (j - lo)%nat j); [apply lookup_seq; lia|lia|done].
  - intros (Hlo & Ho & Hlt). exists ((i - lo)%nat, i). split; [|done].
    pose proof (occurs_fits _ _ _ _ Hne Ho). apply list_find_Some.
    split; [apply lookup_seq; lia|]. split; [by apply matches_at_occurs|].
    intros j y [-> Hj]%lookup_seq ? Hm%matches_at_occurs. apply (Hlt (lo + j)%nat); [lia|done].
Qed.

Lemma find_pass_None lines pattern lo form :
  pattern ≠ [] → (length pattern ≤ length lines)%nat →
  find_pass lines pattern lo form = None ↔ ∀ i, (lo ≤ i)%nat → ¬ occurs form lines pattern i.
Proof.
  intros Hne Hlen. unfold find_pass. rw fmap_None list_find_None Forall_seq. split.
  - intros H i Hi Ho. pose proof (occurs_fits _ _ _ _ Hne Ho). apply (H i); [lia|].
    by apply matches_at_occurs.
  - intros H i Hi Hm%matches_at_occurs. by apply (H i); [lia|].
Qed.

Lemma head_omap_Some {A B} (f : A → option B) (l : list A) b :
  head (omap f l) = Some b ↔
  ∃ k a, l !! k = Some a ∧ f a = Some b ∧ ∀ k' a', (k' < k)%nat → l !! k' = Some a' → f a' = None.
Proof.
  induction l as [|x l IH]; [split; [done|]; by intros (k & a & ? & _)|].
  cbn [omap list_omap]. destruct (f x) as [y|] eqn:Hx.
  - split.
    + intros [= <-]. exists 0%nat, x. split; [done|]. split; [done|]. lia.
    + intros ([|k] & a & Ha & Hb & Hk); cbn in Ha |- *; [congruence|].
      specialize (Hk 0%nat x ltac:(lia) eq_refl). congruence.
  - rw IH. split.
    + intros (k & a & Ha & Hb & Hk). exists (S k), a. split; [done|]. split; [done|].
      intros [|k'] a' Hk' Ha'; simplify_eq/=; [done|]. apply (Hk k'); [lia|done].
    + intros ([|k] & a & Ha & Hb & Hk); cbn in Ha; [congruence|].
      exists k, a. split; [done|]. split; [done|]. intros k' a' ??. apply (Hk (S k')); [lia|done].
Qed.

Lemma head_omap_None {A B} (f : A → option B) (l : list A) :
  head (omap f l) = None ↔ ∀ a, a ∈ l → f a = None.
Proof.
  induction l as [|x l IH]; [split; [intros _ a Ha; by apply elem_of_nil in Ha|done]|].
  cbn [omap list_omap]. setoid_rewrite elem_of_cons. destruct (f x) as [y|] eqn:Hx.
  - split; [done|]. intros H. specialize (H x (or_introl eq_refl)). congruence.
  - rw IH. naive_solver.
Qed.

(** Where the search starts. *)
Definition search_from (lines pattern : list string) (start : nat) (eof : bool) : nat :=
  if eof then (length lines - length pattern)%nat else start.

(** The strictest pass that finds the pattern gives its first position. *)
Definition strictest (lines pattern : list string) (lo i : nat) : Prop :=
  ∃ k form, passes !! k = Some form ∧ first_from form lines pattern lo i ∧
    ∀ k' form', (k' < k)%nat → passes !! k' = Some form' →
      ∀ j, (lo ≤ j)%nat → ¬ occurs form' lines pattern j.

Lemma seek_Some lines pattern start eof i :
  pattern ≠ [] →
  seek_sequence lines pattern start eof = Some i ↔ strictest lines pattern (search_from lines pattern start eof) i.
Proof.
  intros Hne. unfold seek_sequence, strictest. rw decide_False //.
  destruct (decide (length lines < length pattern)%nat) as [Hlen|Hlen].
  - split; [done|]. intros (k & form & _ & (_ & Ho & _) & _). pose proof (occurs_fits _ _ _ _ Hne Ho). lia.
  - rw -/(search_from lines pattern start eof) head_omap_Some.
    setoid_rewrite find_pass_Some; [|done|lia]. setoid_rewrite find_pass_None; [done|done|lia].
Qed.

Lemma seek_None lines pattern start eof :
  pattern ≠ [] →
  seek_sequence lines pattern start eof = None ↔
  ∀ form i, form ∈ passes → (search_from lines pattern start eof ≤ i)%nat → ¬ occurs form lines pattern i.
Proof.
  intros Hne. unfold seek_sequence. rw decide_False //.
  destruct (decide (length lines < length pattern)%nat) as [Hlen|Hlen].
  - split; [|done]. intros _ form i _ _ Ho. pose proof (occurs_fits _ _ _ _ Hne Ho). lia.
  - rw -/(search_from lines pattern start eof) head_omap_None.
    setoid_rewrite find_pass_None; [|done|lia]. naive_solver.
Qed.

(** A result splits the lines around a segment that is the pattern, up to the
    form of a pass. *)
Definition similar (found pattern : list string) : Prop :=
  ∃ form, form ∈ passes ∧ form <$> found = form <$> pattern.

Lemma similar_length found pattern : similar found pattern → length found = length pattern.
Proof. intros (form & _ & H). apply (f_equal length) in H. by rw !length_fmap in H. Qed.

Lemma seek_segment lines pattern start eof i :
  pattern ≠ [] → seek_sequence lines pattern start eof = Some i →
  (search_from lines pattern start eof ≤ i)%nat ∧ (i + length pattern ≤ length lines)%nat ∧
  similar (take (length pattern) (drop i lines)) pattern.
Proof.
  intros Hne H. apply seek_Some in H as (k & form & Hk & (Hlo & Ho & _) & _); [|done].
  split; [done|]. split; [by eapply occurs_fits|]. exists form. split; [by eapply list_elem_of_lookup_2|].
  apply matches_at_occurs in Ho. by apply bool_decide_eq_true in Ho.
Qed.

(** ** The replacements, from left to right *)

(** The lines from [pos] on, with every replacement in the place of its lines. *)
Fixpoint splice (pos : nat) (lines : list string) (rs : list Replacement) : list string :=
  match rs with
  | [] => drop pos lines
  | (start, len, new) :: rs => take (start - pos) (drop pos lines) ++ new ++ splice (start + len) lines rs
  end.

(** The replacements follow each other from [pos] on and end by [stop]. *)
Fixpoint in_order (pos stop : nat) (rs : list Replacement) : Prop :=
  match rs with
  | [] => (pos ≤ stop)%nat
  | (start, len, _) :: rs => (pos ≤ start)%nat ∧ in_order (start + len) stop rs
  end.

Lemma in_order_le pos stop rs : in_order pos stop rs → (pos ≤ stop)%nat.
Proof.
  revert pos. induction rs as [|[[start len] new] rs IH]; intros pos; [done|].
  intros [Hp H%IH]. lia.
Qed.

Lemma remove_many n a mid b :
  length mid = n → Nat.iter n (remove_at (length a)) (a ++ mid ++ b) = a ++ b.
Proof.
  revert mid. induction n as [|n IH]; intros [|x mid] Hl; try done. simplify_eq/=.
  rw -Nat.iter_succ Nat.iter_succ_r. unfold remove_at at 2. rw decide_True; [|rw length_app /=; lia].
  rw take_app_length (cons_middle x a (mid ++ b)) (app_assoc a [x] (mid ++ b)) drop_app_length' ?length_app /=; [|lia].
  by apply IH.
Qed.

Lemma insert_all_at new a b : insert_all (length a) new (a ++ b) = Some (a ++ new ++ b).
Proof.
  revert a. induction new as [|x new IH]; intros a; [done|]. cbn [insert_all].
  unfold insert_at. rw decide_True; [|rw length_app; lia]. rw take_app_length drop_app_length.
  change (insert_all (S (length a)) new (a ++ x :: b) = Some (a ++ x :: new ++ b)).
  replace (S (length a)) with (length (a ++ [x])) by (rw length_app /=; lia).
  rw (cons_middle x a b) app_assoc IH -app_assoc //.
Qed.

(** One replacement, whatever follows it. *)
Lemma apply_one_at start len new lines rest :
  (start + len ≤ length lines)%nat →
  apply_one (start, len, new) (take (start + len) lines ++ rest) = Some (take start lines ++ new ++ rest).
Proof.
  intros Hl. unfold apply_one.
  assert (take (start + len) lines = take start lines ++ take len (drop start lines)) as ->
    by rw take_take_drop //.
  assert (length (take start lines) = start) as Hs by (rw length_take; lia).
  pose proof (remove_many len (take start lines) (take len (drop start lines)) rest) as Hr.
  pose proof (insert_all_at new (take start lines) rest) as Hi. rw Hs in Hr Hi.
  rw -app_assoc Hr // length_take length_drop. lia.
Qed.

Lemma apply_from pos lines rs :
  in_order pos (length lines) rs → apply_replacements lines rs = Some (take pos lines ++ splice pos lines rs).
Proof.
  revert pos. induction rs as [|[[start len] new] rs IH]; intros pos H; cbn [apply_replacements foldr].
  - cbn [splice]. by rw take_drop.
  - destruct H as [Hp H]. rw -/(apply_replacements lines rs) (IH _ H). cbn [mbind option_bind splice].
    rw apply_one_at; [|by eapply in_order_le]. f_equal.
    rw (app_assoc (take pos lines)) take_take_drop. do 2 f_equal. lia.
Qed.

Lemma apply_in_order lines rs :
  in_order 0 (length lines) rs → apply_replacements lines rs = Some (splice 0 lines rs).
Proof. intros H. rw (apply_from 0 lines rs H) take_0 //. Qed.

(** Appending to the end. *)
Lemma splice_adds pos lines rs adds :
  in_order pos (length lines) rs → Forall (λ r : Replacement, r.1 = (length lines, 0%nat)) adds →
  splice pos lines (rs ++ adds) = splice pos lines rs ++ concat adds.*2 ∧
  in_order pos (length lines) (rs ++ adds).
Proof.
  intros H Ha. revert pos H. induction rs as [|[[start len] new] rs IH]; intros pos H.
  - simpl in H. cbn [app splice]. revert pos H. induction Ha as [|[[s l] new] adds Heq _ IHa]; intros pos H.
    { cbn. rw app_nil_r //. }
    simplify_eq/=. destruct (IHa (length lines)) as [IH1 IH2]; [done|]. rw Nat.add_0_r IH1 (drop_ge lines (length lines)) //.
    split; [|done]. rw take_ge; [done|rw length_drop; lia].
  - destruct H as [Hp H]. destruct (IH _ H) as [IH1 IH2]. cbn [app splice]. rw IH1 -!app_assoc. done.
Qed.

(** ** The sort of the replacements *)

Abbreviation start_of := (λ r : Replacement, r.1.1).

Lemma insert_first (x : Replacement) l :
  Forall (λ y : Replacement, (start_of x ≤ start_of y)%nat) l → insert_by by_start x l = x :: l.
Proof.
  destruct l as [|y l]; [done|]. intros [Hy _]%Forall_cons. cbn [insert_by].
  destruct (by_start x y) eqn:E; [done..|]. apply Nat.compare_gt_iff in E. lia.
Qed.

Lemma insert_behind (x : Replacement) before l :
  Forall (λ y : Replacement, (start_of y < start_of x)%nat) before →
  insert_by by_start x (before ++ l) = before ++ insert_by by_start x l.
Proof.
  induction 1 as [|y before Hy _ IH]; [done|]. cbn [app insert_by].
  assert (by_start x y = Gt) as -> by (apply Nat.compare_gt_iff; lia). by rw IH.
Qed.

Lemma insert_sorted (x : Replacement) l :
  StronglySorted (λ a b, (start_of a ≤ start_of b)%nat) l →
  StronglySorted (λ a b, (start_of a ≤ start_of b)%nat) (insert_by by_start x l).
Proof.
  induction 1 as [|y l Hl IH Hy]; cbn [insert_by]; [by repeat constructor|].
  destruct (by_start x y) eqn:E.
  - apply Nat.compare_eq in E. constructor; [by constructor|]. constructor; [lia|].
    eapply Forall_impl; [exact Hy|]. simpl. lia.
  - apply Nat.compare_lt_iff in E. constructor; [by constructor|]. constructor; [lia|].
    eapply Forall_impl; [exact Hy|]. simpl. lia.
  - apply Nat.compare_gt_iff in E. constructor; [done|]. rw (insert_by_perm by_start x l).
    constructor; [lia|done].
Qed.

Lemma sort_sorted rs : StronglySorted (λ a b, (start_of a ≤ start_of b)%nat) (sort_by by_start rs).
Proof. induction rs as [|r rs IH]; [constructor|]. by apply insert_sorted. Qed.

(** ** No replacement panics *)

Lemma remove_at_length i lines n :
  (i ≤ length lines)%nat → (i ≤ length (Nat.iter n (remove_at i) lines))%nat.
Proof.
  intros Hi. induction n as [|n IH]; [done|]. cbn [Nat.iter nat_rect]. unfold remove_at at 1.
  case_decide; [|done]. rw length_app length_take length_drop. lia.
Qed.

Lemma insert_all_total i new lines :
  (i ≤ length lines)%nat → ∃ out, insert_all i new lines = Some out ∧ (i ≤ length out)%nat.
Proof.
  intros Hi. exists (take i lines ++ new ++ drop i lines).
  assert (length (take i lines) = i) as Hl by (rw length_take; lia). split.
  - pose proof (insert_all_at new (take i lines) (drop i lines)) as H. by rw Hl take_drop in H.
  - rw length_app Hl. lia.
Qed.

Lemma apply_total lines rs s :
  StronglySorted (λ a b, (start_of a ≤ start_of b)%nat) rs →
  Forall (λ r : Replacement, (start_of r ≤ length lines)%nat) rs →
  (s ≤ length lines)%nat → Forall (λ r : Replacement, (s ≤ start_of r)%nat) rs →
  ∃ out, apply_replacements lines rs = Some out ∧ (s ≤ length out)%nat.
Proof.
  intros Hs. revert s. induction Hs as [|[[start len] new] rs _ IH Hr]; intros s Hb Hl Hlo; [by exists lines|].
  apply Forall_cons in Hb as [Hstart Hb]. apply Forall_cons in Hlo as [Hlo _]. simpl in *.
  destruct (IH start Hb Hstart Hr) as (mid & -> & Hmid). cbn [mbind option_bind].
  destruct (insert_all_total start new _ (remove_at_length start mid len Hmid)) as (out & -> & Hout).
  exists out. split; [done|lia].
Qed.

(** ** Where a chunk is found *)

(** The lines a chunk replaces and the lines it puts there: its own, or both
    without a final empty line. *)
Definition wanted (chunk : UpdateFileChunk) (pattern new : list string) : Prop :=
  (pattern = uc_old_lines chunk ∧ new = uc_new_lines chunk) ∨
  (uc_old_lines chunk = pattern ++ [""] ∧ new = drop_final_empty (uc_new_lines chunk)).

Lemma drop_final_empty_snoc l : last l = Some "" → l = drop_final_empty l ++ [""].
Proof.
  intros H. unfold drop_final_empty. rw decide_True //. apply last_Some in H as [l' ->].
  rw length_app /= take_app_le; [|lia]. rw take_ge //. lia.
Qed.

Lemma locate_chunk_Some lines idx chunk i pattern new :
  uc_old_lines chunk ≠ [] → locate_chunk lines idx chunk = Some (i, pattern, new) →
  wanted chunk pattern new ∧ seek_sequence lines pattern idx (uc_is_end_of_file chunk) = Some i.
Proof.
  intros Hne. unfold locate_chunk, wanted.
  destruct (seek_sequence lines (uc_old_lines chunk) idx _) as [i'|] eqn:E.
  - intros [= <- <- <-]. auto.
  - destruct (decide (last (uc_old_lines chunk) = Some "")) as [Hl|]; [|done].
    intros (i' & Hi & [= -> -> ->])%fmap_Some. split; [|done]. right. split; [|done].
    by apply drop_final_empty_snoc.
Qed.

Lemma seek_bounds lines pattern idx eof i :
  (idx ≤ length lines)%nat → seek_sequence lines pattern idx eof = Some i →
  (i + length pattern ≤ length lines)%nat ∧ (eof = false → (idx ≤ i)%nat).
Proof.
  intros Hidx H. destruct (decide (pattern = [])) as [->|Hne].
  - injection H as <-. simpl. lia.
  - apply seek_segment in H as (Hlo & Hf & _); [|done]. split; [done|]. by intros ->.
Qed.

(** The context, if any, is a line between the two indices. *)
Lemma context_index_inr lines path idx chunk idx' :
  (idx ≤ length lines)%nat → context_index lines path idx chunk = inr idx' →
  (idx ≤ idx' ≤ length lines)%nat ∧
  ∀ c, uc_change_context chunk = Some c → ∃ k l, (idx ≤ k < idx')%nat ∧ lines !! k = Some l ∧ similar [l] [c].
Proof.
  intros Hidx. unfold context_index. destruct (uc_change_context chunk) as [c|]; [|by intros [= <-]].
  destruct (seek_sequence lines [c] idx false) as [k|] eqn:E; [|done]. intros [= <-].
  apply seek_segment in E as (Hlo & Hf & Hs); [|done]. simpl in *. split; [lia|]. intros ? [= <-].
  destruct (lookup_lt_is_Some_2 lines k ltac:(lia)) as [l Hl]. exists k, l. split; [lia|]. split; [done|].
  by rw (drop_S _ _ _ Hl) in Hs.
Qed.

(** One round of the loop over the chunks. *)
Lemma replacements_cons lines path idx chunk chunks rs :
  replacements_from lines path idx (chunk :: chunks) = inr rs →
  ∃ idx' r rs', context_index lines path idx chunk = inr idx' ∧ rs = r :: rs' ∧
    ((uc_old_lines chunk = [] ∧
      r = (if decide (last lines = Some "") then (length lines - 1)%nat else length lines, 0%nat, uc_new_lines chunk) ∧
      replacements_from lines path idx' chunks = inr rs') ∨
     (∃ i pattern new, uc_old_lines chunk ≠ [] ∧ locate_chunk lines idx' chunk = Some (i, pattern, new) ∧
        r = (i, length pattern, new) ∧ replacements_from lines path (i + length pattern) chunks = inr rs')).
Proof.
  cbn [replacements_from]. intros (idx' & Hidx & H)%result_bind_inr. exists idx'.
  destruct (decide (uc_old_lines chunk = [])) as [Hold|Hold].
  - apply result_bind_inr in H as (rs' & Hrs & [= <-]). eauto 10.
  - destruct (locate_chunk lines idx' chunk) as [[[i pattern] new]|] eqn:E; [|done].
    apply result_bind_inr in H as (rs' & Hrs & [= <-]). exists (i, length pattern, new), rs'. eauto 10.
Qed.

Lemma replacements_bounded lines path idx chunks rs :
  (idx ≤ length lines)%nat → replacements_from lines path idx chunks = inr rs →
  Forall (λ r : Replacement, (start_of r ≤ length lines)%nat) rs.
Proof.
  revert idx rs. induction chunks as [|chunk chunks IH]; intros idx rs Hidx H; [injection H as <-; constructor|].
  apply replacements_cons in H as (idx' & r & rs' & Hc & -> & H).
  apply context_index_inr in Hc as [Hle _]; [|done].
  destruct H as [(Hold & -> & H)|(i & pattern & new & Hold & Hloc & -> & H)]; (constructor; [simpl|]).
  - case_decide; lia.
  - by eapply IH; [|exact H]; lia.
  - apply locate_chunk_Some in Hloc as [_ Hs]; [|done]. apply seek_bounds in Hs as [? _]; lia.
  - apply locate_chunk_Some in Hloc as [_ Hs]; [|done]. apply seek_bounds in Hs as [? _]; [|lia]. by eapply IH.
Qed.

Lemma derive_total content path chunks : is_Some (derive_new_contents content path chunks).
Proof.
  unfold derive_new_contents, compute_replacements.
  destruct (replacements_from _ path 0 chunks) as [e|rs] eqn:E; [done|]. cbn [mbind result_bind mret result_ret].
  apply replacements_bounded in E; [|lia]. rw -(sort_by_perm by_start rs) in E.
  destruct (apply_total _ _ 0 (sort_sorted rs) E) as (out & -> & _); [lia| |done].
  apply Forall_forall. lia.
Qed.

(** ** What a list of chunks does to the lines of a file *)

(** The context of a chunk, if it names one, is a line of [gap]. *)
Definition has_context (chunk : UpdateFileChunk) (gap : list string) : Prop :=
  ∀ c, uc_change_context chunk = Some c → ∃ l, l ∈ gap ∧ similar [l] [c].

(** [Patched lines chunks out added]: the chunks, in their order, find their old
    lines in successive disjoint parts of [lines], each behind its context;
    [out] is [lines] with the new lines in these places, everything between
    them untouched, and [added] are the lines of the chunks that only add. *)
Inductive Patched : list string → list UpdateFileChunk → list string → list string → Prop :=
  | patched_nil rest : Patched rest [] rest []
  | patched_edit gap found rest chunk chunks pattern new out added :
      has_context chunk gap → wanted chunk pattern new → pattern ≠ [] → similar found pattern →
      Patched rest chunks out added →
      Patched (gap ++ found ++ rest) (chunk :: chunks) (gap ++ new ++ out) added
  | patched_add gap rest chunk chunks out added :
      has_context chunk gap → uc_old_lines chunk = [] →
      Patched rest chunks out added →
      Patched (gap ++ rest) (chunk :: chunks) (gap ++ out) (uc_new_lines chunk ++ added).

(** A chunk that only adds lines, or one that looks for lines wherever they are
    after the chunks before it. *)
Definition plain_chunk (chunk : UpdateFileChunk) : Prop :=
  uc_old_lines chunk = [] ∨ uc_is_end_of_file chunk = false ∧ uc_old_lines chunk ≠ [""].

#[export] Instance plain_chunk_dec chunk : Decision (plain_chunk chunk).
Proof. apply _. Defined.

Lemma has_context_gap lines path idx chunk idx' i :
  (idx ≤ length lines)%nat → context_index lines path idx chunk = inr idx' → (idx' ≤ i)%nat →
  has_context chunk (take (i - idx) (drop idx lines)).
Proof.
  intros Hidx [_ H]%context_index_inr Hi c Hc; [|done]. destruct (H c Hc) as (k & l & Hk & Hl & Hs).
  exists l. split; [|done]. apply list_elem_of_lookup. exists (k - idx)%nat.
  rw lookup_take_lt; [|lia]. rw lookup_drop. by replace (idx + (k - idx))%nat with k by lia.
Qed.

Lemma splice_gap pos pos' lines rs :
  (pos ≤ pos')%nat → in_order pos' (length lines) rs →
  splice pos lines rs = take (pos' - pos) (drop pos lines) ++ splice pos' lines rs.
Proof.
  intros Hp H.
  assert (∀ n, (pos' ≤ n)%nat →
    take (n - pos) (drop pos lines) = take (pos' - pos) (drop pos lines) ++ take (n - pos') (drop pos' lines)) as Ht.
  { intros n Hn. replace (drop pos' lines) with (drop (pos' - pos) (drop pos lines)) by
      (rw drop_drop; f_equal; lia). rw take_take_drop. f_equal. lia. }
  destruct rs as [|[[start len] new] rs]; cbn [splice].
  - replace (drop pos' lines) with (drop (pos' - pos) (drop pos lines)) by (rw drop_drop; f_equal; lia).
    by rw take_drop.
  - destruct H as [Hs _]. rw (Ht start Hs) -app_assoc //.
Qed.

(** The edits and the additions of a list of replacements. *)
Record Split (lines : list string) (idx : nat) (chunks : list UpdateFileChunk) (rs edits adds : list Replacement)
    : Prop := MkSplit {
  split_sorted : rs = edits ++ adds;
  split_edits : in_order idx (length lines) edits;
  split_inside : Forall (λ r : Replacement, (start_of r < length lines)%nat) edits;
  split_adds : Forall (λ r : Replacement, r.1 = (length lines, 0%nat)) adds;
  split_patched : Patched (drop idx lines) chunks (splice idx lines edits) (concat adds.*2)
}.

Lemma in_order_starts pos stop rs :
  in_order pos stop rs → Forall (λ r : Replacement, (pos ≤ start_of r)%nat) rs.
Proof.
  revert pos. induction rs as [|[[start len] new] rs IH]; intros pos; [constructor|].
  intros [Hp H%IH]. constructor; [done|]. eapply Forall_impl; [exact H|]. simpl. lia.
Qed.

Lemma in_order_weaken pos pos' stop rs : (pos ≤ pos')%nat → in_order pos' stop rs → in_order pos stop rs.
Proof. destruct rs as [|[[start len] new] rs]; simpl; [lia|]. intros ? [??]. split; [lia|done]. Qed.

Lemma split_add lines path idx idx' chunk chunks rs edits adds :
  (idx ≤ length lines)%nat → context_index lines path idx chunk = inr idx' → uc_old_lines chunk = [] →
  Split lines idx' chunks rs edits adds →
  Split lines idx (chunk :: chunks) (insert_by by_start (length lines, 0%nat, uc_new_lines chunk) rs)
    edits ((length lines, 0%nat, uc_new_lines chunk) :: adds).
Proof.
  intros Hidx Hc Hold [-> Ho Hi Ha Hp]. pose proof (context_index_inr _ _ _ _ _ Hidx Hc) as [Hle _]. split.
  - rw insert_behind; [|done]. f_equal. apply insert_first.
    eapply Forall_impl; [exact Ha|]. intros [[??]?]; intros [= -> ->]. done.
  - eapply in_order_weaken; [|done]. lia.
  - done.
  - by constructor.
  - rw (splice_gap idx idx' lines edits); [|lia|done].
    rw -{1}(take_drop (idx' - idx) (drop idx lines)) drop_drop. replace (idx + (idx' - idx))%nat with idx' by lia.
    apply patched_add; [|done..]. eapply has_context_gap; [done|exact Hc|done].
Qed.

Lemma split_edit lines path idx idx' i chunk chunks pattern new rs edits adds :
  (idx ≤ length lines)%nat → context_index lines path idx chunk = inr idx' → (idx' ≤ i)%nat →
  wanted chunk pattern new → pattern ≠ [] → seek_sequence lines pattern idx' false = Some i →
  Split lines (i + length pattern) chunks rs edits adds →
  Split lines idx (chunk :: chunks) (insert_by by_start (i, length pattern, new) rs)
    ((i, length pattern, new) :: edits) adds.
Proof.
  intros Hidx Hc Hi Hw Hne Hseek [-> Ho Hin Ha Hp].
  pose proof (context_index_inr _ _ _ _ _ Hidx Hc) as [Hle _].
  apply seek_segment in Hseek as (_ & Hfits & Hs); [|done].
  assert (1 ≤ length pattern)%nat by (destruct pattern; simpl; [done|lia]). split.
  - apply insert_first. apply Forall_app. split.
    + apply in_order_starts in Ho. eapply Forall_impl; [exact Ho|]. simpl. lia.
    + eapply Forall_impl; [exact Ha|]. intros [[??]?]; intros [= -> ->]. simpl. lia.
  - split; [lia|done].
  - constructor; [simpl; lia|done].
  - done.
  - cbn [splice]. rw -{1}(take_drop (i - idx) (drop idx lines)) drop_drop.
    replace (idx + (i - idx))%nat with i by lia.
    rw -{1}(take_drop (length pattern) (drop i lines)) drop_drop.
    eapply patched_edit; try done. eapply has_context_gap; [done|exact Hc|done].
Qed.

Lemma replacements_patched lines path idx chunks rs :
  (idx ≤ length lines)%nat → replacements_from lines path idx chunks = inr rs →
  Forall plain_chunk chunks →
  (last lines = Some "" → Forall (λ c, uc_old_lines c ≠ []) chunks) →
  ∃ edits adds, Split lines idx chunks (sort_by by_start rs) edits adds.
Proof.
  revert idx rs. induction chunks as [|chunk chunks IH]; intros idx rs Hidx H Hplain Hlast.
  { injection H as <-. exists [], []. by split; [| |constructor..]. }
  apply replacements_cons in H as (idx' & r & rs' & Hc & -> & H).
  apply Forall_cons in Hplain as [Hchunk Hplain].
  assert (last lines = Some "" → Forall (λ c, uc_old_lines c ≠ []) chunks) as Hlast'.
  { intros [_ ?]%Hlast%Forall_cons. done. }
  pose proof (context_index_inr _ _ _ _ _ Hidx Hc) as [Hle _].
  destruct H as [(Hold & -> & H)|(i & pattern & new & Hold & Hloc & -> & H)].
  - rw decide_False; [|intros [? _]%Hlast%Forall_cons; done].
    destruct (IH idx' rs' ltac:(lia) H Hplain Hlast') as (edits & adds & Hs).
    eexists _, _. by eapply split_add.
  - destruct Hchunk as [?|[Heof Hne]]; [done|].
    apply locate_chunk_Some in Hloc as [Hw Hseek]; [|done]. rw Heof in Hseek.
    destruct (seek_bounds _ _ _ _ _ (proj2 Hle) Hseek) as [Hf Hi].
    destruct (IH _ rs' Hf H Hplain Hlast') as (edits & adds & Hs).
    eexists _, _. eapply split_edit; try done; [by apply Hi|].
    intros ->. destruct Hw as [[? _]|[? _]]; [by subst|done].
Qed.

(** The text of lines: each closed by a line feed, none added to a last empty one. *)
Definition close_lines (l : list string) : string :=
  join (String LF "") (if decide (last l = Some "") then l else l ++ [""]).

Lemma derive_patched content path chunks text :
  let lines := drop_final_empty (split_lf content) in
  derive_new_contents content path chunks = Some (inr text) →
  Forall plain_chunk chunks →
  (last lines = Some "" → Forall (λ c, uc_old_lines c ≠ []) chunks) →
  ∃ out added, Patched lines chunks out added ∧ text = close_lines (out ++ added).
Proof.
  intros lines H Hplain Hlast. unfold derive_new_contents, compute_replacements in H.
  rw -/lines in H. destruct (replacements_from lines path 0 chunks) as [e|rs] eqn:E; [done|].
  cbn [mbind result_bind mret result_ret] in H.
  destruct (replacements_patched lines path 0 chunks rs ltac:(lia) E Hplain Hlast) as (edits & adds & [Hs Ho _ Ha Hp]).
  rw Hs in H. destruct (splice_adds 0 lines edits adds Ho Ha) as [Hsp Hio].
  rw (apply_in_order lines _ Hio) Hsp in H. cbn [mbind option_bind] in H. injection H as <-.
  rw drop_0 in Hp. eauto.
Qed.

(** ** When the chunks are found *)

(** The chunks stand in the lines, letter by letter and in their order: each has
    its old lines behind its context. *)
Inductive Stands : list string → list UpdateFileChunk → Prop :=
  | stands_nil rest : Stands rest []
  | stands_cons gap rest chunk chunks :
      (∀ c, uc_change_context chunk = Some c → c ∈ gap) →
      Stands rest chunks →
      Stands (gap ++ uc_old_lines chunk ++ rest) (chunk :: chunks).

Lemma seek_exact lines pattern idx i :
  pattern ≠ [] → (idx ≤ i)%nat → occurs id lines pattern i →
  ∃ i0, seek_sequence lines pattern idx false = Some i0 ∧ (idx ≤ i0 ≤ i)%nat.
Proof.
  intros Hne Hi Ho. pose proof (occurs_fits _ _ _ _ Hne Ho) as Hf.
  unfold seek_sequence. rw decide_False // decide_False; [|lia].
  destruct (find_pass lines pattern idx id) as [i0|] eqn:E.
  - apply find_pass_Some in E as (Hlo & Ho' & Hleast); [|done|lia]. exists i0.
    cbn [omap list_omap passes]. rw (proj2 (find_pass_Some lines pattern idx id i0 Hne ltac:(lia))); [|done].
    split; [done|]. destruct (decide (i0 ≤ i)%nat) as [|Hgt]; [lia|]. destruct (Hleast i); [lia|done].
  - exfalso. apply find_pass_None with (i := i) in E; [done..|lia|done].
Qed.

Lemma occurs_segment lines pattern i rest :
  drop i lines = pattern ++ rest → occurs id lines pattern i.
Proof.
  intros H j p Hp. exists p. split; [|done]. rw -lookup_drop H. by apply lookup_app_l_Some.
Qed.

Lemma context_found lines path idx n gap rest chunk :
  (idx ≤ n)%nat → drop n lines = gap ++ rest → (∀ c, uc_change_context chunk = Some c → c ∈ gap) →
  ∃ idx', context_index lines path idx chunk = inr idx' ∧ (idx' ≤ n + length gap)%nat.
Proof.
  intros Hn Hd Hc. unfold context_index. destruct (uc_change_context chunk) as [c|]; [|exists idx; split; [done|lia]].
  destruct (proj1 (list_elem_of_lookup _ _) (Hc c eq_refl)) as [k Hk].
  destruct (seek_exact lines [c] idx (n + k)%nat) as (i0 & -> & Hi0); [done|lia| |].
  - intros [|j] p Hp; [|done]. injection Hp as <-. exists c. split; [|done].
    rw Nat.add_0_r -lookup_drop Hd. by apply lookup_app_l_Some.
  - apply lookup_lt_Some in Hk. exists (S i0). split; [done|lia].
Qed.

Lemma stands_found lines path n idx chunks :
  Stands (drop n lines) chunks → (idx ≤ n)%nat →
  Forall (λ c, uc_old_lines c = [] ∨ uc_is_end_of_file c = false) chunks →
  ∃ rs, replacements_from lines path idx chunks = inr rs.
Proof.
  intros Hs. remember (drop n lines) as rest eqn:Hd. revert n idx Hd.
  induction Hs as [rest|gap rest chunk chunks Hc _ IH]; intros n idx Hd Hn Hok; [by eexists|].
  apply Forall_cons in Hok as [Hchunk Hok]. cbn [replacements_from].
  destruct (context_found lines path idx n gap (uc_old_lines chunk ++ rest) chunk) as (idx' & -> & Hidx'); [done..|].
  cbn [mbind result_bind]. destruct (decide (uc_old_lines chunk = [])) as [Hold|Hold].
  - rw Hold in Hd. destruct (IH (n + length gap)%nat idx') as [rs ->]; [|done..|by eexists].
    rw -drop_drop -Hd drop_app_length //.
  - destruct Hchunk as [?|Heof]; [done|]. unfold locate_chunk. rw Heof.
    assert (drop (n + length gap) lines = uc_old_lines chunk ++ rest) as Hd'.
    { rw -drop_drop -Hd drop_app_length //. }
    destruct (seek_exact lines (uc_old_lines chunk) idx' (n + length gap)) as (i0 & -> & Hi0);
      [done|done|by eapply occurs_segment|].
    destruct (IH (n + length gap + length (uc_old_lines chunk))%nat (i0 + length (uc_old_lines chunk))%nat)
      as [rs ->]; [|lia|done|by eexists]. rw -drop_drop Hd' drop_app_length //.
Qed.

Lemma derive_found content path chunks :
  Stands (drop_final_empty (split_lf content)) chunks →
  Forall (λ c, uc_old_lines c = [] ∨ uc_is_end_of_file c = false) chunks →
  ∃ text, derive_new_contents content path chunks = Some (inr text).
Proof.
  intros Hs Hok. destruct (derive_total content path chunks) as [r Hr]. rw Hr.
  destruct (stands_found _ path 0 0 chunks Hs ltac:(lia) Hok) as [rs Hrs].
  unfold derive_new_contents, compute_replacements in Hr. rw Hrs in Hr. cbn [mbind result_bind mret result_ret] in Hr.
  apply bind_Some in Hr as (out & _ & [= <-]). by eexists.
Qed.
