(* ===== verification/PatchParse.v ===== *)
(** * Facts on the patch tool: the parser

    The patch format as an abstract syntax with its rendering to lines, and
    what the parser makes of a rendered patch. *)

From Stdlib Require Import Ascii.
From stdpp Require Import pretty.
From S2P Require Import Prelude Text Chars Result Patch.

(** ** The format *)

(** A line of a chunk: an empty line, a context line, an added or a removed one. *)
Inductive LineOp := Blank | Keep (text : string) | Plus (text : string) | Minus (text : string).

(** A chunk: its header line if it has one, with the context if it names one. *)
Record ChunkSyntax := MkChunkSyntax {
  cs_header : option (option string);
  cs_ops : list LineOp;
  cs_eof : bool
}.

Inductive HunkSyntax :=
  | AddSyntax (path : string) (contents : list string)
  | DeleteSyntax (path : string)
  | UpdateSyntax (path : string) (move_path : option string) (chunks : list ChunkSyntax).

Definition render_op (o : LineOp) : string :=
  match o with Blank => "" | Keep s => String " " s | Plus s => String "+" s | Minus s => String "-" s end.

Definition render_header (h : option (option string)) : list string :=
  match h with
  | None => []
  | Some None => ["@@"]
  | Some (Some c) => ["@@ " +:+ c]
  end.

Definition render_eof (b : bool) : list string := if b then [EOF_MARKER] else [].

Definition render_chunk (c : ChunkSyntax) : list string :=
  render_header (cs_header c) ++ (render_op <$> cs_ops c) ++ render_eof (cs_eof c).

Definition render_move (m : option string) : list string :=
  match m with Some p => [MOVE_TO_MARKER +:+ p] | None => [] end.

Definition hunk_header (h : HunkSyntax) : string :=
  match h with
  | AddSyntax p _ => ADD_FILE_MARKER +:+ p
  | DeleteSyntax p => DELETE_FILE_MARKER +:+ p
  | UpdateSyntax p _ _ => UPDATE_FILE_MARKER +:+ p
  end.

Definition hunk_body (h : HunkSyntax) : list string :=
  match h with
  | AddSyntax _ ls => String "+" <$> ls
  | DeleteSyntax _ => []
  | UpdateSyntax _ m cs => render_move m ++ concat (render_chunk <$> cs)
  end.

Definition render_hunk (h : HunkSyntax) : list string := hunk_header h :: hunk_body h.

Definition render_patch (hs : list HunkSyntax) : list string :=
  BEGIN_PATCH_MARKER :: concat (render_hunk <$> hs) ++ [END_PATCH_MARKER].

(** What it stands for. *)
Definition old_of (o : LineOp) : list string :=
  match o with Blank => [""] | Keep s | Minus s => [s] | Plus _ => [] end.
Definition new_of (o : LineOp) : list string :=
  match o with Blank => [""] | Keep s | Plus s => [s] | Minus _ => [] end.

Definition chunk_of (c : ChunkSyntax) : UpdateFileChunk :=
  MkUpdateFileChunk (default None (cs_header c)) (cs_ops c ≫= old_of) (cs_ops c ≫= new_of) (cs_eof c).

Definition hunk_of (h : HunkSyntax) : Hunk :=
  match h with
  | AddSyntax p ls => AddFile p (unlines ls)
  | DeleteSyntax p => DeleteFile p
  | UpdateSyntax p m cs => UpdateFile p m (chunk_of <$> cs)
  end.

(** Which chunks may stand in a hunk: they have lines, and only the first may
    have no header, when its first line is not blank. *)
Definition chunk_ok (first : bool) (c : ChunkSyntax) : Prop :=
  cs_ops c ≠ [] ∧
  (cs_header c = None → first = true ∧ ∀ o, head (cs_ops c) = Some o → trim (render_op o) ≠ "").

Definition hunk_ok (h : HunkSyntax) : Prop :=
  trim (hunk_header h) = hunk_header h ∧
  match h with
  | UpdateSyntax _ _ [] => False
  | UpdateSyntax _ _ (c :: cs) => chunk_ok true c ∧ Forall (chunk_ok false) cs
  | _ => True
  end.

(** ** A chunk *)

(** A line that ends a chunk. *)
Definition ends_chunk (l : string) : Prop :=
  l ≠ EOF_MARKER ∧ ∃ c s, l = String c s ∧ c ∈ ["@"%char; "*"%char].

Definition after_chunk (tail : list string) : Prop := ∀ l, head tail = Some l → ends_chunk l.

Definition pushed (chunk : UpdateFileChunk) (ops : list LineOp) : UpdateFileChunk :=
  MkUpdateFileChunk (uc_change_context chunk) (uc_old_lines chunk ++ (ops ≫= old_of))
    (uc_new_lines chunk ++ (ops ≫= new_of)) (uc_is_end_of_file chunk).

Lemma chunk_lines_ops n parsed chunk ops rest :
  chunk_lines n parsed chunk ((render_op <$> ops) ++ rest) =
  chunk_lines n (parsed + length ops) (pushed chunk ops) rest.
Proof.
  revert parsed chunk. induction ops as [|o ops IH]; intros parsed chunk.
  - unfold pushed. cbn. rw !app_nil_r Nat.add_0_r. by destruct chunk.
  - rw fmap_cons -app_comm_cons. cbn [length]. rw Nat.add_succ_r -Nat.add_succ_l.
    assert (pushed chunk (o :: ops) = pushed (MkUpdateFileChunk (uc_change_context chunk)
      (uc_old_lines chunk ++ old_of o) (uc_new_lines chunk ++ new_of o) (uc_is_end_of_file chunk)) ops) as ->.
    { unfold pushed. cbn. rw -!app_assoc //. }
    rw -IH. by destruct o.
Qed.

Lemma chunk_lines_end n parsed chunk eof tail :
  parsed ≠ 0%nat → uc_is_end_of_file chunk = false → after_chunk tail →
  chunk_lines n parsed chunk (render_eof eof ++ tail) =
  inr (MkUpdateFileChunk (uc_change_context chunk) (uc_old_lines chunk) (uc_new_lines chunk) eof,
       (parsed + length (render_eof eof))%nat).
Proof.
  intros Hp Heof Htail. destruct eof; cbn [render_eof app length].
  - destruct parsed; [done|]. rw Nat.add_1_r. by destruct tail.
  - rw Nat.add_0_r. destruct tail as [|l tail]; [destruct chunk; by simplify_eq/=|].
    destruct (Htail l eq_refl) as [Hl (c & s & -> & Hc)]. cbn [chunk_lines]. rw decide_False //.
    assert (c = "@"%char ∨ c = "*"%char) as Hc' by set_solver.
    destruct chunk; simplify_eq/=. destruct parsed; [done|]. by destruct Hc' as [-> | ->].
Qed.

Lemma chunk_start_op o n : trim (render_op o) ≠ "" → chunk_start (render_op o) n true = inr (None, 0%nat).
Proof. by destruct o. Qed.

(** Behind its header a chunk is parsed by the loop over its lines. *)
Lemma parse_chunk_from first rest n allow ctx k chunk parsed :
  chunk_start first n allow = inr (ctx, k) → drop k (first :: rest) ≠ [] →
  chunk_lines n 0 (MkUpdateFileChunk ctx [] [] false) (drop k (first :: rest)) = inr (chunk, parsed) →
  parse_update_file_chunk (first :: rest) n allow = inr (chunk, (parsed + k)%nat).
Proof.
  intros Hs Hne Hl. unfold parse_update_file_chunk. rw Hs. cbn [mbind result_bind].
  rw bool_decide_eq_true_2; [cbn [ensure]; by rw Hl|].
  destruct (decide (k < length (first :: rest))%nat) as [|Hge]; [done|].
  destruct Hne. apply drop_ge. lia.
Qed.

Lemma parse_chunk first c tail n :
  chunk_ok first c → after_chunk tail →
  parse_update_file_chunk (render_chunk c ++ tail) n first = inr (chunk_of c, length (render_chunk c)).
Proof.
  intros [Hne Hh] Htail. destruct c as [h ops eof]. unfold render_chunk, chunk_of in *. cbn [cs_header cs_ops cs_eof] in *.
  rw -!app_assoc !length_app length_fmap.
  assert (∀ ctx, chunk_lines n 0 (MkUpdateFileChunk ctx [] [] false) ((render_op <$> ops) ++ render_eof eof ++ tail) =
    inr (MkUpdateFileChunk ctx (ops ≫= old_of) (ops ≫= new_of) eof,
         (length ops + length (render_eof eof))%nat)) as Hl.
  { intros ctx. rw chunk_lines_ops chunk_lines_end //. by destruct ops. }
  destruct ops as [|o ops]; [done|]. destruct h as [[x|]|]; cbn [render_header app].
  1,2: rw Nat.add_comm; eapply (parse_chunk_from _ _ _ _ _ 1); [done|done|apply Hl].
  destruct Hh as [-> Ho]; [done|]. rw Nat.add_0_l -(Nat.add_0_r (length (o :: ops) + _)).
  eapply (parse_chunk_from (render_op o)); [by apply chunk_start_op, Ho|done|apply Hl].
Qed.

(** ** The chunks of a hunk *)

(** The first line of a chunk is neither blank nor a header of a hunk; a chunk
    that is not the first starts with a line that ends the chunk before it. *)
Lemma chunk_first first c :
  chunk_ok first c → ∃ l rest, render_chunk c = l :: rest ∧ trim l ≠ "" ∧ starts_with "***" l = false ∧
    (first = false → ends_chunk l).
Proof.
  destruct c as [h ops eof]. intros [Hne Hh]. unfold render_chunk. cbn [cs_header cs_ops cs_eof] in *.
  destruct h as [[x|]|].
  - eexists _, _. split; [done|]. split; [by apply trim_visible_nonempty|]. split; [done|]. intros _.
    split; [done|]. eexists _, _. split; [done|]. set_solver.
  - eexists _, _. split; [done|]. split; [by apply trim_visible_nonempty|]. split; [done|]. intros _.
    split; [done|]. eexists _, _. split; [done|]. set_solver.
  - destruct (Hh eq_refl) as [-> Ho]. destruct ops as [|o ops]; [done|].
    eexists _, _. split; [done|]. split; [by apply Ho|]. split; [by destruct o|done].
Qed.

(** The lines of chunks that are not the first end the chunk before them. *)
Lemma after_chunks cs tail :
  Forall (chunk_ok false) cs → after_chunk tail → after_chunk (concat (render_chunk <$> cs) ++ tail).
Proof.
  intros Hcs Htail. destruct Hcs as [|c cs Hc _]; [done|]. intros l. rw fmap_cons.
  destruct (chunk_first false c Hc) as (l' & rest & -> & _ & _ & He). cbn. intros [= <-]. by apply He.
Qed.

(** The lines after a hunk: none, or the header of the next one. *)
Definition after_hunk (tail : list string) : Prop :=
  ∀ l, head tail = Some l → ends_chunk l ∧ trim l ≠ "" ∧ starts_with "***" l = true.

Lemma after_hunk_chunk tail : after_hunk tail → after_chunk tail.
Proof. intros H l Hl. by apply H. Qed.

Lemma update_chunks_round fuel n parsed acc c rest :
  chunk_ok (bool_decide (acc = [])) c → after_chunk rest →
  update_chunks (S fuel) n parsed acc (render_chunk c ++ rest) =
  update_chunks fuel n (parsed + length (render_chunk c)) (acc ++ [chunk_of c]) rest.
Proof.
  intros Hc Hr. pose proof (parse_chunk _ c rest (n + parsed) Hc Hr) as Hp.
  destruct (chunk_first _ c Hc) as (l & ls & Hl & Ht & Hm & _). rw Hl in Hp |- *. rw -app_comm_cons in Hp |- *.
  cbn [update_chunks]. rw decide_False // Hm Hp. cbn [mbind result_bind].
  do 2 f_equal. rw app_comm_cons drop_app_length //.
Qed.

Lemma update_chunks_stop fuel n parsed acc tail :
  after_hunk tail → update_chunks fuel n parsed acc tail = inr (acc, parsed).
Proof.
  intros H. destruct fuel; [done|]. destruct tail as [|l tail]; [done|].
  destruct (H l eq_refl) as (_ & Ht & Hm). cbn [update_chunks]. rw decide_False // Hm //.
Qed.

Lemma update_chunks_render fuel n parsed acc cs tail :
  acc ≠ [] → Forall (chunk_ok false) cs → after_hunk tail → (length cs ≤ fuel)%nat →
  update_chunks fuel n parsed acc (concat (render_chunk <$> cs) ++ tail) =
  inr (acc ++ (chunk_of <$> cs), (parsed + length (concat (render_chunk <$> cs)))%nat).
Proof.
  intros Hacc Hcs Htail. revert fuel parsed acc Hacc. induction Hcs as [|c cs Hc Hcs IH]; intros fuel parsed acc Hacc Hf.
  - cbn. rw update_chunks_stop // app_nil_r Nat.add_0_r //.
  - destruct fuel as [|fuel]; [simpl in Hf; lia|]. rw !fmap_cons. cbn [concat]. rw -app_assoc update_chunks_round.
    + rw IH; [|by destruct acc|simpl in Hf; lia]. rw -app_assoc length_app Nat.add_assoc //.
    + by rw bool_decide_eq_false_2.
    + by apply after_chunks, after_hunk_chunk.
Qed.

Lemma concat_render_length cs first :
  Forall (chunk_ok first) cs → (length cs ≤ length (concat (render_chunk <$> cs)))%nat.
Proof.
  induction 1 as [|c cs Hc _ IH]; [done|]. destruct (chunk_first _ c Hc) as (l & ls & Hl & _).
  rw fmap_cons. cbn [concat]. rw length_app Hl. simpl. lia.
Qed.

(** ** The hunks *)

Lemma add_lines_render ls tail :
  after_hunk tail → add_lines ((String "+" <$> ls) ++ tail) = (unlines ls, length ls).
Proof.
  intros Htail. induction ls as [|l ls IH].
  - destruct tail as [|l tail]; [done|]. destruct (Htail l eq_refl) as ((_ & c & s & -> & Hc) & _).
    assert (c = "@"%char ∨ c = "*"%char) as [-> | ->] by set_solver; done.
  - rw fmap_cons -app_comm_cons. cbn [add_lines]. by rw IH.
Qed.

Lemma not_move l : starts_with "***" l = false → strip_prefix MOVE_TO_MARKER l = None.
Proof.
  intros H. destruct (strip_prefix MOVE_TO_MARKER l) as [r|] eqn:E; [|done].
  by apply strip_prefix_Some in E as ->.
Qed.

Lemma strip_prefix_app p r : strip_prefix p (p +:+ r) = Some r.
Proof. by apply strip_prefix_Some. Qed.

(** The optional line that names the new path. *)
Lemma move_render m c cs tail :
  chunk_ok true c →
  let rest := render_move m ++ concat (render_chunk <$> c :: cs) ++ tail in
  head rest ≫= strip_prefix MOVE_TO_MARKER = m ∧
  match m with Some _ => (List.tail rest, 2%nat) | None => (rest, 1%nat) end =
    (concat (render_chunk <$> c :: cs) ++ tail, S (length (render_move m))).
Proof.
  intros Hc. destruct m as [p|]; cbn [render_move app length].
  - by split; [apply strip_prefix_app|].
  - destruct (chunk_first _ c Hc) as (l & ls & Hl & _ & Hm & _). rw fmap_cons. cbn [concat]. rw Hl. split; [|done].
    by apply not_move.
Qed.

Lemma parse_update p m c cs tail n :
  trim (UPDATE_FILE_MARKER +:+ p) = UPDATE_FILE_MARKER +:+ p →
  chunk_ok true c → Forall (chunk_ok false) cs → after_hunk tail →
  parse_one_hunk (UPDATE_FILE_MARKER +:+ p) ((render_move m ++ concat (render_chunk <$> c :: cs)) ++ tail) n =
  inr (UpdateFile p m (chunk_of <$> c :: cs),
       S (length (render_move m ++ concat (render_chunk <$> c :: cs)))).
Proof.
  intros Ht Hc Hcs Htail. unfold parse_one_hunk. rw Ht -app_assoc.
  change (strip_prefix ADD_FILE_MARKER (UPDATE_FILE_MARKER +:+ p)) with (@None string).
  change (strip_prefix DELETE_FILE_MARKER (UPDATE_FILE_MARKER +:+ p)) with (@None string).
  rw strip_prefix_app. destruct (move_render m c cs tail Hc) as [Hm Hr]. cbv zeta in *. rw Hm Hr.
  assert (length cs < length (concat (render_chunk <$> c :: cs) ++ tail))%nat as Hf.
  { pose proof (concat_render_length cs false Hcs). destruct (chunk_first _ c Hc) as (l & ls & Hl & _).
    rw fmap_cons. cbn [concat]. rw Hl !length_app. simpl. lia. }
  destruct (length (concat _ ++ tail)) as [|fuel]; [lia|]. rw fmap_cons. cbn [concat]. rw -app_assoc.
  rw update_chunks_round; [|done|by apply after_chunks, after_hunk_chunk].
  rw update_chunks_render; [|done..|lia]. cbn [mbind result_bind]. rw bool_decide_eq_true_2; [|done].
  cbn. do 2 f_equal. rw !length_app. lia.
Qed.

Lemma parse_hunk h tail n :
  hunk_ok h → after_hunk tail →
  parse_one_hunk (hunk_header h) (hunk_body h ++ tail) n = inr (hunk_of h, length (render_hunk h)).
Proof.
  intros [Ht Hok] Htail. destruct h as [p ls|p|p m [|c cs]]; [| |done|].
  - unfold parse_one_hunk. cbn [hunk_header hunk_body] in *. rw Ht strip_prefix_app add_lines_render //.
    cbn. by rw length_fmap.
  - unfold parse_one_hunk. cbn [hunk_header hunk_body] in *. rw Ht.
    change (strip_prefix ADD_FILE_MARKER (DELETE_FILE_MARKER +:+ p)) with (@None string).
    by rw strip_prefix_app.
  - destruct Hok as [Hc Hcs]. by apply parse_update.
Qed.

(** A header of a hunk ends what stands before it. *)
Lemma after_header h rest : after_hunk (hunk_header h :: rest).
Proof.
  intros l [= <-]. split; [split|split].
  - by destruct h.
  - destruct h; eexists _, _; (split; [done|set_solver]).
  - destruct h; by apply trim_visible_nonempty.
  - by destruct h.
Qed.

Lemma after_hunks hs : after_hunk (concat (render_hunk <$> hs)).
Proof. destruct hs as [|h hs]; [done|]. apply after_header. Qed.

Lemma parse_hunks_render fuel n hs :
  Forall hunk_ok hs → (length (concat (render_hunk <$> hs)) ≤ fuel)%nat →
  parse_hunks fuel n (concat (render_hunk <$> hs)) = inr (hunk_of <$> hs).
Proof.
  intros Hhs. revert fuel n. induction Hhs as [|h hs Hh _ IH]; intros fuel n Hf; [by destruct fuel|].
  rw fmap_cons in Hf |- *. cbn [concat] in *. rw length_app in Hf. unfold render_hunk at 1. rw -app_comm_cons.
  destruct fuel as [|fuel]; [simpl in Hf; lia|]. cbn [parse_hunks].
  rw parse_hunk //; [|apply after_hunks]. cbn [mbind result_bind].
  rw app_comm_cons -/(render_hunk h) drop_app_length IH; [done|]. simpl in Hf. lia.
Qed.

(** ** The text *)

Lemma join_snoc ls x : join (String LF "") (ls ++ [x]) = unlines ls +:+ x.
Proof.
  unfold join. induction ls as [|l ls IH]; [done|]. cbn [app String.concat unlines foldr].
  destruct (ls ++ [x]) as [|y ys] eqn:E; [by destruct ls|]. cbn [app]. rw IH.
  rw string_app_assoc string_app_cons //.
Qed.

(** A text that starts and ends with visible characters: its lines. *)
Lemma text_lines a first ls body b :
  visible a = true → visible b = true → Forall line_ok (String a first :: ls) → line_ok (body +:+ String b "") →
  let text := join (String LF "") (String a first :: ls ++ [body +:+ String b ""]) in
  lines (trim text) = String a first :: ls ++ [body +:+ String b ""].
Proof.
  intros Ha Hb Hls [Hlf Hcr]. cbv zeta. rw app_comm_cons join_snoc.
  assert (trim (unlines (String a first :: ls) +:+ (body +:+ String b "")) =
    unlines (String a first :: ls) +:+ (body +:+ String b "")) as ->.
  { cbn [unlines foldr]. rw -!string_app_assoc !string_app_cons. by apply trim_visible. }
  destruct (body +:+ String b "") as [|c frag] eqn:E; [by destruct body|].
  rw lines_unlines_frag //. by rw Hcr.
Qed.

Lemma patch_boundaries body : check_patch_boundaries_strict (BEGIN_PATCH_MARKER :: body ++ [END_PATCH_MARKER]) = inr ().
Proof. unfold check_patch_boundaries_strict. rw app_comm_cons last_snoc. by vm_compute. Qed.

Lemma inner_lines {A} (x y : A) l : take (length (x :: l ++ [y]) - 2) (drop 1 (x :: l ++ [y])) = l.
Proof.
  cbn [length drop]. rw length_app. cbn [length]. replace (S (length l + 1) - 2)%nat with (length l) by lia.
  apply take_app_length.
Qed.

Lemma lenient_heredoc opening inner e :
  opening ∈ heredoc_openings → (2 ≤ length inner)%nat → check_patch_boundaries_strict inner = inr () →
  check_patch_boundaries_lenient (opening :: inner ++ ["EOF"]) e = inr inner.
Proof.
  intros Ho Hl Hs. destruct inner as [|x inner]; [simpl in Hl; lia|].
  assert (last (opening :: (x :: inner) ++ ["EOF"]) = Some "EOF") as Hlast by (rw app_comm_cons last_snoc //).
  pose proof (inner_lines opening "EOF" (x :: inner)) as Hi. unfold check_patch_boundaries_lenient. cbn [app] in *.
  rw Hlast Hi decide_True; [by rw Hs|]. split; [done|]. split; [done|]. simpl in *. rw length_app /=. lia.
Qed.

(** Both forms of a patch, from their lines. *)
Lemma parse_text_lines text hs :
  Forall hunk_ok hs →
  lines (trim text) = render_patch hs ∨
    (∃ opening, opening ∈ heredoc_openings ∧ lines (trim text) = opening :: render_patch hs ++ ["EOF"]) →
  parse_patch text = inr (MkParsedPatch (hunk_of <$> hs) (join (String LF "") (render_patch hs))).
Proof.
  intros Hhs Hl. unfold parse_patch, parse_patch_text.
  assert ((match check_patch_boundaries_strict (lines (trim text)) with
           | inl e => check_patch_boundaries_lenient (lines (trim text)) e
           | inr _ => mret (lines (trim text))
           end) = inr (render_patch hs)) as Hlines.
  { destruct Hl as [-> | (opening & Ho & ->)].
    - unfold render_patch. by rw patch_boundaries.
    - destruct (check_patch_boundaries_strict (opening :: render_patch hs ++ ["EOF"])) as [e|] eqn:E.
      + apply lenient_heredoc; [done|unfold render_patch; rw /= length_app /=; lia|apply patch_boundaries].
      + exfalso. unfold check_patch_boundaries_strict in E. rw (app_comm_cons (render_patch hs) ["EOF"]) last_snoc in E.
        set_unfold in Ho. by destruct Ho as [-> | [-> | [-> | []]]]. }
  cbn [PARSE_IN_STRICT_MODE]. rw Hlines. cbn [mbind result_bind].
  assert (take (length (render_patch hs) - 2) (drop 1 (render_patch hs)) = concat (render_hunk <$> hs)) as ->
    by apply inner_lines.
  by rw parse_hunks_render.
Qed.

(** ** Every round takes lines, and no more than there are *)

Lemma chunk_lines_took n parsed chunk ls c k :
  chunk_lines n parsed chunk ls = inr (c, k) →
  (parsed ≤ k ≤ parsed + length ls)%nat ∧ (ls ≠ [] → (1 ≤ k)%nat).
Proof.
  revert parsed chunk. induction ls as [|l ls IH]; intros parsed chunk H.
  { cbn in H. simplify_eq/=. split; [lia|done]. }
  assert (∀ chunk', chunk_lines n (S parsed) chunk' ls = inr (c, k) →
    (parsed ≤ k ≤ parsed + length (l :: ls))%nat ∧ (l :: ls ≠ [] → (1 ≤ k)%nat)) as Hrec.
  { intros chunk' [Hk _]%IH. simpl. split; lia. }
  cbn [chunk_lines] in H. destruct (decide (l = EOF_MARKER)).
  { destruct (decide (parsed = 0%nat)); [done|]. simplify_eq/=. split; lia. }
  destruct l as [|a text]; [by eapply Hrec|].
  destruct (decide (a = " "%char)); [by eapply Hrec|].
  destruct (decide (a = "+"%char)); [by eapply Hrec|].
  destruct (decide (a = "-"%char)); [by eapply Hrec|].
  destruct (decide (parsed = 0%nat)); [done|]. simplify_eq/=. split; lia.
Qed.

Lemma chunk_start_took first n allow ctx k : chunk_start first n allow = inr (ctx, k) → (k ≤ 1)%nat.
Proof.
  unfold chunk_start. destruct (decide _); [by intros [= _ <-]|].
  destruct (strip_prefix _ first); [by intros [= _ <-]|].
  intros (_ & _ & [= _ <-])%result_bind_inr. lia.
Qed.

Lemma parse_chunk_took ls n allow c k :
  parse_update_file_chunk ls n allow = inr (c, k) → (1 ≤ k ≤ length ls)%nat.
Proof.
  unfold parse_update_file_chunk. destruct ls as [|first rest]; [done|].
  intros ([ctx start] & Hs & H)%result_bind_inr. apply chunk_start_took in Hs.
  apply result_bind_inr in H as (_ & Hlt%result_ensure_inr%bool_decide_eq_true & H).
  apply result_bind_inr in H as ([chunk parsed] & [Hk Hone]%chunk_lines_took & [= _ <-]).
  rw length_drop in Hk. destruct start as [|start]; [|lia]. specialize (Hone ltac:(done)). lia.
Qed.

Lemma update_chunks_took fuel n parsed acc ls cs k :
  update_chunks fuel n parsed acc ls = inr (cs, k) → (parsed ≤ k ≤ parsed + length ls)%nat.
Proof.
  revert parsed acc ls. induction fuel as [|fuel IH]; intros parsed acc ls H.
  { injection H as <- <-. lia. }
  destruct ls as [|l ls]; cbn [update_chunks] in H; [injection H as <- <-; lia|].
  destruct (decide (trim l = "")); [apply IH in H; simpl; lia|].
  destruct (starts_with "***" l); [injection H as <- <-; lia|].
  apply result_bind_inr in H as ([c j] & Hj%parse_chunk_took & H%IH). rw length_drop in H. lia.
Qed.

Lemma add_lines_took ls : ((add_lines ls).2 ≤ length ls)%nat.
Proof.
  induction ls as [|l ls IH]; [done|]. cbn [add_lines]. destruct l as [|c text]; [simpl; lia|].
  destruct (add_lines ls) as [contents n]. simpl in *. repeat case_match; simpl; lia.
Qed.

Lemma parse_hunk_took first rest n h k :
  parse_one_hunk first rest n = inr (h, k) → (1 ≤ k ≤ S (length rest))%nat.
Proof.
  unfold parse_one_hunk. destruct (strip_prefix ADD_FILE_MARKER _).
  { pose proof (add_lines_took rest) as H. destruct (add_lines rest) as [contents j]. intros [= _ <-]. simpl in H. lia. }
  destruct (strip_prefix DELETE_FILE_MARKER _); [intros [= _ <-]; lia|].
  destruct (strip_prefix UPDATE_FILE_MARKER _) as [path|]; [|done].
  set (m := head rest ≫= strip_prefix MOVE_TO_MARKER).
  assert (m ≠ None → rest ≠ []) as Hm by (unfold m; by destruct rest).
  destruct m as [d|].
  - intros ([cs j] & Hj%update_chunks_took & H)%result_bind_inr.
    apply result_bind_inr in H as (_ & _ & [= _ <-]). destruct rest; [by destruct Hm|]. simpl in *. lia.
  - intros ([cs j] & Hj%update_chunks_took & H)%result_bind_inr.
    apply result_bind_inr in H as (_ & _ & [= _ <-]). lia.
Qed.

(** More fuel than lines changes nothing. *)
Lemma update_chunks_fuel fuel n parsed acc ls :
  (length ls ≤ fuel)%nat → update_chunks fuel n parsed acc ls = update_chunks (length ls) n parsed acc ls.
Proof.
  remember (length ls) as m eqn:Hm. revert fuel parsed acc ls Hm.
  induction m as [m IH] using lt_wf_ind. intros fuel parsed acc ls Hm Hf.
  destruct ls as [|l ls]; [subst; by destruct fuel|]. destruct fuel as [|fuel]; [simpl in *; lia|].
  destruct m as [|m]; [done|]. cbn [update_chunks]. destruct (decide (trim l = "")).
  { apply (IH m); simpl in *; lia. }
  destruct (starts_with "***" l); [done|].
  destruct (parse_update_file_chunk (l :: ls) _ _) as [e|[c j]] eqn:E; [done|]. cbn [mbind result_bind].
  apply parse_chunk_took in E. pose proof (length_drop (l :: ls) j) as Hd.
  rw (IH (length (drop j (l :: ls))) ltac:(simpl in *; lia) fuel _ _ (drop j (l :: ls)) eq_refl ltac:(simpl in *; lia)).
  by rw (IH (length (drop j (l :: ls))) ltac:(simpl in *; lia) m _ _ (drop j (l :: ls)) eq_refl ltac:(simpl in *; lia)).
Qed.

Lemma parse_hunks_fuel fuel n ls :
  (length ls ≤ fuel)%nat → parse_hunks fuel n ls = parse_hunks (length ls) n ls.
Proof.
  remember (length ls) as m eqn:Hm. revert fuel n ls Hm.
  induction m as [m IH] using lt_wf_ind. intros fuel n ls Hm Hf.
  destruct ls as [|l ls]; [subst; by destruct fuel|]. destruct fuel as [|fuel]; [simpl in *; lia|].
  destruct m as [|m]; [done|]. cbn [parse_hunks].
  destruct (parse_one_hunk l ls n) as [e|[h j]] eqn:E; [done|]. cbn [mbind result_bind].
  apply parse_hunk_took in E. pose proof (length_drop (l :: ls) j) as Hd.
  rw (IH (length (drop j (l :: ls))) ltac:(simpl in *; lia) fuel _ (drop j (l :: ls)) eq_refl ltac:(simpl in *; lia)).
  by rw (IH (length (drop j (l :: ls))) ltac:(simpl in *; lia) m _ (drop j (l :: ls)) eq_refl ltac:(simpl in *; lia)).
Qed.
