(* ===== verification/PatchProps.v ===== *)
(** * The patch tool: its theorems

    The round trip of the format, the search, what a patch does to the text of
    a file, and what a run of the tool does to the files it is given. *)

From Stdlib Require Import Ascii.
From stdpp Require Import pretty gmap.
From S2P Require Import Prelude Text Chars Result Patch PatchFacts PatchParse.

(** ** Parser *)


(** The loops of the parser end.  A hunk takes at least one line and no more
    than there are, so the slice behind it is in range, and with at least as much
    fuel as lines the loops over the hunks of a patch and the chunks of a hunk
    have run to their end: more fuel gives the same result. *)
Theorem parser_ends :
  (∀ first rest n h k, parse_one_hunk first rest n = inr (h, k) → (1 ≤ k ≤ length (first :: rest))%nat) ∧
  (∀ ls n allow c k, parse_update_file_chunk ls n allow = inr (c, k) → (1 ≤ k ≤ length ls)%nat) ∧
  (∀ fuel n ls, (length ls ≤ fuel)%nat → parse_hunks fuel n ls = parse_hunks (length ls) n ls) ∧
  (∀ fuel n parsed acc ls, (length ls ≤ fuel)%nat →
    update_chunks fuel n parsed acc ls = update_chunks (length ls) n parsed acc ls).
Proof.
  split; [apply parse_hunk_took|]. split; [apply parse_chunk_took|].
  split; [apply parse_hunks_fuel|apply update_chunks_fuel].
Qed.

(** ** Search *)

Lemma strictest_at_end lines pattern form :
  pattern ≠ [] → form ∈ passes → occurs form lines pattern (length lines - length pattern) →
  strictest lines pattern (length lines - length pattern) (length lines - length pattern).
Proof.
  intros Hne Hform Ho. set (n := (length lines - length pattern)%nat) in *.
  destruct (seek_sequence lines pattern 0 true) as [i|] eqn:E.
  - apply seek_Some in E; [|done]. unfold search_from in E. fold n in E. destruct E as (k & form' & Hk & (Hlo & Ho' & Hl) & Hs).
    pose proof (occurs_fits _ _ _ _ Hne Ho'). assert (i = n) as -> by (unfold n in *; lia). by exists k, form'.
  - pose proof (proj1 (seek_None lines pattern 0 true Hne) E form n Hform) as Hn. by destruct Hn.
Qed.

(** C26: [seek_sequence] finds a pattern exactly where the specification says.  For
    a chunk that is not marked as the end of the file it finds the first position
    from the start on where the pattern occurs in the strictest of the four forms
    (as it is, without white space at the end, at both ends, with typographic
    characters replaced) in which it occurs at all, and none exactly when it
    occurs in no form.  For a chunk marked as the end, a pattern that stands at
    the end of the file in one of the forms is found there; of a pattern that
    does not stand there nothing is claimed. *)
Theorem seek_finds_strictest lines pattern start :
  pattern ≠ [] →
  passes = [id; trim_end; trim; normalise] ∧
  (∀ i, seek_sequence lines pattern start false = Some i ↔ strictest lines pattern start i) ∧
  (seek_sequence lines pattern start false = None ↔
   ∀ form i, form ∈ passes → (start ≤ i)%nat → ¬ occurs form lines pattern i) ∧
  (∀ form, form ∈ passes → occurs form lines pattern (length lines - length pattern) →
   seek_sequence lines pattern start true = Some (length lines - length pattern)%nat).
Proof.
  intros Hne. split; [done|]. split; [intros i; by apply seek_Some|]. split; [by apply seek_None|].
  intros form Hform Ho. apply seek_Some; [done|]. by eapply strictest_at_end.
Qed.

(** ** Application *)

Lemma close_unlines l : last l ≠ Some "" → close_lines l = unlines l.
Proof. intros Hl. unfold close_lines. rw decide_False // join_snoc string_app_nil_r //. Qed.


(** ** The tool *)

(** What the tool relies on in the file system: a state has the contents of files
    by path, a read returns them, and a write, a deletion or a creation of
    directories that reports success did what it is for. *)
Class AsyncFileSystemOk (F : Type) `{AsyncFileSystem F} := {
  contents : F → gmap string string;
  read_contents path files bytes :
    read_file path files = inr bytes → contents files !! path = Some bytes;
  write_contents path bytes files files' :
    write_file path bytes files = (inr (), files') → contents files' = <[path := bytes]> (contents files);
  delete_contents path files files' :
    delete_file path files = (inr (), files') → contents files' = delete path (contents files);
  dirs_contents path files files' :
    create_dir_all path files = (inr (), files') → contents files' = contents files
}.

(** What a change leaves in the files, what it announces, and what the tool
    reports of it. *)
Definition effect (m : gmap string string) (c : FileChange) : gmap string string :=
  match c with
  | ChangeAdd p new => <[p := new]> m
  | ChangeDelete p _ => delete p m
  | ChangeUpdate p _ new => <[p := new]> m
  | ChangeMove source dest _ new => delete source (<[dest := new]> m)
  end.

Definition touched (c : FileChange) : list string :=
  match c with
  | ChangeAdd p _ | ChangeDelete p _ | ChangeUpdate p _ _ => [p]
  | ChangeMove source dest _ _ => [dest; source]
  end.

Definition notices (call_id : string) (c : FileChange) : list FileWritten :=
  match c with
  | ChangeAdd p new => [MkFileWritten call_id p new None true]
  | ChangeDelete p old => [MkFileWritten call_id p "" (Some old) false]
  | ChangeUpdate p old new => [MkFileWritten call_id p new (Some old) false]
  | ChangeMove source dest old new =>
      [MkFileWritten call_id dest new None true; MkFileWritten call_id source "" (Some old) false]
  end.

Definition report (c : FileChange) : ApplyPatchFileResult :=
  match c with
  | ChangeAdd p new => MkApplyPatchFileResult p "added" None new None
  | ChangeDelete p old => MkApplyPatchFileResult p "deleted" (Some old) "" None
  | ChangeUpdate p old new => MkApplyPatchFileResult p "modified" (Some old) new None
  | ChangeMove source dest old new => MkApplyPatchFileResult source "moved" (Some old) new (Some dest)
  end.

(** The files hold what a change is for. *)
Definition in_place (m : gmap string string) (c : FileChange) : Prop :=
  match c with
  | ChangeAdd p new | ChangeUpdate p _ new => m !! p = Some new
  | ChangeDelete p _ => m !! p = None
  | ChangeMove source dest _ new => m !! dest = Some new ∧ m !! source = None
  end.

Section tool_facts.
Context {F : Type} `{AsyncFileSystem F}.

(** The calls of a change that all succeeded, from the files before to the files
    after. *)
Definition performs (c : FileChange) (files files' : F) : Prop :=
  match c with
  | ChangeAdd p new => ∃ f, ensure_parent_dirs p files = (inr (), f) ∧ write_file p new f = (inr (), files')
  | ChangeDelete p _ => delete_file p files = (inr (), files')
  | ChangeUpdate p _ new => write_file p new files = (inr (), files')
  | ChangeMove source dest _ new => ∃ f f', ensure_parent_dirs dest files = (inr (), f) ∧
      write_file dest new f = (inr (), f') ∧ delete_file source f' = (inr (), files')
  end.

(** One of its calls failed with [e], after those before it succeeded. *)
Definition breaks (c : FileChange) (files : F) (e : string) (files' : F) : Prop :=
  match c with
  | ChangeAdd p new => ensure_parent_dirs p files = (inl e, files') ∨
      ∃ f, ensure_parent_dirs p files = (inr (), f) ∧ write_file p new f = (inl e, files')
  | ChangeDelete p _ => delete_file p files = (inl e, files')
  | ChangeUpdate p _ new => write_file p new files = (inl e, files')
  | ChangeMove source dest _ new => ensure_parent_dirs dest files = (inl e, files') ∨
      (∃ f, ensure_parent_dirs dest files = (inr (), f) ∧ write_file dest new f = (inl e, files')) ∨
      ∃ f f', ensure_parent_dirs dest files = (inr (), f) ∧ write_file dest new f = (inr (), f') ∧
        delete_file source f' = (inl e, files')
  end.

Inductive performed : list FileChange → F → F → Prop :=
  | performed_nil files : performed [] files files
  | performed_cons c cs files f files' :
      performs c files f → performed cs f files' → performed (c :: cs) files files'.

(** One change: either a call fails, with nothing announced, or the rest runs on
    the announced change. *)
Lemma write_change call_id c cs results st :
  (∃ e files, breaks c st.1 e files ∧
     write_changes call_id (c :: cs) results st = (inl (tool_error e), (files, st.2))) ∨
  (∃ files, performs c st.1 files ∧ write_changes call_id (c :: cs) results st =
     write_changes call_id cs (results ++ [report c]) (files, st.2 ++ notices call_id c)).
Proof.
  destruct c; cbn [write_changes performs breaks]; unfold call, notify;
    repeat case_match; cbn [fst snd] in *; simplify_eq; repeat match goal with u : () |- _ => destruct u end;
    (left; by eauto 10) || (right; by eauto 10).
Qed.

(** The announced changes are the completed ones, in their order. *)
Lemma write_changes_announced call_id cs results st r st' :
  write_changes call_id cs results st = (r, st') →
  ∃ completed rest files, cs = completed ++ rest ∧ st'.2 = st.2 ++ (completed ≫= notices call_id) ∧
    performed completed st.1 files ∧
    match r with
    | inr results' => rest = [] ∧ st'.1 = files ∧ results' = results ++ (report <$> completed)
    | inl error => ∃ c cs e, rest = c :: cs ∧ error = tool_error e ∧ breaks c files e st'.1
    end.
Proof.
  revert results st. induction cs as [|c cs IH]; intros results st E.
  - injection E as <- <-. exists [], [], st.1. cbn. rw !app_nil_r. split_and!; try done. constructor.
  - destruct (write_change call_id c cs results st) as [(e & files & Hb & Hw)|(files & Hp & Hw)]; rw Hw in E.
    + injection E as <- <-. exists [], (c :: cs), st.1. cbn. rw app_nil_r. split_and!; try done; [constructor|].
      by exists c, cs, e.
    + apply IH in E as (completed & rest & files' & -> & Hn & Hd & Hr). exists (c :: completed), rest, files'.
      split; [done|]. split; [rw Hn bind_cons -app_assoc //|]. split; [by econstructor|].
      destruct r; [done|]. destruct Hr as (-> & Hf & ->). split; [done|]. split; [done|]. rw -app_assoc //.
Qed.

(** The changes of the hunks, each computed from the files before the run. *)
Lemma changes_of_hunks cwd files hunks changes :
  compute_all_changes cwd files hunks = Some (inr changes) →
  Forall2 (λ h c, compute_change cwd files h = Some (inr c)) hunks changes.
Proof.
  revert changes. induction hunks as [|h hunks IH]; intros changes; cbn [compute_all_changes].
  - intros [= <-]. constructor.
  - intros ([e|c] & Hc & Hr)%bind_Some; [done|].
    apply bind_Some in Hr as ([e|cs] & Hcs & [= <-]). constructor; [done|]. by apply IH.
Qed.

Lemma compute_change_total cwd files h : is_Some (compute_change cwd files h).
Proof.
  destruct h as [p contents|p|p m chunks]; cbn [compute_change]; [done..|].
  destruct (read_file_as_string files (path_join cwd p)) as [e|original]; [done|].
  destruct (derive_total original (path_join cwd p) chunks) as [r ->]. done.
Qed.

Lemma changes_total cwd files hunks : is_Some (compute_all_changes cwd files hunks).
Proof.
  induction hunks as [|h hunks IH]; cbn [compute_all_changes]; [done|].
  destruct (compute_change_total cwd files h) as [[e|c] ->]; [done|]. cbn. by destruct IH as [r ->].
Qed.

(** C21: a patch that cannot be computed as a whole is not applied at all, and
    the tool never panics.  It reports a parse error exactly for a patch that does
    not parse, an empty patch exactly for one without hunks, and an application
    error when a hunk has no change; in these cases the files are as they were and
    nothing is announced.  Otherwise every hunk has its change, computed from the
    files before the run.  On success the calls of all the changes succeeded, one
    after the other, and they are announced and reported in their order.  On an
    error of the file system the changes announced are exactly those whose calls
    succeeded, in their order; the next one is the change whose call failed, with
    that error, and the files are as this call left them. *)
Theorem tool_outcomes cwd call_id patch (st : ToolState (F := F)) :
  ∃ r st', run cwd call_id patch st = Some (r, st') ∧
  match parse_patch patch with
  | inl _ => (∃ m, r = inr (OutputParseError m)) ∧ st' = st
  | inr parsed =>
      match r with
      | inr (OutputParseError _) => False
      | inr (EmptyPatch _) => pp_hunks parsed = [] ∧ st' = st
      | inr (ApplicationError m) =>
          compute_all_changes cwd st.1 (pp_hunks parsed) = Some (inl m) ∧ st' = st
      | inr (Success files summary) =>
          ∃ changes, Forall2 (λ h c, compute_change cwd st.1 h = Some (inr c)) (pp_hunks parsed) changes ∧
            changes ≠ [] ∧ performed changes st.1 st'.1 ∧
            st'.2 = st.2 ++ (changes ≫= notices call_id) ∧
            files = report <$> changes ∧ summary = build_summary files
      | inl error =>
          ∃ completed failed rest files e,
            Forall2 (λ h c, compute_change cwd st.1 h = Some (inr c)) (pp_hunks parsed)
              (completed ++ failed :: rest) ∧
            performed completed st.1 files ∧ breaks failed files e st'.1 ∧ error = tool_error e ∧
            st'.2 = st.2 ++ (completed ≫= notices call_id)
      end
  end.
Proof.
  unfold run. destruct (parse_patch patch) as [[m|m n]|parsed]; [by eauto 10..|].
  destruct (decide (pp_hunks parsed = [])) as [Hempty|Hne]; [by eexists _, _|].
  destruct (changes_total cwd st.1 (pp_hunks parsed)) as [[m|changes] Hc]; rw Hc; cbn [mbind option_bind];
    [by eexists _, _|].
  apply changes_of_hunks in Hc. destruct (write_changes call_id changes [] st) as [r st'] eqn:E.
  apply write_changes_announced in E as (completed & rest & files & -> & Hn & Hd & Hr).
  destruct r as [e|results]; eexists _, _; (split; [done|]); cbn.
  - destruct Hr as (failed & cs & e' & -> & -> & Hb). by exists completed, failed, cs, files, e'.
  - destruct Hr as (-> & <- & ->). rw app_nil_r in Hc. exists completed. split_and!; try done.
    intros ->. by apply Forall2_nil_inv_r in Hc.
Qed.

End tool_facts.

(** What a hunk asks for, given the contents of the files. *)
Definition asked (m : gmap string string) (cwd : string) (h : Hunk) (c : FileChange) : Prop :=
  match h, c with
  | AddFile p text, ChangeAdd q new => q = path_join cwd p ∧ new = text
  | DeleteFile p, ChangeDelete q old =>
      q = path_join cwd p ∧ ∃ bytes, m !! q = Some bytes ∧ old = from_utf8_lossy bytes
  | UpdateFile p None chunks, ChangeUpdate q old new =>
      q = path_join cwd p ∧ (∃ bytes, m !! q = Some bytes ∧ old = from_utf8_lossy bytes) ∧
      derive_new_contents old q chunks = Some (inr new)
  | UpdateFile p (Some d) chunks, ChangeMove q dest old new =>
      q = path_join cwd p ∧ dest = path_join cwd d ∧
      (∃ bytes, m !! q = Some bytes ∧ old = from_utf8_lossy bytes) ∧
      derive_new_contents old q chunks = Some (inr new)
  | _, _ => False
  end.

Lemma effect_other m c p : p ∉ touched c → effect m c !! p = m !! p.
Proof.
  destruct c; cbn [effect touched]; rw ?elem_of_cons ?elem_of_nil; intros Hp.
  - rw lookup_insert_ne //. naive_solver.
  - rw lookup_delete_ne //. naive_solver.
  - rw lookup_insert_ne //. naive_solver.
  - rw lookup_delete_ne ?lookup_insert_ne //; naive_solver.
Qed.

Lemma effects_other m cs p : p ∉ cs ≫= touched → foldl effect m cs !! p = m !! p.
Proof.
  revert m. induction cs as [|c cs IH]; intros m Hp; [done|]. rw bind_cons elem_of_app in Hp.
  cbn [foldl]. rw IH; [|naive_solver]. apply effect_other. naive_solver.
Qed.

Lemma effect_in_place m c : NoDup (touched c) → in_place (effect m c) c.
Proof.
  destruct c; cbn [in_place effect touched]; intros Hnd.
  - by rw lookup_insert_eq.
  - by rw lookup_delete_eq.
  - by rw lookup_insert_eq.
  - apply NoDup_cons in Hnd as [Hne _]. rw elem_of_cons elem_of_nil in Hne.
    rw lookup_delete_eq lookup_delete_ne ?lookup_insert_eq //. naive_solver.
Qed.

Lemma in_place_other m m' c : (∀ p, p ∈ touched c → m' !! p = m !! p) → in_place m c → in_place m' c.
Proof.
  destruct c; cbn [in_place touched]; intros Hp; rw !Hp //; set_solver.
Qed.

Lemma effects_in_place m cs : NoDup (cs ≫= touched) → Forall (in_place (foldl effect m cs)) cs.
Proof.
  revert m. induction cs as [|c cs IH]; intros m Hnd; [constructor|].
  rw bind_cons in Hnd. apply NoDup_app in Hnd as (Hc & Hdis & Hcs). constructor; [|by apply IH].
  cbn [foldl]. eapply in_place_other; [|by apply (effect_in_place m)].
  intros p Hp. apply effects_other. by apply Hdis.
Qed.

Section tool_writes.
Context {F : Type} `{AsyncFileSystemOk F}.

Lemma change_asked cwd files h c :
  compute_change cwd files h = Some (inr c) → asked (contents files) cwd h c.
Proof.
  destruct h as [p text|p|p m chunks]; cbn [compute_change]; [by intros [= <-]|..].
  - unfold read_file_as_string. destruct (read_file _ files) as [e|bytes] eqn:E; [done|].
    intros [= <-]. split; [done|]. exists bytes. split; [by apply read_contents|done].
  - unfold read_file_as_string. destruct (read_file _ files) as [e|bytes] eqn:E; [done|].
    intros ([e|new] & Hd & Hc)%bind_Some; [by destruct e|]. apply read_contents in E.
    destruct m as [d|]; injection Hc as <-; naive_solver.
Qed.

Lemma parent_dirs_contents path files files' :
  ensure_parent_dirs path files = (inr (), files') → contents files' = contents files.
Proof.
  unfold ensure_parent_dirs. destruct (path_parent path) as [parent|]; [|by intros [= <-]].
  destruct (decide (parent = "")); [by intros [= <-]|]. apply dirs_contents.
Qed.

Lemma write_changes_effect call_id cs results st files st' :
  write_changes call_id cs results st = (inr files, st') → contents st'.1 = foldl effect (contents st.1) cs.
Proof.
  revert results st. induction cs as [|c cs IH]; intros results st E; [by injection E as _ <-|].
  destruct c; cbn [write_changes] in E; unfold call, notify in E; repeat case_match; cbn [fst snd] in *;
    simplify_eq; repeat match goal with u : () |- _ => destruct u end; apply IH in E; rw E; cbn [fst snd foldl effect]; f_equal;
    repeat match goal with
    | Hd : ensure_parent_dirs _ _ = _ |- _ => apply parent_dirs_contents in Hd
    | Hw : write_file _ _ _ = _ |- _ => apply write_contents in Hw
    | Hd : delete_file _ _ = _ |- _ => apply delete_contents in Hd
    end; congruence.
Qed.

(** C14: what a successful run leaves in the files.  The change of every hunk is
    the one it asks for, computed from the files before the run, and the files
    are those before the run with these changes one after the other; a path that
    no hunk names is as it was, and when the hunks name different paths every
    hunk has what it asks for: the file added, deleted, updated, or moved. *)
Theorem tool_writes cwd call_id patch (st st' : ToolState (F := F)) files summary :
  run cwd call_id patch st = Some (inr (Success files summary), st') →
  ∃ parsed changes, parse_patch patch = inr parsed ∧
    Forall2 (asked (contents st.1) cwd) (pp_hunks parsed) changes ∧
    contents st'.1 = foldl effect (contents st.1) changes ∧
    (∀ p, p ∉ changes ≫= touched → contents st'.1 !! p = contents st.1 !! p) ∧
    (NoDup (changes ≫= touched) → Forall (in_place (contents st'.1)) changes).
Proof.
  unfold run. destruct (parse_patch patch) as [[m|m n]|parsed]; [done..|].
  destruct (decide (pp_hunks parsed = [])) as [|Hne]; [done|].
  intros ([m|changes] & Hc & Hr)%bind_Some; [done|]. apply changes_of_hunks in Hc.
  destruct (write_changes call_id changes [] st) as [[e|fs] st1] eqn:E; [done|]. injection Hr as _ _ <-.
  apply write_changes_effect in E. exists parsed, changes. split; [done|].
  split; [eapply Forall2_impl; [exact Hc|]; intros; by apply change_asked|]. split; [done|]. rw E.
  split; [intros p; apply effects_other|apply effects_in_place].
Qed.

End tool_writes.

(** ** Concrete runs *)

(** The files of a memory. *)
#[export] Instance memory_files : AsyncFileSystem (gmap string string) := {
  read_file path files := match files !! path with Some bytes => inr bytes | None => inl "not found" end;
  write_file path bytes files := (inr (), <[path := bytes]> files);
  delete_file path files :=
    match files !! path with Some _ => (inr (), delete path files) | None => (inl "not found", files) end;
  create_dir_all _ files := (inr (), files)
}.

#[export] Instance memory_files_ok : AsyncFileSystemOk (gmap string string).
Proof.
  split with (contents := id); simpl.
  - intros path files bytes E. case_match; naive_solver.
  - intros path bytes files files' [= <-]. done.
  - intros path files files' E. case_match; naive_solver.
  - intros path files files' [= <-]. done.
Defined.

Definition shown_hunks : list HunkSyntax :=
  [AddSyntax "hello.txt" ["Hello"; ""];
   UpdateSyntax "app.py" (Some "main.py")
     [MkChunkSyntax None [Keep "import os"; Plus "import sys"] false;
      MkChunkSyntax (Some (Some "def greet():")) [Minus "    hi"; Plus "    hello"; Blank] true];
   DeleteSyntax "old.txt"].

Definition shown_patch : string := join (String LF "") (render_patch shown_hunks).

Definition shown_files : gmap string string :=
  {[ "/w/app.py" := unlines ["import os"; "def greet():"; "    hi"; ""]; "/w/old.txt" := "x"; "/w/kept.txt" := "y" ]}.

Definition shown_state : ToolState (F := gmap string string) := (shown_files, []).

Definition shown_chunks : list UpdateFileChunk :=
  [MkUpdateFileChunk None ["a"; "b"] ["a"; "B"] false;
   MkUpdateFileChunk (Some "fn") ["c"] ["C"; "D"] false;
   MkUpdateFileChunk None [] ["end"] false].


Lemma seek_finds_strictest_witness :
  ["b"] ≠ ([] : list string) ∧
  (seek_sequence ["a"; "b  "; "b"] ["b"] 0 false = Some 2%nat ↔ strictest ["a"; "b  "; "b"] ["b"] 0 2) ∧
  seek_sequence ["a"; "b  "; "b"] ["b"] 0 false = Some 2%nat.
Proof.
  split; [done|]. split; [|by vm_compute].
  exact (proj1 (proj2 (seek_finds_strictest ["a"; "b  "; "b"] ["b"] 0 ltac:(done))) 2%nat).
Defined.


(** Two hunks delete the same file: the second call fails. *)
Definition twice_deleted : string :=
  join (String LF "") ["*** Begin Patch"; "*** Delete File: old.txt"; "*** Delete File: old.txt"; "*** End Patch"].

Lemma tool_outcomes_witness :
  ∃ error st', run "/w" "call" twice_deleted shown_state = Some (inl error, st') ∧
  ∃ completed failed files e,
    performed completed shown_files files ∧ breaks failed files e st'.1 ∧
    st'.2 = completed ≫= notices "call" ∧ completed ≠ [].
Proof.
  destruct (tool_outcomes "/w" "call" twice_deleted shown_state) as (r & st' & Hr & Hm).
  assert (parse_patch twice_deleted = inr (MkParsedPatch [DeleteFile "old.txt"; DeleteFile "old.txt"] twice_deleted))
    as Hp by (vm_compute; reflexivity).
  assert (match run "/w" "call" twice_deleted shown_state with
          | Some (inl _, st) => bool_decide (length st.2 = 1%nat) | _ => false end = true)
    as Hrun by (vm_compute; reflexivity).
  rw Hp in Hm. rw Hr in Hrun. destruct r as [error|out]; [|done].
  destruct Hm as (completed & failed & rest & files & e & Hf & Hd & Hb & _ & Hn).
  exists error, st'. split; [exact Hr|]. exists completed, failed, files, e.
  split; [exact Hd|]. split; [exact Hb|]. split; [exact Hn|].
  intros ->. cbn in Hn. rw Hn in Hrun. discriminate.
Defined.

Definition is_success {S} (r : option ((ToolError + ApplyPatchOutput) * S)) : bool :=
  match r with Some (inr (Success _ _), _) => true | _ => false end.

Lemma is_success_run {S} (r : option ((ToolError + ApplyPatchOutput) * S)) :
  is_success r = true → ∃ files summary st', r = Some (inr (Success files summary), st').
Proof. destruct r as [[[e|[]] st']|]; try done. by eexists _, _, _. Qed.

Lemma tool_writes_witness :
  ∃ files summary st', run "/w" "call" shown_patch shown_state = Some (inr (Success files summary), st') ∧
  ∃ parsed changes, parse_patch shown_patch = inr parsed ∧
    Forall2 (asked shown_files "/w") (pp_hunks parsed) changes ∧
    (∀ p, p ∉ changes ≫= touched → st'.1 !! p = shown_files !! p).
Proof.
  assert (is_success (run "/w" "call" shown_patch shown_state) = true) as Hs by (vm_compute; reflexivity).
  destruct (is_success_run _ Hs) as (files & summary & st' & E).
  exists files, summary, st'. split; [exact E|].
  destruct (tool_writes "/w" "call" shown_patch shown_state st' files summary E)
    as (parsed & changes & Hp & Ha & _ & Hf & _).
  exists parsed, changes. split; [exact Hp|]. split; [exact Ha|exact Hf].
Defined.

(** Outside the hypotheses of the theorems: a chunk marked as the end of the file
    overlaps the chunk before it, and its line is lost. *)
Example eof_chunk_overlaps :
  derive_new_contents (unlines ["a"; "b"; "c"]) "f"
    [MkUpdateFileChunk None ["b"; "c"] ["x"] false; MkUpdateFileChunk None ["c"] ["z"] true] =
  Some (inr (unlines ["a"; "x"])).
Proof. vm_compute. reflexivity. Qed.

(** A chunk marked as the end of the file is looked for nowhere else. *)
Example eof_no_fallback : seek_sequence ["a"; "b"; "a"; "z"] ["b"] 0 true = None.
Proof. vm_compute. reflexivity. Qed.

(** A line added to a file that ends in a blank line is lost with that line. *)
Example added_line_lost :
  derive_new_contents (unlines ["a"; ""]) "f"
    [MkUpdateFileChunk None ["a"; ""] ["b"; ""] false; MkUpdateFileChunk None [] ["c"] false] =
  Some (inr (unlines ["b"; ""])).
Proof. vm_compute. reflexivity. Qed.

(** A blank line at the end of the file, or put there, passes for the final line
    feed and is lost. *)
Example blank_line_lost :
  derive_new_contents (unlines ["a"; ""]) "f" [MkUpdateFileChunk None ["a"] ["b"] false] = Some (inr (unlines ["b"])) ∧
  derive_new_contents (unlines ["a"; "b"]) "f" [MkUpdateFileChunk None ["b"] [""] false] = Some (inr (unlines ["a"])).
Proof. vm_compute. done. Qed.

(** Two headers in a row do not parse. *)
Example headers_in_a_row :
  ∃ m, parse_patch (join (String LF "")
    ["*** Begin Patch"; "*** Update File: f"; "@@ class A"; "@@ def g"; "-x"; "+y"; "*** End Patch"]) =
  inl (InvalidHunkError m 4).
Proof. eexists. vm_compute. reflexivity. Qed.

(** Of two updates of one file only the last stays; a file moved to its own path
    is gone. *)
Example updates_of_one_file :
  option_map (λ r : (ToolError + ApplyPatchOutput) * ToolState (F := gmap string string), r.2.1 !! "/w/f")
    (run "/w" "call" (join (String LF "")
       ["*** Begin Patch"; "*** Update File: f"; "@@"; "-a"; "+b"; "*** Update File: f"; "@@"; "-c"; "+d"; "*** End Patch"])
       ({[ "/w/f" := unlines ["a"; "c"] ]}, [])) = Some (Some (unlines ["a"; "d"])).
Proof. vm_compute. reflexivity. Qed.

Example moved_to_itself :
  option_map (λ r : (ToolError + ApplyPatchOutput) * ToolState (F := gmap string string), r.2.1 !! "/w/f")
    (run "/w" "call" (join (String LF "")
       ["*** Begin Patch"; "*** Update File: f"; "*** Move to: f"; "@@"; "-a"; "+b"; "*** End Patch"])
       ({[ "/w/f" := unlines ["a"] ]}, [])) = Some None.
Proof. vm_compute. reflexivity. Qed.
